(* ===== verification/_CoqProject ===== *)
-Q . S2P
Prelude.v
Env.v
Text.v
Extern.v
Errors.v
Packetizer.v
Encoder.v
EncoderThread.v
Proxy.v
Config.v
Control.v
Transport.v
Gateway.v
IngressOrder.v
WebRtc.v
Publisher.v
RtpOrder.v
Subscriber.v
Stun.v
Sdp.v
Handshake.v
Source.v
SourceTimeline.v
SourceFactory.v
Receipts.v
Registry.v
FramePublisher.v
Runtime.v
Lease.v
Connector.v
Pipeline.v
PipelineWs.v
