(* ===== verification/Prelude.v ===== *)
(** * Verification library of the PocketStation Relay connector

    The connector ([relay/src]) publishes the audio buses of a host application to a Relay
    and reads Relay buses back as sources.  This library translates its Rust code into
    executable definitions and proves what makes each part correct.

    ** The program

    - The application configures a route ([configuration.rs]), registers a connector
      ([connector.rs]) and is handed a receipt per route ([runtime.rs]).
    - The worker of a group prepares a transport: over WebRTC a STUN probe, a rewritten SDP
      offer and an ICE/DTLS handshake ([rtc/handshake.rs], [rtc/signaling.rs],
      [rtc/types.rs]); over WebSockets one authenticated connection per bus
      ([rtc/gateway.rs]), through a CONNECT proxy if there is one ([rtc/proxy.rs]).  A
      renewable capability governs it ([publisher_control.rs]).
    - While it runs, a feeder thread per route takes PCM frames from the host, an encoder
      thread cuts them into packets and encodes them ([audio/opus_worker.rs],
      [audio/pcm_packetizer.rs]), and the publisher thread sends them as RTP
      ([rtc/publisher.rs]) or WebSocket messages; [frame_publisher.rs] ties these together.
    - In the other direction [source.rs] drives a receive-only subscriber
      ([rtc/subscriber.rs]) and turns Opus frames into emissions of a Core source.

    ** The files and the code they model

    - [Prelude], [Env], [Text], [Extern], [Errors]: results, machine integers, bounded
      loops with their rules of invariants and termination, the monad [io] of fallible
      steps on a world, Rust strings, the interfaces of third-party crates, the errors the
      code downcasts.
    - [Packetizer], [Encoder]: [pcm_packetizer.rs], [opus_worker.rs], [latency_profile.rs];
      [EncoderThread]: the specification of a whole encoder thread, a reference cutter of
      its input and the six fates of a packet.
    - [Proxy]: [proxy.rs], and [resolve_before_deadline] of [handshake.rs].
    - [Config]: [configuration.rs], and [validate_bus] of [frame_publisher.rs].
    - [Control]: [publisher_control.rs]; [Control.Interleaving] is the step relation of its
      atomic actions.
    - [Transport], [Gateway]: the WebSocket library and the statistics; [gateway.rs].
      [IngressOrder] follows the frames through polls, failures and reattachments.
    - [WebRtc], [Publisher], [Subscriber]: [types.rs] and [signaling.rs], [publisher.rs],
      [subscriber.rs].  [RtpOrder] follows the frames through the publisher's loop.
    - [Stun], [Sdp], [Handshake]: the three parts of [handshake.rs].
    - [Source]: [source.rs].  [SourceTimeline] follows a prepared source over any number of
      calls of [next], with the subscriber under it.  [SourceFactory]: the installation on
      a session, the handles and their snapshots.
    - [Receipts]: the factory and the worker of [runtime.rs] over any transport;
      [Registry]: what they promise to the application, as a specification.
    - [FramePublisher]: [frame_publisher.rs].  [Runtime]: the native transport of
      [runtime.rs], with [Runtime.Feeder] its feeder thread.  [Lease]: the life of the
      publication lease across [Control], [Runtime], [FramePublisher] and [Gateway].
    - [Connector]: [connector.rs].
    - [Pipeline]: the bounded channels between the threads, and feeder, encoder and
      publisher composed along them; [PipelineWs]: the same with the ingress group, up to
      what a receiver decodes.

    A Rust struct is a [Record] with the names of its fields, an enum an [Inductive], an
    integer a [Z] with its wrap-around or saturation written out ([wrap_add], [sat_add]),
    [f32] the binary32 of [SpecFloat], a [Duration] or [Instant] a number of nanoseconds, a
    function returning [Result] an [io] computation.  What a thread observes and does not
    decide (sockets, clocks, channels whose other end is another thread, atomics others
    write, str0m, tungstenite, the url and JSON crates, Core) is an operation of a class on
    an arbitrary world, so theorems hold for everything the environment may do.  What a
    theorem needs of such an operation is a class of laws ([ClockLaws], [RtcLaws],
    [HandshakeTime], [LeaseLaws], ...); every such class has an instance, a scripted world,
    and the witnesses evaluate there.

    ** What the theorems show

    - Frames: an accepted frame is cut into exactly the consecutive packets of what is
      pending and itself, and the thread's RTP times are a strictly increasing grid
      ([Encoder]); the packetizer never leaves its buffer; the feeder accounts for every
      frame it takes but one that finds the encoder gone ([Runtime.Feeder]), an encoder
      thread for every sample up to a packet that finds the publisher gone
      ([EncoderThread]) and the publisher for every encoded frame, over RTP ([RtpOrder]) or
      WebSockets ([IngressOrder]); together, what reaches the wire is captured audio in
      order, and with the exceptions named the rest is counted or waits in a channel
      ([Pipeline]); over WebSockets a receiver decodes it with the times of its capture and
      increasing numbers, and at most one frame is refused on the way, the one that ends the
      publication ([PipelineWs]).
    - Transports: a WebSocket frame is queued once and counted once, its packet decodes to
      itself, an iteration always ends, and a reattachment admits the whole group at newer
      generations, every connection opened with the credential the control answered, or
      nothing ([Gateway]); the subscriber's handshake never mutates the engine undrained,
      the RTP loop at most once, with the timeout it starts with, which finds what the
      handshake left queued; no stream starves ([Publisher], [Handshake]); frames are read
      in order ([Subscriber]).
    - Startup: the verdict and the end of the connection loop, the answer's candidates kept
      in order, the STUN answer read exactly, the offer declaring the profile, the CONNECT
      exchange reading its headers only and the proxy being the only host dialled.
    - Lifecycle: revocation fences, credentials only advance, one lease at a time
      ([Control]); leases are always given up ([Lease]); receipts are reserved all or none,
      filled, and taken once, and refine a map of promises ([Receipts], [Registry]); every
      route gets an outcome and no failure is lost, a prepared group fits its routes
      ([Runtime]); a declared source is prepared once, and its handle reads
      what its driver counts ([SourceFactory]); it is prepared all or nothing ([Source]), and what it tells its session is an
      ordered timeline of the frames its connection delivered ([SourceTimeline]).
    - Contracts: every reachable configuration keeps its contract and its secrets; it
      survives the round trip through Core and conforms to the published schema, whose
      defaults are the code's, except for a blank source token, which no validation refuses
      ([Config], [Connector]).

    ** How the proofs go

    A computation [io] is a program of steps, and most invariants are relations every step
    keeps: [keeps R m] ([Env]) is that of a whole program, [never e m] that it never answers
    with an error.  The tactics [keep] and [nevers] follow the structure of a program and
    take the laws of its steps from the hint databases of the same names, to which each
    component adds its own; loops add the rules of [run_until] and [io_loop].  What a
    component promises to another is a class of laws, and the composed theorems are proved
    from these alone.

    ** Bounds and fuel

    A loop of the code is [run_until] with a bound, which answers [inl] when the bound is
    used up, and [io_loop], which makes that an error.  Loops the code itself bounds have a
    bound with a theorem that it is enough: [drain] of the encoder (each pass consumes a
    sample or completes a packet), [header_fuel] (16384 bytes of headers), [flush_bound],
    [ready_bound], [wait_bound] and [startup_bound] (a pass that goes on sleeps a
    millisecond or more before a deadline), [walk_fuel] (an attribute has four bytes), and
    [output_bound] (the engine has finitely many outputs before its timeout).  Loops that
    run until the environment ends them take the number of rounds as an argument, and their
    theorems hold for every number: the publication ([None] while it goes on), the feeder,
    the encoder thread, and the handshakes, where [connect_loop_ends] shows that some number
    of passes suffices and [answer_wait_outlives_deadline] that no number of messages does
    for the wait for the SDP answer.

    ** Not modelled

    - [audio/clock.rs]: one call into Core, the operation [monotonic_ns] of the encoder.
    - [lib.rs], [audio.rs], [rtc.rs]: module lists and re-exports; [Debug] redaction and
      other formatting beyond the error texts of [Receipts]; accessors;
      [RelayConnector::connector] and [register], which only call Core.
    - The interiors of str0m, tungstenite, native-tls, Opus, the url and JSON crates and
      Core: interfaces.  The JSON objects of the messages sent are modelled ([WebRtc]), their
      text and the parser of what is received are not.
    - Threads beside the modelled one: what the encoders and feeders do while the publisher
      runs is the publisher's world; each is modelled as a thread of its own, and [Pipeline]
      ties their worlds by the channels.  The counters the encoder and the publisher of a
      stream share are followed per thread: each theorem gives the increments of its own.
      Poisoning of mutexes is modelled where the code answers it, not where it [expect]s.
    - The panic of [Instant + Duration] behind the platform's last instant; [checked_add]
      and its error paths are modelled.  An index out of bounds in the STUN parse is
      modelled, as are the wrap-around of counters and the saturation of clocks.
    - The [expect] of [relay_error] on an empty message: its texts are the literals and
      [Display] texts of [Receipts], or those of errors of third-party crates.
    - Interleavings inside one call: a run sets the results of its group in one step with
      respect to the application's takings ([Receipts], [Registry]), and a handle reads the
      observations of a source between two calls of its driver ([SourceFactory]).
    - Tests, documentation, scripts, workflows and lock files. *)

From stdpp Require Export base tactics numbers list option gmap strings.
From Stdlib Require Export ZArith Lia.

Declare Scope relay_scope.
Delimit Scope relay_scope with relay.
#[global] Open Scope Z_scope.

(** ** Results: Rust's [Result<A, E>] *)

Inductive Result (E A : Type) : Type :=
| Ok (a : A)
| Err (e : E).
Arguments Ok {E A} a.
Arguments Err {E A} e.

#[export] Instance Result_ret E : MRet (Result E) := λ A a, Ok a.
#[export] Instance Result_bind E : MBind (Result E) :=
  λ A B f m, match m with Ok a => f a | Err e => Err e end.
#[export] Instance Result_fmap E : FMap (Result E) :=
  λ A B f m, match m with Ok a => Ok (f a) | Err e => Err e end.

(** [Result::map_err] *)
Definition map_err {E E' A} (f : E → E') (m : Result E A) : Result E' A :=
  match m with Ok a => Ok a | Err e => Err (f e) end.

(** [Option::ok_or] *)
Definition ok_or {E A} (e : E) (o : option A) : Result E A :=
  match o with Some a => Ok a | None => Err e end.

(** [Result::ok] *)
Definition ok {E A} (m : Result E A) : option A :=
  match m with Ok a => Some a | Err _ => None end.

Definition is_ok {E A} (m : Result E A) : bool :=
  match m with Ok _ => true | Err _ => false end.

Definition is_err {E A} (m : Result E A) : bool := negb (is_ok m).

(** [if c { return Err(e) }] as a statement of the error monad. *)
Definition guard_err {E} (c : bool) (e : E) : Result E unit :=
  if c then Err e else Ok ().

Lemma bind_Ok {E A B} (m : Result E A) (f : A → Result E B) b :
  m ≫= f = Ok b ↔ ∃ a, m = Ok a ∧ f a = Ok b.
Proof. destruct m; cbn; naive_solver. Qed.

Lemma guard_err_Ok {E} c (e : E) u : guard_err c e = Ok u ↔ c = false ∧ u = ().
Proof. destruct c, u; cbn; naive_solver. Qed.

(** [iter().map(f).collect::<Result<Vec<_>, _>>()]: stops at the first error. *)
Fixpoint collect {E A B} (f : A → Result E B) (l : list A) : Result E (list B) :=
  match l with
  | [] => Ok []
  | x :: xs => y ← f x; ys ← collect f xs; Ok (y :: ys)
  end.

Lemma collect_Ok {E A B} (f : A → Result E B) l ys :
  collect f l = Ok ys ↔ Forall2 (λ x y, f x = Ok y) l ys.
Proof.
  revert ys. induction l as [|x l IH]; intros ys; cbn.
  - split; [intros [= <-]; constructor | by inversion 1].
  - split.
    + intros (y & Hy & (zs & Hz & [= <-])%bind_Ok)%bind_Ok. constructor; [done|]. by apply IH.
    + inversion 1 as [|? y ? zs Hy Hz]; subst. rewrite Hy; cbn.
      apply IH in Hz. by rewrite Hz.
Qed.

(** ** Machine integers

    A [u64] is a [Z] in [0, 2^64); [saturating_*] clamps, [AtomicU64::fetch_add]
    wraps. *)

Definition U64_MAX : Z := 18446744073709551615.
Definition U32_MAX : Z := 4294967295.
Definition U16_MAX : Z := 65535.

Definition u64 (z : Z) : Prop := 0 ≤ z ≤ U64_MAX.

Definition sat_add (a b : Z) : Z := Z.min (a + b) U64_MAX.
Definition sat_sub (a b : Z) : Z := Z.max (a - b) 0.
Definition sat_mul (a b : Z) : Z := Z.min (a * b) U64_MAX.
Definition wrap_add (a b : Z) : Z := (a + b) mod 2 ^ 64.

(** [u64::try_from(x).unwrap_or(u64::MAX)] of a non-negative wide integer. *)
Definition u64_or_max (z : Z) : Z := if z <=? U64_MAX then z else U64_MAX.

Ltac u64_unfold :=
  unfold u64, sat_add, sat_sub, sat_mul, u64_or_max, U64_MAX, U32_MAX, U16_MAX in *.

Lemma sat_add_u64 a b : u64 a → 0 ≤ b → u64 (sat_add a b).
Proof. u64_unfold; lia. Qed.
Lemma sat_sub_u64 a b : u64 a → 0 ≤ b → u64 (sat_sub a b).
Proof. u64_unfold; lia. Qed.
Lemma sat_add_exact a b : a + b ≤ U64_MAX → sat_add a b = a + b.
Proof. u64_unfold; lia. Qed.
Lemma sat_add_below a b : sat_add a b < U64_MAX → sat_add a b = a + b.
Proof. unfold sat_add. lia. Qed.
Lemma sat_add_mono a b : a ≤ U64_MAX → 0 ≤ b → a ≤ sat_add a b.
Proof. u64_unfold; lia. Qed.
Lemma sat_mul_u64 a b : 0 ≤ a → 0 ≤ b → u64 (sat_mul a b).
Proof. u64_unfold; nia. Qed.
Lemma wrap_add_u64 a b : u64 (wrap_add a b).
Proof.
  unfold wrap_add, u64, U64_MAX. pose proof (Z.mod_pos_bound (a + b) (2 ^ 64)). lia.
Qed.
Lemma wrap_add_exact a b : u64 (a + b) → wrap_add a b = a + b.
Proof. unfold u64, U64_MAX, wrap_add; intros. apply Z.mod_small. lia. Qed.
Lemma u64_or_max_u64 z : 0 ≤ z → u64 (u64_or_max z).
Proof. u64_unfold; intros; case_match; lia. Qed.

(** Counters are compared modulo their width. *)
Lemma wrap_mod (x n : Z) : wrap_add x n mod 2 ^ 64 = (x + n) mod 2 ^ 64.
Proof. unfold wrap_add. by rewrite Z.mod_mod. Qed.
Lemma mod_add_trans (a b c x y : Z) :
  b mod 2 ^ 64 = (a + x) mod 2 ^ 64 → c mod 2 ^ 64 = (b + y) mod 2 ^ 64 →
  c mod 2 ^ 64 = (a + (x + y)) mod 2 ^ 64.
Proof.
  intros E1 E2. rewrite E2, <- Z.add_mod_idemp_l, E1, Z.add_mod_idemp_l by done. f_equal. lia.
Qed.

Create HintDb relay.
#[export] Hint Resolve sat_add_u64 sat_sub_u64 sat_mul_u64 wrap_add_u64 u64_or_max_u64
  sat_add_mono : relay.

(** ** List lemmas shared by the components *)

Lemma take_app_full {A} n (l k : list A) : length l = n → take n (l ++ k) = l.
Proof. intros <-. apply take_app_length. Qed.
Lemma drop_app_full {A} n (l k : list A) : length l = n → drop n (l ++ k) = k.
Proof. intros <-. apply drop_app_length. Qed.

(** Decide a boolean condition in a hypothesis or the goal and record both sides. *)
Ltac bool_cases :=
  repeat match goal with
  | H : context [if ?b then _ else _] |- _ => destruct b eqn:?; cbn in H
  | |- context [if ?b then _ else _] => destruct b eqn:?; cbn
  end; try done.

(** Turn boolean comparisons in the context into propositions. *)
Ltac bool_props :=
  repeat match goal with
  | H : (_ && _)%bool = true |- _ => apply andb_prop in H; destruct H
  | H : (_ || _)%bool = false |- _ => apply orb_false_elim in H; destruct H
  | H : negb _ = true |- _ => apply negb_true_iff in H
  | H : negb _ = false |- _ => apply negb_false_iff in H
  | H : (_ =? _) = true |- _ => apply Z.eqb_eq in H
  | H : (_ =? _) = false |- _ => apply Z.eqb_neq in H
  | H : (_ <=? _) = true |- _ => apply Z.leb_le in H
  | H : (_ <=? _) = false |- _ => apply Z.leb_gt in H
  | H : (_ <? _) = true |- _ => apply Z.ltb_lt in H
  | H : (_ <? _) = false |- _ => apply Z.ltb_ge in H
  | H : (_ <? _)%nat = true |- _ => apply Nat.ltb_lt in H
  | H : (_ <? _)%nat = false |- _ => apply Nat.ltb_ge in H
  | H : (_ <=? _)%nat = true |- _ => apply Nat.leb_le in H
  | H : (_ <=? _)%nat = false |- _ => apply Nat.leb_gt in H
  | H : bool_decide _ = true |- _ => apply bool_decide_eq_true_1 in H
  | H : bool_decide _ = false |- _ => apply bool_decide_eq_false_1 in H
  end.

(** What holds of a list holds of a part of it. *)
Lemma Forall_sublist {A} (P : A → Prop) (l k : list A) : l `sublist_of` k → Forall P k → Forall P l.
Proof.
  induction 1 as [|x l k _ IH|x l k _ IH]; [done|..]; intros [Hx Hk]%Forall_cons; [|by apply IH].
  constructor; [done|by apply IH].
Qed.

Lemma Forall2_sublist {A B} (R : A → B → Prop) l k k' :
  Forall2 R l k → k' `sublist_of` k → ∃ l', l' `sublist_of` l ∧ Forall2 R l' k'.
Proof.
  intros Hl Hs. revert l Hl. induction Hs as [|y k' k Hs IH|y k' k Hs IH]; intros l Hl.
  - exists []. split; [apply sublist_nil_l|constructor].
  - inversion Hl as [|x ? l0 ? Hx Hl0]; subst. destruct (IH l0 Hl0) as (l' & H1 & H2).
    exists (x :: l'). split; [by apply sublist_skip|by constructor].
  - inversion Hl as [|x ? l0 ? Hx Hl0]; subst. destruct (IH l0 Hl0) as (l' & H1 & H2).
    exists l'. split; [by apply sublist_cons|done].
Qed.

(** ** Bounded loops

    [run_until p body s] runs [body] at most [p] times, until it answers [inr]; [inl]
    is the next state.  The binary bound makes large bounds executable. *)

Fixpoint run_until {S R : Type} (p : positive) (body : S → S + R) (s : S) : S + R :=
  match p with
  | xH => body s
  | xO q => match run_until q body s with inl s => run_until q body s | inr r => inr r end
  | xI q =>
      match body s with
      | inl s => match run_until q body s with inl s => run_until q body s | inr r => inr r end
      | inr r => inr r
      end
  end.

Section RunUntil.
Context {S R : Type} (body : S → S + R) (I : S → Prop) (Q : R → Prop).

(** Rule of invariants. *)
Lemma run_until_invariant p s :
  I s → (∀ s s', I s → body s = inl s' → I s') → (∀ s r, I s → body s = inr r → Q r) →
  match run_until p body s with inl s' => I s' | inr r => Q r end.
Proof.
  intros Hs Hstep Hdone. revert s Hs. induction p as [q IH|q IH|]; intros s Hs; cbn.
  - destruct (body s) as [s1|r] eqn:E; [|by eapply Hdone].
    pose proof (IH s1 (Hstep _ _ Hs E)) as H1. destruct (run_until q body s1); [by apply IH|done].
  - pose proof (IH s Hs) as H1. destruct (run_until q body s); [by apply IH|done].
  - destruct (body s) eqn:E; eauto.
Qed.

(** Rule of termination: a variant that every further round decreases. *)
Lemma run_until_terminates p s (μ : S → Z) :
  I s → (∀ s s', I s → body s = inl s' → I s' ∧ 0 ≤ μ s' < μ s) → μ s < Zpos p →
  ∃ r, run_until p body s = inr r.
Proof.
  intros Hs Hstep Hp.
  assert (∀ p s, I s → match run_until p body s with
                       | inl s' => I s' ∧ 0 ≤ μ s' ∧ μ s' + Zpos p ≤ μ s
                       | inr _ => True end) as H.
  { clear p s Hs Hp. induction p as [q IH|q IH|]; intros s Hs; cbn.
    - destruct (body s) as [s1|r] eqn:E; [|done]. destruct (Hstep _ _ Hs E) as [H1 Hμ1].
      pose proof (IH s1 H1) as H2. destruct (run_until q body s1) as [s2|]; [|done].
      destruct H2 as (H2 & _ & Hμ2). pose proof (IH s2 H2) as H3.
      destruct (run_until q body s2) as [s3|]; [|done]. destruct H3 as (? & ? & ?).
      repeat split; [done|lia|lia].
    - pose proof (IH s Hs) as H2. destruct (run_until q body s) as [s2|]; [|done].
      destruct H2 as (H2 & _ & Hμ2). pose proof (IH s2 H2) as H3.
      destruct (run_until q body s2) as [s3|]; [|done]. destruct H3 as (? & ? & ?).
      repeat split; [done|lia|lia].
    - destruct (body s) as [s1|r] eqn:E; [|done]. destruct (Hstep _ _ Hs E).
      repeat split; [done|lia|lia]. }
  specialize (H p s Hs). destruct (run_until p body s) as [s'|r]; [|by eexists].
  destruct H as (_ & ? & ?). lia.
Qed.

(** The same rounds counted in unary. *)
Fixpoint run_rounds (n : nat) (s : S) : S + R :=
  match n with
  | O => inl s
  | Datatypes.S n => match body s with inl s => run_rounds n s | inr r => inr r end
  end.

Lemma run_rounds_add n m s :
  run_rounds (n + m) s = match run_rounds n s with inl s => run_rounds m s | inr r => inr r end.
Proof. revert s. induction n as [|n IH]; intros s; cbn; [done|]. destruct (body s); [apply IH|done]. Qed.

Lemma run_until_rounds p s : run_until p body s = run_rounds (Pos.to_nat p) s.
Proof.
  revert s. induction p as [q IH|q IH|]; intros s; cbn [run_until].
  - rewrite Pos2Nat.inj_xI. cbn [run_rounds Nat.mul]. destruct (body s) as [s1|]; [|done].
    rewrite Nat.add_0_r, run_rounds_add, IH. destruct (run_rounds _ s1); [apply IH|done].
  - rewrite Pos2Nat.inj_xO. cbn [Nat.mul]. rewrite Nat.add_0_r, run_rounds_add, IH.
    destruct (run_rounds _ s); [apply IH|done].
  - change (Pos.to_nat 1) with 1%nat. cbn. by destruct (body s).
Qed.

(** Rule of termination without a bound known in advance: every further round decreases
    the first variant, or keeps it from growing and decreases the second. *)
Lemma run_until_lexicographic s (μ ν : S → Z) :
  I s → (∀ s s', I s → body s = inl s' →
    I s' ∧ (0 ≤ μ s' < μ s ∨ μ s' = μ s ∧ 0 ≤ ν s' < ν s)) →
  ∃ p r, run_until p body s = inr r.
Proof.
  intros Hs Hstep.
  assert (∀ m n s, I s → (Z.to_nat (μ s) < m)%nat → (Z.to_nat (ν s) < n)%nat →
    ∃ k r, run_rounds k s = inr r) as H.
  { clear s Hs. induction m as [|m IHm]; intros n; [lia|].
    induction n as [|n IHn]; intros s Hs Hm Hn; [lia|].
    destruct (body s) as [s'|r] eqn:E; [|exists 1%nat, r; cbn; by rewrite E].
    destruct (Hstep s s' Hs E) as [Hs' Hdec].
    assert (∃ k r, run_rounds k s' = inr r) as (k & r & Hk).
    { destruct Hdec as [Hdec|Hdec]; [apply (IHm (Datatypes.S (Z.to_nat (ν s')))); [done|lia..]|].
      apply IHn; [done|lia..]. }
    exists (Datatypes.S k), r. cbn. by rewrite E. }
  destruct (H _ _ s Hs (Nat.lt_succ_diag_r _) (Nat.lt_succ_diag_r _)) as (k & r & Hk).
  exists (Pos.of_succ_nat k), r. rewrite run_until_rounds, SuccNat2Pos.id_succ.
  replace (Datatypes.S k) with (k + 1)%nat by lia. by rewrite run_rounds_add, Hk.
Qed.
End RunUntil.
