(* ===== verification/Env.v ===== *)
(** * The environment of the connector's threads

    Everything a worker observes but does not decide is an operation on an
    arbitrary world [W]: the monotonic clock, the liveness of an application
    output generation, channels whose other end is another thread, sockets.  An
    operation returns what it observed and the world after it, so two
    observations of the same thing may differ: every interleaving with other
    threads is some world.  The classes below are the interfaces; what a theorem
    needs of them is a class of laws. *)

From S2P Require Import Prelude.

(** [std::time::Instant] is a number of nanoseconds. *)
Definition MILLISECOND : Z := 1000000.
Definition SECOND : Z := 1000000000.

(** [Instant::now()], [thread::sleep], and the latest instant the platform represents. *)
Class Clock (W : Type) : Type := {
  now : W → Z * W;
  sleep : Z → W → W;
  instant_max : Z;
}.

(** [Instant::checked_add] *)
Definition checked_add (W : Type) `{Clock W} (t d : Z) : option Z :=
  if t + d <=? instant_max (W := W) then Some (t + d) else None.

Lemma checked_add_Some W `{Clock W} t d u : checked_add W t d = Some u → u = t + d.
Proof. unfold checked_add. case_match; [congruence|done]. Qed.

(** A monotonic clock: the reading lies between the instants before and after the
    call, and a sleep lasts at least its duration, as the standard library
    documents both. *)
Class ClockLaws (W : Type) `{Clock W} (time : W → Z) : Prop := {
  now_reads w : time w ≤ (now w).1 ≤ time (now w).2;
  sleep_lasts d w : 0 ≤ d → time w + d ≤ time (sleep d w);
}.

(** [pocketstation::OutputGeneration]: a handle with a numeric identity whose
    [is_active] flips to false when the application cancels the output. *)
Record OutputGeneration : Type := mkGeneration { generation_id : Z }.

#[export] Instance OutputGeneration_eq_dec : EqDecision OutputGeneration.
Proof. solve_decision. Defined.

Class Generations (W : Type) : Type := {
  is_active : OutputGeneration → W → bool * W;
}.

(** [generation.as_ref().is_some_and(|g| !g.is_active())] *)
Definition generation_cancelled {W} `{Generations W} (g : option OutputGeneration) (w : W)
  : bool * W :=
  match g with
  | Some g => let '(active, w) := is_active g w in (negb active, w)
  | None => (false, w)
  end.

(** ** A world-passing error monad for code that returns [Result] *)

Definition io (W E A : Type) : Type := W → Result E A * W.

#[export] Instance io_ret W E : MRet (io W E) := λ A a w, (Ok a, w).
#[export] Instance io_bind W E : MBind (io W E) :=
  λ A B f m w, match m w with
               | (Ok a, w') => f a w'
               | (Err e, w') => (Err e, w')
               end.

Definition io_fun {W E A} (f : W → Result E A * W) : io W E A := f.
Definition io_lift {W E A} (m : W → A * W) : io W E A := λ w, let '(a, w) := m w in (Ok a, w).
Definition io_fail {W E A} (e : E) : io W E A := λ w, (Err e, w).
Definition io_result {W E A} (r : Result E A) : io W E A := λ w, (r, w).
Definition io_modify {W E} (f : W → W) : io W E unit := λ w, (Ok (), f w).

Lemma io_bind_Ok {W E A B} (m : io W E A) (f : A → io W E B) w b w' :
  (m ≫= f) w = (Ok b, w') ↔ ∃ a w1, m w = (Ok a, w1) ∧ f a w1 = (Ok b, w').
Proof.
  unfold mbind, io_bind. destruct (m w) as [[a|e] w1]; split.
  - intros ?. by exists a, w1.
  - intros (? & ? & [= <- <-] & ?). done.
  - intros [=].
  - intros (? & ? & [=] & ?).
Qed.

Lemma io_bind_Err {W E A B} (m : io W E A) (f : A → io W E B) w e w' :
  (m ≫= f) w = (Err e, w') ↔
  m w = (Err e, w') ∨ ∃ a w1, m w = (Ok a, w1) ∧ f a w1 = (Err e, w').
Proof.
  unfold mbind, io_bind. destruct (m w) as [[a|e1] w1]; split.
  - intros ?. right. by exists a, w1.
  - intros [[=]|(? & ? & [= <- <-] & ?)]. done.
  - intros [= <- <-]. by left.
  - intros [[= <- <-]|(? & ? & [=] & ?)]. done.
Qed.

Lemma io_lift_Ok {W E A} (m : W → A * W) w (a : A) w' :
  io_lift (E := E) m w = (Ok a, w') → m w = (a, w').
Proof. unfold io_lift. destruct (m w). congruence. Qed.

(** A loop in the monad: [Ok None] continues, [Ok (Some a)] leaves with [a].  When the
    bound is used up the result is [exhausted]; each loop has a theorem that it is not. *)
Definition io_round {W E A} (body : io W E (option A)) (w : W) : W + (Result E A * W) :=
  match body w with
  | (Ok None, w) => inl w
  | (Ok (Some a), w) => inr (Ok a, w)
  | (Err e, w) => inr (Err e, w)
  end.

Definition io_loop {W E A} (bound : positive) (exhausted : E) (body : io W E (option A))
  : io W E A :=
  λ w, match run_until bound (io_round body) w with
       | inl w => (Err exhausted, w)
       | inr r => r
       end.

(** An invariant of the body's rounds holds after the loop. *)
Lemma io_loop_invariant {W E A} bound e (body : io W E (option A)) (I : W → Prop)
  (Q : Result E A → W → Prop) w :
  I w → (∀ w w', I w → body w = (Ok None, w') → I w') →
  (∀ w a w', I w → body w = (Ok (Some a), w') → Q (Ok a) w') →
  (∀ w e w', I w → body w = (Err e, w') → Q (Err e) w') →
  (∀ w, I w → Q (Err e) w) →
  Q (io_loop bound e body w).1 (io_loop bound e body w).2.
Proof.
  intros Hw Hc Hd Hf He. unfold io_loop.
  pose proof (run_until_invariant (io_round body) I (λ r, Q r.1 r.2) bound w Hw) as H.
  destruct (run_until _ _ w) as [w'|[r w']]; [apply He, H|apply H]; unfold io_round;
    intros w1 x Hw1 Hx; destruct (body w1) as [[[a|]|e'] w2] eqn:Eb; simplify_eq; eauto.
Qed.

(** With a variant below the bound the loop never exhausts it: the result is one the
    body gave. *)
Lemma io_loop_total {W E A} bound e (body : io W E (option A)) (I : W → Prop) (μ : W → Z) w :
  I w → (∀ w w', I w → body w = (Ok None, w') → I w' ∧ 0 ≤ μ w' < μ w) → μ w < Zpos bound →
  ∃ w0 r w', I w0 ∧ io_loop bound e body w = (r, w') ∧
    match r with
    | Ok a => body w0 = (Ok (Some a), w')
    | Err e' => body w0 = (Err e', w')
    end.
Proof.
  intros Hw Hc Hb.
  assert (∃ r, run_until bound (io_round body) w = inr r) as [r Hr].
  { apply (run_until_terminates _ I _ _ μ); [done| |done]. intros w1 w2 H1 H2.
    unfold io_round in H2. destruct (body w1) as [[[a|]|e'] w3] eqn:Eb; simplify_eq. eauto. }
  pose proof (run_until_invariant (io_round body) I
    (λ r, ∃ w0, I w0 ∧ io_round body w0 = inr r) bound w Hw) as H.
  rewrite Hr in H. destruct H as (w0 & Hw0 & Hround).
  { intros w1 w2 H1 H2. unfold io_round in H2. destruct (body w1) as [[[a|]|e'] w3] eqn:Eb; simplify_eq.
    eapply Hc; eauto. }
  { intros w1 r1 H1 H2. eauto. }
  unfold io_round in Hround. destruct (body w0) as [[[a|]|e'] w3] eqn:Eb; simplify_eq.
  - exists w0, (Ok a), w3. unfold io_loop. by rewrite Hr.
  - exists w0, (Err e'), w3. unfold io_loop. by rewrite Hr.
Qed.

(** [iter().enumerate().map(f)] where [f] acts on the world. *)
Fixpoint imap_world_from {W A B} (index : nat) (f : nat → A → W → B * W) (l : list A) (w : W)
  : list B * W :=
  match l with
  | [] => ([], w)
  | a :: l =>
      let '(b, w) := f index a w in
      let '(bs, w) := imap_world_from (S index) f l w in
      (b :: bs, w)
  end.
Definition imap_world {W A B} (f : nat → A → W → B * W) : list A → W → list B * W :=
  imap_world_from 0 f.

Lemma imap_world_from_length {W A B} index (f : nat → A → W → B * W) l w :
  length (imap_world_from index f l w).1 = length l.
Proof.
  revert index w. induction l as [|a l IH]; intros index w; [done|]. cbn.
  destruct (f index a w) as [b w1]. specialize (IH (S index) w1).
  destruct (imap_world_from _ f l w1). cbn in *. congruence.
Qed.

(** A property of every result, when each call establishes it. *)
Lemma imap_world_from_Forall {W A B} index (f : nat → A → W → B * W) (P : B → Prop) l w :
  (∀ i a w, P (f i a w).1) → Forall P (imap_world_from index f l w).1.
Proof.
  intros Hf. revert index w. induction l as [|a l IH]; intros index w; [constructor|]. cbn.
  specialize (Hf index a w). destruct (f index a w) as [b w1]. specialize (IH (S index) w1).
  destruct (imap_world_from _ f l w1). by constructor.
Qed.

(** ** What operations keep

    [keeps R m]: running [m] moves the world along the preorder [R]: time only
    advances, a log is only extended, a flag is unchanged. *)

Section Keeps.
Context {W E : Type} (R : relation W) `{!PreOrder R}.

Definition keeps {A} (m : io W E A) : Prop := ∀ w, R w (m w).2.

Lemma keeps_ret {A} (a : A) : keeps (mret a).
Proof. by intros w. Qed.
Lemma keeps_fail {A} (e : E) : keeps (A := A) (io_fail e).
Proof. by intros w. Qed.
Lemma keeps_result {A} (r : Result E A) : keeps (io_result r).
Proof. by intros w. Qed.
Lemma keeps_lift {A} (m : W → A * W) : (∀ w, R w (m w).2) → keeps (io_lift m).
Proof. intros Hm w. unfold io_lift. specialize (Hm w). by destruct (m w). Qed.
Lemma keeps_modify (f : W → W) : (∀ w, R w (f w)) → keeps (io_modify f).
Proof. intros Hf w. apply Hf. Qed.
Lemma keeps_bind {A B} (m : io W E A) (f : A → io W E B) :
  keeps m → (∀ a, keeps (f a)) → keeps (m ≫= f).
Proof.
  intros Hm Hf w. unfold mbind, io_bind. specialize (Hm w).
  destruct (m w) as [[a|e] w']; [|done]. etrans; [apply Hm|apply Hf].
Qed.
Lemma keeps_loop {A} bound e (body : io W E (option A)) :
  keeps body → keeps (io_loop bound e body).
Proof.
  intros Hb w.
  apply (io_loop_invariant bound e body (R w) (λ _ w', R w w')); [done|..];
    intros w1; [intros w2|intros a w2|intros e' w2|done]; intros H1 H2; specialize (Hb w1);
    rewrite H2 in Hb; by etrans.
Qed.
End Keeps.

(** [keep] follows the structure of a computation; what is left are its calls into the
    world and the functions it uses, for which [keeps] holds the laws and lemmas. *)
Create HintDb keeps.

Ltac keep_step :=
  lazymatch goal with
  | |- keeps _ (mbind _ _) => apply keeps_bind; [exact _| |]
  | |- keeps _ (io_bind _ _ _ _ _ _) => apply keeps_bind; [exact _| |]
  | |- keeps _ (mret _) => apply keeps_ret; exact _
  | |- keeps _ (io_fail _) => apply keeps_fail; exact _
  | |- keeps _ (io_result _) => apply keeps_result; exact _
  | |- keeps _ (io_lift _) => apply keeps_lift
  | |- keeps _ (io_modify _) => apply keeps_modify
  | |- keeps _ (io_loop _ _ _) => apply keeps_loop; [exact _|]
  | |- keeps _ (match ?x with _ => _ end) => first [progress cbn [negb] | destruct x]
  | |- keeps _ (let _ := _ in _) => cbv zeta
  | |- ∀ _, _ => intro
  | |- _ => solve [eauto with keeps]
  end.
Ltac keep := repeat keep_step.

(** Time does not run backwards. *)
Definition later {W} (time : W → Z) (w w' : W) : Prop := time w ≤ time w'.

#[export] Instance later_preorder {W} (time : W → Z) : PreOrder (later time).
Proof. unfold later. split; [intros w|intros a b c]; lia. Qed.

Lemma keeps_time {W E A} (time : W → Z) (m : io W E A) w r w' :
  keeps (later time) m → m w = (r, w') → time w ≤ time w'.
Proof. intros Hk Hm. specialize (Hk w). rewrite Hm in Hk. exact Hk. Qed.

(** ** Errors a program never answers

    [never e m]: whatever the world, [m] does not fail with [e]; with the error of an
    exhausted loop it says that the program always comes to an answer of its own. *)

Section Never.
Context {W E : Type} (e : E).

Definition never {A} (m : io W E A) : Prop := ∀ w, (m w).1 ≠ Err e.

Lemma never_ret {A} (a : A) : never (mret a).
Proof. by intros w. Qed.
Lemma never_fail {A} (e' : E) : e' ≠ e → never (A := A) (io_fail e').
Proof. intros He w. cbn. congruence. Qed.
Lemma never_result {A} (r : Result E A) : r ≠ Err e → never (io_result r).
Proof. by intros Hr w. Qed.
Lemma never_lift {A} (m : W → A * W) : never (io_lift m).
Proof. intros w. unfold io_lift. by destruct (m w). Qed.
Lemma never_modify (f : W → W) : never (io_modify f).
Proof. by intros w. Qed.
Lemma never_bind {A B} (m : io W E A) (f : A → io W E B) :
  never m → (∀ a, never (f a)) → never (m ≫= f).
Proof.
  intros Hm Hf w. unfold mbind, io_bind. specialize (Hm w).
  destruct (m w) as [[a|e'] w']; cbn in *; [apply Hf|congruence].
Qed.
End Never.

(** [nevers] is to [never] what [keep] is to [keeps]. *)
Create HintDb never.

Ltac never_step :=
  lazymatch goal with
  | |- never _ (mbind _ _) => apply never_bind
  | |- never _ (io_bind _ _ _ _ _ _) => apply never_bind
  | |- never _ (mret _) => apply never_ret
  | |- never _ (io_fail _) => apply never_fail; first [done | congruence]
  | |- never _ (io_lift _) => apply never_lift
  | |- never _ (io_modify _) => apply never_modify
  | |- never _ (match ?x with _ => _ end) => first [progress cbn [negb] | destruct x]
  | |- never _ (let _ := _ in _) => cbv zeta
  | |- ∀ _, _ => intro
  | |- _ => solve [eauto with never]
  end.
Ltac nevers := repeat never_step.

#[export] Hint Extern 1 (never _ (io_result _)) =>
  apply never_result;
  solve [ done
        | match goal with |- context [ok_or _ ?o] => by destruct o end
        | match goal with |- context [map_err _ ?r] => by destruct r end
        | eauto with never ] : never.

(** The same from worlds that satisfy [P], a condition every step keeps. *)
Section NeverFrom.
Context {W E : Type} (e : E) (R : relation W) (P : W → Prop).
Context (HP : ∀ w w', R w w' → P w → P w').

Definition never_from {A} (m : io W E A) : Prop := ∀ w, P w → (m w).1 ≠ Err e.

Lemma never_from_never {A} (m : io W E A) : never e m → never_from m.
Proof. intros Hm w _. apply Hm. Qed.

Lemma never_from_bind {A B} (m : io W E A) (f : A → io W E B) :
  keeps R m → never_from m → (∀ a, never_from (f a)) → never_from (m ≫= f).
Proof.
  intros Hk Hm Hf w Hw. unfold mbind, io_bind. specialize (Hm w Hw). specialize (Hk w).
  destruct (m w) as [[a|e'] w']; cbn in *; [|congruence]. eapply Hf, HP; eauto.
Qed.
End NeverFrom.

(** ** Loops that a deadline ends *)

Section Deadline.
Context {W E : Type} (time : W → Z).

(** The rounds that still fit before the deadline when each takes at least [step]. *)
Definition rounds_left (deadline step : Z) (w : W) : Z :=
  if deadline <=? time w then 0 else 1 + (deadline - time w) / step.

Lemma rounds_left_decreases deadline step w w' :
  0 < step → time w < deadline → time w + step ≤ time w' →
  0 ≤ rounds_left deadline step w' < rounds_left deadline step w.
Proof.
  intros Hs Hw Hw'. unfold rounds_left.
  destruct (Z.leb_spec deadline (time w)); [lia|].
  assert (0 ≤ (deadline - time w) / step) by (apply Z.div_pos; lia).
  destruct (Z.leb_spec deadline (time w')); [lia|].
  assert ((deadline - time w') / step ≤ (deadline - time w + -1 * step) / step)
    by (apply Z.div_le_mono; lia).
  rewrite Z.div_add in * by lia.
  assert (0 ≤ (deadline - time w') / step) by (apply Z.div_pos; lia). lia.
Qed.

(** A round that only continues before the deadline, and takes at least [step] when it
    does, is repeated at most [n + 1] times. *)
Lemma deadline_loop_total {A} bound e (body : io W E (option A)) deadline step n w :
  0 < step →
  (∀ w w', body w = (Ok None, w') → time w < deadline ∧ time w + step ≤ time w') →
  deadline - time w ≤ n * step → 0 ≤ n → n + 1 < Zpos bound →
  ∃ w0 r w', io_loop bound e body w = (r, w') ∧
    match r with
    | Ok a => body w0 = (Ok (Some a), w')
    | Err e' => body w0 = (Err e', w')
    end.
Proof.
  intros Hs Hbody Hn Hn0 Hb.
  destruct (io_loop_total bound e body (λ _, True) (rounds_left deadline step) w)
    as (w0 & r & w' & _ & Hr & Hm); [done| | |by exists w0, r, w'].
  - intros w1 w2 _ [Hw1 Hw2]%Hbody. split; [done|]. by apply rounds_left_decreases.
  - unfold rounds_left. destruct (Z.leb_spec deadline (time w)); [lia|].
    assert ((deadline - time w) / step ≤ n); [|lia].
    apply Z.div_le_upper_bound; lia.
Qed.
End Deadline.
