(* ===== verification/Text.v ===== *)
(** * Rust strings

    A [str] is the list of its Unicode scalar values; [len] counts UTF-8 bytes.
    The operations are the standard library's, as the connector uses them.
    [lit] embeds an ASCII literal. *)

From S2P Require Import Prelude.

Definition text : Type := list Z.

Definition code_of_ascii (a : Ascii.ascii) : Z := Z.of_N (Ascii.N_of_ascii a).

Fixpoint lit (s : string) : text :=
  match s with
  | EmptyString => []
  | String a s => code_of_ascii a :: lit s
  end.

Definition chr (s : string) : Z := match lit s with c :: _ => c | [] => 0 end.

(** ** UTF-8 *)

Definition scalar (c : Z) : Prop := 0 ≤ c < 55296 ∨ 57344 ≤ c < 1114112.

Definition utf8_len (c : Z) : nat :=
  if c <? 128 then 1 else if c <? 2048 then 2 else if c <? 65536 then 3 else 4.

(** [str::len] *)
Definition len (t : text) : nat := foldr (λ c n, (utf8_len c + n)%nat) 0%nat t.

(** The UTF-8 bytes, each a [Z] below 256. *)
Definition utf8_encode_char (c : Z) : list Z :=
  if c <? 128 then [c]
  else if c <? 2048 then [192 + c / 64; 128 + c mod 64]
  else if c <? 65536 then [224 + c / 4096; 128 + (c / 64) mod 64; 128 + c mod 64]
  else [240 + c / 262144; 128 + (c / 4096) mod 64; 128 + (c / 64) mod 64; 128 + c mod 64].

Definition utf8_encode (t : text) : list Z := t ≫= utf8_encode_char.

Definition continuation (b : Z) : bool := (128 <=? b) && (b <? 192).

(** [String::from_utf8]: strict UTF-8, refusing overlong forms and surrogates.
    [fuel] is the number of bytes. *)
Fixpoint utf8_decode_fuel (fuel : nat) (bytes : list Z) : option text :=
  match fuel with
  | O => match bytes with [] => Some [] | _ => None end
  | S fuel =>
      match bytes with
      | [] => Some []
      | b0 :: rest =>
          if (0 <=? b0) && (b0 <? 128) then cons b0 <$> utf8_decode_fuel fuel rest
          else match rest with
          | b1 :: rest1 =>
              if negb (continuation b1) then None
              else if (194 <=? b0) && (b0 <? 224)
              then cons ((b0 - 192) * 64 + (b1 - 128)) <$> utf8_decode_fuel fuel rest1
              else match rest1 with
              | b2 :: rest2 =>
                  if negb (continuation b2) then None
                  else if (224 <=? b0) && (b0 <? 240) then
                    let c := (b0 - 224) * 4096 + (b1 - 128) * 64 + (b2 - 128) in
                    if (c <? 2048) || ((55296 <=? c) && (c <? 57344)) then None
                    else cons c <$> utf8_decode_fuel fuel rest2
                  else match rest2 with
                  | b3 :: rest3 =>
                      if negb (continuation b3) then None
                      else if (240 <=? b0) && (b0 <? 245) then
                        let c := (b0 - 240) * 262144 + (b1 - 128) * 4096
                                 + (b2 - 128) * 64 + (b3 - 128) in
                        if (c <? 65536) || (1114112 <=? c) then None
                        else cons c <$> utf8_decode_fuel fuel rest3
                      else None
                  | [] => None
                  end
              | [] => None
              end
          | [] => None
          end
      end
  end.

Definition utf8_decode (bytes : list Z) : option text := utf8_decode_fuel (length bytes) bytes.

(** ** Characters *)

(** [char::is_whitespace]: the White_Space property. *)
Definition is_whitespace (c : Z) : bool :=
  ((9 <=? c) && (c <=? 13)) || (c =? 32) || (c =? 133) || (c =? 160) || (c =? 5760) ||
  ((8192 <=? c) && (c <=? 8202)) || (c =? 8232) || (c =? 8233) || (c =? 8239) ||
  (c =? 8287) || (c =? 12288).

Definition is_ascii_digit (c : Z) : bool := (48 <=? c) && (c <=? 57).
Definition is_ascii_upper (c : Z) : bool := (65 <=? c) && (c <=? 90).
Definition is_ascii_lower (c : Z) : bool := (97 <=? c) && (c <=? 122).
Definition is_ascii_alphanumeric (c : Z) : bool :=
  is_ascii_digit c || is_ascii_upper c || is_ascii_lower c.
Definition char_to_lower (c : Z) : Z := if is_ascii_upper c then c + 32 else c.
Definition to_ascii_lowercase (t : text) : text := char_to_lower <$> t.
Definition eq_ignore_ascii_case (s t : text) : bool :=
  bool_decide (to_ascii_lowercase s = to_ascii_lowercase t).

(** [char::to_digit(16)] *)
Definition to_digit16 (c : Z) : option Z :=
  if is_ascii_digit c then Some (c - 48)
  else if (97 <=? c) && (c <=? 102) then Some (c - 87)
  else if (65 <=? c) && (c <=? 70) then Some (c - 55)
  else None.

Definition one_of (s : string) (c : Z) : bool := bool_decide (c ∈ lit s).

(** ** Slices *)

Fixpoint trim_start_by (f : Z → bool) (t : text) : text :=
  match t with
  | [] => []
  | c :: t' => if f c then trim_start_by f t' else t
  end.

Definition trim_end_by (f : Z → bool) (t : text) : text := reverse (trim_start_by f (reverse t)).
Definition trim_by (f : Z → bool) (t : text) : text := trim_end_by f (trim_start_by f t).
Definition trim : text → text := trim_by is_whitespace.

Fixpoint strip_prefix (p t : text) : option text :=
  match p, t with
  | [], _ => Some t
  | a :: p, b :: t => if a =? b then strip_prefix p t else None
  | _ :: _, [] => None
  end.

Definition starts_with (p t : text) : bool :=
  match strip_prefix p t with Some _ => true | None => false end.
Definition ends_with (p t : text) : bool := starts_with (reverse p) (reverse t).

(** [str::split_once] for one character: around its first occurrence. *)
Fixpoint split_once (c : Z) (t : text) : option (text * text) :=
  match t with
  | [] => None
  | d :: t => if d =? c then Some ([], t)
              else '(a, b) ← split_once c t; Some (d :: a, b)
  end.

(** [str::rsplit_once] for one character: around its last occurrence. *)
Definition rsplit_once (c : Z) (t : text) : option (text * text) :=
  '(b, a) ← split_once c (reverse t); Some (reverse a, reverse b).

(** [str::rsplit_once] for a pattern of two characters. *)
Fixpoint split_once2 (c d : Z) (t : text) : option (text * text) :=
  match t with
  | x :: (y :: rest) as t' =>
      if (x =? c) && (y =? d) then Some ([], rest)
      else '(a, b) ← split_once2 c d t'; Some (x :: a, b)
  | _ => None
  end.

Definition rsplit_once2 (c d : Z) (t : text) : option (text * text) :=
  '(b, a) ← split_once2 d c (reverse t); Some (reverse a, reverse b).

(** [str::split] for one character: always at least one piece. *)
Fixpoint split (c : Z) (t : text) : list text :=
  match t with
  | [] => [[]]
  | d :: t =>
      if d =? c then [] :: split c t
      else match split c t with
           | p :: ps => (d :: p) :: ps
           | [] => [[d]]
           end
  end.

(** [str::split_inclusive('\n')]: lines with their terminators, no empty last one. *)
Fixpoint split_inclusive (c : Z) (t : text) : list text :=
  match t with
  | [] => []
  | d :: t =>
      if d =? c then [d] :: split_inclusive c t
      else match split_inclusive c t with
           | p :: ps => (d :: p) :: ps
           | [] => [[d]]
           end
  end.

Definition count_char (c : Z) (t : text) : nat := length (filter (λ d, d = c) t).

Fixpoint join (sep : text) (l : list text) : text :=
  match l with
  | [] => []
  | [t] => t
  | t :: l => t ++ sep ++ join sep l
  end.

(** ** Numbers *)

Fixpoint digits_value (acc : Z) (t : text) : option Z :=
  match t with
  | [] => Some acc
  | c :: t => if is_ascii_digit c then digits_value (acc * 10 + (c - 48)) t else None
  end.

(** [str::parse::<uN>]: an optional plus sign, then at least one digit, in range. *)
Definition parse_unsigned (max : Z) (t : text) : option Z :=
  let digits := match t with c :: t' => if c =? chr "+" then t' else t | [] => t end in
  match digits with
  | [] => None
  | _ => v ← digits_value 0 digits; if v <=? max then Some v else None
  end.

(** [to_string] of an unsigned integer. *)
Fixpoint decimal_fuel (fuel : nat) (z : Z) (acc : text) : text :=
  match fuel with
  | O => acc
  | S fuel =>
      let acc := (48 + z mod 10) :: acc in
      if z <? 10 then acc else decimal_fuel fuel (z / 10) acc
  end.

Definition decimal (z : Z) : text := decimal_fuel (S (Z.to_nat (Z.log2 z))) z [].

(** ** UTF-8 round trip *)

Lemma utf8_encode_char_bytes c : scalar c → Forall (λ b, 0 ≤ b < 256) (utf8_encode_char c).
Proof.
  intros Hc. unfold scalar in Hc. unfold utf8_encode_char.
  destruct (Z.ltb_spec c 128); [repeat constructor; lia|].
  destruct (Z.ltb_spec c 2048);
    [|destruct (Z.ltb_spec c 65536)]; repeat constructor; Z.to_euclidean_division_equations; lia.
Qed.

Lemma utf8_encode_bytes t : Forall scalar t → Forall (λ b, 0 ≤ b < 256) (utf8_encode t).
Proof.
  induction 1 as [|c t Hc _ IH]; [constructor|]. cbn. apply Forall_app. split; [|done].
  by apply utf8_encode_char_bytes.
Qed.

Lemma continuation_low x : continuation (128 + x mod 64) = true.
Proof.
  unfold continuation. pose proof (Z.mod_pos_bound x 64 eq_refl).
  destruct (Z.leb_spec 128 (128 + x mod 64)), (Z.ltb_spec (128 + x mod 64) 192); cbn; lia.
Qed.

(** Decide every integer comparison of the goal; [lia] closes the absurd cases. *)
Ltac decide_Z :=
  repeat (match goal with
  | |- context [?a <? ?b] => destruct (Z.ltb_spec a b)
  | |- context [?a <=? ?b] => destruct (Z.leb_spec a b)
  end; cbn [andb orb negb]; try lia).

Lemma utf8_decode_char fuel c rest :
  scalar c →
  utf8_decode_fuel (S fuel) (utf8_encode_char c ++ rest) = cons c <$> utf8_decode_fuel fuel rest.
Proof.
  intros Hc. unfold utf8_encode_char, scalar in *.
  destruct (Z.ltb_spec c 128) as [H1|H1]; [cbn; decide_Z; done|].
  destruct (Z.ltb_spec c 2048) as [H2|H2].
  { cbn [utf8_decode_fuel app]. rewrite continuation_low. cbn [negb].
    pose proof (Z.div_mod c 64 ltac:(lia)). pose proof (Z.mod_pos_bound c 64 eq_refl).
    decide_Z; do 2 f_equal; lia. }
  destruct (Z.ltb_spec c 65536) as [H3|H3].
  { cbn [utf8_decode_fuel app]. rewrite !continuation_low. cbn [negb].
    pose proof (Z.div_mod c 64 ltac:(lia)). pose proof (Z.mod_pos_bound c 64 eq_refl).
    pose proof (Z.div_mod (c / 64) 64 ltac:(lia)). pose proof (Z.mod_pos_bound (c / 64) 64 eq_refl).
    assert (c / 64 / 64 = c / 4096) by (rewrite Z.div_div by lia; done).
    replace ((224 + c / 4096 - 224) * 4096 + (128 + (c / 64) mod 64 - 128) * 64
             + (128 + c mod 64 - 128)) with c by lia.
    decide_Z; done. }
  cbn [utf8_decode_fuel app]. rewrite !continuation_low. cbn [negb].
  pose proof (Z.div_mod c 64 ltac:(lia)). pose proof (Z.mod_pos_bound c 64 eq_refl).
  pose proof (Z.div_mod (c / 64) 64 ltac:(lia)). pose proof (Z.mod_pos_bound (c / 64) 64 eq_refl).
  pose proof (Z.div_mod (c / 4096) 64 ltac:(lia)). pose proof (Z.mod_pos_bound (c / 4096) 64 eq_refl).
  assert (c / 64 / 64 = c / 4096) by (rewrite Z.div_div by lia; done).
  assert (c / 4096 / 64 = c / 262144) by (rewrite Z.div_div by lia; done).
  replace ((240 + c / 262144 - 240) * 262144 + (128 + (c / 4096) mod 64 - 128) * 4096
           + (128 + (c / 64) mod 64 - 128) * 64 + (128 + c mod 64 - 128)) with c by lia.
  decide_Z; done.
Qed.

Lemma utf8_decode_fuel_encode t : ∀ fuel,
  Forall scalar t → (length t ≤ fuel)%nat → utf8_decode_fuel fuel (utf8_encode t) = Some t.
Proof.
  induction t as [|c t IH]; intros fuel Ht Hf.
  - by destruct fuel.
  - inversion Ht; subst. destruct fuel as [|fuel]; cbn in Hf; [lia|].
    unfold utf8_encode; cbn [mbind list_bind]. rewrite utf8_decode_char by done.
    fold (utf8_encode t). change (list_bind _ _ utf8_encode_char t) with (utf8_encode t).
    rewrite IH by (done || lia). done.
Qed.

Lemma utf8_encode_char_length c : (1 ≤ length (utf8_encode_char c))%nat.
Proof. unfold utf8_encode_char. repeat case_match; cbn; lia. Qed.

Lemma utf8_encode_length t : (length t ≤ length (utf8_encode t))%nat.
Proof.
  induction t as [|c t IH]; [done|]. unfold utf8_encode in *; cbn [mbind list_bind].
  rewrite length_app. pose proof (utf8_encode_char_length c). cbn [length].
  change (list_bind _ _ utf8_encode_char t) with (t ≫= utf8_encode_char). lia.
Qed.

(** Decoding the encoding of a string gives it back. *)
Lemma utf8_decode_encode t : Forall scalar t → utf8_decode (utf8_encode t) = Some t.
Proof. intros Ht. apply utf8_decode_fuel_encode; [done|]. apply utf8_encode_length. Qed.

(** ** Laws of the slice operations *)

Lemma strip_prefix_Some p t r : strip_prefix p t = Some r ↔ t = p ++ r.
Proof.
  revert t. induction p as [|a p IH]; intros [|b t]; cbn; try (split; congruence).
  destruct (Z.eqb_spec a b) as [->|Hne]; [rewrite IH|]; split; congruence.
Qed.

Lemma starts_with_spec p t : starts_with p t = true ↔ ∃ r, t = p ++ r.
Proof.
  unfold starts_with. destruct (strip_prefix p t) as [r|] eqn:E.
  - apply strip_prefix_Some in E. split; [by exists r|done].
  - split; [done|]. intros [r Hr]. apply strip_prefix_Some in Hr. congruence.
Qed.

Lemma ends_with_spec p t : ends_with p t = true ↔ ∃ r, t = r ++ p.
Proof.
  unfold ends_with. rewrite starts_with_spec. split; intros [r Hr].
  - exists (reverse r). by rewrite <- (reverse_involutive t), Hr, reverse_app, reverse_involutive.
  - exists (reverse r). by rewrite Hr, reverse_app.
Qed.

Lemma trim_start_by_id f t : Forall (λ c, f c = false) t → trim_start_by f t = t.
Proof. destruct 1 as [|c t Hc _]; [done|]. cbn. by rewrite Hc. Qed.

Lemma trim_by_id f t : Forall (λ c, f c = false) t → trim_by f t = t.
Proof.
  intros Ht. unfold trim_by, trim_end_by. rewrite (trim_start_by_id f t) by done.
  rewrite trim_start_by_id by by apply Forall_reverse. apply reverse_involutive.
Qed.

Lemma trim_start_by_Forall (P : Z → Prop) f t : Forall P t → Forall P (trim_start_by f t).
Proof. induction 1; cbn; [constructor|]. case_match; auto. Qed.

Lemma split_absent c t : Forall (λ d, d ≠ c) t → split c t = [t].
Proof.
  induction 1 as [|d t Hd _ IH]; [done|]. cbn. destruct (Z.eqb_spec d c); [done|]. by rewrite IH.
Qed.

Lemma split_app c t u : Forall (λ d, d ≠ c) t → split c (t ++ c :: u) = t :: split c u.
Proof.
  induction 1 as [|d t Hd _ IH]; cbn; [by rewrite Z.eqb_refl|].
  destruct (Z.eqb_spec d c); [done|]. by rewrite IH.
Qed.

Lemma count_char_absent c t : Forall (λ d, d ≠ c) t → count_char c t = 0%nat.
Proof.
  unfold count_char, text in *. induction 1 as [|d t Hd _ IH]; [done|].
  by rewrite filter_cons_False.
Qed.

(** Splitting at the separator a list was joined with gives the list back. *)
Lemma split_join c l :
  l ≠ [] → Forall (Forall (λ d, d ≠ c)) l → split c (join [c] l) = l.
Proof.
  intros Hne. induction 1 as [|t l Ht Hl IH]; [done|].
  destruct l as [|u l]; [by apply split_absent|].
  change (join [c] (t :: u :: l)) with (t ++ c :: join [c] (u :: l)).
  rewrite split_app by done. f_equal. by apply IH.
Qed.

Lemma split_once_absent c t : Forall (λ d, d ≠ c) t → split_once c t = None.
Proof.
  induction 1 as [|d t Hd _ IH]; [done|]. cbn. destruct (Z.eqb_spec d c); [done|]. by rewrite IH.
Qed.

Lemma trim_start_by_nil f t : trim_start_by f t = [] → Forall (λ c, f c = true) t.
Proof.
  induction t as [|c t IH]; [constructor|]. cbn. destruct (f c) eqn:E; [|done].
  intros. by constructor; [|apply IH].
Qed.

Lemma trim_start_by_last f t :
  t = [] ∨ ∃ p, t = p ++ trim_start_by f t ∧ Forall (λ c, f c = true) p.
Proof.
  induction t as [|c t IH]; [by left|]. right. cbn. destruct (f c) eqn:E.
  - destruct IH as [->|(p & Hp & Hf)]; [exists [c]|exists (c :: p)]; cbn.
    + split; [done|]. by repeat constructor.
    + split; [congruence|]. by constructor.
  - by exists [].
Qed.

(** A string that trims to nothing is all white space, and conversely. *)
Lemma trim_nil t : trim t = [] ↔ Forall (λ c, is_whitespace c = true) t.
Proof.
  unfold trim, trim_by, trim_end_by. split.
  - intros Ht. set (u := trim_start_by is_whitespace t) in *.
    assert (trim_start_by is_whitespace (reverse u) = []) as Hu
      by (rewrite <- (reverse_involutive (trim_start_by _ _)), Ht; done).
    apply trim_start_by_nil, Forall_reverse in Hu. rewrite reverse_involutive in Hu.
    destruct (trim_start_by_last is_whitespace t) as [->|(p & Hp & Hf)]; [constructor|].
    fold u in Hp. clearbody u. subst t. apply Forall_app. by split.
  - intros Ht. assert (∀ u, Forall (λ c, is_whitespace c = true) u →
      trim_start_by is_whitespace u = []) as H.
    { induction 1 as [|c u Hc _ IH]; [done|]. cbn. by rewrite Hc. }
    by rewrite (H t).
Qed.

(** ** Decimal round trip *)

Lemma digits_value_app a t u :
  digits_value a (t ++ u) = digits_value a t ≫= λ v, digits_value v u.
Proof.
  revert a. induction t as [|c t IH]; intros a; cbn; [done|]. case_match; [apply IH|done].
Qed.

Lemma decimal_fuel_app fuel : ∀ z acc, decimal_fuel fuel z acc = decimal_fuel fuel z [] ++ acc.
Proof.
  induction fuel as [|fuel IH]; intros z acc; cbn; [done|].
  destruct (z <? 10); [done|]. rewrite (IH _ (_ :: acc)), (IH _ [_]), <- app_assoc. done.
Qed.

Lemma digits_value_decimal fuel : ∀ z,
  0 ≤ z < 10 ^ Z.of_nat fuel → digits_value 0 (decimal_fuel fuel z []) = Some z.
Proof.
  induction fuel as [|fuel IH]; intros z Hz; [cbn in *; f_equal; lia|].
  cbn [decimal_fuel]. pose proof (Z.mod_pos_bound z 10 eq_refl) as Hm.
  assert (digit : ∀ a, digits_value a [48 + z mod 10] = Some (a * 10 + z mod 10)).
  { intros a. cbn. unfold is_ascii_digit.
    destruct (Z.leb_spec 48 (48 + z mod 10)), (Z.leb_spec (48 + z mod 10) 57); cbn; try lia.
    f_equal. lia. }
  destruct (Z.ltb_spec z 10).
  - rewrite digit. f_equal. rewrite Z.mod_small by lia. lia.
  - rewrite decimal_fuel_app, digits_value_app, IH.
    + cbn [mbind option_bind]. rewrite digit. f_equal. pose proof (Z.div_mod z 10). lia.
    + rewrite Nat2Z.inj_succ, Z.pow_succ_r in Hz by lia.
      split; [apply Z.div_pos|apply Z.div_lt_upper_bound]; lia.
Qed.

Lemma decimal_digits fuel z acc :
  (0 < fuel)%nat → 0 ≤ z → ∃ c t, decimal_fuel fuel z acc = c :: t ∧ 48 ≤ c ≤ 57.
Proof.
  revert z acc. induction fuel as [|fuel IH]; intros z acc Hf Hz; [lia|]. cbn.
  pose proof (Z.mod_pos_bound z 10 eq_refl). destruct (Z.ltb_spec z 10).
  - exists (48 + z mod 10), acc. split; [done|lia].
  - destruct fuel as [|fuel].
    + exists (48 + z mod 10), acc. split; [done|lia].
    + apply IH; [lia|]. apply Z.div_pos; lia.
Qed.

(** Parsing the decimal form of a number in range gives it back. *)
Lemma parse_unsigned_decimal max z : 0 ≤ z ≤ max → parse_unsigned max (decimal z) = Some z.
Proof.
  intros Hz. unfold decimal. set (fuel := S (Z.to_nat (Z.log2 z))).
  assert (digits_value 0 (decimal_fuel fuel z []) = Some z) as Hv.
  { apply digits_value_decimal. split; [lia|]. unfold fuel.
    rewrite Nat2Z.inj_succ, Z2Nat.id by apply Z.log2_nonneg.
    destruct (Z.eq_dec z 0) as [->|Hnz]; [done|].
    apply Z.lt_le_trans with (2 ^ Z.succ (Z.log2 z)); [apply Z.log2_spec; lia|].
    apply Z.pow_le_mono_l; pose proof (Z.log2_nonneg z); lia. }
  destruct (decimal_digits fuel z []) as (c & t & Ht & Hc); [unfold fuel; lia|lia|].
  unfold parse_unsigned. rewrite Ht in *. change (chr "+") with 43.
  destruct (Z.eqb_spec c 43); [lia|]. rewrite Hv. cbn [mbind option_bind].
  by destruct (Z.leb_spec z max); [|lia].
Qed.
