(* ===== verification/Extern.v ===== *)
(** * Interfaces of the crates the connector is built on

    Values of third-party crates are abstract; a class lists the operations the
    connector calls.  A class of laws states documented behaviour where a theorem
    needs it.  [Sample] instances make every theorem's witness executable. *)

From S2P Require Import Prelude Text.

(** ** The [url] crate *)

Inductive Host : Type :=
| Domain (name : text)
| Ipv4 (address : Z)
| Ipv6 (address : Z).

(** [Ipv4Addr::is_loopback] (127.0.0.0/8) and [Ipv6Addr::is_loopback] (::1). *)
Definition ipv4_is_loopback (a : Z) : bool := Z.shiftr a 24 =? 127.
Definition ipv6_is_loopback (a : Z) : bool := a =? 1.

Class UrlLib (Url : Type) : Type := {
  url_parse : text → option Url;
  scheme : Url → text;
  host : Url → option Host;
  host_str : Url → option text;
  cannot_be_a_base : Url → bool;
  path : Url → text;
  query : Url → option text;
  fragment : Url → option text;
  username : Url → text;
  password : Url → option text;
  port_or_known_default : Url → option Z;
  (** [Display] of a host, as [format!("{host}:{port}")] prints it *)
  host_display : Host → text;
  set_scheme : text → Url → option Url;
  (** [path_segments_mut()?.pop_if_empty().extend(segments)] *)
  extend_path : list text → Url → option Url;
  (** [query_pairs_mut().append_pair(name, value)] *)
  append_pair : text → text → Url → Url;
  url_as_str : Url → text;
}.

(** A string without visible characters is not an absolute URL. *)
Class UrlLaws (Url : Type) `{UrlLib Url} : Prop := {
  url_parse_blank t : trim t = [] → url_parse t = None;
}.

(** ** [pocketstation::connector::ConnectorSecret] *)

(** [ConnectorConfigurationError], as far as the connector distinguishes it. *)
Inductive ConnectorConfigurationError : Type := SecretRejected.

Class SecretLib (Secret : Type) : Type := {
  secret_eq_dec :: EqDecision Secret;
  secret_new : text → Result ConnectorConfigurationError Secret;
  expose_secret : Secret → text;
}.

(** A secret exposes what it was built from, and an exposed secret can be wrapped
    again. *)
Class SecretLaws (Secret : Type) `{SecretLib Secret} : Prop := {
  secret_expose_new s : secret_new (expose_secret s) = Ok s;
  secret_new_expose t s : secret_new t = Ok s → expose_secret s = t;
}.

(** ** Core's configuration containers *)

(** [pocketstation::connector::ConnectorConfigurationValue] *)
Inductive ConnectorConfigurationValue (Secret : Type) : Type :=
| Text (t : text)
| DurationMilliseconds (ms : Z)
| SecretValue (s : Secret).
Arguments Text {Secret}.
Arguments DurationMilliseconds {Secret}.
Arguments SecretValue {Secret}.

(** [pocketstation::connector::ConnectorConfiguration]: named values, the last
    write of a name wins. *)
Abbreviation ConnectorConfiguration Secret := (gmap string (ConnectorConfigurationValue Secret)).

(** [pocketstation::graph::NodeConfig]: what Core hands the connector back. *)
Record NodeConfig : Type := mkNodeConfig {
  node_get : string → option text;
  is_sensitive : string → bool;
}.

(** Core's projection of a configuration onto a node: text as it is, durations in
    decimal milliseconds, secrets exposed and marked sensitive. *)
Class Projection (Secret : Type) `{SecretLib Secret} : Type := {
  project : ConnectorConfiguration Secret → NodeConfig;
}.

Class ProjectionLaws (Secret : Type) `{Projection Secret} : Prop := {
  project_absent c k : c !! k = None → node_get (project c) k = None;
  project_text c k t : c !! k = Some (Text t) → node_get (project c) k = Some t;
  project_duration c k n :
    c !! k = Some (DurationMilliseconds n) → node_get (project c) k = Some (decimal n);
  project_secret c k s :
    c !! k = Some (SecretValue s) →
    node_get (project c) k = Some (expose_secret s) ∧ is_sensitive (project c) k = true;
}.

(** ** Sample instances *)

Module Sample.

Record Secret : Type := mkSecret { revealed : text }.

#[export] Instance Secret_eq_dec : EqDecision Secret.
Proof. solve_decision. Defined.

#[export] Instance secret_lib : SecretLib Secret :=
  {| secret_eq_dec := _; secret_new t := Ok (mkSecret t); expose_secret := revealed |}.
#[export] Instance secret_laws : SecretLaws Secret.
Proof. constructor; [by intros []|by intros t s [= <-]]. Qed.

#[export] Instance projection : Projection Secret :=
  {| project c :=
       {| node_get k := v ← c !! k;
                        Some (match v with
                              | Text t => t
                              | DurationMilliseconds n => decimal n
                              | SecretValue s => revealed s
                              end);
          is_sensitive k := match c !! k with Some (SecretValue _) => true | _ => false end |} |}.
#[export] Instance projection_laws : ProjectionLaws Secret.
Proof.
  constructor; intros c k; [intros H|intros t H|intros n H|intros s H];
    unfold project, projection; cbn [node_get is_sensitive];
    rewrite H; by try split.
Qed.

(** A URL reduced to what an origin has: scheme, host name and port, with the path
    and query a caller appends. *)
Record Url : Type := mkUrl {
  url_scheme : text;
  url_host : text;
  url_port : Z;
  url_path : text;
  url_query : option text;
}.

(** Accepts [scheme://host] and [scheme://host:port]. *)
Definition parse (t : text) : option Url :=
  '(s, rest) ← split_once (chr ":") t;
  rest ← strip_prefix (lit "//") rest;
  let default := if bool_decide (s = lit "https" ∨ s = lit "wss") then 443 else 80 in
  match split_once (chr ":") rest with
  | Some (h, p) => port ← parse_unsigned U16_MAX p; Some (mkUrl s h port [] None)
  | None => Some (mkUrl s rest default [] None)
  end.

#[export] Instance url_lib : UrlLib Url :=
  {| url_parse := parse;
     scheme := url_scheme;
     host u := Some (Domain (url_host u));
     host_str u := Some (url_host u);
     cannot_be_a_base _ := false;
     path := url_path;
     query := url_query;
     fragment _ := None;
     username _ := [];
     password _ := None;
     port_or_known_default u := Some (url_port u);
     host_display h := match h with Domain n => n | _ => [] end;
     set_scheme s u := Some (mkUrl s (url_host u) (url_port u) (url_path u) (url_query u));
     extend_path l u := Some (mkUrl (url_scheme u) (url_host u) (url_port u)
                               (url_path u ++ (l ≫= λ s, lit "/" ++ s)) (url_query u));
     append_pair n v u := mkUrl (url_scheme u) (url_host u) (url_port u) (url_path u)
                            (Some (n ++ lit "=" ++ v));
     url_as_str u := url_scheme u ++ lit "://" ++ url_host u ++ url_path u |}.

#[export] Instance url_laws : UrlLaws Url.
Proof.
  constructor. intros t Ht. cbn. unfold parse. rewrite split_once_absent; [done|].
  eapply Forall_impl; [by apply trim_nil|]. by intros c Hc ->.
Qed.

End Sample.
