(* ===== verification/Errors.v ===== *)
(** * Errors that cross component boundaries

    The publisher side boxes errors as [Box<dyn std::error::Error>] and later
    downcasts them to decide whether to reconnect.  [BoxedError] is that box with
    the types the connector downcasts to; every other error is a [Message]. *)

From S2P Require Import Prelude.

(** [rtc/proxy.rs] *)
Inductive ProxyConnectError : Type :=
| Authorization
| Rejected
| ConnectRejected (status : Z)
| ProxyTlsHandshake
| RelayTlsHandshake
| ProxyTransport.

(** [publisher_control.rs] *)
Inductive RelayPublisherControlError : Type :=
| UnsupportedTransport
| InvalidExpiry
| StaleReplacement
| Revoked
| Unavailable
| AlreadyPublishing.

(** [rtc/gateway.rs] *)
Inductive IngressFailure : Type :=
| Transport
| Authority
| Protocol
| Identity
| Generation
| Credential
| RecoveryBudget.

Inductive BoxedError : Type :=
| BoxProxy (e : ProxyConnectError)
| BoxControl (e : RelayPublisherControlError)
| BoxIngress (e : IngressFailure)
| Message (m : string).

#[export] Instance ProxyConnectError_eq_dec : EqDecision ProxyConnectError.
Proof. solve_decision. Defined.
#[export] Instance RelayPublisherControlError_eq_dec : EqDecision RelayPublisherControlError.
Proof. solve_decision. Defined.
#[export] Instance IngressFailure_eq_dec : EqDecision IngressFailure.
Proof. solve_decision. Defined.
#[export] Instance BoxedError_eq_dec : EqDecision BoxedError.
Proof. solve_decision. Defined.
