(* ===== verification/Packetizer.v ===== *)
(** * Fixed-capacity PCM packetization: [relay/src/audio/pcm_packetizer.rs]

    The bounded assembler of one 20 ms, 48 kHz mono or stereo transport packet.
    Samples are an arbitrary type with a zero, because the packetizer only copies
    them and fills with [0.0].  [usize] lengths are [nat], [u64] values are [Z].
    [pending] is the abstraction of the buffer: the samples written so far. *)

From S2P Require Import Prelude.

(** [pocketstation::codec::OPUS_FRAME_SAMPLES]: 20 ms at 48 kHz, as the crate's
    own tests and the subscriber's [MAX_PACKET_SAMPLES] fix it. *)
Definition OPUS_FRAME_SAMPLES : nat := Z.to_nat 960.
Definition MAX_CHANNELS : nat := 2.
Definition MAX_INTERLEAVED_SAMPLES : nat := (OPUS_FRAME_SAMPLES * MAX_CHANNELS)%nat.

Inductive PcmPacketizerError : Type :=
| UnsupportedChannelCount (channels : Z)
| UnsupportedSampleRate (sample_rate_hz : Z)
| MisalignedInput (samples : nat) (channels : Z).

Record PcmPacketizerBegin : Type := mkBegin {
  discontinuity_discarded_samples : nat;
  cancelled_output_discarded_samples : nat;
}.

Record PcmPacketizer (sample : Type) : Type := mkPacketizer {
  samples : list sample;
  written : nat;
  packet_samples : nat;
  channels : Z;
  packet_timestamp_ns : Z;
  expected_sequence_number : option Z;
  packetizer_generation_id : option Z;
}.
Arguments mkPacketizer {sample}.
Arguments samples {sample}.
Arguments written {sample}.
Arguments packet_samples {sample}.
Arguments channels {sample}.
Arguments packet_timestamp_ns {sample}.
Arguments expected_sequence_number {sample}.
Arguments packetizer_generation_id {sample}.

Section Operations.
Context {sample : Type} (zero : sample).
Implicit Types p : PcmPacketizer sample.

Definition new (sample_rate_hz channels : Z)
  : Result PcmPacketizerError (PcmPacketizer sample) :=
  if negb (sample_rate_hz =? 48000) then Err (UnsupportedSampleRate sample_rate_hz)
  else if negb ((channels =? 1) || (channels =? 2)) then Err (UnsupportedChannelCount channels)
  else Ok {| samples := replicate MAX_INTERLEAVED_SAMPLES zero;
             written := 0;
             packet_samples := OPUS_FRAME_SAMPLES * Z.to_nat channels;
             channels := channels;
             packet_timestamp_ns := 0;
             expected_sequence_number := None;
             packetizer_generation_id := None |}.

Definition discard_partial p : nat * PcmPacketizer sample :=
  (written p,
   {| samples := samples p; written := 0; packet_samples := packet_samples p;
      channels := channels p; packet_timestamp_ns := 0;
      expected_sequence_number := expected_sequence_number p;
      packetizer_generation_id := packetizer_generation_id p |}).

Definition sequence_changed p (sequence_number : Z) : bool :=
  match expected_sequence_number p with
  | Some expected => negb (expected =? sequence_number)
  | None => false
  end.

Definition output_changed p (output_generation_id : option Z) : bool :=
  bool_decide (0 < written p)%nat &&
  negb (bool_decide (packetizer_generation_id p = output_generation_id)).

(** Starts one source frame and reports any partial packet removed. *)
Definition begin_frame p (sequence_number : Z) (sample_count : nat)
  (output_generation_id : option Z)
  : Result PcmPacketizerError PcmPacketizerBegin * PcmPacketizer sample :=
  if negb (Z.of_nat sample_count mod channels p =? 0)
  then (Err (MisalignedInput sample_count (channels p)), p)
  else
    let seq := sequence_changed p sequence_number in
    let out := output_changed p output_generation_id in
    let '(discarded, p1) := if seq || out then discard_partial p else (0%nat, p) in
    (Ok {| discontinuity_discarded_samples := if seq && negb out then discarded else 0%nat;
           cancelled_output_discarded_samples := if out then discarded else 0%nat |},
     {| samples := samples p1; written := written p1;
        packet_samples := packet_samples p1; channels := channels p1;
        packet_timestamp_ns := packet_timestamp_ns p1;
        expected_sequence_number := Some (sat_add sequence_number 1);
        packetizer_generation_id := output_generation_id |}).

(** Nanoseconds from the start of a callback to one of its sample frames. *)
Definition offset_ns (channels : Z) (input_offset : nat) : Z :=
  let offset_frames := Z.of_nat input_offset / channels in
  sat_mul offset_frames 1000000000 / 48000.

(** Copies as much of [input] as fits; the count of consumed samples is returned. *)
Definition push p (input : list sample) (input_timestamp_ns : Z) (input_offset : nat)
  : nat * PcmPacketizer sample :=
  let timestamp :=
    if bool_decide (written p = 0%nat)
    then sat_add input_timestamp_ns (offset_ns (channels p) input_offset)
    else packet_timestamp_ns p in
  let copied := Nat.min (length input) (packet_samples p - written p) in
  (copied,
   {| samples := take (written p) (samples p) ++ take copied input
                   ++ drop (written p + copied) (samples p);
      written := written p + copied;
      packet_samples := packet_samples p; channels := channels p;
      packet_timestamp_ns := timestamp;
      expected_sequence_number := expected_sequence_number p;
      packetizer_generation_id := packetizer_generation_id p |}).

Definition complete_packet p : option (list sample * Z) :=
  if bool_decide (written p = packet_samples p)
  then Some (take (packet_samples p) (samples p), packet_timestamp_ns p)
  else None.

Definition finish_packet p : PcmPacketizer sample :=
  {| samples := samples p; written := 0; packet_samples := packet_samples p;
     channels := channels p; packet_timestamp_ns := 0;
     expected_sequence_number := expected_sequence_number p;
     packetizer_generation_id := packetizer_generation_id p |}.

(** Zero-pads at most one final packet during orderly shutdown. *)
Definition pad_tail p : option nat * PcmPacketizer sample :=
  if bool_decide (written p = 0%nat) then (None, p)
  else
    let padding := (packet_samples p - written p)%nat in
    (Some padding,
     {| samples := take (written p) (samples p) ++ replicate padding zero
                     ++ drop (packet_samples p) (samples p);
        written := packet_samples p;
        packet_samples := packet_samples p; channels := channels p;
        packet_timestamp_ns := packet_timestamp_ns p;
        expected_sequence_number := expected_sequence_number p;
        packetizer_generation_id := packetizer_generation_id p |}).

(** The samples of the packet under construction. *)
Definition pending p : list sample := take (written p) (samples p).

(** What every operation maintains: a supported layout, a buffer of the fixed
    capacity and a write position inside one packet. *)
Definition wf p : Prop :=
  (channels p = 1 ∨ channels p = 2) ∧
  packet_samples p = (OPUS_FRAME_SAMPLES * Z.to_nat (channels p))%nat ∧
  length (samples p) = MAX_INTERLEAVED_SAMPLES ∧
  (written p ≤ packet_samples p)%nat ∧
  u64 (packet_timestamp_ns p).
End Operations.

Ltac packet_consts :=
  unfold MAX_INTERLEAVED_SAMPLES, MAX_CHANNELS, OPUS_FRAME_SAMPLES in *.

Section Theory.
Context {sample : Type} (zero : sample).
Implicit Types p : PcmPacketizer sample.

Lemma wf_capacity p : wf p → (packet_samples p ≤ length (samples p))%nat.
Proof. intros ([Hc|Hc] & -> & -> & _); rewrite Hc; packet_consts; lia. Qed.

Lemma wf_packet_positive p : wf p → (0 < packet_samples p)%nat.
Proof. intros ([Hc|Hc] & -> & _); rewrite Hc; packet_consts; lia. Qed.

Lemma pending_length p : wf p → length (pending p) = written p.
Proof.
  intros Hwf. pose proof (wf_capacity p Hwf). destruct Hwf as (_ & _ & _ & ? & _).
  unfold pending. rewrite length_take. lia.
Qed.

Lemma new_wf rate ch p : new zero rate ch = Ok p → wf p ∧ pending p = [].
Proof.
  unfold new. bool_cases. intros [= <-]. bool_props.
  split; [|done]. unfold wf, u64, U64_MAX. split_and!; try (cbn; lia); try done.
Qed.

Lemma offset_ns_u64 ch off : u64 (offset_ns ch off) ∨ ch ≤ 0.
Proof.
  destruct (decide (ch ≤ 0)); [by right|left].
  assert (0 ≤ Z.of_nat off / ch) by (apply Z.div_pos; lia).
  pose proof (sat_mul_u64 (Z.of_nat off / ch) 1000000000 ltac:(lia) ltac:(lia)) as [H0 H1].
  unfold offset_ns, u64. split; [apply Z.div_pos; lia|].
  transitivity (sat_mul (Z.of_nat off / ch) 1000000000); [|done].
  apply Z.div_le_upper_bound; lia.
Qed.

(** *** Push *)

Lemma push_count p input ts off :
  (push p input ts off).1 = Nat.min (length input) (packet_samples p - written p).
Proof. done. Qed.

Lemma push_pending p input ts off :
  wf p → pending (push p input ts off).2 = pending p ++ take (push p input ts off).1 input.
Proof.
  intros Hwf. pose proof (pending_length p Hwf) as Hlen.
  rewrite push_count. unfold pending in *; cbn.
  rewrite app_assoc. apply take_app_full.
  rewrite length_app, Hlen, length_take. lia.
Qed.

Lemma push_wf p input ts off : wf p → u64 ts → wf (push p input ts off).2.
Proof.
  intros Hwf Hts. pose proof (pending_length p Hwf) as Hlen.
  pose proof (wf_capacity p Hwf). destruct Hwf as (Hc & Hp & Hs & Hw & Hu).
  unfold wf, push; cbn. split_and!; auto; [| lia |].
  - rewrite !length_app, length_drop, (length_take input).
    unfold pending in Hlen. lia.
  - case_bool_decide; [|done].
    destruct (offset_ns_u64 (channels p) off) as [[? _]|]; [|lia].
    by apply sat_add_u64.
Qed.

(** *** The other operations *)

Lemma finish_wf p : wf p → wf (finish_packet p) ∧ pending (finish_packet p) = [].
Proof.
  intros (Hc & Hp & Hs & Hw & Hu). unfold wf; cbn. unfold u64, U64_MAX.
  split_and!; auto; lia.
Qed.

Lemma complete_packet_spec p :
  wf p → complete_packet p =
    (if bool_decide (length (pending p) = packet_samples p)
     then Some (pending p, packet_timestamp_ns p) else None).
Proof.
  intros Hwf. rewrite (pending_length p Hwf). unfold complete_packet.
  case_bool_decide as E; [|done]. unfold pending. by rewrite E.
Qed.

Lemma begin_frame_wf p seq n out r p' :
  wf p → begin_frame p seq n out = (r, p') → wf p'.
Proof.
  intros (Hc & Hp & Hs & Hw & Hu). unfold begin_frame.
  destruct (negb _); [by intros [= <- <-]|].
  destruct (_ || _); intros [= <- <-]; unfold wf; cbn; unfold u64, U64_MAX in *;
    split_and!; auto; lia.
Qed.

Lemma begin_frame_channels p seq n out r p' :
  begin_frame p seq n out = (r, p') → channels p' = channels p ∧ packet_samples p' = packet_samples p.
Proof.
  unfold begin_frame. destruct (negb _); [by intros [= <- <-]|].
  destruct (_ || _); by intros [= <- <-].
Qed.

Lemma begin_frame_error p seq n out e p' :
  begin_frame p seq n out = (Err e, p') → p' = p ∧ e = MisalignedInput n (channels p).
Proof.
  unfold begin_frame. destruct (negb _); [by intros [= <- <-]|].
  destruct (_ || _); by intros [=].
Qed.

Lemma begin_frame_pending p seq n out b p' :
  wf p → begin_frame p seq n out = (Ok b, p') →
  let lost := (discontinuity_discarded_samples b + cancelled_output_discarded_samples b)%nat in
  packet_samples p' = packet_samples p ∧
  ((lost = 0%nat ∧ pending p' = pending p) ∨ (lost = length (pending p) ∧ pending p' = [])).
Proof.
  intros Hwf. pose proof (pending_length p Hwf) as Hlen. unfold begin_frame.
  destruct (negb _); [done|].
  destruct (sequence_changed p seq), (output_changed p out); cbn;
    intros [= <- <-]; cbn -[pending]; (split; [done|]); rewrite ?Hlen; first
    [right; split; [lia|reflexivity] | left; split; [lia|reflexivity]].
Qed.

Lemma pad_tail_wf p : wf p → wf (pad_tail zero p).2.
Proof.
  intros Hwf. pose proof (wf_capacity p Hwf). destruct Hwf as (Hc & Hp & Hs & Hw & Hu).
  unfold pad_tail. case_bool_decide; [by split_and!|].
  unfold wf; cbn. split_and!; auto.
  rewrite !length_app, length_take, length_replicate, length_drop. lia.
Qed.

Lemma pad_tail_pending p :
  wf p → pending p ≠ [] →
  (pad_tail zero p).1 = Some (packet_samples p - length (pending p))%nat ∧
  pending (pad_tail zero p).2 =
    pending p ++ replicate (packet_samples p - length (pending p)) zero.
Proof.
  intros Hwf Hne. pose proof (pending_length p Hwf) as Hlen.
  assert (written p ≠ 0%nat) by (intros E; apply Hne, length_zero_iff_nil; congruence).
  pose proof Hwf as (_ & _ & _ & Hw & _).
  rewrite Hlen. unfold pad_tail. rewrite bool_decide_eq_false_2 by done. split; [done|].
  unfold pending in *; cbn. rewrite app_assoc. apply take_app_full.
  rewrite length_app, Hlen, length_replicate. lia.
Qed.
End Theory.

#[export] Hint Resolve push_wf pad_tail_wf : relay.

(** ** The packetizer as a state machine *)

(** Every way the encoder thread moves a packetizer: a frame boundary, a copy, the
    release of a complete packet, the padding of the tail. *)
Inductive packetizer_step {sample} (zero : sample)
  : PcmPacketizer sample → PcmPacketizer sample → Prop :=
| step_begin p seq n out r p' :
    begin_frame p seq n out = (r, p') → packetizer_step zero p p'
| step_push p input ts off :
    u64 ts → packetizer_step zero p (push p input ts off).2
| step_finish p packet :
    complete_packet p = Some packet → packetizer_step zero p (finish_packet p)
| step_pad p : packetizer_step zero p (pad_tail zero p).2.

(** C37: Every packetizer reachable from [PcmPacketizer::new] by frame boundaries,
    copies, releases and padding is well formed: one or two channels, a packet of
    exactly 960 samples per channel, the fixed 1920-sample buffer, a write position
    inside the packet and a 64-bit timestamp; so no slice of the source panics. *)
Theorem reachable_packetizer_wf {sample} (zero : sample) rate ch p p' :
  new zero rate ch = Ok p → rtc (packetizer_step zero) p p' → wf p'.
Proof.
  intros [Hwf _]%new_wf Hreach. induction Hreach as [|p p1 p' Hstep _ IH]; [done|].
  apply IH. destruct Hstep.
  - by eapply begin_frame_wf.
  - by apply push_wf.
  - by apply finish_wf.
  - by apply pad_tail_wf.
Qed.

Lemma reachable_packetizer_wf_witness :
  ∃ p p', new false 48000 2 = Ok p ∧ rtc (packetizer_step false) p p' ∧
    written p' = 3%nat ∧ wf p'.
Proof.
  set (p := match new false 48000 2 with
            | Ok p => p | Err _ => mkPacketizer [] 0 0 0 0 None None end).
  assert (Hts : u64 7) by (unfold u64, U64_MAX; lia).
  assert (Hr : rtc (packetizer_step false) p (push p [true; true; false] 7 0).2)
    by exact (rtc_once _ _ (step_push false p [true; true; false] 7 0 Hts)).
  exists p, (push p [true; true; false] 7 0).2.
  split; [reflexivity|]. split; [exact Hr|]. split; [reflexivity|].
  exact (reachable_packetizer_wf false 48000 2 _ _ eq_refl Hr).
Defined.

(** A copy appends to the packet under construction, in order, the longest
    prefix of the callback that still fits; a packet is reported complete exactly
    when it holds [packet_samples] samples, and is then those samples. *)
Theorem push_fills_packet {sample} (p : PcmPacketizer sample) input ts off :
  wf p →
  let copied := (push p input ts off).1 in
  let p' := (push p input ts off).2 in
  copied = Nat.min (length input) (packet_samples p - length (pending p)) ∧
  pending p' = pending p ++ take copied input ∧
  (complete_packet p' ≠ None ↔ length (pending p') = packet_samples p) ∧
  (∀ packet t, complete_packet p' = Some (packet, t) →
     packet = pending p' ∧
     t = if decide (pending p = []) then sat_add ts (offset_ns (channels p) off)
         else packet_timestamp_ns p).
Proof.
  intros Hwf copied p'. pose proof (pending_length p Hwf) as Hlen.
  assert (Hp' : pending p' = pending p ++ take copied input) by by apply push_pending.
  assert (written p' = length (pending p')) as Hw'.
  { rewrite Hp', length_app, length_take, Hlen. unfold p', copied; cbn. lia. }
  unfold complete_packet. change (packet_samples p') with (packet_samples p).
  split_and!; [by rewrite Hlen|done| |].
  - case_bool_decide; split; congruence.
  - intros packet t. case_bool_decide as E; [|done]. intros [= <- <-]. split.
    + unfold pending. by rewrite E.
    + unfold p'; cbn. destruct (decide (pending p = [])) as [E'|E'].
      * rewrite bool_decide_eq_true_2; [done|]. by rewrite <- Hlen, E'.
      * rewrite bool_decide_eq_false_2; [done|]. intros Hz. apply E', length_zero_iff_nil. lia.
Qed.

Lemma push_fills_packet_witness :
  ∃ p, new 0 48000 1 = Ok p ∧ (push p [4; 5; 6] 10 0).1 = 3%nat ∧
    pending (push p [4; 5; 6] 10 0).2 = [4; 5; 6].
Proof.
  assert (Hwf : wf (match new 0 48000 1 with Ok p => p | Err _ => mkPacketizer [] 0 0 0 0 None None end))
    by (apply (proj1 (new_wf 0 48000 1 _ eq_refl))).
  destruct (push_fills_packet _ [4; 5; 6] 10 0 Hwf) as (H1 & H2 & _).
  eexists. split; [reflexivity|]. split; [reflexivity|]. exact H2.
Defined.

(** A frame boundary removes the whole partial packet when the source sequence
    has a gap or the output changes owner, reports every removed sample once (as
    cancelled output when the owner changed, as discontinuity otherwise), and
    removes nothing otherwise; a misaligned frame changes nothing. *)
Theorem begin_frame_discards {sample} (p : PcmPacketizer sample) seq n out :
  wf p →
  match begin_frame p seq n out with
  | (Err e, p') => p' = p ∧ e = MisalignedInput n (channels p) ∧ Z.of_nat n mod channels p ≠ 0
  | (Ok b, p') =>
      Z.of_nat n mod channels p = 0 ∧
      expected_sequence_number p' = Some (sat_add seq 1) ∧ packetizer_generation_id p' = out ∧
      let gap := ∃ e, expected_sequence_number p = Some e ∧ e ≠ seq in
      let owner := pending p ≠ [] ∧ packetizer_generation_id p ≠ out in
      (owner → b = mkBegin 0 (length (pending p)) ∧ pending p' = []) ∧
      (¬ owner → gap → b = mkBegin (length (pending p)) 0 ∧ pending p' = []) ∧
      (¬ owner → ¬ gap → b = mkBegin 0 0 ∧ pending p' = pending p)
  end.
Proof.
  intros Hwf. pose proof (pending_length p Hwf) as Hlen.
  assert (Hne : pending p ≠ [] ↔ (0 < written p)%nat).
  { rewrite <- Hlen. destruct (pending p); cbn; split; try done; lia. }
  unfold begin_frame.
  destruct (Z.eqb_spec (Z.of_nat n mod channels p) 0) as [Hal|Hal]; cbn [negb]; [|done].
  assert (Hs : sequence_changed p seq = true ↔ ∃ e, expected_sequence_number p = Some e ∧ e ≠ seq).
  { unfold sequence_changed. destruct (expected_sequence_number p) as [e|]; [|by split; [|intros (?&?&_)]].
    rewrite negb_true_iff, Z.eqb_neq. split; [by eauto|intros (? & [= <-] & ?); done]. }
  assert (Ho : output_changed p out = true ↔ pending p ≠ [] ∧ packetizer_generation_id p ≠ out).
  { unfold output_changed. rewrite andb_true_iff, negb_true_iff, bool_decide_eq_true, bool_decide_eq_false.
    by rewrite Hne. }
  destruct (sequence_changed p seq), (output_changed p out); cbn -[pending];
    (split_and!; [done..| | |]); rewrite ?Hlen, <- ?Ho, <- ?Hs; intros; try done; by split.
Qed.

Lemma begin_frame_discards_witness :
  let p := mkPacketizer (replicate 1920 0) 480 960 1 10 (Some 8) None in
  wf p ∧ (begin_frame p 9 480 None).1 = Ok (mkBegin 480 0) ∧
  pending (begin_frame p 9 480 None).2 = [].
Proof.
  intros p.
  assert (Hwf : wf p) by (unfold wf, u64, U64_MAX; cbn; split_and!; auto; lia).
  destruct (begin_frame_discards p 9 480 None Hwf) as (_ & _ & _ & _ & Hgap & _).
  assert (Howner : ¬ (pending p ≠ [] ∧ packetizer_generation_id p ≠ None)) by (by intros [_ ?]).
  destruct (Hgap Howner (ex_intro _ 8 (conj eq_refl (Z.lt_neq 8 9 eq_refl)))) as [Hb Hp].
  split; [exact Hwf|]. split; [reflexivity|exact Hp].
Defined.
