(* ===== verification/Encoder.v ===== *)
(** * The Opus encoder worker: [relay/src/audio/opus_worker.rs] and
      [relay/src/audio/latency_profile.rs]

    One encoder thread per bus: it receives PCM frames, assembles exact 20 ms
    packets with the packetizer, calls the codec and hands encoded frames to the
    publisher over a bounded channel.  The codec, the channel ends and the clock
    are operations of the world ([EncoderEnv]); counters are [AtomicU64]s and so
    wrap.  [f32] is IEEE binary32 as [SpecFloat] computes it; [log10] is the only
    operation left to the world's mathematical library. *)

From S2P Require Import Prelude Env Packetizer.
From Stdlib Require Import SpecFloat Sorted.

(** ** [latency_profile.rs] *)

Inductive LatencyProfile : Type := Low | Standard.

#[export] Instance LatencyProfile_eq_dec : EqDecision LatencyProfile.
Proof. solve_decision. Defined.

Definition capture_channel_depth (p : LatencyProfile) : nat :=
  match p with Low => 2 | Standard => 16 end.

Definition encoded_channel_depth (p : LatencyProfile) : nat :=
  match p with Low => 2 | Standard => 8 end.

(** ** Single precision arithmetic *)

Definition f32 : Type := spec_float.
Definition f32_zero : f32 := S754_zero false.
Definition f32_add : f32 → f32 → f32 := SFadd 24 128.
Definition f32_mul : f32 → f32 → f32 := SFmul 24 128.
Definition f32_div : f32 → f32 → f32 := SFdiv 24 128.
Definition f32_sqrt : f32 → f32 := SFsqrt 24 128.
Definition f32_of_Z (z : Z) : f32 := binary_normalize 24 128 z 0 false.

(** The constant [1e-9_f32]: the binary32 nearest to 10^-9. *)
Definition f32_1e_9 : f32 := f32_div (f32_of_Z 1) (f32_of_Z 1000000000).

(** [x.clamp(lo, hi)]: NaN is returned unchanged. *)
Definition f32_clamp (lo hi x : f32) : f32 :=
  if SFltb x lo then lo else if SFltb hi x then hi else x.

(** [x.round() as i8]: half away from zero, then a saturating cast; NaN is 0. *)
Definition round_magnitude (m : positive) (e : Z) : Z :=
  if 0 <=? e then Zpos m * 2 ^ e
  else (Zpos m + 2 ^ (- e - 1)) / 2 ^ (- e).

Definition sat_i8 (z : Z) : Z := Z.max (-128) (Z.min 127 z).

Definition f32_round_as_i8 (x : f32) : Z :=
  match x with
  | S754_zero _ | S754_nan => 0
  | S754_infinity s => if s then -128 else 127
  | S754_finite s m e =>
      sat_i8 (if s then - round_magnitude m e else round_magnitude m e)
  end.

(** ** Frames and counters *)

(** The [EncodableFrame] trait's view of [EndpointAudioFrame]. *)
Record EndpointAudioFrame : Type := mkFrame {
  frame_samples : list f32;
  sequence_number : Z;
  sample_rate_hz : Z;
  frame_channels : Z;
  capture_timestamp : Z;
  output_generation : option OutputGeneration;
}.

Record EncodedAudioFrame : Type := mkEncoded {
  payload : list Byte.byte;
  wallclock : Z;
  rtp_time : Z;
  duration_samples : Z;
  audio_level : option Z;
  capture_timestamp_ns : Z;
  capture_age_ns : Z;
  encoded_generation : option OutputGeneration;
}.

Record EncoderCounters : Type := mkCounters {
  normalization_partial_samples_discarded : Z;
  normalization_tail_padding_samples_total : Z;
  opus_packets_out : Z;
  opus_encode_errors : Z;
  encoded_channel_drops : Z;
  publisher_stale_drops : Z;
  cancelled_output_frames : Z;
  cancelled_output_samples : Z;
  capture_age_sum_ns : Z;
  capture_age_max_ns : Z;
  capture_age_sample_count : Z;
  capture_age_over_budget : Z;
}.

Definition counters_default : EncoderCounters := mkCounters 0 0 0 0 0 0 0 0 0 0 0 0.

(** [counters.<field>.fetch_add(n, Relaxed)], one function per field. *)
Definition add_partial n (c : EncoderCounters) : EncoderCounters :=
  let 'mkCounters a b p e d s f m u x k o := c in mkCounters (wrap_add a n) b p e d s f m u x k o.
Definition add_padding n (c : EncoderCounters) : EncoderCounters :=
  let 'mkCounters a b p e d s f m u x k o := c in mkCounters a (wrap_add b n) p e d s f m u x k o.
Definition add_packets n (c : EncoderCounters) : EncoderCounters :=
  let 'mkCounters a b p e d s f m u x k o := c in mkCounters a b (wrap_add p n) e d s f m u x k o.
Definition add_encode_errors n (c : EncoderCounters) : EncoderCounters :=
  let 'mkCounters a b p e d s f m u x k o := c in mkCounters a b p (wrap_add e n) d s f m u x k o.
Definition add_channel_drops n (c : EncoderCounters) : EncoderCounters :=
  let 'mkCounters a b p e d s f m u x k o := c in mkCounters a b p e (wrap_add d n) s f m u x k o.
Definition add_stale_drops n (c : EncoderCounters) : EncoderCounters :=
  let 'mkCounters a b p e d s f m u x k o := c in mkCounters a b p e d (wrap_add s n) f m u x k o.
Definition add_cancelled_frames n (c : EncoderCounters) : EncoderCounters :=
  let 'mkCounters a b p e d s f m u x k o := c in mkCounters a b p e d s (wrap_add f n) m u x k o.
Definition add_cancelled_samples n (c : EncoderCounters) : EncoderCounters :=
  let 'mkCounters a b p e d s f m u x k o := c in mkCounters a b p e d s f (wrap_add m n) u x k o.

Definition CAPTURE_AGE_BUDGET_NS : Z := 40000000.

(** The compare-exchange loop on [capture_age_max_ns].  The encoder thread is the
    only writer of the cell, so an attempt fails only spuriously: [spurious] is
    the number of failures before it succeeds, after each of which the loop reads
    the unchanged value again. *)
Fixpoint cas_max (spurious : nat) (capture_age_ns previous : Z) : Z :=
  if previous <? capture_age_ns then
    match spurious with
    | O => capture_age_ns
    | S k => cas_max k capture_age_ns previous
    end
  else previous.

Definition observe_capture_age (spurious : nat) (capture_age_ns : Z) (c : EncoderCounters)
  : EncoderCounters :=
  if capture_age_ns =? 0 then c else
  let 'mkCounters a b p e d s f m u x k o := c in
  mkCounters a b p e d s f m
    (wrap_add u capture_age_ns) (cas_max spurious capture_age_ns x) (wrap_add k 1)
    (if CAPTURE_AGE_BUDGET_NS <? capture_age_ns then wrap_add o 1 else o).

Inductive EncodedDeliveryPolicy : Type := PreserveWithBackpressure | DropNewest.

Definition for_latency_profile (p : LatencyProfile) : EncodedDeliveryPolicy :=
  match p with Low => DropNewest | Standard => PreserveWithBackpressure end.

Inductive TrySendError : Type := Full | Disconnected.

(** The world of one encoder thread: the codec, the two channel ends, the clock
    and the liveness of output generations. *)
Class EncoderEnv (W : Type) : Type := {
  enc_clock :: Clock W;
  enc_generations :: Generations W;
  monotonic_ns : W → Z * W;
  cas_spurious : W → nat * W;
  log10 : f32 → f32;
  (** [OpusEncoder::encode_into]: the packet, or [None] for an encode error. *)
  encode_into : list f32 → W → option (list Byte.byte) * W;
  (** [encoded_tx.send]: blocks until there is room; [false] when disconnected. *)
  send : EncodedAudioFrame → W → bool * W;
  try_send : EncodedAudioFrame → W → Result TrySendError unit * W;
  (** [frame_rx.recv]: [None] once the feeder is gone and the queue empty. *)
  recv : W → option EndpointAudioFrame * W;
}.

(** ** The worker's state *)

Record EncoderState (W : Type) : Type := mkState {
  counters : EncoderCounters;
  rtp_sample_count : Z;
  rtp_step_samples : Z;
  (** The frames the publisher channel accepted, in order (a ghost log). *)
  delivered : list EncodedAudioFrame;
  world : W;
}.
Arguments mkState {W}.
Arguments counters {W}.
Arguments rtp_sample_count {W}.
Arguments rtp_step_samples {W}.
Arguments delivered {W}.
Arguments world {W}.

Section Worker.
Context {W : Type} `{EncoderEnv W}.
Implicit Types (s : EncoderState W) (w : W).

Definition with_world w s : EncoderState W :=
  mkState (counters s) (rtp_sample_count s) (rtp_step_samples s) (delivered s) w.
Definition count (f : EncoderCounters → EncoderCounters) s : EncoderState W :=
  mkState (f (counters s)) (rtp_sample_count s) (rtp_step_samples s) (delivered s) (world s).
Definition log_delivered (f : EncodedAudioFrame) s : EncoderState W :=
  mkState (counters s) (rtp_sample_count s) (rtp_step_samples s) (delivered s ++ [f]) (world s).

(** [false] only when the publisher receiver has disconnected. *)
Definition deliver_encoded_frame (encoded_frame : EncodedAudioFrame)
  (delivery_policy : EncodedDeliveryPolicy) s : bool * EncoderState W :=
  let '(cancelled, w) := generation_cancelled (encoded_generation encoded_frame) (world s) in
  let s := with_world w s in
  if cancelled then (true, count (add_cancelled_frames 1) s) else
  match delivery_policy with
  | PreserveWithBackpressure =>
      let '(sent, w) := send encoded_frame (world s) in
      let s := with_world w s in
      if sent then (true, log_delivered encoded_frame s) else (false, s)
  | DropNewest =>
      let '(r, w) := try_send encoded_frame (world s) in
      let s := with_world w s in
      match r with
      | Ok _ => (true, log_delivered encoded_frame s)
      | Err Full => (true, count (add_channel_drops 1) s)
      | Err Disconnected => (false, s)
      end
  end.

Definition square_sum (samples : list f32) : f32 :=
  fold_left (λ acc x, f32_add acc (f32_mul x x)) samples (S754_zero true).

Definition root_mean_square (samples : list f32) : f32 :=
  let sample_count := Z.min (Z.of_nat (length samples)) U16_MAX in
  if sample_count =? 0 then f32_zero
  else f32_sqrt (f32_div (square_sum samples) (f32_of_Z sample_count)).

Definition level_of (samples : list f32) : option Z :=
  let rms := root_mean_square samples in
  if SFltb f32_1e_9 rms
  then Some (f32_round_as_i8
               (f32_clamp (f32_of_Z 0) (f32_of_Z 127) (f32_mul (f32_of_Z (-20)) (log10 rms))))
  else Some 127.

Definition encode_and_deliver (delivery_policy : EncodedDeliveryPolicy)
  (generation : option OutputGeneration)
  (samples : list f32) (timestamp : Z) s : bool * EncoderState W :=
  let '(cancelled, w) := generation_cancelled generation (world s) in
  let s := with_world w s in
  if cancelled then (true, count (add_cancelled_frames 1) s) else
  let level := level_of samples in
  let '(encoded, w) := encode_into samples (world s) in
  let s := with_world w s in
  match encoded with
  | None => (true, count (add_encode_errors 1) s)
  | Some output =>
      let s := count (add_packets 1) s in
      let '(now_ns, w) := monotonic_ns (world s) in
      let age := if 0 <? timestamp then sat_sub now_ns timestamp else 0 in
      let '(spurious, w) := cas_spurious w in
      let s := count (observe_capture_age spurious age) (with_world w s) in
      let '(instant, w) := now (world s) in
      let s := with_world w s in
      let encoded_frame := {|
        payload := output;
        wallclock := instant;
        rtp_time := rtp_sample_count s;
        duration_samples := if rtp_step_samples s <=? U32_MAX then rtp_step_samples s else U32_MAX;
        audio_level := level;
        capture_timestamp_ns := timestamp;
        capture_age_ns := age;
        encoded_generation := generation |} in
      let s := mkState (counters s) (sat_add (rtp_sample_count s) (rtp_step_samples s))
                 (rtp_step_samples s) (delivered s) (world s) in
      deliver_encoded_frame encoded_frame delivery_policy s
  end.
End Worker.

(** ** Packet assembly: the [while offset < samples.len()] loop

    Generic in what is done with a complete packet ([deliver]: [false] ends the
    thread), so that its specification is independent of the codec. *)
Section Drain.
Context {sample S : Type} (deliver : list sample → Z → S → bool * S).

Fixpoint drain (fuel : nat) (samples : list sample) (timestamp : Z) (offset : nat)
  (p : PcmPacketizer sample) (s : S) : option (bool * PcmPacketizer sample * S) :=
  match fuel with
  | O => None
  | Datatypes.S fuel =>
      if bool_decide (offset < length samples)%nat then
        let '(copied, p) := push p (drop offset samples) timestamp offset in
        let offset := (offset + copied)%nat in
        match complete_packet p with
        | Some (packet, timestamp_ns) =>
            let '(alive, s) := deliver packet timestamp_ns s in
            if alive then drain fuel samples timestamp offset (finish_packet p) s
            else Some (false, p, s)
        | None => drain fuel samples timestamp offset p s
        end
      else Some (true, p, s)
  end.

(** *** Reference: cut the pending samples and the frame into equal packets *)

Fixpoint deliver_all (packets : list (list sample * Z)) (s : S) : bool * S :=
  match packets with
  | [] => (true, s)
  | (packet, timestamp_ns) :: packets =>
      let '(alive, s) := deliver packet timestamp_ns s in
      if alive then deliver_all packets s else (false, s)
  end.
End Drain.

Section Reference.
Context {sample : Type}.

(** Packet [i] of the stream [pend ++ samples], cut every [n] samples.  It is
    stamped with the capture time of its first sample: the partial packet's own
    timestamp when it starts with [pend], and otherwise the frame's timestamp
    plus the offset of that sample in the frame. *)
Definition packet_at (n : nat) (ch : Z) (pend : list sample) (pend_ts : Z)
  (samples : list sample) (timestamp : Z) (i : nat) : list sample * Z :=
  (take n (drop (i * n) (pend ++ samples)),
   if bool_decide (i = 0%nat ∧ pend ≠ []) then pend_ts
   else sat_add timestamp (offset_ns ch (i * n - length pend))).

Definition packets_of (n : nat) (ch : Z) (pend : list sample) (pend_ts : Z)
  (samples : list sample) (timestamp : Z) : list (list sample * Z) :=
  packet_at n ch pend pend_ts samples timestamp <$>
    seq 0 ((length pend + length samples) / n).

Definition tail_of (n : nat) (pend samples : list sample) : list sample :=
  drop ((length pend + length samples) / n * n) (pend ++ samples).
End Reference.

(** ** The loop is the reference *)

Section DrainTheory.
Context {sample S : Type} (deliver : list sample → Z → S → bool * S).
Implicit Types (p : PcmPacketizer sample) (l pend : list sample).

(** The reference seen from sample [off] of the frame. *)
Definition packet_from n ch pend pend_ts l ts (off i : nat) : list sample * Z :=
  (take n (drop (i * n) (pend ++ drop off l)),
   if bool_decide (i = 0%nat ∧ pend ≠ []) then pend_ts
   else sat_add ts (offset_ns ch (off + i * n - length pend))).

Definition packets_from n ch pend pend_ts l ts off : list (list sample * Z) :=
  packet_from n ch pend pend_ts l ts off <$> seq 0 ((length pend + (length l - off)) / n).

Lemma no_pending (A : Prop) `{Decision A} :
  bool_decide (A ∧ ([] : list sample) ≠ []) = false.
Proof. apply bool_decide_eq_false_2. by intros [_ ?]. Qed.

Lemma packets_from_0 n ch pend pend_ts l ts :
  packets_from n ch pend pend_ts l ts 0 = packets_of n ch pend pend_ts l ts.
Proof. unfold packets_from, packets_of. by rewrite Nat.sub_0_r. Qed.

Lemma packets_from_short n ch pend pend_ts l ts off :
  (length pend + (length l - off) < n)%nat → packets_from n ch pend pend_ts l ts off = [].
Proof. intros ?. unfold packets_from. by rewrite Nat.div_small. Qed.

Lemma packets_count_step n a b :
  (a < n)%nat → (n ≤ a + b)%nat → ((a + b) / n = 1 + (b - (n - a)) / n)%nat.
Proof.
  intros. replace (a + b)%nat with ((b - (n - a)) + 1 * n)%nat by lia.
  rewrite Nat.div_add by lia. lia.
Qed.

Lemma packet_from_step n ch pend pts l ts off i :
  (length pend < n)%nat → (n - length pend ≤ length l - off)%nat →
  packet_from n ch pend pts l ts off (1 + i) =
  packet_from n ch [] pts l ts (off + (n - length pend)) i.
Proof.
  intros Hn Hl. unfold packet_from. f_equal.
  - cbn [app]. f_equal.
    rewrite drop_app_ge by lia. rewrite !drop_drop. f_equal. lia.
  - rewrite bool_decide_eq_false_2 by lia. rewrite no_pending.
    cbn [length]. do 2 f_equal. lia.
Qed.

Lemma packets_from_cons n ch pend pts l ts off :
  (length pend < n)%nat → (n - length pend ≤ length l - off)%nat →
  packets_from n ch pend pts l ts off =
    (pend ++ take (n - length pend) (drop off l),
     if decide (pend = []) then sat_add ts (offset_ns ch off) else pts)
    :: packets_from n ch [] pts l ts (off + (n - length pend)).
Proof.
  intros Hn Hl. unfold packets_from.
  rewrite (packets_count_step n (length pend) (length l - off)) by lia.
  cbn [seq Nat.add fmap list_fmap]. f_equal.
  - unfold packet_from. rewrite Nat.mul_0_l, drop_0. f_equal.
    + rewrite take_app_ge by lia. done.
    + destruct (decide (pend = [])) as [->|].
      * rewrite no_pending. do 2 f_equal. cbn. lia.
      * by rewrite bool_decide_eq_true_2.
  - rewrite <- fmap_S_seq, <- list_fmap_compose.
    cbn [length Nat.add].
    replace (length l - (off + (n - length pend)))%nat
      with (length l - off - (n - length pend))%nat by lia.
    apply list_fmap_ext. intros i x Hx. unfold compose.
    by apply (packet_from_step n ch pend pts l ts off x).
Qed.

(** What the packetizer holds after the frame: a prefix of the next packet. *)
Definition holds n ch pend pts l ts off p : Prop :=
  let k := ((length pend + (length l - off)) / n)%nat in
  pending p = drop (k * n) (pend ++ drop off l) ∧
  (pending p ≠ [] → packet_timestamp_ns p = (packet_from n ch pend pts l ts off k).2).

Lemma holds_step n ch pend pts l ts off p :
  (length pend < n)%nat → (n - length pend ≤ length l - off)%nat →
  holds n ch [] pts l ts (off + (n - length pend)) p → holds n ch pend pts l ts off p.
Proof.
  intros Hn Hl [Hp Ht]. unfold holds.
  rewrite (packets_count_step n (length pend) (length l - off)) by lia.
  rewrite packet_from_step by done.
  cbn [length Nat.add] in Hp, Ht.
  replace (length l - (off + (n - length pend)))%nat
    with (length l - off - (n - length pend))%nat in * by lia.
  split; [|done]. rewrite Hp. cbn [app].
  rewrite drop_app_ge by lia. rewrite !drop_drop. f_equal. lia.
Qed.

Lemma holds_short n ch pend pts l ts off p :
  (length pend + (length l - off) < n)%nat →
  pending p = pend ++ drop off l →
  (pending p ≠ [] → packet_timestamp_ns p =
     if decide (pend = []) then sat_add ts (offset_ns ch off) else pts) →
  holds n ch pend pts l ts off p.
Proof.
  intros Hn Hp Ht. unfold holds. rewrite Nat.div_small by done. rewrite Nat.mul_0_l, drop_0.
  split; [done|]. intros Hne. rewrite Ht by done. unfold packet_from; cbn.
  destruct (decide (pend = [])) as [->|].
  - rewrite no_pending. cbn. do 2 f_equal. lia.
  - by rewrite bool_decide_eq_true_2.
Qed.

Definition same_stream p p' : Prop :=
  packet_samples p' = packet_samples p ∧ channels p' = channels p ∧
  expected_sequence_number p' = expected_sequence_number p ∧
  packetizer_generation_id p' = packetizer_generation_id p.

Lemma push_stream p input ts off : same_stream p (push p input ts off).2.
Proof. done. Qed.

Lemma same_stream_trans p1 p2 p3 : same_stream p1 p2 → same_stream p2 p3 → same_stream p1 p3.
Proof. unfold same_stream. intuition congruence. Qed.

Lemma push_timestamp p input ts off :
  wf p → packet_timestamp_ns (push p input ts off).2 =
    if decide (pending p = []) then sat_add ts (offset_ns (channels p) off)
    else packet_timestamp_ns p.
Proof.
  intros Hwf. pose proof (pending_length p Hwf) as Hlen. cbn.
  case_bool_decide as E; destruct (decide _) as [E'|E']; try done.
  - exfalso. apply E', length_zero_iff_nil. congruence.
  - exfalso. apply E. by rewrite <- Hlen, E'.
Qed.

(** The sample loop from [off] delivers exactly the reference packets, stopping at the
    first refusal, and leaves the reference tail pending. *)
Definition drains (fuel : nat) l ts off p s : Prop :=
  ∃ alive p' s',
    drain deliver fuel l ts off p s = Some (alive, p', s') ∧
    deliver_all deliver
      (packets_from (packet_samples p) (channels p) (pending p) (packet_timestamp_ns p) l ts off)
      s = (alive, s') ∧
    (alive = true →
     wf p' ∧ same_stream p p' ∧ (written p' < packet_samples p')%nat ∧
     holds (packet_samples p) (channels p) (pending p) (packet_timestamp_ns p) l ts off p').

(** At the end of the frame. *)
Lemma drains_end fuel l ts off p s :
  wf p → (written p < packet_samples p)%nat → (length l ≤ off)%nat → drains (Datatypes.S fuel) l ts off p s.
Proof.
  intros Hwf Hw Hoff. pose proof (pending_length p Hwf) as Hlen. exists true, p, s. cbn [drain].
  rewrite bool_decide_eq_false_2 by lia. rewrite packets_from_short by lia.
  assert (drop off l = []) as Hnil by (apply drop_ge; lia).
  split_and!; [done..|]. intros _. split_and!; [done..|].
  apply holds_short; [lia|by rewrite Hnil, app_nil_r|]. intros ?. by destruct (decide _).
Qed.

Section Pushed.
Context l ts off p copied p1 (Hwf : wf p) (Hts : u64 ts) (Hw : (written p < packet_samples p)%nat)
  (Hoff : (off < length l)%nat) (Hpush : push p (drop off l) ts off = (copied, p1)).

Lemma pushed :
  wf p1 ∧ same_stream p p1 ∧ pending p1 = pending p ++ take copied (drop off l)
  ∧ copied = Nat.min (length l - off) (packet_samples p - length (pending p))
  ∧ packet_timestamp_ns p1 = if decide (pending p = []) then sat_add ts (offset_ns (channels p) off)
                             else packet_timestamp_ns p.
Proof.
  pose proof (push_wf p (drop off l) ts off Hwf Hts) as H1.
  pose proof (push_pending p (drop off l) ts off Hwf) as H2.
  pose proof (push_count p (drop off l) ts off) as H3.
  pose proof (push_timestamp p (drop off l) ts off Hwf) as H4.
  pose proof (push_stream p (drop off l) ts off) as H5.
  rewrite Hpush in *. rewrite length_drop, <- (pending_length p Hwf) in H3. done.
Qed.

(** A packet is complete: the rest of the frame follows an empty packet. *)
Lemma drains_packet fuel s :
  (packet_samples p - length (pending p) ≤ length l - off)%nat →
  (∀ s1, drains fuel l ts (off + copied) (finish_packet p1) s1) → drains (Datatypes.S fuel) l ts off p s.
Proof.
  intros Hfull IH. destruct pushed as (Hwf1 & Hst1 & Hpend1 & -> & Hts1).
  pose proof (pending_length p Hwf) as Hlen. pose proof Hst1 as (Hn1 & Hc1 & _).
  rewrite Nat.min_r in * by lia. unfold drains. cbn [drain].
  rewrite bool_decide_eq_true_2, Hpush by done. rewrite (complete_packet_spec p1 Hwf1), Hn1.
  rewrite Hpend1, length_app, length_take, length_drop.
  rewrite bool_decide_eq_true_2 by lia. rewrite packets_from_cons by lia. cbn [deliver_all]. rewrite <- Hts1.
  destruct (deliver _ _ s) as [[] s1]; [|by exists false, p1, s1].
  destruct (finish_wf p1 Hwf1) as [_ Hnil].
  destruct (IH s1) as (alive & p' & s' & Hr & Hall & Hend). exists alive, p', s'. split; [done|].
  rewrite Hnil in Hall, Hend. cbn [packet_samples channels packet_timestamp_ns finish_packet] in Hall, Hend.
  rewrite Hn1, Hc1 in Hall, Hend.
  assert (∀ x y o, packets_from (packet_samples p) (channels p) [] x l ts o
                 = packets_from (packet_samples p) (channels p) [] y l ts o) as Hirr.
  { intros. unfold packets_from, packet_from. apply list_fmap_ext. intros ? i _. f_equal.
    by rewrite !no_pending. }
  rewrite (Hirr _ 0). split; [done|]. intros Ha. destruct (Hend Ha) as (? & ? & ? & Hh).
  split_and!; [done| |done|].
  - eapply same_stream_trans; [exact Hst1|done].
  - apply holds_step; [lia|lia|]. unfold holds, packet_from in *. cbn [length Nat.add] in *.
    by rewrite no_pending in *.
Qed.

(** The frame is exhausted before the packet is. *)
Lemma drains_rest fuel s :
  (length l - off < packet_samples p - length (pending p))%nat →
  drains fuel l ts (off + copied) p1 s → drains (Datatypes.S fuel) l ts off p s.
Proof.
  intros Hshort (alive & p' & s' & Hr & Hall & Hend). destruct pushed as (Hwf1 & Hst1 & Hpend1 & -> & Hts1).
  pose proof (pending_length p Hwf) as Hlen. pose proof Hst1 as (Hn1 & Hc1 & _).
  rewrite Nat.min_l in * by lia. unfold drains. cbn [drain].
  rewrite bool_decide_eq_true_2, Hpush by done. rewrite (complete_packet_spec p1 Hwf1), Hn1.
  assert (length (pending p1) = length (pending p) + (length l - off))%nat as Hlen1
    by (rewrite Hpend1, length_app, length_take, length_drop; lia).
  rewrite bool_decide_eq_false_2 by lia.
  rewrite packets_from_short in Hall by lia. injection Hall as <- <-. rewrite packets_from_short by lia.
  exists true, p', s. split_and!; [done..|]. intros _.
  destruct (Hend eq_refl) as (? & ? & ? & [Hh1 Hh2]).
  rewrite Nat.div_small in Hh1, Hh2 by lia.
  rewrite Nat.mul_0_l, drop_0, (drop_ge l), app_nil_r in Hh1 by lia.
  rewrite take_ge in Hpend1 by (rewrite length_drop; lia).
  split_and!; [done|by eapply same_stream_trans|done|].
  apply holds_short; [lia|by rewrite Hh1|]. intros Hne. rewrite Hh2 by done.
  rewrite <- Hts1. unfold packet_from. cbn [snd].
  by rewrite bool_decide_eq_true_2 by (split; [done|by rewrite <- Hh1]).
Qed.
End Pushed.

(** With more fuel than samples the loop returns. *)
Lemma drain_from fuel : ∀ l ts off p s,
  wf p → u64 ts → (written p < packet_samples p)%nat →
  (off ≤ length l)%nat → (length l - off < fuel)%nat → drains fuel l ts off p s.
Proof.
  induction fuel as [|fuel IH]; intros l ts off p s Hwf Hts Hw Hoff Hfuel; [lia|].
  destruct (decide (off < length l)%nat) as [Hlt|]; [|apply drains_end; [done..|lia]].
  destruct (push p (drop off l) ts off) as [copied p1] eqn:Hpush.
  destruct (pushed _ _ _ _ _ _ Hwf Hts Hpush) as (Hwf1 & (Hn1 & _) & Hpend1 & Hcopied & _).
  pose proof (pending_length p Hwf). pose proof (pending_length p1 Hwf1).
  assert (length (pending p1) = length (pending p) + copied)%nat
    by (rewrite Hpend1, length_app, length_take, length_drop; lia).
  destruct (decide (packet_samples p - length (pending p) ≤ length l - off)%nat).
  - eapply drains_packet; [done..|]. intros s1. destruct (finish_wf p1 Hwf1) as [Hwf2 _].
    apply IH; [done|done| |lia|lia]. cbn. lia.
  - eapply drains_rest; [done..|lia|]. apply IH; [done|done|lia|lia|lia].
Qed.
End DrainTheory.

(** Any reflexive and transitive relation that one delivery maintains is
    maintained by the sample loop. *)
Lemma drain_rel {sample S} (deliver : list sample → Z → S → bool * S) (R : S → S → Prop) :
  (∀ s, R s s) → (∀ s1 s2 s3, R s1 s2 → R s2 s3 → R s1 s3) →
  (∀ packet ts s r s', deliver packet ts s = (r, s') → R s s') →
  ∀ fuel l ts off p s r p' s', drain deliver fuel l ts off p s = Some (r, p', s') → R s s'.
Proof.
  intros Hrefl Htrans Hstep.
  induction fuel as [|fuel IH]; intros l ts off p s r p' s'; [done|]. cbn [drain].
  destruct (bool_decide _); [|by intros [= <- <- <-]].
  destruct (push _ _ _ _) as [copied p1].
  destruct (complete_packet p1) as [[packet pts]|]; [|by apply IH].
  destruct (deliver packet pts s) as [[] s1] eqn:E; [|intros [= <- <- <-]; by eauto].
  intros Hd. eapply Htrans; eauto.
Qed.

(** The reference packets are the whole input but a tail shorter than a packet. *)
Lemma concat_chunks {A} n (l : list A) k :
  (k * n ≤ length l)%nat → concat ((λ i, take n (drop (i * n) l)) <$> seq 0 k) = take (k * n) l.
Proof.
  revert l. induction k as [|k IH]; intros l Hk; [done|].
  cbn [seq fmap list_fmap concat]. rewrite Nat.mul_0_l, drop_0.
  rewrite <- fmap_S_seq, <- list_fmap_compose.
  replace (S k * n)%nat with (n + k * n)%nat in * by lia.
  rewrite <- take_take_drop. f_equal.
  rewrite <- IH by (rewrite length_drop; lia).
  f_equal. apply list_fmap_ext. intros _ i _. unfold compose. by rewrite drop_drop.
Qed.

Lemma packets_of_concat {A} n ch (pend : list A) pts l ts :
  (0 < n)%nat →
  concat ((packets_of n ch pend pts l ts).*1) ++ tail_of n pend l = pend ++ l ∧
  Forall (λ packet, length packet.1 = n) (packets_of n ch pend pts l ts) ∧
  (length (tail_of n pend l) < n)%nat.
Proof.
  intros Hn. unfold packets_of, tail_of.
  pose proof (length_app pend l) as Hlen.
  set (total := (length pend + length l)%nat) in *.
  pose proof (Nat.div_mod_eq total n). pose proof (Nat.mod_upper_bound total n ltac:(lia)).
  split_and!.
  - rewrite <- list_fmap_compose.
    change (fst ∘ packet_at n ch pend pts l ts) with (λ i, take n (drop (i * n) (pend ++ l))).
    rewrite concat_chunks by lia. apply take_drop.
  - apply Forall_fmap, Forall_forall. intros i Hi%elem_of_seq. cbn.
    rewrite length_take, length_drop, Hlen. nia.
  - rewrite length_drop. lia.
Qed.

(** ** The encoder thread *)

Record WorkerState (W : Type) : Type := mkWorker {
  packetizer : PcmPacketizer f32;
  packet_output : option OutputGeneration;
  encoder : EncoderState W;
}.
Arguments mkWorker {W}.
Arguments packetizer {W}.
Arguments packet_output {W}.
Arguments encoder {W}.

Section Thread.
Context {W : Type} `{EncoderEnv W}.
Implicit Types st : WorkerState W.

(** One iteration of [while let Ok(frame) = frame_rx.recv()].  [false] is the
    thread's [return] after the publisher has gone; the loop over the frame's
    samples has one unit of fuel more than it needs. *)
Definition process_frame (delivery_policy : EncodedDeliveryPolicy) (ch : Z)
  (frame : EndpointAudioFrame) st : option (bool * WorkerState W) :=
  let '(mkWorker p out s) := st in
  if negb (sample_rate_hz frame =? 48000) || negb (frame_channels frame =? ch)
  then Some (true, mkWorker p out (count (add_encode_errors 1) s)) else
  let '(cancelled, w) := generation_cancelled (output_generation frame) (world s) in
  let s := with_world w s in
  if cancelled then Some (true, mkWorker p out (count (add_cancelled_frames 1) s)) else
  let output_generation_id := generation_id <$> output_generation frame in
  let samples := frame_samples frame in
  match begin_frame p (sequence_number frame) (length samples) output_generation_id with
  | (Err _, p) => Some (true, mkWorker p out (count (add_encode_errors 1) s))
  | (Ok boundary, p) =>
      let out := if bool_decide (packetizer_generation_id p = generation_id <$> out)
                 then out else output_generation frame in
      let s := count (add_partial (Z.of_nat (discontinuity_discarded_samples boundary))) s in
      let s := count (add_cancelled_samples
                        (Z.of_nat (cancelled_output_discarded_samples boundary))) s in
      match drain (encode_and_deliver delivery_policy out) (S (length samples)) samples
              (capture_timestamp frame) 0 p s with
      | Some (alive, p, s) => Some (alive, mkWorker p out s)
      | None => None
      end
  end.

(** The receive loop; [fuel] bounds the number of frames received. *)
Fixpoint worker_loop (fuel : nat) (delivery_policy : EncodedDeliveryPolicy) (ch : Z) st
  : option (bool * WorkerState W) :=
  match fuel with
  | O => None
  | S fuel =>
      let '(mkWorker p out s) := st in
      let '(received, w) := recv (world s) in
      let st := mkWorker p out (with_world w s) in
      match received with
      | None => Some (true, st)
      | Some frame =>
          match process_frame delivery_policy ch frame st with
          | Some (true, st) => worker_loop fuel delivery_policy ch st
          | r => r
          end
      end
  end.

(** The final partial packet, zero-padded, when the input has ended. *)
Definition flush_tail (delivery_policy : EncodedDeliveryPolicy) st : WorkerState W :=
  let '(mkWorker p out s) := st in
  match pad_tail f32_zero p with
  | (None, p) => mkWorker p out s
  | (Some padding, p) =>
      let s := count (add_padding (Z.of_nat padding)) s in
      match complete_packet p with
      | Some (packet, timestamp_ns) =>
          mkWorker p out (encode_and_deliver delivery_policy out packet timestamp_ns s).2
      | None => mkWorker p out s
      end
  end.

(** The body of the spawned thread.  [codec_ready] is whether
    [OpusEncoder::from_config] succeeded; [channels] and [step] are the
    channel count and samples per packet of the codec configuration. *)
Definition spawn_opus_encoder (fuel : nat) (codec_ready : bool) (ch step : Z)
  (delivery_policy : EncodedDeliveryPolicy) (c : EncoderCounters) (w : W)
  : option (EncoderState W) :=
  if negb codec_ready then Some (mkState (add_encode_errors 1 c) 0 step [] w) else
  let s := mkState c 0 step [] w in
  match new f32_zero 48000 ch with
  | Err _ => Some (count (add_encode_errors 1) s)
  | Ok p =>
      match worker_loop fuel delivery_policy ch (mkWorker p None s) with
      | None => None
      | Some (false, st) => Some (encoder st)
      | Some (true, st) => Some (encoder (flush_tail delivery_policy st))
      end
  end.
End Thread.

Arguments drain : simpl never.
Arguments process_frame : simpl never.
Arguments encode_and_deliver : simpl never.

(** ** Lemmas *)

Lemma cas_max_max spurious age previous : cas_max spurious age previous = Z.max previous age.
Proof. induction spurious; cbn; destruct (Z.ltb_spec previous age); lia. Qed.

Lemma round_as_i8_bounds x : -128 ≤ f32_round_as_i8 x ≤ 127.
Proof. destruct x as [|[]| |? m e]; cbn; unfold sat_i8; lia. Qed.

Lemma round_magnitude_nonneg m e : 0 ≤ round_magnitude m e.
Proof.
  unfold round_magnitude. destruct (Z.leb_spec 0 e).
  - apply Z.mul_nonneg_nonneg; [lia|]. by apply Z.pow_nonneg.
  - apply Z.div_pos; [|apply Z.pow_pos_nonneg; lia].
    assert (0 ≤ 2 ^ (- e - 1)) by (by apply Z.pow_nonneg). lia.
Qed.

Lemma clamped_nonneg x : 0 ≤ f32_round_as_i8 (f32_clamp (f32_of_Z 0) (f32_of_Z 127) x).
Proof.
  unfold f32_clamp. change (f32_of_Z 0) with (S754_zero false).
  destruct (SFltb x (S754_zero false)) eqn:E1; [done|].
  destruct (SFltb (f32_of_Z 127) x) eqn:E2; [vm_compute; done|].
  destruct x as [|[]| |[] m e]; try done; cbn; unfold sat_i8.
  pose proof (round_magnitude_nonneg m e). lia.
Qed.

Section WorkerTheory.
Context {W : Type} `{EncoderEnv W}.
Implicit Types s : EncoderState W.

Lemma level_bounds samples : ∃ l, level_of samples = Some l ∧ 0 ≤ l ≤ 127.
Proof.
  unfold level_of. destruct (SFltb _ _); eexists; (split; [done|]); [|lia].
  split; [apply clamped_nonneg|apply round_as_i8_bounds].
Qed.

Lemma deliver_keeps_rtp f pol s r s' :
  deliver_encoded_frame f pol s = (r, s') →
  rtp_sample_count s' = rtp_sample_count s ∧ rtp_step_samples s' = rtp_step_samples s ∧
  (delivered s' = delivered s ∨ delivered s' = delivered s ++ [f]).
Proof.
  unfold deliver_encoded_frame, log_delivered, count, with_world.
  destruct (generation_cancelled _ _) as [[] w]; [intros [= <- <-]; cbn; auto|].
  destruct pol.
  - destruct (send _ _) as [[] w1]; intros [= <- <-]; cbn; auto.
  - destruct (try_send _ _) as [[|[]] w1]; intros [= <- <-]; cbn; auto.
Qed.

(** Delivered frames: 20 ms each, on the 960-sample grid of the 48 kHz clock,
    strictly increasing, and all before the next packet's timestamp. *)
Definition rtp_ok s : Prop :=
  rtp_step_samples s = 960 ∧ 0 ≤ rtp_sample_count s ≤ U64_MAX ∧ rtp_sample_count s mod 960 = 0 ∧
  Forall (λ f, duration_samples f = 960 ∧ rtp_time f mod 960 = 0 ∧
               0 ≤ rtp_time f < rtp_sample_count s) (delivered s) ∧
  StronglySorted (λ f g, rtp_time f < rtp_time g) (delivered s).

Lemma StronglySorted_snoc {A} (R : A → A → Prop) l x :
  StronglySorted R l → Forall (λ y, R y x) l → StronglySorted R (l ++ [x]).
Proof.
  induction 1 as [|y l Hl IH Hy]; cbn; intros Hx.
  - repeat constructor.
  - inversion Hx; subst. constructor; [by apply IH|]. apply Forall_app. by repeat constructor.
Qed.

(** The RTP clock never runs backwards. *)
Definition clock_le s s' : Prop :=
  rtp_step_samples s' = rtp_step_samples s ∧
  (0 ≤ rtp_step_samples s → rtp_sample_count s ≤ U64_MAX →
   rtp_sample_count s ≤ rtp_sample_count s' ≤ U64_MAX).

Lemma clock_le_refl s : clock_le s s.
Proof. unfold clock_le. intuition lia. Qed.

Lemma clock_le_trans s1 s2 s3 : clock_le s1 s2 → clock_le s2 s3 → clock_le s1 s3.
Proof. intros [E1 H1] [E2 H2]. split; [congruence|]. intros. rewrite E1 in *. lia. Qed.

(** A step keeps the schedule as long as the 64-bit clock has not saturated. *)
Definition keeps_rtp s s' : Prop :=
  clock_le s s' ∧ (rtp_ok s → rtp_sample_count s' < U64_MAX → rtp_ok s').

Lemma keeps_rtp_refl s : keeps_rtp s s.
Proof. split; [apply clock_le_refl|done]. Qed.

Lemma keeps_rtp_trans s1 s2 s3 : keeps_rtp s1 s2 → keeps_rtp s2 s3 → keeps_rtp s1 s3.
Proof.
  intros [C1 H1] [C2 H2]. split; [by eapply clock_le_trans|]. intros Hok Hmax.
  pose proof Hok as (Hs & H0 & _). destruct C2 as [E2 L2], C1 as [E1 L1].
  apply H2; [apply H1|]; auto; lia.
Qed.

(** States that differ only in the world and the counters. *)
Definition same_rtp s s' : Prop :=
  rtp_sample_count s' = rtp_sample_count s ∧ rtp_step_samples s' = rtp_step_samples s ∧
  delivered s' = delivered s.

Lemma same_rtp_keeps s s' : same_rtp s s' → keeps_rtp s s'.
Proof.
  intros (Hc & Hs & Hd). split; [split; [done|rewrite Hc; lia]|].
  unfold rtp_ok. by rewrite Hc, Hs, Hd.
Qed.

(** The branches of [encode_and_deliver]: nothing encoded, or one frame stamped
    with the clock before it advances by one step. *)
Lemma encode_cases pol g samples ts s r s' :
  encode_and_deliver pol g samples ts s = (r, s') →
  same_rtp s s' ∨
  ∃ f s1, deliver_encoded_frame f pol s1 = (r, s') ∧
    rtp_sample_count s1 = sat_add (rtp_sample_count s) (rtp_step_samples s) ∧
    rtp_step_samples s1 = rtp_step_samples s ∧ delivered s1 = delivered s ∧
    rtp_time f = rtp_sample_count s ∧
    duration_samples f =
      (if rtp_step_samples s <=? U32_MAX then rtp_step_samples s else U32_MAX).
Proof.
  unfold encode_and_deliver. generalize (level_of samples) as level. intros level.
  destruct (generation_cancelled g (world s)) as [[] w]; [intros [= <- <-]; by left|].
  destruct (encode_into _ _) as [[output|] w1]; [|intros [= <- <-]; by left].
  destruct (monotonic_ns _) as [ns w2], (cas_spurious w2) as [sp w3].
  destruct (now _) as [instant w4].
  intros Hd. right. eexists _, _. split; [exact Hd|]. done.
Qed.

Lemma rtp_ok_step s f s' :
  rtp_ok s → rtp_step_samples s' = 960 → rtp_sample_count s' = rtp_sample_count s + 960 → rtp_sample_count s' ≤ U64_MAX →
  rtp_time f = rtp_sample_count s → duration_samples f = 960 →
  (delivered s' = delivered s ∨ delivered s' = delivered s ++ [f]) → rtp_ok s'.
Proof.
  intros (Hs & H0 & Hm & Hall & Hsort) Hs' Hc Hmax Hf Hdur Hd.
  unfold rtp_ok. rewrite Hs', Hc. rewrite Hc in Hmax.
  assert (Forall (λ f, duration_samples f = 960 ∧ rtp_time f mod 960 = 0 ∧
                   0 ≤ rtp_time f < rtp_sample_count s + 960) (delivered s)).
  { eapply Forall_impl; [exact Hall|]. intros x (? & ? & ?). repeat split; [done|done|lia|lia]. }
  split_and!; [done|lia|lia| | |].
  - rewrite <- Zplus_mod_idemp_l, Hm. done.
  - destruct Hd as [->| ->]; [done|]. apply Forall_app. split; [done|].
    constructor; [|constructor]. rewrite Hf, Hdur. repeat split; [done|lia|lia].
  - destruct Hd as [->| ->]; [done|]. apply StronglySorted_snoc; [done|].
    eapply Forall_impl; [exact Hall|]. intros x (? & ? & ?). rewrite Hf. lia.
Qed.

Lemma clock_le_step s s' :
  rtp_step_samples s' = rtp_step_samples s →
  rtp_sample_count s' = sat_add (rtp_sample_count s) (rtp_step_samples s) → clock_le s s'.
Proof. intros Hs Hc. split; [done|]. rewrite Hc. unfold sat_add. lia. Qed.

Lemma encode_keeps_rtp pol g samples ts s r s' :
  encode_and_deliver pol g samples ts s = (r, s') → keeps_rtp s s'.
Proof.
  intros E. apply encode_cases in E as [?|(f & s1 & D & Hc1 & Hs1 & Hd1 & Hf & Hdur)];
    [by apply same_rtp_keeps|].
  apply deliver_keeps_rtp in D as (Hc & Hstep & Hd).
  rewrite Hc1 in Hc. rewrite Hs1 in Hstep. rewrite Hd1 in Hd.
  split; [by apply clock_le_step|].
  intros Hok. pose proof Hok as (Hs & H0 & _).
  rewrite Hs in Hc, Hstep, Hdur. rewrite Hc. intros Hmax.
  pose proof (sat_add_below _ _ Hmax) as Hexact. rewrite Hexact in Hc, Hmax.
  apply (rtp_ok_step s f);
    [exact Hok|exact Hstep|exact Hc|rewrite Hc; lia|exact Hf|exact Hdur|exact Hd].
Qed.

Lemma deliver_all_rtp pol g packets : ∀ s r s',
  deliver_all (encode_and_deliver pol g) packets s = (r, s') → keeps_rtp s s'.
Proof.
  induction packets as [|[packet ts] packets IH]; cbn; intros s r s'.
  { intros [= <- <-]. apply keeps_rtp_refl. }
  destruct (encode_and_deliver pol g packet ts s) as [[] s1] eqn:E; intros Hd;
    pose proof (encode_keeps_rtp _ _ _ _ _ _ _ E).
  - eapply keeps_rtp_trans; eauto.
  - by injection Hd as <- <-.
Qed.

(** The packetizer never holds a complete packet between frames. *)
Definition ready (st : WorkerState W) : Prop :=
  wf (packetizer st) ∧ (written (packetizer st) < packet_samples (packetizer st))%nat.

Definition frame_ok (frame : EndpointAudioFrame) : Prop := u64 (capture_timestamp frame).

(** An accepted frame is delivered as the reference packets of the (possibly
    emptied) partial packet followed by the frame; the rest stays pending. *)
Lemma process_frame_accepts pol frame st b p1 w1 :
  ready st → frame_ok frame →
  sample_rate_hz frame = 48000 → frame_channels frame = channels (packetizer st) →
  generation_cancelled (output_generation frame) (world (encoder st)) = (false, w1) →
  begin_frame (packetizer st) (sequence_number frame) (length (frame_samples frame))
    (generation_id <$> output_generation frame) = (Ok b, p1) →
  ∃ alive st' out s1,
    process_frame pol (channels (packetizer st)) frame st = Some (alive, st') ∧
    s1 = count (add_cancelled_samples (Z.of_nat (cancelled_output_discarded_samples b)))
           (count (add_partial (Z.of_nat (discontinuity_discarded_samples b)))
              (with_world w1 (encoder st))) ∧ packet_output st' = out ∧
    deliver_all (encode_and_deliver pol out)
      (packets_of (packet_samples p1) (channels p1) (pending p1) (packet_timestamp_ns p1)
         (frame_samples frame) (capture_timestamp frame)) s1 = (alive, encoder st') ∧
    (alive = true → ready st' ∧ channels (packetizer st') = channels (packetizer st) ∧
       pending (packetizer st') = tail_of (packet_samples p1) (pending p1) (frame_samples frame) ∧
       same_stream p1 (packetizer st') ∧
       (pending (packetizer st') ≠ [] → packet_timestamp_ns (packetizer st') =
          (packet_at (packet_samples p1) (channels p1) (pending p1) (packet_timestamp_ns p1)
             (frame_samples frame) (capture_timestamp frame)
             ((length (pending p1) + length (frame_samples frame)) / packet_samples p1)).2)).
Proof.
  destruct st as [p out s]. intros [Hwf Hw] Hts Hrate Hch Hc Hb.
  cbn [packetizer packet_output encoder] in *.
  pose proof (begin_frame_wf _ _ _ _ _ _ Hwf Hb) as Hwf1.
  assert (written p1 < packet_samples p1)%nat as Hw1.
  { pose proof (begin_frame_pending _ _ _ _ _ _ Hwf Hb) as [Hn [[_ Hp]|[_ Hp]]];
      rewrite <- (pending_length p1 Hwf1), Hn, Hp; cbn; rewrite ?(pending_length p Hwf); lia. }
  unfold process_frame. rewrite Hrate, Hch, !Z.eqb_refl. cbn [negb orb].
  rewrite Hc, Hb. cbv zeta.
  match goal with |- context [drain (encode_and_deliver pol ?o) _ _ _ _ _ ?x] =>
    set (out' := o); set (s1 := x) end.
  edestruct (drain_from (encode_and_deliver pol out') (Datatypes.S (length (frame_samples frame)))
               (frame_samples frame) (capture_timestamp frame) 0 p1 s1)
    as (alive & p' & s' & Hd & Hall & Hend); [done..|lia|lia|].
  rewrite Hd. rewrite packets_from_0 in Hall.
  eexists alive, (mkWorker p' out' s'), out', s1.
  split_and!; [reflexivity|done|done|exact Hall|].
  intros Ha. destruct (Hend Ha) as (? & Hs' & ? & [Hp Ht]). pose proof Hs' as (Hn & Hc' & _).
  pose proof (begin_frame_channels _ _ _ _ _ _ Hb) as [Hc1 _].
  rewrite Nat.sub_0_r in Hp, Ht.
  split_and!; [done|cbn; congruence|cbn [packetizer]; by rewrite Hp, drop_0|done|exact Ht].
Qed.
End WorkerTheory.

(** *** The whole thread *)

Section ThreadTheory.
Context {W : Type} `{EncoderEnv W}.
Implicit Types (s : EncoderState W) (st : WorkerState W).

Lemma process_frame_keeps_rtp pol ch frame st alive st' :
  process_frame pol ch frame st = Some (alive, st') → keeps_rtp (encoder st) (encoder st').
Proof.
  destruct st as [p out s]. unfold process_frame.
  destruct (_ || _); [intros [= <- <-]; by apply same_rtp_keeps|].
  destruct (generation_cancelled _ _) as [[] w]; [intros [= <- <-]; by apply same_rtp_keeps|].
  destruct (begin_frame _ _ _ _) as [[b|e] p1]; [|intros [= <- <-]; by apply same_rtp_keeps].
  destruct (drain _ _ _ _ _ _ _) as [[[r p'] s']|] eqn:E; [|done]. intros [= <- <-]. cbn.
  eapply keeps_rtp_trans; [|eapply (drain_rel _ keeps_rtp); [| | |exact E]].
  - by apply same_rtp_keeps.
  - apply keeps_rtp_refl.
  - apply keeps_rtp_trans.
  - intros. by eapply encode_keeps_rtp.
Qed.

Lemma worker_loop_keeps_rtp pol ch fuel : ∀ st alive st',
  worker_loop fuel pol ch st = Some (alive, st') → keeps_rtp (encoder st) (encoder st').
Proof.
  induction fuel as [|fuel IH]; intros [p out s] alive st'; cbn; [done|].
  destruct (recv (world s)) as [[frame|] w]; [|intros [= <- <-]; by apply same_rtp_keeps].
  destruct (process_frame _ _ _ _) as [[[] st1]|] eqn:E; [| |done].
  - intros Hl. apply process_frame_keeps_rtp in E. cbn in E.
    eapply keeps_rtp_trans; [by apply same_rtp_keeps|]. eapply keeps_rtp_trans; eauto.
  - intros [= <- <-]. apply process_frame_keeps_rtp in E. cbn in E.
    eapply keeps_rtp_trans; [by apply same_rtp_keeps|exact E].
Qed.

Lemma flush_tail_keeps_rtp pol st : keeps_rtp (encoder st) (encoder (flush_tail pol st)).
Proof.
  destruct st as [p out s]. unfold flush_tail.
  destruct (pad_tail f32_zero p) as [[padding|] p1]; [|apply keeps_rtp_refl].
  destruct (complete_packet p1) as [[packet ts]|]; [|by apply same_rtp_keeps].
  destruct (encode_and_deliver _ _ _ _ _) as [r s1] eqn:E. cbn.
  apply encode_keeps_rtp in E. eapply keeps_rtp_trans; [|exact E]. by apply same_rtp_keeps.
Qed.

(** A refused frame leaves the packetizer alone and is counted once. *)
Lemma process_frame_mismatch pol ch frame st :
  sample_rate_hz frame ≠ 48000 ∨ frame_channels frame ≠ ch →
  process_frame pol ch frame st =
    Some (true, mkWorker (packetizer st) (packet_output st)
                  (count (add_encode_errors 1) (encoder st))).
Proof.
  destruct st as [p out s]. unfold process_frame. intros Hne.
  destruct (Z.eqb_spec (sample_rate_hz frame) 48000), (Z.eqb_spec (frame_channels frame) ch);
    cbn; try done. by destruct Hne.
Qed.

Lemma process_frame_cancelled pol ch frame st w :
  sample_rate_hz frame = 48000 → frame_channels frame = ch →
  generation_cancelled (output_generation frame) (world (encoder st)) = (true, w) →
  process_frame pol ch frame st =
    Some (true, mkWorker (packetizer st) (packet_output st)
                  (count (add_cancelled_frames 1) (with_world w (encoder st)))).
Proof.
  destruct st as [p out s]. unfold process_frame. intros -> -> Hc. cbn in Hc.
  by rewrite !Z.eqb_refl, Hc.
Qed.

Lemma process_frame_misaligned pol ch frame st w e p :
  sample_rate_hz frame = 48000 → frame_channels frame = ch →
  generation_cancelled (output_generation frame) (world (encoder st)) = (false, w) →
  begin_frame (packetizer st) (sequence_number frame) (length (frame_samples frame))
    (generation_id <$> output_generation frame) = (Err e, p) →
  process_frame pol ch frame st =
    Some (true, mkWorker (packetizer st) (packet_output st)
                  (count (add_encode_errors 1) (with_world w (encoder st)))).
Proof.
  destruct st as [p0 out s]. unfold process_frame. intros -> -> Hc Hb. cbn in Hc, Hb.
  rewrite !Z.eqb_refl, Hc, Hb. by apply begin_frame_error in Hb as [-> _].
Qed.

(** The loop over a frame never runs out of fuel, and between frames the
    packetizer never holds a complete packet. *)
Lemma process_frame_ready pol frame st :
  ready st → frame_ok frame →
  ∃ alive st', process_frame pol (channels (packetizer st)) frame st = Some (alive, st') ∧
    (alive = true → ready st' ∧ channels (packetizer st') = channels (packetizer st)).
Proof.
  intros Hr Hf.
  destruct (decide (sample_rate_hz frame = 48000)) as [E1|];
    [|rewrite process_frame_mismatch by auto; by eexists _, _].
  destruct (decide (frame_channels frame = channels (packetizer st))) as [E2|];
    [|rewrite process_frame_mismatch by auto; by eexists _, _].
  destruct (generation_cancelled (output_generation frame) (world (encoder st)))
    as [[] w] eqn:E3; [erewrite process_frame_cancelled by eauto; by eexists _, _|].
  destruct (begin_frame (packetizer st) (sequence_number frame) (length (frame_samples frame))
              (generation_id <$> output_generation frame)) as [[b|e] p1] eqn:E4;
    [|erewrite process_frame_misaligned by eauto; by eexists _, _].
  edestruct (process_frame_accepts pol) as (alive & st' & out & s1 & Hp & _ & _ & _ & Hend);
    [done..|]. exists alive, st'. split; [done|]. intros Ha. by destruct (Hend Ha) as (? & ? & _).
Qed.

(** The receive loop returns as soon as the input ends: fuel one larger than the
    number of frames that remain suffices.  [input w n] says that at world [w]
    at most [n] more frames arrive. *)
Lemma worker_loop_returns pol fuel (input : W → nat → Prop) :
  (∀ w n w' f, input w n → recv w = (Some f, w') →
     frame_ok f ∧ ∃ m, n = S m ∧
       ∀ st alive st', world (encoder st) = w' →
         process_frame pol (channels (packetizer st)) f st = Some (alive, st') →
         input (world (encoder st')) m) →
  ∀ st n, ready st → input (world (encoder st)) n → (n < fuel)%nat →
  ∃ alive st', worker_loop fuel pol (channels (packetizer st)) st = Some (alive, st').
Proof.
  intros Hin. induction fuel as [|fuel IH]; intros [p out s] n Hr Hi Hn; [lia|]. cbn.
  destruct (recv (world s)) as [[f|] w'] eqn:E; [|by eexists _, _].
  destruct (Hin _ _ _ _ Hi E) as (Hf & m & -> & Hnext).
  set (st1 := mkWorker p out (with_world w' s)).
  destruct (process_frame_ready pol f st1) as (alive & st2 & Hp & Hr2); [done|done|].
  cbn in Hp. rewrite Hp. destruct alive; [|by eexists _, _].
  destruct (Hr2 eq_refl) as [Hr2' Hc]. cbn in Hc. rewrite <- Hc.
  eapply (IH st2 m); [done| |lia]. by eapply (Hnext st1).
Qed.
End ThreadTheory.

(** ** A scripted world: frames to receive, a ticking clock, an unbounded channel *)

Record Script : Type := mkScript { inbox : list EndpointAudioFrame; ticks : Z }.

#[export] Instance script_clock : Clock Script :=
  {| now w := (ticks w, mkScript (inbox w) (ticks w + 1));
     sleep d w := mkScript (inbox w) (ticks w + d);
     instant_max := 2 ^ 63 * SECOND |}.
#[export] Instance script_generations : Generations Script :=
  {| is_active g w := (negb (generation_id g =? 0), w) |}.
#[export] Instance script_env : EncoderEnv Script :=
  {| monotonic_ns := now;
     cas_spurious w := (0%nat, w);
     log10 x := x;
     encode_into samples w := (Some [Byte.xf8; Byte.xff], w);
     send f w := (true, w);
     try_send f w := (Ok (), w);
     recv w := match inbox w with
               | [] => (None, w)
               | f :: fs => (Some f, mkScript fs (ticks w))
               end |}.

(** ** Properties *)

(** An accepted PCM frame is encoded and delivered as exactly the consecutive
    960-samples-per-channel packets of the partial packet followed by the frame,
    each stamped with the capture time of its first sample, stopping only when the
    publisher is gone; what is left is shorter than a packet and stays pending.  No
    sample is lost, duplicated or reordered. *)
Theorem process_frame_is_packetization {W} `{EncoderEnv W} pol frame (st : WorkerState W) b p1 w1 :
  ready st → frame_ok frame →
  sample_rate_hz frame = 48000 → frame_channels frame = channels (packetizer st) →
  generation_cancelled (output_generation frame) (world (encoder st)) = (false, w1) →
  begin_frame (packetizer st) (sequence_number frame) (length (frame_samples frame))
    (generation_id <$> output_generation frame) = (Ok b, p1) →
  let packets := packets_of (packet_samples p1) (channels p1) (pending p1) (packet_timestamp_ns p1)
                   (frame_samples frame) (capture_timestamp frame) in
  let tail := tail_of (packet_samples p1) (pending p1) (frame_samples frame) in
  concat (packets.*1) ++ tail = pending p1 ++ frame_samples frame ∧
  Forall (λ packet, length packet.1 = packet_samples p1) packets ∧
  (length tail < packet_samples p1)%nat ∧
  ∃ alive st' s1,
    process_frame pol (channels (packetizer st)) frame st = Some (alive, st') ∧
    same_rtp (encoder st) s1 ∧
    deliver_all (encode_and_deliver pol (packet_output st')) packets s1 = (alive, encoder st') ∧
    (alive = true → ready st' ∧ pending (packetizer st') = tail).
Proof.
  intros Hr Hf Hrate Hch Hc Hb packets tail.
  assert (Hwf1 : wf p1) by (eapply begin_frame_wf; [apply Hr|exact Hb]).
  pose proof (wf_packet_positive p1 Hwf1) as Hn.
  destruct (packets_of_concat (packet_samples p1) (channels p1) (pending p1)
              (packet_timestamp_ns p1) (frame_samples frame) (capture_timestamp frame) Hn)
    as (H1 & H2 & H3).
  split_and!; [exact H1|exact H2|exact H3|].
  destruct (process_frame_accepts pol frame st b p1 w1) as (alive & st' & out & s1 & ? & -> & <- & ? & He);
    [done..|].
  eexists alive, st', _. split_and!; [done| |done|]; [by repeat split|].
  intros Ha. by destruct (He Ha) as (? & _ & ? & _).
Qed.

Definition demo_frame (n : nat) : EndpointAudioFrame :=
  mkFrame (replicate n f32_zero) 5 48000 1 1000 None.

Definition demo_worker (inbox : list EndpointAudioFrame) : WorkerState Script :=
  mkWorker (mkPacketizer (replicate MAX_INTERLEAVED_SAMPLES f32_zero) 0 960 1 0 None None) None
    (mkState counters_default 0 960 [] (mkScript inbox 1)).

Lemma demo_worker_ready inbox : ready (demo_worker inbox).
Proof. unfold ready, wf, u64, U64_MAX; cbn; split_and!; auto; lia. Qed.

Lemma process_frame_is_packetization_witness :
  ∃ alive st' s1,
    process_frame DropNewest 1 (demo_frame 1000) (demo_worker []) = Some (alive, st') ∧
    same_rtp (encoder (demo_worker [])) s1 ∧
    deliver_all (encode_and_deliver DropNewest (packet_output st'))
      (packets_of 960 1 [] 0 (replicate 1000 f32_zero) 1000) s1 = (alive, encoder st') ∧
    (alive = true → ready st' ∧ pending (packetizer st') = tail_of 960 [] (replicate 1000 f32_zero)).
Proof.
  destruct (process_frame_is_packetization DropNewest (demo_frame 1000) (demo_worker [])
    (mkBegin 0 0)
    (mkPacketizer (replicate MAX_INTERLEAVED_SAMPLES f32_zero) 0 960 1 0 (Some 6) None)
    (mkScript [] 1) (demo_worker_ready []) ltac:(by unfold frame_ok, u64, U64_MAX; cbn; lia)
    eq_refl eq_refl eq_refl eq_refl) as (_ & _ & _ & H).
  exact H.
Defined.

(** The schedule of what a whole thread delivered. *)
Lemma thread_schedule {W} `{EncoderEnv W} fuel codec_ready ch pol c w s' :
  spawn_opus_encoder fuel codec_ready ch 960 pol c w = Some s' →
  rtp_sample_count s' < U64_MAX →
  StronglySorted (λ f g, rtp_time f < rtp_time g) (delivered s') ∧
  Forall (λ f, duration_samples f = 960 ∧ rtp_time f mod 960 = 0 ∧
               0 ≤ rtp_time f < rtp_sample_count s') (delivered s').
Proof.
  unfold spawn_opus_encoder. intros Hs Hmax.
  assert (keeps_rtp (mkState c 0 960 [] w) s') as [_ Hk].
  { destruct codec_ready; cbn [negb] in Hs; [|injection Hs as <-; by apply same_rtp_keeps].
    destruct (new f32_zero 48000 ch) as [p|e]; [|injection Hs as <-; by apply same_rtp_keeps].
    destruct (worker_loop _ _ _ _) as [[[] st]|] eqn:E; [| |done]; injection Hs as <-;
      apply worker_loop_keeps_rtp in E; [|done].
    eapply keeps_rtp_trans; [exact E|]. apply flush_tail_keeps_rtp. }
  destruct Hk as (_ & _ & _ & Hall & Hsort); [|done|done].
  unfold rtp_ok; cbn. split_and!; [done|lia|unfold U64_MAX; lia|done|constructor|constructor].
Qed.

(** C31: As long as the 64-bit sample clock has not saturated, the frames an encoder
    thread hands to the publisher are strictly increasing in RTP time, each lasts
    960 samples and starts on the 960-sample grid (so the ingress packet encoder
    never refuses its alignment or duration), whatever was cancelled, dropped or
    refused in between. *)
Theorem encoder_thread_rtp_schedule {W} `{EncoderEnv W} fuel codec_ready ch pol c w s' :
  spawn_opus_encoder fuel codec_ready ch 960 pol c w = Some s' →
  rtp_sample_count s' < U64_MAX →
  StronglySorted (λ f g, rtp_time f < rtp_time g) (delivered s') ∧
  Forall (λ f, duration_samples f = 960 ∧ rtp_time f mod 960 = 0 ∧
               0 ≤ rtp_time f < rtp_sample_count s') (delivered s').
Proof. apply thread_schedule. Qed.

Lemma encoder_thread_rtp_schedule_witness :
  ∃ s', spawn_opus_encoder 5 true 1 960 PreserveWithBackpressure counters_default
          (mkScript [demo_frame 2000] 1) = Some s' ∧
    (rtp_time <$> delivered s') = [0; 960; 1920] ∧
    StronglySorted (λ f g, rtp_time f < rtp_time g) (delivered s').
Proof.
  eexists. split; [vm_compute; reflexivity|]. split; [reflexivity|].
  refine (proj1 (encoder_thread_rtp_schedule 5 true 1 PreserveWithBackpressure counters_default
            (mkScript [demo_frame 2000] 1) _ _ _)); [vm_compute; reflexivity|reflexivity].
Defined.

(** The audio level attached to an encoded frame is always present and between
    0 and 127, for every input including NaN and infinite samples and whatever the
    logarithm returns, so the RTP extension's negation of it cannot overflow. *)
Theorem audio_level_in_range {W} `{EncoderEnv W} samples :
  ∃ level, level_of samples = Some level ∧ 0 ≤ level ≤ 127.
Proof. apply level_bounds. Qed.

(** At the bounded encoder boundary a frame whose output was cancelled is never
    sent and is counted as cancelled; otherwise the standard profile blocks until
    the frame is accepted and drops nothing, and the low-latency profile never
    blocks: it sends the frame or counts exactly one drop.  The thread is told to
    end only when the publisher has disconnected. *)
Theorem delivery_policy_accounting {W} `{EncoderEnv W} profile f (s : EncoderState W) :
  let '(alive, s') := deliver_encoded_frame f (for_latency_profile profile) s in
  let '(cancelled, w) := generation_cancelled (encoded_generation f) (world s) in
  if cancelled
  then alive = true ∧ delivered s' = delivered s ∧ counters s' = add_cancelled_frames 1 (counters s)
  else match profile with
       | Standard => counters s' = counters s ∧ alive = (send f w).1 ∧
           delivered s' = if alive then delivered s ++ [f] else delivered s
       | Low =>
           match (try_send f w).1 with
           | Ok _ => alive = true ∧ delivered s' = delivered s ++ [f] ∧ counters s' = counters s
           | Err Full => alive = true ∧ delivered s' = delivered s ∧
                         counters s' = add_channel_drops 1 (counters s)
           | Err Disconnected => alive = false ∧ delivered s' = delivered s ∧ counters s' = counters s
           end
       end.
Proof.
  unfold deliver_encoded_frame.
  destruct (generation_cancelled (encoded_generation f) (world s)) as [[] w]; [done|].
  destruct profile; cbn.
  - by destruct (try_send f w) as [[|[]] w'].
  - by destruct (send f w) as [[] w'].
Qed.
