(* ===== verification/EncoderThread.v ===== *)
(** * What an encoder thread makes of its input

    [Encoder] shows what one frame becomes; this file follows a whole thread.  Every sample
    carries the time it was captured; the frames the thread accepts are cut, as one stream
    as long as they follow each other, into packets, and every packet has one of six fates.
    [kept_books] ties the counters the connector reports to these frames and fates. *)

From S2P Require Import Prelude Env Packetizer Encoder.

(** ** Cutting a stream into packets *)

Section Chunks.
Context {A : Type}.
Implicit Types l : list A.

Definition chunks (n : nat) l : list (list A) :=
  (λ i, take n (drop (i * n) l)) <$> seq 0 (length l / n).
Definition rest (n : nat) l : list A := drop (length l / n * n) l.

Lemma chunks_rest n l : (0 < n)%nat → concat (chunks n l) ++ rest n l = l.
Proof.
  intros Hn. unfold chunks, rest. rewrite concat_chunks; [apply take_drop|].
  pose proof (Nat.div_mod_eq (length l) n). lia.
Qed.
Lemma chunks_length n l : (0 < n)%nat → Forall (λ c, length c = n) (chunks n l).
Proof.
  intros Hn. unfold chunks. apply Forall_fmap, Forall_forall. intros i Hi%elem_of_seq. cbn.
  rewrite length_take, length_drop. pose proof (Nat.div_mod_eq (length l) n). nia.
Qed.
Lemma rest_short n l : (0 < n)%nat → (length (rest n l) < n)%nat.
Proof.
  intros Hn. unfold rest. rewrite length_drop.
  pose proof (Nat.div_mod_eq (length l) n). pose proof (Nat.mod_upper_bound (length l) n). lia.
Qed.
End Chunks.

(** A sample and the time it was captured. *)
Definition stamped (ch : Z) (f : EndpointAudioFrame) : list (f32 * Z) :=
  imap (λ i x, (x, sat_add (capture_timestamp f) (offset_ns ch i))) (frame_samples f).

Definition stamp (l : list (f32 * Z)) : Z := default 0 (snd <$> head l).

(** A packet is stamped with the capture time of its first sample. *)
Definition packet_of (chunk : list (f32 * Z)) : list f32 * Z := (chunk.*1, stamp chunk).

(** A stream under way: what is not yet a packet, the sequence number that continues it,
    and the output it is for. *)
Record Cut : Type := mkCut {
  uncut : list (f32 * Z);
  next_sequence : option Z;
  last_generation : option Z;
}.

Definition in_sequence (c : Cut) (f : EndpointAudioFrame) : bool :=
  from_option (λ n, n =? sequence_number f) true (next_sequence c).
Definition same_output (c : Cut) (f : EndpointAudioFrame) : bool :=
  bool_decide (uncut c = []) || bool_decide (last_generation c = generation_id <$> output_generation f).

(** The partial packet a frame continues; when it does not follow, the partial packet is
    dropped. *)
Definition carried (c : Cut) (f : EndpointAudioFrame) : list (f32 * Z) :=
  if in_sequence c f && same_output c f then uncut c else [].

Definition cut_frame (n : nat) (ch : Z) (c : Cut) (f : EndpointAudioFrame)
  : list (list f32 * Z) * Cut :=
  let audio := carried c f ++ stamped ch f in
  (packet_of <$> chunks n audio,
   mkCut (rest n audio) (Some (sat_add (sequence_number f) 1)) (generation_id <$> output_generation f)).

Fixpoint cut_frames (n : nat) (ch : Z) (c : Cut) (frames : list EndpointAudioFrame)
  : list (list f32 * Z) * Cut :=
  match frames with
  | [] => ([], c)
  | f :: frames =>
      let '(packets, c) := cut_frame n ch c f in
      let '(more, c) := cut_frames n ch c frames in
      (packets ++ more, c)
  end.

(** The samples a stream loses at a gap, and at a change of output. *)
Definition lost_at_gap (c : Cut) (f : EndpointAudioFrame) : nat :=
  if negb (in_sequence c f) && same_output c f then length (uncut c) else 0.
Definition lost_at_output (c : Cut) (f : EndpointAudioFrame) : nat :=
  if same_output c f then 0 else length (uncut c).

Fixpoint lost (at_frame : Cut → EndpointAudioFrame → nat) (n : nat) (ch : Z) (c : Cut)
  (frames : list EndpointAudioFrame) : nat :=
  match frames with
  | [] => 0
  | f :: frames => at_frame c f + lost at_frame n ch (cut_frame n ch c f).2 frames
  end.

Definition uncut_start : Cut := mkCut [] None None.

Lemma stamped_samples ch f : (stamped ch f).*1 = frame_samples f.
Proof. unfold stamped. rewrite fmap_imap. apply list_eq. intros i. rewrite list_lookup_imap. by destruct (_ !! i). Qed.
Lemma stamped_length ch f : length (stamped ch f) = length (frame_samples f).
Proof. apply length_imap. Qed.

Lemma cut_frames_app n ch c l1 l2 :
  cut_frames n ch c (l1 ++ l2)
  = let '(p1, c1) := cut_frames n ch c l1 in let '(p2, c2) := cut_frames n ch c1 l2 in (p1 ++ p2, c2).
Proof.
  revert c. induction l1 as [|f l1 IH]; intros c; cbn [app cut_frames].
  { by destruct (cut_frames n ch c l2). }
  destruct (cut_frame n ch c f) as [p c1]. rewrite IH. destruct (cut_frames n ch c1 l1) as [p1 c2].
  destruct (cut_frames n ch c2 l2) as [p2 c3]. by rewrite app_assoc.
Qed.
Lemma lost_app at_frame n ch c l f :
  lost at_frame n ch c (l ++ [f])
  = (lost at_frame n ch c l + at_frame (cut_frames n ch c l).2 f)%nat.
Proof.
  revert c. induction l as [|g l IH]; intros c; cbn [app lost cut_frames]; [cbn; lia|].
  rewrite IH. destruct (cut_frame n ch c g) as [p c1]. cbn [snd].
  destruct (cut_frames n ch c1 l) as [p2 c2]. cbn. lia.
Qed.

(** No sample is lost but at a gap or a change of output. *)
Lemma cut_frames_conserves n ch c frames packets c' :
  (0 < n)%nat → cut_frames n ch c frames = (packets, c') →
  (length (concat packets.*1) + length (uncut c') + lost lost_at_gap n ch c frames
   + lost lost_at_output n ch c frames
   = length (uncut c) + length (concat (frame_samples <$> frames)))%nat.
Proof.
  intros Hn. revert c packets. induction frames as [|f frames IH]; intros c packets; cbn [cut_frames lost].
  { intros [= <- <-]. cbn. lia. }
  destruct (cut_frame n ch c f) as [p1 c1] eqn:E. destruct (cut_frames n ch c1 frames) as [p2 c2] eqn:E2.
  intros [= <- <-]. specialize (IH c1 p2 E2). cbn [snd].
  unfold cut_frame in E. injection E as <- <-. cbn [uncut] in *.
  set (audio := carried c f ++ stamped ch f) in *.
  assert (length (concat (packet_of <$> chunks n audio).*1) + length (rest n audio) = length audio)%nat as Hl.
  { rewrite <- (chunks_rest n audio Hn) at 3. rewrite length_app. f_equal.
    rewrite <- list_fmap_compose. change (fst ∘ packet_of) with (fmap (M := list) (@fst f32 Z)).
    induction (chunks n audio) as [|x l IHl]; [done|]. cbn. by rewrite !length_app, length_fmap, IHl. }
  assert (length audio + lost_at_gap c f + lost_at_output c f = length (uncut c) + length (frame_samples f))%nat.
  { unfold audio, carried, lost_at_gap, lost_at_output. rewrite length_app, stamped_length.
    destruct (in_sequence c f), (same_output c f); cbn; lia. }
  rewrite fmap_app, concat_app, fmap_cons. cbn [concat]. rewrite !length_app. lia.
Qed.

(** Frames that follow each other are cut as the one stream they are. *)
Definition follows (f g : EndpointAudioFrame) : Prop :=
  sequence_number g = sat_add (sequence_number f) 1
  ∧ (generation_id <$> output_generation g) = (generation_id <$> output_generation f).

Section ChunksApp.
Context {A : Type}.
Implicit Types l m : list A.

Lemma chunks_app n l m : (0 < n)%nat → chunks n (l ++ m) = chunks n l ++ chunks n (rest n l ++ m).
Proof.
  intros Hn. set (k := (length l / n)%nat).
  pose proof (Nat.div_mod_eq (length l) n) as Hk. fold k in Hk.
  assert (k * n ≤ length l)%nat as Hle by lia.
  assert (length (l ++ m) / n = k + length (rest n l ++ m) / n)%nat as Hcount.
  { unfold rest. fold k. rewrite !length_app, length_drop.
    replace (length l + length m)%nat with (length l - k * n + length m + k * n)%nat by lia.
    rewrite Nat.div_add by lia. lia. }
  unfold chunks at 1. rewrite Hcount, seq_app, fmap_app, Nat.add_0_l. f_equal.
  - unfold chunks. fold k. apply list_fmap_ext. intros j i Hj%list_elem_of_lookup_2%elem_of_seq.
    rewrite <- (take_drop (k * n) l) at 1. rewrite <- app_assoc.
    rewrite drop_app_le by (rewrite length_take; nia). rewrite take_app_le by (rewrite length_drop, length_take; nia).
    rewrite <- (take_drop (k * n) l) at 2.
    rewrite drop_app_le by (rewrite length_take; nia). by rewrite take_app_le by (rewrite length_drop, length_take; nia).
  - unfold chunks. replace (seq k) with (seq (k + 0)) by (f_equal; lia).
    rewrite <- fmap_add_seq, <- list_fmap_compose.
    apply list_fmap_ext. intros j i _. unfold compose. f_equal. unfold rest. fold k.
    rewrite <- (take_drop (k * n) l) at 1. rewrite <- app_assoc, drop_app_ge by (rewrite length_take; nia).
    rewrite length_take. f_equal. nia.
Qed.

Lemma rest_app n l m : (0 < n)%nat → rest n (l ++ m) = rest n (rest n l ++ m).
Proof.
  intros Hn. apply (app_inv_head (concat (chunks n (l ++ m)))). rewrite chunks_rest by done.
  rewrite chunks_app, concat_app, <- app_assoc, chunks_rest by done.
  by rewrite app_assoc, chunks_rest.
Qed.
Lemma chunks_short n l : (length l < n)%nat → chunks n l = [].
Proof. intros Hl. unfold chunks. by rewrite Nat.div_small. Qed.
End ChunksApp.

(** A chain of frames, the first of which continues the stream. *)
Fixpoint chained (frames : list EndpointAudioFrame) : Prop :=
  match frames with
  | f :: (g :: _) as frames => follows f g ∧ chained frames
  | _ => True
  end.

Lemma cut_chained n ch frames : ∀ c,
  (0 < n)%nat → (length (uncut c) < n)%nat → chained frames →
  (∀ f, head frames = Some f → in_sequence c f = true ∧ same_output c f = true) →
  (cut_frames n ch c frames).1 = packet_of <$> chunks n (uncut c ++ concat (stamped ch <$> frames))
  ∧ uncut (cut_frames n ch c frames).2 = rest n (uncut c ++ concat (stamped ch <$> frames)).
Proof.
  induction frames as [|f frames IH]; intros c Hn Hc Hch Hhead.
  { cbn. rewrite app_nil_r, chunks_short by done. split; [done|]. unfold rest. by rewrite Nat.div_small. }
  destruct (Hhead f eq_refl) as [H1 H2]. cbn [cut_frames]. unfold cut_frame, carried.
  rewrite H1, H2. cbn [andb]. set (audio := uncut c ++ stamped ch f).
  set (c1 := mkCut (rest n audio) (Some (sat_add (sequence_number f) 1)) (generation_id <$> output_generation f)).
  destruct (IH c1 Hn) as [E1 E2].
  { by apply rest_short. }
  { by destruct frames; [|destruct Hch]. }
  { intros g Hg. destruct frames as [|g' frames]; [done|]. injection Hg as ->.
    destruct Hch as [[Hs Ho] _]. unfold in_sequence, same_output, c1. cbn. rewrite Hs, Z.eqb_refl, Ho.
    split; [done|]. by rewrite orb_comm, bool_decide_eq_true_2. }
  destruct (cut_frames n ch c1 frames) as [p2 c2]. cbn [fst snd] in *.
  cbn [fmap list_fmap concat]. rewrite app_assoc. fold audio.
  rewrite (chunks_app n audio), (rest_app n audio) by done. rewrite fmap_app. by rewrite E1, E2.
Qed.

(** ** The fates of a packet *)

Inductive Fate : Type :=
| Sent (f : EncodedAudioFrame)  (** accepted by the publisher's channel *)
| Unencodable
| CancelledBefore               (** its output was cancelled before it was encoded *)
| CancelledAfter                (** and after *)
| Crowded                       (** the channel was full *)
| Lost.                         (** the publisher was gone, which ends the thread *)

Fixpoint sent (fates : list Fate) : list EncodedAudioFrame :=
  match fates with
  | [] => []
  | Sent f :: fates => f :: sent fates
  | _ :: fates => sent fates
  end.

Definition is_unencodable (x : Fate) : bool := match x with Unencodable => true | _ => false end.
Definition is_encoded (x : Fate) : bool :=
  match x with Sent _ | CancelledAfter | Crowded | Lost => true | _ => false end.
Definition is_cancelled (x : Fate) : bool :=
  match x with CancelledBefore | CancelledAfter => true | _ => false end.
Definition is_crowded (x : Fate) : bool := match x with Crowded => true | _ => false end.
Definition is_lost (x : Fate) : bool := match x with Lost => true | _ => false end.

Fixpoint tally (p : Fate → bool) (fates : list Fate) : Z :=
  match fates with
  | [] => 0
  | x :: fates => (if p x then 1 else 0) + tally p fates
  end.

Lemma tally_app p l1 l2 : tally p (l1 ++ l2) = tally p l1 + tally p l2.
Proof. induction l1 as [|x l1 IH]; cbn [app tally]; [done|]. rewrite IH. lia. Qed.

(** Every packet is sent, or is in exactly one of the columns. *)
Lemma tally_total fates :
  Z.of_nat (length fates) = Z.of_nat (length (sent fates)) + tally is_unencodable fates
    + tally is_cancelled fates + tally is_crowded fates + tally is_lost fates.
Proof.
  induction fates as [|x fates IH]; [done|]. rewrite length_cons.
  destruct x; cbn [sent tally is_unencodable is_cancelled is_crowded is_lost]; rewrite ?length_cons; lia.
Qed.
Lemma sent_app l1 l2 : sent (l1 ++ l2) = sent l1 ++ sent l2.
Proof. induction l1 as [|[] l1 IH]; cbn; congruence. Qed.

Section Fates.
Context {W : Type} `{EncoderEnv W}.
Implicit Types s : EncoderState W.

(** [f] is the encoding of the packet. *)
Definition encodes (packet : list f32 * Z) (f : EncodedAudioFrame) : Prop :=
  (∃ w w', encode_into packet.1 w = (Some (payload f), w'))
  ∧ capture_timestamp_ns f = packet.2 ∧ audio_level f = level_of packet.1.

Definition fate_of (packet : list f32 * Z) (x : Fate) : Prop :=
  match x with Sent f => encodes packet f | _ => True end.

(** The books of a thread: what its counters say, modulo their width. *)
Record kept_books (refused cancelled gap output padding : Z) (fates : list Fate)
  (c : EncoderCounters) : Prop := mkBooks {
  books_errors : opus_encode_errors c = (refused + tally is_unencodable fates) mod 2 ^ 64;
  books_packets : opus_packets_out c = tally is_encoded fates mod 2 ^ 64;
  books_cancelled : cancelled_output_frames c = (cancelled + tally is_cancelled fates) mod 2 ^ 64;
  books_drops : encoded_channel_drops c = tally is_crowded fates mod 2 ^ 64;
  books_gap : normalization_partial_samples_discarded c = gap mod 2 ^ 64;
  books_output : cancelled_output_samples c = output mod 2 ^ 64;
  books_padding : normalization_tail_padding_samples_total c = padding mod 2 ^ 64;
}.

Ltac book := intros []; constructor; match goal with c : EncoderCounters |- _ => destruct c end;
  cbn in *; subst; unfold wrap_add; rewrite ?tally_app, ?Z.add_mod_idemp_l by done; cbn;
  try (f_equal; lia).

Lemma book_refused r k g o p l c :
  kept_books r k g o p l c → kept_books (r + 1) k g o p l (add_encode_errors 1 c).
Proof. book. Qed.
Lemma book_cancelled r k g o p l c :
  kept_books r k g o p l c → kept_books r (k + 1) g o p l (add_cancelled_frames 1 c).
Proof. book. Qed.
Lemma book_gap r k g o p l n c :
  kept_books r k g o p l c → kept_books r k (g + n) o p l (add_partial n c).
Proof. book. Qed.
Lemma book_output r k g o p l n c :
  kept_books r k g o p l c → kept_books r k g (o + n) p l (add_cancelled_samples n c).
Proof. book. Qed.
Lemma book_padding r k g o p l n c :
  kept_books r k g o p l c → kept_books r k g o (p + n) l (add_padding n c).
Proof. book. Qed.
Lemma book_unencodable r k g o p l c :
  kept_books r k g o p l c → kept_books r k g o p (l ++ [Unencodable]) (add_encode_errors 1 c).
Proof. book. Qed.
Lemma book_before r k g o p l c :
  kept_books r k g o p l c → kept_books r k g o p (l ++ [CancelledBefore]) (add_cancelled_frames 1 c).
Proof. book. Qed.
Lemma book_encoded r k g o p l c x :
  kept_books r k g o p l c → is_encoded x = true → is_cancelled x = false → is_crowded x = false →
  kept_books r k g o p (l ++ [x]) (add_packets 1 c).
Proof. intros Hb. destruct x; try done; intros _ _ _; revert Hb; book. Qed.
Lemma book_after r k g o p l c :
  kept_books r k g o p l c →
  kept_books r k g o p (l ++ [CancelledAfter]) (add_cancelled_frames 1 (add_packets 1 c)).
Proof. book. Qed.
Lemma book_crowded r k g o p l c :
  kept_books r k g o p l c →
  kept_books r k g o p (l ++ [Crowded]) (add_channel_drops 1 (add_packets 1 c)).
Proof. book. Qed.
Lemma book_age r k g o p l n age c :
  kept_books r k g o p l c → kept_books r k g o p l (observe_capture_age n age c).
Proof. unfold observe_capture_age. destruct (age =? 0); [done|]. book. Qed.
End Fates.

(** ** From the code to the fates *)

(** [received] logs the frames the thread received; nothing but [recv] changes it. *)
Class InputLog (W : Type) `{EncoderEnv W} (received : W → list EndpointAudioFrame) : Prop := {
  log_recv w f w' : recv w = (Some f, w') → received w' = received w ++ [f];
  log_end w w' : recv w = (None, w') → received w' = received w;
  log_now w : received (now w).2 = received w;
  log_active g w : received (is_active g w).2 = received w;
  log_monotonic w : received (monotonic_ns w).2 = received w;
  log_spurious w : received (cas_spurious w).2 = received w;
  log_encode l w : received (encode_into l w).2 = received w;
  log_send f w : received (send f w).2 = received w;
  log_try_send f w : received (try_send f w).2 = received w;
}.

Section Steps.
Context {W : Type} `{EncoderEnv W} (received : W → list EndpointAudioFrame) `{!InputLog W received}.
Implicit Types (s : EncoderState W) (st : WorkerState W).

Lemma cancelled_log g w : received (generation_cancelled g w).2 = received w.
Proof.
  unfold generation_cancelled. destruct g as [g|]; [|done].
  pose proof (log_active g w). by destruct (is_active g w).
Qed.

(** The step from [s] to [s'] gave one packet its fate. *)
Record fated (packet : list f32 * Z) (x : Fate) (alive : bool) s s' : Prop := mkFated {
  fated_of : fate_of packet x;
  fated_lost : is_lost x = negb alive;
  fated_sent : delivered s' = delivered s ++ sent [x];
  fated_books r k g o p l : kept_books r k g o p l (counters s) →
    kept_books r k g o p (l ++ [x]) (counters s');
  fated_log : received (world s') = received (world s);
}.

Lemma deliver_fated packet f pol s s0 alive s' :
  encodes packet f → delivered s = delivered s0 → received (world s) = received (world s0) →
  (∀ r k g o p l, kept_books r k g o p l (counters s0) →
     ∃ c, kept_books r k g o p l c ∧ counters s = add_packets 1 c) →
  deliver_encoded_frame f pol s = (alive, s') → ∃ x, fated packet x alive s0 s'.
Proof.
  intros Hf Hd Hl Hb. unfold deliver_encoded_frame.
  assert (∀ r k g o p l x, kept_books r k g o p l (counters s0) → is_encoded x = true →
    is_cancelled x = false → is_crowded x = false →
    kept_books r k g o p (l ++ [x]) (counters s)) as Hx.
  { intros r k g o p l x Hk ? ? ?. destruct (Hb _ _ _ _ _ _ Hk) as (c & Hc & ->). by apply book_encoded. }
  pose proof (cancelled_log (encoded_generation f) (world s)) as Hw.
  destruct (generation_cancelled _ _) as [[] w]; cbn in Hw.
  { intros [= <- <-]. exists CancelledAfter. constructor; cbn; rewrite ?app_nil_r; try done; [|congruence].
    intros r k g o p l Hk. destruct (Hb _ _ _ _ _ _ Hk) as (c & Hc & ->). by apply book_after. }
  destruct pol.
  - pose proof (log_send f (world (with_world w s))) as Hw1. cbn in Hw1.
    cbn [world with_world]. destruct (send f w) as [[] w1]; cbn in Hw1; intros [= <- <-].
    + exists (Sent f). constructor; cbn; try done; [congruence|by intros; apply Hx|congruence].
    + exists Lost. constructor; cbn; rewrite ?app_nil_r; try done; [by intros; apply Hx|congruence].
  - pose proof (log_try_send f (world (with_world w s))) as Hw1. cbn in Hw1.
    cbn [world with_world]. destruct (try_send f w) as [[u|[]] w1]; cbn in Hw1; intros [= <- <-].
    + exists (Sent f). constructor; cbn; try done; [congruence|by intros; apply Hx|congruence].
    + exists Crowded. constructor; cbn; rewrite ?app_nil_r; try done; [|congruence].
      intros r k g o p l Hk. destruct (Hb _ _ _ _ _ _ Hk) as (c & Hc & ->). by apply book_crowded.
    + exists Lost. constructor; cbn; rewrite ?app_nil_r; try done; [by intros; apply Hx|congruence].
Qed.

Lemma encode_fated pol g samples ts s alive s' :
  encode_and_deliver pol g samples ts s = (alive, s') → ∃ x, fated (samples, ts) x alive s s'.
Proof.
  unfold encode_and_deliver. pose proof (cancelled_log g (world s)) as Hc.
  destruct (generation_cancelled g (world s)) as [[] w]; cbn in Hc.
  { intros [= <- <-]. exists CancelledBefore. constructor; cbn; rewrite ?app_nil_r; try done.
    intros. by apply book_before. }
  pose proof (log_encode samples w) as He. cbn [world with_world].
  destruct (encode_into samples w) as [[output|] w1] eqn:E; cbn in He.
  2: { intros [= <- <-]. exists Unencodable. constructor; cbn; rewrite ?app_nil_r; try done; [|congruence].
    intros. by apply book_unencodable. }
  cbn [world with_world count].
  pose proof (log_monotonic w1) as Hm. destruct (monotonic_ns w1) as [ns w2]. cbn in Hm.
  pose proof (log_spurious w2) as Hs. destruct (cas_spurious w2) as [sp w3]. cbn in Hs.
  cbn [world with_world count]. pose proof (log_now w3) as Hn. destruct (now w3) as [t w4]. cbn in Hn.
  intros Hd. eapply deliver_fated in Hd; [exact Hd|by repeat eexists| | |]; [done|cbn; congruence|].
  intros r k g' o p l Hk. cbn.
  set (age := if 0 <? ts then sat_sub ns ts else 0).
  exists (observe_capture_age sp age (counters s)). split; [by apply book_age|]. 
  unfold observe_capture_age. destruct (age =? 0); [done|]. by destruct (counters s).
Qed.
(** Packets delivered one after the other, up to the one that finds the publisher gone. *)
Record all_fated (packets : list (list f32 * Z)) (fates : list Fate) (alive : bool) s s' : Prop := mkAllFated {
  all_of : Forall2 fate_of (take (length fates) packets) fates;
  all_delivered : alive = true → length fates = length packets;
  all_lost : tally is_lost fates = if alive then 0 else 1;
  all_last : alive = false → last fates = Some Lost;
  all_sent : delivered s' = delivered s ++ sent fates;
  all_books r k g o p l : kept_books r k g o p l (counters s) →
    kept_books r k g o p (l ++ fates) (counters s');
  all_log : received (world s') = received (world s);
}.

Lemma deliver_all_fated pol g packets : ∀ s alive s',
  deliver_all (encode_and_deliver pol g) packets s = (alive, s') →
  ∃ fates, all_fated packets fates alive s s'.
Proof.
  induction packets as [|[samples ts] packets IH]; intros s alive s'; cbn [deliver_all].
  { intros [= <- <-]. exists []. constructor; cbn; rewrite ?app_nil_r; try done.
    intros. by rewrite app_nil_r. }
  destruct (encode_and_deliver pol g samples ts s) as [a s1] eqn:E.
  apply encode_fated in E as (x & [F1 F2 F3 F4 F5]). destruct a.
  - intros Hd. apply IH in Hd as (fates & [G1 G2 G3 G7 G4 G5 G6]). exists (x :: fates). constructor.
    + cbn [length take]. by constructor.
    + intros Ha. cbn [length]. by rewrite G2.
    + cbn [tally]. rewrite F2, G3. cbn. lia.
    + intros Ha. rewrite last_cons, G7 by done. done.
    + rewrite G4, F3, <- app_assoc. by rewrite <- sent_app.
    + intros r k g' o p l Hk. rewrite cons_middle, app_assoc. by apply G5, F4.
    + congruence.
  - intros [= <- <-]. exists [x]. constructor; try done.
    + cbn [length take]. rewrite take_0. by repeat constructor.
    + cbn. by rewrite F2.
    + intros _. by destruct x.
Qed.

(** ** A packetizer at a cut *)

Record at_cut (p : PcmPacketizer f32) (c : Cut) : Prop := mkAtCut {
  cut_pending : pending p = (uncut c).*1;
  cut_stamp : uncut c ≠ [] → packet_timestamp_ns p = stamp (uncut c);
  cut_sequence : expected_sequence_number p = next_sequence c;
  cut_generation : packetizer_generation_id p = last_generation c;
}.

Lemma begin_frame_at_cut p c f b p1 :
  wf p → at_cut p c →
  begin_frame p (sequence_number f) (length (frame_samples f)) (generation_id <$> output_generation f)
    = (Ok b, p1) →
  pending p1 = (carried c f).*1
  ∧ (carried c f ≠ [] → packet_timestamp_ns p1 = stamp (carried c f))
  ∧ discontinuity_discarded_samples b = lost_at_gap c f
  ∧ cancelled_output_discarded_samples b = lost_at_output c f
  ∧ expected_sequence_number p1 = Some (sat_add (sequence_number f) 1)
  ∧ packetizer_generation_id p1 = (generation_id <$> output_generation f).
Proof.
  intros Hwf [Hp Ht Hs Hg]. pose proof (pending_length p Hwf) as Hlen. rewrite Hp, length_fmap in Hlen.
  assert (sequence_changed p (sequence_number f) = negb (in_sequence c f)) as Eseq.
  { unfold sequence_changed, in_sequence. rewrite Hs. by destruct (next_sequence c). }
  assert (output_changed p (generation_id <$> output_generation f) = negb (same_output c f)) as Eout.
  { unfold output_changed, same_output. rewrite Hg, negb_orb. f_equal.
    rewrite <- Hlen, <- bool_decide_not. apply bool_decide_ext. destruct (uncut c); cbn; split; done || lia. }
  unfold begin_frame. rewrite Eseq, Eout. case_match; [done|].
  unfold carried, lost_at_gap, lost_at_output.
  destruct (in_sequence c f), (same_output c f); cbn; intros [= <- <-]; cbn; split_and!; done.
Qed.
End Steps.

(** ** The packets of a frame are those of the cut *)

Lemma stamped_lookup ch f i :
  (i < length (frame_samples f))%nat →
  snd <$> stamped ch f !! i = Some (sat_add (capture_timestamp f) (offset_ns ch i)).
Proof.
  intros Hi. unfold stamped. rewrite list_lookup_imap.
  destruct (lookup_lt_is_Some_2 _ _ Hi) as [x ->]. done.
Qed.

Lemma stamp_drop k l x : snd <$> l !! k = Some x → stamp (drop k l) = x.
Proof. intros E. unfold stamp. rewrite head_lookup, lookup_drop, Nat.add_0_r. by rewrite E. Qed.

Section PacketsOfCut.
Context (n : nat) (ch : Z) (pend : list (f32 * Z)) (f : EndpointAudioFrame) (ts : Z).
Context (Hn : (length pend < n)%nat) (Hts : pend ≠ [] → ts = stamp pend).
Local Abbreviation audio := (pend ++ stamped ch f).
Local Abbreviation total := (length pend + length (frame_samples f))%nat.

Lemma audio_length : length audio = total.
Proof. by rewrite length_app, stamped_length. Qed.

Lemma packet_stamp i :
  (i * n < total)%nat →
  (packet_at n ch (pend.*1) ts (frame_samples f) (capture_timestamp f) i).2 = stamp (drop (i * n) audio).
Proof.
  intros Hi. unfold packet_at. cbn [snd]. rewrite length_fmap. symmetry. case_bool_decide as E.
  - destruct E as [-> Hne]. rewrite Nat.mul_0_l, drop_0. destruct pend as [|x l]; [done|]. by rewrite Hts.
  - assert (length pend ≤ i * n)%nat as Hle.
    { destruct i; [|nia]. destruct pend; [cbn; lia|]. by destruct E. }
    apply stamp_drop. rewrite lookup_app_r by done. apply stamped_lookup. lia.
Qed.

Lemma packets_of_cut :
  packets_of n ch (pend.*1) ts (frame_samples f) (capture_timestamp f) = packet_of <$> chunks n audio.
Proof.
  unfold packets_of, chunks. rewrite audio_length, length_fmap, <- list_fmap_compose.
  apply list_fmap_ext. intros j i Hi%list_elem_of_lookup_2%elem_of_seq.
  pose proof (Nat.div_mod_eq total n).
  rewrite (surjective_pairing (packet_at _ _ _ _ _ _ i)), packet_stamp by nia. unfold compose, packet_of. f_equal.
  - cbn. by rewrite fmap_take, fmap_drop, fmap_app, stamped_samples.
  - unfold stamp. destruct n as [|n']; [lia|]. by destruct (drop _ audio).
Qed.

Lemma tail_of_cut : tail_of n (pend.*1) (frame_samples f) = (rest n audio).*1.
Proof.
  unfold tail_of, rest. by rewrite audio_length, length_fmap, fmap_drop, fmap_app, stamped_samples.
Qed.

Lemma tail_stamp :
  rest n audio ≠ [] →
  (packet_at n ch (pend.*1) ts (frame_samples f) (capture_timestamp f)
     ((length (pend.*1) + length (frame_samples f)) / n)).2 = stamp (rest n audio).
Proof.
  intros Hr. rewrite length_fmap, packet_stamp; [unfold rest; by rewrite audio_length|].
  destruct (decide (total / n * n < total)%nat) as [|Hge]; [done|]. destruct Hr. unfold rest.
  apply drop_ge. rewrite audio_length. lia.
Qed.
End PacketsOfCut.

(** ** The thread *)

(** What the thread accepts: the codec's format, whole sample frames, and a time of 64 bits. *)
Definition acceptable (ch : Z) (f : EndpointAudioFrame) : Prop :=
  sample_rate_hz f = 48000 ∧ frame_channels f = ch ∧ Z.of_nat (length (frame_samples f)) mod ch = 0
  ∧ frame_ok f.

Section Thread.
Context {W : Type} `{EncoderEnv W} (received : W → list EndpointAudioFrame) `{!InputLog W received}.
Context (n : nat) (ch : Z) (input0 : list EndpointAudioFrame).
Implicit Types (s : EncoderState W) (st : WorkerState W).

Local Abbreviation cut_of := (cut_frames n ch uncut_start).
Local Abbreviation gap accepted := (Z.of_nat (lost lost_at_gap n ch uncut_start accepted)).
Local Abbreviation output accepted := (Z.of_nat (lost lost_at_output n ch uncut_start accepted)).

(** The frames received so far are the accepted ones, in order, and [refused] and
    [cancelled] others. *)
Record sorted_out (accepted : list EndpointAudioFrame) (refused cancelled : nat) (w : W) : Prop := mkSortedOut {
  sorted_log : ∃ input, received w = input0 ++ input ∧ accepted `sublist_of` input
                 ∧ length input = (length accepted + refused + cancelled)%nat;
  sorted_acceptable : Forall (acceptable ch) accepted;
}.

(** Between two frames. *)
Record kept (accepted : list EndpointAudioFrame) (refused cancelled : nat) (fates : list Fate) st
  : Prop := mkKept {
  kept_ready : ready st;
  kept_channels : channels (packetizer st) = ch ∧ packet_samples (packetizer st) = n;
  kept_cut : at_cut (packetizer st) (cut_of accepted).2;
  kept_fates : Forall2 fate_of (cut_of accepted).1 fates;
  kept_alive : tally is_lost fates = 0;
  kept_sent : delivered (encoder st) = sent fates;
  kept_counters : kept_books (Z.of_nat refused) (Z.of_nat cancelled) (gap accepted) (output accepted) 0
                    fates (counters (encoder st));
  kept_input : sorted_out accepted refused cancelled (world (encoder st));
}.

(** The last fate is that of the packet that found the publisher gone, and that packet ends
    within the last accepted frame: every earlier frame's packets have their fates. *)
Definition gone_at (accepted : list EndpointAudioFrame) (fates : list Fate) : Prop :=
  tally is_lost fates = 1 ∧ last fates = Some Lost
  ∧ ∃ before f, accepted = before ++ [f] ∧ (length (cut_of before).1 < length fates)%nat.

(** After the publisher is gone. *)
Record gone (accepted : list EndpointAudioFrame) (refused cancelled : nat) (fates : list Fate) s
  : Prop := mkGone {
  gone_fates : Forall2 fate_of (take (length fates) (cut_of accepted).1) fates;
  gone_lost : gone_at accepted fates;
  gone_sent : delivered s = sent fates;
  gone_counters : kept_books (Z.of_nat refused) (Z.of_nat cancelled) (gap accepted) (output accepted) 0
                    fates (counters s);
  gone_input : sorted_out accepted refused cancelled (world s);
}.

Definition later_than (r : bool * WorkerState W) : Prop :=
  ∃ accepted refused cancelled fates,
    if r.1 then kept accepted refused cancelled fates r.2
    else gone accepted refused cancelled fates (encoder r.2).

(** A frame arrived and is neither accepted nor lost. *)
Lemma sorted_turned_away accepted refused cancelled w w1 w' f refused' cancelled' :
  sorted_out accepted refused cancelled w → received w1 = received w ++ [f] → received w' = received w1 →
  (refused' + cancelled' = S (refused + cancelled))%nat → sorted_out accepted refused' cancelled' w'.
Proof.
  intros [(input & E1 & E2 & E3) Ha] Hr Hr' Hn. constructor; [|done].
  exists (input ++ [f]). rewrite Hr', Hr, E1, app_assoc. split; [done|]. split; [by apply sublist_inserts_r|].
  rewrite length_app. cbn. lia.
Qed.

Lemma kept_turned_away accepted refused cancelled fates p out s w1 f s' refused' cancelled' :
  kept accepted refused cancelled fates (mkWorker p out s) →
  received w1 = received (world s) ++ [f] → received (world s') = received w1 →
  (refused' + cancelled' = S (refused + cancelled))%nat →
  delivered s' = delivered s →
  (kept_books (Z.of_nat refused) (Z.of_nat cancelled) (gap accepted) (output accepted) 0 fates (counters s) →
   kept_books (Z.of_nat refused') (Z.of_nat cancelled') (gap accepted) (output accepted) 0 fates (counters s')) →
  kept accepted refused' cancelled' fates (mkWorker p out s').
Proof.
  intros [] Hr Hr' Hn Hd Hb. constructor; try done; cbn in *; [congruence|by apply Hb|].
  by eapply sorted_turned_away.
Qed.

(** An accepted frame: its packets are those of the cut, and the packetizer is at the next. *)
Lemma process_frame_cut pol f p out s c b p1 w1 :
  ready (mkWorker p out s) → channels p = ch → packet_samples p = n → at_cut p c → frame_ok f →
  sample_rate_hz f = 48000 → frame_channels f = ch →
  generation_cancelled (output_generation f) (world s) = (false, w1) →
  begin_frame p (sequence_number f) (length (frame_samples f)) (generation_id <$> output_generation f)
    = (Ok b, p1) →
  ∃ alive st' fates,
    process_frame pol ch f (mkWorker p out s) = Some (alive, st')
    ∧ all_fated received (cut_frame n ch c f).1 fates alive
        (count (add_cancelled_samples (Z.of_nat (lost_at_output c f)))
           (count (add_partial (Z.of_nat (lost_at_gap c f))) (with_world w1 s))) (encoder st')
    ∧ (alive = true → ready st' ∧ (channels (packetizer st') = ch ∧ packet_samples (packetizer st') = n)
         ∧ at_cut (packetizer st') (cut_frame n ch c f).2).
Proof.
  intros Hready Hch Hps Hcut Hf E1 E2 E3 E4. pose proof Hready as [Hwf Hlt]. cbn in Hwf, Hlt.
  edestruct (process_frame_accepts pol f (mkWorker p out s) b p1 w1)
    as (alive & st' & out' & s1 & Hp & -> & _ & Hd & Hend); [done|done|done|cbn; congruence|done|exact E4|].
  cbn [packetizer] in Hp. rewrite Hch in Hp.
  destruct (begin_frame_at_cut p c f b p1 Hwf Hcut E4) as (Hpend & Hts & Hgap & Hout & Hseq & Hgen).
  pose proof (begin_frame_channels _ _ _ _ _ _ E4) as [Hc1 Hn1]. rewrite Hch in Hc1. rewrite Hps in Hn1.
  assert (length (carried c f) < n)%nat as Hshort.
  { rewrite <- (length_fmap fst (carried c f)), <- Hpend.
    destruct (begin_frame_pending _ _ _ _ _ _ Hwf E4) as [_ [[_ ->]|[_ ->]]].
    - rewrite pending_length by done. lia.
    - pose proof (wf_packet_positive p Hwf). cbn. lia. }
  rewrite Hc1, Hn1, Hpend, (packets_of_cut n ch (carried c f) f _ Hshort Hts) in Hd.
  apply (deliver_all_fated received) in Hd as (new & Hnew). rewrite Hgap, Hout in Hnew.
  exists alive, st', new. split; [exact Hp|]. split; [exact Hnew|].
  intros ->. destruct (Hend eq_refl) as (R1 & R2 & R3 & (S1 & _ & S3 & S4) & R5).
  rewrite Hc1, Hn1, Hpend in R5. rewrite Hn1, Hpend, (tail_of_cut n ch) in R3. cbn in R2.
  split; [done|]. split; [split; congruence|]. constructor; cbn; [exact R3| |congruence|congruence].
  intros Hne. rewrite R5 by (rewrite R3; intros E; by apply fmap_nil_inv in E). by apply tail_stamp.
Qed.

Lemma cut_of_snoc accepted f :
  cut_of (accepted ++ [f])
  = ((cut_of accepted).1 ++ (cut_frame n ch (cut_of accepted).2 f).1, (cut_frame n ch (cut_of accepted).2 f).2).
Proof.
  rewrite cut_frames_app. destruct (cut_of accepted) as [ps c]. cbn [cut_frames fst snd].
  destruct (cut_frame n ch c f) as [p2 c2]. by rewrite app_nil_r.
Qed.

Lemma sorted_accepted accepted refused cancelled w w' f :
  sorted_out accepted refused cancelled w → received w' = received w ++ [f] → acceptable ch f →
  sorted_out (accepted ++ [f]) refused cancelled w'.
Proof.
  intros [(input & I1 & I2 & I3) I4] Hw Hf. constructor; [|apply Forall_app; split; [done|by apply Forall_singleton]].
  exists (input ++ [f]). rewrite Hw, I1, app_assoc. split; [done|].
  split; [by apply sublist_app|]. rewrite !length_app. cbn. lia.
Qed.

Lemma process_frame_accepted_kept pol f accepted refused cancelled fates p out s w w1 b p1 :
  kept accepted refused cancelled fates (mkWorker p out s) → frame_ok f →
  received w = received (world s) ++ [f] → acceptable ch f →
  generation_cancelled (output_generation f) w = (false, w1) →
  begin_frame p (sequence_number f) (length (frame_samples f)) (generation_id <$> output_generation f)
    = (Ok b, p1) →
  ∃ r, process_frame pol ch f (mkWorker p out (with_world w s)) = Some r ∧ later_than r.
Proof.
  intros Hk Hf Hw Hacc E3 E4. pose proof Hacc as (E1 & E2 & _).
  pose proof (cancelled_log received (output_generation f) w) as Hw1. rewrite E3 in Hw1. cbn in Hw1.
  destruct (kept_channels _ _ _ _ _ Hk) as [Hch Hps].
  destruct (process_frame_cut pol f p out (with_world w s) (cut_of accepted).2 b p1 w1)
    as (alive & st' & new & Hp & [D1 D2 D3 D7 D4 D5 D6] & Hend); try done; try apply Hk.
  exists (alive, st'). split; [exact Hp|].
  cbn [count with_world delivered world counters] in D4, D5, D6.
  assert (kept_books (Z.of_nat refused) (Z.of_nat cancelled) (gap (accepted ++ [f])) (output (accepted ++ [f])) 0
    (fates ++ new) (counters (encoder st'))) as Hbooks.
  { apply D5. rewrite !lost_app, !Nat2Z.inj_add. by apply book_output, book_gap, Hk. }
  assert (sorted_out (accepted ++ [f]) refused cancelled (world (encoder st'))) as Hsorted.
  { eapply sorted_accepted; [apply Hk| |done]. cbn. congruence. }
  assert (delivered (encoder st') = sent (fates ++ new)) as Hsent.
  { rewrite D4, sent_app. f_equal. apply (kept_sent _ _ _ _ _ Hk). }
  assert (tally is_lost (fates ++ new) = if alive then 0 else 1) as Htally.
  { rewrite tally_app, D3, (kept_alive _ _ _ _ _ Hk). by destruct alive. }
  pose proof (Forall2_length _ _ _ (kept_fates _ _ _ _ _ Hk)) as Hlen.
  exists (accepted ++ [f]), refused, cancelled, (fates ++ new). destruct alive; cbn [fst snd].
  - destruct (Hend eq_refl) as (R1 & R2 & R3). constructor; try done; rewrite cut_of_snoc; [done|].
    cbn [fst]. apply Forall2_app; [by apply Hk|].
    rewrite <- (take_ge _ (length new)) by (by rewrite D2). exact D1.
  - assert (new ≠ []) as Hne by (intros ->; done).
    constructor; try done.
    + rewrite cut_of_snoc. cbn [fst]. rewrite length_app, take_app, <- Hlen.
      rewrite take_ge by lia. apply Forall2_app; [by apply Hk|].
      by rewrite Nat.add_sub_swap, Nat.sub_diag by lia.
    + split_and!; [done|by rewrite last_app, D7|]. exists accepted, f. split; [done|].
      rewrite length_app, Hlen. destruct new; [done|]. cbn. lia.
Qed.

Lemma process_frame_kept pol f accepted refused cancelled fates p out s w :
  kept accepted refused cancelled fates (mkWorker p out s) → frame_ok f →
  received w = received (world s) ++ [f] →
  ∃ r, process_frame pol ch f (mkWorker p out (with_world w s)) = Some r ∧ later_than r.
Proof.
  intros Hk Hf Hw. set (st := mkWorker p out (with_world w s)).
  destruct (kept_channels _ _ _ _ _ Hk) as [Hch _]. cbn in Hch.
  assert (∀ s', received (world s') = received w → delivered s' = delivered s →
    counters s' = add_encode_errors 1 (counters s) →
    later_than (true, mkWorker p out s')) as Hrefused.
  { intros s' H1 H2 H3. eexists accepted, (S refused), cancelled, fates. cbn.
    eapply kept_turned_away; [exact Hk|exact Hw|done|lia|done|].
    intros Hb. rewrite H3, Nat2Z.inj_succ. by apply book_refused. }
  destruct (decide (sample_rate_hz f = 48000)) as [E1|];
    [|rewrite process_frame_mismatch by auto; eexists; split; [done|]; by apply Hrefused].
  destruct (decide (frame_channels f = ch)) as [E2|];
    [|rewrite process_frame_mismatch by auto; eexists; split; [done|]; by apply Hrefused].
  destruct (generation_cancelled (output_generation f) w) as [[] w1] eqn:E3;
    pose proof (cancelled_log received (output_generation f) w) as Hw1; rewrite E3 in Hw1; cbn in Hw1.
  { rewrite (process_frame_cancelled pol ch f st w1 E1 E2 E3). eexists. split; [done|].
    eexists accepted, refused, (S cancelled), fates. cbn.
    eapply kept_turned_away; [exact Hk|exact Hw|done|lia|done|].
    intros Hb. cbn. rewrite Nat2Z.inj_succ. by apply book_cancelled. }
  destruct (begin_frame p (sequence_number f) (length (frame_samples f))
              (generation_id <$> output_generation f)) as [[b|e] p1] eqn:E4.
  2: { rewrite (process_frame_misaligned pol ch f st w1 e p1 E1 E2 E3 E4). eexists. split; [done|].
    by apply Hrefused. }
  eapply process_frame_accepted_kept; try done. split_and!; [done|done| |done].
  unfold begin_frame in E4. rewrite Hch in E4.
  by destruct (Z.eqb_spec (Z.of_nat (length (frame_samples f)) mod ch) 0).
Qed.
Lemma worker_loop_kept pol fuel (Htime : ∀ w f w', recv w = (Some f, w') → frame_ok f) :
  ∀ st accepted refused cancelled fates r,
  kept accepted refused cancelled fates st → worker_loop fuel pol ch st = Some r → later_than r.
Proof.
  induction fuel as [|fuel IH]; intros [p out s] accepted refused cancelled fates r Hk; [done|].
  cbn [worker_loop]. destruct (recv (world s)) as [[f|] w] eqn:E.
  - destruct (process_frame_kept pol f accepted refused cancelled fates p out s w Hk)
      as (r1 & -> & (a1 & r1' & c1 & f1 & Hr)); [by eapply Htime|by apply (log_recv (received := received))|].
    destruct r1 as [[] st1]; cbn in Hr; [by eapply IH|].
    intros [= <-]. by exists a1, r1', c1, f1.
  - intros [= <-]. exists accepted, refused, cancelled, fates. cbn.
    destruct Hk as [K1 K2 K3 K4 K5 K6 K7 [(input & I1 & I2) I3]].
    constructor; try done. constructor; [|done]. exists input. cbn. by rewrite (log_end (received := received) _ _ E).
Qed.

(** *** The tail *)

(** The last partial packet, filled up with silence. *)
Definition tail_padding (c : Cut) : nat := if decide (uncut c = []) then 0 else (n - length (uncut c))%nat.
Definition tail_packet (c : Cut) : list (list f32 * Z) :=
  if decide (uncut c = []) then []
  else [((uncut c).*1 ++ replicate (tail_padding c) f32_zero, stamp (uncut c))].

(** All packets of a thread whose input ended. *)
Definition offered (accepted : list EndpointAudioFrame) : list (list f32 * Z) :=
  (cut_of accepted).1 ++ tail_packet (cut_of accepted).2.

(** The account a thread leaves when it ends. *)
Record account (accepted : list EndpointAudioFrame) (refused cancelled : nat) (fates : list Fate) s
  : Prop := mkAccount {
  account_input : sorted_out accepted refused cancelled (world s);
  account_fates : Forall2 fate_of (take (length fates) (offered accepted)) fates;
  account_lost : tally is_lost fates = 0 ∧ length fates = length (offered accepted)
                 ∨ gone_at accepted fates;
  account_sent : delivered s = sent fates;
  account_counters : ∃ padding, (padding = 0 ∨ padding = tail_padding (cut_of accepted).2)%nat
    ∧ kept_books (Z.of_nat refused) (Z.of_nat cancelled) (gap accepted) (output accepted)
        (Z.of_nat padding) fates (counters s);
}.

Lemma gone_account accepted refused cancelled fates s :
  gone accepted refused cancelled fates s → account accepted refused cancelled fates s.
Proof.
  intros [G1 G2 G3 G4 G5]. constructor; [done| |by right|done|exists 0%nat; by auto].
  pose proof (Forall2_length _ _ _ G1) as Hl. rewrite length_take in Hl.
  unfold offered. by rewrite take_app_le by lia.
Qed.

(** What a thread leaves without a fate: nothing, unless one packet found the publisher gone. *)
Lemma account_left accepted refused cancelled fates s :
  account accepted refused cancelled fates s →
  tally is_lost fates ≤ 1 ∧ (tally is_lost fates = 0 → length fates = length (offered accepted))
  ∧ (length fates ≤ length (offered accepted))%nat.
Proof.
  intros [_ F L _ _]. apply Forall2_length in F. rewrite length_take in F.
  destruct L as [[L1 L2]|(L1 & _)]; split_and!; lia.
Qed.

(** [flush_tail] gives the tail packet its fate. *)
Lemma flush_tail_account pol accepted refused cancelled fates st :
  kept accepted refused cancelled fates st →
  ∃ fates', account accepted refused cancelled fates' (encoder (flush_tail pol st)).
Proof.
  intros Hk. pose proof Hk as [[Hwf Hlt] [Hch Hps] [Hp Ht _ _] K4 K5 K6 K7 K8].
  destruct st as [p out s]. cbn [packetizer encoder] in *. unfold flush_tail. set (c := (cut_of accepted).2) in *.
  pose proof (pending_length p Hwf) as Hlen. rewrite Hp, length_fmap in Hlen.
  destruct (decide (uncut c = [])) as [E|E].
  { exists fates. unfold pad_tail. rewrite bool_decide_eq_true_2 by (by rewrite <- Hlen, E).
    cbn. constructor; try done; [| |exists 0%nat; by auto];
      unfold offered, tail_packet; fold c; rewrite decide_True, app_nil_r by done;
      pose proof (Forall2_length _ _ _ K4); [by rewrite take_ge by lia|left; split; [done|lia]]. }
  assert (pending p ≠ []) as Hne by (rewrite Hp; intros E'; by apply fmap_nil_inv in E').
  destruct (pad_tail_pending f32_zero p Hwf Hne) as [E1 E2].
  pose proof (pad_tail_wf f32_zero p Hwf) as Hwf'.
  assert (packet_samples (pad_tail f32_zero p).2 = n ∧ packet_timestamp_ns (pad_tail f32_zero p).2 = stamp (uncut c))
    as [E3 E4] by (unfold pad_tail; case_bool_decide; cbn; auto).
  destruct (pad_tail f32_zero p) as [[padding|] p']; [|done]. cbn [fst snd] in *. injection E1 as ->.
  rewrite complete_packet_spec, E2, E3, E4 by done.
  assert (packet_samples p - length (pending p) = tail_padding c)%nat as Epad.
  { unfold tail_padding. rewrite decide_False, Hps, Hp, length_fmap by done. lia. }
  rewrite bool_decide_eq_true_2.
  2: { rewrite length_app, length_replicate. rewrite Hp, length_fmap in *. lia. }
  rewrite Epad, Hp. destruct (encode_and_deliver _ _ _ _ _) as [alive s'] eqn:E5. cbn.
  apply (encode_fated received) in E5 as (x & [F1 F2 F3 F4 F5]). exists (fates ++ [x]).
  pose proof (Forall2_length _ _ _ K4) as Hl.
  assert (offered accepted = (cut_of accepted).1 ++ [((uncut c).*1 ++ replicate (tail_padding c) f32_zero, stamp (uncut c))])
    as Eoff by (unfold offered, tail_packet; fold c; by rewrite decide_False).
  constructor.
  - destruct K8 as [(input & I1 & I2) I3]. constructor; [|done]. exists input. by rewrite F5.
  - rewrite Eoff, take_ge by (rewrite !length_app; cbn; lia). apply Forall2_app; [done|]. by repeat constructor.
  - destruct alive.
    + left. rewrite Eoff, tally_app, K5. cbn. rewrite F2, !length_app. cbn. lia.
    + right. split_and!; [by rewrite tally_app, K5; cbn; rewrite F2|rewrite last_snoc; by destruct x|].
      destruct (exists_last (l := accepted)) as (before & f & Ea); [intros ->; done|].
      exists before, f. split; [exact Ea|]. pose proof (cut_of_snoc before f) as Ec. rewrite <- Ea in Ec.
      rewrite Ec in Hl. cbn in Hl. rewrite length_app in *. cbn. lia.
  - rewrite F3. cbn. by rewrite K6, sent_app.
  - exists (tail_padding c). split; [by right|]. apply F4. cbn.
    by apply (book_padding _ _ _ _ 0).
Qed.
End Thread.

(** A fresh thread. *)
Lemma kept_start {W} `{EncoderEnv W} received `{!InputLog W received} ch p w :
  new f32_zero 48000 ch = Ok p →
  kept received (OPUS_FRAME_SAMPLES * Z.to_nat ch) ch (received w) [] 0 0 []
    (mkWorker p None (mkState counters_default 0 960 [] w)).
Proof.
  intros Hnew. pose proof (new_wf _ _ _ _ Hnew) as [Hwf Hp]. unfold new in Hnew.
  repeat case_match; try done. injection Hnew as <-.
  constructor; cbn; try done.
  - split; [done|]. cbn. pose proof (wf_packet_positive _ Hwf). cbn in *. lia.
  - constructor; [|constructor]. exists []. rewrite app_nil_r. by repeat constructor.
Qed.

Lemma thread_account {W} `{EncoderEnv W} received `{!InputLog W received} fuel ch pol w s'
  (Htime : ∀ w f w', recv w = (Some f, w') → frame_ok f) :
  (ch = 1 ∨ ch = 2) → spawn_opus_encoder fuel true ch 960 pol counters_default w = Some s' →
  ∃ accepted refused cancelled fates,
    account received (OPUS_FRAME_SAMPLES * Z.to_nat ch) ch (received w) accepted refused cancelled fates s'.
Proof.
  intros Hch. unfold spawn_opus_encoder. cbn [negb].
  destruct (new f32_zero 48000 ch) as [p|e] eqn:Hnew; [|by destruct Hch as [-> | ->]].
  pose proof (kept_start received ch p w Hnew) as Hk.
  destruct (worker_loop fuel pol ch _) as [[alive st]|] eqn:El; [|done].
  apply (worker_loop_kept received _ _ _ _ _ Htime _ _ _ _ _ _ Hk) in El as (a & r & c & f & Hr).
  destruct alive; cbn in Hr; intros [= <-].
  - apply (flush_tail_account received _ _ _ pol) in Hr as [f' Hr]. by exists a, r, c, f'.
  - exists a, r, c, f. by apply gone_account.
Qed.

(** *** Times have 64 bits *)

Definition timely (l : list (f32 * Z)) : Prop := Forall (λ x, u64 x.2) l.

Lemma stamp_timely l : timely l → u64 (stamp l).
Proof. destruct 1 as [|x l Hx _]; [|exact Hx]. unfold stamp, u64, U64_MAX. cbn. lia. Qed.

Lemma stamped_timely ch f : 0 < ch → frame_ok f → timely (stamped ch f).
Proof.
  intros Hch Hf. unfold timely, stamped. apply Forall_lookup_2. intros i x Hi. rewrite list_lookup_imap in Hi.
  destruct (frame_samples f !! i); [|done]. injection Hi as <-. apply sat_add_u64; [done|].
  unfold offset_ns. apply Z.div_pos; [|lia]. apply sat_mul_u64; [apply Z.div_pos; lia|lia].
Qed.

Lemma chunks_timely n l : timely l → Forall (λ p, u64 p.2) (packet_of <$> chunks n l) ∧ timely (rest n l).
Proof.
  intros Hl. split; [|by apply Forall_drop]. unfold chunks. apply Forall_fmap, Forall_fmap. apply Forall_true.
  intros i. apply stamp_timely. by apply Forall_take, Forall_drop.
Qed.

Lemma cut_frames_timely n ch frames : 0 < ch → Forall (acceptable ch) frames → ∀ c, timely (uncut c) →
  Forall (λ p, u64 p.2) (cut_frames n ch c frames).1 ∧ timely (uncut (cut_frames n ch c frames).2).
Proof.
  intros Hch. induction 1 as [|f frames (_ & _ & _ & Hf) _ IH]; intros c Hc; [by split; [constructor|]|].
  assert (timely (carried c f ++ stamped ch f)) as Ha.
  { apply Forall_app. split; [|by apply stamped_timely]. unfold carried. by destruct (_ && _); [|constructor]. }
  destruct (chunks_timely n _ Ha) as [H1 H2]. cbn [cut_frames]. unfold cut_frame.
  specialize (IH (mkCut (rest n (carried c f ++ stamped ch f)) (Some (sat_add (sequence_number f) 1))
    (generation_id <$> output_generation f)) H2). destruct (cut_frames _ _ _ frames) as [ps c'].
  destruct IH as [H3 H4]. split; [|done]. cbn [fst]. apply Forall_app. by split.
Qed.

(** Every packet is stamped with a time of 64 bits. *)
Lemma offered_timely n ch accepted :
  0 < ch → Forall (acceptable ch) accepted → Forall (λ p, u64 p.2) (offered n ch accepted).
Proof.
  intros Hch Ha. destruct (cut_frames_timely n ch accepted Hch Ha uncut_start) as [H1 H2]; [constructor|].
  apply Forall_app. split; [done|]. unfold tail_packet. destruct (decide _); [constructor|].
  by apply Forall_singleton, stamp_timely.
Qed.

(** ** Properties *)

Lemma concat_packets (l : list (list (f32 * Z))) : concat (packet_of <$> l).*1 = (concat l).*1.
Proof. induction l as [|x l IH]; [done|]. cbn. by rewrite IH, fmap_app. Qed.

Lemma concat_stamped ch frames : (concat (stamped ch <$> frames)).*1 = concat (frame_samples <$> frames).
Proof. induction frames as [|f l IH]; [done|]. cbn. by rewrite fmap_app, IH, stamped_samples. Qed.

Lemma offered_samples n ch accepted :
  concat (offered n ch accepted).*1
  = concat (cut_frames n ch uncut_start accepted).1.*1
    ++ (uncut (cut_frames n ch uncut_start accepted).2).*1
    ++ replicate (tail_padding n (cut_frames n ch uncut_start accepted).2) f32_zero.
Proof.
  unfold offered. rewrite fmap_app, concat_app. f_equal. unfold tail_packet, tail_padding.
  destruct (decide _) as [->|]; [done|]. cbn. by rewrite app_nil_r.
Qed.

(** C8: What a whole encoder thread makes of its input.  It accepts a subsequence of the
    frames it receives, those of its format, in order; cuts them into packets of 20 ms as
    one stream as long as they follow each other; and offers every packet to the codec and
    the publisher, in order and once, each stamped with the capture time of its first
    sample: the frames that leave are encodings of these packets, in order.  The samples
    dropped at a gap and at a change of output, and the packets that could not be encoded,
    were cancelled or found the channel full, are what the counters report.  A thread whose
    publisher stays gives every packet its fate; one that finds the publisher gone returns
    at once ([gone_at]): the packet it found that with, and what the same frame leaves
    after it, later packets and a partial one, are in no counter, while every packet
    completed by an earlier frame has its fate.  Of frames that follow each other no sample
    is lost between the packets: they are the frames' samples, and silence up to the end of
    the last. *)
Theorem encoder_thread_encodes_its_input {W} `{EncoderEnv W} received `{!InputLog W received}
  fuel ch pol w s'
  (Htime : ∀ w f w', recv w = (Some f, w') → frame_ok f) (Hch : ch = 1 ∨ ch = 2)
  (Hrun : spawn_opus_encoder fuel true ch 960 pol counters_default w = Some s') :
  let n := (OPUS_FRAME_SAMPLES * Z.to_nat ch)%nat in
  ∃ accepted refused cancelled fates,
    account received n ch (received w) accepted refused cancelled fates s'
    ∧ (length (concat (offered n ch accepted).*1) + lost lost_at_gap n ch uncut_start accepted
         + lost lost_at_output n ch uncut_start accepted
       = length (concat (frame_samples <$> accepted))
         + tail_padding n (cut_frames n ch uncut_start accepted).2)%nat
    ∧ (chained accepted →
       concat (offered n ch accepted).*1
       = concat (frame_samples <$> accepted)
         ++ replicate (tail_padding n (cut_frames n ch uncut_start accepted).2) f32_zero).
Proof.
  intros n. assert (0 < n)%nat as Hn by (subst n; unfold OPUS_FRAME_SAMPLES; destruct Hch as [-> | ->]; lia).
  destruct (thread_account received fuel ch pol w s' Htime Hch Hrun) as (a & r & c & fates & Ha).
  exists a, r, c, fates. split; [exact Ha|]. rewrite offered_samples. fold n. split.
  - rewrite !length_app, length_fmap, length_replicate.
    destruct (cut_frames n ch uncut_start a) as [packets c'] eqn:E.
    pose proof (cut_frames_conserves n ch uncut_start a packets c' Hn E) as Hc. cbn in Hc |- *. lia.
  - intros Hchain.
    destruct (cut_chained n ch a uncut_start Hn) as [E1 E2]; [done|done|by intros; split|].
    rewrite E1, E2. cbn [uncut uncut_start app]. rewrite concat_packets, app_assoc, <- fmap_app, chunks_rest by done.
    by rewrite concat_stamped.
Qed.

(** ** A thread with a tape: what it hears is recorded, and its channel has little room *)

Module Tape.

Record World : Type := mkWorld {
  inbox : list EndpointAudioFrame;
  heard : list EndpointAudioFrame;
  clock : Z;
  room : nat;
}.

(** A timestamp has 64 bits. *)
Definition timed (f : EndpointAudioFrame) : EndpointAudioFrame :=
  mkFrame (frame_samples f) (sequence_number f) (sample_rate_hz f) (frame_channels f)
    (capture_timestamp f mod 2 ^ 64) (output_generation f).

Definition spend (w : World) : World := mkWorld (inbox w) (heard w) (clock w) (pred (room w)).

#[export] Instance tape_clock : Clock World :=
  {| now w := (clock w, mkWorld (inbox w) (heard w) (clock w + 1) (room w));
     sleep d w := mkWorld (inbox w) (heard w) (clock w + d) (room w);
     instant_max := 2 ^ 63 * SECOND |}.
#[export] Instance generations : Generations World :=
  {| is_active g w := (negb (generation_id g =? 0), w) |}.
(** The codec refuses a packet that begins with a NaN. *)
#[export] Instance env : EncoderEnv World :=
  {| monotonic_ns w := (clock w, w);
     cas_spurious w := (1%nat, w);
     log10 x := x;
     encode_into samples w :=
       (match samples with SpecFloat.S754_nan :: _ => None | _ => Some [Byte.xf8] end, w);
     send f w := (negb (room w =? 0)%nat, spend w);
     try_send f w := (if (room w =? 0)%nat then Err Full else Ok (), spend w);
     recv w := match inbox w with
               | [] => (None, w)
               | f :: fs => (Some (timed f), mkWorld fs (heard w ++ [timed f]) (clock w) (room w))
               end |}.

#[export] Instance log : InputLog World heard.
Proof.
  constructor; try done; intros w; cbn.
  - intros f w'. destruct (inbox w); [done|]. by intros [= <- <-].
  - intros w'. destruct (inbox w); [|done]. by intros [= <-].
Qed.

Definition frame (seq : Z) (n : nat) (rate ts : Z) (x : f32) (g : option OutputGeneration)
  : EndpointAudioFrame := mkFrame (replicate n x) seq rate 1 ts g.

(** Two frames in sequence, a gap, a frame of another rate, one of a cancelled output, one
    the codec refuses, and a few samples more. *)
Definition start : World :=
  mkWorld [frame 1 1000 48000 1000 f32_zero None; frame 2 1000 48000 20834333 f32_zero None;
           frame 9 960 48000 90000000 f32_zero None; frame 10 960 44100 0 f32_zero None;
           frame 10 960 48000 0 f32_zero (Some (mkGeneration 0));
           frame 10 960 48000 110000000 SpecFloat.S754_nan None;
           frame 11 5 48000 130000000 f32_zero None] [] 5 3.

Lemma recv_timed w f w' : recv w = (Some f, w') → frame_ok f.
Proof.
  cbn. destruct (inbox w); [done|]. intros [= <- _]. unfold frame_ok, u64, U64_MAX. cbn.
  pose proof (Z.mod_pos_bound (capture_timestamp e) (2 ^ 64)). lia.
Qed.

End Tape.

Import Tape.

Lemma encoder_thread_encodes_its_input_witness :
  ∃ s', spawn_opus_encoder 9 true 1 960 DropNewest counters_default start = Some s'
    ∧ (capture_timestamp_ns <$> delivered s') = [1000; 20001000; 90000000]
    ∧ ∃ accepted refused cancelled fates,
        account heard 960 1 [] accepted refused cancelled fates s'.
Proof.
  destruct (spawn_opus_encoder 9 true 1 960 DropNewest counters_default start) as [s'|] eqn:E;
    [|vm_compute in E; discriminate E].
  exists s'. split; [reflexivity|]. split.
  - apply (f_equal (fmap (λ s, capture_timestamp_ns <$> delivered s))) in E.
    vm_compute in E. injection E as E. symmetry. exact E.
  - destruct (encoder_thread_encodes_its_input heard 9 1 DropNewest start s' recv_timed (or_introl eq_refl) E)
      as (a & r & c & fates & Ha & _). exists a, r, c, fates. exact Ha.
Defined.
