(* ===== verification/Proxy.v ===== *)
(** * WebSocket connections through a CONNECT proxy: [relay/src/rtc/proxy.rs]

    Proxy selection ([environment_proxy], [bypass_proxy]), the CONNECT exchange,
    and the composition [connect] of name resolution, TCP, proxy TLS, tunnel, relay
    TLS and the WebSocket upgrade under one absolute deadline.  Sockets are
    handles; what the operating system, [native_tls] and [tungstenite] answer is an
    operation of the world ([ProxyEnv]).  Name resolution
    ([rtc/handshake.rs], [resolve_before_deadline]) is here too. *)

From S2P Require Import Prelude Env Text Extern Errors.

Definition MAX_PROXY_HEADERS_BYTES : Z := 16384.
Definition MAX_WEBSOCKET_MESSAGE_BYTES : Z := 4096.

(** A failed operation with a sanitized text. *)
Definition fail {A} (m : string) : Result BoxedError A := Err (Message m).

(** A loop ran more rounds than its bound; theorems show that no loop does. *)
Definition exhausted : BoxedError := Message "out of fuel".

(** ** Proxy URLs *)

Section ProxyUrl.
Context {Url : Type} `{UrlLib Url}.

Definition checked_proxy (raw : text) : Result BoxedError Url :=
  match url_parse raw with
  | None => fail "Relay proxy URL is invalid"
  | Some proxy =>
      if negb (bool_decide (scheme proxy = lit "http" ∨ scheme proxy = lit "https"))
         || bool_decide (host_str proxy = None)
         || negb (bool_decide (path proxy = [] ∨ path proxy = lit "/"))
         || negb (bool_decide (query proxy = None))
         || negb (bool_decide (fragment proxy = None))
      then fail "Relay proxy must be an HTTP or HTTPS CONNECT proxy origin; SOCKS is unsupported"
      else Ok proxy
  end.

Definition authority (url : Url) : Result BoxedError text :=
  match host url with
  | None => fail "WebSocket or proxy URL has no host"
  | Some h =>
      match port_or_known_default url with
      | None => fail "WebSocket or proxy URL has no port"
      | Some port => Ok (host_display h ++ lit ":" ++ decimal port)
      end
  end.

(** ** Exclusions *)

Definition bracket (c : Z) : bool := (c =? chr "[") || (c =? chr "]").

(** An exclusion entry split into its host and, when it parses, its port. *)
Definition entry_host_port (entry : text) : text * option Z :=
  let with_port :=
    if starts_with (lit "[") entry then
      '(h, p) ← rsplit_once2 (chr "]") (chr ":") entry;
      Some (trim_start_by (λ c, c =? chr "[") h, p)
    else if bool_decide (count_char (chr ":") entry = 1%nat) then rsplit_once (chr ":") entry
    else None in
  match with_port with
  | Some (h, p) =>
      match parse_unsigned U16_MAX p with
      | Some port => (h, Some port)
      | None => (entry, None)
      end
  | None => (entry, None)
  end.

Definition bypass_entry (target : Url) (target_host entry : text) : bool :=
  if bool_decide (entry = lit "*") then true else
  let '(entry_host, entry_port) := entry_host_port entry in
  if negb (bool_decide (entry_port = None))
     && negb (bool_decide (entry_port = port_or_known_default target))
  then false
  else
    let entry_host := trim_by bracket (trim_start_by (λ c, c =? chr ".") entry_host) in
    eq_ignore_ascii_case target_host entry_host
    || ends_with (lit "." ++ to_ascii_lowercase entry_host) (to_ascii_lowercase target_host).

Definition bypass_proxy (target : Url) (exclusions : text) : bool :=
  match host_str target with
  | None => false
  | Some h =>
      let h := trim_by bracket h in
      existsb (bypass_entry target h)
        (filter (λ e, e ≠ []) (trim <$> split (chr ",") exclusions))
  end.

(** [std::env::var(name).ok()] is [env name]. *)
Definition environment_proxy (env : string → option text) (target : Url) : option text :=
  let exclusion :=
    match env "no_proxy" with
    | Some v => v
    | None => match env "NO_PROXY" with Some v => v | None => [] end
    end in
  if bypass_proxy target exclusion then None
  else
    foldr (λ name rest,
             match env name with
             | Some v => if bool_decide (v = []) then rest else Some v
             | None => rest
             end)
      None ["https_proxy"; "HTTPS_PROXY"; "all_proxy"; "ALL_PROXY"]%string.
End ProxyUrl.

(** ** Proxy credentials *)

(** The percent-decoding loop over the bytes of the user information. *)
Fixpoint decode_userinfo_bytes (bytes : list Z) : option (list Z) :=
  match bytes with
  | [] => Some []
  | b :: rest =>
      if b =? 37 then
        match rest with
        | h :: l :: rest =>
            high ← to_digit16 h;
            low ← to_digit16 l;
            cons (high * 16 + low) <$> decode_userinfo_bytes rest
        | _ => None
        end
      else cons b <$> decode_userinfo_bytes rest
  end.

Definition decode_userinfo (raw : text) : Result BoxedError text :=
  ok_or (Message "Relay proxy credentials are invalid")
    (bytes ← decode_userinfo_bytes (utf8_encode raw); utf8_decode bytes).

(** ** Transport causes *)

Inductive ErrorKind : Type :=
| ConnectionAborted | ConnectionReset | NotConnected | BrokenPipe | UnexpectedEof
| TimedOut | WouldBlock | OtherKind.

#[export] Instance ErrorKind_eq_dec : EqDecision ErrorKind.
Proof. solve_decision. Defined.

(** An error and its [source()] chain: [Some kind] for an [io::Error]. *)
Definition ErrorChain : Type := list (option ErrorKind).

Definition is_transport_kind (k : option ErrorKind) : bool :=
  match k with
  | Some OtherKind | None => false
  | Some _ => true
  end.

(** At most eight causes are inspected. *)
Definition has_transport_cause (error : ErrorChain) : bool :=
  existsb is_transport_kind (take 8 error).

Inductive TlsError : Type :=
| TlsWouldBlock
| TlsFailure (error : ErrorChain).

Definition classify_proxy_tls_error (error : TlsError) : ProxyConnectError :=
  match error with
  | TlsWouldBlock => ProxyTransport
  | TlsFailure error => if has_transport_cause error then ProxyTransport else ProxyTlsHandshake
  end.

(** [native] is the error when it is a native-tls one. *)
Definition classify_relay_tls_error (native : option ErrorChain) : ProxyConnectError :=
  match native with
  | Some error => if has_transport_cause error then ProxyTransport else RelayTlsHandshake
  | None => RelayTlsHandshake
  end.

(** [tungstenite::HandshakeError], as [connect_with_tls] distinguishes it. *)
Inductive UpgradeError : Type :=
| UpgradeHttp (status : Z)
| UpgradeIo
| UpgradeInterrupted
| UpgradeTls (native : option ErrorChain)
| UpgradeOther.

Definition classify_upgrade_error (error : UpgradeError) : ProxyConnectError :=
  match error with
  | UpgradeHttp status =>
      if (status =? 401) || (status =? 403) then Authorization else Rejected
  | UpgradeIo | UpgradeInterrupted => ProxyTransport
  | UpgradeTls native => classify_relay_tls_error native
  | UpgradeOther => Rejected
  end.

(** ** The network *)

Definition Addr : Type := Z.
Definition Socket : Type := Z.
Definition Ws : Type := Z.

Inductive ResolveOutcome : Type :=
| Resolved (addresses : list Addr)
| ResolveFailed
| ResolveTimedOut
| ResolverGone.

(** The request headers of the WebSocket upgrade the connector sets. *)
Record UpgradeRequest : Type := mkUpgrade {
  upgrade_url : text;
  authorization : option text;
  requested_protocol : option text;
}.

(** The resolver thread and [recv_timeout]; [None] when it cannot be spawned. *)
Class Resolver (W : Type) : Type := {
  to_socket_addrs : text → Z → W → option ResolveOutcome * W;
}.

Class ProxyEnv (W : Type) : Type := {
  proxy_clock :: Clock W;
  connect_timeout : Addr → Z → W → option Socket * W;
  set_nodelay : Socket → W → bool * W;
  try_clone : Socket → W → bool * W;
  (** [set_read_timeout] and [set_write_timeout] to the same remaining time *)
  set_timeouts : Socket → Z → W → bool * W;
  (** [shutdown(Both)] *)
  shutdown : Socket → W → W;
  spawn_watchdog : Socket → Z → W → bool * W;
  join_watchdog : W → bool * W;
  tls_connector : W → bool * W;
  tls_connect : text → Socket → W → Result TlsError Socket * W;
  write_all : Socket → list Z → W → bool * W;
  (** [read_exact] of one byte *)
  read_byte : Socket → W → option Z * W;
  valid_header : text → bool;
  base64_encode : list Z → text;
  (** [tungstenite::client_tls_with_config]; the answer carries the negotiated
      [Sec-WebSocket-Protocol] header when it is a string *)
  client_tls : UpgradeRequest → Socket → W → Result UpgradeError (Ws * option text) * W;
  (** [into_client_request] of a URL *)
  valid_request : text → bool;
}.

Section Connect.
Context {W : Type} `{ProxyEnv W, Resolver W}.

Local Abbreviation bio := (io W BoxedError).

(** [deadline.checked_duration_since(Instant::now()).ok_or(m)?] *)
Definition remaining_until (deadline : Z) (m : string) : bio Z :=
  λ w, let '(t, w) := now w in
       (if t <=? deadline then Ok (deadline - t) else fail m, w).

(** A fallible system call whose error is only propagated. *)
Definition syscall (call : W → bool * W) (m : string) : bio unit :=
  λ w, let '(done, w) := call w in (if done then Ok () else fail m, w).

Definition resolve_before_deadline (authority : text) (deadline : Z) : bio (list Addr) :=
  remaining ← remaining_until deadline "relay name resolution exceeded its startup deadline";
  io_fun (λ w,
       let '(outcome, w) := to_socket_addrs authority remaining w in
       (match outcome with
        | Some (Resolved []) => fail "relay name resolved to no addresses"
        | Some (Resolved addresses) => Ok addresses
        | Some ResolveFailed => fail "resolver error"
        | Some ResolveTimedOut => fail "relay name resolution exceeded its startup deadline"
        | Some ResolverGone => fail "relay name resolver exited without a result"
        | None => fail "resolver thread"
        end, w)).

Definition set_deadline (stream : Socket) (deadline : Z) : bio unit :=
  remaining ← remaining_until deadline "Relay connection exceeded its startup deadline";
  syscall (set_timeouts stream remaining) "set timeout".

(** The addresses are tried in order; a refused one is skipped. *)
Fixpoint connect_addresses (addresses : list Addr) (deadline : Z) : bio Socket :=
  match addresses with
  | [] => io_result (fail "Relay connection failed within its startup deadline")
  | address :: addresses =>
      remaining ← remaining_until deadline "Relay connection exceeded its startup deadline";
      stream ← io_lift (connect_timeout address remaining);
      match stream with
      | Some stream =>
          _ ← syscall (set_nodelay stream) "set_nodelay";
          _ ← set_deadline stream deadline;
          mret stream
      | None => connect_addresses addresses deadline
      end
  end.

Definition connect_tcp (authority : text) (deadline : Z) : bio Socket :=
  addresses ← resolve_before_deadline authority deadline;
  connect_addresses addresses deadline.

(** The watchdog closes [deadline_socket] when the deadline passes first; whatever
    the operation returned, passing the deadline is an error. *)
Definition before_deadline {A} (deadline_socket : Socket) (deadline : Z) (operation : bio A)
  : bio A :=
  remaining ← remaining_until deadline "Relay connection exceeded its startup deadline";
  _ ← syscall (spawn_watchdog deadline_socket remaining) "watchdog";
  io_fun (λ w,
    let '(result, w) := operation w in
    let '(joined, w) := join_watchdog w in
    if negb joined then (fail "Relay connection deadline worker failed", w) else
    let '(t, w) := now w in
    if deadline <=? t then (fail "Relay connection exceeded its startup deadline", w)
    else (result, w)).

Definition connect_proxy_stream {Url} `{UrlLib Url} (tcp : Socket) (proxy : option Url)
  (deadline : Z) : bio Socket :=
  match proxy with
  | Some proxy =>
      if negb (bool_decide (scheme proxy = lit "https")) then mret tcp else
      _ ← set_deadline tcp deadline;
      name ← io_result (ok_or (Message "Relay proxy URL has no host") (host_str proxy));
      ready ← io_lift tls_connector;
      if negb ready then io_fail (BoxProxy ProxyTlsHandshake) else
      io_fun (λ w,
           let '(r, w) := tls_connect name tcp w in
           (map_err (λ e, BoxProxy (classify_proxy_tls_error e)) r, w))
  | None => mret tcp
  end.

(** *** The CONNECT exchange *)

Definition CRLFCRLF : list Z := [13; 10; 13; 10].

Definition ends_headers (response : list Z) : bool :=
  bool_decide (drop (length response - 4) response = CRLFCRLF).

(** Reads byte by byte up to the blank line.  [fuel] is one more than the limit, so
    the limit check always ends the loop first ([never_read_headers]). *)
Fixpoint read_headers (fuel : nat) (stream : Socket) (deadline : Z) (response : list Z)
  : bio (list Z) :=
  match fuel with
  | O => io_fail exhausted
  | S fuel =>
      if ends_headers response then mret response
      else if MAX_PROXY_HEADERS_BYTES <=? Z.of_nat (length response)
      then io_fail (Message "Relay proxy headers exceeded 16384 bytes")
      else
        _ ← set_deadline stream deadline;
        byte ← io_lift (read_byte stream);
        match byte with
        | Some b => read_headers fuel stream deadline (response ++ [b])
        | None => io_fail (Message "Relay proxy CONNECT response failed")
        end
  end.

Definition header_fuel : nat := Z.to_nat (MAX_PROXY_HEADERS_BYTES + 1).

(** [response.lines().next()]: up to the first newline, without the carriage return. *)
Definition first_line (t : text) : text :=
  match split_inclusive 10 t with
  | [] => []
  | l :: _ => match strip_prefix [10] (reverse l) with
              | Some l' => match strip_prefix [13] l' with
                           | Some l'' => reverse l''
                           | None => reverse l'
                           end
              | None => l
              end
  end.

(** [split_whitespace] as a list. *)
Fixpoint words_from (current : text) (t : text) : list text :=
  match t with
  | [] => match current with [] => [] | _ => [reverse current] end
  | c :: t =>
      if is_whitespace c
      then match current with [] => words_from [] t | _ => reverse current :: words_from [] t end
      else words_from (c :: current) t
  end.

Definition status_of (response : list Z) : option Z :=
  response ← utf8_decode response;
  match words_from [] (first_line response) with
  | protocol :: status :: _ =>
      if bool_decide (protocol = lit "HTTP/1.0" ∨ protocol = lit "HTTP/1.1")
      then parse_unsigned U16_MAX status else None
  | _ => None
  end.

Definition connect_request {Url} `{UrlLib Url} (target : text) (proxy : Url)
  : Result BoxedError text :=
  let request := lit "CONNECT " ++ target ++ lit " HTTP/1.1" ++ [13; 10]
                 ++ lit "Host: " ++ target ++ [13; 10] in
  if negb (bool_decide (username proxy = [])) || negb (bool_decide (password proxy = None)) then
    name ← decode_userinfo (username proxy);
    secret ← decode_userinfo (default [] (password proxy));
    let encoded := base64_encode (utf8_encode (name ++ lit ":" ++ secret)) in
    Ok (request ++ lit "Proxy-Authorization: Basic " ++ encoded ++ [13; 10] ++ [13; 10])
  else Ok (request ++ [13; 10]).

Definition establish_tunnel {Url} `{UrlLib Url} (stream : Socket) (target : text) (proxy : Url)
  (deadline : Z) : bio unit :=
  request ← io_result (connect_request target proxy);
  _ ← set_deadline stream deadline;
  _ ← syscall (write_all stream (utf8_encode request)) "Relay proxy CONNECT write failed";
  response ← read_headers header_fuel stream deadline [];
  match status_of response with
  | Some status =>
      if (200 <=? status) && (status <=? 299) then mret ()
      else io_fail (BoxProxy (ConnectRejected status))
  | None => io_fail (Message "Relay proxy CONNECT response is invalid")
  end.

(** *** The connection *)

Definition upgrade_request (ws_url : text) (bearer_token subprotocol : option text)
  : Result BoxedError UpgradeRequest :=
  if negb (valid_request ws_url) then fail "Relay WebSocket request is invalid" else
  _ ← match bearer_token with
      | Some token =>
          guard_err (negb (valid_header (lit "Bearer " ++ token)))
            (Message "Relay source capability is invalid")
      | None => Ok ()
      end;
  _ ← match subprotocol with
      | Some protocol => guard_err (negb (valid_header protocol)) (Message "header value")
      | None => Ok ()
      end;
  Ok {| upgrade_url := ws_url;
        authorization := (λ token, lit "Bearer " ++ token) <$> bearer_token;
        requested_protocol := subprotocol |}.

Definition upgrade (ws_url : text) (bearer_token subprotocol : option text) (stream : Socket)
  : bio Ws :=
  request ← io_result (upgrade_request ws_url bearer_token subprotocol);
  io_fun (λ w,
    let '(r, w) := client_tls request stream w in
    (match r with
     | Err e => Err (BoxProxy (classify_upgrade_error e))
     | Ok (ws, negotiated) =>
         match subprotocol with
         | Some protocol =>
             if bool_decide (negotiated = Some protocol) then Ok ws
             else Err (BoxProxy Rejected)
         | None => Ok ws
         end
     end, w)).

(** The proxy in use: the explicit one, else the environment's for this target. *)
Definition select_proxy {Url} `{UrlLib Url} (env : string → option text)
  (explicit_proxy : option text) (target : Url) : Result BoxedError (option Url) :=
  match match explicit_proxy with Some p => Some p | None => environment_proxy env target end with
  | Some value => Some <$> checked_proxy value
  | None => Ok None
  end.

(** [connect] with the platform trust store on both TLS hops. [explicit_proxy] is
    the exposed proxy secret. *)
Definition connect {Url} `{UrlLib Url} (env : string → option text) (ws_url : text)
  (explicit_proxy bearer_token subprotocol : option text) (deadline : Z) : bio Ws :=
  target ← io_result (ok_or (Message "Relay WebSocket URL is invalid") (url_parse ws_url));
  target_authority ← io_result (authority target);
  proxy ← io_result (select_proxy env explicit_proxy target);
  dial ← io_result (match proxy with Some p => authority p | None => Ok target_authority end);
  tcp ← connect_tcp dial deadline;
  _ ← syscall (try_clone tcp) "clone";
  before_deadline tcp deadline
    (stream ← connect_proxy_stream tcp proxy deadline;
     _ ← match proxy with
         | Some p => establish_tunnel stream target_authority p deadline
         | None => mret ()
         end;
     _ ← set_deadline stream deadline;
     upgrade ws_url bearer_token subprotocol stream).
End Connect.

(** ** What a connection attempt keeps *)

(** Every system call moves the world along [R]. *)
Class ProxyKeeps (W : Type) `{ProxyEnv W, Resolver W} (R : relation W) : Prop := {
  pk_preorder :: PreOrder R;
  pk_now w : R w (now w).2;
  pk_sleep d w : 0 ≤ d → R w (sleep d w);
  pk_resolve a d w : R w (to_socket_addrs a d w).2;
  pk_connect a d w : R w (connect_timeout a d w).2;
  pk_nodelay s w : R w (set_nodelay s w).2;
  pk_clone s w : R w (try_clone s w).2;
  pk_timeouts s d w : R w (set_timeouts s d w).2;
  pk_watchdog s d w : R w (spawn_watchdog s d w).2;
  pk_join w : R w (join_watchdog w).2;
  pk_connector w : R w (tls_connector w).2;
  pk_tls h s w : R w (tls_connect h s w).2;
  pk_write s b w : R w (write_all s b w).2;
  pk_read s w : R w (read_byte s w).2;
  pk_upgrade r s w : R w (client_tls r s w).2;
}.

Ltac proxy_law :=
  first [ apply pk_now | apply pk_sleep; done | apply pk_resolve | apply pk_connect
        | apply pk_nodelay | apply pk_clone | apply pk_timeouts | apply pk_watchdog | apply pk_join
        | apply pk_connector | apply pk_tls | apply pk_write | apply pk_read | apply pk_upgrade ].
#[export] Hint Extern 1 => proxy_law : keeps.

Section ConnectKeeps.
Context {W Url : Type} `{ProxyKeeps W} `{UrlLib Url}.

Lemma keeps_syscall (call : W → bool * W) m :
  (∀ w, R w (call w).2) → keeps R (syscall call m).
Proof. intros Hc w. unfold syscall. specialize (Hc w). by destruct (call w). Qed.
#[local] Hint Resolve keeps_syscall : keeps.

Lemma keeps_remaining deadline m : keeps R (remaining_until deadline m).
Proof. intros w. unfold remaining_until. pose proof (pk_now w) as Hn. by destruct (now w). Qed.
#[local] Hint Resolve keeps_remaining : keeps.

Lemma keeps_set_deadline stream deadline : keeps R (set_deadline stream deadline).
Proof. unfold set_deadline. keep. Qed.
#[local] Hint Resolve keeps_set_deadline : keeps.

Lemma keeps_connect_addresses addresses deadline : keeps R (connect_addresses addresses deadline).
Proof. induction addresses; cbn [connect_addresses]; keep. Qed.
#[local] Hint Resolve keeps_connect_addresses : keeps.

Lemma keeps_connect_tcp dial deadline : keeps R (connect_tcp dial deadline).
Proof.
  unfold connect_tcp, resolve_before_deadline. keep. intros w. unfold io_fun.
  pose proof (pk_resolve dial a w) as Hr. by destruct (to_socket_addrs dial a w).
Qed.
#[local] Hint Resolve keeps_connect_tcp : keeps.

Lemma keeps_before_deadline {A} s deadline (m : io W BoxedError A) :
  keeps R m → keeps R (before_deadline s deadline m).
Proof.
  intros Hm. unfold before_deadline. keep. intros w. unfold io_fun.
  specialize (Hm w). destruct (m w) as [r w1]. pose proof (pk_join w1) as Hj.
  destruct (join_watchdog w1) as [[] w2]; cbn in *; [|by etrans].
  pose proof (pk_now w2) as Hn. destruct (now w2) as [t w3]. cbn in Hn.
  destruct (deadline <=? t); cbn; etrans; done || by etrans.
Qed.

Lemma keeps_read_headers fuel s deadline : ∀ acc, keeps R (read_headers fuel s deadline acc).
Proof. induction fuel; intros acc; cbn [read_headers]; keep. Qed.
#[local] Hint Resolve keeps_read_headers : keeps.

Lemma keeps_establish_tunnel s target (proxy : Url) deadline :
  keeps R (establish_tunnel s target proxy deadline).
Proof. unfold establish_tunnel. keep. Qed.
#[local] Hint Resolve keeps_establish_tunnel : keeps.

Lemma keeps_connect_proxy_stream tcp (proxy : option Url) deadline :
  keeps R (connect_proxy_stream tcp proxy deadline).
Proof.
  unfold connect_proxy_stream. keep. intros w. unfold io_fun.
  match goal with |- R _ (match tls_connect ?n _ _ with _ => _ end).2 => pose proof (pk_tls n tcp w) as Hr end.
  by destruct (tls_connect _ tcp w).
Qed.
#[local] Hint Resolve keeps_connect_proxy_stream : keeps.

Lemma keeps_upgrade url token protocol s : keeps R (upgrade url token protocol s).
Proof.
  unfold upgrade. keep. intros w. unfold io_fun.
  pose proof (pk_upgrade a s w) as Hr. by destruct (client_tls a s w).
Qed.
#[local] Hint Resolve keeps_upgrade : keeps.

Lemma keeps_connect env url explicit_proxy token protocol deadline :
  keeps R (connect (Url := Url) env url explicit_proxy token protocol deadline).
Proof. unfold connect. keep. apply keeps_before_deadline. keep. Qed.
End ConnectKeeps.

#[export] Hint Extern 1 (keeps _ (syscall _ _)) => apply keeps_syscall; keep : keeps.
#[export] Hint Extern 1 (keeps _ (remaining_until _ _)) => apply keeps_remaining; exact _ : keeps.
#[export] Hint Extern 1 (keeps _ (connect _ _ _ _ _ _)) => apply keeps_connect; exact _ : keeps.
#[export] Hint Extern 2 (keeps _ (before_deadline _ _ _)) => apply keeps_before_deadline; keep : keeps.

(** ** Percent-encoded credentials *)

Definition hex_digit (d : Z) : Z := if d <? 10 then 48 + d else 87 + d.

(** Reference encoder: every byte [esc] selects is written as [%xx]. *)
Definition userinfo_encode (esc : Z → bool) (bytes : list Z) : list Z :=
  bytes ≫= λ b, if esc b then [37; hex_digit (b / 16); hex_digit (b mod 16)] else [b].

Lemma to_digit16_hex d : 0 ≤ d < 16 → to_digit16 (hex_digit d) = Some d.
Proof.
  intros Hd. unfold to_digit16, hex_digit, is_ascii_digit.
  destruct (Z.ltb_spec d 10).
  - destruct (Z.leb_spec 48 (48 + d)), (Z.leb_spec (48 + d) 57); cbn; try lia. f_equal; lia.
  - destruct (Z.leb_spec 48 (87 + d)), (Z.leb_spec (87 + d) 57); cbn; try lia;
      destruct (Z.leb_spec 97 (87 + d)), (Z.leb_spec (87 + d) 102); cbn; try lia; f_equal; lia.
Qed.

Lemma decode_userinfo_bytes_encode esc bytes :
  esc 37 = true → Forall (λ b, 0 ≤ b < 256) bytes →
  decode_userinfo_bytes (userinfo_encode esc bytes) = Some bytes.
Proof.
  intros Hpct. induction 1 as [|b bytes Hb _ IH]; [done|].
  unfold userinfo_encode in *; cbn [mbind list_bind]. destruct (esc b) eqn:E; cbn.
  - assert (0 ≤ b / 16 < 16) by (split; [apply Z.div_pos|apply Z.div_lt_upper_bound]; lia).
    assert (0 ≤ b mod 16 < 16) by (apply Z.mod_pos_bound; lia).
    rewrite !to_digit16_hex by done. cbn. rewrite IH; cbn. do 2 f_equal.
    pose proof (Z.div_mod b 16). lia.
  - destruct (Z.eqb_spec b 37) as [->|]; [congruence|]. by rewrite IH.
Qed.

Lemma userinfo_encode_ascii esc bytes :
  (∀ b, 128 ≤ b → esc b = true) → Forall (λ b, 0 ≤ b < 256) bytes →
  Forall (λ c, 0 ≤ c < 128) (userinfo_encode esc bytes).
Proof.
  intros Hesc. induction 1 as [|b bytes Hb _ IH]; [constructor|].
  unfold userinfo_encode in *; cbn [mbind list_bind]. apply Forall_app. split; [|done].
  assert (hex : ∀ d, 0 ≤ d < 16 → 0 ≤ hex_digit d < 128)
    by (intros d ?; unfold hex_digit; case_match; lia).
  destruct (esc b) eqn:E; repeat constructor; try lia;
    try (apply hex; first [apply Z.mod_pos_bound; lia
                          |split; [apply Z.div_pos|apply Z.div_lt_upper_bound]; lia]).
  destruct (Z.lt_ge_cases b 128); [done|]. by rewrite Hesc in E.
Qed.

Lemma utf8_encode_ascii t : Forall (λ c, 0 ≤ c < 128) t → utf8_encode t = t.
Proof.
  induction 1 as [|c t Hc _ IH]; [done|]. unfold utf8_encode in *; cbn [mbind list_bind].
  rewrite IH. unfold utf8_encode_char. destruct (Z.ltb_spec c 128); [done|lia].
Qed.

(** Proxy credentials survive percent-encoding: whatever bytes a client escapes, as
    long as it escapes the percent sign and every non-ASCII byte, [decode_userinfo] gives
    back exactly the original user name or password. *)
Theorem decode_userinfo_encode (esc : Z → bool) (t : text)
  (Hpct : esc 37 = true) (Hhigh : ∀ b, 128 ≤ b → esc b = true) (Ht : Forall scalar t) :
  decode_userinfo (userinfo_encode esc (utf8_encode t)) = Ok t.
Proof.
  pose proof (utf8_encode_bytes t Ht) as Hb. unfold decode_userinfo.
  rewrite utf8_encode_ascii by by apply userinfo_encode_ascii.
  rewrite decode_userinfo_bytes_encode by done. cbn. by rewrite utf8_decode_encode.
Qed.

(** The user name [é%] is sent as [%c3%a9%25]. *)
Lemma decode_userinfo_encode_witness :
  userinfo_encode (λ b, (b =? 37) || (128 <=? b)) (utf8_encode [233; 37]) = lit "%c3%a9%25" ∧
  decode_userinfo (userinfo_encode (λ b, (b =? 37) || (128 <=? b)) (utf8_encode [233; 37]))
  = Ok [233; 37].
Proof.
  split; [reflexivity|].
  apply (decode_userinfo_encode (λ b, (b =? 37) || (128 <=? b)) [233; 37]); [reflexivity| |].
  - intros b Hb. apply orb_true_iff. right. by apply Z.leb_le.
  - repeat constructor; unfold scalar; lia.
Defined.

(** ** The CONNECT exchange consumes exactly the proxy's headers *)

(** [unread s w] are the bytes the peer will still deliver on [s]. *)
Class StreamLaws (W : Type) `{ProxyEnv W} (unread : Socket → W → list Z) : Prop := {
  read_byte_reads s w b w' : read_byte s w = (Some b, w') → unread s w = b :: unread s w';
  now_keeps s w : unread s (now w).2 = unread s w;
  set_timeouts_keeps s s' d w : unread s (set_timeouts s' d w).2 = unread s w;
  write_all_keeps s s' bytes w : unread s (write_all s' bytes w).2 = unread s w;
}.

Section Tunnel.
Context {W Url : Type} `{ProxyEnv W, UrlLib Url} (unread : Socket → W → list Z)
  `{!StreamLaws W unread}.

Lemma set_deadline_keeps s stream deadline w u w' :
  set_deadline stream deadline w = (Ok u, w') → unread s w' = unread s w.
Proof.
  unfold set_deadline, remaining_until, syscall. intros (r & w1 & Hr & Hs)%io_bind_Ok.
  destruct (now w) as [t w2] eqn:Et. destruct (t <=? deadline); inversion Hr; subst.
  destruct (set_timeouts _ _ w1) as [b w3] eqn:Es. destruct b; inversion Hs; subst.
  pose proof (set_timeouts_keeps s stream (deadline - t) w1) as Hk. rewrite Es in Hk.
  pose proof (now_keeps s w) as Hn. rewrite Et in Hn. cbn in *. congruence.
Qed.

Lemma ends_headers_spec l : ends_headers l = true ↔ ∃ p, l = p ++ CRLFCRLF.
Proof.
  unfold ends_headers. rewrite bool_decide_eq_true. split.
  - intros Hd. exists (take (length l - 4) l). by rewrite <- Hd, take_drop.
  - intros [p ->]. rewrite length_app; cbn. replace (length p + 4 - 4)%nat with (length p) by lia.
    by rewrite drop_app_length.
Qed.

Lemma read_headers_Ok fuel stream deadline : ∀ acc w response w',
  read_headers fuel stream deadline acc w = (Ok response, w') →
  Z.of_nat (length acc) ≤ MAX_PROXY_HEADERS_BYTES →
  ∃ more, response = acc ++ more ∧ unread stream w = more ++ unread stream w'
    ∧ ends_headers response = true
    ∧ Z.of_nat (length response) ≤ MAX_PROXY_HEADERS_BYTES
    ∧ ∀ p q, more = p ++ q → q ≠ [] → ends_headers (acc ++ p) = false.
Proof.
  induction fuel as [|fuel IH]; intros acc w response w' Hr Hl; cbn [read_headers] in Hr; [done|].
  destruct (ends_headers acc) eqn:He.
  { inversion Hr; subst. exists []. rewrite app_nil_r. repeat split; try done.
    intros p q Hpq Hq. destruct p, q; done. }
  destruct (Z.leb_spec MAX_PROXY_HEADERS_BYTES (Z.of_nat (length acc))); [done|].
  apply io_bind_Ok in Hr as (u & w1 & Hs & Hr).
  apply io_bind_Ok in Hr as (b & w2 & Hb & Hr). unfold io_lift in Hb.
  destruct (read_byte stream w1) as [ob w3] eqn:Eb. inversion Hb; subst.
  destruct b as [b|]; [|done].
  apply IH in Hr as (more & -> & Hu & He' & Hlen & Hmin).
  2:{ rewrite length_app; cbn [length]. lia. }
  exists (b :: more). rewrite <- app_assoc in *. repeat split; try done.
  - apply read_byte_reads in Eb. apply (set_deadline_keeps stream) in Hs.
    rewrite <- Hs, Eb, Hu. done.
  - intros [|x p] q Hpq Hq; [by rewrite app_nil_r|]. cbn in Hpq. inversion Hpq; subst.
    specialize (Hmin p q eq_refl Hq). by rewrite <- app_assoc in Hmin.
Qed.

Lemma never_remaining deadline m : Message m ≠ exhausted → never exhausted (remaining_until (W := W) deadline m).
Proof. intros Hm w. unfold remaining_until. destruct (now w). case_match; [done|]. cbn.
  intros [= ?]. by apply Hm; f_equal. Qed.

Lemma never_syscall (call : W → bool * W) m : Message m ≠ exhausted → never exhausted (syscall call m).
Proof. intros Hm w. unfold syscall. destruct (call w) as [[] w']; [done|]. cbn.
  intros [= ?]. by apply Hm; f_equal. Qed.

#[local] Hint Extern 1 (never _ (remaining_until _ _)) => by apply never_remaining : never.
#[local] Hint Extern 1 (never _ (syscall _ _)) => by apply never_syscall : never.

Lemma never_set_deadline stream deadline : never exhausted (set_deadline (W := W) stream deadline).
Proof. unfold set_deadline. nevers. Qed.
#[local] Hint Resolve never_set_deadline : never.

Lemma never_read_headers fuel stream deadline : ∀ acc,
  Z.of_nat (length acc) ≤ MAX_PROXY_HEADERS_BYTES →
  MAX_PROXY_HEADERS_BYTES < Z.of_nat fuel + Z.of_nat (length acc) →
  never exhausted (read_headers (W := W) fuel stream deadline acc).
Proof.
  induction fuel as [|fuel IH]; intros acc Hl Hf; cbn [read_headers]; [lia|].
  destruct (ends_headers acc); [nevers|].
  destruct (Z.leb_spec MAX_PROXY_HEADERS_BYTES (Z.of_nat (length acc))); nevers.
  apply IH; rewrite length_app; cbn [length]; lia.
Qed.

Lemma ok_or_never {A B} m (o : option A) (f : A → Result BoxedError B) :
  Message m ≠ exhausted → (∀ a, f a ≠ Err exhausted) → ok_or (Message m) o ≫= f ≠ Err exhausted.
Proof. intros Hm Hf. destruct o; cbn; [apply Hf|congruence]. Qed.

Lemma connect_request_never target (proxy : Url) : connect_request target proxy ≠ Err exhausted.
Proof.
  unfold connect_request, decode_userinfo. case_match; [|done].
  apply ok_or_never; [done|]. intros n. by apply ok_or_never.
Qed.

#[local] Hint Resolve connect_request_never : never.

Lemma never_establish_tunnel stream target (proxy : Url) deadline :
  never exhausted (establish_tunnel (W := W) stream target proxy deadline).
Proof.
  unfold establish_tunnel. nevers.
  apply never_read_headers; unfold header_fuel, MAX_PROXY_HEADERS_BYTES; cbn [length]; lia.
Qed.

(** C25: The CONNECT exchange always comes to an answer: for every proxy and every byte
    stream the header loop ends within its 16384-byte limit.  When it succeeds, the
    response is the shortest prefix of the unread bytes that ends with a blank line, its
    status line says HTTP/1.0 or 1.1 with a status in 200..299, and nothing after the
    blank line was consumed, so the TLS or WebSocket stream that follows is intact. *)
Theorem establish_tunnel_reads_headers_only stream target (proxy : Url) deadline w :
  (establish_tunnel stream target proxy deadline w).1 ≠ Err exhausted ∧
  ∀ w', establish_tunnel stream target proxy deadline w = (Ok (), w') →
  ∃ response status,
    unread stream w = response ++ unread stream w'
    ∧ (∃ headers, response = headers ++ CRLFCRLF)
    ∧ (∀ p q, response = p ++ q → q ≠ [] → ¬ ∃ headers, p = headers ++ CRLFCRLF)
    ∧ Z.of_nat (length response) ≤ MAX_PROXY_HEADERS_BYTES
    ∧ status_of response = Some status ∧ 200 ≤ status ≤ 299.
Proof.
  split; [apply never_establish_tunnel|].
  intros w' Hok. unfold establish_tunnel in Hok.
    apply io_bind_Ok in Hok as (request & w1 & Hq & Hok). inversion Hq; subst.
    apply io_bind_Ok in Hok as (u & w2 & Hs & Hok).
    apply io_bind_Ok in Hok as ([] & w3 & Hw & Hok).
    apply io_bind_Ok in Hok as (response & w4 & Hr & Hok).
    apply read_headers_Ok in Hr as (more & -> & Hu & He & Hlen & Hmin);
      [|cbn; unfold MAX_PROXY_HEADERS_BYTES; lia].
    destruct (status_of ([] ++ more)) as [status|] eqn:Est; [|done].
    destruct ((200 <=? status) && (status <=? 299)) eqn:Ec; [|done].
    inversion Hok; subst w4. bool_props. exists more, status. repeat split; try done.
    + rewrite <- Hu. unfold syscall in Hw. destruct (write_all _ _ w2) as [b w5] eqn:Ew.
      destruct b; inversion Hw; subst.
      pose proof (write_all_keeps stream stream (utf8_encode request) w2) as Hk.
      rewrite Ew in Hk. apply (set_deadline_keeps stream) in Hs. cbn in Hk. congruence.
    + by apply ends_headers_spec.
    + intros p q Hpq Hne Hh. apply ends_headers_spec in Hh.
      specialize (Hmin p q Hpq Hne). cbn in Hmin. congruence.
Qed.
End Tunnel.

#[export] Hint Extern 1 (never _ (remaining_until _ _)) => by apply never_remaining : never.
#[export] Hint Extern 1 (never _ (syscall _ _)) => by apply never_syscall : never.
#[export] Hint Resolve never_set_deadline never_establish_tunnel : never.

(** ** A connection attempt always comes to an answer *)

Section ConnectNever.
Context {W Url : Type} `{ProxyEnv W, Resolver W, UrlLib Url}.

Lemma never_before_deadline {A} s deadline (m : io W BoxedError A) :
  never exhausted m → never exhausted (before_deadline s deadline m).
Proof.
  intros Hm. unfold before_deadline. nevers. intros w. unfold io_fun.
  specialize (Hm w). destruct (m w) as [r w1]. destruct (join_watchdog w1) as [[] w2]; [|done].
  cbn. destruct (now w2) as [t w3]. by destruct (deadline <=? t).
Qed.

Lemma before_deadline_from {A} (R : relation W) (P : W → Prop) `{!ProxyKeeps W R} s deadline
  (m : io W BoxedError A) :
  (∀ w w', R w w' → P w → P w') → never_from exhausted P m →
  never_from exhausted P (before_deadline s deadline m).
Proof.
  intros HP Hm. apply (never_from_bind exhausted R); [done|keep|apply never_from_never; nevers|].
  intros d. apply (never_from_bind exhausted R); [done|keep|apply never_from_never; nevers|].
  intros _ w Hw. unfold io_fun.
  specialize (Hm w Hw). destruct (m w) as [r w1]. destruct (join_watchdog w1) as [[] w2]; [|done].
  cbn. destruct (now w2) as [t w3]. by destruct (deadline <=? t).
Qed.

Lemma never_connect_tcp dial deadline : never exhausted (connect_tcp (W := W) dial deadline).
Proof.
  apply never_bind.
  - unfold resolve_before_deadline. nevers. intros w. unfold io_fun.
    destruct (to_socket_addrs _ _ w) as [o w']. by repeat case_match.
  - intros l. induction l; cbn [connect_addresses]; nevers.
Qed.

Lemma never_upgrade url token protocol s : never exhausted (upgrade (W := W) url token protocol s).
Proof.
  apply never_bind.
  - apply never_result. unfold upgrade_request. case_match; [done|].
    destruct token as [token|], protocol as [protocol|]; cbn;
      repeat (case_match; cbn); done || (unfold guard_err in *; simplify_eq; by repeat case_match).
  - intros request w. unfold io_fun. destruct (client_tls request s w) as [[[ws n]|e] w'].
    + cbn. by repeat case_match.
    + done.
Qed.

Lemma checked_proxy_never raw : checked_proxy (Url := Url) raw ≠ Err exhausted.
Proof. unfold checked_proxy. by repeat case_match. Qed.
Lemma authority_never (u : Url) : authority u ≠ Err exhausted.
Proof. unfold authority. by repeat case_match. Qed.

Lemma never_connect_proxy_stream tcp (proxy : option Url) deadline :
  never exhausted (connect_proxy_stream (W := W) tcp proxy deadline).
Proof.
  unfold connect_proxy_stream. nevers. intros w. unfold io_fun.
  match goal with |- context [tls_connect ?name tcp w] => by destruct (tls_connect name tcp w) as [[] ?] end.
Qed.
#[local] Hint Resolve never_connect_tcp never_upgrade authority_never never_connect_proxy_stream : never.

Lemma never_connect env url explicit_proxy token protocol deadline :
  never exhausted (connect (W := W) (Url := Url) env url explicit_proxy token protocol deadline).
Proof.
  unfold connect. apply never_bind; [nevers|]. intros target.
  apply never_bind; [nevers|]. intros ta. apply never_bind.
  { apply never_result. unfold select_proxy. case_match; [|done].
    pose proof (checked_proxy_never t) as Hp. destruct (checked_proxy t); cbn; [done|congruence]. }
  intros proxy. apply never_bind.
  { apply never_result. destruct proxy; [apply authority_never|done]. }
  intros dial. nevers. apply never_before_deadline. nevers.
Qed.
End ConnectNever.

#[export] Hint Resolve never_connect : never.

(** ** No direct fallback *)

Section Fallback.
Context {W Url : Type} `{ProxyEnv W, UrlLib Url}.

(** C33: An explicit proxy is the only host the connector resolves or dials.  When the
    explicit proxy URL is [p], two name services that agree on [p]'s own authority and
    differ arbitrarily on every other name, the relay's included, give the same
    connection attempt in every world: there is no direct fallback, also not after the
    proxy failed. *)
Theorem explicit_proxy_is_the_only_dial (R1 R2 : Resolver W) env ws_url explicit_proxy
  (p : Url) dial bearer_token subprotocol deadline
  (Hp : checked_proxy explicit_proxy = Ok p) (Hdial : authority p = Ok dial)
  (Hagree : ∀ d w, @to_socket_addrs W R1 dial d w = @to_socket_addrs W R2 dial d w) w :
  @connect W _ R1 Url _ env ws_url (Some explicit_proxy) bearer_token
    subprotocol deadline w
  = @connect W _ R2 Url _ env ws_url (Some explicit_proxy) bearer_token
    subprotocol deadline w.
Proof.
  unfold connect, select_proxy. rewrite Hp.
  unfold mbind, io_bind, io_result. destruct (ok_or _ (url_parse ws_url)) as [target|]; [|done].
  destruct (authority target) as [ta|]; [|done]. cbn. rewrite Hdial.
  assert (@connect_tcp W _ R1 dial deadline w
          = @connect_tcp W _ R2 dial deadline w) as ->; [|done].
  unfold connect_tcp, resolve_before_deadline, mbind, io_bind, io_fun.
  destruct (remaining_until _ _ w) as [[remaining|e] w1]; [|done]. by rewrite Hagree.
Qed.
End Fallback.

(** ** Exclusions match whole labels *)

(** An entry that is a host name or domain suffix, perhaps with leading dots. *)
Definition name_char (c : Z) : bool :=
  is_ascii_alphanumeric c || (c =? chr "-") || (c =? chr ".").
Definition plain_entry (e : text) : Prop := e ≠ [] ∧ Forall (λ c, name_char c = true) e.

(** [host] is the domain or one of its subdomains, up to ASCII case. *)
Definition in_domain (host domain : text) : Prop :=
  to_ascii_lowercase host = to_ascii_lowercase domain ∨
  ∃ labels, to_ascii_lowercase host = labels ++ lit "." ++ to_ascii_lowercase domain.

Lemma name_char_plain c :
  name_char c = true →
  is_whitespace c = false ∧ c ≠ chr "," ∧ c ≠ chr ":" ∧ c ≠ chr "*" ∧ bracket c = false
  ∧ c ≠ chr "[".
Proof.
  intros Hc.
  assert (c = 45 ∨ 46 = c ∨ 48 ≤ c ≤ 57 ∨ 65 ≤ c ≤ 90 ∨ 97 ≤ c ≤ 122) as Hr.
  { unfold name_char, is_ascii_alphanumeric, is_ascii_digit, is_ascii_upper, is_ascii_lower in Hc.
    change (chr "-") with 45 in Hc. change (chr ".") with 46 in Hc.
    repeat (apply orb_prop in Hc as [Hc|Hc]); bool_props; lia. }
  change (chr ",") with 44. change (chr ":") with 58. change (chr "*") with 42.
  change (chr "[") with 91. unfold bracket. change (chr "[") with 91. change (chr "]") with 93.
  repeat split; try (intros ->; lia).
  - unfold is_whitespace. repeat (apply orb_false_intro); try (apply Z.eqb_neq; lia);
      apply andb_false_iff; rewrite !Z.leb_gt; lia.
  - apply orb_false_intro; apply Z.eqb_neq; lia.
Qed.

Section Bypass.
Context {Url : Type} `{UrlLib Url}.

Lemma entry_host_port_plain e : plain_entry e → entry_host_port e = (e, None).
Proof.
  intros [Hne He]. unfold entry_host_port.
  destruct e as [|c e]; [done|]. inversion He as [|? ? Hc He']; subst.
  assert (starts_with (lit "[") (c :: e) = false) as ->.
  { apply not_true_iff_false. rewrite starts_with_spec. intros [r Hr]. cbn in Hr.
    inversion Hr; subst. by apply name_char_plain in Hc as (_ & _ & _ & _ & _ & ?). }
  assert (count_char (chr ":") (c :: e) = 0%nat) as ->; [|done].
  apply count_char_absent. eapply Forall_impl; [exact He|].
  intros d Hd. by apply name_char_plain in Hd as (_ & _ & ? & _).
Qed.

Lemma bypass_entry_plain target h e :
  plain_entry e →
  bypass_entry target h e = true ↔ in_domain h (trim_start_by (λ c, c =? chr ".") e).
Proof.
  intros He. unfold bypass_entry. rewrite entry_host_port_plain by done. destruct He as [Hne He].
  rewrite bool_decide_eq_false_2.
  2:{ intros ->. inversion He as [|? ? Hc _]; subst. by apply name_char_plain in Hc as (_ & _ & _ & ? & _). }
  rewrite (bool_decide_eq_true_2 (None = None)) by done. cbn [negb andb].
  rewrite (trim_by_id bracket).
  2:{ apply trim_start_by_Forall. eapply Forall_impl; [exact He|].
      intros c Hc. by apply name_char_plain in Hc as (_ & _ & _ & _ & ? & _). }
  rewrite orb_true_iff, ends_with_spec. unfold eq_ignore_ascii_case, in_domain.
  by rewrite bool_decide_eq_true.
Qed.

(** A comma-separated exclusion list of host names and domain suffixes exempts exactly
    the hosts equal to an entry or below one at a label boundary, ignoring ASCII case and
    an entry's leading dots: [example.com] exempts [a.example.com], never
    [badexample.com]. *)
Theorem bypass_proxy_domains (target : Url) (h : text) (entries : list text)
  (Hhost : host_str target = Some h) (Hh : Forall (λ c, bracket c = false) h)
  (Hne : entries ≠ []) (Hplain : Forall plain_entry entries) :
  bypass_proxy target (join (lit ",") entries) = true ↔
  Exists (λ e, in_domain h (trim_start_by (λ c, c =? chr ".") e)) entries.
Proof.
  unfold bypass_proxy. rewrite Hhost, (trim_by_id bracket) by done.
  change (lit ",") with [chr ","]. rewrite split_join; [|done|].
  2:{ eapply Forall_impl; [exact Hplain|]. intros e [_ He]. eapply Forall_impl; [exact He|].
      intros c Hc. by apply name_char_plain in Hc as (_ & ? & _). }
  clear Hne. induction Hplain as [|e l He Hl IH]; [cbn; split; [done|inversion 1]|].
  rewrite fmap_cons. assert (trim e = e) as ->.
  { apply trim_by_id. eapply Forall_impl; [apply He|]. intros c Hc. by apply name_char_plain in Hc as [? _]. }
  rewrite filter_cons_True by apply He. cbn [existsb].
  rewrite orb_true_iff, Exists_cons, bypass_entry_plain, IH by done. done.
Qed.
End Bypass.

(** ** A scripted network *)

Module Network.

(** The clock and the bytes a peer still sends on every socket. *)
Record World : Type := mkWorld { clock : Z; incoming : list Z }.

#[export] Instance world_clock : Clock World :=
  {| now w := (clock w, w); sleep d w := mkWorld (clock w + d) (incoming w);
     instant_max := 2 ^ 63 * SECOND |}.

#[export] Instance env : ProxyEnv World :=
  {| proxy_clock := world_clock;
     connect_timeout a _ w := (Some a, w);
     set_nodelay _ w := (true, w);
     try_clone _ w := (true, w);
     set_timeouts _ _ w := (true, w);
     shutdown _ w := w;
     spawn_watchdog _ _ w := (true, w);
     join_watchdog w := (true, w);
     tls_connector w := (true, w);
     tls_connect _ s w := (Ok s, w);
     write_all _ _ w := (true, w);
     read_byte _ w := match incoming w with
                      | b :: rest => (Some b, mkWorld (clock w) rest)
                      | [] => (None, w)
                      end;
     valid_header _ := true;
     base64_encode b := b;
     client_tls r s w := (Ok (s, requested_protocol r), w);
     valid_request _ := true |}.

#[export] Instance laws : StreamLaws World (λ _, incoming).
Proof.
  constructor; try done. intros s [c [|b' i]] b w' [= <- <-]; reflexivity.
Qed.

(** Only [proxy.example:8080] resolves ([known]), or nothing else does. *)
Definition names (others : option ResolveOutcome) : Resolver World :=
  {| to_socket_addrs a _ w :=
       (if bool_decide (a = lit "proxy.example:8080") then Some (Resolved [7]) else others, w) |}.

Definition response : list Z := lit "HTTP/1.1 200 OK" ++ CRLFCRLF.
Definition start : World := mkWorld 0 (response ++ lit "TLS").
Definition proxy : Sample.Url := Sample.mkUrl (lit "http") (lit "proxy.example") 8080 [] None.

End Network.

Import Sample Network.

Lemma establish_tunnel_reads_headers_only_witness :
  establish_tunnel 7 (lit "relay.example:443") Network.proxy SECOND Network.start
  = (Ok (), Network.mkWorld 0 (lit "TLS")) ∧
  ∃ response status,
    Network.incoming Network.start = response ++ lit "TLS" ∧ status_of response = Some status
    ∧ 200 ≤ status ≤ 299.
Proof.
  assert (establish_tunnel 7 (lit "relay.example:443") Network.proxy SECOND Network.start
          = (Ok (), Network.mkWorld 0 (lit "TLS"))) as Hok by (vm_compute; reflexivity).
  split; [exact Hok|].
  destruct (proj2 (establish_tunnel_reads_headers_only (λ _, Network.incoming) 7
    (lit "relay.example:443") Network.proxy SECOND Network.start) _ Hok)
    as (response & status & Hu & _ & _ & _ & Hs).
  exists response, status. exact (conj Hu Hs).
Defined.

Lemma explicit_proxy_is_the_only_dial_witness :
  let R1 := Network.names (Some (Resolved [9])) in
  let R2 := Network.names None in
  @connect _ _ R1 Sample.Url _ (λ _, None) (lit "wss://relay.example") (Some (lit "http://proxy.example:8080"))
    None None SECOND Network.start
  = @connect _ _ R2 Sample.Url _ (λ _, None) (lit "wss://relay.example") (Some (lit "http://proxy.example:8080"))
    None None SECOND Network.start
  ∧ (@connect _ _ R2 Sample.Url _ (λ _, None) (lit "wss://relay.example") (Some (lit "http://proxy.example:8080"))
    None None SECOND Network.start).1 = Ok 7.
Proof.
  split; [|vm_compute; reflexivity].
  apply (explicit_proxy_is_the_only_dial _ _ _ _ _ Network.proxy (lit "proxy.example:8080"));
    [vm_compute; reflexivity|vm_compute; reflexivity|].
  intros d w. reflexivity.
Defined.

Lemma bypass_proxy_domains_witness :
  bypass_proxy (Sample.mkUrl (lit "wss") (lit "A.example.com") 443 [] None)
    (join (lit ",") [lit "other.net"; lit ".example.com"]) = true ∧
  bypass_proxy (Sample.mkUrl (lit "wss") (lit "badexample.com") 443 [] None)
    (join (lit ",") [lit "other.net"; lit ".example.com"]) = false ∧
  Exists (λ e, in_domain (lit "A.example.com") (trim_start_by (λ c, c =? chr ".") e))
    [lit "other.net"; lit ".example.com"].
Proof.
  split; [reflexivity|]. split; [reflexivity|].
  apply (bypass_proxy_domains (Sample.mkUrl (lit "wss") (lit "A.example.com") 443 [] None)
           (lit "A.example.com") [lit "other.net"; lit ".example.com"]);
    [reflexivity|repeat constructor|done| |reflexivity].
  repeat constructor; done.
Defined.
