(* ===== verification/Config.v ===== *)
(** * Route configuration: [relay/src/configuration.rs]

    The typed configuration of one Relay route, its validation, its builders, and
    the conversion to and from Core's node configuration.  A [Duration] is a number
    of nanoseconds.  The [url] crate, [ConnectorSecret], Core's projection and
    [serde_json] are interfaces ([Extern], [WireJson]). [validate_bus] is from
    [relay/src/frame_publisher.rs]. *)

From S2P Require Import Prelude Env Text Extern Errors Proxy.

Definition MAX_ICE_SERVERS : nat := 16.
Definition MAX_ICE_SERVER_URLS : nat := 8.
Definition DEFAULT_STARTUP_TIMEOUT_MS : Z := 30000.
Definition MAX_STARTUP_TIMEOUT_MS : Z := 120000.
Definition BUS_MAX_LEN : nat := 64.

Definition RELAY_URL_KEY : string := "relay_url".
Definition RELAY_SESSION_ID_KEY : string := "relay_session_id".
Definition SOURCE_TOKEN_KEY : string := "source_token".
Definition BUS_ID_KEY : string := "bus_id".
Definition PUBLISHER_GROUP_ID_KEY : string := "publisher_group_id".
Definition LATENCY_PROFILE_KEY : string := "latency_profile".
Definition ICE_SERVERS_KEY : string := "ice_servers".
Definition STARTUP_TIMEOUT_MS_KEY : string := "startup_timeout_ms".
Definition TRANSPORT_KEY : string := "transport".
Definition HTTP_PROXY_KEY : string := "http_proxy".

Inductive RelayConfigurationError : Type :=
| InvalidTransport
| InsecureIngress
| InvalidProxy
| InvalidRelayUrl
| InvalidIdentity
| InvalidBusId
| InvalidLatencyProfile
| InvalidStartupTimeout
| InvalidIceServerCount
| InvalidIceServerUrl
| InvalidIceCredential
| InvalidIceServerEncoding
| MissingField (key : string)
| SecretNotSensitive (key : string)
| ConfigurationRejected (e : ConnectorConfigurationError).

(** ** Enumerations with a textual form *)

Inductive RelayPublicationTransport : Type := WebRtc | WebSocket.

#[export] Instance RelayPublicationTransport_eq_dec : EqDecision RelayPublicationTransport.
Proof. solve_decision. Defined.

Definition transport_as_str (t : RelayPublicationTransport) : text :=
  match t with WebRtc => lit "webrtc" | WebSocket => lit "websocket" end.

Definition transport_parse (value : text)
  : Result RelayConfigurationError RelayPublicationTransport :=
  if bool_decide (value = lit "webrtc") then Ok WebRtc
  else if bool_decide (value = lit "websocket") then Ok WebSocket
  else Err InvalidTransport.

Inductive RelayLatencyProfile : Type := Standard | Low.

#[export] Instance RelayLatencyProfile_eq_dec : EqDecision RelayLatencyProfile.
Proof. solve_decision. Defined.

Definition latency_as_str (p : RelayLatencyProfile) : text :=
  match p with Standard => lit "standard" | Low => lit "low" end.

Definition latency_parse (value : text) : Result RelayConfigurationError RelayLatencyProfile :=
  if bool_decide (value = lit "standard") then Ok Standard
  else if bool_decide (value = lit "low") then Ok Low
  else Err InvalidLatencyProfile.

(** ** STUN servers *)

Record RelayIceServer : Type := mkIceServer { urls : list text }.

#[export] Instance RelayIceServer_eq_dec : EqDecision RelayIceServer.
Proof. solve_decision. Defined.

Definition stun_authority (raw : text) : option text :=
  rest ← strip_prefix (lit "stun:") raw;
  let authority := match strip_prefix (lit "//") rest with Some a => a | None => rest end in
  if bool_decide (authority = []) || existsb (one_of "/?#@") authority
     || negb (bool_decide (trim authority = authority))
  then None else Some authority.

Definition ice_validate (server : RelayIceServer) : Result RelayConfigurationError unit :=
  if bool_decide (urls server = []) || (MAX_ICE_SERVER_URLS <? length (urls server))%nat
  then Err InvalidIceServerCount
  else
    _ ← collect (λ raw, guard_err (bool_decide (stun_authority raw = None)) InvalidIceServerUrl)
          (urls server);
    Ok ().

Definition ice_new (us : list text) : Result RelayConfigurationError RelayIceServer :=
  let server := mkIceServer us in
  _ ← ice_validate server; Ok server.

Definition stun_authorities (server : RelayIceServer) : list text :=
  omap stun_authority (urls server).

(** *** Their encoding as JSON *)

Record WireIceServer : Type := mkWire {
  wire_urls : list text;
  wire_username : option text;
  wire_credential : option text;
}.

(** [serde_json::to_string] and [from_str] at [Vec<WireIceServer>]. *)
Class WireJson : Type := {
  to_json : list WireIceServer → option text;
  from_json : text → option (list WireIceServer);
}.

Class WireJsonLaws `{WireJson} : Prop := {
  from_to_json wire t : to_json wire = Some t → from_json t = Some wire;
}.

Definition encode_ice_servers `{WireJson} (servers : list RelayIceServer)
  : Result RelayConfigurationError text :=
  ok_or InvalidIceServerEncoding (to_json ((λ s, mkWire (urls s) None None) <$> servers)).

Definition decode_ice_servers `{WireJson} (encoded : text)
  : Result RelayConfigurationError (list RelayIceServer) :=
  wire ← ok_or InvalidIceServerEncoding (from_json encoded);
  if (MAX_ICE_SERVERS <? length wire)%nat then Err InvalidIceServerCount else
  collect (λ server,
    if negb (bool_decide (wire_username server = None))
       || negb (bool_decide (wire_credential server = None))
    then Err InvalidIceCredential
    else ice_new (wire_urls server)) wire.

(** ** Bus labels *)

Definition bus_char (c : Z) : bool := is_ascii_alphanumeric c || one_of "._-" c.

Definition validate_bus (bus : text) : Result BoxedError unit :=
  if bool_decide (bus = []) || (BUS_MAX_LEN <? len bus)%nat
  then fail "bus label must be 1-64 characters"
  else if negb (forallb bus_char bus)
  then fail "bus label must contain only letters, digits, '.', '_', or '-'"
  else Ok ().

(** ** The route *)

Record RelayRouteConfiguration (Secret : Type) : Type := mkRoute {
  relay_url : text;
  relay_session_id : text;
  source_token : Secret;
  bus_id : text;
  publisher_group_id : text;
  latency_profile : RelayLatencyProfile;
  ice_servers : list RelayIceServer;
  startup_timeout : Z;
  transport : RelayPublicationTransport;
  http_proxy : option Secret;
}.
Arguments mkRoute {Secret}.
Arguments relay_url {Secret} r.
Arguments relay_session_id {Secret} r.
Arguments source_token {Secret} r.
Arguments bus_id {Secret} r.
Arguments publisher_group_id {Secret} r.
Arguments latency_profile {Secret} r.
Arguments ice_servers {Secret} r.
Arguments startup_timeout {Secret} r.
Arguments transport {Secret} r.
Arguments http_proxy {Secret} r.

Section Route.
Context {Secret Url : Type} `{SecretLib Secret, UrlLib Url, WireJson}.
Local Abbreviation Route := (RelayRouteConfiguration Secret).
Local Abbreviation result := (Result RelayConfigurationError).

Definition is_loopback (h : option Host) : bool :=
  match h with
  | Some (Ipv4 a) => ipv4_is_loopback a
  | Some (Ipv6 a) => ipv6_is_loopback a
  | Some (Domain d) => eq_ignore_ascii_case d (lit "localhost")
  | None => false
  end.

(** [Duration::as_millis] *)
Definition as_millis (d : Z) : Z := d / MILLISECOND.

Definition check_relay_url (relay : Url) : bool :=
  negb (bool_decide (scheme relay = lit "http" ∨ scheme relay = lit "https"))
  || bool_decide (host_str relay = None)
  || cannot_be_a_base relay
  || negb (bool_decide (path relay = [] ∨ path relay = lit "/"))
  || negb (bool_decide (query relay = None))
  || negb (bool_decide (fragment relay = None))
  || negb (bool_decide (username relay = []))
  || negb (bool_decide (password relay = None)).

Definition validate_proxy (proxy : option Secret) : result unit :=
  match proxy with
  | Some p => _ ← map_err (λ _, InvalidProxy) (checked_proxy (Url := Url) (expose_secret p)); Ok ()
  | None => Ok ()
  end.

Definition validate (c : Route) : result unit :=
  relay ← ok_or InvalidRelayUrl (url_parse (Url := Url) (relay_url c));
  _ ← guard_err (check_relay_url relay) InvalidRelayUrl;
  _ ← guard_err (bool_decide (transport c = WebSocket)
                 && negb (bool_decide (scheme relay = lit "https"))
                 && negb (is_loopback (host relay))) InsecureIngress;
  _ ← validate_proxy (http_proxy c);
  _ ← guard_err (bool_decide (trim (relay_session_id c) = [])
                 || bool_decide (trim (publisher_group_id c) = [])
                 || (256 <? len (publisher_group_id c))%nat) InvalidIdentity;
  _ ← map_err (λ _, InvalidBusId) (validate_bus (bus_id c));
  _ ← guard_err (MAX_ICE_SERVERS <? length (ice_servers c))%nat InvalidIceServerCount;
  _ ← collect ice_validate (ice_servers c);
  guard_err ((as_millis (startup_timeout c) =? 0)
             || (MAX_STARTUP_TIMEOUT_MS <? as_millis (startup_timeout c))) InvalidStartupTimeout.

Definition validated (c : Route) : result Route := _ ← validate c; Ok c.

(** *** Construction *)

Definition new (url session : text) (token : Secret) (bus : text) : result Route :=
  validated {| relay_url := url; relay_session_id := session; source_token := token;
               bus_id := bus; publisher_group_id := session; latency_profile := Standard;
               ice_servers := []; startup_timeout := DEFAULT_STARTUP_TIMEOUT_MS * MILLISECOND;
               transport := WebRtc; http_proxy := None |}.

Definition with_publisher_group (group : text) (c : Route) : result Route :=
  validated (mkRoute (relay_url c) (relay_session_id c) (source_token c) (bus_id c) group
    (latency_profile c) (ice_servers c) (startup_timeout c) (transport c) (http_proxy c)).

Definition with_ice_servers (servers : list RelayIceServer) (c : Route) : result Route :=
  validated (mkRoute (relay_url c) (relay_session_id c) (source_token c) (bus_id c)
    (publisher_group_id c) (latency_profile c) servers (startup_timeout c) (transport c)
    (http_proxy c)).

Definition with_websocket_ingress (c : Route) : result Route :=
  validated (mkRoute (relay_url c) (relay_session_id c) (source_token c) (bus_id c)
    (publisher_group_id c) (latency_profile c) (ice_servers c) (startup_timeout c) WebSocket
    (http_proxy c)).

Definition with_http_proxy (proxy : Secret) (c : Route) : result Route :=
  _ ← map_err (λ _, InvalidProxy) (checked_proxy (Url := Url) (expose_secret proxy));
  validated (mkRoute (relay_url c) (relay_session_id c) (source_token c) (bus_id c)
    (publisher_group_id c) (latency_profile c) (ice_servers c) (startup_timeout c) (transport c)
    (Some proxy)).

Definition with_low_latency (c : Route) : Route :=
  mkRoute (relay_url c) (relay_session_id c) (source_token c) (bus_id c)
    (publisher_group_id c) Low (ice_servers c) (startup_timeout c) (transport c) (http_proxy c).

Definition with_startup_timeout (timeout : Z) (c : Route) : result Route :=
  validated (mkRoute (relay_url c) (relay_session_id c) (source_token c) (bus_id c)
    (publisher_group_id c) (latency_profile c) (ice_servers c) timeout (transport c)
    (http_proxy c)).

(** Equal up to bus and latency profile: the routes one publisher may carry. *)
Definition same_publisher (c d : Route) : bool :=
  bool_decide (relay_url c = relay_url d)
  && bool_decide (relay_session_id c = relay_session_id d)
  && bool_decide (source_token c = source_token d)
  && bool_decide (publisher_group_id c = publisher_group_id d)
  && bool_decide (ice_servers c = ice_servers d)
  && (startup_timeout c =? startup_timeout d)
  && bool_decide (transport c = transport d)
  && bool_decide (http_proxy c = http_proxy d).

(** *** To and from Core *)

Definition connector_configuration (c : Route) : result (ConnectorConfiguration Secret) :=
  _ ← validate c;
  timeout ← ok_or InvalidStartupTimeout
              (let ms := as_millis (startup_timeout c) in
               if ms <=? U64_MAX then Some ms else None);
  let configuration : ConnectorConfiguration Secret :=
    <[TRANSPORT_KEY := Text (transport_as_str (transport c))]>
    (<[STARTUP_TIMEOUT_MS_KEY := DurationMilliseconds timeout]>
    (<[LATENCY_PROFILE_KEY := Text (latency_as_str (latency_profile c))]>
    (<[PUBLISHER_GROUP_ID_KEY := Text (publisher_group_id c)]>
    (<[BUS_ID_KEY := Text (bus_id c)]>
    (<[SOURCE_TOKEN_KEY := SecretValue (source_token c)]>
    (<[RELAY_SESSION_ID_KEY := Text (relay_session_id c)]>
    (<[RELAY_URL_KEY := Text (relay_url c)]> ∅))))))) in
  let configuration := match http_proxy c with
                       | Some proxy => <[HTTP_PROXY_KEY := SecretValue proxy]> configuration
                       | None => configuration
                       end in
  if bool_decide (ice_servers c = []) then Ok configuration else
  encoded ← encode_ice_servers (ice_servers c);
  secret ← map_err ConfigurationRejected (secret_new encoded);
  Ok (<[ICE_SERVERS_KEY := SecretValue secret]> configuration).

Definition required (configuration : NodeConfig) (key : string) : result text :=
  ok_or (MissingField key)
    (value ← node_get configuration key;
     if bool_decide (trim value = []) then None else Some value).

Definition required_sensitive (configuration : NodeConfig) (key : string) : result text :=
  value ← required configuration key;
  if is_sensitive configuration key then Ok value else Err (SecretNotSensitive key).

Definition wrap_secret (t : text) : result Secret :=
  map_err ConfigurationRejected (secret_new t).

Definition proxy_of (configuration : NodeConfig) : result (option Secret) :=
  match node_get configuration HTTP_PROXY_KEY with
  | None => Ok None
  | Some _ =>
      value ← required_sensitive configuration HTTP_PROXY_KEY;
      Some <$> wrap_secret value
  end.

Definition from_node_config (configuration : NodeConfig) : result Route :=
  token ← required_sensitive configuration SOURCE_TOKEN_KEY;
  timeout_ms ← ok_or InvalidStartupTimeout
    (parse_unsigned U64_MAX (default (lit "30000") (node_get configuration STARTUP_TIMEOUT_MS_KEY)));
  servers ← match node_get configuration ICE_SERVERS_KEY with
            | Some encoded => decode_ice_servers encoded
            | None => Ok []
            end;
  url ← required configuration RELAY_URL_KEY;
  session ← required configuration RELAY_SESSION_ID_KEY;
  secret ← wrap_secret token;
  bus ← required configuration BUS_ID_KEY;
  group ← required configuration PUBLISHER_GROUP_ID_KEY;
  profile ← latency_parse (default (lit "standard") (node_get configuration LATENCY_PROFILE_KEY));
  media ← transport_parse (default (lit "webrtc") (node_get configuration TRANSPORT_KEY));
  proxy ← proxy_of configuration;
  validated {| relay_url := url; relay_session_id := session; source_token := secret;
               bus_id := bus; publisher_group_id := group; latency_profile := profile;
               ice_servers := servers; startup_timeout := timeout_ms * MILLISECOND;
               transport := media; http_proxy := proxy |}.
End Route.

(** ** What validation establishes *)

Section Contract.
Context {Secret Url : Type} `{SecretLib Secret, UrlLib Url, WireJson}.
Local Abbreviation Route := (RelayRouteConfiguration Secret).

(** The contract every consumer of a route relies on. *)
Definition ice_contract (s : RelayIceServer) : Prop :=
  (1 ≤ length (urls s) ≤ MAX_ICE_SERVER_URLS)%nat ∧
  Forall (λ u, ∃ a, stun_authority u = Some a) (urls s).

(** The source capability only travels encrypted or stays on this host. *)
Definition confidential (t : RelayPublicationTransport) (relay : Url) : Prop :=
  t = WebSocket → scheme relay = lit "https" ∨ is_loopback (host relay) = true.

Definition route_contract (c : Route) : Prop :=
  (∃ relay : Url, url_parse (relay_url c) = Some relay ∧ check_relay_url relay = false
     ∧ confidential (transport c) relay) ∧
  (∀ p, http_proxy c = Some p → ∃ u : Url, checked_proxy (expose_secret p) = Ok u) ∧
  trim (relay_session_id c) ≠ [] ∧ trim (publisher_group_id c) ≠ [] ∧
  (len (publisher_group_id c) ≤ 256)%nat ∧
  bus_id c ≠ [] ∧ (len (bus_id c) ≤ BUS_MAX_LEN)%nat ∧
  Forall (λ ch, bus_char ch = true) (bus_id c) ∧
  (length (ice_servers c) ≤ MAX_ICE_SERVERS)%nat ∧ Forall ice_contract (ice_servers c) ∧
  as_millis (startup_timeout c) ≠ 0 ∧ as_millis (startup_timeout c) ≤ MAX_STARTUP_TIMEOUT_MS.

Lemma ice_validate_Ok s u : ice_validate s = Ok u → ice_contract s.
Proof.
  unfold ice_validate, ice_contract. case_match eqn:E; [done|]. bool_props.
  intros (us & Hu & _)%bind_Ok. apply collect_Ok in Hu.
  split.
  - split; [|done]. destruct (urls s); [done|cbn; lia].
  - clear -Hu. induction Hu as [|raw ? l us Hr _ IH]; constructor; [|done].
    apply guard_err_Ok in Hr as [Hr _]. destruct (stun_authority raw); [by eexists|done].
Qed.

Lemma validate_bus_Ok bus u :
  validate_bus bus = Ok u →
  bus ≠ [] ∧ (len bus ≤ BUS_MAX_LEN)%nat ∧ Forall (λ ch, bus_char ch = true) bus.
Proof.
  unfold validate_bus. case_match eqn:E; [done|]. case_match eqn:E'; [done|]. intros _.
  bool_props. repeat split; try done.
  apply Forall_forall. intros ch Hch. rewrite forallb_forall in E'. apply E'.
  by apply list_elem_of_In.
Qed.

Lemma map_err_Ok {E E' A} (f : E → E') (m : Result E A) a : map_err f m = Ok a ↔ m = Ok a.
Proof. destruct m; cbn; split; congruence. Qed.

Lemma ok_or_Ok {E A} (e : E) (o : option A) a : ok_or e o = Ok a ↔ o = Some a.
Proof. destruct o; cbn; split; congruence. Qed.

Lemma validate_Ok (c : Route) u : validate (Url := Url) c = Ok u → route_contract c.
Proof.
  unfold validate. intros (relay & Hrelay & Hv)%bind_Ok. apply ok_or_Ok in Hrelay.
  apply bind_Ok in Hv as (? & [Horigin _]%guard_err_Ok & Hv).
  apply bind_Ok in Hv as (? & [Hsecure _]%guard_err_Ok & Hv).
  apply bind_Ok in Hv as ([] & Hproxy & Hv).
  apply bind_Ok in Hv as (? & [Hid _]%guard_err_Ok & Hv).
  apply bind_Ok in Hv as (? & Hbus%map_err_Ok%validate_bus_Ok & Hv).
  apply bind_Ok in Hv as (? & [Hice _]%guard_err_Ok & Hv).
  apply bind_Ok in Hv as (us & Hservers%collect_Ok & [Htimeout _]%guard_err_Ok).
  bool_props. destruct Hbus as (Hb1 & Hb2 & Hb3).
  unfold route_contract. split.
  { exists relay. repeat split; try done. intros Hws. rewrite Hws in Hsecure.
    apply andb_false_iff in Hsecure as [Hs|Hs]; [left|right; by apply negb_false_iff in Hs].
    rewrite (bool_decide_eq_true_2 (WebSocket = WebSocket)) in Hs by done. cbn in Hs.
    by bool_props. }
  repeat split; try done.
  - intros p Hp. rewrite Hp in Hproxy. cbn in Hproxy.
    apply bind_Ok in Hproxy as (u' & Hu%map_err_Ok & _). by exists u'.
  - clear -Hservers. induction Hservers; constructor; [by eapply ice_validate_Ok|done].
Qed.

Lemma validate_servers (c : Route) u :
  validate (Url := Url) c = Ok u → ∃ us, collect ice_validate (ice_servers c) = Ok us.
Proof.
  unfold validate. intros Hv. do 7 apply bind_Ok in Hv as (? & _ & Hv).
  apply bind_Ok in Hv as (us & Hus & _). by exists us.
Qed.

(** Validation reads neither the latency profile nor the part of the startup deadline
    below a millisecond. *)
Lemma validate_ext (c d : Route) :
  relay_url c = relay_url d → relay_session_id c = relay_session_id d →
  bus_id c = bus_id d → publisher_group_id c = publisher_group_id d →
  ice_servers c = ice_servers d →
  as_millis (startup_timeout c) = as_millis (startup_timeout d) →
  transport c = transport d → http_proxy c = http_proxy d →
  validate (Url := Url) c = validate (Url := Url) d.
Proof. intros E1 E2 E3 E4 E5 E6 E7 E8. unfold validate. by rewrite E1, E2, E3, E4, E5, E6, E7, E8. Qed.

Lemma validated_Ok (c d : Route) :
  validated (Url := Url) c = Ok d → c = d ∧ validate (Url := Url) d = Ok ().
Proof. unfold validated. intros ([] & Hv & [= <-])%bind_Ok. done. Qed.

Lemma from_node_config_Ok n (c : Route) :
  from_node_config (Url := Url) n = Ok c → validate (Url := Url) c = Ok ().
Proof.
  unfold from_node_config. intros Hc.
  do 11 (apply bind_Ok in Hc as (? & _ & Hc)). by apply validated_Ok in Hc as [_ ?].
Qed.

(** The routes the public API can produce. *)
Inductive reachable : Route → Prop :=
| reach_new url session token bus c :
    new (Url := Url) url session token bus = Ok c → reachable c
| reach_node n c : from_node_config (Url := Url) n = Ok c → reachable c
| reach_group g c d :
    reachable c → with_publisher_group (Url := Url) g c = Ok d → reachable d
| reach_ice s c d : reachable c → with_ice_servers (Url := Url) s c = Ok d → reachable d
| reach_ws c d : reachable c → with_websocket_ingress (Url := Url) c = Ok d → reachable d
| reach_proxy p c d : reachable c → with_http_proxy (Url := Url) p c = Ok d → reachable d
| reach_low c : reachable c → reachable (with_low_latency c)
| reach_timeout t c d :
    reachable c → with_startup_timeout (Url := Url) t c = Ok d → reachable d.

(** C32: Every route the API can produce, by any sequence of builders or from a node
    configuration, keeps its contract: the URL is a bare HTTP(S) origin without
    credentials; a WebSocket route, which sends the source capability in its request,
    uses HTTPS unless the Relay is on the loopback; a proxy is an HTTP(S) origin; bus,
    group and server lists respect their bounds; the Session identity is not blank; the
    deadline is finite and not zero. *)
Theorem reachable_route_contract (c : Route) (Hc : reachable c) : route_contract c.
Proof.
  assert (validate (Url := Url) c = Ok ()) as Hv; [|by eapply validate_Ok].
  induction Hc as [url session token bus c H'|n c H'|g c d _ _ H'|s c d _ _ H'|c d _ _ H'
                  |p c d _ _ H'|c _ IH|t c d _ _ H'];
    try (by apply validated_Ok in H' as [_ ?]).
  - by eapply from_node_config_Ok.
  - unfold with_http_proxy in H'. apply bind_Ok in H' as (? & _ & H').
    by apply validated_Ok in H' as [_ ?].
  - rewrite <- IH. by apply validate_ext.
Qed.
End Contract.

(** ** The round trip through Core *)

Section RoundTrip.
Context {Secret Url : Type} `{SecretLib Secret, UrlLib Url, WireJson}.
Context `{!SecretLaws Secret, !UrlLaws Url, !WireJsonLaws} `{!Projection Secret} `{!ProjectionLaws Secret}.
Local Abbreviation Route := (RelayRouteConfiguration Secret).

(** A route with its deadline cut to whole milliseconds, the wire format's unit. *)
Definition whole_milliseconds (c : Route) : Route :=
  mkRoute (relay_url c) (relay_session_id c) (source_token c) (bus_id c)
    (publisher_group_id c) (latency_profile c) (ice_servers c)
    (as_millis (startup_timeout c) * MILLISECOND) (transport c) (http_proxy c).

Lemma required_text conf key t :
  conf !! key = Some (Text t) → trim t ≠ [] → required (project conf) key = Ok t.
Proof.
  intros Hk Ht. unfold required. rewrite (project_text _ _ _ Hk). cbn.
  by rewrite bool_decide_eq_false_2.
Qed.

Lemma required_secret conf key s :
  conf !! key = Some (SecretValue s) → trim (expose_secret s) ≠ [] →
  required_sensitive (project conf) key = Ok (expose_secret s).
Proof.
  intros Hk Ht. destruct (project_secret _ _ _ Hk) as [Hg Hs].
  unfold required_sensitive, required. rewrite Hg. cbn.
  rewrite bool_decide_eq_false_2 by done. cbn. by rewrite Hs.
Qed.

Lemma required_secret_blank conf key s :
  conf !! key = Some (SecretValue s) → trim (expose_secret s) = [] →
  required_sensitive (project conf) key = Err (MissingField key).
Proof.
  intros Hk Ht. destruct (project_secret _ _ _ Hk) as [Hg _].
  unfold required_sensitive, required. rewrite Hg. cbn. by rewrite bool_decide_eq_true_2.
Qed.

Lemma decode_wire_servers servers : ∀ us,
  collect ice_validate servers = Ok us →
  collect (λ server,
    if negb (bool_decide (wire_username server = None))
       || negb (bool_decide (wire_credential server = None))
    then Err InvalidIceCredential
    else ice_new (wire_urls server)) ((λ s, mkWire (urls s) None None) <$> servers) = Ok servers.
Proof.
  induction servers as [|s l IH]; intros us Hus; [done|].
  apply bind_Ok in Hus as (u & Hs & (vs & Hvs & _)%bind_Ok).
  rewrite fmap_cons. cbn [collect wire_username wire_credential wire_urls].
  rewrite bool_decide_eq_true_2 by done. cbn [negb orb]. rewrite (IH vs Hvs).
  unfold ice_new. replace (mkIceServer (urls s)) with s by by destruct s. by rewrite Hs.
Qed.

Lemma decode_encode_ice servers us t :
  (length servers ≤ MAX_ICE_SERVERS)%nat → collect ice_validate servers = Ok us →
  encode_ice_servers servers = Ok t → decode_ice_servers t = Ok servers.
Proof.
  intros Hl Hv He. unfold encode_ice_servers in He. apply ok_or_Ok, from_to_json in He.
  unfold decode_ice_servers. rewrite He. cbn [ok_or mbind Result_bind]. rewrite length_fmap.
  destruct (Nat.ltb_spec MAX_ICE_SERVERS (length servers)); [lia|].
  by eapply decode_wire_servers.
Qed.

Lemma latency_parse_as_str p : latency_parse (latency_as_str p) = Ok p.
Proof. by destruct p. Qed.

Lemma transport_parse_as_str t : transport_parse (transport_as_str t) = Ok t.
Proof. by destruct t. Qed.

Lemma wrap_expose (s : Secret) : wrap_secret (expose_secret s) = Ok s.
Proof. unfold wrap_secret. by rewrite secret_expose_new. Qed.

Lemma bus_nonblank bus : bus ≠ [] → Forall (λ ch, bus_char ch = true) bus → trim bus ≠ [].
Proof.
  intros Hne Hb Ht. apply trim_nil in Ht.
  destruct bus as [|c bus]; [done|]. inversion Ht as [|? ? Hw _]; inversion Hb as [|? ? H8 _]; subst.
  assert (45 ≤ c ≤ 122) as Hc; [|assert (is_whitespace c = false); [|congruence]].
  - clear -H8. unfold bus_char, is_ascii_alphanumeric, is_ascii_digit, is_ascii_upper,
      is_ascii_lower, one_of in H8.
    repeat (apply orb_prop in H8 as [H8|H8]); bool_props; try lia.
    change (lit "._-") with [46; 95; 45] in H8. set_unfold in H8. lia.
  - unfold is_whitespace. repeat (apply orb_false_intro); try (apply Z.eqb_neq; lia);
      apply andb_false_iff; rewrite !Z.leb_gt; lia.
Qed.

Lemma proxy_nonblank p (u : Url) : checked_proxy p = Ok u → trim p ≠ [].
Proof. unfold checked_proxy. intros Hp Ht. by rewrite (url_parse_blank _ Ht) in Hp. Qed.

(** What Core receives, key by key. *)
Ltac lookup_keys :=
  repeat first [rewrite lookup_insert_eq
               |rewrite lookup_insert_ne by (apply (bool_decide_unpack _); vm_compute; exact I)];
  try apply lookup_empty; try reflexivity.

Record carried (c : Route) (conf : ConnectorConfiguration Secret) : Prop := {
  c_url : conf !! RELAY_URL_KEY = Some (Text (relay_url c));
  c_session : conf !! RELAY_SESSION_ID_KEY = Some (Text (relay_session_id c));
  c_token : conf !! SOURCE_TOKEN_KEY = Some (SecretValue (source_token c));
  c_bus : conf !! BUS_ID_KEY = Some (Text (bus_id c));
  c_group : conf !! PUBLISHER_GROUP_ID_KEY = Some (Text (publisher_group_id c));
  c_latency : conf !! LATENCY_PROFILE_KEY = Some (Text (latency_as_str (latency_profile c)));
  c_timeout :
    conf !! STARTUP_TIMEOUT_MS_KEY = Some (DurationMilliseconds (as_millis (startup_timeout c)));
  c_transport : conf !! TRANSPORT_KEY = Some (Text (transport_as_str (transport c)));
  c_proxy : conf !! HTTP_PROXY_KEY = SecretValue <$> http_proxy c;
  c_ice : ice_servers c = [] ∧ conf !! ICE_SERVERS_KEY = None ∨
          ∃ t s, encode_ice_servers (ice_servers c) = Ok t ∧ secret_new t = Ok s
                 ∧ conf !! ICE_SERVERS_KEY = Some (SecretValue s);
}.

Lemma connector_configuration_carries c conf :
  connector_configuration (Url := Url) c = Ok conf →
  validate (Url := Url) c = Ok () ∧ as_millis (startup_timeout c) ≤ U64_MAX ∧ carried c conf.
Proof.
  unfold connector_configuration. intros ([] & Hv & Hc)%bind_Ok.
  apply bind_Ok in Hc as (ms & Hms%ok_or_Ok & Hc). cbv zeta in Hms.
  destruct (Z.leb_spec (as_millis (startup_timeout c)) U64_MAX) as [Hle|]; [|done].
  injection Hms as <-. split; [done|]. split; [done|]. cbv zeta in Hc.
  destruct (bool_decide (ice_servers c = [])) eqn:Eice.
  - injection Hc as <-. bool_props. destruct (http_proxy c) eqn:Ep; constructor; rewrite ?Ep; lookup_keys;
      left; (split; [done|]); lookup_keys.
  - apply bind_Ok in Hc as (t & Ht & (s & Hs%map_err_Ok & [= <-])%bind_Ok).
    destruct (http_proxy c) eqn:Ep; constructor; rewrite ?Ep; lookup_keys;
      right; exists t, s; repeat split; try done; lookup_keys.
Qed.

(** C12: A route survives the trip through Core: whenever a route is turned into a connector
    configuration, the node configuration Core projects from it parses back to the same
    route, the deadline cut to whole milliseconds; unless its source token is blank, which
    the validation does not look at: then the parser misses the field. *)
Theorem connector_configuration_roundtrip (c : Route) conf
  (Hc : connector_configuration (Url := Url) c = Ok conf) (Htime : 0 ≤ startup_timeout c) :
  from_node_config (Url := Url) (project conf)
  = if decide (trim (expose_secret (source_token c)) = []) then Err (MissingField SOURCE_TOKEN_KEY)
    else Ok (whole_milliseconds c).
Proof.
  destruct (connector_configuration_carries c conf Hc) as (Hv & Hms & K).
  pose proof (validate_Ok c () Hv) as
    ((relay & Hrelay & _) & Hproxy & Hsession & Hgroup & _ & Hb1 & _ & Hb2 & Hservers & _).
  assert (trim (relay_url c) ≠ []) as Hurl
    by (intros Hb; rewrite (url_parse_blank _ Hb) in Hrelay; done).
  assert (0 ≤ as_millis (startup_timeout c)) by (apply Z.div_pos; unfold MILLISECOND; lia).
  unfold from_node_config, validated. destruct (decide _) as [Hblank|Htoken].
  { by rewrite (required_secret_blank conf SOURCE_TOKEN_KEY (source_token c)) by (apply (c_token _ _ K) || done). }
  rewrite (required_secret conf SOURCE_TOKEN_KEY (source_token c)) by (apply (c_token _ _ K) || done).
  rewrite (project_duration conf STARTUP_TIMEOUT_MS_KEY (as_millis (startup_timeout c))) by apply (c_timeout _ _ K). cbn [default from_option id].
  rewrite parse_unsigned_decimal by done. cbn [ok_or mbind Result_bind].
  assert (match node_get (project conf) ICE_SERVERS_KEY with
          | Some encoded => decode_ice_servers encoded
          | None => Ok []
          end = Ok (ice_servers c)) as ->.
  { destruct (validate_servers c () Hv) as [us Hus]. destruct (c_ice _ _ K) as [[-> Hk]|(t & s & Ht & Hs & Hk)].
    - by rewrite (project_absent _ _ Hk).
    - destruct (project_secret _ _ _ Hk) as [-> _]. rewrite (secret_new_expose _ _ Hs).
      by eapply decode_encode_ice. }
  rewrite (required_text conf RELAY_URL_KEY (relay_url c)) by (apply (c_url _ _ K) || done).
  rewrite (required_text conf RELAY_SESSION_ID_KEY (relay_session_id c)) by (apply (c_session _ _ K) || done).
  rewrite (required_text conf BUS_ID_KEY (bus_id c)) by (apply (c_bus _ _ K) || by apply bus_nonblank).
  rewrite (required_text conf PUBLISHER_GROUP_ID_KEY (publisher_group_id c)) by (apply (c_group _ _ K) || done).
  rewrite wrap_expose.
  rewrite (project_text conf LATENCY_PROFILE_KEY (latency_as_str (latency_profile c))) by apply (c_latency _ _ K).
  rewrite (project_text conf TRANSPORT_KEY (transport_as_str (transport c))) by apply (c_transport _ _ K). cbn [default from_option id].
  rewrite latency_parse_as_str, transport_parse_as_str.
  assert (proxy_of (project conf) = Ok (http_proxy c)) as ->.
  { pose proof (c_proxy _ _ K) as Hk. unfold proxy_of. destruct (http_proxy c) as [p|]; cbn in Hk.
    - destruct (Hproxy p eq_refl) as [u Hu]. destruct (project_secret _ _ _ Hk) as [-> _].
      rewrite (required_secret conf _ p) by (done || eapply proxy_nonblank, Hu).
      cbn [mbind Result_bind]. by rewrite wrap_expose.
    - by rewrite (project_absent _ _ Hk). }
  cbn [mbind Result_bind]. change (mkRoute _ _ _ _ _ _ _ _ _ _) with (whole_milliseconds c).
  rewrite <- (validate_ext c), Hv; try done. cbn. unfold as_millis.
  by rewrite Z.div_mul by done.
Qed.
End RoundTrip.

(** ** Secrets stay secret *)

Section Sensitive.
Context {Secret Url : Type} `{SecretLib Secret, UrlLib Url, WireJson, !SecretLaws Secret}.

Lemma required_sensitive_Ok n key t :
  required_sensitive n key = Ok t → node_get n key = Some t ∧ is_sensitive n key = true.
Proof.
  unfold required_sensitive, required. intros (v & Hv%ok_or_Ok & Hs)%bind_Ok.
  destruct (is_sensitive n key); [|done]. injection Hs as <-. split; [|done].
  destruct (node_get n key) as [v'|]; [|done]. cbn in Hv. by case_match; simplify_eq.
Qed.

Lemma wrap_secret_Ok t (s : Secret) : wrap_secret t = Ok s → expose_secret s = t.
Proof. unfold wrap_secret. intros Hs%map_err_Ok. by apply secret_new_expose. Qed.

(** C36: A node configuration is accepted only if Core marked the source token and a
    present proxy as sensitive; both arrive unchanged, and a proxy the node configures is
    never ignored. *)
Theorem from_node_config_secrets (n : NodeConfig) (c : RelayRouteConfiguration Secret)
  (Hc : from_node_config (Url := Url) n = Ok c) :
  node_get n SOURCE_TOKEN_KEY = Some (expose_secret (source_token c)) ∧
  is_sensitive n SOURCE_TOKEN_KEY = true ∧
  node_get n HTTP_PROXY_KEY = expose_secret <$> http_proxy c ∧
  (http_proxy c ≠ None → is_sensitive n HTTP_PROXY_KEY = true).
Proof.
  unfold from_node_config in Hc.
  apply bind_Ok in Hc as (token & [Ht Hts]%required_sensitive_Ok & Hc).
  do 4 apply bind_Ok in Hc as (? & _ & Hc).
  apply bind_Ok in Hc as (secret & Hs%wrap_secret_Ok & Hc).
  do 4 apply bind_Ok in Hc as (? & _ & Hc).
  apply bind_Ok in Hc as (proxy & Hp & Hc). apply validated_Ok in Hc as [<- _]. cbn.
  rewrite Hs. split; [done|]. split; [done|].
  unfold proxy_of in Hp. destruct (node_get n HTTP_PROXY_KEY) as [v|] eqn:Eg.
  - apply bind_Ok in Hp as (p & [Hg Hps]%required_sensitive_Ok & Hp).
    destruct (wrap_secret p) as [s|] eqn:Ew; [|done]. injection Hp as <-.
    apply wrap_secret_Ok in Ew. cbn. split; [congruence|done].
  - injection Hp as <-. done.
Qed.
End Sensitive.

(** ** A sample route *)

Module Example_route.
Import Sample.

(** A document format for the list of one server with one URL; serialization of
    anything else fails. *)
#[export] Instance json : WireJson :=
  {| to_json wire := match wire with [mkWire [u] None None] => Some u | _ => None end;
     from_json t := Some [mkWire [t] None None] |}.
#[export] Instance json_laws : WireJsonLaws.
Proof.
  constructor. intros wire t Ht. cbn in *. repeat case_match; simplify_eq; done.
Qed.

Definition base : RelayRouteConfiguration Secret :=
  {| relay_url := lit "https://relay.example";
     relay_session_id := lit "session-1";
     source_token := mkSecret (lit "token");
     bus_id := lit "main.mix";
     publisher_group_id := lit "group";
     latency_profile := Low;
     ice_servers := [mkIceServer [lit "stun:stun.example:3478"]];
     startup_timeout := 1500 * MILLISECOND + 7;
     transport := WebSocket;
     http_proxy := Some (mkSecret (lit "http://proxy.example:8080")) |}.

Definition built : Result RelayConfigurationError (RelayRouteConfiguration Secret) :=
  c ← new (Url := Url) (lit "https://relay.example") (lit "session-1") (mkSecret (lit "token"))
        (lit "main.mix");
  c ← with_publisher_group (Url := Url) (lit "group") c;
  c ← with_ice_servers (Url := Url) [mkIceServer [lit "stun:stun.example:3478"]] c;
  c ← with_websocket_ingress (Url := Url) c;
  c ← with_http_proxy (Url := Url) (mkSecret (lit "http://proxy.example:8080")) c;
  with_startup_timeout (Url := Url) (1500 * MILLISECOND + 7) (with_low_latency c).

Definition configuration : ConnectorConfiguration Secret :=
  match connector_configuration (Url := Url) base with Ok conf => conf | Err _ => ∅ end.

End Example_route.

Import Sample Example_route.

Lemma reachable_route_contract_witness :
  built = Ok base ∧ route_contract (Url := Url) base.
Proof.
  assert (built = Ok base) as Hb by (vm_compute; reflexivity).
  split; [exact Hb|]. apply reachable_route_contract. unfold built in Hb.
  apply bind_Ok in Hb as (c1 & H1 & Hb). apply bind_Ok in Hb as (c2 & H2 & Hb).
  apply bind_Ok in Hb as (c3 & H3 & Hb). apply bind_Ok in Hb as (c4 & H4 & Hb).
  apply bind_Ok in Hb as (c5 & H5 & Hb).
  refine (reach_timeout _ _ _ (reach_low _ (reach_proxy _ _ _ (reach_ws _ _ _ H4) H5)) Hb).
  refine (reach_ice _ _ _ (reach_group _ _ _ _ H2) H3). exact (reach_new _ _ _ _ _ H1).
Defined.

Lemma connector_configuration_roundtrip_witness :
  connector_configuration (Url := Url) base = Ok configuration ∧
  from_node_config (Url := Url) (project configuration) = Ok (whole_milliseconds base) ∧
  startup_timeout (whole_milliseconds base) = 1500 * MILLISECOND.
Proof.
  assert (connector_configuration (Url := Url) base = Ok configuration) as Hc
    by (vm_compute; reflexivity).
  split; [exact Hc|]. split; [|vm_compute; reflexivity].
  refine (eq_trans (connector_configuration_roundtrip (Url := Url) base configuration Hc _) _).
  - vm_compute. discriminate.
  - vm_compute. reflexivity.
Defined.

Lemma from_node_config_secrets_witness :
  from_node_config (Url := Url) (project configuration) = Ok (whole_milliseconds base) ∧
  is_sensitive (project configuration) SOURCE_TOKEN_KEY = true ∧
  node_get (project configuration) HTTP_PROXY_KEY = Some (lit "http://proxy.example:8080").
Proof.
  assert (from_node_config (Url := Url) (project configuration) = Ok (whole_milliseconds base)) as Hc
    by (vm_compute; reflexivity).
  split; [exact Hc|].
  destruct (from_node_config_secrets (Url := Url) _ _ Hc) as (_ & Hs & Hp & _).
  split; [exact Hs|exact Hp].
Defined.
