(* ===== verification/Control.v ===== *)
(** * Caller-renewed publisher capabilities: [relay/src/publisher_control.rs]

    [RelayPublisherControl] is shared between the caller's management worker, which
    replaces and revokes credentials, and connector workers, which read snapshots and
    claim the publication.  The operations are functions on the shared state; [replace]
    is written as the pieces between its atomic actions.  [Interleaving] runs those
    pieces as a step relation in which any number of threads interleave. *)

From S2P Require Import Prelude Env Text Extern Errors Config.

(** A monotonic instant, in nanoseconds. *)
Definition MAX_CAPABILITY_LIFETIME : Z := 24 * 3600 * SECOND.
Definition RECOVERY_ATTEMPTS : nat := 3.
Definition RECOVERY_BUDGET : Z := 5 * SECOND.
Definition ATTACHMENT_TIMEOUT : Z := SECOND.

Record PublisherCredential (Secret : Type) : Type := mkCredential {
  token : Secret;
  valid_until : Z;
  credential_revision : Z;
}.
Arguments mkCredential {Secret}.
Arguments token {Secret} p.
Arguments valid_until {Secret} p.
Arguments credential_revision {Secret} p.

(** [poisoned] is the credential mutex's poison flag. *)
Record SharedControl (Secret : Type) : Type := mkControl {
  configuration : RelayRouteConfiguration Secret;
  credential : PublisherCredential Secret;
  poisoned : bool;
  revision : Z;
  revoked : bool;
  claimed : bool;
}.
Arguments mkControl {Secret}.
Arguments configuration {Secret} s.
Arguments credential {Secret} s.
Arguments poisoned {Secret} s.
Arguments revision {Secret} s.
Arguments revoked {Secret} s.
Arguments claimed {Secret} s.

Section Control.
Context {Secret : Type}.
Local Abbreviation result := (Result RelayPublisherControlError).
Local Abbreviation Shared := (SharedControl Secret).
Local Abbreviation Credential := (PublisherCredential Secret).

Definition validate_expiry (now until : Z) : result unit :=
  if (now <=? until) && negb (until - now =? 0) && (until - now <=? MAX_CAPABILITY_LIFETIME)
  then Ok () else Err InvalidExpiry.

Definition new_with_revision (now : Z) (c : RelayRouteConfiguration Secret) (until rev : Z)
  : result Shared :=
  if rev =? 0 then Err StaleReplacement
  else if negb (bool_decide (transport c = WebSocket)) then Err UnsupportedTransport
  else
    _ ← validate_expiry now until;
    Ok {| configuration := c; credential := mkCredential (source_token c) until rev;
          poisoned := false; revision := rev; revoked := false; claimed := false |}.

Definition new (now : Z) (c : RelayRouteConfiguration Secret) (until : Z) : result Shared :=
  new_with_revision now c until 1.

(** *** Replacement *)

(** What [replace] decides while it holds the credential lock. *)
Definition replace_check (rev until : Z) (s : Shared) : result unit :=
  if poisoned s then Err Unavailable
  else if revoked s then Err Revoked
  else if (rev <=? credential_revision (credential s)) || (until <=? valid_until (credential s))
  then Err StaleReplacement
  else Ok ().

(** [*credential = ..] *)
Definition replace_write (c : Credential) (s : Shared) : Shared :=
  mkControl (configuration s) c (poisoned s) (revision s) (revoked s) (claimed s).

(** [self.shared.revision.store(revision)] *)
Definition replace_store (rev : Z) (s : Shared) : Shared :=
  mkControl (configuration s) (credential s) (poisoned s) rev (revoked s) (claimed s).

Definition replace (now rev : Z) (source_token : Secret) (until : Z) (s : Shared)
  : result unit * Shared :=
  match validate_expiry now until with
  | Err e => (Err e, s)
  | Ok _ =>
      match replace_check rev until s with
      | Err e => (Err e, s)
      | Ok _ => (Ok (), replace_store rev (replace_write (mkCredential source_token until rev) s))
      end
  end.

Definition revoke (s : Shared) : Shared :=
  mkControl (configuration s) (credential s) (poisoned s) (revision s) true (claimed s).

(** *** Reading *)

(** The clone under the lock, and the checks on it after the lock is released. *)
Definition snapshot_clone (s : Shared) : result Credential :=
  if poisoned s then Err Unavailable else Ok (credential s).

Definition snapshot_check (now : Z) (c : Credential) (s : Shared) : result Credential :=
  if revoked s then Err Revoked else
  _ ← validate_expiry now (valid_until c);
  Ok c.

Definition snapshot (now : Z) (s : Shared) : result Credential :=
  c ← snapshot_clone s; snapshot_check now c s.

Definition matches (c : RelayRouteConfiguration Secret) (s : Shared) : bool :=
  bool_decide (relay_url (configuration s) = relay_url c)
  && bool_decide (relay_session_id (configuration s) = relay_session_id c)
  && bool_decide (publisher_group_id (configuration s) = publisher_group_id c)
  && bool_decide (transport c = WebSocket).

(** *** The publication lease *)

Definition set_claimed (b : bool) (s : Shared) : Shared :=
  mkControl (configuration s) (credential s) (poisoned s) (revision s) (revoked s) b.

(** [compare_exchange(false, true)] *)
Definition claim (s : Shared) : result unit * Shared :=
  if claimed s then (Err AlreadyPublishing, s) else (Ok (), set_claimed true s).

(** [PublisherLease::drop] *)
Definition release (s : Shared) : Shared := set_claimed false s.
End Control.

(** ** Interleavings *)

Module Interleaving.
Section Steps.
Context {Secret : Type}.
Local Abbreviation Shared := (SharedControl Secret).

(** The thread inside [replace] holds the credential lock: it has passed the checks, or
    has written the credential and not yet published the revision. *)
Inductive Writer : Type :=
| Unlocked
| Checked (c : PublisherCredential Secret)
| Written (rev : Z).

(** [leases] counts the live [PublisherLease] values. *)
Record State : Type := mkState { shared : Shared; writer : Writer; leases : nat }.

Inductive step : State → State → Prop :=
| step_replace_check s n now rev tok until :
    validate_expiry now until = Ok () → replace_check rev until s = Ok () →
    step (mkState s Unlocked n) (mkState s (Checked (mkCredential tok until rev)) n)
| step_replace_write s n c :
    step (mkState s (Checked c) n) (mkState (replace_write c s) (Written (credential_revision c)) n)
| step_replace_store s n rev :
    step (mkState s (Written rev) n) (mkState (replace_store rev s) Unlocked n)
| step_revoke s w n : step (mkState s w n) (mkState (revoke s) w n)
| step_claim s w n s' :
    claim s = (Ok (), s') → step (mkState s w n) (mkState s' w (S n))
| step_release s w n : step (mkState s w (S n)) (mkState (release s) w n).

Definition steps : State → State → Prop := rtc step.

Definition initial (s : State) : Prop :=
  ∃ now c until rev sh, new_with_revision now c until rev = Ok sh ∧ s = mkState sh Unlocked 0.

Definition reachable (s : State) : Prop := ∃ s0, initial s0 ∧ steps s0 s.

(** A later credential: the same one, or one with a larger revision and expiry. *)
Definition advances (c d : PublisherCredential Secret) : Prop :=
  c = d ∨ credential_revision c < credential_revision d ∧ valid_until c < valid_until d.

#[export] Instance advances_preorder : PreOrder advances.
Proof.
  split; [by left|]. intros a b c [->|[]] [->|[]]; try (by left); right; split; try done; lia.
Qed.

(** The lock protocol ties the published revision to the credential, and the claim flag
    to the live leases. *)
Definition coherent (s : State) : Prop :=
  match writer s with
  | Unlocked => revision (shared s) = credential_revision (credential (shared s))
  | Checked c =>
      revision (shared s) = credential_revision (credential (shared s))
      ∧ credential_revision (credential (shared s)) < credential_revision c
      ∧ valid_until (credential (shared s)) < valid_until c
  | Written rev =>
      rev = credential_revision (credential (shared s)) ∧ revision (shared s) < rev
  end ∧ leases s = (if claimed (shared s) then 1 else 0)%nat ∧ poisoned (shared s) = false.

Lemma replace_check_Ok rev until (s : Shared) :
  replace_check rev until s = Ok () →
  revoked s = false ∧ credential_revision (credential s) < rev ∧ valid_until (credential s) < until.
Proof. unfold replace_check. repeat case_match; intros; bool_props; done. Qed.

Lemma initial_coherent s : initial s → coherent s.
Proof.
  intros (now & c & until & rev & sh & Hn & ->). unfold new_with_revision in Hn.
  repeat case_match; try done. apply bind_Ok in Hn as (? & _ & [= <-]). done.
Qed.

Lemma step_coherent s s' : step s s' → coherent s → coherent s'.
Proof.
  unfold coherent.
  destruct 1 as [s n now rev tok until Hv Hc|s n c|s n rev|s w n|s w n s' Hc|s w n]; cbn;
    intros (Hw & Hl & Hp).
  - by apply replace_check_Ok in Hc as (_ & ? & ?).
  - destruct Hw as (-> & ? & ?). done.
  - by destruct Hw as [-> _].
  - done.
  - unfold claim in Hc. destruct (claimed s); [done|]. injection Hc as <-. cbn. by subst n.
  - destruct (claimed s); [|done]. injection Hl as ->. done.
Qed.

Lemma reachable_coherent s : reachable s → coherent s.
Proof.
  intros (s0 & Hi & Hs). apply initial_coherent in Hi. induction Hs; [done|].
  by apply IHHs, (step_coherent _ _ H).
Qed.

Lemma step_monotone s s' :
  step s s' → coherent s →
  configuration (shared s') = configuration (shared s)
  ∧ revision (shared s) ≤ revision (shared s')
  ∧ advances (credential (shared s)) (credential (shared s'))
  ∧ (revoked (shared s) = true → revoked (shared s') = true).
Proof.
  unfold coherent, advances.
  destruct 1 as [s n now rev tok until Hv Hc|s n c|s n rev|s w n|s w n s' Hc|s w n]; cbn;
    intros (Hw & Hl & Hp).
  1, 4, 6: repeat split; try done; by left.
  - destruct Hw as (_ & ? & ?). repeat split; try done. by right.
  - destruct Hw as (_ & ?). repeat split; try done; [lia|by left].
  - unfold claim in Hc. destruct (claimed s); [done|]. injection Hc as <-.
    repeat split; try done. by left.
Qed.

(** C29: Under every interleaving of replacing, revoking, claiming and releasing threads a
    publisher credential only advances: the credential is unchanged or has both a larger
    revision and a later expiry, the published revision never decreases and is the
    credential's own whenever no replacement is under way, revocation is permanent, and
    the bound configuration never changes. *)
Theorem credential_only_advances (s s' : State) (Hr : reachable s) (Hs : steps s s') :
  configuration (shared s') = configuration (shared s)
  ∧ advances (credential (shared s)) (credential (shared s'))
  ∧ revision (shared s) ≤ revision (shared s')
  ∧ (writer s' = Unlocked → revision (shared s') = credential_revision (credential (shared s')))
  ∧ (revoked (shared s) = true → revoked (shared s') = true).
Proof.
  apply reachable_coherent in Hr.
  assert (coherent s' ∧ configuration (shared s') = configuration (shared s)
    ∧ advances (credential (shared s)) (credential (shared s'))
    ∧ revision (shared s) ≤ revision (shared s')
    ∧ (revoked (shared s) = true → revoked (shared s') = true)) as (Hc & ? & ? & ? & ?).
  { induction Hs as [s|s s1 s2 H1 _ IH]; [repeat split; try done; apply Hr|].
    destruct (step_monotone _ _ H1 Hr) as (E1 & E2 & E3 & E4).
    destruct (IH (step_coherent _ _ H1 Hr)) as (F1 & F2 & F3 & F4 & F5).
    split; [done|]. split; [congruence|]. split; [by etrans|]. split; [lia|auto]. }
  repeat split; try done. intros Hu. destruct Hc as [Hc _]. by rewrite Hu in Hc.
Qed.

(** C15: Revocation fences the publisher.  Once [revoke] has run, no snapshot that reads
    the flag afterwards succeeds, whatever credential it cloned and however threads
    interleave, and the only replacement that can still be written is one that had
    already passed its checks; it never becomes visible through a snapshot. *)
Theorem revocation_fences (s s' : State) (Hrev : revoked (shared s) = true) (Hs : steps s s') :
  (∀ now c, snapshot_check now c (shared s') = Err Revoked)
  ∧ (∀ now rev tok until, (replace now rev tok until (shared s')).1 ≠ Ok ())
  ∧ (credential (shared s') = credential (shared s)
     ∨ ∃ c, writer s = Checked c ∧ credential (shared s') = c).
Proof.
  assert (revoked (shared s') = true
    ∧ (writer s' = writer s ∧ credential (shared s') = credential (shared s)
       ∨ (∀ c, writer s' ≠ Checked c)
         ∧ (credential (shared s') = credential (shared s)
            ∨ ∃ c, writer s = Checked c ∧ credential (shared s') = c))) as [Hr Hw].
  { induction Hs as [s|s s1 s2 H1 _ IH]; [by repeat split; [|left]|].
    assert (revoked (shared s1) = true ∧
      (writer s1 = writer s ∧ credential (shared s1) = credential (shared s)
       ∨ (∀ c, writer s1 ≠ Checked c)
         ∧ (credential (shared s1) = credential (shared s)
            ∨ ∃ c, writer s = Checked c ∧ credential (shared s1) = c))) as [Hr1 Hw1].
    { clear IH.
      destruct H1 as [s n now rev tok until Hv Hc|s n c|s n rev|s w n|s w n s' Hc|s w n];
        cbn in *; try (split; [done|by left]).
      - by apply replace_check_Ok in Hc as [? _]; congruence.
      - split; [done|]. right. split; [done|]. right. by exists c.
      - split; [done|]. right. split; [done|]. by left.
      - unfold claim in Hc. destruct (claimed s); [done|]. injection Hc as <-. split; [done|by left]. }
    destruct (IH Hr1) as [Hr2 Hw2]. split; [done|].
    destruct Hw1 as [[E1 E2]|[E1 E2]], Hw2 as [[F1 F2]|[F1 F2]].
    - left. by rewrite F1, F2.
    - right. split; [done|]. rewrite <- E1, <- E2. done.
    - right. rewrite F1, F2. done.
    - right. split; [done|]. destruct F2 as [->|(c & Hc & _)]; [done|]. by destruct (E1 c). }
  split; [|split].
  - intros now c. unfold snapshot_check. by rewrite Hr.
  - intros now rev tok until. unfold replace, replace_check. rewrite Hr. repeat case_match; done.
  - destruct Hw as [[_ ?]|[_ ?]]; [by left|done].
Qed.

(** C30: At most one grouped publication runs per control: in every reachable state there
    is at most one live lease, a claim succeeds exactly when there is none, and releasing
    it makes the control claimable again. *)
Theorem at_most_one_lease (s : State) (Hr : reachable s) :
  (leases s ≤ 1)%nat
  ∧ ((claim (shared s)).1 = Ok () ↔ leases s = 0%nat)
  ∧ (claim (release (shared s))).1 = Ok ().
Proof.
  apply reachable_coherent in Hr as (_ & Hl & _). unfold claim. rewrite Hl. cbn.
  destruct (claimed (shared s)); cbn; repeat split; intros; try done; lia.
Qed.
End Steps.
End Interleaving.

(** ** A sample history *)

Import Sample Config.Example_route.
Import Interleaving.

Module History.

Definition start : SharedControl Secret :=
  match new_with_revision 0 base 100 1 with
  | Ok s => s
  | Err _ => mkControl base (mkCredential (source_token base) 0 0) true 0 true true
  end.
Definition renewed : PublisherCredential Secret := mkCredential (mkSecret (lit "second")) 200 2.

Definition s0 : State := mkState start Unlocked 0.
(** A worker has claimed the publication and a replacement has passed its checks. *)
Definition s2 : State := mkState (set_claimed true start) (Checked renewed) 1.
(** The caller revokes; the replacement is still written and published. *)
Definition s3 : State := mkState (revoke (shared s2)) (Checked renewed) 1.
Definition s5 : State :=
  mkState (replace_store 2 (replace_write renewed (shared s3))) Unlocked 1.

Lemma s2_reachable : reachable s2.
Proof.
  exists s0. split.
  - exists 0, base, 100, 1, start. split; vm_compute; reflexivity.
  - eapply rtc_l; [apply (step_claim start Unlocked 0 (set_claimed true start)); reflexivity|].
    apply rtc_once, (step_replace_check _ _ 0 2 (mkSecret (lit "second")) 200); reflexivity.
Qed.

Lemma s3_s5 : steps s3 s5.
Proof.
  eapply rtc_l; [apply step_replace_write|]. apply rtc_once.
  apply (step_replace_store (replace_write renewed (shared s3)) 1 2).
Qed.

Lemma s2_s5 : steps s2 s5.
Proof. eapply rtc_l; [apply step_revoke|]. apply s3_s5. Qed.

End History.

Lemma credential_only_advances_witness :
  revision (shared History.s2) = 1 ∧ revision (shared History.s5) = 2
  ∧ revision (shared History.s2) ≤ revision (shared History.s5)
  ∧ advances (credential (shared History.s2)) (credential (shared History.s5)).
Proof.
  split; [reflexivity|]. split; [reflexivity|].
  destruct (credential_only_advances _ _ History.s2_reachable History.s2_s5) as (_ & Ha & Hr & _).
  split; [exact Hr|exact Ha].
Defined.

Lemma revocation_fences_witness :
  snapshot 50 (shared History.s5) = Err Revoked
  ∧ (credential (shared History.s5) = credential (shared History.s3)
     ∨ ∃ c, writer History.s3 = Checked c ∧ credential (shared History.s5) = c).
Proof.
  destruct (revocation_fences History.s3 History.s5 eq_refl History.s3_s5) as (Hs & _ & Hc).
  split; [exact (Hs 50 _)|exact Hc].
Defined.

Lemma at_most_one_lease_witness :
  leases History.s2 = 1%nat ∧ (leases History.s2 ≤ 1)%nat
  ∧ (claim (release (shared History.s2))).1 = Ok ().
Proof.
  destruct (at_most_one_lease _ History.s2_reachable) as (H1 & _ & H2).
  split; [reflexivity|]. split; [exact H1|exact H2].
Defined.
