(* ===== verification/Transport.v ===== *)
(** * WebSockets and publication statistics

    The part of [tungstenite] the connector uses, as operations of the world, and
    the statistics both publication transports fill in
    ([relay/src/rtc/publisher.rs], [PublishStreamStats]). *)

From S2P Require Import Prelude Env Text Extern Errors Encoder Proxy.

(** [tungstenite::protocol::frame::coding::CloseCode], as far as it is matched on. *)
Inductive CloseCode : Type := CloseNormal | CloseAway | ClosePolicy | CloseRestart | CloseAgain
| CloseOther.

Inductive WsMessage : Type :=
| MText (t : text)
| MBinary (bytes : list Z)
| MPing
| MPong
| MClose (code : option CloseCode)
| MFrame.

(** [tungstenite::Error]; [WsReset] is a reset without closing handshake. *)
Inductive WsError : Type :=
| WsIo (kind : ErrorKind)
| WsConnectionClosed
| WsAlreadyClosed
| WsReset
| WsOther.

#[export] Instance CloseCode_eq_dec : EqDecision CloseCode.
Proof. solve_decision. Defined.
#[export] Instance WsMessage_eq_dec : EqDecision WsMessage.
Proof. solve_decision. Defined.
#[export] Instance WsError_eq_dec : EqDecision WsError.
Proof. solve_decision. Defined.

Class WebSockets (W : Type) : Type := {
  ws_read : Ws → W → Result WsError WsMessage * W;
  (** queues a message and starts to flush it *)
  ws_write : Ws → WsMessage → W → Result WsError unit * W;
  ws_flush : Ws → W → Result WsError unit * W;
  (** [clone_socket], and the calls on the socket under a WebSocket *)
  ws_clone_socket : Ws → W → bool * W;
  ws_set_read_timeout : Ws → Z → W → bool * W;
  ws_set_write_timeout : Ws → Z → W → bool * W;
  ws_set_nonblocking : Ws → W → bool * W;
  ws_shutdown : Ws → W → W;
}.

(** ** [PublishStreamStats] and [PublishStats] *)

Record PublishStreamStats : Type := mkStats {
  ingress_frames_sent : Z;
  ingress_payload_bytes_sent : Z;
  ingress_source_generation : Z;
  ingress_attachments : Z;
  ingress_renewals : Z;
  ingress_reconnects : Z;
  ingress_reconnect_attempts : Z;
  ingress_recovery_input_drops : Z;
  ingress_recovery_opus_drops : Z;
  ingress_discontinuities : Z;
  ingress_credential_revision : Z;
  rtp_sent : Z;
  bytes_sent : Z;
}.

Definition stats_default : PublishStreamStats := mkStats 0 0 0 0 0 0 0 0 0 0 0 0 0.

Record PublishStats : Type := mkPublishStats {
  streams : list PublishStreamStats;
  elapsed : Z;
  drains : Z;
  writes : Z;
}.

(** [mpsc::Receiver::try_recv] on an encoder's channel. *)
Inductive TryRecv : Type :=
| Received (frame : EncodedAudioFrame)
| RecvDisconnected
| RecvEmpty.
