(* ===== verification/Gateway.v ===== *)
(** * Authenticated Opus ingress over WebSockets: [relay/src/rtc/gateway.rs]

    One WebSocket per bus.  [prepare] opens a connection and waits for the Relay's
    READY; [publish_group] polls the group round robin, sends one binary packet per
    encoded frame, and on a recoverable failure or a renewed capability [reattach]
    closes every connection and admits the whole group again.

    [Group] is what the publisher thread owns (the streams and the recovery state)
    together with the world: sockets, clock, the shared [RelayPublisherControl], the
    delivery state shared with the feeder, the connector context and the channels from
    the encoders.  The encoder counters a stream increments are its thread's own share
    of the atomic totals. *)

From S2P Require Import Prelude Env Text Extern Errors Encoder Proxy Config Control Transport.

Definition HEADER_BYTES : nat := 40.
Definition MAX_OPUS_PAYLOAD_BYTES : nat := 1275.
Definition DURATION_SAMPLES : Z := 960.
Definition MAX_FRAME_AGE : Z := 200 * MILLISECOND.
Definition SUBPROTOCOL : text := lit "pks-opus-v1".

Definition failed {A} (f : IngressFailure) : Result BoxedError A := Err (BoxIngress f).

(** ** Error classification *)

Definition classify_socket_error (error : WsError) : IngressFailure :=
  match error with
  | WsIo _ | WsConnectionClosed | WsReset => Transport
  | WsAlreadyClosed | WsOther => Protocol
  end.

Definition recoverable (error : BoxedError) : bool :=
  match error with
  | BoxIngress f => bool_decide (f = Transport)
  | BoxProxy f => bool_decide (f = ProxyTransport)
  | BoxControl _ => false
  | Message _ => true
  end.

Definition credential_changed (error : BoxedError) : bool :=
  bool_decide (error = BoxIngress Credential).

Inductive ConnectorRetryability : Type := Retryable | RetryAfterReconfiguration | Never.

Definition retryability (error : BoxedError) : ConnectorRetryability :=
  if recoverable error then Retryable else Never.

(** ** The packet format *)

(** [to_be_bytes] of an [n]-byte unsigned integer. *)
Fixpoint be_bytes (n : nat) (z : Z) : list Z :=
  match n with
  | O => []
  | S n => (z / 256 ^ Z.of_nat n) mod 256 :: be_bytes n z
  end.

Definition byte_value (b : Byte.byte) : Z := Z.of_N (Byte.to_N b).

Definition encode_packet (frame : EncodedAudioFrame) (channels : Z) : Result BoxedError (list Z) :=
  if negb ((channels =? 1) || (channels =? 2))
     || negb (duration_samples frame =? DURATION_SAMPLES)
     || bool_decide (payload frame = [])
     || (MAX_OPUS_PAYLOAD_BYTES <? length (payload frame))%nat
  then fail "Relay ingress requires mono/stereo 20 ms Opus packets bounded to 1275 bytes"
  else
    let sample_timestamp := rtp_time frame in
    if negb (sample_timestamp mod DURATION_SAMPLES =? 0)
    then fail "Relay ingress Opus sample timestamp is not frame-aligned"
    else
      Ok (lit "PKSO" ++ [1; channels; 0; 0]
          ++ be_bytes 8 (sample_timestamp / DURATION_SAMPLES)
          ++ drop 4 (be_bytes 8 sample_timestamp)
          ++ be_bytes 2 DURATION_SAMPLES
          ++ be_bytes 2 (Z.of_nat (length (payload frame)))
          ++ be_bytes 8 (capture_timestamp_ns frame)
          ++ be_bytes 8 (from_option generation_id 0 (encoded_generation frame))
          ++ (byte_value <$> payload frame)).

(** ** State *)

Record IngressConnection : Type := mkConnection {
  ws : Ws;
  channels : Z;
  source_generation : Z;
}.

Record Ready : Type := mkReady { kind : text; ready_bus_id : text; ready_generation : Z }.

Record ActiveIngress : Type := mkIngress {
  connection : option IngressConnection;
  encoded_rx : nat;
  counters : EncoderCounters;
  statistics : PublishStreamStats;
  disconnected : bool;
  active_channels : Z;
  highest_generation : Z;
  not_before_capture_ns : option Z;
}.

Record IngressStream : Type := mkStream {
  stream_connection : IngressConnection;
  stream_rx : nat;
  stream_counters : EncoderCounters;
}.

(** The control, the delivery state and the lease of the source's structure are the
    world's ([IngressEnv]). *)
Record PreparedIngressRecovery (Secret : Type) : Type := mkRecovery {
  recovery_credential : PublisherCredential Secret;
  configurations : list (RelayRouteConfiguration Secret);
}.
Arguments mkRecovery {Secret}.
Arguments recovery_credential {Secret} p.
Arguments configurations {Secret} p.

Record Group (Secret W : Type) : Type := mkGroup {
  active : list ActiveIngress;
  recovery : option (PreparedIngressRecovery Secret);
  world : W;
}.
Arguments mkGroup {Secret W}.
Arguments active {Secret W} g.
Arguments recovery {Secret W} g.
Arguments world {Secret W} g.

Inductive Reattachment : Type := Renewal | Tunnel.

#[export] Instance Reattachment_eq_dec : EqDecision Reattachment.
Proof. solve_decision. Defined.

(** The world of the publisher thread. *)
Class IngressEnv (Secret W : Type) : Type := {
  ingress_proxy :: ProxyEnv W;
  ingress_resolver :: Resolver W;
  ingress_sockets :: WebSockets W;
  ingress_generations :: Generations W;
  (** the shared [RelayPublisherControl] *)
  control_revoked : W → bool * W;
  control_revision : W → Z * W;
  control_snapshot : W → Result RelayPublisherControlError (PublisherCredential Secret) * W;
  release_lease : W → W;
  (** [ConnectorContext::is_abort_requested] and [is_stop_requested] *)
  abort_requested : W → bool * W;
  stop_requested : W → bool * W;
  (** [IngressDeliveryState] *)
  set_paused : bool → W → W;
  capture_end_ns : nat → W → Z * W;
  input_drops : nat → W → Z * W;
  (** [encoded_rx.try_recv] *)
  try_recv : nat → W → TryRecv * W;
  (** [serde_json::from_str] at [Ready] *)
  parse_ready : text → option Ready;
  (** [std::env::var(name).ok()] *)
  environment : string → option text;
}.

(** *** Statistics *)

Definition count_sent (bytes : Z) (s : PublishStreamStats) : PublishStreamStats :=
  let 'mkStats f b g a n r t i o d c x y := s in
  mkStats (sat_add f 1) (sat_add b bytes) g a n r t i o d c x y.
Definition count_opus_drop (s : PublishStreamStats) : PublishStreamStats :=
  let 'mkStats f b g a n r t i o d c x y := s in
  mkStats f b g a n r t i (sat_add o 1) d c x y.
Definition count_attempt (s : PublishStreamStats) : PublishStreamStats :=
  let 'mkStats f b g a n r t i o d c x y := s in
  mkStats f b g a n r (sat_add t 1) i o d c x y.
Definition set_input_drops (drops : Z) (s : PublishStreamStats) : PublishStreamStats :=
  let 'mkStats f b g a n r t i o d c x y := s in
  mkStats f b g a n r t drops o d c x y.
Definition count_attachment (generation revision : Z) (renewed : bool) (s : PublishStreamStats)
  : PublishStreamStats :=
  let 'mkStats f b g a n r t i o d c x y := s in
  mkStats f b generation (sat_add a 1) (if renewed then sat_add n 1 else n)
    (if renewed then r else sat_add r 1) t i o (sat_add d 1) revision x y.

Definition with_statistics (f : PublishStreamStats → PublishStreamStats) (a : ActiveIngress)
  : ActiveIngress :=
  mkIngress (connection a) (encoded_rx a) (counters a) (f (statistics a)) (disconnected a)
    (active_channels a) (highest_generation a) (not_before_capture_ns a).
Definition with_counters (f : EncoderCounters → EncoderCounters) (a : ActiveIngress)
  : ActiveIngress :=
  mkIngress (connection a) (encoded_rx a) (f (counters a)) (statistics a) (disconnected a)
    (active_channels a) (highest_generation a) (not_before_capture_ns a).
Definition with_disconnected (a : ActiveIngress) : ActiveIngress :=
  mkIngress (connection a) (encoded_rx a) (counters a) (statistics a) true
    (active_channels a) (highest_generation a) (not_before_capture_ns a).
Definition without_connection (a : ActiveIngress) : ActiveIngress :=
  mkIngress None (encoded_rx a) (counters a) (statistics a) (disconnected a)
    (active_channels a) (highest_generation a) (not_before_capture_ns a).
Definition with_highest (generation : Z) (a : ActiveIngress) : ActiveIngress :=
  mkIngress (connection a) (encoded_rx a) (counters a) (statistics a) (disconnected a)
    (active_channels a) generation (not_before_capture_ns a).
Definition attach (c : IngressConnection) (cutoff : Z) (a : ActiveIngress) : ActiveIngress :=
  mkIngress (Some c) (encoded_rx a) (counters a) (statistics a) (disconnected a)
    (active_channels a) (highest_generation a) (Some cutoff).

Section Gateway.
Context {Secret Url W : Type} `{SecretLib Secret, UrlLib Url, !IngressEnv Secret W}.
Local Abbreviation Route := (RelayRouteConfiguration Secret).
Local Abbreviation Recovery := (PreparedIngressRecovery Secret).
Local Abbreviation bio := (io W BoxedError).

(** [if context.is_some_and(..)] *)
Definition requested (context : bool) (flag : W → bool * W) (w : W) : bool * W :=
  if context then flag w else (false, w).

(** *** Sending *)

(** The [valid] closure: the capability is neither revoked, replaced nor expired. *)
Definition capability_valid (r : option Recovery) : bio bool :=
  match r with
  | None => mret true
  | Some r =>
      revoked ← io_lift control_revoked;
      if revoked : bool then mret false else
      revision ← io_lift control_revision;
      if negb (revision =? credential_revision (recovery_credential r)) then mret false else
      t ← io_lift now;
      mret (t <? valid_until (recovery_credential r))
  end.

Definition write_deadline : BoxedError :=
  Message "Relay ingress write exceeded its 200 ms deadline".

(** One round of the flush loop. *)
Definition flush_round (ws : Ws) (deadline : Z) (r : option Recovery) : bio (option unit) :=
  valid ← capability_valid r;
  if negb valid then io_fail (BoxIngress Credential) else
  flushed ← io_lift (ws_flush ws);
  match flushed with
  | Ok _ => mret (Some ())
  | Err (WsIo WouldBlock) =>
      t ← io_lift now;
      if deadline <=? t then io_fail write_deadline else
      _ ← io_modify (sleep MILLISECOND);
      mret None
  | Err error => io_fail (BoxIngress (classify_socket_error error))
  end.

(** A write deadline is at most 200 ms away, and a round sleeps for one. *)
Definition flush_bound : positive := 202.

Definition send_until (ws : Ws) (message : WsMessage) (deadline : Z) (r : option Recovery)
  : bio unit :=
  valid ← capability_valid r;
  if negb valid then io_fail (BoxIngress Credential) else
  t ← io_lift now;
  if deadline <=? t then io_fail write_deadline else
  written ← io_lift (ws_write ws message);
  match written with
  | Ok _ | Err (WsIo WouldBlock) =>
      io_loop flush_bound exhausted (flush_round ws deadline r)
  | Err error => io_fail (BoxIngress (classify_socket_error error))
  end.

(** *** Closing *)

Fixpoint cancel_connections (connections : list IngressConnection) (deadline : Z) (failed : bool)
  (w : W) : bool * W :=
  match connections with
  | [] => (failed, w)
  | c :: connections =>
      let '(sent, w) := send_until (ws c) (MClose None) deadline None w in
      let '(cloned, w) := ws_clone_socket (ws c) w in
      let w := if cloned : bool then ws_shutdown (ws c) w else w in
      cancel_connections connections deadline (failed || is_err sent) w
  end.

Definition cancel_until (connections : list IngressConnection) (deadline : Z) : bio unit :=
  λ w, let '(failed, w) := cancel_connections connections deadline false w in
       (if failed : bool then fail "Relay ingress close failed" else Ok (), w).

Definition cancel (connections : list IngressConnection) : bio unit :=
  t ← io_lift now;
  cancel_until connections (t + MAX_FRAME_AGE).

(** *** Admission of one connection *)

Definition ingress_url (c : Route) : Result BoxedError text :=
  url ← ok_or (Message "relative URL without a base") (url_parse (Url := Url) (relay_url c));
  url ← ok_or (Message "Relay ingress scheme is invalid")
          (set_scheme (if bool_decide (scheme url = lit "https") then lit "wss" else lit "ws") url);
  url ← ok_or (Message "Relay ingress URL cannot contain paths")
          (extend_path [lit "v1"; lit "sessions"; relay_session_id c; lit "audio"] url);
  Ok (url_as_str (append_pair (lit "bus") (bus_id c) url)).

Definition readiness_deadline : string := "Relay ingress readiness exceeded its startup deadline".

Definition ready_round (c : Route) (ws : Ws) (deadline : Z) : bio (option Ready) :=
  remaining ← remaining_until deadline readiness_deadline;
  _ ← syscall (ws_set_read_timeout ws remaining) "read timeout";
  message ← io_lift (ws_read ws);
  match message with
  | Err error => io_fail (BoxIngress (classify_socket_error error))
  | Ok (MText t) =>
      match parse_ready t with
      | None => io_fail (BoxIngress Protocol)
      | Some ready =>
          if negb (bool_decide (kind ready = lit "READY"))
             || negb (bool_decide (ready_bus_id ready = bus_id c))
             || (ready_generation ready =? 0)
          then io_fail (BoxIngress Identity)
          else mret (Some ready)
      end
  | Ok MPing | Ok MPong => mret None
  | Ok _ => io_fail (BoxIngress Protocol)
  end.

(** Every control frame takes at least a nanosecond of the [remaining] ones to read. *)
Definition ready_bound (remaining : Z) : positive := Z.to_pos (remaining + 3).

Definition prepare (c : Route) (channels : Z) (deadline : Z) : bio IngressConnection :=
  url ← io_result (ingress_url c);
  ws ← connect (Url := Url) environment url (expose_secret <$> http_proxy c)
         (Some (expose_secret (source_token c))) (Some SUBPROTOCOL) deadline;
  remaining ← remaining_until deadline readiness_deadline;
  _ ← syscall (ws_set_read_timeout ws remaining) "read timeout";
  _ ← syscall (ws_set_write_timeout ws remaining) "write timeout";
  _ ← syscall (ws_clone_socket ws) "clone";
  ready ← before_deadline ws deadline
            (io_loop (ready_bound remaining) exhausted (ready_round c ws deadline));
  _ ← syscall (ws_clone_socket ws) "clone";
  _ ← syscall (ws_set_nonblocking ws) "nonblocking";
  mret {| ws := ws; channels := channels; source_generation := ready_generation ready |}.

(** *** One stream: [ActiveIngress] and the world *)

Local Abbreviation sio := (io (ActiveIngress * W) BoxedError).

Definition in_world {A} (m : bio A) : sio A :=
  λ '(a, w), let '(r, w) := m w in (r, (a, w)).
Definition modify (f : ActiveIngress → ActiveIngress) : sio unit := λ '(a, w), (Ok (), (f a, w)).
Definition gets {A} (f : ActiveIngress → A) : sio A := λ '(a, w), (Ok (f a), (a, w)).

Definition get_connection : sio IngressConnection :=
  c ← gets connection;
  io_result (ok_or (BoxIngress Protocol) c).

Definition send_frame (frame : EncodedAudioFrame) (r : option Recovery) : sio unit :=
  cancelled ← in_world (io_lift (generation_cancelled (encoded_generation frame)));
  if cancelled : bool then modify (with_counters (add_cancelled_frames 1)) else
  cutoff ← gets not_before_capture_ns;
  if from_option (λ cutoff, capture_timestamp_ns frame <? cutoff) false cutoff
  then modify (with_statistics count_opus_drop) else
  t ← in_world (io_lift now);
  if MAX_FRAME_AGE <? t - wallclock frame
  then modify (with_counters (add_stale_drops 1)) else
  c ← get_connection;
  packet ← io_result (map_err (λ _, BoxIngress Protocol) (encode_packet frame (channels c)));
  t ← in_world (io_lift now);
  t' ← in_world (io_lift now);
  let limit := from_option (λ r, valid_until (recovery_credential r)) (t' + MAX_FRAME_AGE) r in
  io_fun (λ '(a, w),
    match send_until (ws c) (MBinary packet) (Z.min (t + MAX_FRAME_AGE) limit) r w with
    | (Err error, w) => (Err error, (with_statistics count_opus_drop a, w))
    | (Ok _, w) =>
        (Ok (), (with_statistics (count_sent (Z.of_nat (length (payload frame)))) a, w))
    end).

Definition close_failure (code : option CloseCode) : IngressFailure :=
  match code with
  | Some ClosePolicy => Authority
  | None | Some (CloseNormal | CloseAway | CloseRestart | CloseAgain) => Transport
  | Some CloseOther => Protocol
  end.

(** What one read of the socket means for a publishing stream. *)
Definition poll_socket (r : Result WsError WsMessage) : Result BoxedError unit :=
  match r with
  | Ok (MClose code) => failed (close_failure code)
  | Ok (MPing | MPong) => Ok ()
  | Ok _ => failed Protocol
  | Err (WsIo (WouldBlock | TimedOut)) => Ok ()
  | Err error => failed (classify_socket_error error)
  end.

Definition poll_stream (r : option Recovery) : sio bool :=
  done ← gets disconnected;
  if done : bool then mret false else
  c ← get_connection;
  message ← in_world (io_lift (ws_read (ws c)));
  _ ← io_result (poll_socket message);
  rx ← gets encoded_rx;
  received ← in_world (io_lift (try_recv rx));
  match received with
  | Received frame => _ ← send_frame frame r; mret true
  | RecvDisconnected => _ ← modify with_disconnected; mret true
  | RecvEmpty => mret false
  end.

(** *** The group *)

Local Abbreviation gio := (io (Group Secret W) BoxedError).

Definition on_world {A} (m : bio A) : gio A :=
  λ g, let '(r, w) := m (world g) in (r, mkGroup (active g) (recovery g) w).
Definition get_active : gio (list ActiveIngress) := λ g, (Ok (active g), g).
Definition set_active (l : list ActiveIngress) : gio unit :=
  λ g, (Ok (), mkGroup l (recovery g) (world g)).
Definition get_recovery : gio (option Recovery) := λ g, (Ok (recovery g), g).

(** Runs a stream's operation on [active[index]]. *)
Definition at_stream {A} (index : nat) (m : sio A) : gio A :=
  λ g, match active g !! index with
       | Some a =>
           let '(r, (a, w)) := m (a, world g) in
           (r, mkGroup (<[index := a]> (active g)) (recovery g) w)
       | None => (Err (Message "index out of bounds"), g)
       end.

Definition close_active : gio unit :=
  l ← get_active;
  _ ← set_active (without_connection <$> l);
  io_fun (λ g, let '(_, w) := cancel (omap connection l) (world g) in
               (Ok (), mkGroup (active g) (recovery g) w)).

Definition with_token (token : Secret) (c : Route) : Route :=
  mkRoute (relay_url c) (relay_session_id c) token (bus_id c) (publisher_group_id c)
    (latency_profile c) (ice_servers c) (startup_timeout c) (transport c) (http_proxy c).

(** [control.is_revoked() || control.revision() != credential.revision] *)
Definition superseded (credential : PublisherCredential Secret) : bio bool :=
  revoked ← io_lift control_revoked;
  if revoked : bool then mret true else
  revision ← io_lift control_revision;
  mret (negb (revision =? credential_revision credential)).

(** The connections admitted so far are returned also when admission fails. *)
Fixpoint admit_group (index : nat) (cs : list Route) (context : bool)
  (credential : PublisherCredential Secret) (deadline : Z) (connections : list IngressConnection)
  (g : Group Secret W) : Result BoxedError unit * list IngressConnection * Group Secret W :=
  match cs with
  | [] => (Ok (), connections, g)
  | c :: cs =>
      let admitted : gio (IngressConnection * Z) :=
        stale ← on_world (superseded credential);
        if stale : bool then io_fail (BoxIngress Credential) else
        stopped ← on_world (io_lift (requested context stop_requested));
        if stopped : bool then io_fail (BoxIngress Credential) else
        streams ← get_active;
        a ← io_result (ok_or (Message "index out of bounds") (streams !! index));
        connection ← on_world (prepare (with_token (token credential) c) (active_channels a) deadline);
        mret (connection, highest_generation a) in
      match admitted g with
      | (Err e, g) => (Err e, connections, g)
      | (Ok (connection, highest), g) =>
          let generation := source_generation connection in
          let connections := connections ++ [connection] in
          if generation <=? highest then (failed Generation, connections, g) else
          let g := mkGroup (alter (with_highest generation) index (active g)) (recovery g) (world g) in
          let check : gio bool :=
            stale ← on_world (superseded credential);
            if stale : bool then mret true else
            t ← on_world (io_lift now);
            mret (deadline <=? t) in
          match check g with
          | (Ok true, g) => (failed Credential, connections, g)
          | (Err e, g) => (Err e, connections, g)
          | (Ok false, g) => admit_group (S index) cs context credential deadline connections g
          end
      end
  end.

(** *** Reattachment *)

(** A round of the back-off: [Some false] when a stop was requested. *)
Definition wait_round (context : bool) (wait_until : Z) : bio (option bool) :=
  t ← io_lift now;
  if wait_until <=? t then mret (Some true) else
  stopped ← io_lift (requested context stop_requested);
  if stopped : bool then mret (Some false) else
  revoked ← io_lift control_revoked;
  if revoked : bool then io_fail (BoxIngress Credential) else
  _ ← io_modify (sleep MILLISECOND);
  mret None.

(** The longest back-off is 400 ms, and a round sleeps for one. *)
Definition wait_bound : positive := 402.

Definition backoff (attempt : nat) : Z := (100 * 2 ^ Z.of_nat attempt) * MILLISECOND.

(** [false] when a stop was requested. *)
Definition wait_for_attempt (context : bool) (attempt : nat) (recovery_deadline : Z) : bio bool :=
  t ← io_lift now;
  go ← io_loop wait_bound exhausted
         (wait_round context (Z.min (t + backoff attempt) recovery_deadline));
  if negb go then mret false else
  stopped ← io_lift (requested context stop_requested);
  mret (negb stopped).

Definition snapshot_credential : bio (PublisherCredential Secret) :=
  credential ← io_lift control_snapshot;
  io_result (map_err BoxControl credential).

Definition attempt_deadline (credential : PublisherCredential Secret) (r : Recovery)
  (recovery_deadline : Z) : bio Z :=
  t1 ← io_lift now;
  t2 ← io_lift now;
  timeout ← io_result (ok_or (Message "index out of bounds")
                         (startup_timeout <$> head (configurations r)));
  let deadline := Z.min (Z.min (Z.min (t1 + ATTACHMENT_TIMEOUT) recovery_deadline)
                               (valid_until credential)) (t2 + timeout) in
  t ← io_lift now;
  if deadline <=? t then io_fail (BoxIngress RecoveryBudget) else mret deadline.

(** After a failed admission: [true] to try again, [false] when a stop was requested. *)
Definition after_failure (context : bool) (credential : PublisherCredential Secret)
  (error : BoxedError) : bio bool :=
  stopped ← io_lift (requested context stop_requested);
  if stopped : bool then mret false else
  revoked ← io_lift control_revoked;
  if revoked : bool then io_fail (BoxIngress Credential) else
  if negb (recoverable error) && negb (credential_changed error) then io_fail error else
  revision ← io_lift control_revision;
  if negb (revision =? credential_revision credential) then mret true
  else if negb (recoverable error) then io_fail error
  else mret true.

Definition attach_stream (renewed : bool) (revision : Z) (index : nat) (c : IngressConnection)
  : gio unit :=
  cutoff ← on_world (io_lift (capture_end_ns index));
  at_stream index
    (modify (λ a, attach c cutoff
       (with_statistics (count_attachment (source_generation c) revision renewed) a))).

(** [active.iter_mut().zip(connections).enumerate()] *)
Fixpoint attach_all (renewed : bool) (revision : Z) (index : nat) (cs : list IngressConnection)
  : gio unit :=
  match cs with
  | [] => mret ()
  | c :: cs =>
      streams ← get_active;
      if (length streams <=? index)%nat then mret () else
      _ ← attach_stream renewed revision index c;
      attach_all renewed revision (S index) cs
  end.

Definition set_credential (credential : PublisherCredential Secret) : gio unit :=
  λ g, (Ok (), mkGroup (active g)
          ((λ r, mkRecovery credential (configurations r)) <$> recovery g) (world g)).

(** One attempt of [reattach]: [None] to try again. *)
Definition reattach_attempt (context : bool) (reason : Reattachment) (recovery_deadline : Z)
  (attempt : nat) (r : Recovery) : gio (option bool) :=
  go ← on_world (wait_for_attempt context attempt recovery_deadline);
  if negb go then mret (Some false) else
  credential ← on_world snapshot_credential;
  deadline ← on_world (attempt_deadline credential r recovery_deadline);
  streams ← get_active;
  _ ← set_active (with_statistics count_attempt <$> streams);
  io_fun (λ g,
    let '(admission, connections, g) :=
      admit_group 0 (configurations r) context credential deadline [] g in
    match admission with
    | Err error =>
        (t ← on_world (io_lift now);
         _ ← io_fun (λ g,
           let '(_, w) := cancel_until connections
                            (Z.min (t + MAX_FRAME_AGE) recovery_deadline) (world g) in
           (Ok (), mkGroup (active g) (recovery g) w));
         again ← on_world (after_failure context credential error);
         mret (if again : bool then None else Some false)) g
    | Ok _ =>
        let renewed := negb (credential_revision credential
                             =? credential_revision (recovery_credential r))
                       || bool_decide (reason = Renewal) in
        (_ ← attach_all renewed (credential_revision credential) 0 connections;
         _ ← set_credential credential;
         _ ← on_world (io_modify (set_paused false));
         mret (Some true)) g
    end).

Fixpoint reattach_attempts (context : bool) (reason : Reattachment) (recovery_deadline : Z)
  (attempts : list nat) (r : Recovery) : gio bool :=
  match attempts with
  | [] => io_fail (BoxIngress RecoveryBudget)
  | attempt :: attempts =>
      outcome ← reattach_attempt context reason recovery_deadline attempt r;
      match outcome with
      | Some b => mret b
      | None => reattach_attempts context reason recovery_deadline attempts r
      end
  end.

(** [Ok true] once the whole group is attached, [Ok false] when a stop was requested. *)
Definition reattach (context : bool) (reason : Reattachment) (r : Recovery) : gio bool :=
  t ← on_world (io_lift now);
  _ ← on_world (io_modify (set_paused true));
  _ ← close_active;
  reattach_attempts context reason (t + RECOVERY_BUDGET) (seq 0 RECOVERY_ATTEMPTS) r.

(** *** The publication loop *)

Inductive Polled : Type := Progress (progress : bool) | Restart | Break.

(** A polled stream's error: reattach, or give up. *)
Definition poll_failure (context : bool) (error : BoxedError) : gio Polled :=
  r ← get_recovery;
  match r with
  | None => io_fail error
  | Some r =>
      revision ← on_world (io_lift control_revision);
      let revision_changed := negb (revision =? credential_revision (recovery_credential r)) in
      if recoverable error || (revision_changed && credential_changed error) then
        attached ← reattach context (if revision_changed then Renewal else Tunnel) r;
        mret (if attached : bool then Restart else Break)
      else io_fail error
  end.

Fixpoint poll_all (context : bool) (indices : list nat) (progress : bool) : gio Polled :=
  match indices with
  | [] => mret (Progress progress)
  | index :: indices =>
      λ g,
        match at_stream index (poll_stream (recovery g)) g with
        | (Ok polled, g) => poll_all context indices (progress || polled) g
        | (Err error, g) => poll_failure context error g
        end
  end.

(** The checks on the capability at the top of the loop: [false] to leave it. *)
Definition check_capability (context : bool) : gio bool :=
  r ← get_recovery;
  match r with
  | None => mret true
  | Some r =>
      revoked ← on_world (io_lift control_revoked);
      if revoked : bool then io_fail (BoxIngress Credential) else
      revision ← on_world (io_lift control_revision);
      attached ← (if revision =? credential_revision (recovery_credential r)
                  then mret true else reattach context Renewal r : gio bool);
      if negb attached then mret false else
      r ← get_recovery;
      t ← on_world (io_lift now);
      if from_option (λ r, valid_until (recovery_credential r) <=? t) false r
      then io_fail (BoxIngress Credential)
      else mret true
  end.

(** One iteration: [Some ()] leaves the loop. *)
Definition publish_round (context : bool) : gio (option unit) :=
  aborted ← on_world (io_lift (requested context abort_requested));
  if aborted : bool then mret (Some ()) else
  go ← check_capability context;
  if negb go then mret (Some ()) else
  streams ← get_active;
  polled ← poll_all context (seq 0 (length streams)) false;
  match polled with
  | Break => mret (Some ())
  | Restart => mret None
  | Progress progress =>
      streams ← get_active;
      if forallb disconnected streams then mret (Some ())
      else if progress then mret None
      else _ ← on_world (io_modify (sleep MILLISECOND)); mret None
  end.

(** At most [rounds] iterations; [inl] while the loop is still running. *)
Definition publish_group (rounds : positive) (context : bool) (g : Group Secret W)
  : Group Secret W + (Result BoxedError unit * Group Secret W) :=
  run_until rounds (io_round (publish_round context)) g.

Definition initial_stream (r : option Recovery) (s : IngressStream) : ActiveIngress :=
  let c := stream_connection s in
  {| connection := Some c; encoded_rx := stream_rx s; counters := stream_counters s;
     statistics := mkStats 0 0 (source_generation c) 1 0 0 0 0 0 0
       (from_option (λ r, credential_revision (recovery_credential r)) 0 r) 0 0;
     disconnected := false; active_channels := channels c;
     highest_generation := source_generation c; not_before_capture_ns := None |}.

Fixpoint collect_input_drops (index : nat) (l : list ActiveIngress) (w : W)
  : list ActiveIngress * W :=
  match l with
  | [] => ([], w)
  | a :: l =>
      let '(drops, w) := input_drops index w in
      let '(l, w) := collect_input_drops (S index) l w in
      (with_statistics (set_input_drops drops) a :: l, w)
  end.

(** The end of [run_with_recovery]. *)
Definition finish_group (started : Z) (result : Result BoxedError unit) (g : Group Secret W)
  : PublishStats * option BoxedError * W :=
  let '(l, w) :=
    match recovery g with
    | Some _ => collect_input_drops 0 (active g) (set_paused true (world g))
    | None => (active g, world g)
    end in
  let '(_, g) := close_active (mkGroup l (recovery g) w) in
  let '(t, w) := now (world g) in
  let w := match recovery g with Some _ => release_lease w | None => w end in
  (mkPublishStats (statistics <$> active g) (t - started) 0 0,
   match result with Ok _ => None | Err e => Some e end, w).

(** [None] while the group is still publishing after [rounds] iterations. *)
Definition run_with_recovery (rounds : positive) (ss : list IngressStream) (r : option Recovery)
  (context : bool) (w : W) : option (PublishStats * option BoxedError * W) :=
  let '(started, w) := now w in
  match publish_group rounds context (mkGroup (initial_stream r <$> ss) r w) with
  | inl _ => None
  | inr (result, g) => Some (finish_group started result g)
  end.

Definition run (rounds : positive) (ss : list IngressStream) (w : W)
  : option (PublishStats * option BoxedError * W) :=
  run_with_recovery rounds ss None false w.
End Gateway.

(** ** Every iteration comes to an answer *)

(** Every system call but [ws_write], [set_paused] and [try_recv] moves the world along [R]. *)
Class IngressKeeps (Secret W : Type) `{IngressEnv Secret W} (R : relation W) : Prop := {
  ik_proxy :: ProxyKeeps W R;
  ik_read s w : R w (ws_read s w).2;
  ik_flush s w : R w (ws_flush s w).2;
  ik_clone s w : R w (ws_clone_socket s w).2;
  ik_read_timeout s d w : R w (ws_set_read_timeout s d w).2;
  ik_write_timeout s d w : R w (ws_set_write_timeout s d w).2;
  ik_nonblocking s w : R w (ws_set_nonblocking s w).2;
  ik_shutdown s w : R w (ws_shutdown s w);
  ik_active g w : R w (is_active g w).2;
  ik_revoked w : R w (control_revoked w).2;
  ik_revision w : R w (control_revision w).2;
  ik_snapshot w : R w (control_snapshot w).2;
  ik_abort w : R w (abort_requested w).2;
  ik_stop w : R w (stop_requested w).2;
  ik_capture_end i w : R w (capture_end_ns i w).2;
  ik_input_drops i w : R w (input_drops i w).2;
  ik_release w : R w (release_lease w);
}.

(** Time does not run backwards, and to read a message takes time. *)
Class IngressTime (Secret W : Type) `{IngressEnv Secret W} (time : W → Z) : Prop := {
  it_clock :: ClockLaws W time;
  it_keeps :: IngressKeeps Secret W (later time);
  it_write s m w : later time w (ws_write s m w).2;
  it_pause b w : later time w (set_paused b w);
  it_message s w m w' : ws_read s w = (Ok m, w') → time w < time w';
}.

Ltac ingress_law :=
  first [ apply ik_read | apply ik_flush | apply ik_clone | apply ik_read_timeout
        | apply ik_write_timeout | apply ik_nonblocking | apply ik_shutdown | apply ik_active
        | apply ik_revoked | apply ik_revision | apply ik_snapshot | apply ik_abort | apply ik_stop
        | apply ik_capture_end | apply ik_input_drops | apply ik_release ].
#[export] Hint Extern 1 => ingress_law : keeps.

Lemma keeps_requested {W} (R : relation W) `{!PreOrder R} context flag :
  (∀ w, R w (flag w).2) → ∀ w, R w (requested context flag w).2.
Proof. intros Hf w. destruct context; [apply Hf|done]. Qed.
#[export] Hint Extern 2 => apply keeps_requested; [exact _|keep] : keeps.

Section Keeping.
Context {Secret Url W : Type} `{SecretLib Secret, UrlLib Url} `{!IngressEnv Secret W}
  (R : relation W) `{!IngressKeeps Secret W R}.
Local Abbreviation Recovery := (PreparedIngressRecovery Secret).

Lemma keeps_valid (r : option Recovery) : keeps (E := BoxedError) R (capability_valid r).
Proof. unfold capability_valid. keep. Qed.
#[local] Hint Resolve keeps_valid : keeps.

Lemma keeps_flush_round ws deadline (r : option Recovery) : keeps R (flush_round ws deadline r).
Proof. unfold flush_round. keep. Qed.
#[local] Hint Resolve keeps_flush_round : keeps.

Lemma keeps_ready_round (c : RelayRouteConfiguration Secret) ws deadline :
  keeps R (ready_round c ws deadline).
Proof. unfold ready_round. keep. Qed.
#[local] Hint Resolve keeps_ready_round : keeps.

Lemma keeps_prepare (c : RelayRouteConfiguration Secret) ch deadline :
  keeps R (prepare (Url := Url) c ch deadline).
Proof. unfold prepare. keep. Qed.

Lemma keeps_wait_round context until : keeps R (wait_round context until).
Proof. unfold wait_round. keep. Qed.
#[local] Hint Resolve keeps_wait_round : keeps.

Lemma keeps_wait context attempt recovery_deadline :
  keeps R (wait_for_attempt context attempt recovery_deadline).
Proof. unfold wait_for_attempt. keep. Qed.

Lemma keeps_superseded (credential : PublisherCredential Secret) : keeps R (superseded credential).
Proof. unfold superseded. keep. Qed.

Lemma keeps_snapshot : keeps R (snapshot_credential (Secret := Secret)).
Proof. unfold snapshot_credential. keep. Qed.

Lemma keeps_attempt_deadline credential (r : Recovery) recovery_deadline :
  keeps R (attempt_deadline credential r recovery_deadline).
Proof. unfold attempt_deadline. keep. Qed.

Lemma keeps_after_failure context (credential : PublisherCredential Secret) e :
  keeps R (after_failure context credential e).
Proof. unfold after_failure. keep. Qed.

(** [send_until] fails before the socket sees the message, because the capability is
    superseded or the deadline has passed, or hands it over once and then only flushes. *)
Lemma send_until_stages ws m deadline (r : option Recovery) w res w' :
  send_until ws m deadline r w = (res, w') →
  (R w w' ∧ (res = failed Credential ∨ res = Err write_deadline)) ∨
  ∃ w0 w1, capability_valid r w = (Ok true, w0) ∧ R w w1 ∧ R (ws_write ws m w1).2 w'.
Proof.
  unfold send_until, mbind, io_bind at 1. intros Hs. pose proof (keeps_valid r w) as L1.
  destruct (capability_valid r w) as [[v|e] w1] eqn:E1.
  2:{ exfalso. destruct r as [r|]; [|done]. cbn in E1. unfold mbind, io_bind, io_lift in E1.
      repeat case_match; simplify_eq; done. }
  cbn in L1. destruct v; cbn [negb] in Hs; [|injection Hs as <- <-; left; by split; [|left]].
  unfold io_bind at 1, io_lift in Hs. pose proof (pk_now (R := R) w1) as L2.
  destruct (now w1) as [t w2]. cbn in L2. assert (R w w2) as L by by etrans.
  destruct (deadline <=? t); [injection Hs as <- <-; left; split; [done|by right]|].
  right. exists w1, w2. split; [done|]. split; [done|].
  unfold io_bind in Hs. destruct (ws_write ws m w2) as [written w3]. cbn [snd].
  pose proof (keeps_loop R flush_bound exhausted _ (keeps_flush_round ws deadline r) w3) as Hl.
  destruct written as [u|[[]| | | |]]; (by rewrite Hs in Hl) || (by injection Hs as _ <-).
Qed.

Lemma keeps_send_until ws m deadline (r : option Recovery) :
  (∀ w, R w (ws_write ws m w).2) → keeps R (send_until ws m deadline r).
Proof.
  intros Hw w. destruct (send_until ws m deadline r w) as [res w'] eqn:E.
  apply send_until_stages in E as [[H1 _]|(w0 & w1 & _ & H1 & H2)]; [done|]. cbn.
  etrans; [exact H1|]. etrans; [apply Hw|exact H2].
Qed.

Context (Hclose : ∀ s w, R w (ws_write s (MClose None) w).2).

Lemma keeps_cancel_connections cs deadline : ∀ failed w,
  R w (cancel_connections (Secret := Secret) cs deadline failed w).2.
Proof.
  induction cs as [|c cs IH]; intros failed w; [done|]. cbn [cancel_connections].
  pose proof (keeps_send_until (ws c) (MClose None) deadline None (Hclose (ws c)) w) as H1.
  destruct (send_until (ws c) _ _ _ w) as [sent w1].
  pose proof (ik_clone (ws c) w1) as H2. destruct (ws_clone_socket (ws c) w1) as [cloned w2].
  cbn in *. etrans; [exact H1|]. etrans; [exact H2|]. etrans; [|apply IH].
  destruct cloned; [apply ik_shutdown|done].
Qed.
End Keeping.

Ltac keeps_ingress :=
  first [ apply keeps_valid | apply keeps_flush_round | apply keeps_ready_round | apply keeps_prepare
        | apply keeps_wait_round | apply keeps_wait | apply keeps_superseded | apply keeps_snapshot
        | apply keeps_attempt_deadline | apply keeps_after_failure ]; exact _.
#[export] Hint Extern 1 (keeps _ _) => keeps_ingress : keeps.

Section Total.
Context {Secret Url W : Type} `{SecretLib Secret, UrlLib Url} `{!IngressEnv Secret W}
  (time : W → Z) `{!IngressTime Secret W time}.
Local Abbreviation Recovery := (PreparedIngressRecovery Secret).
Local Abbreviation Grp := (Group Secret W).

Lemma now_le w t w' : now w = (t, w') → time w ≤ t ≤ time w'.
Proof. intros Hn. pose proof (now_reads (time := time) w) as E1. by rewrite Hn in E1. Qed.

Lemma never_valid (r : option Recovery) : never exhausted (capability_valid r).
Proof. unfold capability_valid. nevers. Qed.
#[local] Hint Resolve never_valid : never.

Lemma never_flush_round ws deadline (r : option Recovery) :
  never exhausted (flush_round ws deadline r).
Proof. unfold flush_round. nevers. Qed.

Lemma flush_round_continues ws deadline (r : option Recovery) w w' :
  flush_round ws deadline r w = (Ok None, w') →
  time w < deadline ∧ time w + MILLISECOND ≤ time w'.
Proof.
  unfold flush_round. intros (v & w1 & E1 & E2)%io_bind_Ok.
  pose proof (keeps_time _ _ _ _ _ (keeps_valid (later time) r) E1) as L1.
  destruct v; [|done]. cbn [negb] in E2. apply io_bind_Ok in E2 as (f & w2 & E2%io_lift_Ok & E3).
  pose proof (ik_flush (R := later time) ws w1) as L2. rewrite E2 in L2.
  destruct f as [u|[[]| | | |]]; try done.
  apply io_bind_Ok in E3 as (t & w3 & E3%io_lift_Ok & E4). apply now_le in E3.
  destruct (Z.leb_spec deadline t); [done|]. apply io_bind_Ok in E4 as (u & w4 & E4 & E5).
  injection E4 as _ <-. injection E5 as <-. pose proof (sleep_lasts (time := time) MILLISECOND w3).
  unfold later, MILLISECOND in *. cbn in L2. lia.
Qed.

Lemma send_until_answers ws m deadline (r : option Recovery) w :
  deadline ≤ time w + MAX_FRAME_AGE → (send_until ws m deadline r w).1 ≠ Err exhausted.
Proof.
  intros Hd. unfold send_until, mbind, io_bind at 1.
  pose proof (never_valid r w) as N1. destruct (capability_valid r w) as [[v|e] w1] eqn:E1;
    [|cbn in *; congruence].
  pose proof (keeps_time _ _ _ _ _ (keeps_valid (later time) r) E1) as L1.
  destruct v; [|done]. cbn [negb]. unfold io_bind at 1, io_lift.
  destruct (now w1) as [t w2] eqn:E2. apply now_le in E2. case_match; [done|].
  unfold io_bind. pose proof (it_write (time := time) ws m w2) as L3. cbn in L3.
  destruct (ws_write ws m w2) as [written w3]. cbn in L3. unfold later in L3.
  assert ((io_loop flush_bound exhausted (flush_round ws deadline r) w3).1 ≠ Err exhausted) as Hl.
  { destruct (deadline_loop_total time flush_bound exhausted (flush_round ws deadline r) deadline
      MILLISECOND 200 w3) as (w0 & res & w4 & Hr & Hm); [done| | |done|done|].
    - intros. by eapply flush_round_continues.
    - unfold MAX_FRAME_AGE in Hd. lia.
    - rewrite Hr. cbn. destruct res as [a|e]; [done|]. intros [= ->].
      pose proof (never_flush_round ws deadline r w0) as Hn. rewrite Hm in Hn. by apply Hn. }
  destruct written as [u|[[]| | | |]]; done || exact Hl.
Qed.

(** A WebSocket write comes to an answer within its 200 ms deadline: for every
    behaviour of the socket, the clock and the other threads, the flush loop ends with
    success, a classified socket error, a superseded capability or the deadline. *)
Theorem send_until_total ws m deadline (r : option Recovery) w
  (Hd : deadline ≤ time w + MAX_FRAME_AGE) :
  ∃ res w', send_until ws m deadline r w = (res, w') ∧ res ≠ Err exhausted ∧ time w ≤ time w'.
Proof.
  pose proof (send_until_answers ws m deadline r w Hd) as Hn.
  pose proof (keeps_send_until (later time) ws m deadline r (it_write (time := time) ws m) w) as Hk.
  destruct (send_until ws m deadline r w) as [res w']. by exists res, w'.
Qed.

(** *** Admission *)

Lemma never_ready_round (c : RelayRouteConfiguration Secret) ws deadline :
  never exhausted (ready_round c ws deadline).
Proof. unfold ready_round. nevers. Qed.

Lemma remaining_Ok deadline m w d w' :
  remaining_until deadline m w = (Ok d, w') → deadline - d ≤ time w' ∧ 0 ≤ d.
Proof.
  unfold remaining_until. destruct (now w) as [t w1] eqn:En. apply now_le in En.
  destruct (Z.leb_spec t deadline); [|done]. intros [= <- <-]. lia.
Qed.

Lemma ready_round_continues (c : RelayRouteConfiguration Secret) ws deadline w w' :
  ready_round c ws deadline w = (Ok None, w') →
  time w < deadline + 1 ∧ time w + 1 ≤ time w'.
Proof.
  unfold ready_round. intros (d & w1 & E1 & E2)%io_bind_Ok.
  pose proof (keeps_time _ _ _ _ _ (keeps_remaining _ _) E1) as L1.
  assert (time w ≤ deadline) as Ld.
  { unfold remaining_until in E1. destruct (now w) as [t w2] eqn:En. apply now_le in En.
    destruct (Z.leb_spec t deadline); [lia|done]. }
  apply io_bind_Ok in E2 as (u & w2 & E2 & E3).
  pose proof (keeps_time _ _ _ _ _ (keeps_syscall _ _ (ik_read_timeout (R := later time) ws d)) E2) as L2.
  apply io_bind_Ok in E3 as (m & w3 & E3%io_lift_Ok & E4).
  assert (w' = w3 ∧ ∃ x, m = Ok x) as [-> [x ->]].
  { repeat case_match; try done; injection E4 as <-; split; try done; by eexists. }
  apply (it_message (time := time)) in E3. lia.
Qed.

Lemma never_prepare (c : RelayRouteConfiguration Secret) ch deadline :
  never exhausted (prepare (Url := Url) c ch deadline).
Proof.
  unfold prepare. apply never_bind.
  { apply never_result. unfold ingress_url. do 3 (apply ok_or_never; [done|intros ?]). done. }
  intros url. apply never_bind; [nevers|]. intros s w. unfold mbind, io_bind at 1.
  pose proof (never_remaining deadline readiness_deadline ltac:(done) w) as Nr.
  destruct (remaining_until deadline readiness_deadline w) as [[d|e] w1] eqn:Ed;
    [|cbn in *; congruence].
  apply remaining_Ok in Ed as [Hd Hd0]. clear Nr. revert w1 Hd.
  match goal with |- ∀ w, _ → (?m w).1 ≠ _ =>
    change (never_from exhausted (λ w, deadline - d ≤ time w) m) end.
  do 3 (apply (never_from_bind exhausted (later time));
          [unfold later; lia|keep|apply never_from_never; nevers|]; intros _).
  apply (never_from_bind exhausted (later time)); [unfold later; lia|keep| |].
  - apply (before_deadline_from (later time) (λ w, deadline - d ≤ time w)); [unfold later; lia|].
    intros w2 Hw2.
    destruct (deadline_loop_total time (ready_bound d) exhausted (ready_round c s deadline)
      (deadline + 1) 1 (d + 1) w2) as (w0 & res & w4 & Hr & Hm); [done| |lia|lia| |].
    + intros. by eapply ready_round_continues.
    + unfold ready_bound. rewrite Z2Pos.id; lia.
    + rewrite Hr. cbn. destruct res as [a|e]; [done|]. intros [= ->].
      pose proof (never_ready_round c s deadline w0) as Hn. rewrite Hm in Hn. by apply Hn.
  - intros ready. apply never_from_never. nevers.
Qed.

(** *** Reattachment *)

#[local] Hint Resolve never_prepare : never.

Lemma never_wait_round context until : never exhausted (wait_round context until).
Proof. unfold wait_round. nevers. Qed.

Lemma wait_round_continues context until w w' :
  wait_round context until w = (Ok None, w') → time w < until ∧ time w + MILLISECOND ≤ time w'.
Proof.
  unfold wait_round. intros (t & w1 & E1%io_lift_Ok & E2)%io_bind_Ok. apply now_le in E1.
  destruct (Z.leb_spec until t); [done|].
  apply io_bind_Ok in E2 as (b & w2 & E2%io_lift_Ok & E3).
  pose proof (keeps_requested (later time) context stop_requested (ik_stop (R := later time)) w1) as L2.
  rewrite E2 in L2. destruct b; [done|].
  apply io_bind_Ok in E3 as (b & w3 & E3%io_lift_Ok & E4).
  pose proof (ik_revoked (R := later time) w2) as L3. rewrite E3 in L3. destruct b; [done|].
  apply io_bind_Ok in E4 as (u & w4 & E4 & E5). injection E4 as _ <-. injection E5 as <-.
  pose proof (sleep_lasts (time := time) MILLISECOND w3).
  unfold later, MILLISECOND in *. cbn in L2, L3. lia.
Qed.

Lemma never_wait_for_attempt context attempt recovery_deadline :
  (attempt < RECOVERY_ATTEMPTS)%nat →
  never exhausted (wait_for_attempt context attempt recovery_deadline).
Proof.
  intros Ha w. unfold wait_for_attempt, mbind, io_bind at 1, io_lift at 1.
  destruct (now w) as [t w1] eqn:Et. apply now_le in Et.
  apply (never_from_bind exhausted (later time) (λ w, t ≤ time w)); [unfold later; lia|keep| | |lia].
  - intros w2 Hw2. set (until := Z.min (t + backoff attempt) recovery_deadline).
    assert (backoff attempt ≤ 400 * MILLISECOND) as Hb.
    { unfold RECOVERY_ATTEMPTS in Ha. do 3 (destruct attempt as [|attempt]; [done|]). lia. }
    destruct (deadline_loop_total time wait_bound exhausted (wait_round context until)
      until MILLISECOND 400 w2) as (w0 & res & w4 & Hr & Hm); [done| |lia|done|done|].
    + intros. by eapply wait_round_continues.
    + rewrite Hr. cbn. destruct res as [a|e]; [done|]. intros [= ->].
      pose proof (never_wait_round context until w0) as Hn. rewrite Hm in Hn. by apply Hn.
  - intros go. apply never_from_never. nevers.
Qed.

Lemma never_superseded (c : PublisherCredential Secret) : never exhausted (superseded c).
Proof. unfold superseded. nevers. Qed.
#[local] Hint Resolve never_superseded : never.

Lemma never_on_world {A} (m : io W BoxedError A) :
  never exhausted m → never (W := Grp) exhausted (on_world m).
Proof. intros Hm g. unfold on_world. specialize (Hm (world g)). by destruct (m (world g)). Qed.
#[local] Hint Extern 1 (never _ (on_world _)) => apply never_on_world; nevers : never.
#[local] Hint Extern 1 (never _ get_active) => done : never.
#[local] Hint Extern 1 (never _ get_recovery) => done : never.
#[local] Hint Extern 1 (never _ (set_active _)) => done : never.
#[local] Hint Extern 1 (never _ (set_credential _)) => done : never.

Lemma admit_group_answers context credential deadline cs : ∀ index acc (g : Grp),
  (admit_group (Url := Url) index cs context credential deadline acc g).1.1 ≠ Err exhausted.
Proof.
  induction cs as [|c cs IH]; intros index acc g; [done|]. cbn [admit_group].
  match goal with |- context [match ?m g with _ => _ end] => assert (never exhausted m) as N1 end.
  { nevers. }
  specialize (N1 g).
  match goal with |- context [match ?m g with _ => _ end] => destruct (m g) as [[[conn h]|e] g1] end;
    [|cbn in *; congruence].
  case_match; [done|].
  match goal with |- context [match ?m ?g' with _ => _ end] =>
    assert (never exhausted m) as N2; [|specialize (N2 g'); destruct (m g') as [[[]|e] g2]] end;
    [|done|apply IH|cbn in *; congruence].
  nevers.
Qed.

Lemma never_after_failure context credential e :
  e ≠ exhausted → never exhausted (after_failure (W := W) (Secret := Secret) context credential e).
Proof.
  intros He. unfold after_failure. nevers.
Qed.

Lemma never_at_stream {A} index (m : io (ActiveIngress * W) BoxedError A) :
  never exhausted m → never (W := Grp) exhausted (at_stream index m).
Proof.
  intros Hm g. unfold at_stream. destruct (active g !! index) as [a|]; [|done].
  specialize (Hm (a, world g)). by destruct (m (a, world g)) as [r [a' w']].
Qed.

Lemma never_attach_all renewed revision cs : ∀ index,
  never (W := Grp) exhausted (attach_all renewed revision index cs).
Proof.
  induction cs as [|c cs IH]; intros index; cbn [attach_all]; unfold attach_stream; nevers.
  apply never_at_stream. by intros [].
Qed.

Lemma never_close : never (W := Grp) exhausted close_active.
Proof. unfold close_active. nevers. intros g. unfold io_fun. by destruct (cancel _ (world g)). Qed.
#[local] Hint Resolve never_attach_all never_after_failure never_close : never.

(** The end of an attempt, from the outcome of the admission on. *)
Lemma never_abandoned context credential recovery_deadline cs e :
  e ≠ exhausted → never (W := Grp) exhausted
    (t ← on_world (io_lift now);
     _ ← io_fun (λ g, let '(_, w) := cancel_until (Secret := Secret) cs (Z.min (t + MAX_FRAME_AGE) recovery_deadline) (world g) in
                      (Ok (), mkGroup (active g) (recovery g) w));
     again ← on_world (after_failure (Secret := Secret) context credential e);
     mret (if again : bool then None else Some false)).
Proof. intros He. nevers. intros g. unfold io_fun. by destruct (cancel_until _ _ (world g)). Qed.

Lemma never_attempt_deadline credential (r : Recovery) recovery_deadline :
  never exhausted (attempt_deadline (W := W) credential r recovery_deadline).
Proof. unfold attempt_deadline. nevers. Qed.
#[local] Hint Resolve never_attempt_deadline : never.

Lemma never_reattach_attempt context reason recovery_deadline attempt (r : Recovery) :
  (attempt < RECOVERY_ATTEMPTS)%nat →
  never (W := Grp) exhausted (reattach_attempt (Url := Url) context reason recovery_deadline attempt r).
Proof.
  intros Ha. apply never_bind; [by apply never_on_world, never_wait_for_attempt|].
  unfold snapshot_credential. nevers. intros g. unfold io_fun.
  match goal with |- context [admit_group 0 ?cs _ ?k ?d [] g] =>
    pose proof (admit_group_answers context k d cs 0 [] g) as Hn end.
  destruct (admit_group _ _ _ _ _ _ g) as [[[u|e] cs] g1]; cbn in Hn.
  - revert g1 Hn. match goal with |- ∀ g, _ → (?m g).1 ≠ _ => assert (never exhausted m) as Hm by nevers end.
    intros. apply Hm.
  - apply never_abandoned. congruence.
Qed.

Lemma never_reattach context reason (r : Recovery) :
  never (W := Grp) exhausted (reattach (Url := Url) context reason r).
Proof.
  unfold reattach. nevers.
  assert (Forall (λ a, (a < RECOVERY_ATTEMPTS)%nat) (seq 0 RECOVERY_ATTEMPTS)) as Ha
    by (repeat constructor; unfold RECOVERY_ATTEMPTS; lia).
  revert Ha. generalize (seq 0 RECOVERY_ATTEMPTS). induction 1 as [|n l Ha _ IH]; cbn [reattach_attempts]; nevers.
  by apply never_reattach_attempt.
Qed.
#[local] Hint Resolve never_reattach : never.

(** *** The publication loop *)

Lemma never_in_world {A} (m : io W BoxedError A) :
  never exhausted m → never (W := ActiveIngress * W) exhausted (in_world m).
Proof. intros Hm [a w]. cbn. specialize (Hm w). by destruct (m w). Qed.
#[local] Hint Extern 1 (never _ (in_world _)) => apply never_in_world; nevers : never.
#[local] Hint Extern 1 (never _ (gets _)) => by intros [] : never.
#[local] Hint Extern 1 (never _ (modify _)) => by intros [] : never.

Lemma never_connection : never (W := ActiveIngress * W) exhausted get_connection.
Proof. unfold get_connection. nevers. Qed.
#[local] Hint Resolve never_connection : never.

Lemma never_send_frame frame (r : option Recovery) : never exhausted (send_frame frame r).
Proof.
  unfold send_frame. apply never_bind; [nevers|]. intros []; [nevers|]. apply never_bind; [nevers|].
  intros cutoff. case_match; [nevers|]. apply never_bind; [nevers|]. intros t0. case_match; [nevers|].
  apply never_bind; [nevers|]. intros c. apply never_bind; [nevers|].
  intros packet [a w]. unfold mbind, io_bind, in_world, io_lift, io_fun.
  destruct (now w) as [t w1] eqn:E1. apply now_le in E1.
  destruct (now w1) as [t' w2] eqn:E2. apply now_le in E2. cbv zeta.
  pose proof (send_until_answers (ws c) (MBinary packet)
    (Z.min (t + MAX_FRAME_AGE)
       (from_option (λ r, valid_until (recovery_credential r)) (t' + MAX_FRAME_AGE) r)) r w2
    ltac:(lia)) as Hs.
  destruct (send_until _ _ _ _ w2) as [[u|e] w3]; [done|]. cbn in *. congruence.
Qed.
#[local] Hint Resolve never_send_frame : never.

Lemma never_poll_stream (r : option Recovery) : never exhausted (poll_stream r).
Proof.
  unfold poll_stream. nevers. apply never_result. unfold poll_socket. by repeat case_match.
Qed.

Lemma never_failure context e :
  e ≠ exhausted → never (W := Grp) exhausted (poll_failure (Url := Url) context e).
Proof. intros He. unfold poll_failure. nevers. Qed.

Lemma poll_all_answers context indices : ∀ progress,
  never (W := Grp) exhausted (poll_all (Url := Url) context indices progress).
Proof.
  induction indices as [|i l IH]; intros progress; [apply never_ret|]. intros g. cbn [poll_all].
  pose proof (never_at_stream i _ (never_poll_stream (recovery g)) g) as Hp.
  destruct (at_stream i _ g) as [[polled|e] g1]; [apply IH|]. apply never_failure. cbn in Hp. congruence.
Qed.
#[local] Hint Resolve poll_all_answers : never.

Lemma never_check context : never (W := Grp) exhausted (check_capability (Url := Url) context).
Proof. unfold check_capability. nevers. Qed.
#[local] Hint Resolve never_check : never.

(** C13: Every iteration of the publication loop comes to an answer.  Whatever the sockets,
    the Relay, the clock and the other threads do, none of its loops (the flush of a
    write, the wait for READY, the back-off before an attempt, the attempts themselves)
    runs more rounds than its bound: the iteration goes on, ends the publication, or
    fails with an error of the program. *)
Theorem publish_round_total context (g : Grp) :
  (publish_round (Url := Url) context g).1 ≠ Err exhausted.
Proof.
  revert g. match goal with |- ∀ g, (?m g).1 ≠ _ => change (never exhausted m) end.
  unfold publish_round. nevers.
Qed.
End Total.

(** ** The wire format *)

Definition be_value (l : list Z) : Z := fold_left (λ acc b, acc * 256 + b) l 0.

Lemma be_value_app l k : be_value (l ++ k) = be_value l * 256 ^ Z.of_nat (length k) + be_value k.
Proof.
  unfold be_value. rewrite fold_left_app. generalize (fold_left (λ acc b, acc * 256 + b) l 0). intros a.
  assert (∀ k a, fold_left (λ acc b, acc * 256 + b) k a
    = a * 256 ^ Z.of_nat (length k) + fold_left (λ acc b, acc * 256 + b) k 0) as H; [|apply H].
  clear. induction k as [|b k IH]; intros a; cbn [fold_left length]; [cbn; lia|].
  rewrite IH, (IH (0 * 256 + b)), Nat2Z.inj_succ, Z.pow_succ_r by lia. lia.
Qed.

Lemma be_bytes_length n z : length (be_bytes n z) = n.
Proof. revert z. induction n; intros z; cbn; [done|]. by rewrite IHn. Qed.

Lemma be_bytes_range n z : Forall (λ b, 0 ≤ b < 256) (be_bytes n z).
Proof. revert z. induction n; intros z; cbn; constructor; [apply Z.mod_pos_bound; lia|done]. Qed.

Lemma be_value_bytes n z : be_value (be_bytes n z) = z mod 256 ^ Z.of_nat n.
Proof.
  induction n as [|n IH]; [by rewrite Z.mod_1_r|]. cbn [be_bytes].
  change (?a :: ?l) with ([a] ++ l). rewrite be_value_app, IH, be_bytes_length.
  rewrite Nat2Z.inj_succ, Z.pow_succ_r by lia. change (be_value [?a]) with (0 * 256 + a).
  rewrite (Z.mul_comm 256), Z.rem_mul_r by lia. lia.
Qed.

(** A packet as a receiver reads it: fixed offsets of the 40-byte header. *)
Record Packet : Type := mkPacket {
  packet_channels : Z;
  packet_sequence : Z;
  packet_timestamp : Z;
  packet_duration : Z;
  packet_capture_ns : Z;
  packet_generation : Z;
  packet_payload : list Z;
}.

Definition field (p : list Z) (offset width : nat) : Z := be_value (take width (drop offset p)).

Definition decode_packet (p : list Z) : option Packet :=
  if bool_decide (take 5 p = lit "PKSO" ++ [1]) && bool_decide (take 2 (drop 6 p) = [0; 0])
     && (field p 22 2 =? Z.of_nat (length p - HEADER_BYTES))
  then Some {| packet_channels := field p 5 1; packet_sequence := field p 8 8;
               packet_timestamp := field p 16 4; packet_duration := field p 20 2;
               packet_capture_ns := field p 24 8; packet_generation := field p 32 8;
               packet_payload := drop HEADER_BYTES p |}
  else None.

(** Reading the blocks of a header back at their offsets. *)
Lemma decode_blocks c sq ts du ln ca ge (pl : list Z) q t d a g :
  length sq = 8%nat → length ts = 4%nat → length du = 2%nat → length ln = 2%nat →
  length ca = 8%nat → length ge = 8%nat →
  be_value sq = q → be_value ts = t → be_value du = d → be_value ln = Z.of_nat (length pl) →
  be_value ca = a → be_value ge = g →
  decode_packet (lit "PKSO" ++ [1; c; 0; 0] ++ sq ++ ts ++ du ++ ln ++ ca ++ ge ++ pl)
  = Some (mkPacket c q t d a g pl).
Proof.
  intros L1 L2 L3 L4 L5 L6 Vq Vt Vd Vl Va Vg.
  do 8 (destruct sq as [|? sq]; [done|]). destruct sq; [|done].
  do 4 (destruct ts as [|? ts]; [done|]). destruct ts; [|done].
  do 2 (destruct du as [|? du]; [done|]). destruct du; [|done].
  do 2 (destruct ln as [|? ln]; [done|]). destruct ln; [|done].
  do 8 (destruct ca as [|? ca]; [done|]). destruct ca; [|done].
  do 8 (destruct ge as [|? ge]; [done|]). destruct ge; [|done].
  clear L1 L2 L3 L4 L5 L6. unfold decode_packet, field, HEADER_BYTES.
  cbn [lit app take drop length Nat.sub].
  rewrite take_0, drop_0, Nat.sub_0_r, Vq, Vt, Vd, Vl, Va, Vg, Z.eqb_refl.
  by rewrite !bool_decide_eq_true_2 by done.
Qed.

(** What a frame must be to be sent: the [matches!] and bounds of [encode_packet]. *)
Definition encodable (frame : EncodedAudioFrame) (channels : Z) : Prop :=
  (channels = 1 ∨ channels = 2) ∧ duration_samples frame = DURATION_SAMPLES
  ∧ (1 ≤ length (payload frame) ≤ MAX_OPUS_PAYLOAD_BYTES)%nat
  ∧ (DURATION_SAMPLES | rtp_time frame).

Lemma encode_packet_Ok frame channels p :
  encode_packet frame channels = Ok p →
  encodable frame channels ∧
  p = lit "PKSO" ++ [1; channels; 0; 0]
      ++ be_bytes 8 (rtp_time frame / DURATION_SAMPLES) ++ drop 4 (be_bytes 8 (rtp_time frame))
      ++ be_bytes 2 DURATION_SAMPLES ++ be_bytes 2 (Z.of_nat (length (payload frame)))
      ++ be_bytes 8 (capture_timestamp_ns frame)
      ++ be_bytes 8 (from_option generation_id 0 (encoded_generation frame))
      ++ (byte_value <$> payload frame).
Proof.
  unfold encode_packet. destruct (_ || _) eqn:E; [done|]. cbv zeta.
  destruct (Z.eqb_spec (rtp_time frame mod DURATION_SAMPLES) 0) as [Hm|]; [|done].
  cbn [negb]. intros [= <-]. bool_props. split; [|done]. unfold encodable.
  split; [|split; [done|split]].
  - destruct (Z.eqb_spec channels 1), (Z.eqb_spec channels 2); [by left..|by right|done].
  - destruct (payload frame); [done|]. cbn in *. lia.
  - by apply Z.mod_divide.
Qed.

Lemma encode_packet_complete frame channels :
  encodable frame channels → ∃ p, encode_packet frame channels = Ok p.
Proof.
  intros (Hc & Hd & Hl & Ht). unfold encode_packet.
  destruct (_ || _) eqn:E.
  { exfalso. apply orb_true_iff in E as [E|E]; [|apply Nat.ltb_lt in E; lia].
    apply orb_true_iff in E as [E|E]; [|bool_props; rewrite E in Hl; cbn in Hl; lia].
    apply orb_true_iff in E as [E|E]; bool_props; [|done].
    destruct Hc as [->| ->]; done. }
  cbv zeta. apply Z.mod_divide in Ht; [|done]. rewrite Ht. cbn. by eexists.
Qed.

(** What a receiver reads back of a frame, at the width of the header's fields. *)
Lemma decode_encoded frame channels p :
  encode_packet frame channels = Ok p →
  length p = (HEADER_BYTES + length (payload frame))%nat ∧
  decode_packet p = Some {|
    packet_channels := channels;
    packet_sequence := (rtp_time frame / DURATION_SAMPLES) mod 2 ^ 64;
    packet_timestamp := rtp_time frame mod 2 ^ 32;
    packet_duration := DURATION_SAMPLES;
    packet_capture_ns := capture_timestamp_ns frame mod 2 ^ 64;
    packet_generation := from_option generation_id 0 (encoded_generation frame) mod 2 ^ 64;
    packet_payload := byte_value <$> payload frame |}.
Proof.
  intros [(Hc & Hd & Hl & Ht) ->]%encode_packet_Ok.
  set (pl := byte_value <$> payload frame).
  assert (length pl = length (payload frame)) as Hpl by apply length_fmap.
  assert (drop 4 (be_bytes 8 (rtp_time frame)) = be_bytes 4 (rtp_time frame)) as -> by done.
  split.
  { rewrite !length_app, !be_bytes_length, Hpl. reflexivity. }
  assert (be_value (be_bytes 2 (Z.of_nat (length pl))) = Z.of_nat (length pl)) as V2.
  { rewrite be_value_bytes. apply Z.mod_small. unfold MAX_OPUS_PAYLOAD_BYTES in Hl. lia. }
  rewrite <- Hpl. eapply decode_blocks; try apply be_bytes_length; try exact V2; try done;
    apply (be_value_bytes 8) || apply (be_value_bytes 4).
Qed.

(** C35: The binary packet says everything about its frame.  A frame is refused exactly
    when it is not a mono or stereo, frame-aligned 20 ms packet of 1 to 1275 bytes; every
    other frame becomes a 40-byte header and the payload, from which a receiver reads
    back the channel count, the frame's number in the stream, the low 32 bits of its
    sample timestamp, its capture time, its output generation and the Opus bytes. *)
Theorem encode_packet_roundtrip frame channels
  (Htime : u64 (rtp_time frame)) (Hcapture : u64 (capture_timestamp_ns frame))
  (Hgen : u64 (from_option generation_id 0 (encoded_generation frame))) :
  (encodable frame channels ↔ is_ok (encode_packet frame channels) = true) ∧
  ∀ p, encode_packet frame channels = Ok p →
    length p = (HEADER_BYTES + length (payload frame))%nat ∧
    decode_packet p = Some {|
      packet_channels := channels;
      packet_sequence := rtp_time frame / DURATION_SAMPLES;
      packet_timestamp := rtp_time frame mod 2 ^ 32;
      packet_duration := DURATION_SAMPLES;
      packet_capture_ns := capture_timestamp_ns frame;
      packet_generation := from_option generation_id 0 (encoded_generation frame);
      packet_payload := byte_value <$> payload frame |}.
Proof.
  split.
  { split.
    - intros [p ->]%encode_packet_complete. done.
    - destruct (encode_packet frame channels) as [p|] eqn:E; [|done]. by apply encode_packet_Ok in E as [? _]. }
  assert (∀ z, u64 z → z mod 2 ^ 64 = z) as Hsmall.
  { intros z Hz. apply Z.mod_small. unfold u64, U64_MAX in Hz. lia. }
  assert (u64 (rtp_time frame / DURATION_SAMPLES)) as Hq.
  { unfold u64, DURATION_SAMPLES in *. split; [apply Z.div_pos; lia|].
    apply Z.div_le_upper_bound; lia. }
  intros p [Hl Hp]%decode_encoded. split; [done|]. by rewrite Hp, !Hsmall.
Qed.

(** ** A message is queued once *)

(** [queued w] logs the messages handed to [ws_write], oldest first; nothing else
    queues one. *)
Definition same_log {W} (queued : W → list (Ws * WsMessage)) (w w' : W) : Prop :=
  queued w' = queued w.

#[export] Instance same_log_preorder {W} (queued : W → list (Ws * WsMessage)) :
  PreOrder (same_log queued).
Proof. unfold same_log. split; [done|]. intros a b c. congruence. Qed.

Class IngressLog (Secret W : Type) `{IngressEnv Secret W} (queued : W → list (Ws * WsMessage))
  : Prop := {
  il_keeps :: IngressKeeps Secret W (same_log queued);
  il_write s m w : queued (ws_write s m w).2 = queued w ++ [(s, m)];
}.

Section QueueOnce.
Context {Secret Url W : Type} `{SecretLib Secret, UrlLib Url} `{!IngressEnv Secret W}
  (queued : W → list (Ws * WsMessage)) `{!IngressLog Secret W queued}.
Local Abbreviation Recovery := (PreparedIngressRecovery Secret).

(** Media is queued exactly once and only with a valid capability.  [send_until]
    either fails before the socket sees the message, because the capability is
    superseded or the deadline has passed, or hands the message to the socket once and
    from then on only flushes; success means it was handed over. *)
Theorem send_until_queues_once ws m deadline (r : option Recovery) w res w'
  (Hs : send_until ws m deadline r w = (res, w')) :
  (queued w' = queued w ∧ (res = failed Credential ∨ res = Err write_deadline)) ∨
  (queued w' = queued w ++ [(ws, m)] ∧
   ∃ w0, capability_valid r w = (Ok true, w0)).
Proof.
  apply (send_until_stages (same_log queued)) in Hs as [Hs|(w0 & w1 & Hv & H1 & H2)]; [by left|].
  right. split; [|by exists w0]. unfold same_log in *. by rewrite H2, il_write, H1.
Qed.
End QueueOnce.

(** ** Every frame is accounted for *)

Section Accounting.
Context {Secret Url W : Type} `{SecretLib Secret, UrlLib Url} `{!IngressEnv Secret W}.
Local Abbreviation Recovery := (PreparedIngressRecovery Secret).
Local Abbreviation Grp := (Group Secret W).

(** Frames this stream has sent, dropped in recovery, dropped as stale or as cancelled. *)
Definition accounted (a : ActiveIngress) : Z :=
  ingress_frames_sent (statistics a) + ingress_recovery_opus_drops (statistics a)
  + publisher_stale_drops (counters a) + cancelled_output_frames (counters a).

(** No counter is about to saturate or wrap. *)
Definition counters_below (a : ActiveIngress) : Prop :=
  0 ≤ ingress_frames_sent (statistics a) < U64_MAX ∧
  0 ≤ ingress_recovery_opus_drops (statistics a) < U64_MAX ∧
  0 ≤ publisher_stale_drops (counters a) < U64_MAX ∧
  0 ≤ cancelled_output_frames (counters a) < U64_MAX.

Lemma accounted_cancelled a :
  counters_below a → accounted (with_counters (add_cancelled_frames 1) a) = accounted a + 1.
Proof.
  intros (_ & _ & _ & Hc). unfold accounted. destruct a as [? ? [] ? ? ? ? ?]; cbn in *.
  rewrite wrap_add_exact; [lia|]. unfold u64. lia.
Qed.

Lemma accounted_stale a :
  counters_below a → accounted (with_counters (add_stale_drops 1) a) = accounted a + 1.
Proof.
  intros (_ & _ & Hc & _). unfold accounted. destruct a as [? ? [] ? ? ? ? ?]; cbn in *.
  rewrite wrap_add_exact; [lia|]. unfold u64. lia.
Qed.

Lemma accounted_dropped a :
  counters_below a → accounted (with_statistics count_opus_drop a) = accounted a + 1.
Proof.
  intros (_ & Hc & _). unfold accounted. destruct a as [? ? ? [] ? ? ? ?]; cbn in *.
  rewrite sat_add_exact; lia.
Qed.

Lemma accounted_sent n a :
  counters_below a → accounted (with_statistics (count_sent n) a) = accounted a + 1.
Proof.
  intros (Hc & _). unfold accounted. destruct a as [? ? ? [] ? ? ? ?]; cbn in *.
  rewrite sat_add_exact; lia.
Qed.

(** What sending and polling leave alone. *)
Definition same_attachment (a a' : ActiveIngress) : Prop :=
  connection a' = connection a ∧ highest_generation a' = highest_generation a
  ∧ active_channels a' = active_channels a ∧ encoded_rx a' = encoded_rx a
  ∧ ingress_source_generation (statistics a') = ingress_source_generation (statistics a)
  ∧ ingress_reconnect_attempts (statistics a') = ingress_reconnect_attempts (statistics a).

Lemma same_attachment_refl a : same_attachment a a.
Proof. done. Qed.

Lemma send_frame_cases frame (r : option Recovery) a w res a' w' :
  send_frame frame r (a, w) = (res, (a', w')) →
  (res = Ok () ∧ a' = with_counters (add_cancelled_frames 1) a)
  ∨ (res = Ok () ∧ a' = with_statistics count_opus_drop a)
  ∨ (res = Ok () ∧ a' = with_counters (add_stale_drops 1) a)
  ∨ (res = Ok () ∧ a' = with_statistics (count_sent (Z.of_nat (length (payload frame)))) a
     ∧ ∃ c p, connection a = Some c ∧ encode_packet frame (channels c) = Ok p)
  ∨ (is_err res = true ∧ a' = with_statistics count_opus_drop a)
  ∨ (res = failed Protocol ∧ a' = a
     ∧ ∀ c, connection a = Some c → is_err (encode_packet frame (channels c)) = true).
Proof.
  unfold send_frame, mbind, io_bind at 1, in_world, io_lift.
  destruct (generation_cancelled _ w) as [cancelled w1]. destruct cancelled.
  { intros [= <- <- <-]. by left. }
  unfold io_bind at 1, gets.
  destruct (from_option _ false (not_before_capture_ns a)).
  { intros [= <- <- <-]. right. by left. }
  unfold io_bind at 1. destruct (now w1) as [t w2].
  destruct (MAX_FRAME_AGE <? t - wallclock frame).
  { intros [= <- <- <-]. right. right. by left. }
  unfold io_bind, get_connection, mbind, io_bind, gets, io_result.
  destruct (connection a) as [c|] eqn:Ec.
  2:{ intros [= <- <- <-]. do 5 right. by split. }
  cbn [ok_or]. destruct (encode_packet frame (channels c)) as [p|e] eqn:Ep; cbn [map_err].
  2:{ intros [= <- <- <-]. do 5 right. split; [done|]. split; [done|]. intros c' [= <-]. by rewrite Ep. }
  destruct (now w2) as [t1 w3]. destruct (now w3) as [t2 w4]. unfold io_fun. cbv zeta.
  destruct (send_until _ _ _ _ w4) as [[u|e] w5]; intros [= <- <- <-].
  - do 3 right. left. split; [done|]. split; [done|]. by exists c, p.
  - do 4 right. left. done.
Qed.

(** Every encodable frame taken from an encoder is counted exactly once, whatever
    happens to it: sent, cancelled with its output, too old, captured before the
    attachment, or lost because the write failed. *)
Theorem send_frame_accounts frame (r : option Recovery) a w res a' w' c p
  (Hs : send_frame frame r (a, w) = (res, (a', w')))
  (Hc : connection a = Some c) (Hp : encode_packet frame (channels c) = Ok p)
  (Hb : counters_below a) :
  accounted a' = accounted a + 1 ∧ same_attachment a a'.
Proof.
  apply send_frame_cases in Hs as
    [[_ ->]|[[_ ->]|[[_ ->]|[(_ & -> & _)|[[_ ->]|(_ & -> & Hn)]]]]].
  - split; [by apply accounted_cancelled|done].
  - split; [by apply accounted_dropped|]. unfold same_attachment. by destruct a as [? ? ? [] ? ? ? ?].
  - split; [by apply accounted_stale|done].
  - split; [by apply accounted_sent|]. unfold same_attachment. by destruct a as [? ? ? [] ? ? ? ?].
  - split; [by apply accounted_dropped|]. unfold same_attachment. by destruct a as [? ? ? [] ? ? ? ?].
  - specialize (Hn c Hc). by rewrite Hp in Hn.
Qed.

(** A frame without a capture time counts as older than every attachment but the first
    one, once a cutoff has been recorded. *)
Example untimestamped_frame_dropped frame (r : option Recovery) a w :
  (∃ cutoff, not_before_capture_ns a = Some cutoff ∧ 0 < cutoff) →
  capture_timestamp_ns frame = 0 → encoded_generation frame = None →
  send_frame frame r (a, w) = (Ok (), (with_statistics count_opus_drop a, w)).
Proof.
  intros (cutoff & Ha & Hpos) Ht Hg. unfold send_frame, mbind, io_bind, in_world, io_lift, gets.
  rewrite Hg. cbn [generation_cancelled]. rewrite Ha. cbn [from_option]. rewrite Ht.
  by destruct (Z.ltb_spec 0 cutoff); [|lia].
Qed.

Lemma poll_stream_frame (r : option Recovery) a w res a' w' :
  poll_stream r (a, w) = (res, (a', w')) → same_attachment a a'.
Proof.
  unfold poll_stream, mbind, io_bind at 1, gets at 1.
  destruct (disconnected a); [intros [= <- <- <-]; done|].
  unfold io_bind at 1, get_connection, mbind, io_bind at 1, gets at 1, io_result at 1.
  destruct (ok_or _ (connection a)) as [c|e]; [|intros [= <- <- <-]; done].
  unfold io_bind at 1, in_world, io_lift at 1. destruct (ws_read (ws c) w) as [m w1].
  unfold io_bind at 1, io_result. destruct (poll_socket m) as [u|e]; [|intros [= <- <- <-]; done].
  unfold io_bind at 1, gets, io_bind at 1, io_lift. destruct (try_recv (encoded_rx a) w1) as [received w2].
  destruct received as [frame| |]; [|intros [= <- <- <-]; done|intros [= <- <- <-]; done].
  unfold io_bind. destruct (send_frame frame r (a, w2)) as [[v|e] [a2 w3]] eqn:Es;
    intros [= <- <- <-]; apply send_frame_cases in Es as
    [[_ ->]|[[_ ->]|[[_ ->]|[(_ & -> & _)|[[_ ->]|(_ & -> & Hn)]]]]];
    unfold same_attachment; by destruct a as [? ? ? [] ? ? ? ?].
Qed.
End Accounting.

(** ** Reattachment *)

Section Reattach.
Context {Secret Url W : Type} `{SecretLib Secret, UrlLib Url} `{!IngressEnv Secret W}.
Local Abbreviation Recovery := (PreparedIngressRecovery Secret).
Local Abbreviation Grp := (Group Secret W).
Implicit Types (g : Grp) (a : ActiveIngress).

Lemma on_world_frame {A} (m : io W BoxedError A) g r g' :
  on_world m g = (r, g') → active g' = active g ∧ recovery g' = recovery g.
Proof. unfold on_world. destruct (m (world g)) as [x w]. by intros [= <- <-]. Qed.

(** A step on the world leaves the streams and the recovery. *)
Definition same_streams (g g' : Grp) : Prop := active g' = active g ∧ recovery g' = recovery g.

#[local] Instance same_streams_preorder : PreOrder same_streams.
Proof. unfold same_streams. split; [by intros g|]. intros g1 g2 g3 [? ?] [? ?]. split; congruence. Qed.

Lemma same_on_world {A} (m : io W BoxedError A) : keeps same_streams (on_world m).
Proof. intros g. unfold on_world, same_streams. by destruct (m (world g)). Qed.
#[local] Hint Resolve same_on_world : keeps.
#[local] Hint Extern 1 (keeps same_streams get_active) => by intros ? : keeps.

(** Admission changes nothing of a stream but its highest generation, upwards. *)
Definition raised (a a' : ActiveIngress) : Prop :=
  a' = with_highest (highest_generation a') a ∧ highest_generation a ≤ highest_generation a'.

#[export] Instance raised_preorder : PreOrder raised.
Proof.
  split.
  - intros []. by split.
  - intros a b c [-> ?] [-> ?]. split; [done|]. cbn in *. lia.
Qed.

Lemma Forall2_raised_refl (l : list ActiveIngress) : Forall2 raised l l.
Proof. induction l; constructor; done. Qed.

Lemma Forall2_raised_trans (l k m : list ActiveIngress) :
  Forall2 raised l k → Forall2 raised k m → Forall2 raised l m.
Proof. intros. by etrans. Qed.

Lemma raised_alter l index a generation :
  l !! index = Some a → highest_generation a ≤ generation →
  Forall2 raised l (alter (with_highest generation) index l).
Proof.
  intros Ha Hg. apply Forall2_lookup. intros i. destruct (decide (i = index)) as [->|Hi].
  - rewrite list_lookup_alter_eq, Ha. constructor. split; [done|]. exact Hg.
  - rewrite list_lookup_alter_ne by done. destruct (l !! i); constructor. done.
Qed.

(** A connection is admitted for a stream of the group, whose highest generation it reads. *)
Lemma admitted_highest index context (c : RelayRouteConfiguration Secret) credential deadline g conn h g' :
  (stale ← on_world (superseded credential);
   if stale : bool then io_fail (BoxIngress Credential) else
   stopped ← on_world (io_lift (requested context stop_requested));
   if stopped : bool then io_fail (BoxIngress Credential) else
   streams ← get_active;
   a ← io_result (ok_or (Message "index out of bounds") (streams !! index));
   connection ← on_world (prepare (Url := Url) (with_token (token credential) c) (active_channels a) deadline);
   mret (connection, highest_generation a)) g = (Ok (conn, h), g') →
  ∃ a, active g !! index = Some a ∧ highest_generation a = h.
Proof.
  intros (stale & g1 & E1 & E)%io_bind_Ok. destruct stale; [done|].
  apply io_bind_Ok in E as (stopped & g2 & E2 & E). destruct stopped; [done|].
  apply io_bind_Ok in E as (streams & g3 & [= <- <-] & E).
  apply io_bind_Ok in E as (a & g4 & E4 & E). apply io_bind_Ok in E as (conn' & g5 & _ & [= _ <- _]).
  apply on_world_frame in E1 as [F1 _], E2 as [F2 _]. rewrite F2, F1 in E4.
  unfold io_result in E4. destruct (active g !! index) as [a'|]; [|done]. injection E4 as -> _. by exists a.
Qed.

Lemma admit_group_spec context credential deadline cs : ∀ index acc g res conns g',
  admit_group (Url := Url) index cs context credential deadline acc g = (res, conns, g') →
  recovery g' = recovery g ∧ Forall2 raised (active g) (active g')
  ∧ (∀ i, (i < index)%nat → active g' !! i = active g !! i)
  ∧ (res = Ok () → ∃ new, conns = acc ++ new ∧ length new = length cs ∧
      ∀ j c, new !! j = Some c → ∃ a a',
        active g !! (index + j)%nat = Some a ∧ active g' !! (index + j)%nat = Some a'
        ∧ highest_generation a < source_generation c
        ∧ highest_generation a' = source_generation c).
Proof.
  induction cs as [|c cs IH]; intros index acc g res conns g'; cbn [admit_group].
  { intros [= <- <- <-]. split; [done|]. split; [apply Forall2_raised_refl|]. split; [done|].
    intros _. exists []. split; [by rewrite app_nil_r|]. split; [done|]. intros j c. done. }
  match goal with |- context [match ?m g with _ => _ end] => set (admitted := m) end.
  assert (keeps same_streams admitted) as Ha by (unfold admitted; keep).
  pose proof (admitted_highest index context c credential deadline g) as Hh. fold admitted in Hh.
  specialize (Ha g). destruct (admitted g) as [[[conn h]|e] g1]; destruct Ha as [F1 G1]; cbn in F1, G1.
  2:{ intros [= <- <- <-]. rewrite F1, G1. split; [done|]. split; [apply Forall2_raised_refl|]. by split. }
  destruct (Hh conn h g1 eq_refl) as (a & Hl & <-). clear Hh.
  cbv zeta. destruct (Z.leb_spec (source_generation conn) (highest_generation a)) as [|Hgt].
  { intros [= <- <- <-]. rewrite F1, G1.
    split; [done|]. split; [apply Forall2_raised_refl|]. by split. }
  match goal with |- context [match ?m ?x with _ => _ end] => set (check := m); set (g2 := x) end.
  assert (active g2 = alter (with_highest (source_generation conn)) index (active g)) as F2
    by (unfold g2; cbn; by rewrite F1).
  assert (recovery g2 = recovery g) as G2 by (unfold g2; cbn; done).
  assert (Forall2 raised (active g) (active g2)) as R2
    by (rewrite F2; eapply raised_alter; [done|lia]).
  assert (∀ i, (i < index)%nat → active g2 !! i = active g !! i) as U2.
  { intros i Hi. rewrite F2, list_lookup_alter_ne by lia. done. }
  clearbody g2. assert (keeps same_streams check) as Hc by (unfold check; keep).
  specialize (Hc g2). destruct (check g2) as [[[]|e] g3]; destruct Hc as [F3 G3]; cbn in F3, G3.
  1, 3: intros [= <- <- <-]; rewrite F3, G3; (split; [done|]); (split; [done|]); by split.
  intros (G4 & R4 & U4 & N4)%IH. rewrite F3 in *. rewrite G3 in *.
  split; [congruence|]. split; [by eapply Forall2_raised_trans|]. split.
  { intros i Hi. rewrite U4 by lia. by apply U2. }
  intros Hres. destruct (N4 Hres) as (new & -> & Hlen & Hnew). exists (conn :: new).
  split; [by rewrite <- app_assoc|]. split; [cbn; lia|].
  intros [|j] c' Hj; cbn in Hj.
  - injection Hj as <-. exists a, (with_highest (source_generation conn) a).
    rewrite Nat.add_0_r. split; [done|]. split; [|done].
    rewrite U4 by lia. rewrite F2, list_lookup_alter_eq, Hl. done.
  - destruct (Hnew j c' Hj) as (b & b' & Hb & Hb' & Hlt & Heq). exists b, b'.
    rewrite Nat.add_succ_r. split; [|done]. rewrite <- Hb, F2.
    by rewrite list_lookup_alter_ne by lia.
Qed.

Lemma attach_all_spec renewed revision cs : ∀ index g res g',
  attach_all renewed revision index cs g = (res, g') →
  res = Ok () ∧ recovery g' = recovery g ∧ length (active g') = length (active g)
  ∧ (∀ i, (i < index)%nat → active g' !! i = active g !! i)
  ∧ ∀ j c a, cs !! j = Some c → active g !! (index + j)%nat = Some a →
      ∃ cutoff, active g' !! (index + j)%nat = Some (attach c cutoff
        (with_statistics (count_attachment (source_generation c) revision renewed) a)).
Proof.
  induction cs as [|c cs IH]; intros index g res g'; cbn [attach_all].
  { intros [= <- <-]. repeat split; try done. }
  unfold mbind, io_bind at 1, get_active.
  destruct (Nat.leb_spec (length (active g)) index) as [Hle|Hlt].
  { intros [= <- <-]. repeat split; try done. intros j c' a _ Ha.
    apply lookup_lt_Some in Ha. lia. }
  unfold io_bind, attach_stream, mbind, io_bind.
  destruct (on_world (io_lift (capture_end_ns index)) g) as [[cutoff|e] g1] eqn:E1.
  2:{ unfold on_world, io_lift in E1. by destruct (capture_end_ns index (world g)). }
  apply on_world_frame in E1 as [F1 G1]. unfold at_stream, modify.
  destruct (lookup_lt_is_Some_2 _ _ Hlt) as [a Ha]. rewrite F1, Ha.
  intros (-> & G2 & L2 & U2 & N2)%IH. cbn in *. rewrite length_insert in L2.
  split; [done|]. split; [congruence|]. split; [congruence|]. split.
  { intros i Hi. rewrite U2 by lia. by rewrite list_lookup_insert_ne by lia. }
  intros [|j] c' a' Hc Ha'; cbn in Hc.
  - injection Hc as <-. rewrite Nat.add_0_r in *. exists cutoff. rewrite U2 by lia.
    rewrite list_lookup_insert_eq by done. congruence.
  - rewrite Nat.add_succ_r in *. apply N2; [done|]. by rewrite list_lookup_insert_ne by lia.
Qed.

(** A stream after an unsuccessful attempt, and after a successful one. *)
Definition detached (n : nat) (a a' : ActiveIngress) : Prop :=
  connection a' = None ∧ highest_generation a ≤ highest_generation a'
  ∧ ingress_reconnect_attempts (statistics a')
    ≤ ingress_reconnect_attempts (statistics a) + Z.of_nat n.

Definition attached (n : nat) (credential : PublisherCredential Secret) (a a' : ActiveIngress)
  : Prop :=
  (∃ c, connection a' = Some c ∧ highest_generation a < source_generation c
        ∧ highest_generation a' = source_generation c
        ∧ ingress_source_generation (statistics a') = source_generation c)
  ∧ ingress_credential_revision (statistics a') = credential_revision credential
  ∧ not_before_capture_ns a' ≠ None
  ∧ ingress_reconnect_attempts (statistics a')
    ≤ ingress_reconnect_attempts (statistics a) + Z.of_nat n.

Definition reattach_result (n : nat) (r : Recovery) g (attached_group : bool) g' : Prop :=
  if attached_group then
    ∃ credential, recovery g' = Some (mkRecovery credential (configurations r))
      ∧ Forall2 (attached n credential) (active g) (active g')
  else recovery g' = Some r ∧ Forall2 (detached n) (active g) (active g').

Definition is_attached {E} (res : Result E bool) : bool :=
  match res with Ok b => b | Err _ => false end.

Lemma raised_detached n (l k : list ActiveIngress) :
  Forall (λ a, connection a = None) l → Forall2 raised (with_statistics count_attempt <$> l) k →
  Forall2 (detached (S n)) l k.
Proof.
  revert k. induction l as [|a l IH]; intros k Hl Hk; [by inversion Hk|].
  rewrite fmap_cons in Hk. inversion Hk as [|? b ? k' [Hb Hh] Hk']; subst.
  apply Forall_cons in Hl as [Ha Hl]. constructor; [|by apply IH]. rewrite Hb.
  destruct a as [? ? ? [] ? ? ? ?]; unfold detached, with_statistics, count_attempt, with_highest in *; cbn in *.
  unfold sat_add. split; [done|]. split; lia.
Qed.

(** The connections of an admitted group, attached to streams it was admitted for. *)
Lemma admitted_attached renewed credential new g g5 g6 (u : Result BoxedError unit) :
  length new = length (active g) →
  Forall2 raised (with_statistics count_attempt <$> active g) (active g5) →
  (∀ j c, new !! j = Some c → ∃ a a',
     (with_statistics count_attempt <$> active g) !! j = Some a ∧ active g5 !! j = Some a'
     ∧ highest_generation a < source_generation c ∧ highest_generation a' = source_generation c) →
  attach_all renewed (credential_revision credential) 0 new g5 = (u, g6) →
  Forall2 (attached 1 credential) (active g) (active g6).
Proof.
  intros Hnew R5 Hconn (_ & _ & L6 & _ & N6)%attach_all_spec.
  apply Forall2_lookup. intros i. destruct (active g !! i) as [a|] eqn:Ea.
  2:{ rewrite lookup_ge_None_2; [constructor|]. apply lookup_ge_None in Ea.
      rewrite L6. apply Forall2_length in R5. rewrite length_fmap in R5. lia. }
  destruct (lookup_lt_is_Some_2 new i) as [c Hc]; [apply lookup_lt_Some in Ea; lia|].
  destruct (Hconn i c Hc) as (b & b' & Hb & Hb' & Hlt & Heq).
  rewrite list_lookup_fmap, Ea in Hb. cbn in Hb. injection Hb as <-.
  destruct (N6 i c b' Hc Hb') as [cutoff Hfinal]. cbn in Hfinal. rewrite Hfinal. constructor.
  pose proof (Forall2_lookup_lr _ _ _ i (with_statistics count_attempt a) b' R5) as [Hb2 _];
    [by rewrite list_lookup_fmap, Ea|done|].
  rewrite Hb2 in *. destruct a as [? ? ? [] ? ? ? ?].
  unfold attached; cbn in *. split; [by exists c|]. split; [done|]. split; [done|].
  unfold sat_add. lia.
Qed.

Lemma reattach_attempt_spec context reason rd attempt (r : Recovery) g res g' :
  recovery g = Some r → length (active g) = length (configurations r) →
  Forall (λ a, connection a = None) (active g) →
  reattach_attempt (Url := Url) context reason rd attempt r g = (res, g') →
  match res with
  | Ok (Some b) => reattach_result 1 r g b g'
  | _ => reattach_result 1 r g false g'
  end.
Proof.
  intros Hr Hlen Hnone. unfold reattach_attempt, mbind, io_bind at 1.
  assert (∀ g1, active g1 = active g → recovery g1 = recovery g →
    reattach_result 1 r g false g1) as Hsame.
  { intros g1 F G. split; [congruence|]. rewrite F. clear -Hnone.
    induction Hnone; constructor; [|done]. split; [done|]. split; lia. }
  destruct (on_world (wait_for_attempt _ _ _) g) as [[go|e] g1] eqn:E1;
    apply on_world_frame in E1 as [F1 G1]; [|intros [= <- <-]; by apply Hsame].
  destruct go; cbn [negb]; [|intros [= <- <-]; by apply Hsame].
  unfold io_bind at 1. destruct (on_world snapshot_credential g1) as [[credential|e] g2] eqn:E2;
    apply on_world_frame in E2 as [F2 G2]; [|intros [= <- <-]; apply Hsame; congruence].
  unfold io_bind at 1. destruct (on_world (attempt_deadline _ _ _) g2) as [[deadline|e] g3] eqn:E3;
    apply on_world_frame in E3 as [F3 G3]; [|intros [= <- <-]; apply Hsame; congruence].
  unfold io_bind at 1, get_active, io_bind at 1, set_active, io_fun.
  set (g4 := mkGroup _ (recovery g3) (world g3)).
  assert (active g4 = with_statistics count_attempt <$> active g) as F4 by (cbn; congruence).
  assert (recovery g4 = recovery g) as G4 by (cbn; congruence). clearbody g4.
  destruct (admit_group 0 (configurations r) context credential deadline [] g4)
    as [[admission conns] g5] eqn:E5.
  apply admit_group_spec in E5 as (G5 & R5 & _ & N5). rewrite F4 in *.
  destruct admission as [u|error].
  - destruct u. destruct (N5 eq_refl) as (new & -> & Hnew & Hconn). cbn [app]. cbv zeta.
    unfold io_bind at 1. destruct (attach_all _ _ 0 new g5) as [res6 g6] eqn:E6.
    pose proof (attach_all_spec _ _ _ _ _ _ _ E6) as (-> & G6 & _).
    unfold io_bind, set_credential, on_world, io_modify. intros [= <- <-]. cbn.
    exists credential. rewrite G6, G5, G4, Hr. split; [done|].
    eapply admitted_attached; [by rewrite Hnew|exact R5|exact Hconn|exact E6].
  - match goal with |- ?m g5 = _ → _ => assert (keeps same_streams m) as Hm end.
    { keep. intros g6. unfold io_fun. by destruct (cancel_until _ _ _). }
    intros E6. specialize (Hm g5). rewrite E6 in Hm. destruct Hm as [F6 G6]; cbn in F6, G6.
    assert (reattach_result 1 r g false g') as Hfail
      by (split; [congruence|]; rewrite F6; by apply (raised_detached 0)).
    destruct res as [[[]|]|e']; try done. exfalso.
    apply io_bind_Ok in E6 as (? & ? & _ & (? & ? & _ & (again & ? & _ & E)%io_bind_Ok)%io_bind_Ok).
    by destruct again.
Qed.

Lemma detached_trans n m a b c : detached n a b → detached m b c → detached (n + m) a c.
Proof. intros (_ & ? & ?) (? & ? & ?). split; [done|]. lia. Qed.

Lemma detached_attached n m credential a b c :
  detached n a b → attached m credential b c → attached (n + m) credential a c.
Proof.
  intros (_ & ? & ?) ((x & ? & ? & ? & ?) & ? & ? & ?). split; [exists x; split; [done|]; lia|].
  split; [done|]. split; [done|]. lia.
Qed.

Lemma Forall2_compose {A} (P Q R : A → A → Prop) l k m :
  (∀ x y z, P x y → Q y z → R x z) → Forall2 P l k → Forall2 Q k m → Forall2 R l m.
Proof.
  intros HR HP. revert m. induction HP as [|x y l k Hxy _ IH]; intros m; inversion 1; subst;
    constructor; eauto.
Qed.

Lemma reattach_result_after n m (r : Recovery) g b g1 g' :
  recovery g1 = Some r → Forall2 (detached n) (active g) (active g1) →
  reattach_result m r g1 b g' → reattach_result (n + m) r g b g'.
Proof.
  intros Hr Hd. destruct b; cbn.
  - intros (credential & Hc & Ha). exists credential. split; [done|].
    eapply Forall2_compose; [|exact Hd|exact Ha]. intros x y z. apply detached_attached.
  - intros [Hc Ha]. split; [done|].
    eapply Forall2_compose; [|exact Hd|exact Ha]. intros x y z. apply detached_trans.
Qed.

Lemma detached_none n (l k : list ActiveIngress) :
  Forall2 (detached n) l k → Forall (λ a, connection a = None) k.
Proof. induction 1 as [|a b l k [Hb _] _ IH]; by constructor. Qed.

Lemma reattach_attempts_spec context reason rd (r : Recovery) attempts : ∀ g res g',
  recovery g = Some r → length (active g) = length (configurations r) →
  Forall (λ a, connection a = None) (active g) →
  reattach_attempts (Url := Url) context reason rd attempts r g = (res, g') →
  reattach_result (length attempts) r g (is_attached res) g'.
Proof.
  induction attempts as [|attempt l IH]; intros g res g' Hr Hlen Hnone; cbn [reattach_attempts].
  { intros [= <- <-]. split; [done|]. clear -Hnone. induction Hnone; constructor; [|done].
    split; [done|]. split; lia. }
  unfold mbind, io_bind. destruct (reattach_attempt _ _ _ _ r g) as [outcome g1] eqn:E1.
  apply reattach_attempt_spec in E1 as Ha; [|done..].
  assert (∀ b, reattach_result 1 r g b g1 → reattach_result (S (length l)) r g b g1) as Hmore.
  { intros [] Hb; cbn in *.
    - destruct Hb as (credential & Hc & Hb). exists credential. split; [done|].
      eapply Forall2_impl; [exact Hb|]. intros x y (? & ? & ? & ?). repeat split; try done. lia.
    - destruct Hb as (Hc & Hb). split; [done|].
      eapply Forall2_impl; [exact Hb|]. intros x y (? & ? & ?). repeat split; try done. lia. }
  destruct outcome as [[b|]|e].
  - intros [= <- <-]. by apply Hmore.
  - destruct Ha as [Hr1 Hd]. intros Hl. apply (reattach_result_after 1 _ r g _ g1); [done..|].
    apply IH; [done| |by eapply detached_none|done]. apply Forall2_length in Hd. congruence.
  - intros [= <- <-]. by apply Hmore.
Qed.

Lemma close_active_spec g res g' :
  close_active g = (res, g') →
  res = Ok () ∧ recovery g' = recovery g ∧ active g' = without_connection <$> active g.
Proof.
  unfold close_active, mbind, io_bind, get_active, set_active, io_fun; cbn.
  destruct (cancel _ _) as [x w]. by intros [= <- <-].
Qed.

Lemma reattach_spec context reason (r : Recovery) g res g' :
  recovery g = Some r → length (active g) = length (configurations r) →
  reattach (Url := Url) context reason r g = (res, g') →
  reattach_result RECOVERY_ATTEMPTS r g (is_attached res) g'.
Proof.
  intros Hr Hlen. unfold reattach, mbind, io_bind at 1.
  destruct (on_world (io_lift now) g) as [[t|e] g1] eqn:E1.
  2:{ unfold on_world, io_lift in E1. by destruct (now (world g)). }
  apply on_world_frame in E1 as [F1 G1]. unfold io_bind at 1.
  destruct (on_world (io_modify _) g1) as [[u|e] g2] eqn:E2; [|done].
  apply on_world_frame in E2 as [F2 G2]. unfold io_bind.
  destruct (close_active g2) as [[v|e] g3] eqn:E3; apply close_active_spec in E3 as (Hres & G3 & F3); [|done].
  assert (recovery g3 = Some r) as G3' by congruence.
  assert (active g3 = without_connection <$> active g) as F3' by congruence.
  intros Ha. apply (reattach_result_after 0 _ r g _ g3); [done| |].
  - rewrite F3'. apply Forall2_fmap_r. apply Forall_Forall2_diag, Forall_true.
    intros a. split; [done|]. cbn. lia.
  - apply reattach_attempts_spec in Ha; [done|done| |].
    + by rewrite F3', length_fmap.
    + rewrite F3'. apply Forall_fmap, Forall_true. done.
Qed.

(** ** Source generations only advance *)

(** A connected stream is on its highest generation, and reports it. *)
Definition coherent (a : ActiveIngress) : Prop :=
  ∀ c, connection a = Some c →
    source_generation c = highest_generation a
    ∧ ingress_source_generation (statistics a) = source_generation c.

Definition group_ok g : Prop :=
  Forall coherent (active g) ∧
  ∀ r, recovery g = Some r → length (active g) = length (configurations r).

(** From one state of a stream to a later one: the same connection, none, or a connection
    of a generation never seen before. *)
Definition advanced (a a' : ActiveIngress) : Prop :=
  highest_generation a ≤ highest_generation a' ∧
  (connection a' = connection a ∨ connection a' = None ∨
   ∃ c, connection a' = Some c ∧ highest_generation a < source_generation c).

#[export] Instance advanced_preorder : PreOrder advanced.
Proof.
  split; [intros a; split; [done|by left]|].
  intros a b c [Hab Hb] [Hbc Hc]. split; [lia|].
  destruct Hc as [->|[Hc|(x & Hx & Hlt)]]; [done|by right; left|].
  right. right. exists x. split; [done|lia].
Qed.

Definition group_step g g' : Prop := group_ok g' ∧ Forall2 advanced (active g) (active g').

Lemma group_step_refl g : group_ok g → group_step g g.
Proof. intros Hg. split; [done|]. reflexivity. Qed.

Lemma group_step_trans g1 g2 g3 : group_step g1 g2 → group_step g2 g3 → group_step g1 g3.
Proof. intros [_ H1] [H2 H3]. split; [done|]. by etrans. Qed.

Lemma group_step_frame g1 g2 g3 :
  group_step g1 g2 → active g3 = active g2 → recovery g3 = recovery g2 → group_step g1 g3.
Proof. intros [[H1 H2] H3] F G. split; [split|]; rewrite ?F, ?G; done. Qed.

Lemma reattach_step context reason (r : Recovery) g res g' :
  group_ok g → recovery g = Some r → reattach (Url := Url) context reason r g = (res, g') →
  group_step g g'.
Proof.
  intros [Hc Hl] Hr Hrun. pose proof (Hl r Hr) as Hlen.
  apply reattach_spec in Hrun; [|done..]. unfold reattach_result in Hrun.
  destruct (is_attached res).
  - destruct Hrun as (credential & G & F). split; [split|].
    + clear -F. induction F as [|a b l k Hab _ IH]; [constructor|]. constructor; [|done].
      destruct Hab as ((c & Hb & Hlt & Heq & Hst) & _). intros c' Hc'. rewrite Hb in Hc'.
      injection Hc' as <-. by rewrite Heq.
    + intros r' Hr'. rewrite G in Hr'. injection Hr' as <-. apply Forall2_length in F. cbn. congruence.
    + eapply Forall2_impl; [exact F|]. intros a b ((c & Hb & Hlt & Heq & _) & _).
      split; [lia|]. right. right. by exists c.
  - destruct Hrun as (G & F). split; [split|].
    + clear -F. induction F as [|a b l k Hab _ IH]; [constructor|]. constructor; [|done].
      destruct Hab as (Hb & _). intros c' Hc'. congruence.
    + intros r' Hr'. rewrite G in Hr'. injection Hr' as <-. apply Forall2_length in F. congruence.
    + eapply Forall2_impl; [exact F|]. intros a b (Hb & Hle & _). split; [done|]. by right; left.
Qed.

Lemma poll_stream_step index (r : option Recovery) g res g' :
  group_ok g → at_stream index (poll_stream r) g = (res, g') → group_step g g'.
Proof.
  intros Hg. unfold at_stream. destruct (active g !! index) as [a|] eqn:Ea.
  2:{ intros [= <- <-]. by apply group_step_refl. }
  destruct (poll_stream r (a, world g)) as [x [a' w']] eqn:Ep. intros [= <- <-].
  apply poll_stream_frame in Ep as (Hc & Hh & _ & _ & Hs & _). destruct Hg as [Hok Hlen].
  pose proof (Forall_lookup_1 _ _ _ _ Hok Ea) as Hca. split; [split|]; cbn.
  - apply Forall_insert; [done|]. intros c. rewrite Hc, Hh, Hs. apply Hca.
  - rewrite length_insert. done.
  - apply Forall2_lookup. intros i. destruct (decide (i = index)) as [->|Hi].
    + rewrite list_lookup_insert_eq by by eapply lookup_lt_Some. rewrite Ea. constructor.
      split; [lia|]. by left.
    + rewrite list_lookup_insert_ne by done. destruct (active g !! i); by constructor.
Qed.

Lemma poll_failure_step context error g res g' :
  group_ok g → poll_failure (Url := Url) context error g = (res, g') → group_step g g'.
Proof.
  intros Hg. unfold poll_failure, mbind, io_bind at 1, get_recovery.
  destruct (recovery g) as [r|] eqn:Er; [|intros [= <- <-]; by apply group_step_refl].
  unfold io_bind. destruct (on_world (io_lift control_revision) g) as [[rev|e] g1] eqn:E1;
    apply on_world_frame in E1 as [F1 G1];
    [|intros [= <- <-]; eapply group_step_frame; [by apply group_step_refl|done..]].
  assert (group_step g g1) as S1 by (eapply group_step_frame; [by apply group_step_refl|done..]).
  cbv zeta. case_match; [|intros [= <- <-]; done].
  destruct (reattach _ _ r g1) as [[b|e] g2] eqn:E2; intros [= <- <-];
    (eapply group_step_trans; [exact S1|]); (eapply reattach_step; [apply S1| |exact E2]; congruence).
Qed.

Lemma poll_all_step context indices : ∀ progress g res g',
  group_ok g → poll_all (Url := Url) context indices progress g = (res, g') → group_step g g'.
Proof.
  induction indices as [|i l IH]; intros progress g res g' Hg; cbn [poll_all].
  { intros [= <- <-]. by apply group_step_refl. }
  destruct (at_stream i _ g) as [[polled|e] g1] eqn:E1; apply poll_stream_step in E1 as S1; [|done| |done].
  - intros E2. eapply group_step_trans; [exact S1|]. eapply IH; [apply S1|exact E2].
  - intros E2. eapply group_step_trans; [exact S1|]. eapply poll_failure_step; [apply S1|exact E2].
Qed.

Lemma check_capability_step context g res g' :
  group_ok g → check_capability (Url := Url) context g = (res, g') → group_step g g'.
Proof.
  intros Hg. unfold check_capability, mbind, io_bind at 1, get_recovery at 1.
  destruct (recovery g) as [r|] eqn:Er; [|intros [= <- <-]; by apply group_step_refl].
  assert (∀ g1, active g1 = active g → recovery g1 = recovery g → group_step g g1) as Hsame
    by (intros; eapply group_step_frame; [by apply group_step_refl|done..]).
  unfold io_bind at 1. destruct (on_world (io_lift control_revoked) g) as [[b|e] g1] eqn:E1;
    apply on_world_frame in E1 as [F1 G1]; [|intros [= <- <-]; by apply Hsame].
  destruct b; [intros [= <- <-]; by apply Hsame|].
  unfold io_bind at 1. destruct (on_world (io_lift control_revision) g1) as [[rev|e] g2] eqn:E2;
    apply on_world_frame in E2 as [F2 G2]; [|intros [= <- <-]; apply Hsame; congruence].
  assert (group_step g g2) as S2 by (apply Hsame; congruence).
  assert (recovery g2 = Some r) as Er2 by congruence. clear F2 G2 Hsame.
  unfold io_bind at 1.
  destruct ((if rev =? _ then mret true else reattach context Renewal r) g2) as [res3 g3] eqn:E3.
  assert (group_step g g3) as S3.
  { destruct (rev =? _); [injection E3 as _ <-; done|].
    eapply group_step_trans; [exact S2|]. eapply reattach_step; [apply S2|exact Er2|exact E3]. }
  destruct res3 as [[]|e]; cbn [negb]; [|intros [= <- <-]; done..].
  unfold io_bind, get_recovery. destruct (on_world (io_lift now) g3) as [[t|e] g4] eqn:E4;
    apply on_world_frame in E4 as [F4 G4];
    [destruct (from_option _ false _)|]; intros [= <- <-]; by eapply group_step_frame.
Qed.

Lemma publish_round_step context g res g' :
  group_ok g → publish_round (Url := Url) context g = (res, g') → group_step g g'.
Proof.
  intros Hg. unfold publish_round, mbind, io_bind at 1.
  destruct (on_world (io_lift _) g) as [[b|e] g1] eqn:E1; apply on_world_frame in E1 as [F1 G1];
    (assert (group_step g g1) as S1 by (eapply group_step_frame; [by apply group_step_refl|done..]));
    [|intros [= <- <-]; done].
  destruct b; [intros [= <- <-]; done|].
  unfold io_bind at 1. destruct (check_capability context g1) as [go g2] eqn:E2.
  apply check_capability_step in E2 as S2; [|apply S1].
  assert (group_step g g2) as S2' by by eapply group_step_trans.
  destruct go as [[]|e]; cbn [negb]; [|intros [= <- <-]; done..].
  unfold io_bind at 1, get_active at 1, io_bind at 1.
  destruct (poll_all context _ false g2) as [polled g3] eqn:E3.
  apply poll_all_step in E3 as S3; [|apply S2'].
  assert (group_step g g3) as S3' by by eapply group_step_trans.
  destruct polled as [[progress| |]|e]; [|intros [= <- <-]; done..].
  unfold io_bind, get_active. case_match; [intros [= <- <-]; done|].
  case_match; [intros [= <- <-]; done|].
  destruct (on_world (io_modify _) g3) as [[u|e] g4] eqn:E4; apply on_world_frame in E4 as [F4 G4];
    intros [= <- <-]; by eapply group_step_frame.
Qed.

(** The state of the group, still publishing or not. *)
Definition reached {R} (outcome : Grp + (R * Grp)) : Grp :=
  match outcome with inl g => g | inr (_, g) => g end.

(** C26: However long a group publishes and whatever happens to its sockets and its
    capability, the source generations of its buses only advance: a connected bus is on
    the highest generation ever admitted for it and reports that generation, and a
    connection that replaces another has a strictly larger one, so that a receiver can
    tell every discontinuity. *)
Theorem publish_group_generations rounds context g (Hg : group_ok g) :
  group_ok (reached (publish_group (Url := Url) rounds context g)) ∧
  Forall2 advanced (active g) (active (reached (publish_group (Url := Url) rounds context g))).
Proof.
  unfold publish_group, reached.
  pose proof (run_until_invariant (io_round (publish_round (Url := Url) context))
    (group_step g) (λ r, group_step g r.2) rounds g (group_step_refl g Hg)) as H1.
  destruct (run_until _ _ g) as [g1|[res g1]]; apply H1;
    intros g2 x S2 Hx; unfold io_round in Hx;
    (destruct (publish_round context g2) as [[[u|]|e] g3] eqn:E; simplify_eq;
     (apply publish_round_step in E; [by eapply group_step_trans|apply S2])).
Qed.
End Reattach.

(** ** Every connection of a reattachment is opened with the control's credential *)

Section Readmission.
Context {Secret Url W : Type} `{SecretLib Secret, UrlLib Url} `{!IngressEnv Secret W}.
Local Abbreviation Recovery := (PreparedIngressRecovery Secret).
Local Abbreviation Grp := (Group Secret W).
Implicit Types (g : Grp) (a : ActiveIngress) (w : W).

(** The connections of the configurations from [i] on, opened one after the other before the
    deadline: each requested with the credential's token for its stream's channels, while
    the control still holds the credential, before the request and after it. *)
Inductive opened (context : bool) (credential : PublisherCredential Secret) (deadline : Z) (chs : list Z)
  : nat → W → list (RelayRouteConfiguration Secret) → list IngressConnection → W → Prop :=
  | opened_none i w : opened context credential deadline chs i w [] [] w
  | opened_next i w w1 w2 w3 w4 t w5 w' c cs ch conn conns :
      superseded credential w = (Ok false, w1) → requested context stop_requested w1 = (false, w2) →
      chs !! i = Some ch →
      prepare (Url := Url) (with_token (token credential) c) ch deadline w2 = (Ok conn, w3) →
      superseded credential w3 = (Ok false, w4) → now w4 = (t, w5) → t < deadline →
      opened context credential deadline chs (S i) w5 cs conns w' →
      opened context credential deadline chs i w (c :: cs) (conn :: conns) w'.

Lemma on_world_Ok {A} (m : io W BoxedError A) g x g' :
  on_world m g = (Ok x, g') →
  m (world g) = (Ok x, world g') ∧ active g' = active g ∧ recovery g' = recovery g.
Proof. unfold on_world. destruct (m (world g)) as [r w]. by intros [= -> <-]. Qed.

Lemma channels_alter (f : ActiveIngress → ActiveIngress) i (l : list ActiveIngress) :
  (∀ a, active_channels (f a) = active_channels a) → active_channels <$> alter f i l = active_channels <$> l.
Proof.
  intros Hf. apply list_eq. intros j. rewrite !list_lookup_fmap, list_lookup_alter.
  case_decide; [|done]. subst. destruct (l !! _); cbn; [by rewrite Hf|done].
Qed.

Lemma admit_group_opened context credential deadline cs : ∀ i acc g conns g',
  admit_group (Url := Url) i cs context credential deadline acc g = (Ok (), conns, g') →
  ∃ new, conns = acc ++ new
    ∧ opened context credential deadline (active_channels <$> active g) i (world g) cs new (world g').
Proof.
  induction cs as [|c cs IH]; intros i acc g conns g'; cbn [admit_group].
  { intros [= <- <-]. exists []. rewrite app_nil_r. split; [done|constructor]. }
  match goal with |- context [match ?m g with _ => _ end] => set (admitted := m) end.
  destruct (admitted g) as [[[conn h]|e] g1] eqn:E; [|done]. unfold admitted in E. clear admitted.
  apply io_bind_Ok in E as (b & g2 & E1%on_world_Ok & E). destruct b; [done|].
  apply io_bind_Ok in E as (b & g3 & E2%on_world_Ok & E). destruct b; [done|].
  apply io_bind_Ok in E as (l & g4 & [= <- <-] & E). apply io_bind_Ok in E as (a & g5 & E3 & E).
  apply io_bind_Ok in E as (conn' & g6 & E4%on_world_Ok & [= -> _ ->]).
  destruct E1 as (E1 & F1 & _), E2 as (E2 & F2 & _), E4 as (E4 & F4 & _). apply io_lift_Ok in E2.
  unfold io_result in E3. destruct (active g3 !! i) as [a'|] eqn:Ha; [|done]. injection E3 as -> <-.
  cbv zeta. destruct (_ <=? h); [done|].
  match goal with |- context [match ?m ?x with _ => _ end] => set (check := m); set (g7 := x) end.
  destruct (check g7) as [[[]|e] g8] eqn:Ec; [done| |done]. unfold check in Ec. clear check.
  apply io_bind_Ok in Ec as (b & g9 & C1%on_world_Ok & Ec). destruct b; [done|].
  apply io_bind_Ok in Ec as (t & g10 & C2%on_world_Ok & [= Hlt <-]).
  destruct C1 as (C1 & D1 & _), C2 as (C2 & D2 & _). apply io_lift_Ok in C2.
  assert (active_channels <$> active g10 = active_channels <$> active g) as Hch.
  { rewrite D2, D1. cbn. rewrite channels_alter by done. by rewrite F4, F2, F1. }
  intros (new & -> & Hnew)%IH. exists (conn :: new). rewrite <- app_assoc. split; [done|].
  rewrite Hch in Hnew. eapply opened_next; try done; [|by apply Z.leb_gt].
  by rewrite list_lookup_fmap, <- F1, <- F2, Ha.
Qed.

Lemma opened_length context credential deadline chs i w cs conns w' :
  opened context credential deadline chs i w cs conns w' → length conns = length cs.
Proof. induction 1; cbn; congruence. Qed.

(** *** Up to the attempt that succeeds *)

Section Moved.
Context (R : relation W) `{!IngressKeeps Secret W R} (Hpause : ∀ b w, R w (set_paused b w))
  (Hclose : ∀ s w, R w (ws_write s (MClose None) w).2).

(** The world moved along [R], and the streams have the same channels. *)
Definition moved : relation Grp :=
  λ g g', R (world g) (world g') ∧ active_channels <$> active g' = active_channels <$> active g.

#[local] Instance moved_preorder : PreOrder moved.
Proof.
  split; [intros g; split; reflexivity|]. intros g1 g2 g3 [U1 E1] [U2 E2].
  split; [by etrans|congruence].
Qed.

Lemma moved_on_world {A} (m : io W BoxedError A) : keeps R m → keeps moved (on_world m).
Proof. intros Hm g. specialize (Hm (world g)). unfold on_world. by destruct (m (world g)). Qed.
#[local] Hint Extern 1 (keeps _ (on_world _)) => apply moved_on_world; keep : keeps.
#[local] Hint Extern 1 (keeps _ get_active) => by intros ? : keeps.
#[local] Hint Extern 1 => apply Hpause : keeps.

Lemma moved_admit context credential deadline cs : ∀ i acc g,
  moved g (admit_group (Url := Url) i cs context credential deadline acc g).2.
Proof.
  induction cs as [|c cs IH]; intros i acc g; [done|]. cbn [admit_group].
  match goal with |- context [match ?m g with _ => _ end] => set (admitted := m) end.
  assert (keeps moved admitted) as Ha by (unfold admitted; keep). specialize (Ha g). clearbody admitted.
  destruct (admitted g) as [[[conn h]|e] g1]; [|done]. cbn in Ha. cbv zeta. destruct (_ <=? h); [done|].
  match goal with |- context [match ?m ?x with _ => _ end] => set (check := m); set (g2 := x) end.
  assert (moved g1 g2) as Hg.
  { split; [done|]. by apply channels_alter. }
  assert (keeps moved check) as Hc by (unfold check; keep). specialize (Hc g2). clearbody check.
  destruct (check g2) as [[[]|e] g3]; cbn in Hc; etrans; try exact Ha; etrans; try exact Hg;
    [exact Hc| |exact Hc]. etrans; [exact Hc|apply IH].
Qed.

Lemma moved_attach_all renewed revision cs : ∀ i g,
  moved g (attach_all (Secret := Secret) renewed revision i cs g).2.
Proof.
  induction cs as [|c cs IH]; intros i g; [done|]. cbn [attach_all].
  unfold mbind, io_bind at 1, get_active. case_match; [done|]. unfold io_bind, attach_stream, mbind, io_bind.
  assert (keeps moved (on_world (io_lift (capture_end_ns i)))) as Hk by keep. specialize (Hk g).
  destruct (on_world _ g) as [[cutoff|e] g1]; [|done]. cbn in Hk. unfold at_stream, modify.
  destruct (active g1 !! i) as [a|] eqn:Ha; [|done].
  etrans; [exact Hk|]. etrans; [|apply IH]. split; [done|]. cbn.
  apply list_eq. intros j. rewrite !list_lookup_fmap. destruct (decide (i = j)) as [<-|].
  - rewrite list_lookup_insert_eq by by eapply lookup_lt_Some. by rewrite Ha.
  - by rewrite list_lookup_insert_ne.
Qed.

Lemma moved_cancel connections (deadline : Z) :
  keeps moved (io_fun (λ g : Grp,
    let '(_, w) := cancel_until (Secret := Secret) connections deadline (world g) in
    (Ok (), mkGroup (active g) (recovery g) w)) : io Grp BoxedError unit).
Proof.
  intros g. unfold io_fun, cancel_until.
  pose proof (keeps_cancel_connections (Secret := Secret) R Hclose connections deadline false (world g)) as U.
  by destruct (cancel_connections _ _ _ (world g)) as [failed w].
Qed.

Lemma moved_close : keeps moved (close_active (Secret := Secret) (W := W)).
Proof.
  intros g. unfold close_active, mbind, io_bind, get_active, set_active, io_fun, cancel.
  cbn [world active recovery]. unfold mbind, io_bind, io_lift. pose proof (pk_now (R := R) (world g)) as U1.
  destruct (now (world g)) as [t w1]. unfold cancel_until.
  pose proof (keeps_cancel_connections (Secret := Secret) R Hclose (omap connection (active g))
    (t + MAX_FRAME_AGE) false w1) as U2.
  destruct (cancel_connections _ _ _ w1) as [failed w2]. cbn in *. split; [by etrans|].
  cbn. rewrite <- list_fmap_compose. by apply list_fmap_ext.
Qed.
#[local] Hint Resolve moved_close moved_cancel : keeps.

Lemma moved_attempt context reason recovery_deadline attempt (r : Recovery) :
  keeps moved (reattach_attempt (Url := Url) context reason recovery_deadline attempt r).
Proof.
  apply keeps_bind; [exact _|keep|]. intros []; [|keep]. cbn [negb].
  apply keeps_bind; [exact _|keep|]. intros credential. apply keeps_bind; [exact _|keep|]. intros deadline g.
  unfold mbind, io_bind at 1, get_active, io_bind at 1, set_active, io_fun at 1.
  set (g1 := mkGroup _ (recovery g) (world g)).
  assert (moved g g1) as Hg by (split; [done|]; cbn; rewrite <- list_fmap_compose; by apply list_fmap_ext).
  pose proof (moved_admit context credential deadline (configurations r) 0 [] g1) as Hadmit.
  destruct (admit_group 0 (configurations r) context credential deadline [] g1) as [[admission conns] g2].
  cbn in Hadmit. etrans; [exact Hg|]. etrans; [exact Hadmit|]. destruct admission as [[]|e].
  - cbv zeta. unfold io_bind at 1.
    match goal with |- context [attach_all ?b ?v 0 conns g2] =>
      pose proof (moved_attach_all b v conns 0 g2) as Hattach end.
    destruct (attach_all _ _ 0 conns g2) as [[u|e] g3]; cbn in Hattach; [|done].
    unfold io_bind, set_credential, on_world, io_modify. cbn. etrans; [exact Hattach|]. by split; [apply Hpause|].
  - match goal with |- moved g2 (?m g2).2 => assert (keeps moved m) as Hm; [|apply Hm] end. keep.
Qed.

(** From [g] the control handed out the credential, and within the attempt's deadline all
    connections of [g'] were opened with it. *)
Definition readmitted context (r : Recovery) recovery_deadline (credential : PublisherCredential Secret) g g'
  : Prop :=
  ∃ w0 w1 deadline w2 conns w3,
    R (world g) w0 ∧ control_snapshot w0 = (Ok credential, w1)
    ∧ attempt_deadline credential r recovery_deadline w1 = (Ok deadline, w2)
    ∧ opened context credential deadline (active_channels <$> active g) 0 w2 (configurations r) conns w3
    ∧ R w3 (world g') ∧ Forall2 (λ c a, connection a = Some c) conns (active g').

Lemma readmitted_after context (r : Recovery) rd credential g g1 g' :
  moved g g1 → readmitted context r rd credential g1 g' → readmitted context r rd credential g g'.
Proof.
  intros [U E] (w0 & w1 & deadline & w2 & conns & w3 & P0 & P1 & P2 & P3 & P4).
  exists w0, w1, deadline, w2, conns, w3. rewrite <- E. split; [by etrans|].
  exact (conj P1 (conj P2 (conj P3 P4))).
Qed.

Lemma attempt_readmitted context reason rd attempt (r : Recovery) g g' :
  length (active g) = length (configurations r) →
  reattach_attempt (Url := Url) context reason rd attempt r g = (Ok (Some true), g') →
  ∃ credential, recovery g' = (λ r, mkRecovery credential (configurations r)) <$> recovery g
    ∧ readmitted context r rd credential g g'.
Proof.
  intros Hlen (go & g1 & E1 & E)%io_bind_Ok. destruct go; [|done]. cbn [negb] in E.
  assert (moved g g1) as M1.
  { assert (keeps moved (on_world (wait_for_attempt context attempt rd))) as Hk by keep.
    specialize (Hk g). by rewrite E1 in Hk. }
  apply on_world_Ok in E1 as (_ & F1 & G1).
  apply io_bind_Ok in E as (credential & g2 & (E2 & F2 & G2)%on_world_Ok & E).
  apply io_bind_Ok in E2 as (x & w & Es%io_lift_Ok & Ex). destruct x as [x|]; [|done]. injection Ex as -> ->.
  apply io_bind_Ok in E as (deadline & g3 & (E3 & F3 & G3)%on_world_Ok & E).
  apply io_bind_Ok in E as (l & g4 & [= <- <-] & E). apply io_bind_Ok in E as (u & g5 & [= _ <-] & E).
  unfold io_fun in E. set (g6 := mkGroup _ (recovery g3) (world g3)) in E.
  destruct (admit_group 0 _ _ _ _ [] g6) as [[admission conns] g7] eqn:Ea.
  destruct admission as [[]|e].
  2: { do 3 (apply io_bind_Ok in E as (? & ? & _ & E)). by case_match. }
  pose proof (admit_group_spec _ _ _ _ _ _ _ _ _ _ Ea) as (G7 & L7 & _).
  apply admit_group_opened in Ea as (new & -> & Hopened). cbn [app] in E.
  apply io_bind_Ok in E as (v & g8 & Et & E). cbv zeta in Et.
  match type of Et with attach_all ?b ?n 0 new g7 = _ => pose proof (moved_attach_all b n new 0 g7) as M8 end.
  rewrite Et in M8. destruct M8 as [M8 _].
  apply attach_all_spec in Et as (_ & G8 & L8 & _ & N8).
  apply io_bind_Ok in E as (x & g9 & [= _ <-] & E). apply io_bind_Ok in E as (y & g10 & [= _ <-] & [= <-]).
  exists credential. cbn. rewrite G8, G7. cbn. rewrite G3, G2, G1. split; [done|].
  exists (world g1), (world g2), deadline, (world g3), new, (world g7).
  assert (active_channels <$> active g6 = active_channels <$> active g) as Hch.
  { cbn. rewrite <- list_fmap_compose, F3, F2, F1. by apply list_fmap_ext. }
  rewrite Hch in Hopened. split; [apply M1|]. split; [done|]. split; [done|]. split; [done|].
  split; [etrans; [exact M8|apply Hpause]|].
  apply opened_length in Hopened. apply Forall2_length in L7. cbn in L7. rewrite length_fmap, F3, F2, F1 in L7.
  apply Forall2_lookup. intros i. cbn. destruct (new !! i) as [c|] eqn:Ec.
  - destruct (lookup_lt_is_Some_2 (active g7) i) as [a Ha]; [apply lookup_lt_Some in Ec; lia|].
    destruct (N8 i c a Ec Ha) as [cutoff Hcut]. cbn in Hcut. rewrite Hcut. by constructor.
  - rewrite lookup_ge_None_2; [constructor|]. apply lookup_ge_None in Ec. lia.
Qed.

Lemma attempts_readmitted context reason rd (r : Recovery) attempts : ∀ g g',
  recovery g = Some r → length (active g) = length (configurations r) →
  Forall (λ a, connection a = None) (active g) →
  reattach_attempts (Url := Url) context reason rd attempts r g = (Ok true, g') →
  ∃ credential, recovery g' = Some (mkRecovery credential (configurations r))
    ∧ readmitted context r rd credential g g'.
Proof.
  induction attempts as [|attempt l IH]; intros g g' Hr Hlen Hnone; [done|]. cbn [reattach_attempts].
  intros (outcome & g1 & E & Hrest)%io_bind_Ok. destruct outcome as [b|].
  - injection Hrest as -> ->. apply attempt_readmitted in E as (credential & Ec & Ha); [|done].
    exists credential. by rewrite Ec, Hr.
  - pose proof (moved_attempt context reason rd attempt r g) as M. rewrite E in M.
    apply reattach_attempt_spec in E as [Hr1 Hd]; [|done..].
    apply IH in Hrest as (credential & Ec & Ha); [|done|apply Forall2_length in Hd; congruence|by eapply detached_none].
    exists credential. split; [done|]. by eapply readmitted_after.
Qed.

Lemma reattach_readmitted context reason (r : Recovery) g g' :
  recovery g = Some r → length (active g) = length (configurations r) →
  reattach (Url := Url) context reason r g = (Ok true, g') →
  ∃ credential, recovery g' = Some (mkRecovery credential (configurations r))
    ∧ readmitted context r ((now (world g)).1 + RECOVERY_BUDGET) credential g g'.
Proof.
  intros Hr Hlen (t & g1 & E1 & E)%io_bind_Ok.
  assert (moved g g1) as M1.
  { assert (keeps moved (on_world (io_lift (E := BoxedError) now))) as Hk by keep. specialize (Hk g). by rewrite E1 in Hk. }
  apply on_world_Ok in E1 as (E1 & F1 & G1). apply io_lift_Ok in E1. rewrite E1. cbn [fst].
  apply io_bind_Ok in E as (u & g2 & [= _ <-] & E). apply io_bind_Ok in E as (v & g3 & E3 & E).
  pose proof (moved_close (mkGroup (active g1) (recovery g1) (set_paused true (world g1)))) as M3.
  unfold on_world in E3. cbn in E3. rewrite E3 in M3. apply close_active_spec in E3 as (_ & G3 & F3). cbn in G3, F3.
  apply attempts_readmitted in E as (credential & Ec & Ha).
  - exists credential. split; [done|]. eapply readmitted_after; [|exact Ha]. etrans; [exact M1|].
    etrans; [|exact M3]. by split; [apply Hpause|].
  - congruence.
  - by rewrite F3, length_fmap, F1.
  - rewrite F3. apply Forall_fmap, Forall_true. done.
Qed.
End Moved.

(** C3: Reattachment is all or nothing.  When it succeeds every stream of the group is on a
    connection opened with one credential: the one the publisher control handed out during
    the reattachment, whose token the requests of all connections carry, which the control
    still held before and after each of them, and which the group uses from now on.  Every
    stream's source generation is strictly above every generation seen before, and audio
    captured before the cutoff is fenced off.  When it fails or is stopped no stream keeps a
    connection and the credential in use is unchanged.  Either way no stream was counted
    more than three attempts.  [R] is any relation that the system calls keep, for instance
    that time passes: it says that the control was asked during the reattachment. *)
Theorem reattach_all_or_nothing (R : relation W) `{!IngressKeeps Secret W R}
  (Hpause : ∀ b w, R w (set_paused b w)) (Hclose : ∀ s w, R w (ws_write s (MClose None) w).2)
  context reason (r : Recovery) g res g'
  (Hr : recovery g = Some r) (Hlen : length (active g) = length (configurations r))
  (Hrun : reattach (Url := Url) context reason r g = (res, g')) :
  if is_attached res then
    ∃ credential, recovery g' = Some (mkRecovery credential (configurations r))
      ∧ Forall2 (attached 3 credential) (active g) (active g')
      ∧ readmitted R context r ((now (world g)).1 + RECOVERY_BUDGET) credential g g'
  else recovery g' = Some r ∧ Forall2 (detached 3) (active g) (active g').
Proof.
  pose proof (reattach_spec context reason r g res g' Hr Hlen Hrun) as Hs. unfold reattach_result in Hs.
  destruct res as [[]|e]; cbn [is_attached] in *; try done. destruct Hs as (credential & Ec & Ha).
  apply (reattach_readmitted R Hpause Hclose) in Hrun as (credential' & Ec' & Hadm); [|done..].
  rewrite Ec in Ec'. injection Ec' as <-. by exists credential.
Qed.
End Readmission.

(** ** A simulated Relay *)

Module Simulation.
Import Sample.

(** Clock, log of queued messages, pause flag, what the sockets still deliver, what the
    encoder channel still delivers, the shared control, and the frames the encoder channels
    have delivered. *)
Record World : Type := mkWorld {
  clock : Z;
  log : list (Ws * WsMessage);
  paused : bool;
  incoming : list (Result WsError WsMessage);
  frames : list TryRecv;
  control : SharedControl Secret;
  heard : list (nat * EncodedAudioFrame);
}.

Definition at_time (t : Z) (w : World) : World :=
  mkWorld t (log w) (paused w) (incoming w) (frames w) (control w) (heard w).

#[export] Instance world_clock : Clock World :=
  {| now w := (clock w, w); sleep d w := at_time (clock w + d) w;
     instant_max := 2 ^ 63 * SECOND |}.
#[export] Instance clock_laws : ClockLaws World clock.
Proof. constructor; cbn; intros; lia. Qed.

#[export] Instance proxy_env : ProxyEnv World :=
  {| proxy_clock := world_clock;
     connect_timeout a _ w := (Some a, w); set_nodelay _ w := (true, w);
     try_clone _ w := (true, w); set_timeouts _ _ w := (true, w); Proxy.shutdown _ w := w;
     spawn_watchdog _ _ w := (true, w); join_watchdog w := (true, w);
     tls_connector w := (true, w); tls_connect _ s w := (Ok s, w);
     write_all _ _ w := (true, w); read_byte _ w := (None, w);
     valid_header _ := true; base64_encode b := b;
     client_tls r s w := (Ok (s, requested_protocol r), w); valid_request _ := true |}.
#[export] Instance resolver : Resolver World :=
  {| to_socket_addrs _ _ w := (Some (Resolved [7]), w) |}.

(** A read takes a nanosecond; nothing to read is [WouldBlock]. *)
#[export] Instance sockets : WebSockets World :=
  {| ws_read _ w :=
       match incoming w with
       | m :: rest => (m, mkWorld (clock w + 1) (log w) (paused w) rest (frames w) (control w) (heard w))
       | [] => (Err (WsIo WouldBlock), at_time (clock w + 1) w)
       end;
     ws_write s m w :=
       (Ok (), mkWorld (clock w) (log w ++ [(s, m)]) (paused w) (incoming w) (frames w) (control w) (heard w));
     ws_flush _ w := (Ok (), w); ws_clone_socket _ w := (true, w);
     ws_set_read_timeout _ _ w := (true, w); ws_set_write_timeout _ _ w := (true, w);
     ws_set_nonblocking _ w := (true, w); ws_shutdown _ w := w |}.
#[export] Instance generations : Generations World := {| is_active _ w := (true, w) |}.

(** READY carries its source generation as its only character. *)
#[export] Instance ingress : IngressEnv Secret World :=
  {| ingress_proxy := proxy_env; ingress_resolver := resolver; ingress_sockets := sockets;
     ingress_generations := generations;
     control_revoked w := (revoked (control w), w);
     control_revision w := (revision (control w), w);
     control_snapshot w := (snapshot (clock w) (control w), w);
     release_lease w :=
       mkWorld (clock w) (log w) (paused w) (incoming w) (frames w) (release (control w)) (heard w);
     abort_requested w := (false, w); stop_requested w := (false, w);
     set_paused b w := mkWorld (clock w) (log w) b (incoming w) (frames w) (control w) (heard w);
     capture_end_ns _ w := (1000, w); input_drops _ w := (0, w);
     try_recv rx w :=
       match frames w with
       | f :: rest =>
           (f, mkWorld (clock w) (log w) (paused w) (incoming w) rest (control w)
                 (heard w ++ match f with Received frame => [(rx, frame)] | _ => [] end))
       | [] => (RecvEmpty, w)
       end;
     parse_ready t := match t with [g] => Some (mkReady (lit "READY") (lit "main.mix") g) | _ => None end;
     environment _ := None |}.

Lemma keeps_everything (R : relation World) :
  PreOrder R → (∀ w d, 0 ≤ d → R w (at_time (clock w + d) w)) →
  (∀ w i f c, R w (mkWorld (clock w + 1) (log w) (paused w) i f c (heard w))) →
  (∀ w i f c, R w (mkWorld (clock w) (log w) (paused w) i f c (heard w))) →
  IngressKeeps Secret World R.
Proof.
  intros HR Ht H1 H0. constructor; [constructor; [exact HR|..]|..]; intros; cbn;
    try reflexivity; try (by apply Ht); try (by apply H0).
  destruct (incoming w); cbn; [apply Ht; lia|apply H1].
Qed.

#[export] Instance ingress_time : IngressTime Secret World clock.
Proof.
  constructor; [exact _| |..].
  - apply keeps_everything; [exact _|..]; unfold later, at_time; cbn; intros; lia.
  - intros. unfold later; cbn; lia.
  - intros. unfold later; cbn; lia.
  - intros s w m w'. cbn. destruct (incoming w) as [|x l]; [done|]. intros [= -> <-]. cbn. lia.
Qed.

#[export] Instance ingress_log : IngressLog Secret World log.
Proof. constructor; [|done]. apply keeps_everything; [exact _|..]; unfold same_log; by intros. Qed.

(** A publication with the first credential; the caller has since renewed it. *)
Definition first : PublisherCredential Secret := mkCredential (mkSecret (lit "first")) (60 * SECOND) 1.
Definition second : PublisherCredential Secret := mkCredential (mkSecret (lit "second")) (90 * SECOND) 2.
Definition route : RelayRouteConfiguration Secret :=
  mkRoute (lit "https://relay.example") (lit "session-1") (mkSecret (lit "first")) (lit "main.mix")
    (lit "group") Config.Low [] (30 * SECOND) WebSocket None.
Definition renewed_control : SharedControl Secret := mkControl route second false 2 false true.

Definition frame : EncodedAudioFrame :=
  mkEncoded [Byte.xf8; Byte.xff; Byte.xfe] 0 1920 960 None 99 0 (Some (mkGeneration 5)).
Definition connection0 : IngressConnection := mkConnection 3 2 4.
Definition stream0 : ActiveIngress := initial_stream (Secret := Secret) None (mkStream connection0 0 counters_default).
Definition recovery0 : PreparedIngressRecovery Secret := mkRecovery first [route].
Definition world0 : World := mkWorld 0 [] false [Ok MPing; Ok (MText [5])] [] renewed_control [].
Definition group0 : Group Secret World := mkGroup [stream0] (Some recovery0) world0.

Definition reattached : Result BoxedError bool * Group Secret World :=
  reattach (Url := Url) true Renewal recovery0 group0.

End Simulation.

Import Sample Simulation.

Lemma send_until_total_witness :
  0 + MAX_FRAME_AGE ≤ clock world0 + MAX_FRAME_AGE ∧
  ∃ res w', send_until (Secret := Secret) 3 MPing (0 + MAX_FRAME_AGE) None world0 = (res, w')
    ∧ res ≠ Err exhausted ∧ clock world0 ≤ clock w'.
Proof.
  assert (0 + MAX_FRAME_AGE ≤ clock world0 + MAX_FRAME_AGE) as Hd by (vm_compute; discriminate).
  split; [exact Hd|]. exact (send_until_total clock 3 MPing _ None world0 Hd).
Defined.

Lemma publish_round_total_witness :
  (publish_round (Url := Url) true group0).1 = Ok None ∧
  (publish_round (Url := Url) true group0).1 ≠ Err exhausted.
Proof. split; [vm_compute; reflexivity|]. exact (publish_round_total (Url := Url) clock true group0). Defined.

Lemma encode_packet_roundtrip_witness :
  encodable frame 2 ∧ is_ok (encode_packet frame 2) = true ∧
  ∀ p, encode_packet frame 2 = Ok p → length p = 43%nat.
Proof.
  destruct (encode_packet_roundtrip frame 2) as [Hiff Hp];
    [vm_compute; split; discriminate|vm_compute; split; discriminate|vm_compute; split; discriminate|].
  assert (is_ok (encode_packet frame 2) = true) as Hok by (vm_compute; reflexivity).
  split; [exact (proj2 Hiff Hok)|]. split; [exact Hok|].
  intros p Ep. exact (proj1 (Hp p Ep)).
Defined.

Definition sent0 : Result BoxedError unit * (ActiveIngress * World) :=
  send_frame (Secret := Secret) frame None (stream0, world0).

Lemma send_until_queues_once_witness :
  send_until (Secret := Secret) 3 MPing MAX_FRAME_AGE None world0 =
    (Ok (), mkWorld 0 [(3, MPing)] false (incoming world0) [] renewed_control []) ∧
  ((log (mkWorld 0 [(3, MPing)] false (incoming world0) [] renewed_control []) = log world0 ∧
     (Ok () = failed Credential ∨ Ok () = Err write_deadline))
   ∨ (log (mkWorld 0 [(3, MPing)] false (incoming world0) [] renewed_control [])
        = log world0 ++ [(3, MPing)]
      ∧ ∃ w0, capability_valid (Secret := Secret) None world0 = (Ok true, w0))).
Proof.
  assert (send_until (Secret := Secret) 3 MPing MAX_FRAME_AGE None world0 =
    (Ok (), mkWorld 0 [(3, MPing)] false (incoming world0) [] renewed_control [])) as Hs
    by (vm_compute; reflexivity).
  split; [exact Hs|].
  exact (send_until_queues_once log 3 MPing MAX_FRAME_AGE None world0 (Ok ()) _ Hs).
Defined.

Lemma send_frame_accounts_witness :
  sent0.1 = Ok () ∧ accounted sent0.2.1 = accounted stream0 + 1.
Proof.
  split; [vm_compute; reflexivity|].
  assert (∃ p, encode_packet frame 2 = Ok p) as [p Hp] by (eexists; vm_compute; reflexivity).
  refine (proj1 (send_frame_accounts frame None stream0 world0 sent0.1 sent0.2.1 sent0.2.2
    connection0 p _ _ _ _)).
  - destruct sent0 as [? [? ?]] eqn:E. exact E.
  - reflexivity.
  - exact Hp.
  - vm_compute. repeat split; discriminate.
Defined.

(** The control has renewed the credential: the group is attached with the second one. *)
Lemma reattach_all_or_nothing_witness :
  reattached.1 = Ok true ∧ recovery reattached.2 = Some (mkRecovery second [route]) ∧
  Forall2 (attached 3 second) [stream0] (active reattached.2) ∧
  readmitted (Url := Url) (later clock) true recovery0 RECOVERY_BUDGET second group0 reattached.2.
Proof.
  assert (reattached.1 = Ok true) as Hok by (vm_compute; reflexivity).
  assert (recovery reattached.2 = Some (mkRecovery second [route])) as Hsecond by (vm_compute; reflexivity).
  split; [exact Hok|]. split; [exact Hsecond|].
  pose proof (reattach_all_or_nothing (Url := Url) (later clock) it_pause (λ s w, it_write s (MClose None) w)
    true Renewal recovery0 group0 reattached.1 reattached.2 eq_refl eq_refl) as Hr.
  rewrite Hok in Hr. destruct Hr as (credential & Ec & Ha & Hadm).
  - rewrite <- Hok. unfold reattached. by destruct (reattach _ _ _ _).
  - rewrite Hsecond in Ec. injection Ec as <-. split; [exact Ha|exact Hadm].
Defined.

Lemma publish_group_generations_witness :
  group_ok group0 ∧
  group_ok (reached (publish_group (Url := Url) 3 true group0)).
Proof.
  assert (group_ok group0) as Hg.
  { split; [|by intros r [= <-]]. constructor; [|constructor]. intros c [= <-]. split; reflexivity. }
  split; [exact Hg|]. exact (proj1 (publish_group_generations (Url := Url) 3 true group0 Hg)).
Defined.
