(* ===== verification/IngressOrder.v ===== *)
(** * Every frame an ingress group takes has one fate

    [Gateway] shows what one call does with one frame; this file follows the frames of a
    whole publication.  [taken rx] logs what was received on an encoder's channel and
    [media] the binary packets handed to the sockets.  Over any number of iterations,
    through every poll, failure and reattachment, the two logs and the counters of every
    stream are accounted for by one sequence of events, a frame and its fate each. *)

From S2P Require Import Prelude Env Text Extern Errors Encoder Proxy Config Control Transport Gateway.

#[local] Arguments lit : simpl never.

(** ** Events *)

(** What became of a frame: delivered on a connection; queued there, but the write failed;
    not queued, because the capability was superseded or the deadline had passed; captured
    before the attachment; too old; cancelled with its output; or no packet of the
    protocol. *)
Inductive Fate : Type :=
  | Delivered (c : IngressConnection)
  | Broken (c : IngressConnection)
  | Missed
  | Early
  | Stale
  | Cancelled
  | Rejected.

(** The stream's index, the frame and its fate. *)
Definition Event : Type := nat * (EncodedAudioFrame * Fate).

Definition of_stream (index : nat) (events : list Event) : list (EncodedAudioFrame * Fate) :=
  snd <$> filter (λ e, e.1 = index) events.

Lemma of_stream_app i l k : of_stream i (l ++ k) = of_stream i l ++ of_stream i k.
Proof. unfold of_stream. by rewrite filter_app, fmap_app. Qed.
Lemma of_stream_one i x : of_stream i [(i, x)] = [x].
Proof. unfold of_stream. by rewrite filter_cons_True. Qed.
Lemma of_stream_other i j x : i ≠ j → of_stream i [(j, x)] = [].
Proof. intros Hne. unfold of_stream. by rewrite filter_cons_False by (cbn; congruence). Qed.

(** The packets an event handed to a socket. *)
Definition packets (x : EncodedAudioFrame * Fate) : list (Ws * list Z) :=
  match x.2 with
  | Delivered c | Broken c =>
      match encode_packet x.1 (channels c) with Ok p => [(ws c, p)] | Err _ => [] end
  | _ => []
  end.

(** The counters that follow the frames. *)
Record Books : Type := mkBooks {
  sent : Z;
  sent_bytes : Z;
  lost : Z;
  stale : Z;
  cancelled : Z;
}.

Definition books_of (a : ActiveIngress) : Books :=
  mkBooks (ingress_frames_sent (statistics a)) (ingress_payload_bytes_sent (statistics a))
    (ingress_recovery_opus_drops (statistics a)) (publisher_stale_drops (counters a))
    (cancelled_output_frames (counters a)).

Definition enter (b : Books) (x : EncodedAudioFrame * Fate) : Books :=
  let 'mkBooks s n l t c := b in
  match x.2 with
  | Delivered _ => mkBooks (sat_add s 1) (sat_add n (Z.of_nat (length (payload x.1)))) l t c
  | Broken _ | Missed | Early => mkBooks s n (sat_add l 1) t c
  | Stale => mkBooks s n l (wrap_add t 1) c
  | Cancelled => mkBooks s n l t (wrap_add c 1)
  | Rejected => b
  end.

(** What a fate says of its frame, on a stream of some channels. *)
Definition lawful (n : Z) (x : EncodedAudioFrame * Fate) : Prop :=
  match x.2 with
  | Delivered c | Broken c => channels c = n ∧ is_ok (encode_packet x.1 n) = true
  | Missed => is_ok (encode_packet x.1 n) = true
  | Cancelled => encoded_generation x.1 ≠ None
  | Rejected => is_err (encode_packet x.1 n) = true
  | Early | Stale => True
  end.

Definition is_rejected (fate : Fate) : bool := match fate with Rejected => true | _ => false end.

(** How many of these frames were rejected. *)
Definition rejections (l : list (EncodedAudioFrame * Fate)) : nat := length (filter (λ x, is_rejected x.2) l).

Lemma rejections_cons x l : rejections (x :: l) = ((if is_rejected x.2 then 1 else 0) + rejections l)%nat.
Proof. unfold rejections. rewrite filter_cons. by destruct (is_rejected x.2). Qed.
Lemma rejections_app l k : rejections (l ++ k) = (rejections l + rejections k)%nat.
Proof. unfold rejections. by rewrite filter_app, length_app. Qed.

(** A stream's rejections are among the group's. *)
Lemma rejections_of_stream i (events : list Event) :
  (rejections (of_stream i events) ≤ rejections events.*2)%nat.
Proof.
  unfold of_stream. induction events as [|e events IH]; [done|]. rewrite fmap_cons, rejections_cons.
  destruct (decide (e.1 = i)).
  - rewrite filter_cons_True by done. rewrite fmap_cons, rejections_cons. by apply Nat.add_le_mono_l.
  - rewrite filter_cons_False by done. etrans; [exact IH|]. apply Nat.le_add_l.
Qed.

Definition unrejected (events : list Event) : Prop := Forall (λ e, e.2.2 ≠ Rejected) events.

Lemma unrejected_none events : unrejected events → rejections events.*2 = 0%nat.
Proof.
  induction 1 as [|e events He _ IH]; [done|]. rewrite fmap_cons, rejections_cons, IH. by destruct e as [? [? []]].
Qed.

(** Only the last event rejects a frame, and that is the error of the publication. *)
Definition ended {A} (events : list Event) (res : Result BoxedError A) : Prop :=
  unrejected events ∨
  (res = failed Protocol ∧ ∃ before last, events = before ++ [last] ∧ unrejected before).

(** A connection carries what its stream encodes. *)
Definition tuned (a : ActiveIngress) : Prop :=
  ∀ c, connection a = Some c → channels c = active_channels a.

(** From a state of a stream to a later one without a frame. *)
Definition quiet (a a' : ActiveIngress) : Prop :=
  encoded_rx a' = encoded_rx a ∧ active_channels a' = active_channels a
  ∧ books_of a' = books_of a ∧ (tuned a → tuned a').

#[export] Instance quiet_preorder : PreOrder quiet.
Proof.
  split; [by intros a|]. intros a b c (? & ? & ? & ?) (? & ? & ? & ?).
  split_and!; try congruence. auto.
Qed.

Section Logs.
Context {W : Type} (taken : nat → W → list EncodedAudioFrame) (media : W → list (Ws * list Z)).

Definition unseen (w w' : W) : Prop :=
  (∀ rx, taken rx w' = taken rx w) ∧ media w' = media w.

#[export] Instance unseen_preorder : PreOrder unseen.
Proof. split; [done|]. intros w1 w2 w3 [H1 H2] [H3 H4]. split; intros; congruence. Qed.
End Logs.

(** Only a received frame changes the first log, and only a binary message the second. *)
Class IngressFrames (Secret W : Type) `{IngressEnv Secret W}
  (taken : nat → W → list EncodedAudioFrame) (media : W → list (Ws * list Z)) : Prop := {
  if_keeps :: IngressKeeps Secret W (unseen taken media);
  if_pause b w : unseen taken media w (set_paused b w);
  if_close s w : unseen taken media w (ws_write s (MClose None) w).2;
  if_packet s p w :
    media (ws_write s (MBinary p) w).2 = media w ++ [(s, p)]
    ∧ ∀ rx, taken rx (ws_write s (MBinary p) w).2 = taken rx w;
  if_take rx w f w' : try_recv rx w = (Received f, w') →
    taken rx w' = taken rx w ++ [f] ∧ (∀ rx', rx' ≠ rx → taken rx' w' = taken rx' w)
    ∧ media w' = media w;
  if_nothing rx w : (∀ f, (try_recv rx w).1 ≠ Received f) → unseen taken media w (try_recv rx w).2;
}.

Section Story.
Context {Secret Url W : Type} `{SecretLib Secret, UrlLib Url} `{!IngressEnv Secret W}
  (taken : nat → W → list EncodedAudioFrame) (media : W → list (Ws * list Z))
  `{!IngressFrames Secret W taken media}.
Local Abbreviation Recovery := (PreparedIngressRecovery Secret).
Local Abbreviation Grp := (Group Secret W).
Local Abbreviation gio := (io Grp BoxedError).
Local Abbreviation unseen := (unseen taken media).
Implicit Types (g : Grp) (a : ActiveIngress) (w : W).

(** ** One frame *)

(** [a] has dealt with the frame of [x]; the world shows it. *)
Definition settled (x : EncodedAudioFrame * Fate) a w a' w' : Prop :=
  connection a' = connection a ∧ encoded_rx a' = encoded_rx a
  ∧ active_channels a' = active_channels a ∧ books_of a' = enter (books_of a) x
  ∧ lawful (active_channels a) x
  ∧ (∀ rx, taken rx w' = taken rx w) ∧ media w' = media w ++ packets x.

Lemma settled_before x a w w1 a' w' :
  unseen w w1 → settled x a w1 a' w' → settled x a w a' w'.
Proof.
  intros [T M] (? & ? & ? & ? & ? & T' & M'). split_and!; try done; [|congruence].
  intros rx. by rewrite T', T.
Qed.

(** A fate that queues nothing is a change of the counters. *)
Lemma settled_counted frame fate (a a' : ActiveIngress) w w' :
  unseen w w' → connection a' = connection a → encoded_rx a' = encoded_rx a →
  active_channels a' = active_channels a → books_of a' = enter (books_of a) (frame, fate) →
  lawful (active_channels a) (frame, fate) → packets (frame, fate) = [] →
  settled (frame, fate) a w a' w'.
Proof. intros [T M] ? ? ? ? ? Hp. unfold settled. rewrite Hp, app_nil_r. by split_and!. Qed.

(** A write hands the packet over once, or does not. *)
Lemma send_until_media s p deadline (r : option Recovery) w res w' :
  send_until s (MBinary p) deadline r w = (res, w') →
  (is_err res = true ∧ unseen w w')
  ∨ ((∀ rx, taken rx w' = taken rx w) ∧ media w' = media w ++ [(s, p)]).
Proof.
  intros [[H1 [-> | ->]]|(_ & w1 & _ & [T1 M1] & [T2 M2])]%(send_until_stages unseen); [by left..|].
  right. destruct (if_packet s p w1) as [M T]. split; [|congruence].
  intros rx. by rewrite T2, T, T1.
Qed.

Lemma books_dropped a :
  books_of (with_statistics count_opus_drop a)
  = let 'mkBooks s n l t c := books_of a in mkBooks s n (sat_add l 1) t c.
Proof. by destruct a as [? ? [] [] ? ? ? ?]. Qed.

(** [send_frame] gives its frame a fate. *)
Lemma send_frame_fate frame (r : option Recovery) a w res a' w' c :
  connection a = Some c → tuned a → send_frame frame r (a, w) = (res, (a', w')) →
  ∃ fate, settled (frame, fate) a w a' w' ∧ (fate = Rejected → res = failed Protocol).
Proof.
  intros Hc Ht. specialize (Ht c Hc). unfold send_frame, mbind, io_bind at 1, in_world, io_lift.
  destruct (generation_cancelled (encoded_generation frame) w) as [b w1] eqn:E1.
  assert (unseen w w1 ∧ (b = true → encoded_generation frame ≠ None)) as [U1 Hb].
  { revert E1. unfold generation_cancelled. destruct (encoded_generation frame) as [gen|]; [|by intros [= <- <-]].
    pose proof (ik_active (R := unseen) gen w) as U. destruct (is_active gen w). by intros [= _ <-]. }
  destruct b.
  { intros [= <- <- <-]. exists Cancelled. split; [|done]. apply settled_counted; try done; [|by apply Hb].
    by destruct a as [? ? [] [] ? ? ? ?]. }
  unfold io_bind at 1, gets. destruct (from_option _ false (not_before_capture_ns a)).
  { intros [= <- <- <-]. exists Early. split; [|done]. apply settled_counted; try done. apply books_dropped. }
  unfold io_bind at 1. pose proof (pk_now (R := unseen) w1) as U2. destruct (now w1) as [t w2].
  cbn in U2. assert (unseen w w2) as U3 by by etrans. destruct (MAX_FRAME_AGE <? t - wallclock frame).
  { intros [= <- <- <-]. exists Stale. split; [|done]. apply settled_counted; try done.
    by destruct a as [? ? [] [] ? ? ? ?]. }
  unfold io_bind, get_connection, mbind, io_bind, gets, io_result. rewrite Hc. cbn [ok_or].
  destruct (encode_packet frame (channels c)) as [p|e] eqn:Ep; cbn [map_err].
  2:{ intros [= <- <- <-]. exists Rejected. split; [|done]. apply settled_counted; try done.
      unfold lawful; cbn. by rewrite <- Ht, Ep. }
  pose proof (pk_now (R := unseen) w2) as U4. destruct (now w2) as [t1 w3]. cbn in U4.
  pose proof (pk_now (R := unseen) w3) as U5. destruct (now w3) as [t2 w4]. cbn in U5.
  assert (unseen w w4) as U6 by (etrans; [exact U3|by etrans]). unfold io_fun. cbv zeta.
  destruct (send_until _ _ _ _ w4) as [sent w5] eqn:Es. apply send_until_media in Es.
  assert (is_ok (encode_packet frame (active_channels a)) = true) as Hok by by rewrite <- Ht, Ep.
  intros Hres. destruct Es as [[Hs U7]|[T M]].
  { exists Missed. split; [|done]. destruct sent; [done|]. injection Hres as <- <- <-.
    apply settled_counted; try done; [by etrans|apply books_dropped]. }
  exists (if is_ok sent then Delivered c else Broken c). split; [|by destruct (is_ok sent)].
  eapply settled_before; [exact U6|]. destruct sent; injection Hres as <- <- <-;
    unfold settled, packets; cbn [fst snd is_ok]; rewrite Ep; split_and!; try done.
  - by destruct a as [? ? [] [] ? ? ? ?].
  - apply books_dropped.
Qed.

(** A poll takes a frame and settles it, or takes none. *)
Lemma poll_stream_fate (r : option Recovery) a w res a' w' :
  tuned a → poll_stream r (a, w) = (res, (a', w')) →
  (quiet a a' ∧ unseen w w') ∨
  ∃ frame fate w1, taken (encoded_rx a) w1 = taken (encoded_rx a) w ++ [frame]
    ∧ (∀ rx, rx ≠ encoded_rx a → taken rx w1 = taken rx w) ∧ media w1 = media w
    ∧ settled (frame, fate) a w1 a' w' ∧ (fate = Rejected → res = failed Protocol).
Proof.
  intros Ht. unfold poll_stream, mbind, io_bind at 1, gets at 1.
  destruct (disconnected a); [intros [= <- <- <-]; by left|].
  unfold io_bind at 1, get_connection, mbind, io_bind at 1, gets at 1, io_result at 1.
  destruct (connection a) as [c|] eqn:Ec; cbn [ok_or]; [|intros [= <- <- <-]; by left].
  unfold io_bind at 1, in_world, io_lift at 1. pose proof (ik_read (R := unseen) (ws c) w) as U1.
  destruct (ws_read (ws c) w) as [m w1]. cbn in U1.
  unfold io_bind at 1, io_result. destruct (poll_socket m) as [u|e]; [|intros [= <- <- <-]; by left].
  unfold io_bind at 1, gets, io_bind at 1, io_lift. pose proof (if_nothing (encoded_rx a) w1) as Hn.
  pose proof (if_take (encoded_rx a) w1) as Hk. destruct (try_recv (encoded_rx a) w1) as [received w2].
  cbn in Hn. destruct received as [frame| |].
  - specialize (Hk frame w2 eq_refl). destruct Hk as (T & O & M), U1 as [T1 M1]. unfold io_bind.
    destruct (send_frame frame r (a, w2)) as [res1 [a2 w3]] eqn:Es.
    apply (send_frame_fate _ _ _ _ _ _ _ c) in Es as (fate & S & Hr); [|done..].
    intros E. right. exists frame, fate, w2. rewrite T, M, T1, M1. split; [done|]. split.
    { intros rx Hrx. by rewrite O, T1. }
    split; [done|]. destruct res1 as [v|e]; injection E as <- <- <-; (split; [done|]);
      intros Hf; specialize (Hr Hf); unfold failed in *; by simplify_eq.
  - intros [= <- <- <-]. left. split; [done|]. etrans; [exact U1|by apply Hn].
  - intros [= <- <- <-]. left. split; [done|]. etrans; [exact U1|by apply Hn].
Qed.

(** ** The group *)

(** From one state of the group to a later one, [events] happened. *)
Record told (events : list Event) g g' : Prop := mkTold {
  told_rx : encoded_rx <$> active g' = encoded_rx <$> active g;
  told_channels : active_channels <$> active g' = active_channels <$> active g;
  told_taken i rx : (encoded_rx <$> active g) !! i = Some rx →
    taken rx (world g') = taken rx (world g) ++ (of_stream i events).*1;
  told_books i b : (books_of <$> active g) !! i = Some b →
    (books_of <$> active g') !! i = Some (foldl enter b (of_stream i events));
  told_lawful : Forall (λ e, ∃ n, (active_channels <$> active g) !! e.1 = Some n ∧ lawful n e.2) events;
  told_media : media (world g') = media (world g) ++ (events ≫= λ e, packets e.2);
}.

Lemma told_trans l k g g1 g2 : told l g g1 → told k g1 g2 → told (l ++ k) g g2.
Proof.
  intros [R1 C1 T1 B1 L1 M1] [R2 C2 T2 B2 L2 M2]. constructor.
  - congruence.
  - congruence.
  - intros i rx Hi. rewrite of_stream_app, fmap_app, app_assoc, <- (T1 i rx Hi). apply T2. by rewrite R1.
  - intros i b Hi. rewrite of_stream_app, foldl_app. by apply B2, B1.
  - apply Forall_app. split; [done|]. by rewrite <- C1.
  - by rewrite M2, M1, bind_app, app_assoc.
Qed.

(** A step of the group that takes no frame. *)
Definition silent g g' : Prop :=
  Forall2 quiet (active g) (active g') ∧ unseen (world g) (world g').

#[local] Instance silent_preorder : PreOrder silent.
Proof.
  split; [intros g; split; reflexivity|]. intros g1 g2 g3 [H1 U1] [H2 U2]. split; by etrans.
Qed.

Lemma quiet_fmap {B} (f : ActiveIngress → B) (l k : list ActiveIngress) :
  (∀ a b, quiet a b → f b = f a) → Forall2 quiet l k → f <$> k = f <$> l.
Proof. intros Hf. induction 1 as [|a b l k Hab _ IH]; [done|]. cbn. f_equal; [by apply Hf|done]. Qed.

Lemma silent_told g g' : silent g g' → told [] g g'.
Proof.
  intros [F [T M]]. constructor; try done.
  - apply quiet_fmap; [|done]. by intros a b (? & _).
  - apply quiet_fmap; [|done]. by intros a b (_ & ? & _).
  - intros i rx _. by rewrite T, app_nil_r.
  - intros i b. rewrite (quiet_fmap books_of (active g) (active g')); try done. by intros a b' (_ & _ & ? & _).
  - by rewrite M, app_nil_r.
Qed.
Lemma silent_tuned g g' : silent g g' → Forall tuned (active g) → Forall tuned (active g').
Proof.
  intros [F _]. induction F as [|a b l k (_ & _ & _ & Hab) _ IH]; [done|].
  intros [? ?]%Forall_cons. constructor; auto.
Qed.
Lemma silent_world g g' : active g' = active g → unseen (world g) (world g') → silent g g'.
Proof. intros E U. split; [by rewrite E|done]. Qed.

Lemma silent_on_world {A} (m : io W BoxedError A) : keeps unseen m → keeps silent (on_world m).
Proof.
  intros Hm g. specialize (Hm (world g)). unfold on_world. destruct (m (world g)). by apply silent_world.
Qed.
#[local] Hint Extern 1 (keeps _ (on_world _)) => apply silent_on_world; keep : keeps.
#[local] Hint Extern 1 (keeps _ get_active) => by intros ? : keeps.
#[local] Hint Extern 1 (keeps _ get_recovery) => by intros ? : keeps.
#[local] Hint Extern 1 => apply if_pause : keeps.

Lemma silent_insert index (a a' : ActiveIngress) (l : list ActiveIngress) :
  l !! index = Some a → quiet a a' → Forall2 quiet l (<[index := a']> l).
Proof.
  intros Ha Hq. rewrite <- (list_insert_id l index a) at 1 by done. by apply Forall2_insert.
Qed.
Lemma silent_fmap (f : ActiveIngress → ActiveIngress) g w :
  (∀ a, quiet a (f a)) → unseen (world g) w →
  silent g (mkGroup (f <$> active g) (recovery g) w).
Proof.
  intros Hf U. split; [|done]. cbn. apply Forall2_fmap_r, Forall_Forall2_diag, Forall_true. done.
Qed.

(** *** Reattachment takes no frame *)

Lemma silent_close : keeps silent (close_active (Secret := Secret) (W := W)).
Proof.
  intros g. unfold close_active, mbind, io_bind, get_active, set_active, io_fun, cancel.
  cbn [world active recovery]. unfold mbind, io_bind, io_lift. pose proof (pk_now (R := unseen) (world g)) as U1.
  destruct (now (world g)) as [t w1]. unfold cancel_until.
  pose proof (keeps_cancel_connections (Secret := Secret) unseen if_close (omap connection (active g))
    (t + MAX_FRAME_AGE) false w1) as U2.
  destruct (cancel_connections _ _ _ w1) as [failed w2]. cbn in *.
  by apply silent_fmap; [|etrans].
Qed.

#[local] Hint Resolve silent_close : keeps.

Lemma prepare_channels (c : RelayRouteConfiguration Secret) n deadline w connection w' :
  prepare (Url := Url) c n deadline w = (Ok connection, w') → channels connection = n.
Proof.
  unfold prepare. intros (? & ? & _ & E)%io_bind_Ok.
  do 8 (apply io_bind_Ok in E as (? & ? & _ & E)). by injection E as <- _.
Qed.

(** Connections admitted for the streams from [index] on carry what these encode. *)
Definition fitting index (cs : list IngressConnection) g : Prop :=
  ∀ j c a, cs !! j = Some c → active g !! (index + j)%nat = Some a → channels c = active_channels a.

Lemma fitting_silent index cs g g' : silent g g' → fitting index cs g ↔ fitting index cs g'.
Proof.
  intros [F _]. split; intros Hf j c a Hc Ha.
  - destruct (Forall2_lookup_r _ _ _ _ _ F Ha) as (b & Hb & (_ & -> & _)). by eapply Hf.
  - destruct (Forall2_lookup_l _ _ _ _ _ F Ha) as (b & Hb & (_ & <- & _)). by eapply Hf.
Qed.

Lemma silent_admitted index c context (credential : PublisherCredential Secret) deadline :
  let admitted : gio (IngressConnection * Z) :=
    stale ← on_world (superseded credential);
    if stale : bool then io_fail (BoxIngress Credential) else
    stopped ← on_world (io_lift (requested context stop_requested));
    if stopped : bool then io_fail (BoxIngress Credential) else
    streams ← get_active;
    a ← io_result (ok_or (Message "index out of bounds") (streams !! index));
    connection ← on_world (prepare (Url := Url) (with_token (token credential) c) (active_channels a) deadline);
    mret (connection, highest_generation a) in
  keeps silent admitted ∧
  ∀ g connection h g', admitted g = (Ok (connection, h), g') →
    ∃ a, active g' !! index = Some a ∧ channels connection = active_channels a.
Proof.
  cbv zeta. split.
  - keep.
  - intros g connection h g' (b & g1 & _ & E)%io_bind_Ok. destruct b; [done|].
    apply io_bind_Ok in E as (b & g2 & _ & E). destruct b; [done|].
    apply io_bind_Ok in E as (l & g3 & E3 & E). injection E3 as <- <-.
    apply io_bind_Ok in E as (a & g4 & E4 & E).
    apply io_bind_Ok in E as (conn & g5 & E5 & E). injection E as -> _ ->.
    apply on_world_frame in E5 as F5. destruct F5 as [F5 _]. unfold io_result in E4.
    destruct (active g2 !! index) as [b|] eqn:Hb; [|done]. injection E4 as -> <-.
    exists a. rewrite F5. split; [done|]. unfold on_world in E5.
    destruct (prepare _ _ _ (world g2)) as [r w] eqn:Ep. injection E5 as -> _. by eapply prepare_channels.
Qed.

Lemma silent_highest generation index g : silent g (mkGroup (alter (with_highest generation) index (active g)) (recovery g) (world g)).
Proof.
  split; [|done]. cbn. rewrite <- (list_alter_id id (active g) index) at 1 by done.
  apply Forall2_alter; [reflexivity|]. intros a b Ha Hb _. by simplify_eq.
Qed.

Lemma admit_group_silent context (credential : PublisherCredential Secret) deadline cs : ∀ index acc g res conns g',
  admit_group (Url := Url) index cs context credential deadline acc g = (res, conns, g') →
  silent g g' ∧ (res = Ok () → ∃ new, conns = acc ++ new ∧ fitting index new g).
Proof.
  induction cs as [|c cs IH]; intros index acc g res conns g'; cbn [admit_group].
  { intros [= <- <- <-]. split; [done|]. intros _. exists []. by rewrite app_nil_r. }
  pose proof (silent_admitted index c context credential deadline) as [Hk Hf]. cbv zeta in Hk, Hf.
  match type of Hk with keeps _ ?m => set (admitted := m) in * end.
  specialize (Hk g). specialize (Hf g). destruct (admitted g) as [[[conn h]|e] g1].
  2:{ intros [= <- <- <-]. by split. }
  destruct (Hf conn h g1 eq_refl) as (a & Ha & Hch). cbn in Hk. clear Hf admitted. cbv zeta.
  destruct (_ <=? h); [intros [= <- <- <-]; by split|].
  pose proof (silent_highest (source_generation conn) index g1) as S2.
  match goal with |- context [match ?m ?x with _ => _ end] => set (check := m); set (g2 := x) in * end.
  assert (silent g g2) as S3 by by etrans.
  assert (keeps silent check) as Hc.
  { unfold check. keep. }
  clearbody g2. specialize (Hc g2). destruct (check g2) as [[[]|e] g3]; cbn in Hc;
    assert (silent g g3) as S4 by by etrans.
  1, 3: intros [= <- <- <-]; by split.
  intros [S5 Hn]%IH. split; [by etrans|]. intros Hres. destruct (Hn Hres) as (new & -> & Hfit).
  exists (conn :: new). split; [by rewrite <- app_assoc|].
  apply (fitting_silent _ _ _ _ S4) in Hfit.
  assert (silent g g1) as S1 by done. apply (fitting_silent _ _ g g1 S1).
  apply (fitting_silent _ _ g g1 S1) in Hfit.
  intros [|j] c' b Hj Hb; cbn in Hj.
  - injection Hj as <-. rewrite Nat.add_0_r, Ha in Hb. by injection Hb as <-.
  - rewrite Nat.add_succ_r in Hb. by eapply Hfit.
Qed.

Lemma attach_all_silent renewed revision cs : ∀ index g,
  fitting index cs g → silent g (attach_all (Secret := Secret) renewed revision index cs g).2.
Proof.
  induction cs as [|c cs IH]; intros index g Hfit; [done|]. cbn [attach_all].
  unfold mbind, io_bind at 1, get_active. case_match eqn:Hle; [done|]. apply Nat.leb_gt in Hle.
  unfold io_bind, attach_stream, mbind, io_bind.
  assert (keeps silent (on_world (io_lift (capture_end_ns index)))) as S1 by keep. specialize (S1 g).
  destruct (on_world (io_lift (capture_end_ns index)) g) as [[cutoff|e] g1] eqn:E1; [|done].
  apply on_world_frame in E1 as [F1 _]. cbn in S1. unfold at_stream, modify. rewrite F1.
  destruct (lookup_lt_is_Some_2 _ _ Hle) as [a Ha]. rewrite Ha.
  set (a2 := attach _ _ _). set (g2 := mkGroup _ _ _).
  assert (silent g g2) as S2.
  { split; [|apply S1]. apply (silent_insert _ a); [done|]. split_and!; try done.
    - by destruct a as [? ? [] [] ? ? ? ?].
    - intros _ c' [= <-]. unfold a2. cbn. apply (Hfit 0%nat); [done|]. by rewrite Nat.add_0_r. }
  etrans; [exact S2|]. apply IH. apply (fitting_silent _ _ _ _ S2). intros j c' b Hj Hb.
  apply (Hfit (S j) c' b); [done|]. by rewrite Nat.add_succ_r.
Qed.

Lemma silent_cancel_until connections (deadline : Z) :
  keeps silent (io_fun (λ g : Grp,
    let '(_, w) := cancel_until (Secret := Secret) connections deadline (world g) in
    (Ok (), mkGroup (active g) (recovery g) w)) : gio unit).
Proof.
  intros g. unfold io_fun, cancel_until.
  pose proof (keeps_cancel_connections (Secret := Secret) unseen if_close connections deadline false (world g)) as U.
  destruct (cancel_connections _ _ _ (world g)) as [failed w]. by apply silent_world.
Qed.

Lemma silent_attempt context reason recovery_deadline attempt (r : Recovery) :
  keeps silent (reattach_attempt (Url := Url) context reason recovery_deadline attempt r).
Proof.
  apply keeps_bind; [exact _|keep|]. intros []; [|keep]. cbn [negb].
  apply keeps_bind; [exact _|keep|]. intros credential. apply keeps_bind; [exact _|keep|]. intros deadline g.
  unfold mbind, io_bind at 1, get_active, io_bind at 1, set_active, io_fun at 1.
  set (g1 := mkGroup _ (recovery g) (world g)).
  assert (silent g g1) as S1.
  { apply silent_fmap; [|done]. intros a. split_and!; try done. by destruct a as [? ? [] [] ? ? ? ?]. }
  destruct (admit_group 0 (configurations r) context credential deadline [] g1) as [[admission conns] g2] eqn:E2.
  apply admit_group_silent in E2 as [S2 Hfit]. assert (silent g g2) as S3 by by etrans.
  destruct admission as [[]|e].
  - destruct (Hfit eq_refl) as (new & -> & Hnew). apply (fitting_silent _ _ _ _ S2) in Hnew.
    cbn [app]. cbv zeta. unfold io_bind at 1.
    pose proof (attach_all_silent (negb (credential_revision credential =? credential_revision (recovery_credential r))
      || bool_decide (reason = Renewal)) (credential_revision credential) new 0 g2 Hnew) as S4.
    destruct (attach_all _ _ 0 new g2) as [[u|e] g3]; cbn in S4; [|by etrans].
    unfold io_bind, set_credential, on_world, io_modify. cbn. etrans; [exact S3|]. etrans; [exact S4|].
    apply silent_world; [done|]. apply if_pause.
  - etrans; [exact S3|]. revert g2 S2 S3 Hfit.
    match goal with |- ∀ g2, _ → _ → _ → silent g2 (?m g2).2 => assert (keeps silent m) as Hm; [|intros; apply Hm] end.
    keep. apply silent_cancel_until.
Qed.

Lemma silent_reattach context reason (r : Recovery) : keeps silent (reattach (Url := Url) context reason r).
Proof.
  unfold reattach. keep. induction (seq 0 RECOVERY_ATTEMPTS); cbn [reattach_attempts]; keep.
  apply silent_attempt.
Qed.
#[local] Hint Resolve silent_reattach : keeps.

Lemma silent_check context : keeps silent (check_capability (Url := Url) context).
Proof. unfold check_capability. keep. Qed.

(** A failed poll takes no frame either; a protocol error ends the publication. *)
Lemma silent_failure context e : keeps silent (poll_failure (Url := Url) context e).
Proof. unfold poll_failure. keep. Qed.

Lemma poll_failure_protocol context g :
  (poll_failure (Url := Url) context (BoxIngress Protocol) g).1 = failed Protocol.
Proof.
  unfold poll_failure, mbind, io_bind, get_recovery. destruct (recovery g) as [r|]; [|done].
  unfold on_world, io_lift. destruct (control_revision (world g)) as [rev w]. cbv zeta.
  by destruct (negb (rev =? _)).
Qed.

(** ** The whole publication *)

(** A computation whose every frame has a fate. *)
Definition tells {A} (m : gio A) : Prop := ∀ g,
  NoDup (encoded_rx <$> active g) → Forall tuned (active g) →
  Forall tuned (active (m g).2) ∧ ∃ events, told events g (m g).2 ∧ ended events (m g).1.

Lemma told_apart events g g' : told events g g' → NoDup (encoded_rx <$> active g) → NoDup (encoded_rx <$> active g').
Proof. intros Ht. by rewrite (told_rx _ _ _ Ht). Qed.

Lemma tells_silent {A} (m : gio A) : keeps silent m → tells m.
Proof.
  intros Hm g _ Ht. specialize (Hm g). split; [by eapply silent_tuned|].
  exists []. split; [by apply silent_told|]. by left; constructor.
Qed.

Lemma ended_after {A} l k (res : Result BoxedError A) : unrejected l → ended k res → ended (l ++ k) res.
Proof.
  intros Hl [Hk|(Hr & before & last & -> & Hb)]; [left; by apply Forall_app|].
  right. split; [done|]. exists (l ++ before), last. split; [by rewrite app_assoc|]. by apply Forall_app.
Qed.
Lemma ended_Ok {A} l (x : A) : ended l (Ok x) → unrejected l.
Proof. by intros [?|[? _]]. Qed.

Lemma tells_bind {A B} (m : gio A) (f : A → gio B) : tells m → (∀ x, tells (f x)) → tells (m ≫= f).
Proof.
  intros Hm Hf g Hd Ht. destruct (Hm g Hd Ht) as (Ht1 & l & T1 & E1). unfold mbind, io_bind.
  destruct (m g) as [[x|e] g1]; cbn in *.
  - apply ended_Ok in E1. destruct (Hf x g1) as (Ht2 & k & T2 & E2); [by eapply told_apart|done|].
    split; [done|]. exists (l ++ k). split; [by eapply told_trans|by apply ended_after].
  - split; [done|]. exists l. split; [done|]. destruct E1 as [?|[[= ->] ?]]; [by left|by right].
Qed.

(** One frame of one stream. *)
Lemma settled_told index g a frame fate w1 a' w' :
  NoDup (encoded_rx <$> active g) → active g !! index = Some a →
  taken (encoded_rx a) w1 = taken (encoded_rx a) (world g) ++ [frame] →
  (∀ rx, rx ≠ encoded_rx a → taken rx w1 = taken rx (world g)) → media w1 = media (world g) →
  settled (frame, fate) a w1 a' w' →
  told [(index, (frame, fate))] g (mkGroup (<[index := a']> (active g)) (recovery g) w').
Proof.
  intros Hd Ha T O M (_ & Hrx & Hch & Hb & Hl & T' & M').
  assert (∀ {B} (f : ActiveIngress → B), f a' = f a → f <$> <[index := a']> (active g) = f <$> active g) as Hf.
  { intros B f E. rewrite list_fmap_insert, E. apply list_insert_id. by rewrite list_lookup_fmap, Ha. }
  constructor; cbn [active world].
  - by apply Hf.
  - by apply Hf.
  - intros i rx Hi. destruct (decide (i = index)) as [->|Hne].
    + rewrite list_lookup_fmap, Ha in Hi. injection Hi as <-. by rewrite T', T, of_stream_one.
    + rewrite of_stream_other by done. cbn. rewrite app_nil_r, T'. apply O. intros ->. apply Hne.
      eapply NoDup_lookup; [exact Hd|exact Hi|]. by rewrite list_lookup_fmap, Ha.
  - intros i b Hi. rewrite list_fmap_insert. destruct (decide (i = index)) as [->|Hne].
    + rewrite list_lookup_insert_eq by (rewrite length_fmap; by eapply lookup_lt_Some).
      rewrite list_lookup_fmap, Ha in Hi. injection Hi as <-. by rewrite of_stream_one, Hb.
    + rewrite of_stream_other by done. by rewrite list_lookup_insert_ne by done.
  - apply Forall_singleton. exists (active_channels a). cbn [fst snd]. by rewrite list_lookup_fmap, Ha.
  - cbn. by rewrite app_nil_r, M', M.
Qed.

Lemma tells_poll index (r : option Recovery) : tells (at_stream index (poll_stream r)).
Proof.
  intros g Hd Ht. unfold at_stream. destruct (active g !! index) as [a|] eqn:Ha; cbn [fst snd].
  2:{ split; [done|]. exists []. split; [by apply silent_told|by left; constructor]. }
  pose proof (Forall_lookup_1 _ _ _ _ Ht Ha) as Hta.
  destruct (poll_stream r (a, world g)) as [res [a' w']] eqn:Ep. cbn [fst snd].
  apply poll_stream_fate in Ep as [[Q U]|(frame & fate & w1 & T & O & M & S & Hr)]; [..|done].
  - assert (silent g (mkGroup (<[index := a']> (active g)) (recovery g) w')) as Hs
      by (split; [by eapply silent_insert|done]).
    split; [by eapply silent_tuned|]. exists []. split; [by apply silent_told|by left; constructor].
  - split.
    { cbn. apply Forall_insert; [done|]. destruct S as (Hc & _ & Hch & _).
      intros c Hc'. rewrite Hch. apply Hta. by rewrite <- Hc. }
    exists [(index, (frame, fate))]. split; [by eapply settled_told|].
    assert (fate = Rejected ∨ fate ≠ Rejected) as [->|Hne] by (destruct fate; (by left) || by right).
    + right. split; [by apply Hr|]. exists [], (index, (frame, Rejected)). by split; [|constructor].
    + left. by apply Forall_singleton.
Qed.

Lemma tells_poll_all context indices : ∀ progress, tells (poll_all (Url := Url) context indices progress).
Proof.
  induction indices as [|i l IH]; intros progress; [by apply tells_silent, keeps_ret, _|].
  intros g Hd Ht. cbn [poll_all]. destruct (tells_poll i (recovery g) g Hd Ht) as (Ht1 & evs & T1 & E1).
  destruct (at_stream i _ g) as [[polled|e] g1]; cbn [fst snd] in *.
  - apply ended_Ok in E1. destruct (IH (progress || polled) g1) as (Ht2 & k & T2 & E2); [by eapply told_apart|done|].
    split; [done|]. exists (evs ++ k). split; [by eapply told_trans|by apply ended_after].
  - pose proof (silent_failure context e g1) as Hs. split; [by eapply silent_tuned|].
    exists (evs ++ []). split; [eapply told_trans; [exact T1|by apply silent_told]|]. rewrite app_nil_r.
    destruct E1 as [?|[[= ->] ?]]; [by left|]. right. split; [apply poll_failure_protocol|done].
Qed.

Lemma tells_round context : tells (publish_round (Url := Url) context).
Proof.
  apply tells_bind; [apply tells_silent; keep|]. intros []; [apply tells_silent; keep|].
  apply tells_bind; [apply tells_silent, silent_check|]. intros []; [|apply tells_silent; keep].
  apply tells_bind; [apply tells_silent; keep|]. intros l.
  apply tells_bind; [apply tells_poll_all|]. intros p. apply tells_silent. keep.
Qed.

(** The events up to the state reached, the publication ended or not. *)
Definition publication_told (events : list Event) g (outcome : Grp + (Result BoxedError unit * Grp)) : Prop :=
  match outcome with
  | inl g' => told events g g' ∧ unrejected events
  | inr (res, g') => told events g g' ∧ ended events res
  end.

(** The loop stops where a round of it does. *)
Lemma publication_stops context g1 x events g :
  told events g (publish_round (Url := Url) context g1).2 →
  ended events (publish_round (Url := Url) context g1).1 →
  io_round (publish_round (Url := Url) context) g1 = x → publication_told events g x.
Proof.
  intros T E <-. unfold io_round. destruct (publish_round context g1) as [[[u|]|e] g2]; cbn in *.
  - split; [done|]. left. by eapply ended_Ok.
  - split; [done|by eapply ended_Ok].
  - split; [done|]. destruct E as [?|[[= ->] ?]]; [by left|by right].
Qed.

Lemma story_exists rounds context g :
  NoDup (encoded_rx <$> active g) → Forall tuned (active g) →
  ∃ events, publication_told events g (publish_group (Url := Url) rounds context g).
Proof.
  intros Hd Ht. unfold publish_group.
  set (I := λ g', Forall tuned (active g') ∧ ∃ events, publication_told events g (inl g')).
  pose proof (run_until_invariant (io_round (publish_round (Url := Url) context)) I
    (λ r, ∃ events, publication_told events g (inr r)) rounds g) as Hr.
  assert (I g) as Hg by (split; [done|]; exists []; split; [by apply silent_told|constructor]).
  assert (∀ g1 x, I g1 → io_round (publish_round (Url := Url) context) g1 = x →
    Forall tuned (active (publish_round (Url := Url) context g1).2) ∧ ∃ events, publication_told events g x) as Hround.
  { intros g1 x (Ht1 & l & T1 & U1) Hx. destruct (tells_round context g1) as (Ht2 & k & T2 & E2);
      [by eapply told_apart|done|]. split; [done|]. exists (l ++ k).
    eapply publication_stops; [by eapply told_trans|by apply ended_after|exact Hx]. }
  destruct (run_until _ _ g) as [g'|[res g']]; apply Hr; try exact Hg;
    intros g1 x H1 Hx; destruct (Hround g1 _ H1 Hx) as [Ht2 He]; try done;
    (split; [|done]); unfold io_round in Hx;
    by destruct (publish_round _ g1) as [[[u|]|e] g3]; simplify_eq.
Qed.

(** At most one frame is rejected, and only with the publication's protocol error. *)
Lemma told_rejections events g outcome :
  publication_told events g outcome →
  told events g (reached outcome) ∧ (rejections events.*2 ≤ 1)%nat
  ∧ ((0 < rejections events.*2)%nat → ∃ g', outcome = inr (failed Protocol, g')).
Proof.
  destruct outcome as [g'|[res g']]; intros [T E]; (split; [exact T|]).
  - apply unrejected_none in E. lia.
  - destruct E as [E%unrejected_none|(-> & before & last & -> & E%unrejected_none)]; [lia|].
    rewrite fmap_app, rejections_app, E, fmap_cons, rejections_cons.
    split; [destruct (is_rejected _); cbn; lia|]. by eexists.
Qed.

(** C6: Every frame an ingress group takes has one fate.  After any number of iterations of
    the publication, however often it was reattached and whether or not it has ended, one
    sequence of events, a frame and its fate each, says what happened: the frames taken
    from a stream's encoder are that stream's events, in order; the packets handed to the
    sockets are those of the delivered and broken events, in order and each encoded for
    its stream's channels; the counters of every stream are those it had with its events
    entered one by one; and a frame that is no packet of the protocol ends the publication
    with a protocol error, so at most one frame is in no counter. *)
Theorem ingress_accounts_for_its_frames rounds context g
  (Hapart : NoDup (encoded_rx <$> active g)) (Htuned : Forall tuned (active g)) :
  ∃ events, publication_told events g (publish_group (Url := Url) rounds context g).
Proof. by apply story_exists. Qed.

(** The group a publication starts with is tuned. *)
Lemma initial_tuned (r : option Recovery) (ss : list IngressStream) :
  Forall tuned (initial_stream r <$> ss).
Proof. apply Forall_fmap, Forall_true. intros s c [= <-]. done. Qed.
End Story.

(** While no counter can overflow, their sum grows by a stream's events, the rejected apart. *)
Definition total (b : Books) : Z := sent b + lost b + stale b + cancelled b.

Definition room (n : nat) (b : Books) : Prop :=
  Forall (λ z, 0 ≤ z ≤ U64_MAX - Z.of_nat n) [sent b; lost b; stale b; cancelled b].

Lemma enter_balance x b n :
  room (S n) b → room n (enter b x)
  ∧ total (enter b x) = total b + match x.2 with Rejected => 0 | _ => 1 end.
Proof.
  unfold room. rewrite !Forall_cons. destruct b as [s k l t c]; cbn. intros (? & ? & ? & ? & _).
  assert (∀ z, 0 ≤ z ≤ U64_MAX - Z.of_nat (S n) → sat_add z 1 = z + 1 ∧ wrap_add z 1 = z + 1) as Hadd.
  { intros z Hz. rewrite sat_add_exact, wrap_add_exact; unfold u64; lia. }
  destruct (Hadd s), (Hadd l), (Hadd t), (Hadd c); try done. unfold total.
  destruct x as [f []]; cbn; (split; [|lia]); repeat constructor; lia.
Qed.

Lemma books_balance l : ∀ b, room (length l) b →
  total (foldl enter b l) + Z.of_nat (rejections l) = total b + Z.of_nat (length l).
Proof.
  induction l as [|x l IH]; intros b Hb; [cbn; lia|].
  destruct (enter_balance x b (length l) Hb) as [Hr Ht]. specialize (IH _ Hr). rewrite Ht in IH.
  cbn [foldl]. rewrite rejections_cons, length_cons. destruct x as [f []]; cbn in *; lia.
Qed.

(** ** A recorded Relay *)

Module Recorder.
Import Sample Simulation.
Import (hints) Simulation.

Definition taken (rx : nat) (w : World) : list EncodedAudioFrame :=
  snd <$> filter (λ p, p.1 = rx) (heard w).
Definition media (w : World) : list (Ws * list Z) :=
  omap (λ m, match m.2 with MBinary p => Some (m.1, p) | _ => None end) (log w).

#[export] Instance recorded : IngressFrames Secret World taken media.
Proof.
  constructor.
  - apply keeps_everything; [exact _|..]; by intros.
  - done.
  - intros s w. split; [done|]. unfold media; cbn. by rewrite omap_app, app_nil_r.
  - intros s p w. split; [|done]. unfold media; cbn. by rewrite omap_app.
  - intros rx w f w'. cbn. destruct (frames w) as [|x l]; [done|]. intros [= -> <-]. unfold taken; cbn.
    split; [|split; [intros rx' Hne|done]]; rewrite filter_app, fmap_app; f_equal.
    + by rewrite filter_cons_True.
    + rewrite filter_cons_False by (cbn; congruence). by rewrite app_nil_r.
  - intros rx w Hf. cbn in *. destruct (frames w) as [|[f| |] l]; cbn in *; [done|by destruct (Hf f)|..];
      unfold unseen, taken; cbn; by setoid_rewrite app_nil_r.
Qed.

(** One frame was captured before the cutoff of the reattachment, the next after it, and
    the last is no 20 ms frame. *)
Definition late : EncodedAudioFrame := mkEncoded [Byte.xf8; Byte.xff] 1 2880 960 None 2000 0 None.
Definition half : EncodedAudioFrame := mkEncoded [Byte.xf8] 2 3840 480 None 3000 0 None.
Definition start : Group Secret World :=
  mkGroup [stream0] (Some recovery0)
    (mkWorld 0 [] false [Ok MPing; Ok (MText [5])] [Received frame; Received late; Received half]
       renewed_control []).

(** The result, the frames taken, the payloads sent and the counters. *)
Definition summary (outcome : Group Secret World + (Result BoxedError unit * Group Secret World)) :=
  let g := match outcome with inl g | inr (_, g) => g end in
  (match outcome with inl _ => None | inr (res, _) => Some res end,
   rtp_time <$> taken 0 (world g), (λ m, drop HEADER_BYTES m.2) <$> media (world g),
   books_of <$> active g).
End Recorder.

Import Sample Simulation Recorder.

Lemma ingress_accounts_for_its_frames_witness :
  Recorder.summary (publish_group (Url := Url) 5 true Recorder.start) =
    (Some (failed Protocol), [1920; 2880; 3840], [[248; 255]], [mkBooks 1 2 1 0 0]) ∧
  ∃ events, publication_told Recorder.taken Recorder.media events Recorder.start
    (publish_group (Url := Url) 5 true Recorder.start).
Proof.
  split; [vm_compute; reflexivity|].
  apply (ingress_accounts_for_its_frames (Url := Url) Recorder.taken Recorder.media 5 true Recorder.start).
  - apply NoDup_singleton.
  - apply Forall_singleton. intros c [= <-]. reflexivity.
Defined.
