(* ===== verification/WebRtc.v ===== *)
(** * The WebRTC engine and signaling: [relay/src/rtc/types.rs], [relay/src/rtc/signaling.rs]

    [str0m] is an engine the connector drives: mutations ([handle_input],
    [writer.write], [add_remote_candidate]) and [poll_output], which must be called
    until it answers [Output::Timeout] before the next mutation.  [drain_all_outputs]
    does that for the publisher.  [wait_for_sdp_answer] and [send_leave] are the
    signaling helpers. *)

From S2P Require Import Prelude Env Text Extern Errors Encoder Proxy Transport.

#[local] Arguments lit : simpl never.

(** ** The engine *)

Definition Mid : Type := Z.
Definition PayloadType : Type := Z.

(** [str0m::media::MediaData], as far as it is read. *)
Record MediaData : Type := mkMedia {
  media_mid : Mid;
  media_data : list Z;
  media_numer : Z;
  media_denom : Z;
  media_contiguous : bool;
}.

Inductive IceConnectionState : Type := IceDisconnected | IceConnected | IceOther.

Inductive Event : Type :=
| MediaDataEvent (m : MediaData)
| IceConnectionStateChange (s : IceConnectionState)
| ConnectedEvent
| OtherEvent.

Inductive Output : Type :=
| OutputTimeout (t : Z)
| OutputTransmit (contents : list Z)
| OutputEvent (e : Event).

Inductive PollError : Type := CloseNotify | PollFailure.

(** [udp.recv_from]: a datagram, [None] for [WouldBlock], or another error. *)
Inductive UdpRecv : Type :=
| Datagram (d : list Z)
| UdpWouldBlock
| UdpFailed.

Class Rtc (W : Type) : Type := {
  rtc_clock :: Clock W;
  handle_timeout : Z → W → bool * W;
  (** [Receive::new], a parser *)
  receive_new : list Z → bool;
  handle_receive : Z → list Z → W → bool * W;
  (** [rtc.writer(mid)] and its first payload type *)
  has_writer : Mid → W → bool;
  payload_type_of : Mid → W → option PayloadType;
  (** [writer.audio_level(level, voice).write(pt, frame)] *)
  rtc_write : Mid → PayloadType → option (Z * bool) → EncodedAudioFrame → W → bool * W;
  parse_candidate : text → option text;
  add_remote_candidate : text → W → W;
  poll_output : W → Result PollError Output * W;
  (** how many outputs are queued at most before the next timeout *)
  output_bound : W → positive;
  udp_recv : W → UdpRecv * W;
  (** [udp.send_to]: the error kind of a failure *)
  udp_send : list Z → W → option ErrorKind * W;
  (** [ws.send] and [ws.close] *)
  ws_send : Ws → WsMessage → W → Result WsError unit * W;
  ws_close : Ws → W → Result WsError unit * W;
}.

Section Drain.
Context {W : Type} `{Rtc W}.
Local Abbreviation bio := (io W BoxedError).

Definition drain_round : bio (option Z) :=
  output ← io_lift poll_output;
  match output with
  | Err CloseNotify => io_fail (Message "relay closed DTLS connection")
  | Err PollFailure => io_fail (Message "poll_output")
  | Ok (OutputTimeout t) => mret (Some t)
  | Ok (OutputTransmit contents) =>
      sent ← io_lift (udp_send contents);
      match sent with
      | Some kind => if bool_decide (kind = WouldBlock) then mret None
                     else io_fail (Message "udp send")
      | None => mret None
      end
  | Ok (OutputEvent _) => mret None
  end.

Definition drain_all_outputs : bio Z :=
  λ w, io_loop (output_bound w) exhausted drain_round w.
End Drain.

(** *** What the engine guarantees

    [needs_poll w]: outputs of the last mutation are still queued.  [misused w]: how many
    mutations ran while they were, [str0m]'s [WriteWithoutPoll].  [pending w]: how many
    outputs precede the next timeout. *)
Class RtcLaws (W : Type) `{Rtc W} (needs_poll : W → bool) (misused : W → nat) (pending : W → Z)
  : Prop := {
  mutate_timeout t w : misused (handle_timeout t w).2 = (misused w + Nat.b2n (needs_poll w))%nat;
  mutate_receive t d w : misused (handle_receive t d w).2 = (misused w + Nat.b2n (needs_poll w))%nat;
  mutate_write m p l f w : misused (rtc_write m p l f w).2 = (misused w + Nat.b2n (needs_poll w))%nat;
  mutate_candidate c w : misused (add_remote_candidate c w) = (misused w + Nat.b2n (needs_poll w))%nat;
  poll_misused w : misused (poll_output w).2 = misused w;
  poll_timeout w t w' : poll_output w = (Ok (OutputTimeout t), w') → needs_poll w' = false;
  poll_pending w o w' :
    poll_output w = (Ok o, w') → (∀ t, o ≠ OutputTimeout t) → 0 ≤ pending w' < pending w;
  pending_bound w : pending w < Zpos (output_bound w);
  send_keeps c w :
    misused (udp_send c w).2 = misused w ∧ pending (udp_send c w).2 = pending w;
  now_keeps_rtc w : misused (now w).2 = misused w ∧ needs_poll (now w).2 = needs_poll w;
  sleep_keeps_rtc d w : misused (sleep d w) = misused w ∧ needs_poll (sleep d w) = needs_poll w;
  recv_keeps w : misused (udp_recv w).2 = misused w ∧ needs_poll (udp_recv w).2 = needs_poll w;
  ws_send_keeps s m w :
    misused (ws_send s m w).2 = misused w ∧ needs_poll (ws_send s m w).2 = needs_poll w;
  ws_close_keeps s w :
    misused (ws_close s w).2 = misused w ∧ needs_poll (ws_close s w).2 = needs_poll w;
}.

Section DrainTheory.
Context {W : Type} `{RtcLaws W}.

Lemma drain_round_misused r w w' : drain_round w = (r, w') → misused w' = misused w.
Proof.
  unfold drain_round, mbind, io_bind at 1, io_lift. pose proof (poll_misused w) as Hp.
  destruct (poll_output w) as [o w1]. cbn in Hp.
  destruct o as [[t|c|e]|[]]; try (by intros [= <- <-]).
  unfold io_bind. pose proof (send_keeps c w1) as [Hs _].
  destruct (udp_send c w1) as [[k|] w2]; cbn in Hs; [case_match|]; intros [= <- <-]; congruence.
Qed.

(** Draining answers, reaches the timeout, and is not itself a mutation. *)
Lemma drain_all_outputs_spec w :
  (drain_all_outputs w).1 ≠ Err exhausted
  ∧ misused (drain_all_outputs w).2 = misused w
  ∧ ∀ t, (drain_all_outputs w).1 = Ok t → needs_poll (drain_all_outputs w).2 = false.
Proof.
  unfold drain_all_outputs.
  destruct (io_loop_total (output_bound w) exhausted drain_round
    (λ w1, misused w1 = misused w) pending w) as (w0 & r & w' & Hw0 & -> & Hr);
    [done| |apply pending_bound|].
  - intros w1 w2 Hm Hround. split; [by rewrite (drain_round_misused _ _ _ Hround)|].
    unfold drain_round, mbind, io_bind at 1, io_lift in Hround.
    destruct (poll_output w1) as [o w3] eqn:Ep.
    assert ((∀ t, o ≠ Ok (OutputTimeout t)) ∧ is_ok o = true ∧ pending w2 = pending w3) as (H1 & H2 & H3).
    { destruct o as [[t|c|e]|[]]; try done.
      - unfold io_bind in Hround. pose proof (send_keeps c w3) as [_ Hs].
        destruct (udp_send c w3) as [[k|] w4]; cbn in Hs; [case_match; [|done]|]; injection Hround as <-; done.
      - by injection Hround as <-. }
    destruct o as [o|]; [|done]. rewrite H3. apply (poll_pending _ _ _ Ep). intros t ->. by apply (H1 t).
  - cbn. destruct r as [t|e].
    + split; [done|]. split; [by rewrite (drain_round_misused _ _ _ Hr)|]. intros t' _.
      unfold drain_round, mbind, io_bind at 1, io_lift in Hr.
      destruct (poll_output w0) as [o w3] eqn:Ep. destruct o as [[t1|c|e]|[]]; try done.
      * injection Hr as _ <-. by eapply poll_timeout.
      * unfold io_bind in Hr. destruct (udp_send c w3) as [[k|] w4]; [case_match|]; done.
    + split; [|split; [by rewrite (drain_round_misused _ _ _ Hr)|done]].
      intros [= ->]. unfold drain_round, mbind, io_bind, io_lift in Hr.
      destruct (poll_output w0) as [[[t1|c|e]|[]] w3]; try done.
      destruct (udp_send c w3) as [[k|] w4]; [case_match|]; done.
Qed.
End DrainTheory.

(** ** Signaling *)

Definition WS_POLL_TIMEOUT : Z := MILLISECOND.
Definition WS_WRITE_TIMEOUT : Z := SECOND.

Record ServerMsg : Type := mkServerMsg {
  msg_type : text;
  sdp_answer : text;
  candidate : text;
  code : text;
  message : text;
}.

Record SignalingAnswer : Type := mkAnswer {
  answer_sdp : text;
  early_candidates : list text;
}.

(** A JSON document, as far as the messages use it. *)
Inductive Json : Type :=
| JString (t : text)
| JArray (l : list Json)
| JObject (fields : list (string * Json)).

Record PublishBusBinding : Type := mkBinding {
  binding_stream_id : text;
  binding_bus_id : text;
}.

Record PublishMsg : Type := mkPublishMsg {
  publish_msg_type : text;
  publish_room_id : text;
  publish_token : text;
  publish_sdp_offer : text;
  publish_bus_id : option text;
  publish_buses : list PublishBusBinding;
}.

Record SubscribeMsg : Type := mkSubscribeMsg {
  subscribe_msg_type : text;
  subscribe_room_id : text;
  subscribe_token : text;
  subscribe_sdp_offer : text;
  subscribe_bus_id : text;
}.

Record LeaveMsg : Type := mkLeaveMsg {
  leave_msg_type : text;
  leave_room_id : text;
}.

(** The objects [#[derive(Serialize)]] makes of them: the fields in their order, under
    their names, without those to be skipped. *)
Definition binding_object (b : PublishBusBinding) : Json :=
  JObject [("stream_id"%string, JString (binding_stream_id b)); ("bus_id"%string, JString (binding_bus_id b))].

Definition publish_buses_are_empty (l : list PublishBusBinding) : bool :=
  match l with [] => true | _ => false end.

Definition publish_object (m : PublishMsg) : Json :=
  JObject ([("type"%string, JString (publish_msg_type m)); ("room_id"%string, JString (publish_room_id m));
            ("token"%string, JString (publish_token m)); ("sdp_offer"%string, JString (publish_sdp_offer m))]
    ++ match publish_bus_id m with Some t => [("bus_id"%string, JString t)] | None => [] end
    ++ if publish_buses_are_empty (publish_buses m) then []
       else [("publish_buses"%string, JArray (binding_object <$> publish_buses m))]).

Definition subscribe_object (m : SubscribeMsg) : Json :=
  JObject [("type"%string, JString (subscribe_msg_type m)); ("room_id"%string, JString (subscribe_room_id m));
           ("token"%string, JString (subscribe_token m)); ("sdp_offer"%string, JString (subscribe_sdp_offer m));
           ("bus_id"%string, JString (subscribe_bus_id m))].

Definition leave_object (m : LeaveMsg) : Json :=
  JObject [("type"%string, JString (leave_msg_type m)); ("room_id"%string, JString (leave_room_id m))].

#[export] Instance binding_object_inj : Inj (=) (=) binding_object.
Proof. intros [x y] [x' y'] [= -> ->]. done. Qed.

(** What is skipped is what is absent: a message can be read back from its object. *)
Lemma publish_object_inj m m' : publish_object m = publish_object m' → m = m'.
Proof.
  destruct m as [a b c d e l], m' as [a' b' c' d' e' l']. unfold publish_object. cbn.
  intros [= -> -> -> -> E].
  assert (∀ k k' : list PublishBusBinding, binding_object <$> k = binding_object <$> k' → k = k') as Hinj.
  { intros k k'. apply (inj (fmap binding_object)). }
  unfold publish_buses_are_empty in E.
  assert (e = e' ∧ binding_object <$> l = binding_object <$> l') as [-> El%Hinj]; [|by subst].
  destruct e as [e|], e' as [e'|], l as [|[x y] l], l' as [|[x' y'] l']; cbn in E |- *; try done;
    injection E; clear; intros; (split; congruence).
Qed.

(** [serde_json::to_string] and [from_str]. *)
Class SignalingJson : Type := {
  to_json : Json → option text;
  parse_server_msg : text → option ServerMsg;
}.

Section Signaling.
Context {W : Type} `{Rtc W, WebSockets W, SignalingJson}.

(** One message: an answer or an error ends the wait; [inl] are the candidates so far. *)
Definition answer_message (early : list text) (m : WsMessage)
  : Result BoxedError (list text + SignalingAnswer) :=
  match m with
  | MText t =>
      match parse_server_msg t with
      | None => Ok (inl early)
      | Some s =>
          if bool_decide (msg_type s = lit "SDP_ANSWER") then
            if bool_decide (sdp_answer s = [])
            then fail "SDP_ANSWER received but sdp_answer field is empty"
            else Ok (inr (mkAnswer (sdp_answer s) early))
          else if bool_decide (msg_type s = lit "ICE") && negb (bool_decide (candidate s = []))
          then Ok (inl (early ++ [candidate s]))
          else if bool_decide (msg_type s = lit "ERROR")
          then fail "relay error"
          else Ok (inl early)
      end
  | _ => Ok (inl early)
  end.

Definition answer_round (ws : Ws) (s : list text * W)
  : (list text * W) + (Result BoxedError SignalingAnswer * W) :=
  let '(early, w) := s in
  match ws_read ws w with
  | (Err _, w) => inr (Err (Message "signaling read"), w)
  | (Ok m, w) =>
      match answer_message early m with
      | Err e => inr (Err e, w)
      | Ok (inl early) => inl (early, w)
      | Ok (inr a) => inr (Ok a, w)
      end
  end.

(** At most [reads] messages; [inl] while still waiting. *)
Definition wait_for_sdp_answer (reads : positive) (ws : Ws) (w : W)
  : (list text * W) + (Result BoxedError SignalingAnswer * W) :=
  run_until reads (answer_round ws) ([], w).

Definition send_leave (ws : Ws) (room_id : text) : io W BoxedError unit :=
  leave ← io_result (ok_or (Message "serialization") (to_json (leave_object (mkLeaveMsg (lit "LEAVE") room_id))));
  r ← io_lift (ws_send ws (MText leave));
  io_result (map_err (λ _, Message "leave") r).
End Signaling.

(** *** No early candidate is lost *)

Section AnswerTheory.
Context {W : Type} `{Rtc W, WebSockets W, SignalingJson}.
Context (received : W → list WsMessage).
Context (Hread : ∀ s w m w', ws_read s w = (Ok m, w') → received w' = received w ++ [m]).

(** The candidate a message offers. *)
Definition offered (m : WsMessage) : option text :=
  match m with
  | MText t =>
      s ← parse_server_msg t;
      if bool_decide (msg_type s = lit "ICE") && negb (bool_decide (candidate s = []))
      then Some (candidate s) else None
  | _ => None
  end.

(** The answer a message carries. *)
Definition answers (m : WsMessage) : option text :=
  match m with
  | MText t =>
      s ← parse_server_msg t;
      if bool_decide (msg_type s = lit "SDP_ANSWER") then Some (sdp_answer s) else None
  | _ => None
  end.

Lemma answer_message_continues early m early' :
  answer_message early m = Ok (inl early') →
  answers m = None ∧ early' = early ++ match offered m with Some c => [c] | None => [] end.
Proof.
  unfold answer_message, answers, offered, fail. destruct m; try (intros [= <-]; by rewrite app_nil_r).
  destruct (parse_server_msg t) as [s|]; cbn; [|intros [= <-]; by rewrite app_nil_r].
  destruct (bool_decide (msg_type s = lit "SDP_ANSWER")) eqn:E1;
    [by destruct (bool_decide (sdp_answer s = []))|].
  destruct (_ && _); [by intros [= <-]|].
  case_match; intros [= <-]; by rewrite app_nil_r.
Qed.

Lemma answer_message_ends early m a :
  answer_message early m = Ok (inr a) →
  answers m = Some (answer_sdp a) ∧ answer_sdp a ≠ [] ∧ early_candidates a = early.
Proof.
  unfold answer_message, answers, fail. destruct m; try done.
  destruct (parse_server_msg t) as [s|]; cbn; [|done].
  destruct (bool_decide (msg_type s = lit "SDP_ANSWER")) eqn:E1; [|by repeat case_match].
  case_match; [done|]. intros [= <-]. cbn. bool_props. done.
Qed.

(** C38: The relay's ICE candidates may overtake its SDP answer, and none is lost: when the
    wait ends with an answer, that answer is the first one received, it is not empty, and
    the early candidates are exactly the non-empty candidates of the ICE messages received
    before it, in order. *)
Theorem wait_for_sdp_answer_keeps_candidates reads ws w a w'
  (Hw : wait_for_sdp_answer reads ws w = inr (Ok a, w')) :
  ∃ before last,
    received w' = received w ++ before ++ [last]
    ∧ answers last = Some (answer_sdp a) ∧ answer_sdp a ≠ []
    ∧ Forall (λ m, answers m = None) before
    ∧ early_candidates a = omap offered before.
Proof.
  unfold wait_for_sdp_answer in Hw.
  set (I := λ s : list text * W, ∃ before, received s.2 = received w ++ before
    ∧ Forall (λ m, answers m = None) before ∧ s.1 = omap offered before).
  set (Q := λ r : Result BoxedError SignalingAnswer * W, ∀ a, r.1 = Ok a → ∃ before last,
    received r.2 = received w ++ before ++ [last]
    ∧ answers last = Some (answer_sdp a) ∧ answer_sdp a ≠ []
    ∧ Forall (λ m, answers m = None) before ∧ early_candidates a = omap offered before).
  pose proof (run_until_invariant (answer_round ws) I Q reads ([], w)) as H3.
  rewrite Hw in H3. refine (H3 _ _ _ a eq_refl); clear H3 Hw.
  - exists []. by rewrite app_nil_r.
  - intros [early w1] [early' w2] (before & Hr & Hb & He) Hround. unfold answer_round in Hround.
    destruct (ws_read ws w1) as [[m|e] w3] eqn:Er; [|done]. apply Hread in Er.
    destruct (answer_message early m) as [[early2|a']|e] eqn:Em; simplify_eq.
    apply answer_message_continues in Em as [Ha ->]. exists (before ++ [m]). cbn in *.
    split; [by rewrite Er, Hr, app_assoc|]. split; [by apply Forall_app; repeat constructor|].
    rewrite omap_app, He. cbn. by destruct (offered m).
  - intros [early w1] [r w2] (before & Hr & Hb & He) Hround a' Ha'. cbn in Ha'. subst r.
    unfold answer_round in Hround.
    destruct (ws_read ws w1) as [[m|e] w3] eqn:Er; [|done]. apply Hread in Er.
    destruct (answer_message early m) as [[early2|a2]|e] eqn:Em; simplify_eq.
    apply answer_message_ends in Em as (Ha & Hne & Hc). exists before, m. cbn in *.
    split; [by rewrite Er, Hr, app_assoc|]. repeat split; try done. congruence.
Qed.
End AnswerTheory.

(** ** A scripted signaling connection *)

Module Script.

(** The messages still to come, and those read. *)
Record World : Type := mkWorld { incoming : list WsMessage; seen : list WsMessage }.

#[export] Instance sockets : WebSockets World :=
  {| ws_read _ w :=
       match incoming w with
       | m :: rest => (Ok m, mkWorld rest (seen w ++ [m]))
       | [] => (Err WsConnectionClosed, w)
       end;
     ws_write _ _ w := (Ok (), w); ws_flush _ w := (Ok (), w); ws_clone_socket _ w := (true, w);
     ws_set_read_timeout _ _ w := (true, w); ws_set_write_timeout _ _ w := (true, w);
     ws_set_nonblocking _ w := (true, w); ws_shutdown _ w := w |}.

(** A message is its type and one value, separated by a space. *)
#[export] Instance json : SignalingJson :=
  {| to_json _ := Some (lit "LEAVE");
     parse_server_msg t :=
       '(kind, value) ← split_once 32 t;
       Some (if bool_decide (kind = lit "ICE") then mkServerMsg kind [] value [] []
             else mkServerMsg kind value [] [] []) |}.

Definition start : World :=
  mkWorld [MText (lit "ICE first"); MPing; MText (lit "ICE second"); MText (lit "SDP_ANSWER v=0")] [].

End Script.

Import Script.

Lemma wait_for_sdp_answer_keeps_candidates_witness :
  wait_for_sdp_answer 9 3 start
  = inr (Ok (mkAnswer (lit "v=0") [lit "first"; lit "second"]), mkWorld [] (incoming start)) ∧
  ∃ before last, incoming start = before ++ [last] ∧ omap offered before = [lit "first"; lit "second"].
Proof.
  assert (wait_for_sdp_answer 9 3 start
    = inr (Ok (mkAnswer (lit "v=0") [lit "first"; lit "second"]), mkWorld [] (incoming start))) as Hw
    by (vm_compute; reflexivity).
  split; [exact Hw|].
  assert (∀ s w m w', ws_read s w = (Ok m, w') → seen w' = seen w ++ [m]) as Hread.
  { intros s w m w'. cbn. destruct (incoming w); [done|]. by intros [= <- <-]. }
  destruct (wait_for_sdp_answer_keeps_candidates seen Hread 9 3 start _ _ Hw)
    as (before & last & Hr & _ & _ & _ & Hc).
  exists before, last. split; [exact Hr|]. symmetry. exact Hc.
Defined.
