(* ===== verification/Publisher.v ===== *)
(** * The RTP publisher loop: [relay/src/rtc/publisher.rs]

    One thread owns the WebRTC engine of a group.  An iteration handles one event:
    the engine's timeout, a datagram, or one frame of the streams taken in turn; when
    nothing was due it keeps the signaling connection alive.  After every mutation the
    engine is drained. *)

From S2P Require Import Prelude Env Text Extern Errors Encoder Proxy Transport WebRtc.

Inductive PublisherBacklogPolicy : Type := Preserve | DropStale.

Definition WS_KEEPALIVE_INTERVAL : Z := 45 * SECOND.

Record PublishStream : Type := mkStream {
  stream_mid : Mid;
  stream_rx : nat;
  stream_policy : PublisherBacklogPolicy;
  stream_counters : EncoderCounters;
}.

Record ActivePublishStream : Type := mkActive {
  mid : Mid;
  encoded_rx : nat;
  backlog_policy : PublisherBacklogPolicy;
  counters : EncoderCounters;
  payload_type : PayloadType;
  disconnected : bool;
  statistics : PublishStreamStats;
}.

(** The local variables of [run_publish_loop]. *)
Record Loop (W : Type) : Type := mkLoop {
  streams : list ActivePublishStream;
  round_robin_start : nat;
  next_rtc_timeout : Z;
  last_ws_ping : Z;
  rtc_poll_drains_total : Z;
  rtc_writer_writes_total : Z;
  world : W;
}.
Arguments mkLoop {W}.
Arguments streams {W} l.
Arguments round_robin_start {W} l.
Arguments next_rtc_timeout {W} l.
Arguments last_ws_ping {W} l.
Arguments rtc_poll_drains_total {W} l.
Arguments rtc_writer_writes_total {W} l.
Arguments world {W} l.

Class PublisherEnv (W : Type) : Type := {
  publisher_rtc :: Rtc W;
  publisher_sockets :: WebSockets W;
  publisher_generations :: Generations W;
  publisher_json :: SignalingJson;
  try_recv : nat → W → TryRecv * W;
  (** more than the frames that can be taken before the channel is empty *)
  backlog_bound : nat → W → positive;
  udp_set_nonblocking : W → bool * W;
}.

Definition count_rtp (bytes : Z) (s : PublishStreamStats) : PublishStreamStats :=
  let 'mkStats f b g a n r t i o d c x y := s in
  mkStats f b g a n r t i o d c (sat_add x 1) (sat_add y bytes).

Definition with_counters (f : EncoderCounters → EncoderCounters) (a : ActivePublishStream)
  : ActivePublishStream :=
  mkActive (mid a) (encoded_rx a) (backlog_policy a) (f (counters a)) (payload_type a)
    (disconnected a) (statistics a).
Definition with_statistics (f : PublishStreamStats → PublishStreamStats) (a : ActivePublishStream)
  : ActivePublishStream :=
  mkActive (mid a) (encoded_rx a) (backlog_policy a) (counters a) (payload_type a)
    (disconnected a) (f (statistics a)).
Definition with_disconnected (a : ActivePublishStream) : ActivePublishStream :=
  mkActive (mid a) (encoded_rx a) (backlog_policy a) (counters a) (payload_type a)
    true (statistics a).

Section Publisher.
Context {W : Type} `{PublisherEnv W}.

(** *** The backlog *)

Definition stale_round (rx : nat) (s : EncodedAudioFrame * Z * W)
  : (EncodedAudioFrame * Z * W) + (EncodedAudioFrame * Z * W) :=
  let '(freshest, stale_drops, w) := s in
  match try_recv rx w with
  | (Received next, w) => inl (next, stale_drops + 1, w)
  | (_, w) => inr (freshest, stale_drops, w)
  end.

(** The next frame, and how many older ones were skipped for it. *)
Definition try_recv_frame (rx : nat) (policy : PublisherBacklogPolicy) (w : W)
  : Result TryRecv (EncodedAudioFrame * Z) * W :=
  match try_recv rx w with
  | (Received freshest, w) =>
      match policy with
      | Preserve => (Ok (freshest, 0), w)
      | DropStale =>
          match run_until (backlog_bound rx w) (stale_round rx) (freshest, 0, w) with
          | inl (frame, drops, w) | inr (frame, drops, w) => (Ok (frame, drops), w)
          end
      end
  | (nothing, w) => (Err nothing, w)
  end.

(** *** The loop's monad *)

Local Abbreviation Lp := (Loop W).
Local Abbreviation lio := (io Lp BoxedError).

Definition on_world {A} (m : io W BoxedError A) : lio A :=
  λ s, let '(r, w) := m (world s) in
       (r, mkLoop (streams s) (round_robin_start s) (next_rtc_timeout s) (last_ws_ping s)
             (rtc_poll_drains_total s) (rtc_writer_writes_total s) w).
Definition gets {A} (f : Lp → A) : lio A := λ s, (Ok (f s), s).
Definition modify_stream (index : nat) (f : ActivePublishStream → ActivePublishStream) : lio unit :=
  io_modify (λ s, mkLoop (alter f index (streams s)) (round_robin_start s) (next_rtc_timeout s)
    (last_ws_ping s) (rtc_poll_drains_total s) (rtc_writer_writes_total s) (world s)).
Definition serve_after (index : nat) : lio unit :=
  io_modify (λ s, mkLoop (streams s) (S index mod length (streams s)) (next_rtc_timeout s)
    (last_ws_ping s) (rtc_poll_drains_total s) (rtc_writer_writes_total s) (world s)).
Definition count_write : lio unit :=
  io_modify (λ s, mkLoop (streams s) (round_robin_start s) (next_rtc_timeout s)
    (last_ws_ping s) (rtc_poll_drains_total s) (sat_add (rtc_writer_writes_total s) 1) (world s)).
Definition set_ping (t : Z) : lio unit :=
  io_modify (λ s, mkLoop (streams s) (round_robin_start s) (next_rtc_timeout s) t
    (rtc_poll_drains_total s) (rtc_writer_writes_total s) (world s)).

(** [next_rtc_timeout = drain_all_outputs(..)?] and the count of the drain: [+= 1] after
    an input, [saturating_add(1)] after a frame. *)
Definition drain (count : Z → Z) : lio unit :=
  t ← on_world drain_all_outputs;
  io_modify (λ s, mkLoop (streams s) (round_robin_start s) t (last_ws_ping s)
    (count (rtc_poll_drains_total s)) (rtc_writer_writes_total s) (world s)).

(** A fallible call of the engine whose error ends the publication. *)
Definition engine (call : W → bool * W) (m : string) : lio unit :=
  on_world (λ w, let '(done, w) := call w in (if done : bool then Ok () else fail m, w)).

(** *** One frame *)

Inductive Scan : Type := Wrote | Cancelled | Nothing.

Definition audio_level_of (frame : EncodedAudioFrame) : option (Z * bool) :=
  (λ level, (- level, level <? 40)) <$> audio_level frame.

(** The [Ok((frame, stale_drops))] arm. *)
Definition publish_frame (index : nat) (a : ActivePublishStream) (frame : EncodedAudioFrame)
  (stale_drops : Z) : lio Scan :=
  _ ← (if 0 <? stale_drops then modify_stream index (with_counters (add_stale_drops stale_drops))
       else mret ());
  cancelled ← on_world (io_lift (generation_cancelled (encoded_generation frame)));
  if cancelled : bool then
    _ ← modify_stream index (with_counters (add_cancelled_frames 1));
    _ ← serve_after index;
    mret Cancelled
  else
    exists_writer ← gets (λ s, has_writer (mid a) (world s));
    if negb exists_writer then io_fail (Message "negotiated Relay AudioBus writer disappeared") else
    _ ← engine (rtc_write (mid a) (payload_type a) (audio_level_of frame) frame)
          "Relay AudioBus RTP write failed";
    _ ← modify_stream index (with_statistics (count_rtp (Z.of_nat (length (payload frame)))));
    _ ← count_write;
    _ ← drain (λ n, sat_add n 1);
    _ ← serve_after index;
    mret Wrote.

(** The streams in cyclic order from [round_robin_start], as offsets. *)
Fixpoint scan_streams (start : nat) (offsets : list nat) : lio Scan :=
  match offsets with
  | [] => mret Nothing
  | offset :: offsets =>
      n ← gets (λ s, length (streams s));
      let index := ((start + offset) mod n)%nat in
      stream ← gets (λ s, streams s !! index);
      match stream with
      | None => io_fail (Message "index out of bounds")
      | Some a =>
          if disconnected a then scan_streams start offsets else
          received ← on_world (io_lift (try_recv_frame (encoded_rx a) (backlog_policy a)));
          match received with
          | Ok (frame, stale_drops) => publish_frame index a frame stale_drops
          | Err RecvDisconnected =>
              _ ← modify_stream index with_disconnected;
              scan_streams start offsets
          | Err _ => scan_streams start offsets
          end
      end
  end.

(** *** The iteration *)

Definition classify_signaling_read (r : Result WsError WsMessage) : Result BoxedError unit :=
  match r with
  | Ok (MClose _) | Err WsConnectionClosed => fail "relay signaling connection closed during publication"
  | Ok _ => Ok ()
  | Err (WsIo (WouldBlock | TimedOut)) => Ok ()
  | Err _ => fail "relay signaling connection failed"
  end.

(** The idle part of the iteration. *)
Definition keep_alive (ws : Ws) : lio unit :=
  t ← on_world (io_lift now);
  last ← gets last_ws_ping;
  _ ← (if WS_KEEPALIVE_INTERVAL <=? t - last then
         sent ← on_world (io_lift (ws_send ws MPing));
         _ ← io_result (map_err (λ _, Message "keepalive") sent);
         t ← on_world (io_lift now);
         set_ping t
       else mret ());
  r ← on_world (io_lift (ws_read ws));
  io_result (classify_signaling_read r).

(** One pass of the ['publish] loop: [Some ()] leaves it. *)
Definition publish_round (ws : Ws) : lio (option unit) :=
  t ← on_world (io_lift now);
  timeout ← gets next_rtc_timeout;
  if timeout <=? t then
    _ ← engine (handle_timeout t) "handle_input Timeout";
    _ ← drain (λ n, wrap_add n 1);
    mret None
  else
    datagram ← on_world (io_lift udp_recv);
    match datagram with
    | Datagram d =>
        if negb (receive_new d) then io_fail (Message "Receive::new") else
        t ← on_world (io_lift now);
        _ ← engine (handle_receive t d) "handle_input Receive";
        _ ← drain (λ n, wrap_add n 1);
        mret None
    | UdpFailed => io_fail (Message "udp receive")
    | UdpWouldBlock =>
        start ← gets round_robin_start;
        n ← gets (λ s, length (streams s));
        scanned ← scan_streams start (seq 0 n);
        match scanned with
        | Wrote | Cancelled => mret None
        | Nothing =>
            done ← gets (λ s, forallb disconnected (streams s));
            if done : bool then mret (Some ()) else
            _ ← keep_alive ws;
            mret None
        end
    end.

(** At most [rounds] iterations; [inl] while the loop is still running. *)
Definition publish_loop (rounds : positive) (ws : Ws) (s : Lp)
  : Lp + (Result BoxedError unit * Lp) :=
  run_until rounds (io_round (publish_round ws)) s.

(** *** Start and end *)

Definition activate (w : W) (s : PublishStream) : Result BoxedError ActivePublishStream :=
  pt ← ok_or (Message "relay AudioBus has no negotiated Opus payload type")
         (if has_writer (stream_mid s) w then payload_type_of (stream_mid s) w else None);
  Ok {| mid := stream_mid s; encoded_rx := stream_rx s; backlog_policy := stream_policy s;
        counters := stream_counters s; payload_type := pt; disconnected := false;
        statistics := stats_default |}.

Definition start_loop (ws : Ws) (ss : list PublishStream) : io W BoxedError (Lp * Z) :=
  if bool_decide (ss = []) then io_fail (Message "relay publisher requires at least one encoded AudioBus")
  else
    io_fun (λ w,
      (active ← io_result (collect (activate w) ss);
       _ ← syscall (ws_set_read_timeout ws WS_POLL_TIMEOUT) "read timeout";
       _ ← syscall (ws_set_write_timeout ws WS_WRITE_TIMEOUT) "write timeout";
       _ ← syscall udp_set_nonblocking "UDP set_nonblocking";
       next ← io_lift now;
       started ← io_lift now;
       ping ← io_lift now;
       io_fun (λ w, (Ok (mkLoop active 0 next ping 0 0 w, started), w))) w).

Definition end_loop (ws : Ws) (room : text) (started : Z) (s : Lp) : PublishStats * W :=
  let '(_, w) := send_leave ws room (world s) in
  let '(_, w) := ws_close ws w in
  let '(t, w) := now w in
  (mkPublishStats (statistics <$> streams s) (t - started) (rtc_poll_drains_total s)
     (rtc_writer_writes_total s), w).

(** [None] while still publishing after [rounds] iterations. *)
Definition run_publish_loop (rounds : positive) (ws : Ws) (ss : list PublishStream) (room : text)
  (w : W) : option (Result BoxedError PublishStats * W) :=
  match start_loop ws ss w with
  | (Err e, w) => Some (Err e, w)
  | (Ok (s, started), _) =>
      match publish_loop rounds ws s with
      | inl _ => None
      | inr (Err e, s) => Some (Err e, world s)
      | inr (Ok _, s) => let '(stats, w) := end_loop ws room started s in Some (Ok stats, w)
      end
  end.
End Publisher.

(** ** One mutation, then a drain *)

(** Operations that are not engine calls leave the engine alone. *)
Class PublisherQuiet (W : Type) `{PublisherEnv W} (needs_poll : W → bool) (misused : W → nat) : Prop := {
  quiet_read s w : misused (ws_read s w).2 = misused w ∧ needs_poll (ws_read s w).2 = needs_poll w;
  quiet_active g w : misused (is_active g w).2 = misused w ∧ needs_poll (is_active g w).2 = needs_poll w;
  quiet_recv i w : misused (try_recv i w).2 = misused w ∧ needs_poll (try_recv i w).2 = needs_poll w;
  quiet_read_timeout s d w :
    misused (ws_set_read_timeout s d w).2 = misused w ∧ needs_poll (ws_set_read_timeout s d w).2 = needs_poll w;
  quiet_write_timeout s d w :
    misused (ws_set_write_timeout s d w).2 = misused w ∧ needs_poll (ws_set_write_timeout s d w).2 = needs_poll w;
  quiet_nonblocking w :
    misused (udp_set_nonblocking w).2 = misused w ∧ needs_poll (udp_set_nonblocking w).2 = needs_poll w;
}.

Section Mutation.
Context {W : Type} `{PublisherEnv W} (needs_poll : W → bool) (misused : W → nat) (pending : W → Z)
  `{!RtcLaws W needs_poll misused pending, !PublisherQuiet W needs_poll misused}.
Local Abbreviation Lp := (Loop W).

Section Count.
(** The misuses counted when the loop is first drained. *)
Context (count0 : nat).

(** The engine has not been misused since, and is drained. *)
Definition drained (w : W) : Prop := misused w = count0 ∧ needs_poll w = false.

Definition clean (s : Lp) : Prop := drained (world s).
(** A mutation has run since the last drain. *)
Definition dirty (s : Lp) : Prop := misused (world s) = count0.

(** [triple P m Q]: from [P] the count is [count0] whatever [m] answers, and [m] leaves the
    engine in [Q] unless it ends the publication with an error. *)
Definition triple {A} (P : Lp → Prop) (m : io Lp BoxedError A) (Q : Lp → Prop) : Prop :=
  ∀ s, P s → misused (world (m s).2) = count0 ∧ (is_ok (m s).1 = true → Q (m s).2).

Lemma triple_bind {A B} P Q R (m : io Lp BoxedError A) (f : A → io Lp BoxedError B) :
  triple P m Q → (∀ a, triple Q (f a) R) → triple P (m ≫= f) R.
Proof.
  intros Hm Hf s Hs. unfold mbind, io_bind. specialize (Hm s Hs).
  destruct (m s) as [[a|e] s']; cbn in *; [apply Hf; by apply Hm|]. by split; [apply Hm|].
Qed.

Lemma clean_ret {A} (a : A) : triple clean (mret a) clean.
Proof. by intros s [Hm Hn]. Qed.
Lemma clean_fail {A} e : triple (A := A) clean (io_fail e) clean.
Proof. by intros s [Hm Hn]. Qed.
Lemma clean_result {A} (r : Result BoxedError A) : triple clean (io_result r) clean.
Proof. by intros s [Hm Hn]. Qed.
Lemma clean_gets {A} (f : Lp → A) : triple clean (gets f) clean.
Proof. by intros s [Hm Hn]. Qed.
Lemma clean_modify (f : Lp → Lp) : (∀ s, world (f s) = world s) → triple clean (io_modify f) clean.
Proof. intros Hf s [Hm Hn]. unfold clean, drained; cbn. by rewrite Hf. Qed.
Lemma dirty_modify (f : Lp → Lp) : (∀ s, world (f s) = world s) → triple dirty (io_modify f) dirty.
Proof. intros Hf s Hm. unfold dirty in *; cbn. by rewrite Hf. Qed.

Lemma clean_world {A} (m : W → A * W) :
  (∀ w, misused (m w).2 = misused w ∧ needs_poll (m w).2 = needs_poll w) →
  triple clean (on_world (io_lift m)) clean.
Proof.
  intros Hq s [Hm Hn]. unfold clean, drained, on_world, io_lift. specialize (Hq (world s)).
  destruct (m (world s)) as [a w]; cbn in *. destruct Hq as [Q1 Q2].
  split; [congruence|]. intros _. split; congruence.
Qed.

(** A mutation that settles the count: one of a drained engine, or a first one. *)
Definition settling (s : Lp) : Prop :=
  (misused (world s) + Nat.b2n (needs_poll (world s)))%nat = count0.

Lemma clean_settling s : clean s → settling s.
Proof. intros [Hm Hn]. unfold settling. rewrite Hm, Hn. apply Nat.add_0_r. Qed.

Lemma settle_engine (call : W → bool * W) msg :
  (∀ w, misused (call w).2 = (misused w + Nat.b2n (needs_poll w))%nat) →
  triple settling (engine call msg) dirty.
Proof.
  intros Hcall s Hs. unfold settling, dirty, engine, on_world in *. specialize (Hcall (world s)).
  destruct (call (world s)) as [[] w]; cbn in *; by rewrite Hcall, Hs.
Qed.

Lemma mutate_engine (call : W → bool * W) msg :
  (∀ w, misused (call w).2 = (misused w + Nat.b2n (needs_poll w))%nat) →
  triple clean (engine call msg) dirty.
Proof. intros Hcall s Hs. by apply (settle_engine call msg), clean_settling. Qed.

(** The drain after it. *)
Lemma drain_engine count : triple dirty (drain count) clean.
Proof.
  intros s Hm. unfold dirty in Hm. unfold drain, mbind, io_bind, on_world.
  pose proof (drain_all_outputs_spec (world s)) as (_ & Hd & Ht).
  destruct (drain_all_outputs (world s)) as [[t|e] w]; cbn in *; [|split; [congruence|done]].
  split; [congruence|]. intros _. split; cbn; [congruence|by eapply Ht].
Qed.

Lemma clean_try_recv_frame rx policy :
  triple clean (on_world (io_lift (try_recv_frame rx policy))) clean.
Proof.
  apply clean_world. intros w. unfold try_recv_frame. pose proof (quiet_recv rx w) as Hq.
  destruct (try_recv rx w) as [[f| |] w1]; cbn in *; try done. destruct policy; [done|].
  pose proof (run_until_invariant (stale_round rx)
    (λ s, misused s.2 = misused w ∧ needs_poll s.2 = needs_poll w)
    (λ s, misused s.2 = misused w ∧ needs_poll s.2 = needs_poll w) (backlog_bound rx w1) (f, 0, w1) Hq) as Hr.
  destruct (run_until _ _ _) as [[[f' d] w2]|[[f' d] w2]]; apply Hr;
    intros [[f1 d1] w3] [[f2 d2] w4] [I1 I2] Hx; unfold stale_round in Hx;
    pose proof (quiet_recv rx w3) as [Q1 Q2];
    destruct (try_recv rx w3) as [[f3| |] w5]; simplify_eq; cbn in *; split; congruence.
Qed.

Lemma clean_publish_frame index a frame drops : triple clean (publish_frame index a frame drops) clean.
Proof.
  eapply triple_bind; [case_match; [by apply clean_modify|apply clean_ret]|]. intros _.
  eapply triple_bind.
  { apply clean_world. intros w. unfold generation_cancelled. destruct (encoded_generation frame) as [g|]; [|done].
    pose proof (quiet_active g w) as Hq. by destruct (is_active g w). }
  intros [].
  - eapply triple_bind; [by apply clean_modify|]. intros _.
    eapply triple_bind; [by apply clean_modify|]. intros _. apply clean_ret.
  - eapply triple_bind; [apply clean_gets|]. intros []; cbn [negb]; [|apply clean_fail].
    eapply triple_bind; [apply mutate_engine, mutate_write|]. intros _.
    eapply triple_bind; [by apply dirty_modify|]. intros _.
    eapply triple_bind; [by apply dirty_modify|]. intros _.
    eapply triple_bind; [apply drain_engine|]. intros _.
    eapply triple_bind; [by apply clean_modify|]. intros _. apply clean_ret.
Qed.

Lemma clean_scan_streams start offsets : triple clean (scan_streams start offsets) clean.
Proof.
  induction offsets as [|o l IH]; [apply clean_ret|]. cbn [scan_streams].
  eapply triple_bind; [apply clean_gets|]. intros n. cbv zeta.
  eapply triple_bind; [apply clean_gets|]. intros [a|]; [|apply clean_fail].
  case_match; [exact IH|].
  eapply triple_bind; [apply clean_try_recv_frame|].
  intros [[frame drops]|[f| |]]; [apply clean_publish_frame|exact IH| |exact IH].
  eapply triple_bind; [by apply clean_modify|]. intros _. exact IH.
Qed.

Lemma clean_publish_round ws : triple clean (publish_round ws) clean.
Proof.
  eapply triple_bind; [apply clean_world, now_keeps_rtc|]. intros t.
  eapply triple_bind; [apply clean_gets|]. intros timeout. case_match.
  { eapply triple_bind; [apply mutate_engine, mutate_timeout|]. intros _.
    eapply triple_bind; [apply drain_engine|]. intros _. apply clean_ret. }
  eapply triple_bind; [apply clean_world, recv_keeps|]. intros [d| |]; [| |apply clean_fail].
  { destruct (receive_new d); cbn [negb]; [|apply clean_fail].
    eapply triple_bind; [apply clean_world, now_keeps_rtc|]. intros t'.
    eapply triple_bind; [apply mutate_engine, mutate_receive|]. intros _.
    eapply triple_bind; [apply drain_engine|]. intros _. apply clean_ret. }
  eapply triple_bind; [apply clean_gets|]. intros start.
  eapply triple_bind; [apply clean_gets|]. intros n.
  eapply triple_bind; [apply clean_scan_streams|]. intros []; try apply clean_ret.
  eapply triple_bind; [apply clean_gets|]. intros []; [apply clean_ret|].
  eapply triple_bind; [|intros _; apply clean_ret].
  eapply triple_bind; [apply clean_world, now_keeps_rtc|]. intros t'.
  eapply triple_bind; [apply clean_gets|]. intros last.
  eapply triple_bind; [case_match; [|apply clean_ret]|].
  - eapply triple_bind; [apply clean_world; intros; apply ws_send_keeps|]. intros sent.
    eapply triple_bind; [apply clean_result|]. intros _.
    eapply triple_bind; [apply clean_world, now_keeps_rtc|]. intros t2. by apply clean_modify.
  - intros _. eapply triple_bind; [apply clean_world; intros; apply quiet_read|]. intros r.
    apply clean_result.
Qed.

(** A running loop is drained; one that ended has not misused the engine either. *)
Definition respectful {R} (outcome : Lp + (R * Lp)) : Prop :=
  match outcome with
  | inl s => drained (world s)
  | inr (_, s) => misused (world s) = count0
  end.

Lemma rounds_respectful rounds ws (s : Lp) :
  clean s → respectful (run_rounds (io_round (publish_round ws)) rounds s).
Proof.
  revert s. induction rounds as [|rounds IH]; intros s Hs; [exact Hs|]. cbn [run_rounds]. unfold io_round.
  destruct (clean_publish_round ws s Hs) as [T1 T2].
  destruct (publish_round ws s) as [[[u|]|e] s2]; [exact T1|by apply IH, T2|exact T1].
Qed.

(** *** The first iteration *)

(** The loop starts with a timeout that is due. *)
Definition due (s : Lp) : Prop := settling s ∧ next_rtc_timeout s ≤ (now (world s)).1.

Lemma first_round ws : triple due (publish_round ws) clean.
Proof.
  intros s [Hs Ht]. destruct (now (world s)) as [t w] eqn:E. cbn in Ht.
  pose proof (now_keeps_rtc (world s)) as [N1 N2]. rewrite E in N1, N2. cbn in N1, N2.
  assert (publish_round ws s
    = (_ ← engine (handle_timeout t) "handle_input Timeout"; _ ← drain (λ n, wrap_add n 1); mret None)
        (mkLoop (streams s) (round_robin_start s) (next_rtc_timeout s) (last_ws_ping s)
           (rtc_poll_drains_total s) (rtc_writer_writes_total s) w)) as ->.
  { unfold publish_round. unfold mbind at 1, io_bind at 1, on_world at 1, io_lift at 1. rewrite E.
    unfold mbind at 1, io_bind at 1, gets at 1. cbn [next_rtc_timeout].
    by rewrite (proj2 (Z.leb_le _ _) Ht). }
  apply (triple_bind settling dirty clean).
  - apply settle_engine, mutate_timeout.
  - intros _. eapply triple_bind; [apply drain_engine|]. intros _. apply clean_ret.
  - unfold settling in *. cbn. by rewrite N1, N2.
Qed.

Lemma loop_respectful rounds ws (s : Lp) : due s → respectful (publish_loop rounds ws s).
Proof.
  intros Hs. unfold publish_loop. rewrite run_until_rounds.
  destruct (Pos.to_nat rounds) as [|n] eqn:E; [lia|]. cbn [run_rounds]. unfold io_round at 1.
  destruct (first_round ws s Hs) as [T1 T2].
  destruct (publish_round ws s) as [[[u|]|e] s2]; [exact T1|by apply rounds_respectful, T2|exact T1].
Qed.
End Count.

(** The engine is as it was. *)
Definition same_engine (w w' : W) : Prop := misused w' = misused w ∧ needs_poll w' = needs_poll w.

Lemma syscall_same call m w u w' :
  same_engine w (call w).2 → syscall call m w = (Ok u, w') → same_engine w w'.
Proof. unfold syscall. destruct (call w) as [[] w1]; [|done]. by intros ? [= _ <-]. Qed.

Lemma now_same w t w' : now w = (t, w') → same_engine w w'.
Proof. intros E. pose proof (now_keeps_rtc w) as N. by rewrite E in N. Qed.

(** The loop starts with the engine it is given, and its first timeout is due. *)
Lemma start_loop_due time `{!ClockLaws W time} ws ss w s t w' :
  start_loop ws ss w = (Ok (s, t), w') → due (misused w + Nat.b2n (needs_poll w))%nat s.
Proof.
  unfold start_loop. case_bool_decide; [done|]. unfold io_fun at 1.
  intros (l & w1 & [= _ ->] & Hl)%io_bind_Ok.
  apply io_bind_Ok in Hl as (u1 & w2 & E1%syscall_same & Hl); [|apply quiet_read_timeout].
  apply io_bind_Ok in Hl as (u2 & w3 & E2%syscall_same & Hl); [|apply quiet_write_timeout].
  apply io_bind_Ok in Hl as (u3 & w4 & E3%syscall_same & Hl); [|apply quiet_nonblocking].
  apply io_bind_Ok in Hl as (next & w5 & N1%io_lift_Ok & Hl).
  apply io_bind_Ok in Hl as (started & w6 & N2%io_lift_Ok & Hl).
  apply io_bind_Ok in Hl as (ping & w7 & N3%io_lift_Ok & Hl). injection Hl as <- _ _.
  split; cbn.
  - apply now_same in N1, N2, N3. unfold same_engine, settling in *. cbn. destruct_and?. congruence.
  - pose proof (now_reads w4) as T1. pose proof (now_reads w5) as T2. pose proof (now_reads w6) as T3.
    rewrite N1, N2, N3 in *. cbn in *. pose proof (now_reads w7). lia.
Qed.

(** C14: The publisher respects the engine's protocol.  However many iterations run and
    whatever arrives, no timeout, datagram or frame is handed to the WebRTC engine while
    outputs of an earlier mutation are still queued, so [WriteWithoutPoll] cannot occur;
    between iterations the engine is drained.  One mutation is not the loop's doing: its
    first is always a timeout, and that finds whatever outputs its caller left queued; so
    over the whole publication the engine is misused exactly once if the loop was entered
    with outputs queued, as the handshake does ([Handshake.connected_leaves_outputs]), and
    never if not. *)
Theorem publisher_drains_between_mutations time `{!ClockLaws W time} rounds ws ss w (s : Lp) t w'
  (Hstart : start_loop ws ss w = (Ok (s, t), w')) :
  respectful (misused w + Nat.b2n (needs_poll w))%nat (publish_loop rounds ws s).
Proof. by eapply loop_respectful, start_loop_due. Qed.
End Mutation.

(** ** The backlog policy *)

Section Backlog.
Context {W : Type} `{PublisherEnv W}
  (taken : nat → W → list EncodedAudioFrame) (backlog : nat → W → Z).
(** [taken rx w] logs the frames received on [rx]; [backlog rx w] bounds those that can be
    received before the channel is found empty. *)
Context (Htaken : ∀ rx w f w', try_recv rx w = (Received f, w') → taken rx w' = taken rx w ++ [f]).
Context (Hempty : ∀ rx w, (∀ f, (try_recv rx w).1 ≠ Received f) → taken rx (try_recv rx w).2 = taken rx w).
Context (Hbacklog : ∀ rx w f w', try_recv rx w = (Received f, w') → 0 ≤ backlog rx w' < backlog rx w).
Context (Hbound : ∀ rx w, backlog rx w < Zpos (backlog_bound rx w)).

(** Preserve takes exactly one frame.  DropStale takes everything that is waiting and
    keeps only the newest frame: the frames it skips are the older ones, their number is
    the count reported, and it stops only when the channel was found empty. *)
Theorem try_recv_frame_policy rx policy w f drops w'
  (Hf : try_recv_frame rx policy w = (Ok (f, drops), w')) :
  ∃ older, taken rx w' = taken rx w ++ older ++ [f] ∧ Z.of_nat (length older) = drops
    ∧ (policy = Preserve → older = [])
    ∧ (policy = DropStale → ∃ w1, w' = (try_recv rx w1).2 ∧ ∀ f', (try_recv rx w1).1 ≠ Received f').
Proof.
  unfold try_recv_frame in Hf. destruct (try_recv rx w) as [[f0| |] w1] eqn:E; try done.
  pose proof (Htaken _ _ _ _ E) as Ht. destruct policy.
  { injection Hf as <- <- <-. exists []. split; [done|]. split; [done|]. by split. }
  destruct (run_until_terminates (stale_round rx) (λ _, True) (backlog_bound rx w1) (f0, 0, w1)
    (λ s, backlog rx s.2)) as [r Hr]; [done| |apply Hbound|].
  { intros [[f1 d1] w2] [[f2 d2] w3] _ Hs. unfold stale_round in Hs.
    destruct (try_recv rx w2) as [[f3| |] w4] eqn:E2; simplify_eq. split; [done|]. by eapply Hbacklog. }
  set (I := λ s : EncodedAudioFrame * Z * W, ∃ older,
    taken rx s.2 = taken rx w ++ older ++ [s.1.1] ∧ Z.of_nat (length older) = s.1.2).
  pose proof (run_until_invariant (stale_round rx) I
    (λ s, I s ∧ ∃ w2, s.2 = (try_recv rx w2).2 ∧ ∀ f', (try_recv rx w2).1 ≠ Received f')
    (backlog_bound rx w1) (f0, 0, w1)) as Hi.
  rewrite Hr in *. destruct r as [[f1 d1] w2]. injection Hf as -> -> ->.
  destruct Hi as [(older & H1 & H2) H3].
  - by exists [].
  - intros [[f1 d1] w2] [[f2 d2] w3] (older & H1 & H2) Hs. unfold stale_round in Hs.
    destruct (try_recv rx w2) as [[f3| |] w4] eqn:E2; simplify_eq.
    exists (older ++ [f1]). cbn in *. rewrite (Htaken _ _ _ _ E2), H1, length_app, <- !app_assoc.
    split; [done|]. cbn. lia.
  - intros [[f1 d1] w2] [[f2 d2] w3] (older & H1 & H2) Hs. unfold stale_round in Hs.
    pose proof (Hempty rx w2) as He.
    destruct (try_recv rx w2) as [[f3| |] w4] eqn:E2; simplify_eq; cbn in *.
    all: split; [exists older; cbn; by rewrite He|]; exists w2; by rewrite E2.
  - exists older. by repeat split.
Qed.
End Backlog.

(** ** Round robin *)

(** How many streams are asked before [j] when the scan starts at [start]. *)
Definition distance (n start j : nat) : nat := ((j + n - start) mod n)%nat.

Lemma distance_spec n start j :
  (start < n)%nat → (j < n)%nat →
  (distance n start j < n)%nat ∧ ((start + distance n start j) mod n = j)%nat.
Proof.
  intros Hs Hj. unfold distance. split; [apply Nat.mod_upper_bound; lia|].
  rewrite Nat.Div0.add_mod_idemp_r. replace (start + (j + n - start))%nat with (j + 1 * n)%nat by lia.
  rewrite Nat.Div0.mod_add. by apply Nat.mod_small.
Qed.

Lemma distance_unique n start j k :
  (start < n)%nat → (k < n)%nat → ((start + k) mod n = j)%nat → distance n start j = k.
Proof.
  intros Hs Hk <-. unfold distance.
  destruct (Nat.lt_ge_cases (start + k) n) as [Hlt|Hge].
  - rewrite (Nat.mod_small (start + k)) by done.
    replace (start + k + n - start)%nat with (k + 1 * n)%nat by lia.
    rewrite Nat.Div0.mod_add. by apply Nat.mod_small.
  - assert ((start + k) mod n = start + k - n)%nat as ->.
    { replace (start + k)%nat with (start + k - n + 1 * n)%nat at 1 by lia.
      rewrite Nat.Div0.mod_add. apply Nat.mod_small. lia. }
    replace (start + k - n + n - start)%nat with k by lia. by apply Nat.mod_small.
Qed.

(** Serving [i], asked before [j], brings [j] closer. *)
Lemma distance_closer n start i j :
  (start < n)%nat → (i < n)%nat → (j < n)%nat → (distance n start i < distance n start j)%nat →
  (distance n (S i mod n) j < distance n start j)%nat.
Proof.
  intros Hs Hi Hj Hd.
  destruct (distance_spec n start i Hs Hi) as [Hi1 Hi2].
  destruct (distance_spec n start j Hs Hj) as [Hj1 Hj2].
  rewrite (distance_unique n (S i mod n) j (distance n start j - distance n start i - 1)).
  - lia.
  - apply Nat.mod_upper_bound. lia.
  - lia.
  - rewrite Nat.Div0.add_mod_idemp_l.
    assert (S i mod n = S (start + distance n start i) mod n)%nat as E.
    { rewrite <- Hi2 at 1. rewrite <- Nat.add_1_r, Nat.Div0.add_mod_idemp_l, Nat.add_1_r. done. }
    rewrite Nat.Div0.add_mod, E, <- Nat.Div0.add_mod.
    replace (S (start + distance n start i) + (distance n start j - distance n start i - 1))%nat
      with (start + distance n start j)%nat by lia.
    done.
Qed.

Section RoundRobin.
Context {W : Type} `{PublisherEnv W} (ready : nat → W → Prop).
(** A channel with a frame stays so until it is received from. *)
Context (Hready : ∀ rx w, ready rx w → ∃ f w', try_recv rx w = (Received f, w')).
Context (Hkeep : ∀ rx rx' w, rx ≠ rx' → ready rx w → ready rx (try_recv rx' w).2).
Local Abbreviation Lp := (Loop W).

Lemma world_unchanged {A} (m : io W BoxedError A) (s : Lp) r s' :
  on_world m s = (r, s') → streams s' = streams s ∧ round_robin_start s' = round_robin_start s
    ∧ world s' = (m (world s)).2 ∧ r = (m (world s)).1.
Proof. unfold on_world. destruct (m (world s)) as [x w]. by intros [= <- <-]. Qed.

Lemma publish_frame_serves index a frame drops (s : Lp) r s' :
  publish_frame index a frame drops s = (r, s') →
  match r with
  | Ok Nothing => False
  | Ok _ => round_robin_start s' = (S index mod length (streams s))%nat
  | Err _ => True
  end.
Proof.
  unfold publish_frame, mbind, io_bind at 1.
  assert (∃ s1, (if 0 <? drops then modify_stream index (with_counters (add_stale_drops drops))
       else mret ()) s = (Ok (), s1) ∧ length (streams s1) = length (streams s)) as (s1 & -> & <-).
  { case_match; eexists; (split; [reflexivity|]); [apply length_alter|done]. }
  unfold io_bind at 1.
  destruct (on_world _ s1) as [[b|e] s2] eqn:E1; apply world_unchanged in E1 as (F1 & _);
    [|by intros [= <- <-]].
  destruct b.
  { intros [= <- <-]. cbn. rewrite length_alter. congruence. }
  unfold io_bind at 1, gets. destruct (has_writer _ _); cbn [negb]; [|by intros [= <- <-]].
  unfold io_bind at 1, engine. destruct (on_world _ s2) as [[u|e] s3] eqn:E2;
    apply world_unchanged in E2 as (F2 & _); [|by intros [= <- <-]].
  unfold modify_stream, count_write, io_modify. unfold io_bind at 1 2.
  unfold io_bind at 1, drain, mbind, io_bind at 1.
  destruct (on_world drain_all_outputs _) as [[t|e] s5] eqn:E3;
    apply world_unchanged in E3 as (F3 & _); [|by intros [= <- <-]].
  unfold io_modify. unfold serve_after, io_modify. unfold io_bind. intros [= <- <-].
  cbn in *. rewrite F3, length_alter. congruence.
Qed.

Lemma stale_round_ready rx rx' : rx ≠ rx' → ∀ w policy, ready rx w →
  ready rx (try_recv_frame rx' policy w).2.
Proof.
  intros Hne w policy Hr. unfold try_recv_frame.
  pose proof (Hkeep rx rx' w Hne Hr) as H1. destruct (try_recv rx' w) as [[f| |] w1]; try done.
  destruct policy; [done|].
  pose proof (run_until_invariant (stale_round rx') (λ s, ready rx s.2) (λ s, ready rx s.2)
    (backlog_bound rx' w1) (f, 0, w1) H1) as Hi.
  destruct (run_until _ _ _) as [[[f' d] w2]|[[f' d] w2]]; apply Hi;
    intros [[f1 d1] w3] [[f2 d2] w4] I1 Hx; unfold stale_round in Hx;
    pose proof (Hkeep rx rx' w3 Hne I1) as H2;
    destruct (try_recv rx' w3) as [[f3| |] w5]; simplify_eq; done.
Qed.

(** Stream [j] of [n] is connected and has a frame. *)
Definition waits (n j : nat) a (s : Lp) : Prop :=
  length (streams s) = n ∧ NoDup (encoded_rx <$> streams s) ∧ streams s !! j = Some a
  ∧ ready (encoded_rx a) (world s).

(** It does so whatever another stream's end. *)
Lemma waits_kept n j a i (s s1 : Lp) :
  waits n j a s → i ≠ j →
  streams s1 = streams s ∨ streams s1 = alter with_disconnected i (streams s) →
  ready (encoded_rx a) (world s1) → waits n j a s1.
Proof.
  intros (Hn & Hd & Hj & _) Hij Hs Hr.
  assert (encoded_rx <$> alter with_disconnected i (streams s) = encoded_rx <$> streams s) as E.
  { apply list_eq. intros x. rewrite !list_lookup_fmap. destruct (decide (x = i)) as [->|].
    - rewrite list_lookup_alter_eq. by destruct (streams s !! i).
    - by rewrite list_lookup_alter_ne. }
  unfold waits. destruct Hs as [-> | ->]; [done|]. rewrite length_alter, E, list_lookup_alter_ne by done. done.
Qed.

Lemma waits_channel n j a i b (s : Lp) :
  waits n j a s → streams s !! i = Some b → i ≠ j → encoded_rx a ≠ encoded_rx b.
Proof.
  intros (_ & Hd & Hj & _) Hb Hij Heq. apply Hij.
  eapply (NoDup_lookup (encoded_rx <$> streams s) i j (encoded_rx b)); [done|..].
  - by rewrite list_lookup_fmap, Hb.
  - by rewrite list_lookup_fmap, Hj, <- Heq.
Qed.

Lemma scan_streams_serves start j a n : ∀ m k (s : Lp) r s',
  (k + m = n)%nat → (start < n)%nat → waits n j a s → disconnected a = false →
  (k ≤ distance n start j)%nat →
  scan_streams start (seq k m) s = (r, s') →
  match r with
  | Ok Nothing => False
  | Ok _ => ∃ i, (i < n)%nat ∧ (distance n start i ≤ distance n start j)%nat
                 ∧ round_robin_start s' = (S i mod n)%nat
  | Err _ => True
  end.
Proof.
  induction m as [|m IH]; intros k s r s' Hkm Hstart Hwait Hdis Hk; pose proof Hwait as (Hn & _ & Hj & Hrdy);
    (assert (j < n)%nat as Hjn by (rewrite <- Hn; by eapply lookup_lt_Some));
    destruct (distance_spec n start j Hstart Hjn) as [Hd1 Hd2]; [lia|].
  cbn [seq scan_streams]. unfold mbind, io_bind at 1, gets at 1. rewrite Hn. cbv zeta.
  set (i := ((start + k) mod n)%nat).
  assert (i < n)%nat as Hi by (apply Nat.mod_upper_bound; lia).
  assert (distance n start i = k) as Hdi by (apply distance_unique; lia).
  unfold io_bind at 1, gets at 1. destruct (streams s !! i) as [b|] eqn:Hb; [|by intros [= <- <-]].
  assert (i ≠ j → S k ≤ distance n start j)%nat as Hnext.
  { intros Hij. destruct (decide (k = distance n start j)) as [E|]; [|lia].
    destruct Hij. unfold i. by rewrite E. }
  destruct (disconnected b) eqn:Eb.
  { apply IH; try done; [lia|]. apply Hnext. intros ->. congruence. }
  unfold io_bind at 1.
  destruct (on_world (io_lift _) s) as [[[[frame drops]|nothing]|e] s1] eqn:E1;
    pose proof (world_unchanged _ _ _ _ E1) as (F1 & G1 & W1 & R1); [| |by intros [= <- <-]].
  { intros Hp%publish_frame_serves. rewrite F1, Hn in Hp.
    destruct r as [[]|]; try done; (exists i; split; [done|]; split; [lia|done]). }
  assert (i ≠ j) as Hij.
  { intros ->. rewrite Hj in Hb. injection Hb as <-. destruct (Hready _ _ Hrdy) as (f & w' & Hf).
    unfold io_lift, try_recv_frame in R1. rewrite Hf in R1. destruct (backlog_policy a); [done|].
    destruct (run_until _ _ _) as [[[? ?] ?]|[[? ?] ?]]; done. }
  assert (ready (encoded_rx a) (world s1)) as Hr1.
  { rewrite W1. unfold io_lift.
    pose proof (stale_round_ready _ _ (waits_channel _ _ _ _ _ _ Hwait Hb Hij) (world s) (backlog_policy b) Hrdy) as Hk1.
    by destruct (try_recv_frame (encoded_rx b) (backlog_policy b) (world s)). }
  destruct nothing as [f| |]; (apply IH; [lia|done| |done|by apply Hnext]);
    (eapply waits_kept; [exact Hwait|exact Hij| |done]); [by left|right|by left].
  cbn. by rewrite F1.
Qed.

(** C27: No stream of a group starves.  While stream [j] is connected and has a frame
    waiting, every pass over the streams that does not end the publication serves one, and
    unless it served [j] itself, [j] is strictly nearer to the start of the next pass: it
    is served after at most as many frames as the group has streams. *)
Theorem round_robin_no_starvation (s : Lp) j a r s'
  (Hstart : (round_robin_start s < length (streams s))%nat)
  (Hdup : NoDup (encoded_rx <$> streams s)) (Hj : streams s !! j = Some a)
  (Hdis : disconnected a = false) (Hrdy : ready (encoded_rx a) (world s))
  (Hscan : scan_streams (round_robin_start s) (seq 0 (length (streams s))) s = (r, s')) :
  match r with
  | Ok Nothing => False
  | Ok _ => ∃ i, round_robin_start s' = (S i mod length (streams s))%nat
      ∧ (i = j ∨ distance (length (streams s)) (round_robin_start s') j
                 < distance (length (streams s)) (round_robin_start s) j)%nat
  | Err _ => True
  end.
Proof.
  assert (j < length (streams s))%nat as Hjn by by eapply lookup_lt_Some.
  pose proof (scan_streams_serves (round_robin_start s) j a (length (streams s)) _ 0 s r s' eq_refl Hstart
    (conj eq_refl (conj Hdup (conj Hj Hrdy))) Hdis ltac:(lia) Hscan) as Hserved. clear Hscan.
  destruct r as [[]|]; try done; destruct Hserved as (i & Hi & Hd & Hs'); exists i; (split; [done|]);
    (destruct (decide (i = j)) as [|Hij]; [by left|right]); rewrite Hs'; apply distance_closer; try done;
    (assert (distance (length (streams s)) (round_robin_start s) i
             ≠ distance (length (streams s)) (round_robin_start s) j); [|lia]);
    intros Heq; apply Hij;
    destruct (distance_spec _ _ i Hstart Hi) as [_ <-];
    destruct (distance_spec _ _ j Hstart Hjn) as [_ <-]; by rewrite Heq.
Qed.
End RoundRobin.

(** ** A simulated engine *)

Module Engine.

(** The engine's queued events and flags, and two encoder channels with the frames
    waiting in them and the frames taken from them. *)
Record World : Type := mkWorld {
  clock : Z;
  needs : bool;
  misuse : nat;
  events : list Event;
  waiting : nat → list EncodedAudioFrame;
  received : nat → list EncodedAudioFrame;
}.

Definition mutate (w : World) : World :=
  mkWorld (clock w) true (misuse w + Nat.b2n (needs w)) (events w ++ [OtherEvent]) (waiting w) (received w).
Definition tick (w : World) : World :=
  mkWorld (clock w + 1) (needs w) (misuse w) (events w) (waiting w) (received w).

#[export] Instance rtc : Rtc World :=
  {| rtc_clock := {| now w := (clock w, w); sleep d w := mkWorld (clock w + d) (needs w) (misuse w) (events w) (waiting w) (received w);
                     instant_max := 2 ^ 63 * SECOND |};
     handle_timeout _ w := (true, mutate w);
     receive_new _ := true;
     handle_receive _ _ w := (true, mutate w);
     has_writer _ _ := true;
     payload_type_of _ _ := Some 111;
     rtc_write _ _ _ _ w := (true, mutate w);
     parse_candidate := Some;
     add_remote_candidate _ w := mutate w;
     poll_output w :=
       match events w with
       | e :: rest => (Ok (OutputEvent e), mkWorld (clock w) (needs w) (misuse w) rest (waiting w) (received w))
       | [] => (Ok (OutputTimeout (clock w + SECOND)),
                mkWorld (clock w) false (misuse w) [] (waiting w) (received w))
       end;
     output_bound w := Pos.of_succ_nat (length (events w));
     udp_recv w := (UdpWouldBlock, w);
     udp_send _ w := (None, w);
     ws_send _ _ w := (Ok (), w);
     ws_close _ w := (Ok (), w) |}.

#[export] Instance sockets : WebSockets World :=
  {| ws_read _ w := (Err (WsIo WouldBlock), tick w);
     ws_write _ _ w := (Ok (), w); ws_flush _ w := (Ok (), w); ws_clone_socket _ w := (true, w);
     ws_set_read_timeout _ _ w := (true, w); ws_set_write_timeout _ _ w := (true, w);
     ws_set_nonblocking _ w := (true, w); ws_shutdown _ w := w |}.

Definition take (rx : nat) (w : World) : TryRecv * World :=
  match waiting w rx with
  | f :: rest =>
      (Received f,
       mkWorld (clock w) (needs w) (misuse w) (events w)
         (λ i, if bool_decide (i = rx) then rest else waiting w i)
         (λ i, if bool_decide (i = rx) then received w i ++ [f] else received w i))
  | [] => (RecvEmpty, w)
  end.

#[export] Instance publisher : PublisherEnv World :=
  {| publisher_rtc := rtc; publisher_sockets := sockets;
     publisher_generations := {| is_active _ w := (true, w) |};
     publisher_json := {| to_json _ := Some []; parse_server_msg _ := None |};
     try_recv := take;
     backlog_bound rx w := Pos.of_succ_nat (length (waiting w rx));
     udp_set_nonblocking w := (true, w) |}.

Definition queued_events (w : World) : Z := Z.of_nat (length (events w)).

#[export] Instance rtc_laws : RtcLaws World needs misuse queued_events.
Proof.
  constructor; try (intros; done).
  - intros w. cbn. by destruct (events w).
  - intros w t w'. cbn. destruct (events w); intros [= <- <-]. done.
  - intros w o w'. cbn. unfold queued_events.
    destruct (events w) as [|e l] eqn:E; intros [= <- <-] Ho; [by destruct (Ho (clock w + SECOND))|].
    cbn. lia.
  - intros w. unfold queued_events, output_bound; cbn. lia.
Qed.

#[export] Instance quiet : PublisherQuiet World needs misuse.
Proof. constructor; try done. intros i w. cbn. unfold take. by destruct (waiting w i). Qed.

Definition frame (n : Z) : EncodedAudioFrame :=
  mkEncoded [Byte.x01] n n 960 None 0 0 None.

Definition stream (rx : nat) (policy : PublisherBacklogPolicy) : ActivePublishStream :=
  mkActive (Z.of_nat rx) rx policy counters_default 111 false stats_default.

(** Stream 0 has two frames, stream 1 three. *)
Definition world0 : World :=
  mkWorld 0 false 0 []
    (λ i, match i with O => [frame 1; frame 2] | S O => [frame 3; frame 4; frame 5] | _ => [] end) (λ _, []).
Definition loop0 : Loop World :=
  mkLoop [stream 0 Preserve; stream 1 DropStale] 0 SECOND 0 0 0 world0.

#[export] Instance engine_time : ClockLaws World clock.
Proof. constructor; cbn; intros; lia. Qed.

End Engine.

Import Engine.

(** The engine has queued an output when the publication starts. *)
Definition left_undrained : World := mutate world0.
Definition prepared_streams : list PublishStream :=
  [mkStream 0 0 Preserve counters_default; mkStream 1 1 DropStale counters_default].
Definition begun : Loop World * Z * World :=
  match start_loop 3 prepared_streams left_undrained with
  | (Ok (s, t), w) => (s, t, w)
  | (Err _, w) => (loop0, 0, w)
  end.

Lemma publisher_drains_between_mutations_witness :
  needs left_undrained = true ∧ respectful needs misuse 1 (publish_loop 4 3 begun.1.1).
Proof.
  split; [reflexivity|].
  exact (publisher_drains_between_mutations needs misuse queued_events clock 4 3 prepared_streams
    left_undrained begun.1.1 begun.1.2 begun.2 eq_refl).
Defined.

Lemma try_recv_frame_policy_witness :
  (try_recv_frame 1 DropStale world0).1 = Ok (frame 5, 2) ∧
  ∃ older, received (try_recv_frame 1 DropStale world0).2 1%nat = older ++ [frame 5]
    ∧ Z.of_nat (length older) = 2.
Proof.
  split; [reflexivity|].
  destruct (try_recv_frame_policy (λ rx w, received w rx) (λ rx w, Z.of_nat (length (waiting w rx))))
    with (rx := 1%nat) (policy := DropStale) (w := world0) (f := frame 5) (drops := 2)
         (w' := (try_recv_frame 1 DropStale world0).2) as (older & Ho & Hl & _).
  - intros rx w f w'. cbn. unfold take. destruct (waiting w rx) as [|f0 l]; [done|].
    intros [= -> <-]. cbn. by rewrite bool_decide_eq_true_2.
  - intros rx w. cbn. unfold take. destruct (waiting w rx) as [|f0 l]; [done|]. intros Hf. by destruct (Hf f0).
  - intros rx w f w'. cbn. unfold take. destruct (waiting w rx) as [|f0 l]; [done|].
    intros [= -> <-]. cbn. rewrite bool_decide_eq_true_2 by done. lia.
  - intros rx w. cbn. lia.
  - reflexivity.
  - exists older. split; [exact Ho|exact Hl].
Defined.

Lemma round_robin_no_starvation_witness :
  (scan_streams 0 (seq 0 2) loop0).1 = Ok Wrote ∧
  round_robin_start (scan_streams 0 (seq 0 2) loop0).2 = 1%nat ∧
  ∃ i, 1%nat = (S i mod 2)%nat ∧ (i = 1%nat ∨ distance 2 1 1 < distance 2 0 1)%nat.
Proof.
  split; [reflexivity|]. split; [reflexivity|].
  destruct (round_robin_no_starvation (λ rx w, waiting w rx ≠ [])) with
    (s := loop0) (j := 1%nat) (a := stream 1 DropStale) (r := Ok (E := BoxedError) Wrote)
    (s' := (scan_streams 0 (seq 0 2) loop0).2) as (i & Hi & Hd).
  - intros rx w Hw. cbn. unfold take. destruct (waiting w rx) as [|f l]; [done|]. eauto.
  - intros rx rx' w Hne Hw. cbn. unfold take. destruct (waiting w rx') as [|f l]; [done|]. cbn.
    by rewrite bool_decide_eq_false_2.
  - cbn. lia.
  - repeat constructor; cbn; set_solver.
  - reflexivity.
  - reflexivity.
  - done.
  - reflexivity.
  - exists i. split; [exact Hi|exact Hd].
Defined.
