(* ===== verification/RtpOrder.v ===== *)
(** * Every frame a publisher takes is written, or counted

    [Publisher] shows that the RTP loop is fair and uses its engine properly; this file
    follows the frames.  [taken rx] and [written mid] log what was received on an encoder's
    channel and what was handed to the engine for a medium: in any number of iterations of
    the loop each stream's written packets are the frames it took, in order and under its
    payload type, less those the counters report. *)

From S2P Require Import Prelude Env Text Extern Errors Encoder Proxy Transport WebRtc Publisher.

#[local] Arguments lit : simpl never.

(** A packet handed to the engine. *)
Definition rtp_packet : Type := PayloadType * option (Z * bool) * EncodedAudioFrame.

Section Logs.
Context {W : Type} (taken : nat → W → list EncodedAudioFrame) (written : Mid → W → list rtp_packet).

Definition same_logs (w w' : W) : Prop :=
  (∀ rx, taken rx w' = taken rx w) ∧ (∀ m, written m w' = written m w).

#[export] Instance same_logs_preorder : PreOrder same_logs.
Proof. split; [done|]. intros w1 w2 w3 [H1 H2] [H3 H4]. split; intros; congruence. Qed.
End Logs.

(** [str0m], the sockets and the clock keep no frames: only a received frame changes the
    first log and only an accepted packet the second. *)
Class PublisherLog (W : Type) `{PublisherEnv W} (taken : nat → W → list EncodedAudioFrame)
  (written : Mid → W → list rtp_packet) : Prop := {
  pl_timeout t w : same_logs taken written w (handle_timeout t w).2;
  pl_receive t d w : same_logs taken written w (handle_receive t d w).2;
  pl_poll w : same_logs taken written w (poll_output w).2;
  pl_udp_send c w : same_logs taken written w (udp_send c w).2;
  pl_udp_recv w : same_logs taken written w (udp_recv w).2;
  pl_now w : same_logs taken written w (now w).2;
  pl_active g w : same_logs taken written w (is_active g w).2;
  pl_ws_send s m w : same_logs taken written w (ws_send s m w).2;
  pl_ws_read s w : same_logs taken written w (ws_read s w).2;
  pl_take rx w f w' : try_recv rx w = (Received f, w') →
    taken rx w' = taken rx w ++ [f] ∧ (∀ rx', rx' ≠ rx → taken rx' w' = taken rx' w)
    ∧ ∀ m, written m w' = written m w;
  pl_nothing rx w : (∀ f, (try_recv rx w).1 ≠ Received f) → same_logs taken written w (try_recv rx w).2;
  pl_write m p l f w w' : rtc_write m p l f w = (true, w') →
    written m w' = written m w ++ [(p, l, f)] ∧ (∀ m', m' ≠ m → written m' w' = written m' w)
    ∧ ∀ rx, taken rx w' = taken rx w;
  pl_refused m p l f w w' : rtc_write m p l f w = (false, w') → same_logs taken written w w';
}.

Section Order.
Context {W : Type} `{PublisherEnv W} (taken : nat → W → list EncodedAudioFrame)
  (written : Mid → W → list rtp_packet) `{!PublisherLog W taken written}.
Local Abbreviation Lp := (Loop W).
Local Abbreviation same := (same_logs taken written).
Implicit Types (a : ActivePublishStream) (s : Lp) (w : W).

(** ** What a stream's counters say *)

Definition rtp_of a (f : EncodedAudioFrame) : rtp_packet := (payload_type a, audio_level_of f, f).

Definition payload_bytes (f : EncodedAudioFrame) : Z := Z.of_nat (length (payload f)).

(** A saturating counter after some frames. *)
Definition counted (weight : EncodedAudioFrame → Z) (frames : list EncodedAudioFrame) (n : Z) : Z :=
  foldl (λ n f, sat_add n (weight f)) n frames.

Lemma counted_app weight l1 l2 n : counted weight (l1 ++ l2) n = counted weight l2 (counted weight l1 n).
Proof. apply foldl_app. Qed.

(** Between two moments a stream took [frames], wrote [sent] of them, skipped [stale], found
    [cancelled] cancelled, and [lost] with the error that ended the publication. *)
Record moved (frames sent : list EncodedAudioFrame) (stale cancelled lost : nat)
  a w a' w' : Prop := mkMoved {
  moved_stream : mid a' = mid a ∧ encoded_rx a' = encoded_rx a ∧ payload_type a' = payload_type a
                 ∧ backlog_policy a' = backlog_policy a;
  moved_taken : taken (encoded_rx a) w' = taken (encoded_rx a) w ++ frames;
  moved_written : written (mid a) w' = written (mid a) w ++ (rtp_of a <$> sent);
  moved_order : sent `sublist_of` frames;
  moved_length : length frames = (length sent + stale + cancelled + lost)%nat;
  moved_stale : publisher_stale_drops (counters a') mod 2 ^ 64
                = (publisher_stale_drops (counters a) + Z.of_nat stale) mod 2 ^ 64;
  moved_cancelled : cancelled_output_frames (counters a') mod 2 ^ 64
                    = (cancelled_output_frames (counters a) + Z.of_nat cancelled) mod 2 ^ 64;
  moved_packets : rtp_sent (statistics a') = counted (λ _, 1) sent (rtp_sent (statistics a));
  moved_bytes : bytes_sent (statistics a') = counted payload_bytes sent (bytes_sent (statistics a));
}.

Definition flow (lost : nat) a w a' w' : Prop :=
  ∃ frames sent stale cancelled, moved frames sent stale cancelled lost a w a' w'.

Lemma stream_flow_trans k1 k2 a w a1 w1 a2 w2 :
  flow k1 a w a1 w1 → flow k2 a1 w1 a2 w2 → flow (k1 + k2) a w a2 w2.
Proof.
  intros (f1 & s1 & st1 & c1 & [(M1 & M2 & M3 & M4) T1 W1 O1 L1 S1 C1 P1 B1])
    (f2 & s2 & st2 & c2 & [(N1 & N2 & N3 & N4) T2 W2 O2 L2 S2 C2 P2 B2]).
  exists (f1 ++ f2), (s1 ++ s2), (st1 + st2)%nat, (c1 + c2)%nat. rewrite M1, M2 in *.
  constructor.
  - split_and!; congruence.
  - by rewrite T2, T1, app_assoc.
  - rewrite W2, W1, fmap_app, app_assoc. f_equal. apply list_fmap_ext. intros _ f _. unfold rtp_of. by rewrite M3.
  - by apply sublist_app.
  - rewrite !length_app, L1, L2. lia.
  - rewrite Nat2Z.inj_add. by eapply mod_add_trans.
  - rewrite Nat2Z.inj_add. by eapply mod_add_trans.
  - by rewrite P2, P1, counted_app.
  - by rewrite B2, B1, counted_app.
Qed.

Lemma stream_flow_same a w a' w' :
  same w w' → mid a' = mid a → encoded_rx a' = encoded_rx a → payload_type a' = payload_type a →
  backlog_policy a' = backlog_policy a → counters a' = counters a → statistics a' = statistics a →
  flow 0 a w a' w'.
Proof.
  intros [H1 H2] E1 E2 E3 E4 E5 E6. exists [], [], 0%nat, 0%nat.
  constructor; cbn; rewrite ?app_nil_r, ?Z.add_0_r, ?E5, ?E6; done || by split_and!.
Qed.

(** ** The streams of a loop *)

(** All streams moved, at most [lost] frames each with an error. *)
Definition flows (lost : nat) s s' : Prop :=
  ∀ i a, streams s !! i = Some a →
    ∃ a' k, (k ≤ lost)%nat ∧ streams s' !! i = Some a' ∧ flow k a (world s) a' (world s').

Lemma flows_trans k s s1 s2 : flows 0 s s1 → flows k s1 s2 → flows k s s2.
Proof.
  intros H1 H2 i a Hi. destruct (H1 i a Hi) as (a1 & k1 & Hk1 & Hi1 & F1).
  destruct (H2 i a1 Hi1) as (a2 & k2 & Hk2 & Hi2 & F2). exists a2, (k1 + k2)%nat.
  split; [lia|]. split; [done|]. by eapply stream_flow_trans.
Qed.
Lemma flows_le k k' s s' : (k ≤ k')%nat → flows k s s' → flows k' s s'.
Proof. intros Hk F i a Hi. destruct (F i a Hi) as (a' & j & ? & ? & ?). exists a', j. split; [lia|done]. Qed.

Lemma flows_same s s' : streams s' = streams s → same (world s) (world s') → flows 0 s s'.
Proof. intros Es Hw i a Hi. exists a, 0%nat. rewrite Es. split; [done|]. split; [done|]. by apply stream_flow_same. Qed.

(** Every stream has a channel and a medium of its own. *)
Definition apart s : Prop := NoDup (encoded_rx <$> streams s) ∧ NoDup (mid <$> streams s).

(** A computation that may end the publication. *)
Definition carries {A} (m : io Lp BoxedError A) : Prop :=
  ∀ s, apart s → flows (if is_ok (m s).1 then 0 else 1) s (m s).2 ∧ apart (m s).2.

Lemma carries_same {A} (m : io Lp BoxedError A) :
  (∀ s, streams (m s).2 = streams s ∧ same (world s) (world (m s).2)) → carries m.
Proof.
  intros Hm s Hs. destruct (Hm s) as [E1 E2]. split; [|unfold apart; by rewrite E1].
  apply (flows_le 0); [lia|]. by apply flows_same.
Qed.
Lemma carries_ret {A} (x : A) : carries (mret x).
Proof. by apply carries_same. Qed.
Lemma carries_fail {A} e : carries (A := A) (io_fail e).
Proof. by apply carries_same. Qed.
Lemma carries_result {A} (r : Result BoxedError A) : carries (io_result r).
Proof. by apply carries_same. Qed.
Lemma carries_gets {A} (f : Lp → A) : carries (gets f).
Proof. by apply carries_same. Qed.
Lemma carries_modify f :
  (∀ s, streams (f s) = streams s ∧ world (f s) = world s) → carries (io_modify f).
Proof. intros Hf. apply carries_same. intros s. destruct (Hf s) as [E1 E2]. cbn. by rewrite E2. Qed.
Lemma carries_world {A} (m : io W BoxedError A) : keeps same m → carries (on_world m).
Proof.
  intros Hm. apply carries_same. intros s. specialize (Hm (world s)).
  unfold on_world. by destruct (m (world s)) as [r w].
Qed.
Lemma carries_bind {A B} (m : io Lp BoxedError A) (f : A → io Lp BoxedError B) :
  carries m → (∀ x, carries (f x)) → carries (m ≫= f).
Proof.
  intros Hm Hf s Hs. unfold mbind, io_bind. specialize (Hm s Hs). destruct (m s) as [[x|e] s1]; cbn in *; [|done].
  destruct Hm as [H1 H2]. destruct (Hf x s1 H2) as [H3 H4]. split; [|done]. by eapply flows_trans.
Qed.

(** ** The engine and the sockets keep no frames *)

Lemma carries_engine call m : (∀ w, same w (call w).2) → carries (engine call m).
Proof.
  intros Hc. apply carries_world. intros w. specialize (Hc w). by destruct (call w).
Qed.

Lemma keeps_logs_drain : keeps (E := BoxedError) same drain_all_outputs.
Proof.
  intros w. unfold drain_all_outputs. apply keeps_loop; [apply _|].
  apply keeps_bind; [apply _|apply keeps_lift, pl_poll|]. intros [[t|c|e]|[]]; try apply keeps_ret; try apply keeps_fail; try apply _.
  apply keeps_bind; [apply _|apply keeps_lift, pl_udp_send|]. intros [k|]; [|apply keeps_ret; apply _].
  case_match; [apply keeps_ret|apply keeps_fail]; apply _.
Qed.
Lemma carries_drain count : carries (drain count).
Proof. apply carries_bind; [apply carries_world, keeps_logs_drain|]. intros t. by apply carries_modify. Qed.

Lemma keeps_cancelled g : keeps (E := BoxedError) same (io_lift (generation_cancelled g)).
Proof.
  apply keeps_lift. intros w. unfold generation_cancelled. destruct g as [g|]; [|done].
  pose proof (pl_active g w). by destruct (is_active g w).
Qed.

Lemma carries_keep_alive ws : carries (keep_alive ws).
Proof.
  apply carries_bind; [apply carries_world, keeps_lift, pl_now|]. intros t.
  apply carries_bind; [apply carries_gets|]. intros last. apply carries_bind.
  { case_match; [|apply carries_ret].
    apply carries_bind; [apply carries_world, keeps_lift, pl_ws_send|]. intros sent.
    apply carries_bind; [apply carries_result|]. intros _.
    apply carries_bind; [apply carries_world, keeps_lift, pl_now|]. intros t'. by apply carries_modify. }
  intros _. apply carries_bind; [apply carries_world, keeps_lift, pl_ws_read|]. intros r. apply carries_result.
Qed.

(** ** One frame *)

(** Only the stream [a] at [index] moved. *)
Lemma served_flows index a g s s' frames sent stale cancelled lost :
  NoDup (encoded_rx <$> streams s) → NoDup (mid <$> streams s) →
  streams s !! index = Some a → streams s' = alter g index (streams s) →
  moved frames sent stale cancelled lost a (world s) (g a) (world s') →
  (∀ rx, rx ≠ encoded_rx a → taken rx (world s') = taken rx (world s)) →
  (∀ m, m ≠ mid a → written m (world s') = written m (world s)) → flows lost s s'.
Proof.
  intros Drx Dmid Ha Hs' Hm Ht Hw i b Hi. rewrite Hs'. destruct (decide (i = index)) as [->|Hne].
  - rewrite Ha in Hi. injection Hi as <-. exists (g a), lost. rewrite list_lookup_alter_eq, Ha.
    split; [done|]. split; [done|]. by exists frames, sent, stale, cancelled.
  - exists b, 0%nat. rewrite list_lookup_alter_ne by done. split; [lia|]. split; [done|].
    assert (∀ {K} (key : ActivePublishStream → K), NoDup (key <$> streams s) → key b ≠ key a) as Hkey.
    { intros K key Hd E. apply Hne. eapply (NoDup_lookup (key <$> streams s) i index (key b)); [done|..];
        rewrite list_lookup_fmap; [by rewrite Hi|by rewrite Ha, E]. }
    exists [], [], 0%nat, 0%nat. constructor; cbn; rewrite ?app_nil_r, ?Z.add_0_r; try done;
      [apply Ht; by apply (Hkey _ encoded_rx)|apply Hw; by apply (Hkey _ mid)].
Qed.
(** Receiving appends what was received to its channel's log, the frame last. *)
Lemma try_recv_frame_takes rx policy w :
  match try_recv_frame rx policy w with
  | (Ok (f, drops), w') => ∃ older,
      taken rx w' = taken rx w ++ older ++ [f] ∧ Z.of_nat (length older) = drops
      ∧ (∀ rx', rx' ≠ rx → taken rx' w' = taken rx' w) ∧ ∀ m, written m w' = written m w
  | (Err _, w') => same w w'
  end.
Proof.
  unfold try_recv_frame. pose proof (pl_nothing rx w) as Hn.
  destruct (try_recv rx w) as [[f| |] w1] eqn:E; [|by apply Hn..].
  destruct (pl_take _ _ _ _ E) as (T & O & K).
  set (I := λ s : EncodedAudioFrame * Z * W, ∃ older,
    taken rx s.2 = taken rx w ++ older ++ [s.1.1] ∧ Z.of_nat (length older) = s.1.2
    ∧ (∀ rx', rx' ≠ rx → taken rx' s.2 = taken rx' w) ∧ ∀ m, written m s.2 = written m w).
  assert (I (f, 0, w1)) as H1 by by exists [].
  destruct policy; [exact H1|].
  assert (∀ x, I x → match stale_round rx x with inl y | inr y => I y end) as Hstep.
  { intros [[f1 d1] w2] (older & H1' & H2 & H3 & H4). unfold stale_round.
    pose proof (pl_nothing rx w2) as He; pose proof (pl_take rx w2) as Ht.
    destruct (try_recv rx w2) as [[f3| |] w4]; cbn in *.
    - destruct (Ht _ _ eq_refl) as (T' & O' & K'). exists (older ++ [f1]). cbn.
      rewrite T', H1', length_app, <- !app_assoc. split; [done|]. split; [cbn; lia|].
      split; intros; [rewrite O' by done; by apply H3|by rewrite K'].
    - destruct He as [E1 E2]; [done|]. exists older. cbn. rewrite E1.
      split_and!; try done; intros; [rewrite E1; by apply H3|by rewrite E2].
    - destruct He as [E1 E2]; [done|]. exists older. cbn. rewrite E1.
      split_and!; try done; intros; [rewrite E1; by apply H3|by rewrite E2]. }
  pose proof (run_until_invariant (stale_round rx) I I (backlog_bound rx w1) (f, 0, w1) H1) as Hi.
  destruct (run_until _ _ _) as [[[f1 d1] w2]|[[f1 d1] w2]]; apply Hi;
    intros x y Ix Hx; specialize (Hstep x Ix); by rewrite Hx in Hstep.
Qed.

(** [publish_frame] has received [frame] after [older], and skipped these. *)
Definition received older (frame : EncodedAudioFrame) index a s0 s : Prop :=
  streams s = streams s0 ∧ streams s0 !! index = Some a ∧
  taken (encoded_rx a) (world s) = taken (encoded_rx a) (world s0) ++ older ++ [frame] ∧
  (∀ rx, rx ≠ encoded_rx a → taken rx (world s) = taken rx (world s0)) ∧
  (∀ m, written m (world s) = written m (world s0)).

Lemma apart_alter g index s s' :
  (∀ a, mid (g a) = mid a ∧ encoded_rx (g a) = encoded_rx a) →
  streams s' = alter g index (streams s) → apart s → apart s'.
Proof.
  intros Hg E. unfold apart. rewrite E.
  assert (∀ {K} (key : ActivePublishStream → K), (∀ a, key (g a) = key a) →
    key <$> alter g index (streams s) = key <$> streams s) as Hkey.
  { intros K key Hk. apply list_eq. intros i. rewrite !list_lookup_fmap.
    destruct (decide (i = index)) as [->|]; [rewrite list_lookup_alter_eq|by rewrite list_lookup_alter_ne].
    destruct (streams s !! index); cbn; [by rewrite Hk|done]. }
  by rewrite !Hkey by apply Hg.
Qed.

Definition note_stale (drops : Z) : ActivePublishStream → ActivePublishStream :=
  if 0 <? drops then with_counters (add_stale_drops drops) else id.

Lemma note_stale_spec (drops : Z) a :
  0 ≤ drops →
  publisher_stale_drops (counters (note_stale drops a)) mod 2 ^ 64
    = (publisher_stale_drops (counters a) + drops) mod 2 ^ 64
  ∧ cancelled_output_frames (counters (note_stale drops a)) = cancelled_output_frames (counters a)
  ∧ mid (note_stale drops a) = mid a ∧ encoded_rx (note_stale drops a) = encoded_rx a
  ∧ payload_type (note_stale drops a) = payload_type a
  ∧ backlog_policy (note_stale drops a) = backlog_policy a
  ∧ statistics (note_stale drops a) = statistics a.
Proof.
  unfold note_stale. destruct (0 <? drops) eqn:E; intros; bool_props.
  - cbn. destruct (counters a). cbn. by rewrite wrap_mod.
  - assert (drops = 0) as -> by lia. unfold id. by rewrite Z.add_0_r.
Qed.

(** The one frame that is not skipped: cancelled, written, or lost with an error. *)
Inductive FrameEnd : Type := EndCancelled | EndWritten | EndLost.

Definition end_of (e : FrameEnd) (frame : EncodedAudioFrame) (drops : Z) (a : ActivePublishStream)
  : ActivePublishStream :=
  match e with
  | EndCancelled => with_counters (add_cancelled_frames 1) (note_stale drops a)
  | EndWritten => with_statistics (count_rtp (payload_bytes frame)) (note_stale drops a)
  | EndLost => note_stale drops a
  end.

Lemma end_of_keeps e frame (drops : Z) a :
  0 ≤ drops → mid (end_of e frame drops a) = mid a ∧ encoded_rx (end_of e frame drops a) = encoded_rx a.
Proof. intros Hd. destruct (note_stale_spec drops a Hd) as (_ & _ & Em & Er & _). by destruct e. Qed.

Lemma received_flows e older frame index a s0 s s' :
  received older frame index a s0 s → apart s0 →
  streams s' = alter (end_of e frame (Z.of_nat (length older))) index (streams s0) →
  (∀ rx, taken rx (world s') = taken rx (world s)) →
  (∀ m, m ≠ mid a → written m (world s') = written m (world s)) →
  written (mid a) (world s') = written (mid a) (world s) ++
    (match e with EndWritten => [rtp_of a frame] | _ => [] end) →
  flows (match e with EndLost => 1 | _ => 0 end) s0 s' ∧ apart s'.
Proof.
  intros (Es & Ha & T & TO & W0) [Drx Dmid] Es' T' WO W'. split.
  - set (d := Z.of_nat (length older)) in *.
    destruct (note_stale_spec d a) as (Hs & Hc & Hm & Hr & Hp & Hb & Ht); [lia|].
    eapply (served_flows index a (end_of e frame d) s0 s' (older ++ [frame])
      (match e with EndWritten => [frame] | _ => [] end) (length older)
      (match e with EndCancelled => 1 | _ => 0 end)); try done.
    + constructor.
      * by destruct e.
      * by rewrite T', T.
      * rewrite W', W0. by destruct e.
      * destruct e; [apply sublist_nil_l|by apply sublist_inserts_l|apply sublist_nil_l].
      * rewrite length_app. destruct e; cbn; lia.
      * destruct e; cbn; rewrite ?Hs; try done. destruct (counters (note_stale d a)) eqn:E; cbn in *.
        by rewrite Hs.
      * destruct e; cbn; rewrite ?Hc, ?Z.add_0_r; try done.
        rewrite <- Hc. destruct (counters (note_stale d a)) eqn:E; cbn. by rewrite wrap_mod.
      * destruct e; cbn; rewrite ?Ht; try done. by destruct (statistics a).
      * destruct e; cbn; rewrite ?Ht; try done. by destruct (statistics a).
    + intros rx Hrx. rewrite T'. by apply TO.
    + intros m Hm'. by rewrite WO, W0.
  - eapply apart_alter; [|exact Es'|by split]. intros b. apply end_of_keeps. lia.
Qed.
Lemma on_world_keeps_logs {A} (m : io W BoxedError A) s r s' :
  on_world m s = (r, s') → keeps same m →
  streams s' = streams s ∧ round_robin_start s' = round_robin_start s ∧ same (world s) (world s')
  ∧ world s' = (m (world s)).2 ∧ r = (m (world s)).1.
Proof. unfold on_world. intros E K. specialize (K (world s)). destruct (m (world s)). by simplify_eq. Qed.

Lemma rtc_write_logs a frame w0 w (ok : bool) w' :
  same w0 w → rtc_write (mid a) (payload_type a) (audio_level_of frame) frame w = (ok, w') →
  (∀ rx, taken rx w' = taken rx w0) ∧ (∀ m, m ≠ mid a → written m w' = written m w0) ∧
  written (mid a) w' = written (mid a) w0 ++ if ok then [rtp_of a frame] else [].
Proof.
  intros [T1 W1] Hw. setoid_rewrite <- T1. setoid_rewrite <- W1.
  destruct ok; [by destruct (pl_write _ _ _ _ _ _ Hw) as (H1 & H2 & H3)|].
  destruct (pl_refused _ _ _ _ _ _ Hw) as [H1 H2]. by rewrite app_nil_r.
Qed.

Lemma publish_frame_flows older frame index a s0 s r s' :
  received older frame index a s0 s → apart s0 →
  publish_frame index a frame (Z.of_nat (length older)) s = (r, s') →
  flows (if is_ok r then 0 else 1) s0 s' ∧ apart s'.
Proof.
  intros Hrec Hap. pose proof Hrec as (Es & Ha & _). set (d := Z.of_nat (length older)).
  assert (∀ e s', streams s' = alter (end_of e frame d) index (streams s0) →
    (∀ rx, taken rx (world s') = taken rx (world s)) →
    (∀ m, m ≠ mid a → written m (world s') = written m (world s)) →
    written (mid a) (world s') = written (mid a) (world s) ++
      (match e with EndWritten => [rtp_of a frame] | _ => [] end) →
    flows (match e with EndLost => 1 | _ => 0 end) s0 s' ∧ apart s') as Hend.
  { intros e s2. by apply received_flows. }
  unfold publish_frame, mbind, io_bind at 1.
  assert (∃ s1, (if 0 <? d then modify_stream index (with_counters (add_stale_drops d)) else mret ()) s = (Ok (), s1)
    ∧ streams s1 = alter (note_stale d) index (streams s0) ∧ world s1 = world s) as (s1 & -> & Es1 & Ew1).
  { unfold note_stale. rewrite <- Es. case_match; eexists; (split; [reflexivity|]); [done|].
    split; [|done]. cbn. by rewrite list_alter_id. }
  unfold io_bind at 1.
  destruct (on_world _ s1) as [[c|e] s2] eqn:E1; apply on_world_keeps_logs in E1 as (F1 & _ & Hs2 & _ & R1);
    [|apply keeps_cancelled| |apply keeps_cancelled].
  2: { exfalso. revert R1. unfold io_lift. by destruct (generation_cancelled _ _). }
  rewrite Ew1 in Hs2. pose proof Hs2 as [T1 W1]. destruct c.
  { intros [= <- <-]. apply (Hend EndCancelled); cbn.
    - rewrite F1, Es1. apply list_alter_alter_eq.
    - intros rx. by rewrite T1.
    - intros m _. by rewrite W1.
    - by rewrite app_nil_r, W1. }
  unfold io_bind at 1, gets. destruct (has_writer _ _); cbn [negb].
  2: { intros [= <- <-]. apply (Hend EndLost); cbn; [by rewrite F1, Es1|..]; intros;
       by rewrite ?app_nil_r, ?T1, ?W1. }
  unfold io_bind at 1, engine.
  destruct (rtc_write (mid a) (payload_type a) (audio_level_of frame) frame (world s2)) as [ok w] eqn:Ew.
  destruct (rtc_write_logs a frame (world s) (world s2) ok w) as (T2 & W2 & V2); [done..|].
  unfold on_world at 1. rewrite Ew. destruct ok.
  2: { intros [= <- <-]. apply (Hend EndLost); cbn; try done. by rewrite F1, Es1. }
  unfold modify_stream, count_write, io_modify. unfold io_bind at 1 2. unfold io_bind at 1.
  destruct (drain _ _) as [r1 s5] eqn:E3.
  assert (streams s5 = alter (end_of EndWritten frame d) index (streams s0) ∧ same w (world s5)) as [F5 [T5 W5]].
  { revert E3. unfold drain, mbind, io_bind. destruct (on_world drain_all_outputs _) as [[t|e] s4] eqn:E4;
      apply on_world_keeps_logs in E4 as (F4 & _ & Hs4 & _); try apply keeps_logs_drain; intros [= <- <-]; cbn in *;
      (split; [rewrite F4, F1, Es1; apply list_alter_alter_eq|done]). }
  assert (flows 0 s0 s5 ∧ apart s5) as [Hfl Hap5].
  { apply (Hend EndWritten); [done|..]; intros; rewrite ?T5, ?W5; auto. }
  destruct r1 as [u|e]; intros [= <- <-]; [|split; [apply (flows_le 0); [cbn; lia|done]|done]].
  split; [|done]. eapply flows_trans; [exact Hfl|]. by apply flows_same.
Qed.

(** ** The streams in turn *)

(** The streams that are left of a scan, after one that had nothing. *)
Lemma scan_rest start l s s1 :
  carries (scan_streams start l) → flows 0 s s1 → apart s1 → ∀ r s',
  scan_streams start l s1 = (r, s') → flows (if is_ok r then 0 else 1) s s' ∧ apart s'.
Proof.
  intros Hl F1 A1 r s' E. destruct (Hl s1 A1) as [F2 A2]. rewrite E in *.
  split; [by eapply flows_trans|done].
Qed.

Lemma flows_disconnected index s s' :
  streams s' = alter with_disconnected index (streams s) → world s' = world s → flows 0 s s'.
Proof.
  intros Es Ew i b Hi. rewrite Es, Ew. destruct (decide (i = index)) as [->|Hne].
  - exists (with_disconnected b), 0%nat. rewrite list_lookup_alter_eq, Hi.
    split; [done|]. split; [done|]. by apply stream_flow_same.
  - exists b, 0%nat. rewrite list_lookup_alter_ne by done. split; [done|]. split; [done|]. by apply stream_flow_same.
Qed.

Lemma carries_scan start offsets : carries (scan_streams start offsets).
Proof.
  induction offsets as [|o l IH]; [apply carries_ret|]. cbn [scan_streams].
  apply carries_bind; [apply carries_gets|]. intros n. cbv zeta.
  set (index := ((start + o) mod n)%nat). intros s Hs.
  match goal with |- flows _ _ (?m s).2 ∧ _ => destruct (m s) as [r s'] eqn:E end. cbn [fst snd]. revert E.
  assert (flows 0 s s) as F0 by by apply flows_same.
  unfold mbind, io_bind at 1, gets at 1. destruct (streams s !! index) as [a|] eqn:Ha.
  2: { intros [= <- <-]. split; [by apply (flows_le 0); [cbn; lia|]|done]. }
  destruct (disconnected a); [by eapply scan_rest|].
  unfold io_bind at 1, on_world, io_lift at 1.
  pose proof (try_recv_frame_takes (encoded_rx a) (backlog_policy a) (world s)) as Ht.
  destruct (try_recv_frame _ _ (world s)) as [[[f drops]|e] w1] eqn:E.
  { destruct Ht as (older & T & <- & O & K). by eapply publish_frame_flows. }
  set (s1 := mkLoop _ _ _ _ _ _ w1). assert (flows 0 s s1) as F1 by by apply flows_same.
  assert (apart s1) as A1 by done.
  destruct e as [f| |]; [by eapply scan_rest| |by eapply scan_rest].
  eapply (scan_rest start l s (modify_stream index with_disconnected s1).2); [done|..].
  - eapply flows_trans; [exact F1|]. by eapply (flows_disconnected index).
  - by eapply (apart_alter with_disconnected index s1).
Qed.

Lemma carries_round ws : carries (publish_round ws).
Proof.
  apply carries_bind; [apply carries_world, keeps_lift, pl_now|]. intros t.
  apply carries_bind; [apply carries_gets|]. intros timeout. case_match.
  { apply carries_bind; [apply carries_engine, pl_timeout|]. intros _.
    apply carries_bind; [apply carries_drain|]. intros _. apply carries_ret. }
  apply carries_bind; [apply carries_world, keeps_lift, pl_udp_recv|]. intros [d| |]; [| |apply carries_fail].
  { case_match; [apply carries_fail|].
    apply carries_bind; [apply carries_world, keeps_lift, pl_now|]. intros t'.
    apply carries_bind; [apply carries_engine; intros; apply pl_receive|]. intros _.
    apply carries_bind; [apply carries_drain|]. intros _. apply carries_ret. }
  apply carries_bind; [apply carries_gets|]. intros start.
  apply carries_bind; [apply carries_gets|]. intros n.
  apply carries_bind; [apply carries_scan|]. intros []; try apply carries_ret.
  apply carries_bind; [apply carries_gets|]. intros []; [apply carries_ret|].
  apply carries_bind; [apply carries_keep_alive|]. intros _. apply carries_ret.
Qed.

(** At most one frame is lost, and only with the error that ends the publication. *)
Definition carried_by s (outcome : Lp + (Result BoxedError unit * Lp)) : Prop :=
  match outcome with
  | inl s' => flows 0 s s' ∧ apart s'
  | inr (r, s') => flows (if is_ok r then 0 else 1) s s'
  end.

Lemma carried_loop rounds ws s : apart s → carried_by s (publish_loop rounds ws s).
Proof.
  intros Hs. unfold publish_loop, carried_by.
  pose proof (run_until_invariant (io_round (publish_round ws)) (λ s', flows 0 s s' ∧ apart s')
    (λ r, flows (if is_ok r.1 then 0 else 1) s r.2) rounds s) as Hr.
  destruct (run_until _ _ s) as [s'|[r s']]; apply Hr;
    try (split; [by apply flows_same|done]);
    intros s1 x [F1 A1] Hx; unfold io_round in Hx; pose proof (carries_round ws s1 A1) as [F2 A2];
    (destruct (publish_round ws s1) as [[[u|]|e] s2]; simplify_eq; cbn in *);
    try split; try done; by eapply flows_trans.
Qed.

(** C5: The publisher writes what it takes.  After any number of iterations, and however
    the publication ended, every stream has the channel, the medium and the payload type it
    had; the packets the engine accepted for its medium since the start are frames taken
    from its channel, in order, each under the stream's payload type and with its own
    level, time and payload; and of the frames taken every one was written, skipped as
    stale, or cancelled, and is in the counter that says so -- except at most one, when the
    publication ended with an error.  The statistics count exactly the packets written and
    their bytes. *)
Theorem publisher_writes_what_it_takes rounds ws s (Hs : apart s) :
  carried_by s (publish_loop rounds ws s).
Proof. by apply carried_loop. Qed.
End Order.

(** ** A recorded engine *)

Module Wire.
Import (hints) Engine.

(** The simulated engine with a recorder of the packets it accepted. *)
Definition World : Type := Engine.World * list (Mid * rtp_packet).

(** An operation of the engine. *)
Definition on {A} (f : Engine.World → A * Engine.World) (w : World) : A * World :=
  let '(x, e) := f w.1 in (x, (e, w.2)).

#[export] Instance rtc : Rtc World :=
  {| rtc_clock := {| now := on (now); sleep d w := (sleep d w.1, w.2);
                     instant_max := 2 ^ 63 * SECOND |};
     handle_timeout t := on (handle_timeout t);
     receive_new := receive_new (W := Engine.World);
     handle_receive t d := on (handle_receive t d);
     has_writer m w := has_writer m w.1;
     payload_type_of m w := payload_type_of m w.1;
     rtc_write m p l f w := let '(ok, e) := rtc_write m p l f w.1 in
                            (ok, (e, if ok then w.2 ++ [(m, (p, l, f))] else w.2));
     parse_candidate := Some;
     add_remote_candidate c w := (add_remote_candidate c w.1, w.2);
     poll_output := on poll_output;
     output_bound w := output_bound w.1;
     udp_recv := on udp_recv;
     udp_send c := on (udp_send c);
     ws_send s m := on (ws_send s m);
     ws_close s := on (ws_close s) |}.

#[export] Instance sockets : WebSockets World :=
  {| ws_read s := on (ws_read s); ws_write s m := on (ws_write s m); ws_flush s := on (ws_flush s);
     ws_clone_socket s := on (ws_clone_socket s);
     ws_set_read_timeout s t := on (ws_set_read_timeout s t);
     ws_set_write_timeout s t := on (ws_set_write_timeout s t);
     ws_set_nonblocking s := on (ws_set_nonblocking s);
     ws_shutdown s w := (ws_shutdown s w.1, w.2) |}.

(** Generation 7 has been cancelled. *)
#[export] Instance publisher : PublisherEnv World :=
  {| publisher_rtc := rtc; publisher_sockets := sockets;
     publisher_generations := {| is_active g w := (negb (generation_id g =? 7), w) |};
     publisher_json := {| to_json _ := Some []; parse_server_msg _ := None |};
     try_recv rx := on (Engine.take rx);
     backlog_bound rx w := backlog_bound rx w.1;
     udp_set_nonblocking := on udp_set_nonblocking |}.

Definition taken (rx : nat) (w : World) : list EncodedAudioFrame := Engine.received w.1 rx.
Definition written (m : Mid) (w : World) : list rtp_packet :=
  snd <$> filter (λ p, p.1 = m) w.2.

#[export] Instance log : PublisherLog World taken written.
Proof.
  constructor; try (intros; done).
  - intros [w l]. cbn. unfold on. cbn. by destruct (Engine.events w).
  - intros rx [w l] f w'. cbn. unfold on, Engine.take. cbn.
    destruct (Engine.waiting w rx) as [|f0 q]; [done|]. intros [= -> <-]. unfold taken; cbn.
    rewrite bool_decide_eq_true_2 by done. split; [done|]. split; [|done].
    intros rx' Hne. by rewrite bool_decide_eq_false_2.
  - intros rx [w l]. cbn. unfold on, Engine.take. cbn.
    destruct (Engine.waiting w rx) as [|f0 q]; [done|]. intros Hf. by destruct (Hf f0).
  - intros m p l f [w ps] w'. cbn. intros [= <-]. unfold written; cbn.
    split; [|split; [|done]]; [|intros m' Hne]; rewrite filter_app, fmap_app.
    + f_equal. by rewrite filter_cons_True.
    + rewrite filter_cons_False by (cbn; congruence). by rewrite app_nil_r.
Qed.

Definition cancelled_frame : EncodedAudioFrame := mkEncoded [Byte.x02] 2 2 960 (Some (-30)) 0 0 (Some (mkGeneration 7)).

(** Stream 0 keeps its backlog, of which the second frame is cancelled; stream 1 skips to
    the newest of three. *)
Definition loop0 : Loop World :=
  mkLoop [Engine.stream 0 Preserve; Engine.stream 1 DropStale] 0 SECOND 0 0 0
    (Engine.mkWorld 0 false 0 []
       (λ i, match i with O => [Engine.frame 1; cancelled_frame; Engine.frame 6]
                     | S O => [Engine.frame 3; Engine.frame 4; Engine.frame 5] | _ => [] end) (λ _, []), []).

(** What the loop wrote and took, and its counters, after some iterations. *)
Definition summary (outcome : Loop World + (Result BoxedError unit * Loop World)) :=
  let s := match outcome with inl s | inr (_, s) => s end in
  (written 0 (world s), written 1 (world s), taken 0 (world s), taken 1 (world s),
   (λ a, (publisher_stale_drops (counters a), cancelled_output_frames (counters a), rtp_sent (statistics a),
          bytes_sent (statistics a))) <$> streams s).
End Wire.

Import (hints) Wire.

Lemma publisher_writes_what_it_takes_witness :
  Wire.summary (publish_loop 4 3 Wire.loop0) =
    ([(111, None, Engine.frame 1); (111, None, Engine.frame 6)], [(111, None, Engine.frame 5)],
     [Engine.frame 1; Wire.cancelled_frame; Engine.frame 6],
     [Engine.frame 3; Engine.frame 4; Engine.frame 5], [(0, 1, 2, 2); (2, 0, 1, 1)]) ∧
  carried_by Wire.taken Wire.written Wire.loop0 (publish_loop 4 3 Wire.loop0).
Proof.
  split; [vm_compute; reflexivity|].
  apply (publisher_writes_what_it_takes Wire.taken Wire.written 4 3 Wire.loop0).
  split; repeat constructor; cbn; set_solver.
Defined.
