(* ===== verification/Subscriber.v ===== *)
(** * The WebRTC subscriber: [relay/src/rtc/subscriber.rs]

    Receive-only counterpart of the publisher: [poll_frame] advances the engine once
    and returns at most one Opus frame; events the engine emits meanwhile wait in
    [pending_events]. *)

From S2P Require Import Prelude Env Text Extern Errors Encoder Proxy Transport WebRtc.

Definition KEEPALIVE_INTERVAL : Z := 45 * SECOND.

Record ReceivedOpusFrame : Type := mkReceived {
  payload : list Z;
  rtp_timestamp : Z;
  rtp_clock_hz : Z;
  contiguous : bool;
}.

Record SubscriberConnection (W : Type) : Type := mkConnection {
  ws : Ws;
  mid : Mid;
  session_id : text;
  pending_events : list Event;
  next_rtc_timeout : Z;
  last_keepalive : Z;
  closed : bool;
  world : W;
}.
Arguments mkConnection {W}.
Arguments ws {W} s.
Arguments mid {W} s.
Arguments session_id {W} s.
Arguments pending_events {W} s.
Arguments next_rtc_timeout {W} s.
Arguments last_keepalive {W} s.
Arguments closed {W} s.
Arguments world {W} s.

(** [udp_set_nonblocking] is the socket option set at construction. *)
Class SubscriberEnv (W : Type) : Type := {
  subscriber_rtc :: Rtc W;
  subscriber_sockets :: WebSockets W;
  subscriber_json :: SignalingJson;
  udp_set_nonblocking : W → bool * W;
}.

Section Subscriber.
Context {W : Type} `{SubscriberEnv W}.
Local Abbreviation Conn := (SubscriberConnection W).
Local Abbreviation sio := (io Conn BoxedError).

Definition on_world {A} (m : io W BoxedError A) : sio A :=
  λ s, let '(r, w) := m (world s) in
       (r, mkConnection (ws s) (mid s) (session_id s) (pending_events s) (next_rtc_timeout s)
             (last_keepalive s) (closed s) w).
Definition gets {A} (f : Conn → A) : sio A := λ s, (Ok (f s), s).
Definition push_event (e : Event) : sio unit :=
  io_modify (λ s, mkConnection (ws s) (mid s) (session_id s) (pending_events s ++ [e])
    (next_rtc_timeout s) (last_keepalive s) (closed s) (world s)).
Definition set_events (l : list Event) : sio unit :=
  io_modify (λ s, mkConnection (ws s) (mid s) (session_id s) l
    (next_rtc_timeout s) (last_keepalive s) (closed s) (world s)).
Definition set_timeout (t : Z) : sio unit :=
  io_modify (λ s, mkConnection (ws s) (mid s) (session_id s) (pending_events s) t
    (last_keepalive s) (closed s) (world s)).
Definition set_keepalive (t : Z) : sio unit :=
  io_modify (λ s, mkConnection (ws s) (mid s) (session_id s) (pending_events s)
    (next_rtc_timeout s) t (closed s) (world s)).
Definition set_closed : sio unit :=
  io_modify (λ s, mkConnection (ws s) (mid s) (session_id s) (pending_events s)
    (next_rtc_timeout s) (last_keepalive s) true (world s)).

(** A fallible call of the engine. *)
Definition engine (call : W → bool * W) (m : string) : sio unit :=
  on_world (λ w, let '(done, w) := call w in (if done : bool then Ok () else fail m, w)).

Definition drain_round : sio (option unit) :=
  output ← on_world (io_lift poll_output);
  match output with
  | Err _ => io_fail (Message "subscriber poll_output failed")
  | Ok (OutputTransmit contents) =>
      sent ← on_world (io_lift (udp_send contents));
      match sent with
      | Some kind => if bool_decide (kind = WouldBlock) then mret None
                     else io_fail (Message "udp send")
      | None => mret None
      end
  | Ok (OutputEvent event) => _ ← push_event event; mret None
  | Ok (OutputTimeout t) => _ ← set_timeout t; mret (Some ())
  end.

Definition drain_outputs : sio unit :=
  λ s, io_loop (output_bound (world s)) exhausted drain_round s.

(** The first frame among the events, and the events after it. *)
Fixpoint next_frame (own : Mid) (events : list Event)
  : Result BoxedError (option ReceivedOpusFrame) * list Event :=
  match events with
  | [] => (Ok None, [])
  | event :: events =>
      match event with
      | MediaDataEvent m =>
          if media_mid m =? own then
            (Ok (Some {| payload := media_data m; rtp_timestamp := media_numer m;
                         rtp_clock_hz := media_denom m; contiguous := media_contiguous m |}), events)
          else next_frame own events
      | IceConnectionStateChange IceDisconnected =>
          (fail "Relay subscriber ICE path disconnected", events)
      | _ => next_frame own events
      end
  end.

Definition take_pending_frame : sio (option ReceivedOpusFrame) :=
  own ← gets mid;
  events ← gets pending_events;
  let '(r, rest) := next_frame own events in
  _ ← set_events rest;
  io_result r.

Definition poll_signaling : sio unit :=
  s ← gets ws;
  r ← on_world (io_lift (ws_read s));
  match r with
  | Ok (MText t) =>
      match parse_server_msg t with
      | None => mret ()
      | Some m =>
          if bool_decide (msg_type m = lit "ICE") && negb (bool_decide (candidate m = [])) then
            c ← io_result (ok_or (Message "invalid Relay ICE candidate") (parse_candidate (candidate m)));
            _ ← on_world (io_modify (add_remote_candidate c));
            drain_outputs
          else if bool_decide (msg_type m = lit "ERROR") then io_fail (Message "relay error")
          else mret ()
      end
  | Ok (MClose _) => io_fail (Message "Relay subscriber signaling closed")
  | Ok _ => mret ()
  | Err (WsIo (WouldBlock | TimedOut)) => mret ()
  | Err WsConnectionClosed => io_fail (Message "Relay subscriber signaling closed")
  | Err _ => io_fail (Message "Relay subscriber signaling failed")
  end.

Definition keep_alive : sio unit :=
  t ← on_world (io_lift now);
  last ← gets last_keepalive;
  if KEEPALIVE_INTERVAL <=? t - last then
    s ← gets ws;
    sent ← on_world (io_lift (ws_send s MPing));
    _ ← io_result (map_err (λ _, Message "keepalive") sent);
    t ← on_world (io_lift now);
    set_keepalive t
  else mret ().

(** The end of [poll_frame]: signaling, keep-alive, and what they brought. *)
Definition poll_idle : sio (option ReceivedOpusFrame) :=
  _ ← poll_signaling;
  _ ← keep_alive;
  take_pending_frame.

(** A mutation of the engine, its drain, and the frame it brought, if any; otherwise [rest]. *)
Definition advance (call : W → bool * W) (m : string) (rest : sio (option ReceivedOpusFrame))
  : sio (option ReceivedOpusFrame) :=
  _ ← engine call m;
  _ ← drain_outputs;
  frame ← take_pending_frame;
  match frame with
  | Some frame => mret (Some frame)
  | None => rest
  end.

Definition poll_udp : sio (option ReceivedOpusFrame) :=
  datagram ← on_world (io_lift udp_recv);
  match datagram with
  | Datagram d =>
      if negb (receive_new d) then io_fail (Message "subscriber Receive::new failed") else
      t ← on_world (io_lift now);
      advance (handle_receive t d) "subscriber RTC receive failed" poll_idle
  | UdpWouldBlock => poll_idle
  | UdpFailed => io_fail (Message "udp receive")
  end.

Definition poll_frame : sio (option ReceivedOpusFrame) :=
  frame ← take_pending_frame;
  match frame with
  | Some frame => mret (Some frame)
  | None =>
      t ← on_world (io_lift now);
      timeout ← gets next_rtc_timeout;
      if timeout <=? t
      then advance (handle_timeout t) "subscriber RTC timeout failed" poll_udp
      else poll_udp
  end.

Definition close : sio unit :=
  already ← gets closed;
  if already : bool then mret () else
  _ ← set_closed;
  s ← gets ws;
  room ← gets session_id;
  leave_result ← (λ c, let '(r, w) := send_leave s room (world c) in
                       (Ok r, mkConnection (ws c) (mid c) (session_id c) (pending_events c)
                                (next_rtc_timeout c) (last_keepalive c) (closed c) w)) : sio _;
  close_result ← on_world (io_lift (ws_close s));
  _ ← io_result leave_result;
  io_result (map_err (λ _, Message "close") close_result).

(** [SubscriberConnection::new] from the parts of the handshake; a connection that cannot
    be drained is dropped, which closes it. *)
Definition new (handshake_ws : Ws) (mids : list Mid) (session : text) : io W BoxedError Conn :=
  own ← io_result (ok_or (Message "Relay subscriber negotiated no audio media") (last mids));
  _ ← syscall udp_set_nonblocking "subscriber UDP set_nonblocking failed";
  _ ← syscall (ws_set_read_timeout handshake_ws WS_POLL_TIMEOUT) "read timeout";
  _ ← syscall (ws_set_write_timeout handshake_ws WS_WRITE_TIMEOUT) "write timeout";
  next ← io_lift now;
  keepalive ← io_lift now;
  io_fun (λ w,
    let c := mkConnection handshake_ws own session [] next keepalive false w in
    match drain_outputs c with
    | (Ok _, c) => (Ok c, world c)
    | (Err e, c) => let '(_, c) := close c in (Err e, world c)
    end).
End Subscriber.

(** ** Frames are delivered in order, once *)

(** [emitted w] logs the events the engine has output. *)
Class EmitLog (W : Type) `{SubscriberEnv W} (emitted : W → list Event) : Prop := {
  emit_event w e w' : poll_output w = (Ok (OutputEvent e), w') → emitted w' = emitted w ++ [e];
  emit_other w r w' :
    poll_output w = (r, w') → (∀ e, r ≠ Ok (OutputEvent e)) → emitted w' = emitted w;
  emit_now w : emitted (now w).2 = emitted w;
  emit_timeout t w : emitted (handle_timeout t w).2 = emitted w;
  emit_receive t d w : emitted (handle_receive t d w).2 = emitted w;
  emit_candidate c w : emitted (add_remote_candidate c w) = emitted w;
  emit_udp_recv w : emitted (udp_recv w).2 = emitted w;
  emit_udp_send c w : emitted (udp_send c w).2 = emitted w;
  emit_ws_read s w : emitted (ws_read s w).2 = emitted w;
  emit_ws_send s m w : emitted (ws_send s m w).2 = emitted w;
}.

Section InOrder.
Context {W : Type} `{SubscriberEnv W} (emitted : W → list Event) `{!EmitLog W emitted}.
Local Abbreviation Conn := (SubscriberConnection W).

(** The frame of an event of the subscriber's own medium. *)
Definition frame_of (own : Mid) (e : Event) : option ReceivedOpusFrame :=
  match e with
  | MediaDataEvent m =>
      if media_mid m =? own
      then Some (mkReceived (media_data m) (media_numer m) (media_denom m) (media_contiguous m))
      else None
  | _ => None
  end.

(** From [s] to [s'] the engine emitted some events, and exactly the frames [out] left the
    queue of pending events. *)
Definition flow (s s' : Conn) (out : list ReceivedOpusFrame) : Prop :=
  ∃ new consumed, emitted (world s') = emitted (world s) ++ new
    ∧ pending_events s ++ new = consumed ++ pending_events s'
    ∧ omap (frame_of (mid s)) consumed = out ∧ mid s' = mid s.

Lemma flow_same s s' :
  emitted (world s') = emitted (world s) → pending_events s' = pending_events s → mid s' = mid s →
  flow s s' [].
Proof. intros He Hp Hm. exists [], []. rewrite He, Hp, !app_nil_r. done. Qed.

Lemma flow_trans s1 s2 s3 o1 o2 : flow s1 s2 o1 → flow s2 s3 o2 → flow s1 s3 (o1 ++ o2).
Proof.
  intros (n1 & c1 & E1 & P1 & O1 & M1) (n2 & c2 & E2 & P2 & O2 & M2).
  exists (n1 ++ n2), (c1 ++ c2). split; [by rewrite E2, E1, app_assoc|].
  split; [by rewrite app_assoc, P1, <- !app_assoc, P2|].
  rewrite omap_app, O1, <- M1, O2. split; [done|congruence].
Qed.

(** The frames a result hands to the caller. *)
Definition no_frames {A} (r : Result BoxedError A) : list ReceivedOpusFrame := [].
Definition frames (r : Result BoxedError (option ReceivedOpusFrame)) : list ReceivedOpusFrame :=
  match r with Ok (Some f) => [f] | _ => [] end.

Definition delivers {A} (out : Result BoxedError A → list ReceivedOpusFrame)
  (m : io Conn BoxedError A) : Prop := ∀ s, flow s (m s).2 (out (m s).1).

Lemma delivers_bind {A B} (out : Result BoxedError B → list ReceivedOpusFrame)
  (m : io Conn BoxedError A) (f : A → io Conn BoxedError B) :
  (∀ e, out (Err e) = []) → delivers no_frames m → (∀ a, delivers out (f a)) →
  delivers out (m ≫= f).
Proof.
  intros He Hm Hf s. unfold mbind, io_bind. specialize (Hm s).
  destruct (m s) as [[a|e] s']; cbn in *; [|by rewrite He].
  apply (flow_trans _ _ _ [] _ Hm), Hf.
Qed.

Lemma delivers_ret {A} (a : A) : delivers no_frames (mret a).
Proof. intros s. by apply flow_same. Qed.
Lemma delivers_fail {A} (out : Result BoxedError A → list ReceivedOpusFrame) e :
  (∀ e, out (Err e) = []) → delivers out (io_fail e).
Proof. intros He s. cbn. rewrite He. by apply flow_same. Qed.
Lemma delivers_result {A} (r : Result BoxedError A) : delivers no_frames (io_result r).
Proof. intros s. by apply flow_same. Qed.
Lemma delivers_gets {A} (f : Conn → A) : delivers no_frames (gets f).
Proof. intros s. by apply flow_same. Qed.
Lemma delivers_modify (f : Conn → Conn) :
  (∀ s, world (f s) = world s ∧ pending_events (f s) = pending_events s ∧ mid (f s) = mid s) →
  delivers no_frames (io_modify f).
Proof. intros Hf s. destruct (Hf s) as (F1 & F2 & F3). apply flow_same; cbn; congruence. Qed.
Lemma delivers_world {A} (m : W → A * W) :
  (∀ w, emitted (m w).2 = emitted w) → delivers no_frames (on_world (io_lift m)).
Proof.
  intros Hm s. specialize (Hm (world s)). unfold on_world, io_lift.
  destruct (m (world s)) as [a w]. by apply flow_same.
Qed.
Lemma delivers_engine (call : W → bool * W) msg :
  (∀ w, emitted (call w).2 = emitted w) → delivers no_frames (engine call msg).
Proof.
  intros Hm s. specialize (Hm (world s)). unfold engine, on_world.
  destruct (call (world s)) as [[] w]; by apply flow_same.
Qed.

Lemma delivers_drain_round : delivers no_frames drain_round.
Proof.
  intros s. unfold drain_round, mbind, io_bind at 1, on_world, io_lift at 1.
  destruct (poll_output (world s)) as [o w] eqn:E. pose proof (emit_event (world s)) as He.
  pose proof (emit_other (world s) o w E) as Ho. destruct o as [[t|c|e]|err].
  - apply flow_same; [|done..]. apply Ho. done.
  - unfold io_bind, io_lift; cbn. specialize (Ho ltac:(done)). pose proof (emit_udp_send c w) as Hs.
    destruct (udp_send c w) as [[k|] w2]; cbn in *; [case_match|]; apply flow_same; cbn; congruence.
  - exists [e], []. cbn. by rewrite (He e w E).
  - apply flow_same; [|done..]. by apply Ho.
Qed.

Lemma delivers_drain : delivers no_frames drain_outputs.
Proof.
  intros s. unfold drain_outputs.
  apply (io_loop_invariant (output_bound (world s)) exhausted drain_round (λ s', flow s s' [])
    (λ r s', flow s s' (no_frames r))); try done; [by apply flow_same|..];
    intros s1 x s2 H1 H2 || intros s1 s2 H1 H2; pose proof (delivers_drain_round s1) as H3;
    rewrite H2 in H3; apply (flow_trans _ _ _ _ _ H1 H3).
Qed.

Lemma next_frame_spec own events r rest :
  next_frame own events = (r, rest) →
  ∃ consumed, events = consumed ++ rest ∧ omap (frame_of own) consumed = frames r.
Proof.
  revert r rest. induction events as [|e l IH]; intros r rest; cbn; [intros [= <- <-]; by exists []|].
  assert (∀ r rest, next_frame own l = (r, rest) → frame_of own e = None →
    ∃ consumed, e :: l = consumed ++ rest ∧ omap (frame_of own) consumed = frames r) as Hskip.
  { intros r' rest' (c & -> & Hc)%IH He. exists (e :: c). cbn. by rewrite He. }
  destruct e as [m|[]| |]; try (intros E; by apply Hskip).
  - destruct (media_mid m =? own) eqn:Em.
    + intros [= <- <-]. exists [MediaDataEvent m]. cbn. by rewrite Em.
    + intros E. apply Hskip; [done|]. cbn. by rewrite Em.
  - intros [= <- <-]. by exists [IceConnectionStateChange IceDisconnected].
Qed.

Lemma delivers_take : delivers frames take_pending_frame.
Proof.
  intros s. unfold take_pending_frame, mbind, io_bind, gets.
  destruct (next_frame (mid s) (pending_events s)) as [r rest] eqn:E.
  apply next_frame_spec in E as (c & Hp & Hc). exists [], c. cbn. by rewrite !app_nil_r.
Qed.

(** Taking a frame, or going on when there is none. *)
Lemma delivers_or (m rest : io Conn BoxedError (option ReceivedOpusFrame)) :
  delivers frames m → delivers frames rest →
  delivers frames (frame ← m; match frame with Some f => mret (Some f) | None => rest end).
Proof.
  intros Hm Hr s. unfold mbind, io_bind. specialize (Hm s).
  destruct (m s) as [[[f|]|e] s']; cbn in *; [done| |done].
  apply (flow_trans _ _ _ [] _ Hm), Hr.
Qed.

Lemma delivers_advance call msg rest :
  (∀ w, emitted (call w).2 = emitted w) → delivers frames rest →
  delivers frames (advance call msg rest).
Proof.
  intros Hc Hr. apply delivers_bind; [done|by apply delivers_engine|]. intros _.
  apply delivers_bind; [done|apply delivers_drain|]. intros _.
  apply delivers_or; [apply delivers_take|done].
Qed.

Lemma delivers_signaling : delivers no_frames poll_signaling.
Proof.
  apply delivers_bind; [done|apply delivers_gets|]. intros x.
  apply delivers_bind; [done|apply delivers_world, emit_ws_read|].
  intros [[t|b| | |c|]|[[]| | | |]]; try apply delivers_ret; try by apply delivers_fail.
  destruct (parse_server_msg t) as [m|]; [|apply delivers_ret].
  case_match; [|case_match; [by apply delivers_fail|apply delivers_ret]].
  apply delivers_bind; [done|apply delivers_result|]. intros c.
  apply delivers_bind; [done| |intros _; apply delivers_drain].
  intros s. unfold on_world, io_modify. apply flow_same; cbn; [apply emit_candidate|done..].
Qed.

Lemma delivers_keep_alive : delivers no_frames keep_alive.
Proof.
  apply delivers_bind; [done|apply delivers_world, emit_now|]. intros t.
  apply delivers_bind; [done|apply delivers_gets|]. intros last. case_match; [|apply delivers_ret].
  apply delivers_bind; [done|apply delivers_gets|]. intros x.
  apply delivers_bind; [done|apply delivers_world; intros; apply emit_ws_send|]. intros sent.
  apply delivers_bind; [done|apply delivers_result|]. intros _.
  apply delivers_bind; [done|apply delivers_world, emit_now|]. intros t'. by apply delivers_modify.
Qed.

Lemma delivers_idle : delivers frames poll_idle.
Proof.
  apply delivers_bind; [done|apply delivers_signaling|]. intros _.
  apply delivers_bind; [done|apply delivers_keep_alive|]. intros _. apply delivers_take.
Qed.

Lemma delivers_udp : delivers frames poll_udp.
Proof.
  apply delivers_bind; [done|apply delivers_world, emit_udp_recv|].
  intros [d| |]; [|apply delivers_idle|by apply delivers_fail].
  destruct (receive_new d); cbn [negb]; [|by apply delivers_fail].
  apply delivers_bind; [done|apply delivers_world, emit_now|]. intros t.
  apply delivers_advance; [intros; apply emit_receive|apply delivers_idle].
Qed.

Lemma delivers_poll_frame : delivers frames poll_frame.
Proof.
  apply delivers_or; [apply delivers_take|].
  apply delivers_bind; [done|apply delivers_world, emit_now|]. intros t.
  apply delivers_bind; [done|apply delivers_gets|]. intros timeout.
  case_match; [|apply delivers_udp].
  apply delivers_advance; [intros; apply emit_timeout|apply delivers_udp].
Qed.

(** C17: The subscriber loses, repeats and reorders nothing.  Whatever one poll meets
    (timeouts, datagrams, signaling, errors), the events pending before it followed by
    those the engine emitted during it are the events it consumed followed by those left
    pending, and the frames of its medium among the consumed ones are exactly the frame it
    returns, or none. *)
Theorem poll_frame_in_order (s s' : Conn) r (Hp : poll_frame s = (r, s')) :
  ∃ new consumed, emitted (world s') = emitted (world s) ++ new
    ∧ pending_events s ++ new = consumed ++ pending_events s'
    ∧ omap (frame_of (mid s)) consumed = frames r ∧ mid s' = mid s.
Proof. pose proof (delivers_poll_frame s) as Hd. by rewrite Hp in Hd. Qed.
End InOrder.

(** ** What a poll keeps

    Every operation of the environment moves the world along [R]; then so does a poll. *)
Class SubscriberKeeps (W : Type) `{SubscriberEnv W} (R : relation W) : Prop := {
  sk_preorder :: PreOrder R;
  sk_now w : R w (now w).2;
  sk_timeout t w : R w (handle_timeout t w).2;
  sk_receive t d w : R w (handle_receive t d w).2;
  sk_candidate c w : R w (add_remote_candidate c w);
  sk_poll w : R w (poll_output w).2;
  sk_udp_recv w : R w (udp_recv w).2;
  sk_udp_send c w : R w (udp_send c w).2;
  sk_ws_read s w : R w (ws_read s w).2;
  sk_ws_send s m w : R w (ws_send s m w).2;
}.

Ltac subscriber_law :=
  first [ apply sk_now | apply sk_timeout | apply sk_receive | apply sk_candidate | apply sk_poll
        | apply sk_udp_recv | apply sk_udp_send | apply sk_ws_read | apply sk_ws_send ].
#[export] Hint Extern 1 => subscriber_law : keeps.

Section Keeping.
Context {W : Type} `{SubscriberEnv W} (R : relation W) `{!SubscriberKeeps W R}.

Definition connection_keeps : relation (SubscriberConnection W) := λ s s', R (world s) (world s').

#[export] Instance connection_keeps_preorder : PreOrder connection_keeps.
Proof.
  split; [intros s; unfold connection_keeps; reflexivity|].
  intros s1 s2 s3. unfold connection_keeps. apply transitivity.
Qed.

Local Abbreviation K := (keeps connection_keeps).

Lemma keeps_world {A} (m : W → A * W) : (∀ w, R w (m w).2) → K (on_world (io_lift m)).
Proof.
  intros Hm s. specialize (Hm (world s)). unfold on_world, io_lift.
  by destruct (m (world s)).
Qed.
Lemma keeps_local {A} (m : io (SubscriberConnection W) BoxedError A) :
  (∀ s, world (m s).2 = world s) → K m.
Proof. intros Hm s. unfold connection_keeps. rewrite Hm. reflexivity. Qed.
Lemma keeps_engine call msg : (∀ w, R w (call w).2) → K (engine call msg).
Proof.
  intros Hm s. specialize (Hm (world s)). unfold engine, on_world.
  by destruct (call (world s)) as [[] w].
Qed.

#[local] Hint Resolve keeps_world keeps_engine : keeps.
#[local] Hint Extern 1 (keeps _ (gets _)) => by apply keeps_local : keeps.

Lemma keeps_take : K take_pending_frame.
Proof.
  apply keeps_local. intros s. unfold take_pending_frame, mbind, io_bind, gets.
  by destruct (next_frame (mid s) (pending_events s)).
Qed.
#[local] Hint Resolve keeps_take : keeps.

Lemma keeps_drain : K drain_outputs.
Proof.
  intros s. unfold drain_outputs. match goal with |- _ _ (?m s).2 => assert (K m) as Hm; [|apply Hm] end.
  keep. unfold drain_round. keep; by apply keeps_local.
Qed.
#[local] Hint Resolve keeps_drain : keeps.

Lemma keeps_advance call msg rest : (∀ w, R w (call w).2) → K rest → K (advance call msg rest).
Proof. intros Hc Hr. unfold advance. keep. Qed.
#[local] Hint Extern 1 (keeps _ (advance _ _ _)) => apply keeps_advance; keep : keeps.

Lemma keeps_signaling : K poll_signaling.
Proof. unfold poll_signaling. keep. intros st. apply (sk_candidate _ (world st)). Qed.

Lemma keeps_keep_alive : K keep_alive.
Proof. unfold keep_alive. keep. by apply keeps_local. Qed.
#[local] Hint Resolve keeps_signaling keeps_keep_alive : keeps.

Lemma keeps_idle : K poll_idle.
Proof. unfold poll_idle. keep. Qed.
#[local] Hint Resolve keeps_idle : keeps.

Lemma keeps_poll_udp : K poll_udp.
Proof. unfold poll_udp. keep. Qed.
#[local] Hint Resolve keeps_poll_udp : keeps.

Lemma keeps_poll_frame : K poll_frame.
Proof. unfold poll_frame. keep. Qed.
End Keeping.

(** Closing leaves the connection closed, whatever the socket answers. *)
Lemma close_closes {W} `{SubscriberEnv W} (s : SubscriberConnection W) :
  closed (close s).2 = true.
Proof.
  unfold close, mbind, io_bind at 1, gets at 1. destruct (closed s) eqn:E; [done|].
  unfold io_bind, set_closed, io_modify, gets, on_world, io_lift, io_result. cbn.
  destruct (send_leave _ _ _) as [l w]. cbn. destruct (ws_close _ w) as [c w']. cbn.
  by destruct l.
Qed.

(** ** A scripted engine *)

Module Script.

(** Events to be emitted, and those emitted. *)
Record World : Type := mkWorld { clock : Z; queue : list Event; emitted : list Event }.

#[export] Instance rtc : Rtc World :=
  {| rtc_clock := {| now w := (clock w, w); sleep d w := mkWorld (clock w + d) (queue w) (emitted w);
                     instant_max := 2 ^ 63 * SECOND |};
     handle_timeout _ w := (true, w); receive_new _ := true; handle_receive _ _ w := (true, w);
     has_writer _ _ := false; payload_type_of _ _ := None; rtc_write _ _ _ _ w := (false, w);
     parse_candidate := Some; add_remote_candidate _ w := w;
     poll_output w :=
       match queue w with
       | e :: rest => (Ok (OutputEvent e), mkWorld (clock w) rest (emitted w ++ [e]))
       | [] => (Ok (OutputTimeout (clock w + SECOND)), w)
       end;
     output_bound w := Pos.of_succ_nat (length (queue w));
     udp_recv w := (UdpWouldBlock, w); udp_send _ w := (None, w);
     ws_send _ _ w := (Ok (), w); ws_close _ w := (Ok (), w) |}.

#[export] Instance sockets : WebSockets World :=
  {| ws_read _ w := (Err (WsIo WouldBlock), w);
     ws_write _ _ w := (Ok (), w); ws_flush _ w := (Ok (), w); ws_clone_socket _ w := (true, w);
     ws_set_read_timeout _ _ w := (true, w); ws_set_write_timeout _ _ w := (true, w);
     ws_set_nonblocking _ w := (true, w); ws_shutdown _ w := w |}.

#[export] Instance subscriber : SubscriberEnv World :=
  {| subscriber_rtc := rtc; subscriber_sockets := sockets;
     subscriber_json := {| to_json _ := Some []; parse_server_msg _ := None |};
     udp_set_nonblocking w := (true, w) |}.

#[export] Instance log : EmitLog World emitted.
Proof.
  constructor; try done.
  - intros w e w'. cbn. destruct (queue w); [done|]. by intros [= <- <-].
  - intros w r w'. cbn. destruct (queue w) as [|e l]; intros [= <- <-]; [done|].
    intros He. by destruct (He e).
Qed.

Definition audio (own n : Z) : Event := MediaDataEvent (mkMedia own [n] n 48000 true).
(** A frame of another medium, then two of the subscriber's own. *)
Definition start : SubscriberConnection World :=
  mkConnection 3 1 (lit "session-1") [] 0 0 false
    (mkWorld 5 [audio 2 0; audio 1 1; audio 1 2] []).

End Script.

Import Script.

Lemma poll_frame_in_order_witness :
  (poll_frame start).1 = Ok (Some (mkReceived [1] 1 48000 true)) ∧
  pending_events (poll_frame start).2 = [audio 1 2] ∧
  ∃ new consumed, new = consumed ++ [audio 1 2]
    ∧ omap (frame_of 1) consumed = [mkReceived [1] 1 48000 true].
Proof.
  split; [vm_compute; reflexivity|]. split; [vm_compute; reflexivity|].
  destruct (poll_frame_in_order emitted start (poll_frame start).2 (poll_frame start).1)
    as (new & consumed & _ & Hp & Hf & _); [by destruct (poll_frame start)|].
  exists new, consumed. split; [exact Hp|exact Hf].
Defined.
