(* ===== verification/Stun.v ===== *)
(** * The STUN probe for a server-reflexive address: [relay/src/rtc/handshake.rs]

    [probe_srflx] asks each configured STUN server, from the socket ICE will use, under
    which address it sees the socket, and stops at the first answer.  The request is
    written out; the answer is parsed from the 256-byte buffer [recv_from] filled, where an
    index outside the buffer is a panic ([None]). *)

From S2P Require Import Prelude Env Text Extern Errors Proxy Config Gateway.

#[local] Arguments lit : simpl never.

Definition UDP_READ_TIMEOUT : Z := 5 * MILLISECOND.
Definition STUN_TIMEOUT : Z := 2000 * MILLISECOND.
Definition STUN_BUFFER : nat := 256.

(** ** The request *)

Definition transaction_id : list Z := lit "pks-stun-prb".
Definition binding_request : list Z := [0; 1; 0; 0; 33; 18; 164; 66] ++ transaction_id.

(** ** The response *)

Definition be16 (a b : Z) : Z := a * 256 + b.

(** An IPv4 socket address. *)
Record SocketAddrV4 : Type := mkAddrV4 { v4_ip : Z; v4_port : Z }.

(** [(attr_len + 3) & !3] *)
Definition padded (attr_len : Z) : Z := Z.land (attr_len + 3) (Z.lnot 3).

(** The address of an attribute whose value starts at [pos]; [None] indexes out of bounds. *)
Definition xor_mapped (buf : list Z) (pos : nat) : option SocketAddrV4 :=
  p0 ← buf !! (pos + 2)%nat; p1 ← buf !! (pos + 3)%nat;
  a0 ← buf !! (pos + 4)%nat; a1 ← buf !! (pos + 5)%nat;
  a2 ← buf !! (pos + 6)%nat; a3 ← buf !! (pos + 7)%nat;
  Some (mkAddrV4 (be16 (be16 (be16 (Z.lxor a0 33) (Z.lxor a1 18)) (Z.lxor a2 164)) (Z.lxor a3 66))
          (Z.lxor (be16 p0 p1) 8466)).

(** The walk over the attributes up to [limit], [20 + msg_len]. *)
Fixpoint walk (fuel : nat) (buf : list Z) (limit pos : nat) : option (option SocketAddrV4) :=
  match fuel with
  | O => Some None
  | S fuel =>
      if negb (pos + 4 <=? limit)%nat then Some None else
      t0 ← buf !! pos; t1 ← buf !! (pos + 1)%nat;
      l0 ← buf !! (pos + 2)%nat; l1 ← buf !! (pos + 3)%nat;
      let attr_type := be16 t0 t1 in
      let attr_len := be16 l0 l1 in
      let pos := (pos + 4)%nat in
      let continue := walk fuel buf limit (pos + Z.to_nat (padded attr_len)) in
      if (attr_type =? 32) && (8 <=? attr_len) then
        family ← buf !! (pos + 1)%nat;
        if family =? 1 then address ← xor_mapped buf pos; Some (Some address) else continue
      else continue
  end.

(** Every step of the walk advances by at least four bytes. *)
Definition walk_fuel (limit : nat) : nat := S limit.

(** The parse of the [n] bytes received into [buf]: [Some None] when it is no answer. *)
Definition parse_response (buf : list Z) (n : nat) : option (option SocketAddrV4) :=
  if (n <? 20)%nat || negb (bool_decide (take 12 (drop 8 buf) = transaction_id)) then Some None else
  b0 ← buf !! 0%nat; b1 ← buf !! 1%nat;
  if negb (be16 b0 b1 =? 257) then Some None else
  b2 ← buf !! 2%nat; b3 ← buf !! 3%nat;
  let limit := (20 + Z.to_nat (be16 b2 b3))%nat in
  if (n <? limit)%nat then Some None else
  walk (walk_fuel limit) buf limit 20.

(** ** What a well-formed response is *)

Definition byte (b : Z) : Prop := 0 ≤ b < 256.

(** An attribute with its padding. *)
Definition encode_attribute (a : Z * list Z) : list Z :=
  be_bytes 2 a.1 ++ be_bytes 2 (Z.of_nat (length a.2)) ++ a.2
  ++ replicate (Z.to_nat (padded (Z.of_nat (length a.2))) - length a.2) 0.

(** XOR-MAPPED-ADDRESS of an IPv4 address. *)
Definition mapped_attribute (address : SocketAddrV4) : Z * list Z :=
  (32, [0; 1] ++ be_bytes 2 (Z.lxor (v4_port address) 8466)
       ++ zip_with Z.lxor (be_bytes 4 (v4_ip address)) [33; 18; 164; 66]).

Definition encode_response (cookie : list Z) (attributes : list (Z * list Z)) : list Z :=
  let body := attributes ≫= encode_attribute in
  [1; 1] ++ be_bytes 2 (Z.of_nat (length body)) ++ cookie ++ transaction_id ++ body.

(** The receive buffer after [bytes] arrived. *)
Definition received (bytes : list Z) : list Z := bytes ++ replicate (STUN_BUFFER - length bytes) 0.

(** An attribute of another kind. *)
Definition other_attribute (a : Z * list Z) : Prop := 0 ≤ a.1 < 65536 ∧ a.1 ≠ 32 ∧ Forall byte a.2.

(** ** Inside the buffer *)

Section Bounds.
Context (buf : list Z) (Hbuf : length buf = STUN_BUFFER).

Lemma buf_lookup i : (i < 256)%nat → ∃ b, buf !! i = Some b.
Proof. intros Hi. apply lookup_lt_is_Some. unfold STUN_BUFFER in Hbuf. lia. Qed.

Ltac read := match goal with
  |- context [buf !! ?i] =>
    let E := fresh "E" in destruct (buf_lookup i ltac:(lia)) as [? E]; rewrite E; cbn [mbind option_bind]
  end.

Lemma walk_inside fuel limit pos : (limit ≤ 248)%nat → walk fuel buf limit pos ≠ None.
Proof.
  intros Hl. revert pos. induction fuel as [|fuel IH]; intros pos; cbn [walk]; [done|].
  destruct (Nat.leb_spec (pos + 4) limit); cbn [negb]; [|done].
  unfold xor_mapped. repeat read. repeat case_match; done || apply IH.
Qed.
End Bounds.

(** ** Well-formed responses *)

Lemma padded_spec l : 0 ≤ l → padded l = 4 * ((l + 3) / 4).
Proof.
  intros Hl. unfold padded. rewrite <- Z.ldiff_land. change 3 with (Z.ones 2) at 2.
  rewrite Z.ldiff_ones_r, Z.shiftl_mul_pow2, Z.shiftr_div_pow2 by lia.
  change (2 ^ 2) with 4. lia.
Qed.
Lemma padded_bounds l : 0 ≤ l → l ≤ padded l < l + 4.
Proof.
  intros Hl. rewrite padded_spec by done.
  pose proof (Z.div_mod (l + 3) 4 ltac:(lia)). pose proof (Z.mod_pos_bound (l + 3) 4 ltac:(lia)). lia.
Qed.

Lemma be16_bytes x : 0 ≤ x < 65536 → ∃ a b, be_bytes 2 x = [a; b] ∧ be16 a b = x.
Proof.
  intros Hx. cbn [be_bytes]. eexists _, _. split; [reflexivity|]. unfold be16. cbn.
  rewrite Z.div_1_r, (Z.mod_small (x / 256)).
  - pose proof (Z.div_mod x 256 ltac:(lia)). lia.
  - split; [apply Z.div_pos; lia|apply Z.div_lt_upper_bound; lia].
Qed.

Lemma lxor_twice a b : Z.lxor (Z.lxor a b) b = a.
Proof. by rewrite Z.lxor_assoc, Z.lxor_nilpotent, Z.lxor_0_r. Qed.

Lemma lxor_range n a b : 0 ≤ n → 0 ≤ a < 2 ^ n → 0 ≤ b < 2 ^ n → 0 ≤ Z.lxor a b < 2 ^ n.
Proof.
  intros Hn Ha Hb. split; [apply Z.lxor_nonneg; lia|].
  rewrite <- (Z.mod_small a (2 ^ n)), <- (Z.mod_small b (2 ^ n)) by lia.
  rewrite <- !Z.land_ones by done.
  assert (Z.lxor (Z.land a (Z.ones n)) (Z.land b (Z.ones n)) = Z.land (Z.lxor a b) (Z.ones n)) as ->.
  { apply Z.bits_inj'. intros i Hi. rewrite !Z.lxor_spec, !Z.land_spec, Z.lxor_spec.
    by destruct (Z.testbit a i), (Z.testbit b i), (Z.testbit (Z.ones n) i). }
  rewrite Z.land_ones by done. apply Z.mod_pos_bound. lia.
Qed.

Lemma attribute_length a :
  length (encode_attribute a) = (4 + Z.to_nat (padded (Z.of_nat (length a.2))))%nat.
Proof.
  unfold encode_attribute. rewrite !length_app, !be_bytes_length, length_replicate.
  pose proof (padded_bounds (Z.of_nat (length a.2))). lia.
Qed.

(** The four bytes at the head of an attribute. *)
Lemma attribute_head a rest :
  0 ≤ a.1 < 65536 → Z.of_nat (length a.2) < 65536 →
  ∃ t0 t1 l0 l1 pad, encode_attribute a ++ rest = t0 :: t1 :: l0 :: l1 :: a.2 ++ pad ++ rest
    ∧ be16 t0 t1 = a.1 ∧ be16 l0 l1 = Z.of_nat (length a.2).
Proof.
  intros Ht Hl. unfold encode_attribute.
  destruct (be16_bytes a.1) as (t0 & t1 & -> & E1); [exact Ht|].
  destruct (be16_bytes (Z.of_nat (length a.2))) as (l0 & l1 & -> & E2); [lia|].
  eexists t0, t1, l0, l1, (replicate _ 0). split; [|by split]. cbn. by rewrite <- app_assoc.
Qed.

Lemma lookup_at {A} (l : list A) pos i tail :
  drop pos l = tail → l !! (pos + i)%nat = tail !! i.
Proof. intros <-. by rewrite lookup_drop. Qed.

(** Another attribute is walked over. *)
Lemma walk_other fuel buf limit pos a rest :
  other_attribute a → Z.of_nat (length a.2) < 65536 → drop pos buf = encode_attribute a ++ rest →
  (pos + 4 ≤ limit)%nat →
  walk (S fuel) buf limit pos = walk fuel buf limit (pos + length (encode_attribute a)).
Proof.
  intros (Ht & Hne & _) Hl Hd Hlim. rewrite attribute_length.
  destruct (attribute_head a rest Ht Hl) as (t0 & t1 & l0 & l1 & pad & E & E1 & E2).
  rewrite E in Hd. cbn [walk]. rewrite (proj2 (Nat.leb_le _ _) Hlim). cbn [negb].
  rewrite <- (Nat.add_0_r pos) at 1. rewrite !(lookup_at _ _ _ _ Hd). cbn -[Nat.add].
  rewrite E1, E2. destruct (Z.eqb_spec a.1 32); [done|]. cbn [andb].
  by rewrite Nat.add_assoc.
Qed.

Lemma walk_others fuel buf limit pos attributes rest :
  Forall (λ a, other_attribute a ∧ Z.of_nat (length a.2) < 65536) attributes →
  drop pos buf = (attributes ≫= encode_attribute) ++ rest →
  (pos + length (attributes ≫= encode_attribute) ≤ limit)%nat →
  walk (length attributes + fuel) buf limit pos
  = walk fuel buf limit (pos + length (attributes ≫= encode_attribute)).
Proof.
  intros Hall. revert pos. induction Hall as [|a attributes [Ha Hl] Hall IH]; intros pos Hd Hlim.
  { cbn. by rewrite Nat.add_0_r. }
  cbn [mbind list_bind] in Hd, Hlim |- *. rewrite length_app in Hlim |- *. rewrite <- app_assoc in Hd.
  cbn [length plus]. pose proof (attribute_length a) as La.
  rewrite (walk_other _ _ _ _ a _ Ha Hl Hd) by lia. rewrite IH.
  - by rewrite Nat.add_assoc.
  - by rewrite <- drop_drop, Hd, drop_app_full.
  - lia.
Qed.

Lemma be16_nested b3 b2 b1 b0 : be16 (be16 (be16 b3 b2) b1) b0 = be_value [b3; b2; b1; b0].
Proof. unfold be16, be_value. cbn. lia. Qed.

Lemma walk_mapped fuel buf limit pos address rest :
  0 ≤ v4_ip address < 2 ^ 32 → 0 ≤ v4_port address < 2 ^ 16 →
  drop pos buf = encode_attribute (mapped_attribute address) ++ rest → (pos + 4 ≤ limit)%nat →
  walk (S fuel) buf limit pos = Some (Some address).
Proof.
  intros Hip Hport Hd Hlim.
  destruct (be16_bytes (Z.lxor (v4_port address) 8466)) as (p0 & p1 & Ep & Eport).
  { apply (lxor_range 16); lia. }
  assert (∃ b3 b2 b1 b0, be_bytes 4 (v4_ip address) = [b3; b2; b1; b0]) as (b3 & b2 & b1 & b0 & Eb)
    by (cbn; eauto).
  assert (length (mapped_attribute address).2 = 8%nat) as L8
    by (unfold mapped_attribute; cbn [snd]; by rewrite Ep, Eb).
  destruct (attribute_head (mapped_attribute address) rest) as (t0 & t1 & l0 & l1 & pad & E & E1 & E2);
    [done|rewrite L8; lia|].
  rewrite E in Hd. cbn [walk]. rewrite (proj2 (Nat.leb_le _ _) Hlim). cbn [negb].
  rewrite L8 in E2. unfold mapped_attribute in Hd. cbn [snd] in Hd. rewrite Ep, Eb in Hd.
  unfold xor_mapped. rewrite <- !Nat.add_assoc. cbn [Nat.add].
  rewrite <- (Nat.add_0_r pos) at 1. rewrite !(lookup_at _ _ _ _ Hd). cbn -[Z.lxor be16].
  rewrite E1, E2. cbn -[Z.lxor be16]. rewrite !lxor_twice, be16_nested, <- Eb, be_value_bytes, Eport, lxor_twice.
  rewrite Z.mod_small by exact Hip. by destruct address.
Qed.

Lemma attributes_length (attributes : list (Z * list Z)) :
  (4 * length attributes ≤ length (attributes ≫= encode_attribute))%nat.
Proof.
  induction attributes as [|a l IH]; [done|].
  change ((a :: l) ≫= encode_attribute) with (encode_attribute a ++ (l ≫= encode_attribute)).
  rewrite length_app, attribute_length. cbn [length]. lia.
Qed.

(** The header is accepted and the walk begins behind it. *)
Lemma parse_header cookie attributes tail :
  length cookie = 4%nat → Z.of_nat (length (attributes ≫= encode_attribute)) < 65536 →
  parse_response (encode_response cookie attributes ++ tail) (length (encode_response cookie attributes))
  = walk (walk_fuel (20 + length (attributes ≫= encode_attribute))) (encode_response cookie attributes ++ tail)
      (20 + length (attributes ≫= encode_attribute)) 20
  ∧ drop 20 (encode_response cookie attributes ++ tail) = (attributes ≫= encode_attribute) ++ tail.
Proof.
  intros Hc Hl. unfold encode_response. cbv zeta.
  generalize dependent (attributes ≫= encode_attribute). intros body Hl.
  destruct cookie as [|c0 [|c1 [|c2 [|c3 [|]]]]]; try done.
  destruct (be16_bytes (Z.of_nat (length body))) as (l0 & l1 & -> & E); [lia|].
  assert (transaction_id = [112; 107; 115; 45; 115; 116; 117; 110; 45; 112; 114; 98]) as Et by reflexivity.
  split; [|by rewrite Et]. unfold parse_response. rewrite Et.
  match goal with |- context [(length ?l <? 20)%nat] =>
    assert (length l = (20 + length body)%nat) as -> by done end.
  rewrite (proj2 (Nat.ltb_ge _ 20)) by lia. rewrite bool_decide_true by done. cbn [negb orb].
  cbn [app lookup list_lookup mbind option_bind]. change (be16 1 1 =? 257) with true. cbn [negb].
  rewrite E, Nat2Z.id, Nat.ltb_irrefl. done.
Qed.

(** C24: The probe reads the address a STUN server reports back exactly, and stays inside its
    buffer.  A binding success response to its request that fits the buffer, with any other
    attributes, of any lengths with their padding, before the mapped IPv4 address, and
    anything after it, parses to that address and port; and whatever the buffer holds, the
    parse of a datagram of at most 248 bytes does not index outside it. *)
Theorem stun_response_parses (buf : list Z) (n : nat) (cookie : list Z)
  (others after : list (Z * list Z)) (address : SocketAddrV4)
  (Hcookie : length cookie = 4%nat)
  (Hothers : Forall (λ a, other_attribute a ∧ Z.of_nat (length a.2) < 65536) others)
  (Hip : 0 ≤ v4_ip address < 2 ^ 32) (Hport : 0 ≤ v4_port address < 2 ^ 16)
  (Hn : n = length (encode_response cookie (others ++ mapped_attribute address :: after)))
  (Hbuf : buf = received (encode_response cookie (others ++ mapped_attribute address :: after)))
  (Hfit : (n ≤ STUN_BUFFER)%nat) :
  parse_response buf n = Some (Some address)
  ∧ ∀ (junk : list Z) (m : nat), length junk = STUN_BUFFER → (m ≤ 248)%nat →
      parse_response junk m ≠ None.
Proof.
  split.
  2: { intros junk m Hj Hm. unfold parse_response. case_match; [done|].
       repeat match goal with |- context [junk !! ?i] =>
         destruct (buf_lookup junk Hj i ltac:(lia)) as [? ->]; cbn [mbind option_bind] end.
       case_match; [done|]. case_match; bool_props; [done|]. apply (walk_inside junk Hj). lia. }
  set (all := others ++ mapped_attribute address :: after) in *.
  assert (length (encode_response cookie all) = (20 + length (all ≫= encode_attribute))%nat) as Elen.
  { unfold encode_response. rewrite !length_app, be_bytes_length, Hcookie. done. }
  assert (Z.of_nat (length (all ≫= encode_attribute)) < 65536) as Hl
    by (unfold STUN_BUFFER in Hfit; lia).
  destruct (parse_header cookie all (replicate (STUN_BUFFER - length (encode_response cookie all)) 0)
    Hcookie Hl) as [Hp Hd].
  rewrite Hbuf, Hn. unfold received. rewrite Hp. clear Hp.
  assert ((all ≫= encode_attribute) = (others ≫= encode_attribute)
    ++ encode_attribute (mapped_attribute address) ++ (after ≫= encode_attribute)) as Eall
    by (unfold all; by rewrite bind_app).
  pose proof (attributes_length others) as Hfuel.
  set (limit := (20 + length (all ≫= encode_attribute))%nat).
  assert (20 + length (others ≫= encode_attribute) + 12 ≤ limit)%nat as Hlimit.
  { unfold limit. rewrite Eall, !length_app, attribute_length.
    change (length (mapped_attribute address).2) with 8%nat.
    change (Z.to_nat (padded (Z.of_nat 8))) with 8%nat. lia. }
  replace (walk_fuel limit) with (length others + S (limit - length others))%nat
    by (unfold walk_fuel; lia).
  rewrite Eall, <- !app_assoc in Hd.
  rewrite (walk_others _ _ _ _ others _ Hothers Hd) by lia.
  eapply walk_mapped; [done|done| |lia].
  rewrite <- drop_drop, Hd, drop_app_full by done. reflexivity.
Qed.

(** ** A datagram that reads outside the buffer *)

(** A response of 256 bytes: one long attribute, then a XOR-MAPPED-ADDRESS header that claims
    eight bytes where the buffer ends. *)
Definition overrun : list Z :=
  [1; 1] ++ be_bytes 2 236 ++ [33; 18; 164; 66] ++ transaction_id
  ++ encode_attribute (32802, replicate 228 0) ++ [0; 32; 0; 8].

(** A datagram can make the probe index outside its buffer, which is a panic of the thread
    that prepares the publication: a success response of 256 bytes with the request's fixed
    transaction identity, whose last attribute claims an address behind the end. *)
Theorem stun_response_overruns :
  length overrun = STUN_BUFFER ∧ parse_response (received overrun) (length overrun) = None.
Proof. split; vm_compute; reflexivity. Qed.

Lemma stun_response_parses_witness :
  parse_response
    (received (encode_response [33; 18; 164; 66] ([(32802, [1; 2; 3])] ++ mapped_attribute (mkAddrV4 3232235777 40000) :: [])))
    (length (encode_response [33; 18; 164; 66] ([(32802, [1; 2; 3])] ++ mapped_attribute (mkAddrV4 3232235777 40000) :: [])))
  = Some (Some (mkAddrV4 3232235777 40000)).
Proof.
  eapply (proj1 (stun_response_parses _ _ [33; 18; 164; 66] [(32802, [1; 2; 3])] []
    (mkAddrV4 3232235777 40000) _ _ _ _ _ _ _)).
  Unshelve.
  all: try reflexivity.
  - constructor; [|constructor]. split; [|reflexivity]. split; [split; [discriminate|reflexivity]|].
    split; [discriminate|]. repeat constructor; discriminate.
  - split; [discriminate|reflexivity].
  - split; [discriminate|reflexivity].
  - apply Nat.leb_le. vm_compute. reflexivity.
Defined.
