(* ===== verification/Sdp.v ===== *)
(** * Opus parameters of the SDP offer: [relay/src/rtc/handshake.rs]

    [str0m] does not expose the format parameters of Opus, so the connector rewrites the
    offer it generates: [munge_opus_params] finds the Opus payload type, rewrites its
    [a=fmtp] lines with [merge_params], or inserts one behind its [a=rtpmap] line. *)

From S2P Require Import Prelude Text.

#[local] Arguments lit : simpl never.

Definition SDP_BITS_PER_KBPS : Z := 1024.

(** ** Lines *)

Definition LF : Z := 10.
Definition CR : Z := 13.
Definition is_eol (c : Z) : bool := (c =? CR) || (c =? LF).

Definition strip_suffix (s t : text) : option text := reverse <$> strip_prefix (reverse s) (reverse t).

(** [str::lines] *)
Definition line_of (line : text) : text :=
  match strip_suffix [LF] line with
  | None => line
  | Some l => default l (strip_suffix [CR] l)
  end.
Definition lines (t : text) : list text := line_of <$> split_inclusive LF t.

Fixpoint find_map {A B} (f : A → option B) (l : list A) : option B :=
  match l with
  | [] => None
  | x :: l => match f x with Some y => Some y | None => find_map f l end
  end.

(** ** Parameters *)

Definition parameter : Type := text * text.

Definition parse_parameter (p : text) : option parameter :=
  let trimmed := trim p in
  match trimmed with
  | [] => None
  | _ => Some (default (trimmed, []) (split_once (chr "=") trimmed))
  end.

Definition parse_params (existing : text) : list parameter :=
  omap parse_parameter (split (chr ";") existing).

(** [params.iter_mut().find(..)]: the first parameter of the name is replaced. *)
Fixpoint set_param (k v : text) (params : list parameter) : list parameter :=
  match params with
  | [] => [(k, v)]
  | (k', v') :: params => if bool_decide (k' = k) then (k', v) :: params
                          else (k', v') :: set_param k v params
  end.

Definition print_param (p : parameter) : text :=
  match p.2 with [] => p.1 | _ => p.1 ++ lit "=" ++ p.2 end.

Definition print_params (params : list parameter) : text := join (lit ";") (print_param <$> params).

Definition merge (wanted params : list parameter) : list parameter :=
  foldl (λ params p, set_param p.1 p.2 params) params wanted.

Definition merge_params (existing : text) (wanted : list parameter) : text :=
  print_params (merge wanted (parse_params existing)).

(** ** The offer *)

Definition opus_line (line : text) : option text :=
  rest ← strip_prefix (lit "a=rtpmap:") (trim line);
  '(pt, codec) ← split_once (chr " ") rest;
  if starts_with (lit "opus/") (to_ascii_lowercase codec) then Some pt else None.

Definition opus_pt (sdp : text) : option text := find_map opus_line (lines sdp).

Definition wanted_params (stereo : bool) (bitrate : Z) : list parameter :=
  let stereo_val := if stereo then lit "1" else lit "0" in
  [(lit "minptime", lit "10"); (lit "useinbandfec", lit "0"); (lit "sprop-stereo", stereo_val);
   (lit "stereo", stereo_val); (lit "maxaveragebitrate", decimal bitrate)].

Definition fmtp_prefix (pt : text) : text := lit "a=fmtp:" ++ pt ++ lit " ".
Definition rtpmap_prefix (pt : text) : text := lit "a=rtpmap:" ++ pt ++ lit " ".

(** [line.trim_end_matches(['\r', '\n'])], and what follows it. *)
Definition body (line : text) : text := trim_end_by is_eol line.
Definition eol (line : text) : text := drop (length (body line)) line.

Definition rewrite_line (pt : text) (wanted : list parameter) (line : text) : text :=
  match strip_prefix (fmtp_prefix pt) (body line) with
  | Some existing => fmtp_prefix pt ++ merge_params existing wanted ++ eol line
  | None => line
  end.

Definition has_fmtp (pt : text) (line : text) : bool := starts_with (fmtp_prefix pt) (body line).

Definition insert_fmtp (pt : text) (wanted : list parameter) (line : text) : text :=
  if starts_with (rtpmap_prefix pt) (body line)
  then line ++ fmtp_prefix pt ++ print_params wanted
       ++ (if ends_with [CR; LF] line then [CR; LF] else [LF])
  else line.

Definition munge_opus_params (sdp : text) (stereo : bool) (max_avg_bitrate_bits : Z) : text :=
  match opus_pt sdp with
  | None => sdp
  | Some pt =>
      let wanted := wanted_params stereo max_avg_bitrate_bits in
      let ls := split_inclusive LF sdp in
      let out := concat (rewrite_line pt wanted <$> ls) in
      if existsb (has_fmtp pt) ls then out
      else concat (insert_fmtp pt wanted <$> split_inclusive LF out)
  end.

Example munge_inserts :
  munge_opus_params (lit "m=audio" ++ [CR; LF] ++ lit "a=rtpmap:111 OPUS/48000/2" ++ [CR; LF]) true 131072
  = lit "m=audio" ++ [CR; LF] ++ lit "a=rtpmap:111 OPUS/48000/2" ++ [CR; LF]
    ++ lit "a=fmtp:111 minptime=10;useinbandfec=0;sprop-stereo=1;stereo=1;maxaveragebitrate=131072" ++ [CR; LF].
Proof. vm_compute. reflexivity. Qed.

Example munge_rewrites :
  munge_opus_params (lit "a=rtpmap:111 opus/48000/2" ++ [LF] ++ lit "a=fmtp:111 minptime=20; cbr=1;stereo=1" ++ [LF])
    false 65536
  = lit "a=rtpmap:111 opus/48000/2" ++ [LF]
    ++ lit "a=fmtp:111 minptime=10;cbr=1;stereo=0;useinbandfec=0;sprop-stereo=0;maxaveragebitrate=65536" ++ [LF].
Proof. vm_compute. reflexivity. Qed.

(** ** Parsing what was printed *)

Definition plain (t : text) : Prop := trim t = t.
Definition without (c : Z) (t : text) : Prop := Forall (λ d, d ≠ c) t.

(** A parameter that survives printing: its name is not empty, not padded and has no
    separator, and its value has no separator of parameters. *)
Record printable (p : parameter) : Prop := {
  printable_name : p.1 ≠ [] ∧ plain p.1;
  printable_eq : without (chr "=") p.1;
  printable_sep : without (chr ";") p.1 ∧ without (chr ";") p.2;
  printable_plain : p.2 ≠ [] → plain (p.1 ++ lit "=" ++ p.2);
}.

Lemma split_once_app c t u : without c t → split_once c (t ++ c :: u) = Some (t, u).
Proof.
  induction 1 as [|d t Hd _ IH]; cbn; [by rewrite Z.eqb_refl|].
  destruct (Z.eqb_spec d c); [done|]. by rewrite IH.
Qed.

Lemma split_once_Some c t a b :
  split_once c t = Some (a, b) → t = a ++ c :: b ∧ without c a.
Proof.
  revert a b. induction t as [|d t IH]; intros a b; cbn; [done|].
  destruct (Z.eqb_spec d c) as [->|Hd]; [intros [= <- <-]; by split; [|constructor]|].
  destruct (split_once c t) as [[a' b']|]; cbn; [|done]. intros [= <- <-].
  destruct (IH a' b' eq_refl) as [-> Ha]. split; [done|]. by constructor.
Qed.

Lemma split_once_None c t : split_once c t = None → without c t.
Proof.
  induction t as [|d t IH]; cbn; [constructor|]. destruct (Z.eqb_spec d c) as [->|Hd]; [done|].
  destruct (split_once c t) as [[a b]|]; cbn; [done|]. intros _. constructor; [done|]. by apply IH.
Qed.

Lemma split_pieces c t : Forall (without c) (split c t).
Proof.
  induction t as [|d t IH]; cbn; [repeat constructor|].
  destruct (Z.eqb_spec d c) as [->|Hd]; [by constructor; [constructor|]|].
  destruct (split c t) as [|p ps]; [repeat constructor; done|].
  inversion IH; subst. constructor; [by constructor|done].
Qed.

Lemma trim_Forall (P : Z → Prop) t : Forall P t → Forall P (trim t).
Proof.
  intros Ht. unfold trim, trim_by, trim_end_by. apply Forall_reverse, trim_start_by_Forall.
  by apply Forall_reverse, trim_start_by_Forall.
Qed.

(** Trimming is idempotent. *)
Lemma trim_start_idem f t : trim_start_by f (trim_start_by f t) = trim_start_by f t.
Proof. induction t as [|c t IH]; cbn; [done|]. destruct (f c) eqn:E; [done|]. cbn. by rewrite E. Qed.

Lemma trim_start_prefix f t u : trim_start_by f t = t → u `prefix_of` t → trim_start_by f u = u.
Proof.
  intros Ht [k ->]. destruct u as [|c u]; [done|]. cbn in *. destruct (f c); [|done].
  exfalso. assert (length (trim_start_by f (u ++ k)) ≤ length (u ++ k))%nat as Hl.
  { clear. induction (u ++ k) as [|c l IH]; cbn; [done|]. case_match; cbn; lia. }
  rewrite Ht in Hl. cbn in Hl. lia.
Qed.

Lemma trim_start_suffix f t : trim_start_by f t `suffix_of` t.
Proof.
  induction t as [|c t IH]; cbn; [done|]. case_match; [|done]. by apply suffix_cons_r.
Qed.

Lemma trim_plain t : plain (trim t).
Proof.
  unfold plain, trim, trim_by, trim_end_by. set (f := is_whitespace).
  set (u := trim_start_by f t).
  assert (trim_start_by f (reverse (trim_start_by f (reverse u))) = reverse (trim_start_by f (reverse u))) as ->.
  { apply (trim_start_prefix f u); [apply trim_start_idem|].
    destruct (trim_start_suffix f (reverse u)) as [k Hk]. exists (reverse k).
    by rewrite <- (reverse_involutive u), Hk at 1; rewrite reverse_app. }
  rewrite reverse_involutive. f_equal. apply trim_start_idem.
Qed.

Lemma parse_print_param p : printable p → parse_parameter (print_param p) = Some p.
Proof.
  destruct p as [k v]. intros [[Hk Hp] He _ Hpv]. cbn [fst snd] in *.
  unfold parse_parameter, print_param. cbn [fst snd].
  destruct v as [|c v].
  - unfold plain in Hp. rewrite Hp. destruct k as [|d k]; [done|].
    by rewrite split_once_absent.
  - specialize (Hpv ltac:(done)). unfold plain in Hpv. rewrite Hpv.
    change (lit "=" ++ c :: v) with (chr "=" :: c :: v). rewrite split_once_app by done.
    by destruct k.
Qed.

Lemma print_param_without p : printable p → without (chr ";") (print_param p).
Proof.
  intros [_ _ [H1 H2] _]. unfold print_param. destruct (p.2) as [|c v]; [done|].
  apply Forall_app. split; [done|]. by constructor.
Qed.

(** Printing parameters and parsing them is the identity. *)
Lemma parse_print_params l : l ≠ [] → Forall printable l → parse_params (print_params l) = l.
Proof.
  intros Hne Hl. unfold parse_params, print_params. change (lit ";") with [chr ";"].
  rewrite split_join.
  - clear Hne. induction Hl as [|p l Hp Hl IH]; [done|]. cbn. by rewrite parse_print_param, IH.
  - by destruct l.
  - apply Forall_map. eapply Forall_impl; [done|]. cbn. apply print_param_without.
Qed.

(** The parameters of a line whose names are neither empty nor padded. *)
Definition well_named (existing : text) : Prop :=
  Forall (λ p, p.1 ≠ [] ∧ plain p.1) (parse_params existing).

Lemma parsed_printable existing : well_named existing → Forall printable (parse_params existing).
Proof.
  unfold well_named, parse_params. pose proof (split_pieces (chr ";") existing) as Hs.
  induction Hs as [|q qs Hq Hs IH]; [constructor|]. cbn [omap list_omap].
  destruct (parse_parameter q) as [[k v]|] eqn:E; [|done]. intros [Hk Hks]%Forall_cons.
  constructor; [|by apply IH].
  pose proof (trim_Forall _ _ Hq) as Hsep. pose proof (trim_plain q) as Hplain.
  unfold parse_parameter in E. revert Hsep Hplain E. generalize (trim q). intros u Hsep Hplain E.
  destruct u as [|c u]; [done|]. remember (c :: u) as t eqn:Et.
  destruct (split_once (chr "=") t) as [[a b]|] eqn:E1; injection E as E2 E3; subst k v.
  - apply split_once_Some in E1 as [-> Ha].
    apply Forall_app in Hsep as [S1 S2]. apply Forall_cons in S2 as [_ S2]. by constructor.
  - apply split_once_None in E1. constructor; [done|done|split; [done|constructor]|done].
Qed.

(** ** Merging *)

Fixpoint value_of (k : text) (l : list parameter) : option text :=
  match l with
  | [] => None
  | (k', v) :: l => if bool_decide (k' = k) then Some v else value_of k l
  end.

Lemma value_of_set k v l k' :
  value_of k' (set_param k v l) = if bool_decide (k' = k) then Some v else value_of k' l.
Proof.
  induction l as [|[k1 v1] l IH]; cbn.
  - destruct (decide (k' = k)) as [->|Hne]; [by rewrite !bool_decide_true|].
    by rewrite !bool_decide_false by congruence.
  - destruct (decide (k1 = k)) as [->|Hne].
    + rewrite (bool_decide_true (k = k)) by done. cbn. repeat case_bool_decide; congruence.
    + rewrite (bool_decide_false (k1 = k)) by done. cbn. rewrite IH.
      repeat case_bool_decide; congruence.
Qed.

Lemma set_param_printable k v l :
  printable (k, v) → Forall printable l → Forall printable (set_param k v l).
Proof.
  intros Hkv. induction 1 as [|[k1 v1] l Hp Hl IH]; cbn; [by constructor|].
  case_bool_decide; subst; by constructor.
Qed.

Lemma set_param_not_nil k v l : set_param k v l ≠ [].
Proof. destruct l as [|[k1 v1] l]; cbn; [done|]. by case_bool_decide. Qed.

Lemma merge_printable wanted l :
  Forall printable wanted → Forall printable l → Forall printable (merge wanted l).
Proof.
  intros Hw. revert l. induction Hw as [|[k v] w Hp Hw IH]; intros l Hl; [done|].
  apply IH, set_param_printable; done.
Qed.

Lemma merge_not_nil wanted l : wanted ≠ [] → merge wanted l ≠ [].
Proof.
  intros Hw. destruct wanted as [|[k v] w]; [done|]. clear Hw. cbn.
  pose proof (set_param_not_nil k v l) as Hne. revert Hne. generalize (set_param k v l). clear l.
  induction w as [|[k1 v1] w IH]; intros l Hl; [done|]. apply IH, set_param_not_nil.
Qed.

(** A wanted parameter has the wanted value; any other keeps its own. *)
Lemma value_of_merge wanted l k :
  NoDup wanted.*1 →
  value_of k (merge wanted l) = match value_of k wanted with Some v => Some v | None => value_of k l end.
Proof.
  revert l. induction wanted as [|[k1 v1] w IH]; intros l Hn; [done|].
  apply NoDup_cons in Hn as [Hk1 Hn]. cbn. etrans; [by apply (IH (set_param k1 v1 l))|].
  rewrite value_of_set. destruct (decide (k = k1)) as [->|Hne].
  - rewrite !bool_decide_true by done. destruct (value_of k1 w) eqn:E; [|done].
    exfalso. apply Hk1. clear - E. induction w as [|[k v] w IH]; cbn in *; [done|].
    case_bool_decide; subst; [left|right; by apply IH].
  - rewrite (bool_decide_false (k = k1)), (bool_decide_false (k1 = k)) by congruence. done.
Qed.

(** What a receiver reads of merged parameters. *)
Lemma parse_merge_params existing wanted :
  wanted ≠ [] → Forall printable wanted → well_named existing →
  parse_params (merge_params existing wanted) = merge wanted (parse_params existing).
Proof.
  intros Hne Hw Hn. unfold merge_params. apply parse_print_params; [by apply merge_not_nil|].
  apply merge_printable; [done|]. by apply parsed_printable.
Qed.

(** ** The parameters a profile wants *)

Lemma decimal_fuel_Forall fuel z acc :
  0 ≤ z → Forall (λ c, 48 ≤ c ≤ 57) acc → Forall (λ c, 48 ≤ c ≤ 57) (decimal_fuel fuel z acc).
Proof.
  revert z acc. induction fuel as [|fuel IH]; intros z acc Hz Hacc; cbn; [done|].
  pose proof (Z.mod_pos_bound z 10 ltac:(lia)).
  assert (Forall (λ c, 48 ≤ c ≤ 57) ((48 + z mod 10) :: acc)) by (constructor; [lia|done]).
  case_match; bool_props.
  - constructor; [lia|done].
  - apply IH; [apply Z.div_pos; lia|done].
Qed.

(** A character of the names and values the connector writes. *)
Definition simple (c : Z) : bool :=
  negb (is_whitespace c) && negb (c =? chr "=") && negb (c =? chr ";").

Lemma simple_printable k v : k ≠ [] → forallb simple k = true → forallb simple v = true → printable (k, v).
Proof.
  intros Hk Sk Sv.
  assert (∀ t, forallb simple t = true →
    Forall (λ c, is_whitespace c = false) t ∧ without (chr "=") t ∧ without (chr ";") t) as Hs.
  { intros t. induction t as [|c t IH]; [repeat constructor|]. cbn. intros [Hc Ht]%andb_prop.
    destruct (IH Ht) as (? & ? & ?). unfold simple in Hc. bool_props. by repeat constructor. }
  destruct (Hs k Sk) as (K1 & K2 & K3), (Hs v Sv) as (V1 & V2 & V3).
  constructor; cbn; [split; [done|by apply trim_by_id]|done|done|].
  intros _. apply trim_by_id. apply Forall_app. split; [done|]. constructor; [done|done].
Qed.

Lemma decimal_simple z : 0 ≤ z → forallb simple (decimal z) = true.
Proof.
  intros Hz. apply forallb_forall. intros c Hc.
  pose proof (decimal_fuel_Forall (S (Z.to_nat (Z.log2 z))) z [] Hz ltac:(constructor)) as Hd.
  rewrite Forall_forall in Hd. specialize (Hd c ltac:(by apply list_elem_of_In)).
  assert (c ∈ seqZ 48 10) as Hin by (apply elem_of_seqZ; cbn in Hd; lia).
  clear Hc Hd. revert c Hin. apply Forall_forall. by repeat constructor.
Qed.

Lemma wanted_printable stereo bitrate :
  0 ≤ bitrate → Forall printable (wanted_params stereo bitrate).
Proof.
  intros Hb. unfold wanted_params.
  repeat (apply Forall_cons; split; [apply simple_printable; [done|reflexivity|]|]);
    [reflexivity..| | | |apply Forall_nil_2].
  - by destruct stereo.
  - by destruct stereo.
  - by apply decimal_simple.
Qed.

(** ** The lines of an offer *)

(** A line without its end, and whether it ends in CRLF or in LF. *)
Definition offer_line : Type := text * bool.
Definition render_line (l : offer_line) : text := l.1 ++ (if l.2 then [CR; LF] else [LF]).
Definition render (ls : list offer_line) : text := concat (render_line <$> ls).

(** A line has no line end inside, and no blanks around. *)
Definition offer_body (l : offer_line) : Prop := Forall (λ c, is_eol c = false) l.1 ∧ plain l.1.

Definition fmtp_of (pt : text) (l : offer_line) : option text := strip_prefix (fmtp_prefix pt) l.1.

Lemma split_inclusive_line c t u :
  without c t → split_inclusive c (t ++ c :: u) = (t ++ [c]) :: split_inclusive c u.
Proof.
  induction 1 as [|d t Hd _ IH]; cbn; [by rewrite Z.eqb_refl|].
  destruct (Z.eqb_spec d c); [done|]. by rewrite IH.
Qed.

Lemma eol_free t : Forall (λ c, is_eol c = false) t → without LF t ∧ without CR t.
Proof.
  intros Ht. split; (eapply Forall_impl; [exact Ht|]); unfold is_eol; cbn; intros c Hc ->; done.
Qed.

Lemma split_render_line l u :
  offer_body l → split_inclusive LF (render_line l ++ u) = render_line l :: split_inclusive LF u.
Proof.
  destruct l as [b crlf]. intros [Hb _]. apply eol_free in Hb as [Hb _]. cbn [fst] in Hb.
  unfold render_line. cbn [fst snd]. destruct crlf; rewrite <- app_assoc; cbn [app].
  - change (b ++ CR :: LF :: u) with (b ++ [CR] ++ LF :: u). rewrite app_assoc, split_inclusive_line.
    + by rewrite <- app_assoc.
    + apply Forall_app. split; [done|]. by repeat constructor.
  - by rewrite split_inclusive_line.
Qed.

Lemma split_render ls : Forall offer_body ls → split_inclusive LF (render ls) = render_line <$> ls.
Proof.
  induction 1 as [|l ls Hl _ IH]; [done|]. unfold render in *. cbn [fmap list_fmap concat].
  by rewrite split_render_line, IH.
Qed.

Lemma trim_start_prefix_app f p t :
  Forall (λ c, f c = true) p → (∀ c u, t = c :: u → f c = false) → trim_start_by f (p ++ t) = t.
Proof.
  intros Hp Ht. induction Hp as [|c p Hc _ IH]; cbn; [|by rewrite Hc].
  destruct t as [|c t]; [done|]. cbn. by rewrite (Ht c t).
Qed.

Lemma body_render l : offer_body l → body (render_line l) = l.1.
Proof.
  destruct l as [b crlf]. intros [Hb _]. cbn [fst] in *. unfold body, trim_end_by, render_line.
  cbn [fst snd]. rewrite reverse_app, trim_start_prefix_app; [apply reverse_involutive| |].
  - by destruct crlf; repeat constructor.
  - intros c u E. apply Forall_reverse in Hb. rewrite E in Hb. by apply Forall_cons in Hb as [Hb _].
Qed.

Lemma eol_render l : offer_body l → eol (render_line l) = if l.2 then [CR; LF] else [LF].
Proof.
  intros Hl. unfold eol. rewrite (body_render l Hl). unfold render_line. by rewrite drop_app_length.
Qed.

Lemma strip_suffix_app s t : strip_suffix s (t ++ s) = Some t.
Proof.
  unfold strip_suffix. rewrite reverse_app.
  assert (∀ p u, strip_prefix p (p ++ u) = Some u) as ->.
  { intros p u. induction p as [|c p IH]; cbn; [by destruct u|]. by rewrite Z.eqb_refl. }
  cbn. by rewrite reverse_involutive.
Qed.

Lemma line_of_render l : offer_body l → line_of (render_line l) = l.1.
Proof.
  destruct l as [b crlf]. intros [Hb _]. apply eol_free in Hb as [_ Hb]. cbn [fst] in *.
  unfold line_of, render_line. cbn [fst snd]. destruct crlf.
  - change (b ++ [CR; LF]) with (b ++ [CR] ++ [LF]). by rewrite app_assoc, !strip_suffix_app.
  - rewrite strip_suffix_app. unfold strip_suffix. change (reverse [CR]) with [CR].
    destruct (reverse b) as [|c r] eqn:E; [done|]. cbn [strip_prefix].
    destruct (Z.eqb_spec CR c) as [<-|]; [|done].
  exfalso. apply Forall_reverse in Hb. rewrite E in Hb. by apply Forall_cons in Hb as [Hb _].
Qed.

Lemma lines_render ls : Forall offer_body ls → lines (render ls) = ls.*1.
Proof.
  intros Hls. unfold lines. rewrite split_render by done. rewrite <- list_fmap_compose.
  induction Hls as [|l ls Hl _ IH]; [done|]. cbn. rewrite IH. f_equal. by apply line_of_render.
Qed.

Lemma ends_crlf l : offer_body l → ends_with [CR; LF] (render_line l) = l.2.
Proof.
  destruct l as [b crlf]. intros [Hb _]. apply eol_free in Hb as [_ Hb]. cbn [fst] in *.
  unfold ends_with, starts_with, render_line. cbn [fst snd]. rewrite reverse_app. change (reverse [CR; LF]) with [LF; CR].
  destruct crlf; [by destruct (reverse b)|].
  change (reverse [LF] ++ reverse b) with (LF :: reverse b).
  destruct (reverse b) as [|c r] eqn:E; [done|]. cbn [strip_prefix]. rewrite Z.eqb_refl.
  destruct (Z.eqb_spec CR c) as [<-|]; [|done].
  exfalso. apply Forall_reverse in Hb. rewrite E in Hb. by apply Forall_cons in Hb as [Hb _].
Qed.

(** ** The rewritten offer *)

Section Rewrite.
Context (pt : text) (wanted : list parameter).

Definition rewrite_offer (l : offer_line) : offer_line :=
  match fmtp_of pt l with
  | Some existing => (fmtp_prefix pt ++ merge_params existing wanted, l.2)
  | None => l
  end.

Definition insert_offer (l : offer_line) : list offer_line :=
  if starts_with (rtpmap_prefix pt) l.1
  then [l; (fmtp_prefix pt ++ print_params wanted, l.2)] else [l].

Lemma strip_prefix_app p t : strip_prefix p (p ++ t) = Some t.
Proof. induction p as [|c p IH]; cbn; [by destruct t|]. by rewrite Z.eqb_refl. Qed.

Lemma rewrite_render ls :
  Forall offer_body ls →
  concat (rewrite_line pt wanted <$> (render_line <$> ls)) = render (rewrite_offer <$> ls).
Proof.
  unfold render. induction 1 as [|l ls Hl _ IH]; [done|]. cbn [fmap list_fmap concat]. rewrite <- IH.
  f_equal. unfold rewrite_line, rewrite_offer, fmtp_of. rewrite (body_render l Hl).
  destruct (strip_prefix _ l.1); [|done]. rewrite (eol_render l Hl). unfold render_line. cbn [fst snd].
  by rewrite <- app_assoc.
Qed.

Lemma insert_render ls :
  Forall offer_body ls →
  concat (insert_fmtp pt wanted <$> (render_line <$> ls)) = render (ls ≫= insert_offer).
Proof.
  unfold render. induction 1 as [|l ls Hl _ IH]; [done|].
  change ((l :: ls) ≫= insert_offer) with (insert_offer l ++ (ls ≫= insert_offer)).
  rewrite fmap_app, concat_app. cbn [fmap list_fmap concat] in IH |- *. rewrite <- IH. f_equal.
  unfold insert_fmtp, insert_offer. rewrite (body_render l Hl).
  destruct (starts_with _ l.1); cbn; [|by rewrite app_nil_r].
  rewrite (ends_crlf l Hl), app_nil_r. unfold render_line. cbn [fst snd].
  by rewrite <- !app_assoc.
Qed.

Lemma has_fmtp_render ls :
  Forall offer_body ls →
  existsb (has_fmtp pt) (render_line <$> ls) = existsb (λ l, bool_decide (is_Some (fmtp_of pt l))) ls.
Proof.
  induction 1 as [|l ls Hl _ IH]; [done|]. cbn [fmap list_fmap existsb]. rewrite IH. f_equal.
  unfold has_fmtp, starts_with, fmtp_of. rewrite (body_render l Hl).
  destruct (strip_prefix _ l.1); [by rewrite bool_decide_true|]. by rewrite bool_decide_false by (by intros []).
Qed.

Lemma rewrite_offer_none ls :
  Forall (λ l, fmtp_of pt l = None) ls → rewrite_offer <$> ls = ls.
Proof.
  induction 1 as [|l ls Hl _ IH]; [done|]. cbn. rewrite IH. unfold rewrite_offer. by rewrite Hl.
Qed.

(** From [ls] to [ls'] only the parameters of the Opus format change: the other lines are
    the same, there is a format line, every one has the wanted values, and keeps the other
    parameters of the line it was, if the offer had one. *)
Record declares (ls ls' : list offer_line) : Prop := {
  declares_rest : filter (λ l, fmtp_of pt l = None) ls' = filter (λ l, fmtp_of pt l = None) ls;
  declares_some : Exists (λ l, is_Some (fmtp_of pt l)) ls';
  declares_wanted l e k v :
    l ∈ ls' → fmtp_of pt l = Some e → value_of k wanted = Some v → value_of k (parse_params e) = Some v;
  declares_others l e :
    l ∈ ls' → fmtp_of pt l = Some e →
    (∃ l0 e0, l0 ∈ ls ∧ fmtp_of pt l0 = Some e0
       ∧ ∀ k, value_of k wanted = None → value_of k (parse_params e) = value_of k (parse_params e0))
    ∨ Forall (λ l, fmtp_of pt l = None) ls ∧ parse_params e = wanted;
}.

Context (Hne : wanted ≠ []) (Hw : Forall printable wanted) (Hnd : NoDup wanted.*1).

Lemma declares_rewrite ls :
  Exists (λ l, is_Some (fmtp_of pt l)) ls →
  (∀ l e, l ∈ ls → fmtp_of pt l = Some e → well_named e) →
  declares ls (rewrite_offer <$> ls).
Proof.
  intros Hex Hwn.
  assert (∀ l e, fmtp_of pt (rewrite_offer l) = Some e →
    ∃ e0, fmtp_of pt l = Some e0 ∧ e = merge_params e0 wanted) as Hback.
  { intros l e. unfold rewrite_offer. destruct (fmtp_of pt l) as [e0|] eqn:E; [|congruence].
    unfold fmtp_of. cbn. rewrite strip_prefix_app. intros [= <-]. eauto. }
  assert (∀ l e, l ∈ rewrite_offer <$> ls → fmtp_of pt l = Some e →
    ∃ l0 e0, l0 ∈ ls ∧ fmtp_of pt l0 = Some e0 ∧ parse_params e = merge wanted (parse_params e0)) as Hline.
  { intros l e (l0 & -> & Hin)%list_elem_of_fmap (e0 & He0 & ->)%Hback. exists l0, e0.
    split; [done|]. split; [done|]. apply parse_merge_params; [done|done|by eapply Hwn]. }
  constructor.
  - clear Hex Hwn Hline. induction ls as [|l ls IH]; [done|]. cbn [fmap list_fmap]. rewrite !filter_cons, IH.
    unfold rewrite_offer. destruct (fmtp_of pt l) as [e|] eqn:E.
    + rewrite !decide_False; [done|done|]. unfold fmtp_of. cbn. by rewrite strip_prefix_app.
    + by rewrite E.
  - apply Exists_exists in Hex as (l & Hin & e & He). apply Exists_exists. exists (rewrite_offer l).
    split; [by apply list_elem_of_fmap_2|]. unfold rewrite_offer. rewrite He. unfold fmtp_of. cbn.
    by rewrite strip_prefix_app.
  - intros l e k v Hin He Hv. destruct (Hline l e Hin He) as (l0 & e0 & _ & _ & ->).
    rewrite value_of_merge by done. by rewrite Hv.
  - intros l e Hin He. left. destruct (Hline l e Hin He) as (l0 & e0 & H1 & H2 & H3).
    exists l0, e0. split; [done|]. split; [done|]. intros k Hk. rewrite H3, value_of_merge by done. by rewrite Hk.
Qed.

Lemma declares_insert ls :
  Forall (λ l, fmtp_of pt l = None) ls →
  Exists (λ l, starts_with (rtpmap_prefix pt) l.1 = true) ls →
  declares ls (ls ≫= insert_offer).
Proof.
  intros Hnone Hex.
  assert (∀ b, fmtp_of pt (fmtp_prefix pt ++ print_params wanted, b) = Some (print_params wanted)) as Hf.
  { intros b. unfold fmtp_of. apply strip_prefix_app. }
  assert (∀ l e, l ∈ ls ≫= insert_offer → fmtp_of pt l = Some e → parse_params e = wanted) as Hline.
  { intros l e (l0 & Hin & Hl0)%list_elem_of_bind He. unfold insert_offer in Hin.
    rewrite Forall_forall in Hnone. specialize (Hnone l0 Hl0).
    assert (l = l0 ∨ e = print_params wanted) as [->| ->].
    { case_match; repeat (apply elem_of_cons in Hin as [->|Hin]); try by apply not_elem_of_nil in Hin.
      - by left.
      - right. rewrite Hf in He. congruence.
      - by left. }
    - congruence.
    - by apply parse_print_params. }
  constructor.
  - clear Hex Hline. induction Hnone as [|l ls Hl Hnone IH]; [done|].
    change ((l :: ls) ≫= insert_offer) with (insert_offer l ++ (ls ≫= insert_offer)).
    rewrite filter_app, IH, filter_cons_True by done. unfold insert_offer. case_match.
    + rewrite filter_cons_True, filter_cons_False by (done || by rewrite Hf). done.
    + by rewrite filter_cons_True.
  - apply Exists_exists in Hex as (l & Hin & Hl). apply Exists_exists.
    exists (fmtp_prefix pt ++ print_params wanted, l.2). split; [|by rewrite Hf].
    apply list_elem_of_bind. exists l. split; [|done]. unfold insert_offer. rewrite Hl. right. left.
  - intros l e k v Hin He Hv. by rewrite (Hline l e Hin He).
  - intros l e Hin He. right. split; [done|]. by eapply Hline.
Qed.
End Rewrite.

Lemma find_map_Some {A B} (f : A → option B) l y :
  find_map f l = Some y → ∃ x, x ∈ l ∧ f x = Some y.
Proof.
  induction l as [|x l IH]; cbn; [done|]. destruct (f x) as [y'|] eqn:E.
  - intros [= ->]. exists x. split; [left|done].
  - intros (x' & Hx & Hf)%IH. exists x'. split; [by right|done].
Qed.

Lemma opus_line_rtpmap b pt : plain b → opus_line b = Some pt → starts_with (rtpmap_prefix pt) b = true.
Proof.
  intros Hb. unfold opus_line. rewrite Hb.
  destruct (strip_prefix (lit "a=rtpmap:") b) as [rest|] eqn:E1; cbn [mbind option_bind]; [|done].
  destruct (split_once (chr " ") rest) as [[pt' codec]|] eqn:E2; cbn [mbind option_bind]; [|done].
  destruct (starts_with _ _); [|done]. intros [= <-].
  apply strip_prefix_Some in E1 as ->. apply split_once_Some in E2 as [-> _].
  unfold starts_with, rtpmap_prefix.
  change (chr " " :: codec) with (lit " " ++ codec).
  replace (lit "a=rtpmap:" ++ pt' ++ lit " " ++ codec)
    with ((lit "a=rtpmap:" ++ pt' ++ lit " ") ++ codec) by by rewrite <- !app_assoc.
  by rewrite strip_prefix_app.
Qed.

Lemma wanted_distinct stereo bitrate : NoDup (wanted_params stereo bitrate).*1.
Proof. cbn. apply (bool_decide_unpack _). vm_compute. exact I. Qed.

(** C23: The offer that is sent declares the profile.  For an offer of lines ending in LF or
    CRLF without blanks around them: without an Opus codec it is unchanged; with one, only
    its Opus format line changes or is added, in place or behind the rtpmap line, with the
    line ends as they were, and a receiver that parses the format line reads the wanted
    channel layout, frame and bitrate hints, and the other parameters as they were. *)
Theorem munge_declares_profile (ls : list offer_line) (stereo : bool) (bitrate : Z)
  (Hls : Forall offer_body ls) (Hb : 0 ≤ bitrate)
  (Hwn : ∀ pt l e, opus_pt (render ls) = Some pt → l ∈ ls → fmtp_of pt l = Some e → well_named e) :
  match opus_pt (render ls) with
  | None => munge_opus_params (render ls) stereo bitrate = render ls
  | Some pt => ∃ ls', munge_opus_params (render ls) stereo bitrate = render ls'
      ∧ declares pt (wanted_params stereo bitrate) ls ls'
  end.
Proof.
  unfold munge_opus_params. destruct (opus_pt (render ls)) as [pt|] eqn:Ept; [|done].
  pose proof (wanted_printable stereo bitrate Hb) as Hw. pose proof (wanted_distinct stereo bitrate) as Hnd.
  set (wanted := wanted_params stereo bitrate) in *. assert (wanted ≠ []) as Hne by done.
  cbv zeta. rewrite (split_render ls Hls), (rewrite_render pt wanted ls Hls), (has_fmtp_render pt ls Hls).
  destruct (existsb _ ls) eqn:E.
  - exists (rewrite_offer pt wanted <$> ls). split; [done|].
    apply declares_rewrite; [done|done|done| |by intros; eapply Hwn].
    apply existsb_exists in E as (l & Hin & Hl). apply bool_decide_eq_true in Hl.
    apply Exists_exists. exists l. by rewrite <- list_elem_of_In in Hin.
  - assert (Forall (λ l, fmtp_of pt l = None) ls) as Hnone.
    { apply Forall_forall. intros l Hin. destruct (fmtp_of pt l) as [e|] eqn:El; [|done].
      assert (existsb (λ l, bool_decide (is_Some (fmtp_of pt l))) ls = true) as E'; [|congruence].
      apply existsb_exists. exists l. split; [by apply list_elem_of_In|].
      apply bool_decide_eq_true. by exists e. }
    rewrite (rewrite_offer_none pt wanted ls Hnone), (split_render ls Hls), (insert_render pt wanted ls Hls).
    exists (ls ≫= insert_offer pt wanted). split; [done|]. apply declares_insert; [done|done|done|].
    unfold opus_pt in Ept. rewrite (lines_render ls Hls) in Ept.
    apply find_map_Some in Ept as (b & (l & -> & Hin)%list_elem_of_fmap & Hl).
    apply Exists_exists. exists l. split; [done|]. apply opus_line_rtpmap; [|done].
    rewrite Forall_forall in Hls. apply (Hls l Hin).
Qed.

(** A missing line end glues the format line to the rtpmap line. *)
Example munge_unterminated :
  munge_opus_params (lit "a=rtpmap:111 opus/48000/2") true 131072
  = lit "a=rtpmap:111 opus/48000/2a=fmtp:111 minptime=10;useinbandfec=0;sprop-stereo=1;stereo=1;maxaveragebitrate=131072"
    ++ [LF].
Proof. vm_compute. reflexivity. Qed.

Definition sample_offer : list offer_line :=
  [(lit "m=audio 9 UDP/TLS/RTP/SAVPF 111", true); (lit "a=rtpmap:111 opus/48000/2", true);
   (lit "a=fmtp:111 minptime=20;cbr=1", true)].

Lemma munge_declares_profile_witness :
  opus_pt (render sample_offer) = Some (lit "111") ∧
  ∃ ls', munge_opus_params (render sample_offer) false 65536 = render ls'
    ∧ declares (lit "111") (wanted_params false 65536) sample_offer ls'.
Proof.
  assert (opus_pt (render sample_offer) = Some (lit "111")) as E by (vm_compute; reflexivity).
  split; [exact E|].
  pose proof (munge_declares_profile sample_offer false 65536) as H. rewrite E in H. apply H.
  - repeat (apply Forall_cons; split; [split; [repeat constructor|reflexivity]|]). apply Forall_nil_2.
  - discriminate.
  - intros pt l e Ept Hin He. injection Ept as <-.
    apply elem_of_cons in Hin as [->|Hin]; [discriminate He|].
    apply elem_of_cons in Hin as [->|Hin]; [discriminate He|].
    apply elem_of_cons in Hin as [->|Hin]; [|by apply not_elem_of_nil in Hin].
    vm_compute in He. injection He as <-. repeat constructor; discriminate.
Defined.
