(* ===== verification/Handshake.v ===== *)
(** * The ICE/DTLS handshakes: [relay/src/rtc/handshake.rs]

    [run_handshake] (publisher) and [run_subscriber_handshake] bind a socket, find out the
    local and the server-reflexive address, offer the media over the signaling WebSocket,
    apply the answer and drive the engine until it is connected or the startup deadline
    passes.  Both have an unbounded wait for the answer and a loop over the engine's
    outputs; the definitions take the number of messages and of rounds they may use, and
    theorems say that enough rounds exist.

    The world is that of the engine ([Rtc]) and of the connection ([ProxyEnv]); both see
    one clock. *)

From S2P Require Import Prelude Env Text Extern Errors Encoder Proxy Config Transport WebRtc Stun Sdp.

#[local] Arguments lit : simpl never.

(** ** Addresses *)

Inductive IpAddr : Type := IpV4 (a : Z) | IpV6 (a : Z).
Record SocketAddr : Type := mkSocketAddr { addr_ip : IpAddr; addr_port : Z }.

#[export] Instance IpAddr_eq_dec : EqDecision IpAddr.
Proof. solve_decision. Defined.
#[export] Instance SocketAddr_eq_dec : EqDecision SocketAddr.
Proof. solve_decision. Defined.

Definition ip_is_loopback (ip : IpAddr) : bool :=
  match ip with IpV4 a => ipv4_is_loopback a | IpV6 a => ipv6_is_loopback a end.
Definition ip_is_unspecified (ip : IpAddr) : bool :=
  match ip with IpV4 a | IpV6 a => a =? 0 end.
Definition is_ipv4 (s : SocketAddr) : bool :=
  match addr_ip s with IpV4 _ => true | IpV6 _ => false end.

(** [iter().find(is_ipv4).or_else(first)] *)
Definition prefer_ipv4 (l : list SocketAddr) : option SocketAddr :=
  match find is_ipv4 l with Some a => Some a | None => head l end.

(** ** Strings *)

(** [str::trim_start_matches] for a string. *)
Fixpoint trim_start_matches_fuel (fuel : nat) (p t : text) : text :=
  match fuel with
  | O => t
  | S fuel => match strip_prefix p t with
              | Some rest => trim_start_matches_fuel fuel p rest
              | None => t
              end
  end.
Definition trim_start_matches (p t : text) : text := trim_start_matches_fuel (length t) p t.

(** [str::replacen(p, r, 1)] *)
Fixpoint replace_first (p r t : text) : text :=
  match strip_prefix p t with
  | Some rest => r ++ rest
  | None => match t with [] => [] | c :: t => c :: replace_first p r t end
  end.

(** The authority [probe_local_ip] resolves. *)
Definition relay_authority (relay_url : text) : text :=
  let host_part := trim_start_matches (lit "ws://") (trim_start_matches (lit "wss://")
    (trim_start_matches (lit "http://") (trim_start_matches (lit "https://") relay_url))) in
  let host_and_port := default host_part (head (split (chr "/") host_part)) in
  if existsb (λ c, c =? chr ":") host_and_port then host_and_port else host_and_port ++ lit ":80".

Definition signal_url (relay_url : text) : text :=
  replace_first (lit "http://") (lit "ws://") (replace_first (lit "https://") (lit "wss://") relay_url)
  ++ lit "/v1/signal".

Definition stun_endpoint (authority : text) : text :=
  match rsplit_once (chr ":") authority with
  | Some _ => authority
  | None => authority ++ lit ":3478"
  end.

(** ** The world of a handshake *)

Record PublishMedia : Type := mkPublishMedia {
  stereo : bool;
  max_avg_bitrate_kbps : Z;
  stream_id : text;
}.

Inductive Direction : Type := SendOnly | RecvOnly.

(** What a handshake hands over; the socket and the engine are the world's. *)
Record HandshakeResult : Type := mkHandshake {
  handshake_ws : Ws;
  mids : list Mid;
  bound_addr : SocketAddr;
}.

Class HandshakeEnv (W : Type) : Type := {
  hs_proxy :: ProxyEnv W;
  hs_resolver :: Resolver W;
  hs_rtc :: Rtc W;
  hs_sockets :: WebSockets W;
  hs_json :: SignalingJson;
  (** one clock *)
  hs_clock : @proxy_clock W hs_proxy = @rtc_clock W hs_rtc;
  hs_environment : string → option text;
  (** an address of the resolver *)
  socket_addr : Addr → SocketAddr;
  (** [UdpSocket::bind("0.0.0.0:0")], [set_read_timeout], [local_addr] *)
  udp_bind : W → bool * W;
  udp_set_read_timeout : Z → W → bool * W;
  udp_local_port : W → option Z * W;
  (** the local address of a socket connected to another *)
  probe_socket_ip : SocketAddr → W → option IpAddr * W;
  udp_send_to : list Z → SocketAddr → W → bool * W;
  (** [recv_from] into the STUN buffer: at most its length *)
  stun_recv_from : W → option (list Z) * W;
  rtc_build : W → W;
  (** [Candidate::host] and [Candidate::server_reflexive], and [add_local_candidate] *)
  host_candidate : SocketAddr → option text;
  server_reflexive : SocketAddr → SocketAddr → option text;
  add_local_candidate : text → W → W;
  (** on the [sdp_api]: [add_media] with a stream and track id, and [apply] with the offer as
      a string *)
  sdp_add_media : Direction → text → W → Mid * W;
  sdp_apply : W → option text * W;
  (** [SdpAnswer::from_sdp_string] and [accept_answer] *)
  parse_answer : text → bool;
  accept_answer : text → W → bool * W;
}.

(** An index out of bounds unwinds the thread. *)
Definition panicked : BoxedError := Message "index out of bounds".

Section Handshake.
Context {Url W : Type} `{UrlLib Url, HandshakeEnv W}.
Local Abbreviation bio := (io W BoxedError).

Definition clock_now : bio Z := io_lift (@now W (@rtc_clock W hs_rtc)).

(** [operation.ok_or(..)?] *)
Definition require {A} (m : string) (call : W → option A * W) : bio A :=
  a ← io_lift call; io_result (ok_or (Message m) a).

Definition cancel_handshake (h : HandshakeResult) (session_id : text) : bio unit :=
  leave_result ← io_fun (λ w, let '(r, w) := send_leave (handshake_ws h) session_id w in (Ok r, w));
  close_result ← io_lift (ws_close (handshake_ws h));
  _ ← io_result leave_result;
  io_result (map_err (λ _, Message "close") close_result).

(** *** Addresses *)

Definition probe_local_ip (relay_url : text) (deadline : Z) : bio IpAddr :=
  all_addrs ← resolve_before_deadline (relay_authority relay_url) deadline;
  relay_addr ← io_result (ok_or (Message "could not resolve relay host for ICE IP probe")
                            (prefer_ipv4 (socket_addr <$> all_addrs)));
  ip ← require "probe socket" (probe_socket_ip relay_addr);
  mret (if ip_is_unspecified ip then addr_ip relay_addr else ip).

(** [None] for every failure of the probe. *)
Definition probe_srflx_inner (stun_authority : text) (deadline : Z) : bio (option SocketAddr) :=
  λ w,
  match resolve_before_deadline (stun_endpoint stun_authority) deadline w with
  | (Err _, w) => (Ok None, w)
  | (Ok addresses, w) =>
      match prefer_ipv4 (socket_addr <$> addresses) with
      | None => (Ok None, w)
      | Some stun_addr =>
          let '(t, w) := @now W (@rtc_clock W hs_rtc) w in
          if deadline <? t then (Ok None, w) else
          let '(set, w) := udp_set_read_timeout (Z.min (deadline - t) STUN_TIMEOUT) w in
          if negb set then (Ok None, w) else
          let '(sent, w) := udp_send_to binding_request stun_addr w in
          if negb sent then (Ok None, w) else
          let '(datagram, w) := stun_recv_from w in
          match datagram with
          | None => (Ok None, w)
          | Some bytes =>
              match parse_response (received bytes) (length bytes) with
              | None => (Err panicked, w)
              | Some answer =>
                  (Ok ((λ a, mkSocketAddr (IpV4 (v4_ip a)) (v4_port a)) <$> answer), w)
              end
          end
      end
  end.

Fixpoint probe_authorities (authorities : list text) (deadline : Z) : bio (option SocketAddr) :=
  match authorities with
  | [] => mret None
  | authority :: authorities =>
      answer ← probe_srflx_inner authority deadline;
      match answer with
      | Some a => mret (Some a)
      | None => probe_authorities authorities deadline
      end
  end.

Definition probe_srflx (base_addr : SocketAddr) (ice_servers : list RelayIceServer) (deadline : Z)
  : bio (option SocketAddr) :=
  if ip_is_loopback (addr_ip base_addr) then mret None else
  result ← probe_authorities (ice_servers ≫= stun_authorities) deadline;
  _ ← io_lift (udp_set_read_timeout UDP_READ_TIMEOUT);
  mret result.

(** [checked_add(startup_timeout).ok_or(..)?] on the present instant. *)
Definition deadline_after (startup_timeout : Z) (m : string) : bio Z :=
  t ← clock_now;
  io_result (ok_or (Message m) (@checked_add W (@rtc_clock W hs_rtc) t startup_timeout)).

(** Steps 1 and 2: the socket, the engine and its local candidates. *)
Definition open_socket (relay_url : text) (ice_servers : list RelayIceServer) (deadline : Z)
  : bio SocketAddr :=
  _ ← syscall udp_bind "bind";
  _ ← syscall (udp_set_read_timeout UDP_READ_TIMEOUT) "set_read_timeout";
  bound_port ← require "local_addr" udp_local_port;
  candidate_ip ← probe_local_ip relay_url deadline;
  let bound_addr := mkSocketAddr candidate_ip bound_port in
  _ ← clock_now;
  _ ← io_modify rtc_build;
  local_candidate ← io_result (ok_or (Message "failed to create ICE host candidate") (host_candidate bound_addr));
  _ ← io_modify (add_local_candidate local_candidate);
  srflx ← probe_srflx bound_addr ice_servers deadline;
  _ ← match srflx with
      | Some srflx_addr =>
          if bool_decide (srflx_addr = bound_addr) then mret () else
          match server_reflexive srflx_addr bound_addr with
          | Some c => io_modify (add_local_candidate c)
          | None => mret ()
          end
      | None => mret ()
      end;
  mret bound_addr.

(** Step 3: a medium for each label, and the offer of them all. *)
Fixpoint add_media (direction : Direction) (labels : list text) : bio (list Mid) :=
  match labels with
  | [] => mret []
  | label :: labels =>
      mid ← io_lift (sdp_add_media direction label);
      mids ← add_media direction labels;
      mret (mid :: mids)
  end.

Definition sdp_offer (direction : Direction) (labels : list text) (m : string) : bio (list Mid * text) :=
  mids ← add_media direction labels;
  offer ← require m sdp_apply;
  mret (mids, offer).

(** Steps 4 and 5: the signaling connection, the message, and the deadline of the answer. *)
Definition signal (relay_url : text) (proxy : option text) (message : Json) (deadline : Z)
  (timed_out : string) : bio Ws :=
  ws ← connect (Url := Url) hs_environment (signal_url relay_url) proxy None None deadline;
  message ← io_result (ok_or (Message "serialization") (to_json message));
  sent ← io_lift (ws_send ws (MText message));
  _ ← io_result (map_err (λ _, Message "send") sent);
  remaining ← remaining_until deadline timed_out;
  _ ← syscall (ws_set_read_timeout ws remaining) "read timeout";
  _ ← syscall (ws_set_write_timeout ws remaining) "write timeout";
  mret ws.

Fixpoint add_early_candidates (candidates : list text) : bio unit :=
  match candidates with
  | [] => mret ()
  | c :: candidates =>
      candidate ← io_result (ok_or (Message "invalid buffered relay ICE candidate") (parse_candidate c));
      _ ← io_modify (add_remote_candidate candidate);
      add_early_candidates candidates
  end.

(** Step 6 after the answer arrived. *)
Definition apply_answer (ws : Ws) (answer : SignalingAnswer) : bio unit :=
  _ ← io_result (if parse_answer (answer_sdp answer) then Ok () else fail "failed to parse SDP answer");
  _ ← syscall (accept_answer (answer_sdp answer)) "accept_answer failed";
  _ ← add_early_candidates (early_candidates answer);
  _ ← drain_all_outputs;
  syscall (ws_set_read_timeout ws WS_POLL_TIMEOUT) "read timeout".

(** *** Step 7: the engine until it is connected

    [Some true]: connected; [Some false]: the deadline has passed. *)

Definition transmit (contents : list Z) : bio unit :=
  sent ← io_lift (udp_send contents);
  match sent with
  | Some kind => if bool_decide (kind = WouldBlock) then mret () else io_fail (Message "udp send")
  | None => mret ()
  end.

(** The publisher's reading of the signaling connection. *)
Definition publisher_signaling (ws : Ws) : bio unit :=
  r ← io_lift (ws_read ws);
  match r with
  | Ok (MText t) =>
      match parse_server_msg t with
      | Some m =>
          if bool_decide (msg_type m = lit "ICE") && negb (bool_decide (candidate m = [])) then
            match parse_candidate (candidate m) with
            | Some c => io_modify (add_remote_candidate c)
            | None => mret ()
            end
          else mret ()
      | None => mret ()
      end
  | Ok _ => mret ()
  | Err (WsIo (WouldBlock | TimedOut)) => mret ()
  | Err _ => io_fail (Message "relay signaling connection failed")
  end.

Definition publisher_receive (r : UdpRecv) : bio unit :=
  match r with
  | Datagram d =>
      t ← clock_now;
      if negb (receive_new d) then io_fail (Message "Receive::new") else
      syscall (handle_receive t d) "handle_input"
  | UdpWouldBlock => mret ()
  | UdpFailed => io_fail (Message "udp receive")
  end.

(** What the publisher does when the engine has nothing more to output. *)
Definition publisher_step (ws : Ws) : bio unit :=
  t ← clock_now;
  _ ← syscall (handle_timeout t) "handle_input Timeout";
  datagram ← io_lift udp_recv;
  _ ← publisher_receive datagram;
  publisher_signaling ws.

(** The subscriber's: [true] when the engine was changed, which ends the pass. *)
Definition subscriber_signaling (ws : Ws) : bio bool :=
  r ← io_lift (ws_read ws);
  match r with
  | Ok (MText t) =>
      match parse_server_msg t with
      | Some m =>
          if bool_decide (msg_type m = lit "ICE") && negb (bool_decide (candidate m = [])) then
            c ← io_result (ok_or (Message "invalid Relay ICE candidate") (parse_candidate (candidate m)));
            _ ← io_modify (add_remote_candidate c);
            mret true
          else if bool_decide (msg_type m = lit "ERROR") then io_fail (Message "relay error")
          else mret false
      | None => mret false
      end
  | Ok (MClose _) => io_fail (Message "relay closed subscriber signaling during startup")
  | Ok _ => mret false
  | Err (WsIo (WouldBlock | TimedOut)) => mret false
  | Err _ => io_fail (Message "relay subscriber signaling failed")
  end.

Definition subscriber_step (ws : Ws) (next_timeout : Z) : bio unit :=
  datagram ← io_lift udp_recv;
  match datagram with
  | Datagram d =>
      if negb (receive_new d) then io_fail (Message "subscriber Receive::new failed") else
      t ← clock_now;
      syscall (handle_receive t d) "subscriber UDP input failed"
  | UdpWouldBlock =>
      changed ← subscriber_signaling ws;
      if changed : bool then mret () else
      t ← clock_now;
      if next_timeout <=? t then
        t ← clock_now;
        syscall (handle_timeout t) "subscriber timeout input failed"
      else mret ()
  | UdpFailed => io_fail (Message "udp receive")
  end.

(** A pass of either loop; [step] is what it does between outputs. *)
Definition connect_round (step : Z → bio unit) (deadline : Z) : bio (option bool) :=
  t ← clock_now;
  if deadline <=? t then mret (Some false) else
  output ← io_lift poll_output;
  match output with
  | Err _ => io_fail (Message "poll_output")
  | Ok (OutputTransmit contents) => _ ← transmit contents; mret None
  | Ok (OutputEvent ConnectedEvent) => mret (Some true)
  | Ok (OutputEvent _) => mret None
  | Ok (OutputTimeout next_timeout) => _ ← step next_timeout; mret None
  end.

Definition connect_loop (rounds : positive) (step : Z → bio unit) (deadline : Z) (w : W)
  : W + (Result BoxedError bool * W) :=
  run_until rounds (io_round (connect_round step deadline)) w.

Definition startup_deadline_exceeded : BoxedError :=
  Message "ICE/DTLS handshake exceeded the configured startup deadline".

(** After the loop: the LEAVE of a handshake that ran out of time. *)
Definition conclude (ws : Ws) (room_id : text) (connected : bool) : bio unit :=
  if negb connected then
    _ ← io_fun (λ w, let '(_, w) := send_leave ws room_id w in (Ok (), w));
    io_fail startup_deadline_exceeded
  else
    _ ← syscall (ws_set_read_timeout ws WS_POLL_TIMEOUT) "read timeout";
    syscall (ws_set_write_timeout ws WS_WRITE_TIMEOUT) "write timeout".

(** *** The handshakes

    [None] while the answer or the connection is still waited for. *)

(** Steps 6 and 7. *)
Definition negotiate (reads rounds : positive) (step : Ws → Z → bio unit) (ws : Ws) (room_id : text)
  (deadline : Z) (w : W) : option (Result BoxedError unit * W) :=
  match wait_for_sdp_answer reads ws w with
  | inl _ => None
  | inr (Err e, w) => Some (Err e, w)
  | inr (Ok answer, w) =>
      match apply_answer ws answer w with
      | (Err e, w) => Some (Err e, w)
      | (Ok _, w) =>
          match connect_loop rounds (step ws) deadline w with
          | inl _ => None
          | inr (Err e, w) => Some (Err e, w)
          | inr (Ok connected, w) => Some (conclude ws room_id connected w)
          end
      end
  end.

(** Steps 1 to 5 of the publisher. *)
Definition publish_offer (relay_url room_id token : text) (media : list PublishMedia)
  (ice_servers : list RelayIceServer) (proxy : option text) (startup_timeout : Z)
  : bio (HandshakeResult * Z) :=
  if bool_decide (length media = 0%nat)
  then io_fail (Message "relay handshake requires at least one AudioBus") else
  deadline ← deadline_after startup_timeout "relay startup deadline overflow";
  bound_addr ← open_socket relay_url ice_servers deadline;
  offer ← sdp_offer SendOnly (stream_id <$> media) "SDP apply returned None";
  let offer_sdp := munge_opus_params offer.2 (existsb stereo media)
    ((foldr Z.max 0 (max_avg_bitrate_kbps <$> media) * SDP_BITS_PER_KBPS) mod 2 ^ 32) in
  ws ← signal relay_url proxy
         (publish_object (mkPublishMsg (lit "PUBLISH") room_id token offer_sdp None
            ((λ m, mkBinding (stream_id m) (stream_id m)) <$> media))) deadline
         "relay startup timed out before the SDP answer";
  mret (mkHandshake ws offer.1 bound_addr, deadline).

Definition run_handshake (reads rounds : positive) (relay_url room_id token : text)
  (media : list PublishMedia) (ice_servers : list RelayIceServer) (proxy : option text)
  (startup_timeout : Z) (w : W) : option (Result BoxedError HandshakeResult * W) :=
  match publish_offer relay_url room_id token media ice_servers proxy startup_timeout w with
  | (Err e, w) => Some (Err e, w)
  | (Ok (h, deadline), w) =>
      match negotiate reads rounds (λ ws _, publisher_step ws) (handshake_ws h) room_id deadline w with
      | Some (r, w) => Some ((λ _, h) <$> r, w)
      | None => None
      end
  end.

(** Steps 1 to 5 of the subscriber. *)
Definition subscribe_offer (relay_url session_id bus_id token : text)
  (ice_servers : list RelayIceServer) (startup_timeout : Z) : bio (HandshakeResult * Z) :=
  deadline ← deadline_after startup_timeout "relay subscriber startup deadline overflow";
  bound_addr ← open_socket relay_url ice_servers deadline;
  offer ← sdp_offer RecvOnly [bus_id] "SDP apply returned None for the receive-only Relay AudioBus";
  let offer_sdp := munge_opus_params offer.2 false (64 * SDP_BITS_PER_KBPS) in
  ws ← signal relay_url None (subscribe_object (mkSubscribeMsg (lit "SUBSCRIBE") session_id token offer_sdp bus_id)) deadline
         "relay subscriber timed out before the SDP answer";
  mret (mkHandshake ws offer.1 bound_addr, deadline).

Definition run_subscriber_handshake (reads rounds : positive) (relay_url session_id bus_id token : text)
  (ice_servers : list RelayIceServer) (startup_timeout : Z) (w : W)
  : option (Result BoxedError HandshakeResult * W) :=
  match subscribe_offer relay_url session_id bus_id token ice_servers startup_timeout w with
  | (Err e, w) => Some (Err e, w)
  | (Ok (h, deadline), w) =>
      match negotiate reads rounds subscriber_step (handshake_ws h) session_id deadline w with
      | Some (r, w) => Some ((λ _, h) <$> r, w)
      | None => None
      end
  end.
End Handshake.

(** The offer has a medium for every label. *)
Lemma add_media_length {W} `{HandshakeEnv W} direction labels : ∀ w mids w',
  add_media direction labels w = (Ok mids, w') → length mids = length labels.
Proof.
  induction labels as [|l labels IH]; intros w mids w'; [by intros [= <- _]|].
  intros (mid & w1 & _ & (mids' & w2 & E & [= <- _])%io_bind_Ok)%io_bind_Ok. cbn. f_equal. by eapply IH.
Qed.
Lemma sdp_offer_length {W} `{HandshakeEnv W} direction labels m w mids t w' :
  sdp_offer direction labels m w = (Ok (mids, t), w') → length mids = length labels.
Proof.
  intros (mids' & w1 & E & (offer & w2 & _ & [= <- _ _])%io_bind_Ok)%io_bind_Ok. by eapply add_media_length.
Qed.

(** ** One mutation between two drains

    [types.rs] states the rule: every mutation is followed by polling until the timeout.
    The subscriber's loop obeys it; the publisher's does not ([publisher_undrained]). *)

(** The laws of the engine, and a read of the signaling connection does not touch it. *)
Class HandshakeQuiet (W : Type) `{HandshakeEnv W} (needs_poll : W → bool) (misused : W → nat)
  (pending : W → Z) : Prop := {
  quiet_rtc :: RtcLaws W needs_poll misused pending;
  quiet_ws_read s w :
    misused (ws_read s w).2 = misused w ∧ needs_poll (ws_read s w).2 = needs_poll w;
}.

Section Drained.
Context {W : Type} `{HandshakeQuiet W}.
Local Abbreviation bio := (io W BoxedError).

(** From a drained engine, [m] runs one mutation at most: none is run while outputs are
    queued. *)
Definition one_mutation {A} (m : bio A) : Prop :=
  ∀ w, needs_poll w = false → misused (m w).2 = misused w.

(** [m] does not touch the engine. *)
Definition untouched {A} (m : bio A) : Prop :=
  ∀ w, misused (m w).2 = misused w ∧ needs_poll (m w).2 = needs_poll w.

Lemma one_after {A B} (m : bio A) (f : A → bio B) :
  untouched m → (∀ a, one_mutation (f a)) → one_mutation (m ≫= f).
Proof.
  intros Hm Hf w Hw. destruct (Hm w) as [E1 E2]. unfold mbind, io_bind.
  destruct (m w) as [[a|e] w1]; cbn in *; [|done]. rewrite Hf; congruence.
Qed.
Lemma one_untouched {A} (m : bio A) : untouched m → one_mutation m.
Proof. intros Hm w _. apply Hm. Qed.
Lemma one_then_ret {A B} (m : bio A) (b : A → B) :
  one_mutation m → one_mutation (a ← m; mret (b a)).
Proof.
  intros Hm w Hw. unfold mbind, io_bind. specialize (Hm w Hw).
  by destruct (m w) as [[a|e] w1].
Qed.
Lemma untouched_ret {A} (a : A) : untouched (mret a).
Proof. by intros w. Qed.
Lemma untouched_fail {A} e : untouched (A := A) (io_fail e).
Proof. by intros w. Qed.
Lemma untouched_result {A} (r : Result BoxedError A) : untouched (io_result r).
Proof. by intros w. Qed.
Lemma untouched_lift {A} (call : W → A * W) :
  (∀ w, misused (call w).2 = misused w ∧ needs_poll (call w).2 = needs_poll w) →
  untouched (io_lift call).
Proof. intros Hc w. unfold io_lift. specialize (Hc w). by destruct (call w). Qed.
Lemma one_syscall call m :
  (∀ w, misused (call w).2 = (misused w + Nat.b2n (needs_poll w))%nat) → one_mutation (syscall call m).
Proof.
  intros Hc w Hw. unfold syscall, mbind, io_bind, io_lift. specialize (Hc w).
  rewrite Hw, Nat.add_0_r in Hc. by destruct (call w) as [[] w1].
Qed.
Lemma untouched_now : untouched clock_now.
Proof. apply untouched_lift, now_keeps_rtc. Qed.

(** The signaling may add a candidate, and then answers [true]. *)
Lemma one_subscriber_signaling ws : one_mutation (subscriber_signaling ws).
Proof.
  apply one_after; [apply untouched_lift; intros; apply quiet_ws_read|].
  intros [[t|b| | |c|]|[[]| | | |]]; try (apply one_untouched; apply untouched_ret || apply untouched_fail).
  destruct (parse_server_msg t) as [m|]; [|apply one_untouched, untouched_ret].
  case_match; [|case_match; apply one_untouched; apply untouched_fail || apply untouched_ret].
  apply one_after; [apply untouched_result|]. intros c. apply (one_then_ret _ (λ _, true)).
  intros w Hw. cbn. rewrite mutate_candidate, Hw. apply Nat.add_0_r.
Qed.

Lemma subscriber_signaling_unchanged ws w w' :
  subscriber_signaling ws w = (Ok false, w') → needs_poll w' = needs_poll w.
Proof.
  unfold subscriber_signaling, mbind, io_bind at 1, io_lift. pose proof (quiet_ws_read ws w) as [_ <-].
  destruct (ws_read ws w) as [[[t|b| | |c|]|[[]| | | |]] w1]; try (by intros [= <-]).
  destruct (parse_server_msg t) as [m|]; [|by intros [= <-]].
  case_match; [|case_match; [done|by intros [= <-]]].
  unfold io_bind, io_result, ok_or. by destruct (parse_candidate _).
Qed.

Lemma one_subscriber_step ws t : one_mutation (subscriber_step ws t).
Proof.
  apply one_after; [apply untouched_lift, recv_keeps|].
  intros [d| |]; [|intros w Hw|apply one_untouched, untouched_fail].
  - case_match; [apply one_untouched, untouched_fail|].
    apply one_after; [apply untouched_now|]. intros t'. apply one_syscall. intros. apply mutate_receive.
  - unfold mbind, io_bind at 1. pose proof (one_subscriber_signaling ws w Hw) as E1.
    destruct (subscriber_signaling ws w) as [[[]|e] w1] eqn:E2; [done| |done]. cbn in E1.
    apply subscriber_signaling_unchanged in E2. rewrite Hw in E2. rewrite <- E1. clear E1.
    revert w1 E2. apply (one_after clock_now); [apply untouched_now|]. intros t'.
    case_match; [|apply one_untouched, untouched_ret].
    apply one_after; [apply untouched_now|]. intros t2. apply one_syscall. intros. apply mutate_timeout.
Qed.

Lemma connect_round_undisturbed step deadline w :
  (∀ t, one_mutation (step t)) → misused (connect_round step deadline w).2 = misused w.
Proof.
  intros Hstep. unfold connect_round, mbind, io_bind at 1. destruct (untouched_now w) as [<- _].
  destruct (clock_now w) as [[t|e] w1]; [|done]. case_match; [done|].
  cbn [snd]. unfold io_bind at 1, io_lift. rewrite <- (poll_misused (misused := misused) w1).
  destruct (poll_output w1) as [[[next|c|[]]|e] w2] eqn:Ep; try done; unfold io_bind.
  - apply poll_timeout in Ep. cbn. specialize (Hstep next w2 Ep). by destruct (step next w2) as [[]].
  - cbn [snd]. unfold transmit, mbind, io_bind, io_lift.
    destruct (send_keeps (misused := misused) c w2) as [<- _].
    destruct (udp_send c w2) as [[k|] w3]; cbn; [by destruct (bool_decide _)|done].
Qed.

(** C16: The rule of the engine is that every mutation is followed by polling until the
    timeout.  The subscriber's connection loop keeps it, whatever the network and the
    signaling connection deliver and however it ends: no mutation it makes finds outputs
    of the previous one still queued. *)
Theorem subscriber_polls_between_mutations rounds ws deadline w :
  match connect_loop rounds (subscriber_step ws) deadline w with
  | inl w' | inr (_, w') => misused w' = misused w
  end.
Proof.
  pose proof (run_until_invariant (io_round (connect_round (subscriber_step ws) deadline))
    (λ w', misused w' = misused w) (λ r, misused r.2 = misused w) rounds w eq_refl) as H'.
  unfold connect_loop. destruct (run_until _ _ w) as [w'|[r w']]; apply H'; intros w1 x E1;
    unfold io_round; pose proof (connect_round_undisturbed (subscriber_step ws) deadline w1
      (one_subscriber_step ws)) as E2; rewrite E1 in E2;
    destruct (connect_round _ _ w1) as [[[a|]|e] w2]; intros; simplify_eq; done.
Qed.
End Drained.

(** ** The loop comes to a verdict *)

(** Every operation of the loop other than polling moves the world along [R]. *)
Class HandshakeKeeps (W : Type) `{HandshakeEnv W} (R : relation W) : Prop := {
  hk_preorder :: PreOrder R;
  hk_now w : R w (@now W (@rtc_clock W hs_rtc) w).2;
  hk_timeout t w : R w (handle_timeout t w).2;
  hk_receive t d w : R w (handle_receive t d w).2;
  hk_candidate c w : R w (add_remote_candidate c w);
  hk_udp_recv w : R w (udp_recv w).2;
  hk_udp_send c w : R w (udp_send c w).2;
  hk_ws_read s w : R w (ws_read s w).2;
}.

Ltac handshake_law :=
  first [ apply hk_now | apply hk_timeout | apply hk_receive | apply hk_candidate | apply hk_udp_recv
        | apply hk_udp_send | apply hk_ws_read ].
#[export] Hint Extern 1 => handshake_law : keeps.

Section LoopKeeps.
Context {W : Type} `{HandshakeEnv W} (R : relation W) `{!HandshakeKeeps W R}.
Local Abbreviation K := (keeps R).

Lemma keeps_clock_now : K clock_now.
Proof. apply keeps_lift, hk_now. Qed.
Lemma keeps_call call m : (∀ w, R w (call w).2) → K (syscall call m).
Proof.
  intros Hc w. unfold syscall, mbind, io_bind, io_lift. specialize (Hc w).
  by destruct (call w) as [[] w1].
Qed.

#[local] Hint Resolve keeps_clock_now : keeps.
#[local] Hint Extern 1 (keeps _ (syscall _ _)) => apply keeps_call; keep : keeps.

Lemma keeps_transmit c : K (transmit c).
Proof. unfold transmit. keep. Qed.

Lemma keeps_subscriber_signaling ws : K (subscriber_signaling ws).
Proof. unfold subscriber_signaling. keep. Qed.

Lemma keeps_publisher_signaling ws : K (publisher_signaling ws).
Proof. unfold publisher_signaling. keep. Qed.
#[local] Hint Resolve keeps_subscriber_signaling keeps_publisher_signaling : keeps.

(** What follows the receive in either step. *)
Lemma keeps_subscriber_rest ws next r :
  K (match r with
     | Datagram d =>
         if negb (receive_new d) then io_fail (Message "subscriber Receive::new failed") else
         t ← clock_now; syscall (handle_receive t d) "subscriber UDP input failed"
     | UdpWouldBlock =>
         changed ← subscriber_signaling ws;
         if changed : bool then mret () else
         t ← clock_now;
         if next <=? t then
           t ← clock_now; syscall (handle_timeout t) "subscriber timeout input failed"
         else mret ()
     | UdpFailed => io_fail (Message "udp receive")
     end).
Proof. keep. Qed.

Lemma keeps_subscriber_step ws next : K (subscriber_step ws next).
Proof. unfold subscriber_step. keep. Qed.

Lemma keeps_publisher_receive r : K (publisher_receive r).
Proof. unfold publisher_receive. keep. Qed.
#[local] Hint Resolve keeps_publisher_receive : keeps.

Lemma keeps_publisher_step ws : K (publisher_step ws).
Proof. unfold publisher_step. keep. Qed.
End LoopKeeps.

(** Time: a receive takes some, nothing else runs it backwards, and reading the clock
    leaves the engine alone. *)
Class HandshakeTime (W : Type) `{HandshakeEnv W} (time pending : W → Z) : Prop := {
  ht_clock :: @ClockLaws W (@rtc_clock W hs_rtc) time;
  ht_keeps :: HandshakeKeeps W (later time);
  ht_receive w : time w < time (udp_recv w).2;
  ht_poll w : time w ≤ time (poll_output w).2;
  ht_pending_now w : pending (@now W (@rtc_clock W hs_rtc) w).2 = pending w;
  ht_pending_send c w : pending (udp_send c w).2 = pending w;
  ht_pending_poll w o w' :
    poll_output w = (Ok o, w') → (∀ t, o ≠ OutputTimeout t) → 0 ≤ pending w' < pending w;
}.

(** The step of either role. *)
Definition step_of {W} `{HandshakeEnv W} (publisher : bool) (ws : Ws) (next : Z) : io W BoxedError unit :=
  if publisher then publisher_step ws else subscriber_step ws next.

Section Verdict.
Context {W : Type} (time pending : W → Z) `{HandshakeTime W time pending}.
Local Abbreviation bio := (io W BoxedError).

Lemma keeps_step (R : relation W) `{!HandshakeKeeps W R} publisher ws next :
  keeps R (step_of publisher ws next).
Proof. destruct publisher; [apply (keeps_publisher_step R)|apply (keeps_subscriber_step R)]. Qed.

(** A step takes time. *)
Lemma step_time publisher ws next w r w' :
  step_of publisher ws next w = (Ok r, w') → time w < time w'.
Proof.
  destruct publisher; intros Hs; cbn in Hs.
  - apply io_bind_Ok in Hs as (t & w1 & E1 & (u1 & w2 & E2 & (d & w3 & E3 & E4)%io_bind_Ok)%io_bind_Ok).
    pose proof (keeps_time time _ _ _ _ (keeps_clock_now (later time)) E1).
    pose proof (keeps_time time _ _ _ _ (keeps_call (later time) _ _ (hk_timeout t)) E2).
    pose proof (ht_receive w2) as E5. unfold io_lift in E3. destruct (udp_recv w2) as [d1 w4].
    injection E3 as <- <-. cbn in E5.
    assert (keeps (later time) (_ ← publisher_receive d1; publisher_signaling ws)) as E6.
    { apply (keeps_bind _); [apply (keeps_publisher_receive _)|]. intros _.
      apply (keeps_publisher_signaling _). }
    specialize (keeps_time time _ _ _ _ E6 E4). lia.
  - apply io_bind_Ok in Hs as (d & w3 & E3 & E4).
    pose proof (ht_receive w) as E5. unfold io_lift in E3. destruct (udp_recv w) as [d1 w4].
    injection E3 as <- <-. cbn in E5.
    pose proof (keeps_time time _ _ _ _ (keeps_subscriber_rest (later time) ws next d1) E4). lia.
Qed.

(** A pass that goes on: before the deadline, and it either took time or consumed one of
    the queued outputs. *)
Lemma connect_round_continues publisher ws deadline w w' :
  connect_round (step_of publisher ws) deadline w = (Ok None, w') →
  time w < deadline ∧ (time w < time w' ∨ time w ≤ time w' ∧ 0 ≤ pending w' < pending w).
Proof.
  unfold connect_round. intros (t & w1 & E1 & E2)%io_bind_Ok.
  unfold clock_now, io_lift in E1. pose proof (now_reads (time := time) w) as Ht.
  pose proof (ht_pending_now (pending := pending) w) as Hp.
  destruct (now w) as [t1 w2]. injection E1 as -> ->. cbn in Ht, Hp.
  destruct (Z.leb_spec deadline t) as [|Hd]; [done|]. split; [lia|].
  apply io_bind_Ok in E2 as (o & w2 & E2 & E3). unfold io_lift in E2.
  pose proof (ht_poll w1) as Hpoll. pose proof (ht_pending_poll (pending := pending) w1) as Hpend.
  destruct (poll_output w1) as [o1 w3]. injection E2 as -> ->. cbn in Hpoll.
  destruct o as [[next|c|e]|]; [| | |done].
  - apply io_bind_Ok in E3 as (u & w3 & E3 & [= <-]). apply step_time in E3. left. lia.
  - right. specialize (Hpend _ _ eq_refl (λ t, ltac:(done))).
    apply io_bind_Ok in E3 as (u & w3 & E3 & [= <-]).
    pose proof (keeps_time time _ _ _ _ (keeps_transmit (later time) c) E3).
    enough (pending w3 = pending w2) by lia. revert E3. unfold transmit, mbind, io_bind, io_lift.
    pose proof (ht_pending_send (pending := pending) c w2) as Hs.
    destruct (udp_send c w2) as [[k|] w4]; cbn in Hs; [destruct (bool_decide _)|];
      intros E3; inversion E3; congruence.
  - right. specialize (Hpend _ _ eq_refl (λ t, ltac:(done))).
    enough (w' = w2) as -> by lia. by destruct e; injection E3.
Qed.

(** C40: The connection loop of either role comes to an end: some number of passes is
    enough, however the network behaves, even when datagrams arrive without pause and the
    engine answers each with more output.  A pass consumes one of finitely many queued
    outputs or takes time, and none goes on after the deadline. *)
Theorem connect_loop_ends publisher ws deadline w :
  ∃ rounds r, connect_loop rounds (step_of publisher ws) deadline w = inr r.
Proof.
  apply (run_until_lexicographic _ (λ _, True) w (λ w, Z.max 0 (deadline - time w)) pending); [done|].
  intros w1 w2 _ Hround. split; [done|]. unfold io_round in Hround.
  destruct (connect_round _ _ w1) as [[[a|]|e] w3] eqn:Ec; try done. injection Hround as <-.
  apply connect_round_continues in Ec as [Hd [Ht|[Ht Hp]]]; lia.
Qed.
End Verdict.

(** *** What the verdict means *)

(** [emitted w] logs the events the engine has output. *)
Definition same_events {W} (emitted : W → list Event) (w w' : W) : Prop := emitted w' = emitted w.

Class HandshakeLog (W : Type) `{HandshakeEnv W} (emitted : W → list Event) : Prop := {
  hl_keeps :: HandshakeKeeps W (same_events emitted);
  hl_event w e w' : poll_output w = (Ok (OutputEvent e), w') → emitted w' = emitted w ++ [e];
  hl_other w r w' :
    poll_output w = (r, w') → (∀ e, r ≠ Ok (OutputEvent e)) → emitted w' = emitted w;
}.

Section Meaning.
Context {W : Type} (time : W → Z) (emitted : W → list Event) `{HandshakeLog W emitted}.
Context (Hclock : @ClockLaws W (@rtc_clock W hs_rtc) time).

(** The events of one pass, by what it answers. *)
Definition pass_events (r : Result BoxedError (option bool)) (new : list Event) : Prop :=
  match r with
  | Ok (Some true) => new = [ConnectedEvent]
  | _ => ConnectedEvent ∉ new
  end.

Lemma keeps_events {A} (m : io W BoxedError A) w r w' :
  keeps (same_events emitted) m → m w = (r, w') → emitted w' = emitted w.
Proof. intros Hk Hm. specialize (Hk w). by rewrite Hm in Hk. Qed.

Lemma connect_round_events publisher ws deadline w r w' :
  connect_round (step_of publisher ws) deadline w = (r, w') →
  (∃ new, emitted w' = emitted w ++ new ∧ pass_events r new)
  ∧ (r = Ok (Some false) → deadline ≤ time w').
Proof.
  unfold connect_round, mbind, io_bind at 1, clock_now, io_lift at 1.
  pose proof (now_reads (time := time) w) as Ht.
  pose proof (hk_now (R := same_events emitted) w) as E1. unfold same_events in E1.
  destruct (now w) as [t w1]. cbn in Ht, E1. rewrite <- E1. clear E1.
  destruct (Z.leb_spec deadline t) as [|_].
  { intros [= <- <-]. split; [|lia]. exists []. rewrite app_nil_r. split; [done|]. apply not_elem_of_nil. }
  unfold io_bind at 1, io_lift. destruct (poll_output w1) as [o w2] eqn:Ep. intros Hround.
  assert (∀ A (m : io W BoxedError A) w3 a, keeps (same_events emitted) m → m w2 = (a, w3) →
    (∀ e, o ≠ Ok (OutputEvent e)) → emitted w3 = emitted w1) as E2.
  { intros A m w3 a Hk Hm Ho. rewrite (keeps_events m w2 a w3 Hk Hm). by eapply hl_other. }
  destruct o as [[next|c|e]|].
  1, 2: unfold io_bind in Hround.
  - destruct (step_of publisher ws next w2) as [a w3] eqn:Es.
    assert (emitted w3 = emitted w1) as E3.
    { apply (E2 _ _ _ _ (keeps_step (same_events emitted) publisher ws next) Es). done. }
    destruct a as [|e]; injection Hround as <- <-; (split; [|done]); exists [];
      rewrite app_nil_r; (split; [done|]); apply not_elem_of_nil.
  - destruct (transmit c w2) as [a w3] eqn:Es.
    assert (emitted w3 = emitted w1) as E3.
    { apply (E2 _ _ _ _ (keeps_transmit (same_events emitted) c) Es). done. }
    destruct a as [|e]; injection Hround as <- <-; (split; [|done]); exists [];
      rewrite app_nil_r; (split; [done|]); apply not_elem_of_nil.
  - apply hl_event in Ep.
    destruct e; injection Hround as <- <-; (split; [|done]); rewrite Ep; eexists; (split; [done|]); cbn;
      rewrite ?list_elem_of_singleton; done.
  - injection Hround as <- <-. split; [|done]. exists []. rewrite app_nil_r.
    split; [by eapply hl_other|]. apply not_elem_of_nil.
Qed.

(** C22: The verdict of the connection loop is the engine's, and no event is lost on the
    way: the loop answers "connected" exactly when the last event the engine emitted
    during it is [Connected], and then it is the only one; it answers "not connected" only
    once the deadline has passed and the engine emitted no [Connected] during it. *)
Theorem connect_loop_verdict publisher rounds ws deadline w connected w'
  (Hloop : connect_loop rounds (step_of publisher ws) deadline w = inr (Ok connected, w')) :
  ∃ before, (ConnectedEvent ∉ before) ∧
    (if connected then emitted w' = emitted w ++ before ++ [ConnectedEvent]
     else emitted w' = emitted w ++ before ∧ deadline ≤ time w').
Proof.
  pose proof (run_until_invariant (io_round (connect_round (step_of publisher ws) deadline))
    (λ w1, ∃ before, (ConnectedEvent ∉ before) ∧ emitted w1 = emitted w ++ before)
    (λ r, ∀ b, r.1 = Ok b → ∃ before, (ConnectedEvent ∉ before) ∧
      (if b : bool then emitted r.2 = emitted w ++ before ++ [ConnectedEvent]
       else emitted r.2 = emitted w ++ before ∧ deadline ≤ time r.2)) rounds w) as H'.
  unfold connect_loop in Hloop. rewrite Hloop in H'. refine (H' _ _ _ connected eq_refl); clear H' Hloop.
  - exists []. rewrite app_nil_r. split; [apply not_elem_of_nil|done].
  - intros w1 w2 (before & Hb & He) Hround. unfold io_round in Hround.
    destruct (connect_round _ _ w1) as [r w3] eqn:Er.
    apply connect_round_events in Er as [(new & E1 & E2) _].
    destruct r as [[b|]|e]; try done. injection Hround as <-. exists (before ++ new).
    rewrite E1, He, app_assoc, not_elem_of_app. done.
  - intros w1 [r w2] (before & Hb & He) Hround b Hr. cbn in Hr. subst r. unfold io_round in Hround.
    destruct (connect_round _ _ w1) as [r w3] eqn:Er.
    apply connect_round_events in Er as [(new & E1 & E2) Hd].
    destruct r as [[b'|]|e]; try done. injection Hround as -> ->. cbn. destruct b.
    + exists before. rewrite E1, He, E2. by rewrite <- app_assoc.
    + exists (before ++ new). rewrite E1, He, <- app_assoc, not_elem_of_app. auto.
Qed.
End Meaning.

(** ** The wait for the answer has no deadline

    [signal] gives every read of the signaling connection the time that was left when the
    offer was sent.  A server that sends anything but an answer within that time, again
    and again, keeps the handshake waiting past its deadline. *)

Section Waiting.
Context {W : Type} `{HandshakeEnv W} (time : W → Z).
Context (chatty : W → Prop) (ws : Ws) (interval : Z).
Context (Hchatty : ∀ w, chatty w → ∃ w', ws_read ws w = (Ok MPing, w') ∧ chatty w'
                                          ∧ time w + interval ≤ time w').

Lemma wait_rounds n early w :
  chatty w → 0 ≤ interval →
  ∃ w', run_rounds (answer_round ws) n (early, w) = inl (early, w') ∧ chatty w'
        ∧ time w + Z.of_nat n * interval ≤ time w'.
Proof.
  revert w. induction n as [|n IH]; intros w Hw Hi; [exists w; repeat split; [done|lia]|].
  destruct (Hchatty w Hw) as (w1 & E1 & Hw1 & Ht1). cbn. rewrite E1. cbn.
  destruct (IH w1 Hw1 Hi) as (w2 & E2 & Hw2 & Ht2). exists w2. repeat split; [done|done|lia].
Qed.

(** The startup deadline does not bound the wait for the SDP answer: with a server
    that sends a ping at least once per [interval], for every deadline there is a number
    of messages after which the deadline has passed and the handshake still waits. *)
Theorem answer_wait_outlives_deadline deadline w
  (Hw : chatty w) (Hi : 0 < interval) :
  ∃ reads early w', wait_for_sdp_answer reads ws w = inl (early, w') ∧ deadline < time w'.
Proof.
  set (n := Z.to_nat (Z.max 0 (deadline - time w))).
  destruct (wait_rounds (Datatypes.S n) [] w Hw ltac:(lia)) as (w' & E1 & _ & Ht).
  exists (Pos.of_succ_nat n), [], w'. unfold wait_for_sdp_answer.
  rewrite run_until_rounds, SuccNat2Pos.id_succ. split; [done|].
  assert (Z.of_nat (Datatypes.S n) * 1 ≤ Z.of_nat (Datatypes.S n) * interval) by (apply Z.mul_le_mono_nonneg_l; lia).
  subst n. lia.
Qed.
End Waiting.

(** ** A scripted peer *)

Module Script.

Record World : Type := mkWorld {
  clock : Z;
  outputs : list Output;
  datagrams : list (list Z);
  replies : list text;
  emitted : list Event;
  queued : bool;
  broken : nat;
}.

Definition advance (d : Z) (w : World) : World :=
  mkWorld (clock w + d) (outputs w) (datagrams w) (replies w) (emitted w) (queued w) (broken w).

(** A mutation: the engine has something to output, and is misused when it already had. *)
Definition mutate (w : World) : World :=
  mkWorld (clock w) (outputs w) (datagrams w) (replies w) (emitted w) true
    (broken w + Nat.b2n (queued w)).

Definition poll (w : World) : Result PollError Output * World :=
  match outputs w with
  | OutputTimeout t :: rest =>
      (Ok (OutputTimeout t), mkWorld (clock w) rest (datagrams w) (replies w) (emitted w) false (broken w))
  | OutputEvent e :: rest =>
      (Ok (OutputEvent e), mkWorld (clock w) rest (datagrams w) (replies w) (emitted w ++ [e]) (queued w) (broken w))
  | OutputTransmit c :: rest =>
      (Ok (OutputTransmit c), mkWorld (clock w) rest (datagrams w) (replies w) (emitted w) (queued w) (broken w))
  | [] => (Ok (OutputTimeout (clock w + SECOND)),
           mkWorld (clock w) [] (datagrams w) (replies w) (emitted w) false (broken w))
  end.

Definition receive (w : World) : UdpRecv * World :=
  match datagrams w with
  | d :: rest => (Datagram d, mkWorld (clock w + 1) (outputs w) rest (replies w) (emitted w) (queued w) (broken w))
  | [] => (UdpWouldBlock, advance UDP_READ_TIMEOUT w)
  end.

#[export] Instance clock_of : Clock World := {| now w := (clock w, w); sleep d w := advance d w;
                                                instant_max := 2 ^ 63 * SECOND |}.

#[export] Instance rtc : Rtc World :=
  {| rtc_clock := clock_of;
     handle_timeout _ w := (true, mutate w); receive_new _ := true;
     handle_receive _ _ w := (true, mutate w);
     has_writer _ _ := false; payload_type_of _ _ := None; rtc_write _ _ _ _ w := (true, mutate w);
     parse_candidate := Some; add_remote_candidate _ w := mutate w;
     poll_output := poll; output_bound w := Pos.of_succ_nat (length (outputs w));
     udp_recv := receive; udp_send _ w := (None, w);
     ws_send _ _ w := (Ok (), w); ws_close _ w := (Ok (), w) |}.

#[export] Instance proxy : ProxyEnv World :=
  {| proxy_clock := clock_of;
     connect_timeout a _ w := (Some a, w); set_nodelay _ w := (true, w); try_clone _ w := (true, w);
     set_timeouts _ _ w := (true, w); shutdown _ w := w; spawn_watchdog _ _ w := (true, w);
     join_watchdog w := (true, w); tls_connector w := (true, w); tls_connect _ s w := (Ok s, w);
     write_all _ _ w := (true, w); read_byte _ w := (None, w); valid_header _ := true;
     base64_encode b := b; client_tls r s w := (Ok (s, requested_protocol r), w);
     valid_request _ := true |}.

#[export] Instance sockets : WebSockets World :=
  {| ws_read _ w :=
       match replies w with
       | t :: rest => (Ok (MText t), mkWorld (clock w + 1) (outputs w) (datagrams w) rest (emitted w)
                                       (queued w) (broken w))
       | [] => (Ok MPing, advance MILLISECOND w)
       end;
     ws_write _ _ w := (Ok (), w); ws_flush _ w := (Ok (), w); ws_clone_socket _ w := (true, w);
     ws_set_read_timeout _ _ w := (true, w); ws_set_write_timeout _ _ w := (true, w);
     ws_set_nonblocking _ w := (true, w); ws_shutdown _ w := w |}.

#[export] Instance handshake : HandshakeEnv World :=
  {| hs_proxy := proxy; hs_resolver := {| to_socket_addrs _ _ w := (Some (Resolved [7]), w) |};
     hs_rtc := rtc; hs_sockets := sockets;
     hs_json := {| to_json _ := Some [];
                   parse_server_msg t := Some (mkServerMsg (lit "SDP_ANSWER") t [] [] []) |};
     hs_clock := eq_refl; hs_environment _ := None;
     socket_addr a := mkSocketAddr (IpV4 a) 80;
     udp_bind w := (true, w); udp_set_read_timeout _ w := (true, w); udp_local_port w := (Some 5000, w);
     probe_socket_ip _ w := (Some (IpV4 9), w); udp_send_to _ _ w := (true, w);
     stun_recv_from w := (None, w); rtc_build w := w; host_candidate _ := Some (lit "host");
     server_reflexive _ _ := None; add_local_candidate _ w := w;
     sdp_add_media _ _ w := (0, w); sdp_apply w := (Some (lit "v=0"), w);
     parse_answer _ := true; accept_answer _ w := (true, w) |}.

(** How many outputs precede the next timeout. *)
Fixpoint before_timeout (l : list Output) : Z :=
  match l with
  | [] | OutputTimeout _ :: _ => 0
  | _ :: l => 1 + before_timeout l
  end.
Lemma before_timeout_bound l : 0 ≤ before_timeout l ≤ Z.of_nat (length l).
Proof. induction l as [|[] l]; cbn [before_timeout length]; lia. Qed.
Definition pending (w : World) : Z := before_timeout (outputs w).

Lemma poll_consumes w o w' :
  poll w = (Ok o, w') → (∀ t, o ≠ OutputTimeout t) → 0 ≤ pending w' < pending w.
Proof.
  unfold poll, pending. pose proof (before_timeout_bound (outputs w)).
  destruct (outputs w) as [|[t|c|e] l]; intros [= <- <-] Ho; cbn;
    try (by destruct (Ho _ eq_refl)); pose proof (before_timeout_bound l); lia.
Qed.

#[export] Instance quiet : HandshakeQuiet World queued broken pending.
Proof.
  constructor; [constructor; try done|].
  - intros w. cbn. unfold poll. by destruct (outputs w) as [|[] ?].
  - intros w t w'. cbn. unfold poll. by destruct (outputs w) as [|[] ?]; intros [= <- <-].
  - apply poll_consumes.
  - intros w. cbn. unfold pending. pose proof (before_timeout_bound (outputs w)). lia.
  - intros w. cbn. unfold receive. by destruct (datagrams w).
  - intros s w. cbn. by destruct (replies w).
Qed.

#[export] Instance keeps_clock : HandshakeKeeps World (later clock).
Proof.
  constructor; [apply _|unfold later; cbn; try lia..].
  - intros w. unfold receive. destruct (datagrams w); cbn; unfold UDP_READ_TIMEOUT, MILLISECOND; lia.
  - intros s w. destruct (replies w); cbn; unfold MILLISECOND; lia.
Qed.

#[export] Instance time_laws : HandshakeTime World clock pending.
Proof.
  constructor; [constructor; cbn; intros; lia|apply _|..]; try done.
  - intros w. cbn. unfold receive.
    destruct (datagrams w); cbn; unfold UDP_READ_TIMEOUT, MILLISECOND; lia.
  - intros w. cbn. unfold poll. by destruct (outputs w) as [|[] ?].
  - apply poll_consumes.
Qed.

#[export] Instance log : HandshakeLog World emitted.
Proof.
  constructor.
  - constructor; try done.
    + split; [by intros w|]. intros w1 w2 w3. unfold same_events. congruence.
    + intros w. unfold same_events. cbn. unfold receive. by destruct (datagrams w).
    + intros s w. unfold same_events. cbn. by destruct (replies w).
  - intros w e w'. cbn. unfold poll. destruct (outputs w) as [|[] ?]; intros [= <- <-]; done.
  - intros w r w'. cbn. unfold poll. destruct (outputs w) as [|[t|c|e] l]; intros [= <- <-]; try done.
    intros He. by destruct (He e).
Qed.

(** The engine reports its candidates, answers two datagrams and is connected. *)
Definition start : World :=
  mkWorld 0 [OutputTransmit [1]; OutputTimeout 100; OutputEvent OtherEvent; OutputTimeout 200;
             OutputEvent ConnectedEvent] [[2]; [3]] [] [] false 0.

(** A relay that answers the offer. *)
Definition relay : World :=
  mkWorld 0 [OutputTimeout 100; OutputTimeout 200; OutputEvent ConnectedEvent] [[2]]
    [lit "v=0"] [] false 0.

End Script.

Import Script.

Lemma subscriber_polls_between_mutations_witness :
  broken start = 0%nat ∧
  match connect_loop 9 (subscriber_step 1) SECOND start with
  | inl w | inr (_, w) => broken w = broken start
  end.
Proof.
  split; [vm_compute; reflexivity|].
  exact (subscriber_polls_between_mutations 9 1 SECOND start).
Defined.

(** The publisher's loop hands the engine the time, a datagram and candidates without
    polling in between: the same peer finds it with undrained outputs. *)
Example publisher_undrained :
  match connect_loop 9 (λ _, publisher_step 1) SECOND start with
  | inl w | inr (_, w) => (0 < broken w)%nat
  end.
Proof. vm_compute. lia. Qed.

(** Neither loop polls on when it sees [Connected]: what the last mutation queued behind the
    event is left to the caller, whose first mutation finds it. *)
Example connected_leaves_outputs :
  match connect_loop 9 (λ _, publisher_step 1) SECOND start with
  | inr (Ok true, w) => queued w = true
  | _ => False
  end.
Proof. vm_compute. reflexivity. Qed.

Lemma connect_loop_verdict_witness :
  ∃ w before, connect_loop 9 (step_of false 1) SECOND start = inr (Ok true, w) ∧
    (ConnectedEvent ∉ before) ∧ emitted w = emitted start ++ before ++ [ConnectedEvent].
Proof.
  eexists. assert (connect_loop 9 (step_of false 1) SECOND start = inr (Ok true, _)) as Hc
    by (vm_compute; reflexivity).
  destruct (connect_loop_verdict clock emitted (ht_clock (time := clock) (pending := pending))
    false 9 1 SECOND start true _ Hc) as (before & Hb & He).
  exists before. split; [exact Hc|]. split; [exact Hb|exact He].
Defined.

Lemma answer_wait_outlives_deadline_witness :
  0 < MILLISECOND ∧
  ∃ reads early w, wait_for_sdp_answer reads 1 start = inl (early, w) ∧ 30 * SECOND < clock w.
Proof.
  split; [unfold MILLISECOND; lia|].
  refine (answer_wait_outlives_deadline clock (λ w, replies w = []) 1 MILLISECOND _ (30 * SECOND) start
    eq_refl _); [|unfold MILLISECOND; lia].
  intros w Hw. exists (advance MILLISECOND w). cbn. rewrite Hw. split; [reflexivity|].
  split; [reflexivity|lia].
Defined.

Lemma connect_loop_ends_witness :
  ∃ rounds r, connect_loop rounds (step_of true 1) SECOND start = inr r.
Proof. exact (connect_loop_ends clock pending true 1 SECOND start). Defined.

#[local] Existing Instance Extern.Sample.url_lib.

(** Both handshakes from the first call to the last: the relay resolves, upgrades, answers,
    and the engine connects. *)
Example handshakes_succeed :
  (λ o, fst <$> o) (run_subscriber_handshake (Url := Extern.Sample.Url) 3 9 (lit "ws://relay.example")
     (lit "session") (lit "bus") (lit "token") [] SECOND relay)
  = Some (Ok (mkHandshake 7 [0] (mkSocketAddr (IpV4 9) 5000)))
  ∧ (λ o, fst <$> o) (run_handshake (Url := Extern.Sample.Url) 3 9 (lit "ws://relay.example")
     (lit "session") (lit "token") [mkPublishMedia true 128 (lit "music")] [] None SECOND relay)
  = Some (Ok (mkHandshake 7 [0] (mkSocketAddr (IpV4 9) 5000))).
Proof. split; vm_compute; reflexivity. Qed.
