(* ===== verification/Source.v ===== *)
(** * The Relay bus as a Core source: [relay/src/source.rs]

    [RelayAudioBusSources] reserves a configuration under the source identity Core
    allocated; the driver consumes the reservation when it is prepared, connects a
    subscriber, and turns received Opus frames into emissions with a sequence number, a
    capture timestamp on the local clock and a discontinuity epoch.

    A [Driver] is the driver's fields with the shared observations, the factory's
    reservations and the world. *)

From stdpp Require Import sorting.
From S2P Require Import Prelude Env Text Extern Errors Encoder Proxy Config Transport WebRtc Subscriber Handshake.

Definition SAMPLE_RATE_HZ : Z := 48000.
Definition MAX_PACKET_SAMPLES : nat := 960.
Definition POLL_IDLE : Z := MILLISECOND.

(** The texts of the errors are sanitized elsewhere; the constructors and the fixed part of
    a text are kept. *)
Inductive RelayAudioBusSourceError : Type :=
| InvalidConfiguration (reason : string)
| Manifest
| SessionError
| WrongSession
| ReservationStateUnavailable
| ReservationConflict.

Record RelayAudioBusSourceConfig : Type := mkSourceConfig {
  source_relay_url : text;
  source_session_id : text;
  source_bus_id : text;
  subscriber_token : text;
  source_generation : Z;
  source_startup_timeout : Z;
  no_frame_timeout : Z;
  source_ice_servers : list RelayIceServer;
}.

Definition validate_bounded_identity (field : string) (value : text) (maximum_bytes : nat)
  : Result RelayAudioBusSourceError unit :=
  if bool_decide (value = []) || negb (bool_decide (trim value = value))
     || (maximum_bytes <? len value)%nat
  then Err (InvalidConfiguration field) else Ok ().

Definition validate (c : RelayAudioBusSourceConfig) : Result RelayAudioBusSourceError unit :=
  _ ← validate_bounded_identity "relay_url" (source_relay_url c) 2048;
  _ ← guard_err (negb (starts_with (lit "http://") (source_relay_url c)
                       || starts_with (lit "https://") (source_relay_url c)))
        (InvalidConfiguration "relay_url must use http:// or https://");
  _ ← validate_bounded_identity "relay_session_id" (source_session_id c) 256;
  _ ← validate_bounded_identity "bus_id" (source_bus_id c) 128;
  _ ← guard_err (bool_decide (subscriber_token c = []))
        (InvalidConfiguration "subscriber_token cannot be empty");
  _ ← guard_err (source_generation c =? 0)
        (InvalidConfiguration "source_generation must be non-zero");
  guard_err ((source_startup_timeout c =? 0) || (no_frame_timeout c =? 0))
    (InvalidConfiguration "startup_timeout and no_frame_timeout must be non-zero").

Definition new_config (url session bus token : text) (generation : Z)
  : Result RelayAudioBusSourceError RelayAudioBusSourceConfig :=
  let config := mkSourceConfig url session bus token generation (10 * SECOND) (6 * SECOND) [] in
  _ ← validate config;
  Ok config.

(** ** Observations *)

(** The state behind an [Arc]; [arc] is the address, which says whose state it is. *)
Record ObservationState : Type := mkObservations {
  arc : nat;
  observed_generation : Z;
  prepared_total : Z;
  startup_failures_total : Z;
  connected_total : Z;
  first_frame_total : Z;
  received_frames_total : Z;
  emitted_frames_total : Z;
  noncontiguous_frames_total : Z;
  pool_dropped_frames_total : Z;
  decode_failures_total : Z;
  runtime_failures_total : Z;
  closed_total : Z;
  latest_frame_at_ns : Z;
  observed_closed : bool;
}.

Definition new_observations (address : nat) (generation : Z) : ObservationState :=
  mkObservations address generation 0 0 0 0 0 0 0 0 0 0 0 0 false.

(** [<counter>.fetch_add(1)], one function per counter. *)
Definition count_prepared (o : ObservationState) : ObservationState :=
  let 'mkObservations a g p s c f r e n d x u l t b := o in
  mkObservations a g (wrap_add p 1) s c f r e n d x u l t b.
Definition count_startup_failure (o : ObservationState) : ObservationState :=
  let 'mkObservations a g p s c f r e n d x u l t b := o in
  mkObservations a g p (wrap_add s 1) c f r e n d x u l t b.
Definition count_connected (o : ObservationState) : ObservationState :=
  let 'mkObservations a g p s c f r e n d x u l t b := o in
  mkObservations a g p s (wrap_add c 1) f r e n d x u l t b.
Definition count_first_frame (o : ObservationState) : ObservationState :=
  let 'mkObservations a g p s c f r e n d x u l t b := o in
  mkObservations a g p s c (wrap_add f 1) r e n d x u l t b.
Definition count_received (o : ObservationState) : ObservationState :=
  let 'mkObservations a g p s c f r e n d x u l t b := o in
  mkObservations a g p s c f (wrap_add r 1) e n d x u l t b.
Definition count_emitted (o : ObservationState) : ObservationState :=
  let 'mkObservations a g p s c f r e n d x u l t b := o in
  mkObservations a g p s c f r (wrap_add e 1) n d x u l t b.
Definition count_noncontiguous (o : ObservationState) : ObservationState :=
  let 'mkObservations a g p s c f r e n d x u l t b := o in
  mkObservations a g p s c f r e (wrap_add n 1) d x u l t b.
Definition count_pool_drop (o : ObservationState) : ObservationState :=
  let 'mkObservations a g p s c f r e n d x u l t b := o in
  mkObservations a g p s c f r e n (wrap_add d 1) x u l t b.
Definition count_decode_failure (o : ObservationState) : ObservationState :=
  let 'mkObservations a g p s c f r e n d x u l t b := o in
  mkObservations a g p s c f r e n d (wrap_add x 1) u l t b.
Definition count_runtime_failure (o : ObservationState) : ObservationState :=
  let 'mkObservations a g p s c f r e n d x u l t b := o in
  mkObservations a g p s c f r e n d x (wrap_add u 1) l t b.
Definition store_latest (now_ns : Z) (o : ObservationState) : ObservationState :=
  let 'mkObservations a g p s c f r e n d x u l t b := o in
  mkObservations a g p s c f r e n d x u l now_ns b.

(** [if !closed.swap(true) { closed_total += 1 }] *)
Definition close_observations (o : ObservationState) : ObservationState :=
  let 'mkObservations a g p s c f r e n d x u l t b := o in
  mkObservations a g p s c f r e n d x u (if b then l else wrap_add l 1) t true.

(** ** Reservations *)

Record PendingSource : Type := mkPending {
  pending_config : RelayAudioBusSourceConfig;
  pending_observations : ObservationState;
}.

(** [Mutex<BTreeMap<u64, PendingSource>>] with its poison flag. *)
Record Reservations : Type := mkReservations {
  reservations : gmap Z PendingSource;
  reservations_poisoned : bool;
}.

(** [insert] replaces an existing reservation before the conflict is reported. *)
Definition bind (source_id : Z) (pending : PendingSource) (r : Reservations)
  : Result RelayAudioBusSourceError unit * Reservations :=
  if reservations_poisoned r then (Err ReservationStateUnavailable, r) else
  let previous := reservations r !! source_id in
  let r := mkReservations (<[source_id := pending]> (reservations r)) false in
  (match previous with Some _ => Err ReservationConflict | None => Ok () end, r).

Definition cancel (source_id : Z) (r : Reservations) : Reservations :=
  if reservations_poisoned r then r
  else mkReservations (delete source_id (reservations r)) false.

(** [ConfigError::Invalid] of Core. *)
Record ConfigError : Type := mkConfigError { invalid_key : string; invalid_reason : string }.

Definition validate_config (configuration : list (text * text)) : Result ConfigError unit :=
  match configuration with
  | _ :: _ => Err (mkConfigError "<configuration>" "Relay AudioBus Sources use private Session reservations")
  | [] => Ok ()
  end.

(** What Core answers to [session.source(..)] and [source.output(..)]. *)
Record Declaration : Type := mkDeclaration {
  declared_source : option Z;
  declared_output : bool;
}.

(** [address] is that of the observations the declaration allocates. *)
Definition declare (address : nat) (core_session_id session_id : Z) (core : Declaration)
  (config : RelayAudioBusSourceConfig) (r : Reservations)
  : Result RelayAudioBusSourceError (Z * ObservationState) * Reservations :=
  if negb (session_id =? core_session_id) then (Err WrongSession, r) else
  match validate config with
  | Err e => (Err e, r)
  | Ok _ =>
      match declared_source core with
      | None => (Err SessionError, r)
      | Some source_id =>
          let observations := new_observations address (source_generation config) in
          match bind source_id (mkPending config observations) r with
          | (Err e, r) => (Err e, r)
          | (Ok _, r) =>
              if declared_output core then (Ok (source_id, observations), r)
              else (Err SessionError, cancel source_id r)
          end
      end
  end.

(** ** The driver *)

Record SourceSessionContext : Type := mkSession {
  session_source_id : Z;
  (** [output("audio")] *)
  session_output : option Z;
}.

Record DecodedFrame : Type := mkDecoded {
  samples : list f32;
  timestamp_ns : Z;
  duration_ns : Z;
  sequence_number : Z;
  frame_epoch : Z;
}.

Record SourceEmission : Type := mkEmission {
  emitted_frame : DecodedFrame;
  emitted_stream : Z;
  emitted_generation : Z;
}.

Record Driver (W : Type) : Type := mkDriver {
  pending : Reservations;
  session : option SourceSessionContext;
  config : option RelayAudioBusSourceConfig;
  observations : option ObservationState;
  connection : option (SubscriberConnection unit);
  decoder : bool;
  pending_frame : option DecodedFrame;
  first_rtp_timestamp : option Z;
  first_local_timestamp_ns : option Z;
  previous_rtp_timestamp : option Z;
  next_sequence : Z;
  discontinuity_epoch : Z;
  last_delivery : option Z;
  seen_frame : bool;
  world : W;
}.
Arguments mkDriver {W}.
Arguments pending {W} d.
Arguments session {W} d.
Arguments config {W} d.
Arguments observations {W} d.
Arguments connection {W} d.
Arguments decoder {W} d.
Arguments pending_frame {W} d.
Arguments first_rtp_timestamp {W} d.
Arguments first_local_timestamp_ns {W} d.
Arguments previous_rtp_timestamp {W} d.
Arguments next_sequence {W} d.
Arguments discontinuity_epoch {W} d.
Arguments last_delivery {W} d.
Arguments seen_frame {W} d.
Arguments world {W} d.

(** Core, the codec, the handshake and cancellation. *)
Class SourceEnv (W : Type) : Type := {
  source_subscriber :: SubscriberEnv W;
  source_handshake :: HandshakeEnv W;
  one_engine : @subscriber_rtc W source_subscriber = @hs_rtc W source_handshake;
  source_url : Type;
  source_url_lib :: UrlLib source_url;
  monotonic_timestamp_ns : W → Z * W;
  new_decoder : W → bool * W;
  (** [OpusDecoder::decode_into] *)
  decode_into : list Z → W → option (list f32) * W;
  (** [AudioBufferPool] *)
  available_slots : W → Z * W;
  acquire : W → bool * W;
  (** the checked constructors of the frame, its lineage and its timing *)
  emission_valid : SourceSessionContext → Z → DecodedFrame → Z → W → bool * W;
  is_cancelled : W → bool * W;
}.

Section Driver.
Context {W : Type} `{SourceEnv W}.
Local Abbreviation Drv := (Driver W).
Local Abbreviation dio := (io Drv BoxedError).

Definition with_world (w : W) (d : Drv) : Drv :=
  mkDriver (pending d) (session d) (config d) (observations d) (connection d) (decoder d)
    (pending_frame d) (first_rtp_timestamp d) (first_local_timestamp_ns d)
    (previous_rtp_timestamp d) (next_sequence d) (discontinuity_epoch d) (last_delivery d)
    (seen_frame d) w.
Definition with_pending (r : Reservations) (d : Drv) : Drv :=
  mkDriver r (session d) (config d) (observations d) (connection d) (decoder d)
    (pending_frame d) (first_rtp_timestamp d) (first_local_timestamp_ns d)
    (previous_rtp_timestamp d) (next_sequence d) (discontinuity_epoch d) (last_delivery d)
    (seen_frame d) (world d).
Definition with_identity (s : SourceSessionContext) (p : PendingSource) (d : Drv) : Drv :=
  mkDriver (pending d) (Some s) (Some (pending_config p)) (Some (pending_observations p))
    (connection d) (decoder d) (pending_frame d) (first_rtp_timestamp d)
    (first_local_timestamp_ns d) (previous_rtp_timestamp d) (next_sequence d)
    (discontinuity_epoch d) (last_delivery d) (seen_frame d) (world d).
Definition observe (f : ObservationState → ObservationState) (d : Drv) : Drv :=
  mkDriver (pending d) (session d) (config d) (f <$> observations d) (connection d) (decoder d)
    (pending_frame d) (first_rtp_timestamp d) (first_local_timestamp_ns d)
    (previous_rtp_timestamp d) (next_sequence d) (discontinuity_epoch d) (last_delivery d)
    (seen_frame d) (world d).
Definition with_connection (c : option (SubscriberConnection unit)) (d : Drv) : Drv :=
  mkDriver (pending d) (session d) (config d) (observations d) c (decoder d)
    (pending_frame d) (first_rtp_timestamp d) (first_local_timestamp_ns d)
    (previous_rtp_timestamp d) (next_sequence d) (discontinuity_epoch d) (last_delivery d)
    (seen_frame d) (world d).
Definition with_decoder (b : bool) (d : Drv) : Drv :=
  mkDriver (pending d) (session d) (config d) (observations d) (connection d) b
    (pending_frame d) (first_rtp_timestamp d) (first_local_timestamp_ns d)
    (previous_rtp_timestamp d) (next_sequence d) (discontinuity_epoch d) (last_delivery d)
    (seen_frame d) (world d).
Definition with_pending_frame (f : option DecodedFrame) (d : Drv) : Drv :=
  mkDriver (pending d) (session d) (config d) (observations d) (connection d) (decoder d)
    f (first_rtp_timestamp d) (first_local_timestamp_ns d)
    (previous_rtp_timestamp d) (next_sequence d) (discontinuity_epoch d) (last_delivery d)
    (seen_frame d) (world d).
Definition with_anchor (rtp local : option Z) (d : Drv) : Drv :=
  mkDriver (pending d) (session d) (config d) (observations d) (connection d) (decoder d)
    (pending_frame d) rtp local
    (previous_rtp_timestamp d) (next_sequence d) (discontinuity_epoch d) (last_delivery d)
    (seen_frame d) (world d).
Definition with_previous (rtp : Z) (d : Drv) : Drv :=
  mkDriver (pending d) (session d) (config d) (observations d) (connection d) (decoder d)
    (pending_frame d) (first_rtp_timestamp d) (first_local_timestamp_ns d)
    (Some rtp) (next_sequence d) (discontinuity_epoch d) (last_delivery d)
    true (world d).
Definition next_epoch (d : Drv) : Drv :=
  mkDriver (pending d) (session d) (config d) (observations d) (connection d) (decoder d)
    (pending_frame d) (first_rtp_timestamp d) (first_local_timestamp_ns d)
    (previous_rtp_timestamp d) (next_sequence d) (sat_add (discontinuity_epoch d) 1)
    (last_delivery d) (seen_frame d) (world d).
Definition count_sequence (d : Drv) : Drv :=
  mkDriver (pending d) (session d) (config d) (observations d) (connection d) (decoder d)
    (pending_frame d) (first_rtp_timestamp d) (first_local_timestamp_ns d)
    (previous_rtp_timestamp d) (sat_add (next_sequence d) 1) (discontinuity_epoch d)
    (last_delivery d) (seen_frame d) (world d).
Definition delivered_at (t : Z) (d : Drv) : Drv :=
  mkDriver (pending d) (session d) (config d) (observations d) (connection d) (decoder d)
    (pending_frame d) (first_rtp_timestamp d) (first_local_timestamp_ns d)
    (previous_rtp_timestamp d) (next_sequence d) (discontinuity_epoch d) (Some t)
    (seen_frame d) (world d).

Definition on_world {A} (m : W → A * W) : dio A :=
  λ d, let '(a, w) := m (world d) in (Ok a, with_world w d).
Definition gets {A} (f : Drv → A) : dio A := λ d, (Ok (f d), d).
Definition failed {A} (m : string) : dio A := io_fail (Message m).

(** Runs an operation of the connection on the driver's world. *)
Definition attach (c : SubscriberConnection unit) (w : W) : SubscriberConnection W :=
  mkConnection (ws c) (mid c) (session_id c) (pending_events c) (next_rtc_timeout c)
    (last_keepalive c) (closed c) w.
Definition detach (c : SubscriberConnection W) : SubscriberConnection unit :=
  mkConnection (ws c) (mid c) (session_id c) (pending_events c) (next_rtc_timeout c)
    (last_keepalive c) (closed c) ().
Definition on_connection {A} (c : SubscriberConnection unit)
  (m : io (SubscriberConnection W) BoxedError A) (d : Drv) : Result BoxedError A * Drv :=
  let '(r, c) := m (attach c (world d)) in
  (r, with_connection (Some (detach c)) (with_world (Subscriber.world c) d)).

Definition observation_state : dio unit :=
  o ← gets observations;
  match o with Some _ => mret () | None => failed "source observations are absent" end.

Definition observe_closed (d : Drv) : Drv := observe close_observations d.

(** [fail_startup]: counts, closes the connection, and answers the error. *)
Definition fail_startup {A} (e : BoxedError) : dio A :=
  λ d, let d := observe count_startup_failure d in
       let d := match connection d with
                | Some c => (on_connection c Subscriber.close d).2
                | None => d
                end in
       (Err e, observe_closed d).

Definition poll_encoded : dio (option ReceivedOpusFrame) :=
  c ← gets connection;
  match c with
  | None => failed "subscriber is not prepared"
  | Some c => on_connection c poll_frame
  end.

(** [u64::try_from(u128(a) * 1e9 / u128(b)).unwrap_or(u64::MAX)] *)
Definition ticks_to_ns (ticks hz : Z) : Z := u64_or_max (ticks * SECOND / hz).

(** The part of [decode] before the decoder: continuity of the RTP timeline. *)
Definition arrive (encoded : ReceivedOpusFrame) (d : Drv) : Drv :=
  let d := observe count_received d in
  let d := if seen_frame d && negb (contiguous encoded)
           then observe count_noncontiguous (next_epoch d) else d in
  let d := if from_option (λ p, rtp_timestamp encoded <? p) false (previous_rtp_timestamp d)
           then with_anchor None None (next_epoch d) else d in
  with_previous (rtp_timestamp encoded) d.

(** The part after it: the timestamp on the local clock and the sequence number. *)
Definition stamp (encoded : ReceivedOpusFrame) (decoded : list f32) : dio DecodedFrame :=
  now_ns ← on_world monotonic_timestamp_ns;
  first_rtp ← gets (λ d, default (rtp_timestamp encoded) (first_rtp_timestamp d));
  first_local ← gets (λ d, default now_ns (first_local_timestamp_ns d));
  _ ← io_modify (with_anchor (Some first_rtp) (Some first_local));
  let delta_ns := ticks_to_ns (sat_sub (rtp_timestamp encoded) first_rtp) (rtp_clock_hz encoded) in
  sequence ← gets next_sequence;
  _ ← io_modify count_sequence;
  t ← on_world now;
  _ ← io_modify (delivered_at t);
  _ ← io_modify (observe (store_latest now_ns));
  epoch ← gets discontinuity_epoch;
  mret {| samples := decoded; timestamp_ns := sat_add first_local delta_ns;
          duration_ns := ticks_to_ns (Z.of_nat (length decoded)) SAMPLE_RATE_HZ;
          sequence_number := sequence; frame_epoch := epoch |}.

Definition decode (encoded : ReceivedOpusFrame) : dio DecodedFrame :=
  _ ← observation_state;
  _ ← io_modify (arrive encoded);
  ready ← gets decoder;
  if negb ready then failed "Opus decoder is not prepared" else
  decoded ← on_world (decode_into (Subscriber.payload encoded));
  match decoded with
  | None => _ ← io_modify (observe count_decode_failure); failed "Opus decoder"
  | Some decoded =>
      if negb (bool_decide (length decoded = MAX_PACKET_SAMPLES))
      then _ ← io_modify (observe count_decode_failure); failed "unsupported decoded Opus frame size"
      else stamp encoded decoded
  end.

Definition emission (f : DecodedFrame) : dio SourceEmission :=
  s ← gets session;
  s ← io_result (ok_or (Message "Session context is absent") s);
  output ← io_result (ok_or (Message "Relay AudioBus output identity is absent") (session_output s));
  buffer ← on_world acquire;
  if negb buffer then failed "Relay AudioBus audio pool is exhausted" else
  c ← gets config;
  c ← io_result (ok_or (Message "source config is absent") c);
  valid ← on_world (emission_valid s output f (source_generation c));
  if negb valid then failed "emission" else
  _ ← observation_state;
  _ ← io_modify (observe count_emitted);
  mret (mkEmission f output (source_generation c)).

Definition emission_or_drop (f : DecodedFrame) : dio (option SourceEmission) :=
  slots ← on_world available_slots;
  if slots =? 0 then
    _ ← io_modify next_epoch;
    _ ← observation_state;
    _ ← io_modify (observe count_pool_drop);
    mret None
  else
    e ← emission f;
    mret (Some e).

(** [inspect_err(|_| self.observe_runtime_failure())] *)
Definition or_runtime_failure {A} (m : dio A) : dio A :=
  λ d, match m d with
       | (Err e, d) => (Err e, observe count_runtime_failure d)
       | r => r
       end.

(** A received frame on its way out of [next]. *)
Definition deliver (encoded : ReceivedOpusFrame) : dio (option SourceEmission) :=
  f ← or_runtime_failure (decode encoded);
  emission_or_drop f.

(** One pass of [next]'s loop: [Some None] when cancelled. *)
Definition next_round : dio (option (option SourceEmission)) :=
  cancelled ← on_world is_cancelled;
  if cancelled : bool then mret (Some None) else
  encoded ← or_runtime_failure poll_encoded;
  match encoded with
  | Some encoded => e ← deliver encoded; mret (Some <$> e)
  | None =>
      c ← gets config;
      c ← io_result (ok_or (Message "source is not prepared") c);
      last ← gets last_delivery;
      idle ← match last with
             | Some last => t ← on_world now; mret (no_frame_timeout c <=? t - last)
             | None => mret false
             end;
      if idle : bool then
        _ ← observation_state;
        _ ← io_modify (observe count_runtime_failure);
        failed "Relay AudioBus delivered no media frame"
      else
        _ ← io_modify (λ d, with_world (sleep POLL_IDLE (world d)) d);
        mret None
  end.

(** At most [rounds] passes; [inl] while still waiting for a frame. *)
Definition next (rounds : positive) (d : Drv)
  : Drv + (Result BoxedError (option SourceEmission) * Drv) :=
  match pending_frame d with
  | Some f => inr ((e ← emission f; mret (Some e)) (with_pending_frame None d))
  | None => run_until rounds (io_round next_round) d
  end.

Definition close : dio unit :=
  λ d, let '(r, d) := match connection d with
                      | Some c => on_connection c Subscriber.close d
                      | None => (Ok (), d)
                      end in
       (r, observe_closed d).

(** *** Preparation *)

(** [match m { Ok(v) => v, Err(error) => return Err(self.fail_startup(..)) }] *)
Definition or_fail_startup {A} (m : dio A) : dio A :=
  λ d, match m d with
       | (Ok a, d) => (Ok a, d)
       | (Err e, d) => fail_startup e d
       end.

(** Takes the reservation out of the factory. *)
Definition consume_reservation (context : option SourceSessionContext) : dio unit :=
  s ← io_result (ok_or (Message "Relay AudioBus Source requires Session identity") context);
  r ← gets pending;
  if reservations_poisoned r then failed "Relay AudioBus reservation state is unavailable" else
  p ← io_result (ok_or (Message "Relay AudioBus Source reservation is absent or consumed")
                   (reservations r !! session_source_id s));
  _ ← io_modify (with_pending (mkReservations (delete (session_source_id s) (reservations r)) false));
  io_modify (with_identity s (mkPending (pending_config p) (count_prepared (pending_observations p)))).

(** [run_subscriber_handshake]: the signaling connection and the negotiated media; [None]
    while it still waits after the given messages and passes. *)
Definition subscriber_handshake (reads rounds : positive) (c : RelayAudioBusSourceConfig) (d : Drv)
  : option (Result BoxedError (Ws * list Mid) * Drv) :=
  match run_subscriber_handshake (Url := source_url) reads rounds
          (source_relay_url c) (source_session_id c) (source_bus_id c) (subscriber_token c)
          (source_ice_servers c) (source_startup_timeout c) (world d) with
  | Some (r, w) => Some ((λ h, (handshake_ws h, mids h)) <$> r, with_world w d)
  | None => None
  end.

(** What becomes of the handshake's result. *)
Definition connect (c : RelayAudioBusSourceConfig) (handshake_result : Result BoxedError (Ws * list Mid))
  : dio unit :=
  handshake ← or_fail_startup (io_result handshake_result);
  connection ← or_fail_startup (λ d,
    let '(r, w) := Subscriber.new handshake.1 handshake.2 (source_session_id c) (world d) in
    (detach <$> r, with_world w d));
  _ ← io_modify (with_connection (Some connection));
  _ ← observation_state;
  _ ← io_modify (observe count_connected);
  ready ← on_world new_decoder;
  if negb ready then fail_startup (Message "Opus decoder") else
  io_modify (with_decoder true).

(** A pass of the wait for the first frame. *)
Definition startup_round (deadline : Z) : dio (option unit) :=
  t ← on_world now;
  if deadline <=? t
  then fail_startup (Message "Relay AudioBus connected but delivered no Opus frame before startup timeout")
  else
    encoded ← or_fail_startup poll_encoded;
    match encoded with
    | Some encoded =>
        f ← or_fail_startup (decode encoded);
        _ ← io_modify (with_pending_frame (Some f));
        _ ← observation_state;
        _ ← io_modify (observe count_first_frame);
        t ← on_world now;
        _ ← io_modify (delivered_at t);
        mret (Some ())
    | None =>
        _ ← io_modify (λ d, with_world (sleep POLL_IDLE (world d)) d);
        mret None
    end.

(** A pass without a frame sleeps for a millisecond. *)
Definition startup_bound (timeout : Z) : positive := Z.to_pos (timeout / POLL_IDLE + 3).

(** The reservation is consumed, and its configuration is the driver's. *)
Definition prepare_config (context : option SourceSessionContext) : dio RelayAudioBusSourceConfig :=
  _ ← consume_reservation context;
  c ← gets config;
  io_result (ok_or (Message "Relay AudioBus config is absent") c).

(** After the handshake: the connection, and the wait for the first frame. *)
Definition prepare_connected (c : RelayAudioBusSourceConfig)
  (handshake_result : Result BoxedError (Ws * list Mid)) : dio unit :=
  _ ← connect c handshake_result;
  t ← on_world now;
  match checked_add W t (source_startup_timeout c) with
  | None => fail_startup (Message "startup deadline overflow")
  | Some deadline =>
      io_loop (startup_bound (source_startup_timeout c)) exhausted (startup_round deadline)
  end.

(** [None] while the handshake still waits. *)
Definition prepare (reads rounds : positive) (context : option SourceSessionContext) (d : Drv)
  : option (Result BoxedError unit * Drv) :=
  match prepare_config context d with
  | (Err e, d) => Some (Err e, d)
  | (Ok c, d) =>
      match subscriber_handshake reads rounds c d with
      | None => None
      | Some (handshake_result, d) => Some (prepare_connected c handshake_result d)
      end
  end.

(** A [SourceConfiguration] is iterated as its entries; a driver's [Failed] error is the
    text of the [ConfigError]. *)
Definition create (configuration : list (text * text)) (r : Reservations) (w : W)
  : Result ConfigError Drv :=
  _ ← validate_config configuration;
  Ok (mkDriver r None None None None false None None None None 0 0 None false w).
End Driver.

(** ** The timeline of the emissions *)

Section Timeline.
Context {W : Type} `{SourceEnv W}.
Local Abbreviation Drv := (Driver W).
Implicit Types d : Drv.

(** The emissions of a sequence of received frames, whatever becomes of each: decoded,
    refused by the decoder, dropped for want of a buffer. *)
Fixpoint deliver_all (frames : list ReceivedOpusFrame) (d : Drv) : list SourceEmission * Drv :=
  match frames with
  | [] => ([], d)
  | f :: frames =>
      let '(r, d) := deliver f d in
      let '(es, d) := deliver_all frames d in
      (match r with Ok (Some e) => e :: es | _ => es end, d)
  end.

(** [g] comes after [f]: a larger number, and no earlier timestamp within an epoch. *)
Definition precedes (f g : DecodedFrame) : Prop :=
  sequence_number f < sequence_number g ∧ frame_epoch f ≤ frame_epoch g
  ∧ (frame_epoch f = frame_epoch g → timestamp_ns f ≤ timestamp_ns g).

Definition follows (e1 e2 : SourceEmission) : Prop := precedes (emitted_frame e1) (emitted_frame e2).

Lemma ticks_to_ns_mono a b hz : 0 < hz → a ≤ b → ticks_to_ns a hz ≤ ticks_to_ns b hz.
Proof.
  intros Hh Hab. unfold ticks_to_ns, u64_or_max.
  assert (a * SECOND / hz ≤ b * SECOND / hz) by (apply Z.div_le_mono; unfold SECOND; lia).
  repeat case_match; bool_props; u64_unfold; lia.
Qed.

(** What the timeline depends on. *)
Definition timing (d : Drv) : option Z * option Z * option Z * Z * Z :=
  (first_rtp_timestamp d, first_local_timestamp_ns d, previous_rtp_timestamp d,
   next_sequence d, discontinuity_epoch d).

Section Clock.
Context (hz : Z) (Hhz : 0 < hz).

(** [d] is past [f]: a later frame gets a larger number, and in the same epoch a later
    timestamp. *)
Definition past (f : DecodedFrame) (d : Drv) : Prop :=
  sequence_number f < next_sequence d ∧ frame_epoch f ≤ discontinuity_epoch d
  ∧ (frame_epoch f = discontinuity_epoch d →
     ∃ rtp local previous, first_rtp_timestamp d = Some rtp
       ∧ first_local_timestamp_ns d = Some local ∧ previous_rtp_timestamp d = Some previous
       ∧ timestamp_ns f ≤ sat_add local (ticks_to_ns (sat_sub previous rtp) hz)).

Lemma past_timing f d d' : timing d' = timing d → past f d → past f d'.
Proof. intros [= E1 E2 E3 E4 E5]. unfold past. by rewrite E1, E2, E3, E4, E5. Qed.

Definition room (n : Z) (d : Drv) : Prop :=
  next_sequence d + n < U64_MAX ∧ discontinuity_epoch d + 3 * n < U64_MAX.

Lemma past_next_epoch f d : discontinuity_epoch d < U64_MAX → past f d → past f (next_epoch d).
Proof.
  intros Hb (Hs & He & Ht). unfold past, next_epoch. cbn.
  rewrite sat_add_exact by (unfold U64_MAX in *; lia). split; [done|]. split; [lia|]. lia.
Qed.

Lemma arrive_next e d :
  next_sequence (arrive e d) = next_sequence d
  ∧ previous_rtp_timestamp (arrive e d) = Some (rtp_timestamp e)
  ∧ (discontinuity_epoch d + 2 < U64_MAX →
     discontinuity_epoch d ≤ discontinuity_epoch (arrive e d) ≤ discontinuity_epoch d + 2).
Proof.
  unfold arrive. case_match; case_match; cbn; (split; [done|]); (split; [done|]); intros Hb;
    rewrite ?sat_add_exact; rewrite ?sat_add_exact; unfold U64_MAX in *; lia.
Qed.

Lemma past_arrive e f d :
  discontinuity_epoch d + 2 < U64_MAX → past f d → past f (arrive e d).
Proof.
  intros Hb Hf. unfold arrive.
  set (d1 := observe count_received d).
  set (d2 := if seen_frame d1 && _ then _ else _).
  assert (past f d2 ∧ discontinuity_epoch d2 ≤ discontinuity_epoch d + 1) as [H2 Hb2].
  { unfold d2. case_match; [|split; [done|]; cbn; lia]. split; [|cbn; unfold sat_add; lia].
    apply (past_timing _ (next_epoch d1)); [done|]. apply past_next_epoch; [cbn; lia|done]. }
  destruct (from_option _ false (previous_rtp_timestamp d2)) eqn:Er.
  - destruct H2 as (Hs & He & _). unfold past. cbn.
    rewrite sat_add_exact by (unfold U64_MAX in *; lia). split; [done|]. split; lia.
  - destruct H2 as (Hs & He & Ht). split; [done|]. split; [done|]. intros E.
    destruct (Ht E) as (rtp & local & previous & H3 & H4 & H5 & H6).
    exists rtp, local, (rtp_timestamp e). repeat split; [done..|].
    rewrite H5 in Er. cbn in Er. bool_props. etrans; [apply H6|].
    assert (ticks_to_ns (sat_sub previous rtp) hz ≤ ticks_to_ns (sat_sub (rtp_timestamp e) rtp) hz)
      by (apply ticks_to_ns_mono; [done|]; unfold sat_sub; lia).
    unfold sat_add. lia.
Qed.

(** The frame [stamp] makes comes after every frame the driver is past. *)
Lemma stamp_spec e x d r d' :
  rtp_clock_hz e = hz → previous_rtp_timestamp d = Some (rtp_timestamp e) →
  next_sequence d < U64_MAX → stamp e x d = (r, d') →
  ∃ g, r = Ok g ∧ next_sequence d' = next_sequence d + 1
    ∧ discontinuity_epoch d' = discontinuity_epoch d ∧ past g d'
    ∧ ∀ f, past f d → past f d' ∧ precedes f g.
Proof.
  intros He Hp Hs. unfold stamp, mbind, io_bind, on_world, gets, io_modify.
  destruct (monotonic_timestamp_ns (world d)) as [now_ns w1]. cbn.
  destruct (now w1) as [t w2]. intros [= <- <-].
  eexists. split; [reflexivity|]. cbn. rewrite sat_add_exact by lia.
  split; [done|]. split; [done|]. split.
  - split; [cbn; rewrite sat_add_exact; lia|]. split; [done|]. intros _. cbn. rewrite Hp, He.
    eexists _, _, _. repeat split; reflexivity.
  - intros f (Hs' & Hep & Ht). split.
    + split; [cbn; rewrite sat_add_exact; lia|]. split; [done|]. cbn. intros E.
      destruct (Ht E) as (rtp & local & previous & E1 & E2 & E3 & E4).
      exists rtp, local, previous. rewrite E1, E2. done.
    + split; [done|]. split; [done|]. intros E.
      destruct (Ht E) as (rtp & local & previous & E1 & E2 & E3 & E4).
      rewrite E1, E2. cbn. rewrite He. rewrite Hp in E3. by injection E3 as <-.
Qed.

Lemma observation_state_run d :
  observation_state d =
  (match observations d with Some _ => Ok () | None => Err (Message "source observations are absent") end, d).
Proof. unfold observation_state, mbind, io_bind, gets. by destruct (observations d). Qed.

(** Decoding, whether or not it succeeds. *)
Lemma decode_spec e d r d' :
  rtp_clock_hz e = hz → room 1 d → decode e d = (r, d') →
  next_sequence d' ≤ next_sequence d + 1 ∧ discontinuity_epoch d' ≤ discontinuity_epoch d + 2
  ∧ (∀ f, past f d → past f d')
  ∧ ∀ g, r = Ok g → past g d' ∧ ∀ f, past f d → precedes f g.
Proof.
  intros He [Hs Hb]. unfold decode, mbind, io_bind at 1. rewrite observation_state_run.
  destruct (observations d); [|by intros [= <- <-]; split; [lia|]; split; [lia|]].
  unfold io_bind at 1, io_modify at 1. set (d1 := arrive e d).
  destruct (arrive_next e d) as (Hs1 & Hp1 & Hb1). specialize (Hb1 ltac:(lia)). fold d1 in Hs1, Hp1, Hb1.
  assert (∀ f, past f d → past f d1) as Hpast by (intros; apply past_arrive; [lia|done]).
  assert (∀ d2, timing d2 = timing d1 →
    next_sequence d2 ≤ next_sequence d + 1 ∧ discontinuity_epoch d2 ≤ discontinuity_epoch d + 2
    ∧ (∀ f, past f d → past f d2)) as Hsame.
  { intros d2 E. pose proof (f_equal (λ t, t.1.2) E) as E1. pose proof (f_equal snd E) as E2.
    cbn [timing fst snd] in E1, E2.
    split; [lia|]. split; [lia|]. intros f Hf. apply (past_timing f d1 d2 E), Hpast, Hf. }
  unfold mbind, io_bind at 1, gets. destruct (decoder d1); cbn [negb].
  2: { intros [= <- <-]. by destruct (Hsame d1 eq_refl) as (? & ? & ?). }
  unfold io_bind at 1, on_world at 1. destruct (decode_into _ (world d1)) as [[x|] w].
  2: { intros [= <- <-]. destruct (Hsame _ eq_refl) as (H1 & H2 & H3). split; [exact H1|]. by split. }
  case_match.
  { intros [= <- <-]. destruct (Hsame _ eq_refl) as (H1 & H2 & H3). split; [exact H1|]. by split. }
  intros E. apply stamp_spec in E as (g & -> & E1 & E2 & E3 & E4); [|done|done|change (next_sequence d1 < U64_MAX); lia].
  change (next_sequence d' = next_sequence d1 + 1) in E1.
  change (discontinuity_epoch d' = discontinuity_epoch d1) in E2. split; [lia|]. split; [lia|].
  assert (∀ f, past f d → past f (with_world w d1)) as Hpw by (intros f Hf; by apply (past_timing f d1), Hpast).
  split; [intros f Hf; by apply E4, Hpw|]. intros g' [= <-]. split; [done|]. intros f Hf. by apply E4, Hpw.
Qed.

Lemma emission_timing f d r d' :
  emission f d = (r, d') → timing d' = timing d ∧ ∀ e, r = Ok e → emitted_frame e = f.
Proof.
  unfold emission, mbind, io_bind, gets, io_result, on_world, failed, io_fail, io_modify. cbn.
  destruct (session d) as [s|]; cbn; [|by intros [= <- <-]].
  destruct (session_output s) as [o|]; cbn; [|by intros [= <- <-]].
  destruct (acquire (world d)) as [[] w]; cbn; [|by intros [= <- <-]].
  destruct (config d) as [c|]; cbn; [|by intros [= <- <-]].
  destruct (emission_valid _ _ _ _ w) as [[] w']; cbn; [|by intros [= <- <-]].
  rewrite observation_state_run. cbn.
  destruct (observations d); cbn; intros [= <- <-]; [|done].
  split; [done|]. by intros e [= <-].
Qed.

Lemma emission_or_drop_timing f d r d' :
  emission_or_drop f d = (r, d') →
  (timing d' = timing d ∨ timing d' = timing (next_epoch d))
  ∧ ∀ e, r = Ok (Some e) → emitted_frame e = f.
Proof.
  unfold emission_or_drop, mbind, io_bind at 1, on_world.
  destruct (available_slots (world d)) as [n w]. case_match.
  - unfold io_bind at 1, io_modify at 1. unfold io_bind. rewrite observation_state_run. cbn.
    destruct (observations d); cbn; intros [= <- <-]; (split; [by right|done]).
  - unfold io_bind. destruct (emission f _) as [[e|e] d1] eqn:E;
      apply emission_timing in E as [E1 E2]; cbn; intros [= <- <-].
    + split; [by left|]. intros e' [= <-]. by apply E2.
    + split; [by left|done].
Qed.

Lemma deliver_spec e d r d' n :
  rtp_clock_hz e = hz → 0 ≤ n → room (n + 1) d → deliver e d = (r, d') →
  room n d' ∧ (∀ f, past f d → past f d')
  ∧ ∀ em, r = Ok (Some em) → past (emitted_frame em) d'
      ∧ ∀ f, past f d → precedes f (emitted_frame em).
Proof.
  intros He Hn [Hs Hb]. unfold deliver, or_runtime_failure, mbind, io_bind.
  destruct (decode e d) as [[g|err] d1] eqn:E; apply decode_spec in E as (H1 & H2 & H3 & H4);
    try done; try (split; lia).
  - destruct (H4 g eq_refl) as [Hg Hfg]. intros E.
    apply emission_or_drop_timing in E as [Ht Hem].
    assert (room n d' ∧ ∀ f, past f d1 → past f d') as [Hroom Hpast].
    { destruct Ht as [Ht|Ht]; pose proof (f_equal (λ t, t.1.2) Ht) as E1;
        pose proof (f_equal snd Ht) as E2; cbn [timing fst snd] in E1, E2.
      - split; [split; lia|]. intros f. by apply past_timing.
      - cbn in E1, E2. rewrite sat_add_exact in E2 by lia. split; [split; lia|].
        intros f Hf. apply (past_timing f (next_epoch d1)); [done|]. apply past_next_epoch; [lia|done]. }
    split; [done|]. split; [auto|]. intros em ->. rewrite (Hem em eq_refl). auto.
  - intros [= <- <-]. split; [split; cbn; lia|]. split; [|done].
    intros f Hf. apply (past_timing f d1); [done|]. auto.
Qed.

Lemma deliver_all_sorted frames d :
  Forall (λ e, rtp_clock_hz e = hz) frames → room (Z.of_nat (length frames)) d →
  StronglySorted follows (deliver_all frames d).1
  ∧ ∀ f, past f d → Forall (λ em, precedes f (emitted_frame em)) (deliver_all frames d).1.
Proof.
  intros Hall. revert d. induction Hall as [|e frames He Hall IH]; intros d Hr; cbn [deliver_all].
  { split; [constructor|]. intros. constructor. }
  destruct (deliver e d) as [r d1] eqn:E.
  apply (deliver_spec _ _ _ _ (Z.of_nat (length frames))) in E as (Hr1 & Hp & Hem);
    [|done|lia|by replace (Z.of_nat (length frames) + 1) with (Z.of_nat (length (e :: frames))) by (cbn; lia)].
  destruct (IH d1 Hr1) as [IH1 IH2]. destruct (deliver_all frames d1) as [es d2].
  destruct r as [[em|]|err]; cbn in *; [|by eauto..].
  destruct (Hem em eq_refl) as [Hpe Hfe]. split.
  - constructor; [done|]. apply (IH2 _ Hpe).
  - intros f Hf. constructor; [by apply Hfe|]. auto.
Qed.
End Clock.

(** The emissions made of received frames, in the order they are received, have strictly
    increasing sequence numbers, discontinuity epochs that never decrease, and timestamps
    that never decrease within an epoch, whatever the RTP timestamps are (gaps, repetitions,
    restarts), whichever frames the decoder refuses and whichever are dropped for want of a
    buffer, as long as the counters have room. *)
Theorem emissions_ordered (hz : Z) (frames : list ReceivedOpusFrame) (d : Drv)
  (Hhz : 0 < hz) (Hall : Forall (λ e, rtp_clock_hz e = hz) frames)
  (Hroom : room (Z.of_nat (length frames)) d) :
  StronglySorted follows (deliver_all frames d).1.
Proof. by apply (deliver_all_sorted hz). Qed.
End Timeline.

(** ** Reservations *)

Section Reservations.
Context {W : Type} `{SourceEnv W}.

(** The errors of a validation. *)
Definition refusal {A} (m : Result RelayAudioBusSourceError A) : Prop :=
  ∀ e, m = Err e → ∃ reason, e = InvalidConfiguration reason.

Lemma refusal_bind {A B} (m : Result _ A) (f : A → Result _ B) :
  refusal m → (∀ a, refusal (f a)) → refusal (m ≫= f).
Proof. intros Hm Hf. destruct m as [a|e]; [apply Hf|]. intros e' [= <-]. by apply Hm. Qed.
Lemma refusal_guard b reason : refusal (guard_err b (InvalidConfiguration reason)).
Proof. destruct b; intros e [= <-]. by exists reason. Qed.

Lemma validate_refuses c : refusal (validate c).
Proof.
  assert (∀ f v n, refusal (validate_bounded_identity f v n)) as Hid by (intros; apply refusal_guard).
  repeat (apply refusal_bind; [apply Hid || apply refusal_guard|intros _]). apply refusal_guard.
Qed.

Lemma declare_spec address core_id sid core c r res r' :
  declare address core_id sid core c r = (res, r') →
  match res with
  | Ok (id, o) => validate c = Ok () ∧ o = new_observations address (source_generation c)
      ∧ reservations_poisoned r = false ∧ reservations r !! id = None
      ∧ r' = mkReservations (<[id := mkPending c o]> (reservations r)) false
  | Err ReservationConflict => ∃ id p, reservations r !! id = Some p
  | Err _ => r' = r
  end.
Proof.
  unfold declare, bind, cancel. case_match; [by intros [= <- <-]|].
  destruct (validate c) as [[]|e] eqn:Ev.
  2: { apply validate_refuses in Ev as [reason ->]. by intros [= <- <-]. }
  destruct (declared_source core) as [id|]; [|by intros [= <- <-]].
  destruct r as [m []]; cbn; [by intros [= <- <-]|].
  destruct (m !! id) as [p|] eqn:Em; cbn; [intros [= <- <-]; by exists id, p|].
  destruct (declared_output core); intros [= <- <-]; [done|].
  by rewrite delete_insert_id.
Qed.

(** What [declare] reserves is what the driver of that source is prepared with, once.
    After a successful declaration Core can create a driver for the source, with the empty
    configuration and no other; prepared under the source identity it takes the declared
    configuration, counts its preparation, and leaves the factory's reservations as they
    were before the declaration; any later preparation under the same source identity is
    refused and changes nothing. *)
Theorem declared_source_prepared_once address core_id sid core c r id o r' output (w : W)
  (Hd : declare address core_id sid core c r = (Ok (id, o), r')) :
  (∀ entries, is_ok (create entries r' w) = bool_decide (entries = [])) ∧
  ∃ d d', create [] r' w = Ok d ∧ consume_reservation (Some (mkSession id output)) d = (Ok (), d')
    ∧ config d' = Some c ∧ observations d' = Some (count_prepared o) ∧ pending d' = r
    ∧ ∀ d2 : Driver W, pending d2 = pending d' →
        consume_reservation (Some (mkSession id output)) d2
        = (Err (Message "Relay AudioBus Source reservation is absent or consumed"), d2).
Proof.
  apply declare_spec in Hd as (_ & _ & Hp & Hid & ->). destruct r as [m b]. cbn in *. subst b.
  split; [by intros []|]. do 2 eexists. split; [reflexivity|]. split.
  { unfold consume_reservation, mbind, io_bind, io_result, gets, io_modify. cbn.
    rewrite lookup_insert_eq. reflexivity. }
  cbn. rewrite delete_insert_id by done. repeat split. intros d2 E.
  unfold consume_reservation, mbind, io_bind, io_result, gets. cbn. rewrite E. cbn. by rewrite Hid.
Qed.

(** A conflicting declaration answers [ReservationConflict], and has replaced the
    reservation it conflicts with. *)
Lemma bind_conflict_replaces id p r :
  reservations_poisoned r = false → is_Some (reservations r !! id) →
  (bind id p r).1 = Err ReservationConflict ∧ reservations (bind id p r).2 !! id = Some p.
Proof.
  intros Hp [q Hq]. unfold bind. rewrite Hp, Hq. cbn. by rewrite lookup_insert_eq.
Qed.
End Reservations.

(** ** Preparation is all or nothing *)

(** [time] is the reading of the clock: every operation only advances it and a sleep lasts
    its duration. *)
Class SourceTime (W : Type) `{SourceEnv W} (time : W → Z) : Prop := {
  st_clock :: ClockLaws W time;
  st_subscriber :: SubscriberKeeps W (λ w w', time w ≤ time w');
}.

Section Preparation.
Context {W : Type} `{SourceEnv W} (time : W → Z) `{!SourceTime W time}.
Local Abbreviation Drv := (Driver W).
Implicit Types d : Drv.

(** *** The startup failures a driver has counted *)

Definition failures d : option Z := startup_failures_total <$> observations d.
Definition same_failures : relation Drv := λ d d', failures d' = failures d.

#[local] Instance same_failures_preorder : PreOrder same_failures.
Proof. split; [done|]. intros d1 d2 d3. unfold same_failures. congruence. Qed.

Local Abbreviation K := (keeps (E := BoxedError) same_failures).

Lemma keeps_observe (f : ObservationState → ObservationState) :
  (∀ o, startup_failures_total (f o) = startup_failures_total o) → K (io_modify (observe f)).
Proof.
  intros Hf d. unfold same_failures, failures. cbn. destruct (observations d); cbn; [by rewrite Hf|done].
Qed.
Lemma keeps_update (f : Drv → Drv) :
  (∀ d, observations (f d) = observations d) → K (io_modify f).
Proof. intros Hf d. unfold same_failures, failures. cbn. by rewrite Hf. Qed.
Lemma keeps_on_world {A} (m : W → A * W) : K (on_world m).
Proof. intros d. unfold on_world. by destruct (m (world d)). Qed.
Lemma keeps_read {A} (f : Drv → A) : K (gets f).
Proof. done. Qed.
Lemma keeps_observation_state : K observation_state.
Proof. intros d. by rewrite observation_state_run. Qed.
Lemma keeps_on_connection {A} c (m : io (SubscriberConnection W) BoxedError A) : K (on_connection c m).
Proof. intros d. unfold on_connection. by destruct (m _). Qed.
#[local] Hint Resolve keeps_on_world keeps_read keeps_observation_state keeps_on_connection : keeps.
#[local] Hint Extern 1 (keeps _ (failed _)) => by intros ? : keeps.
#[local] Hint Extern 1 (keeps _ (io_modify (observe _))) => by apply keeps_observe; intros [] : keeps.

Lemma keeps_poll_encoded : K poll_encoded.
Proof. unfold poll_encoded. keep. Qed.

Lemma keeps_stamp e x : K (stamp e x).
Proof.
  unfold stamp. repeat first [apply keeps_update; done | apply keeps_observe; by intros [] | keep_step].
Qed.
#[local] Hint Resolve keeps_stamp : keeps.

Lemma arrive_failures e d : failures (arrive e d) = failures d.
Proof.
  unfold failures, arrive. destruct (observations d) as [[]|] eqn:E;
    repeat case_match; cbn; rewrite ?E; done.
Qed.

Lemma keeps_decode e : K (decode e).
Proof.
  unfold decode.
  repeat first [intros d; apply arrive_failures | apply keeps_observe; by intros [] | keep_step].
Qed.

(** *** Steps that close the driver when they fail *)

(** The failure is counted, the observations are closed and so is the connection, if any. *)
Definition startup_closed (n : Z) d : Prop :=
  failures d = Some (wrap_add n 1)
  ∧ observed_closed <$> observations d = Some true
  ∧ ∀ c, connection d = Some c → closed c = true.

Definition closes_on_error {A} (m : io Drv BoxedError A) : Prop :=
  ∀ n d, failures d = Some n →
    match m d with
    | (Ok _, d') => failures d' = Some n
    | (Err _, d') => startup_closed n d'
    end.

Lemma fail_startup_closes {A} e : closes_on_error (A := A) (fail_startup e).
Proof.
  intros n d Hn. unfold fail_startup, startup_closed, failures in *. cbn.
  destruct (observations d) as [o|] eqn:Eo; [|done]. cbn in Hn.
  assert (startup_failures_total o = n) as <- by congruence.
  destruct (connection d) as [c|] eqn:Ec.
  - unfold on_connection. pose proof (close_closes (attach c (world (observe count_startup_failure d)))) as Hc.
    cbn in Hc. destruct (Subscriber.close _) as [r c']. cbn in *. rewrite Eo. destruct o. cbn.
    split; [done|]. split; [done|]. by intros c1 [= <-].
  - cbn in *. rewrite Eo. destruct o. cbn. split; [done|]. split; [done|]. intros c. by rewrite Ec.
Qed.

Lemma or_fail_startup_closes {A} (m : io Drv BoxedError A) : K m → closes_on_error (or_fail_startup m).
Proof.
  intros Hm n d Hn. unfold or_fail_startup. specialize (Hm d).
  destruct (m d) as [[a|e] d']; cbn in Hm; [congruence|].
  assert (failures d' = Some n) as Hn' by congruence.
  pose proof (fail_startup_closes (A := A) e n d' Hn') as Hf.
  assert ((fail_startup (A := A) e d').1 = Err e) as He by done.
  destruct (fail_startup e d') as [[]]; [done|exact Hf].
Qed.

Lemma closes_bind {A B} (m : io Drv BoxedError A) (f : A → io Drv BoxedError B) :
  closes_on_error m → (∀ a, closes_on_error (f a)) → closes_on_error (m ≫= f).
Proof.
  intros Hm Hf n d Hn. unfold mbind, io_bind. specialize (Hm n d Hn).
  destruct (m d) as [[a|e] d']; [by apply Hf|done].
Qed.

(** Steps that cannot fail while there are observations. *)
Lemma closes_keeps {A} (m : io Drv BoxedError A) :
  K m → (∀ d, is_Some (observations d) → is_ok (m d).1 = true) → closes_on_error m.
Proof.
  intros Hm Hok n d Hn. specialize (Hm d). specialize (Hok d).
  destruct (m d) as [[a|e] d']; cbn in *; [unfold same_failures in Hm; congruence|].
  unfold failures in Hn. destruct (observations d); [|done]. by specialize (Hok ltac:(done)).
Qed.
Lemma closes_observation_state : closes_on_error observation_state.
Proof. apply closes_keeps; [apply keeps_observation_state|]. intros d [o E]. by rewrite observation_state_run, E. Qed.
Lemma closes_observe (f : ObservationState → ObservationState) :
  (∀ o, startup_failures_total (f o) = startup_failures_total o) →
  closes_on_error (io_modify (observe f)).
Proof. intros Hf. by apply closes_keeps; [apply keeps_observe|]. Qed.
Lemma closes_update (f : Drv → Drv) :
  (∀ d, observations (f d) = observations d) → closes_on_error (io_modify f).
Proof. intros Hf. by apply closes_keeps; [apply keeps_update|]. Qed.
Lemma closes_on_world {A} (m : W → A * W) : closes_on_error (on_world m).
Proof.
  apply closes_keeps; [apply keeps_on_world|]. intros d _. unfold on_world. by destruct (m (world d)).
Qed.
Lemma closes_ret {A} (a : A) : closes_on_error (mret a).
Proof. by intros n d. Qed.

Lemma connect_closes c result : closes_on_error (connect c result).
Proof.
  apply closes_bind.
  { by apply or_fail_startup_closes. }
  intros handshake. apply closes_bind.
  { apply or_fail_startup_closes. intros d. by destruct (Subscriber.new _ _ _ (world d)). }
  intros conn. apply closes_bind; [by apply closes_update|]. intros _.
  apply closes_bind; [apply closes_observation_state|]. intros _.
  apply closes_bind; [by apply closes_observe; intros []|]. intros _.
  apply closes_bind; [apply closes_on_world|]. intros ready.
  case_match; [apply fail_startup_closes|by apply closes_update].
Qed.

Lemma startup_round_closes deadline : closes_on_error (startup_round deadline).
Proof.
  apply closes_bind; [apply closes_on_world|]. intros t. case_match; [apply fail_startup_closes|].
  apply closes_bind; [apply or_fail_startup_closes, keeps_poll_encoded|]. intros [e|].
  - apply closes_bind; [apply or_fail_startup_closes, keeps_decode|]. intros f.
    apply closes_bind; [by apply closes_update|]. intros _.
    apply closes_bind; [apply closes_observation_state|]. intros _.
    apply closes_bind; [by apply closes_observe; intros []|]. intros _.
    apply closes_bind; [apply closes_on_world|]. intros t'.
    apply closes_bind; [by apply closes_update|]. intros _. apply closes_ret.
  - apply closes_bind; [by apply closes_update|]. intros _. apply closes_ret.
Qed.

(** A round that goes on began before the deadline and lasted a millisecond. *)
Lemma poll_encoded_time d r d' : poll_encoded d = (r, d') → time (world d) ≤ time (world d').
Proof.
  unfold poll_encoded, mbind, io_bind, gets. destruct (connection d) as [c|]; [|by intros [= _ <-]].
  unfold on_connection. pose proof (keeps_poll_frame (λ w w', time w ≤ time w') (attach c (world d))) as Hk.
  destruct (poll_frame _) as [r' c']. by intros [= _ <-].
Qed.

Lemma startup_round_time deadline d d' :
  startup_round deadline d = (Ok None, d') →
  time (world d) < deadline ∧ time (world d) + POLL_IDLE ≤ time (world d').
Proof.
  intros (t & d1 & E1 & E2)%io_bind_Ok. unfold on_world in E1.
  pose proof (now_reads (time := time) (world d)) as Hn.
  destruct (now (world d)) as [t' w1]. injection E1 as -> <-. cbn in Hn.
  case_match; bool_props.
  { unfold fail_startup in E2. destruct (match connection _ with _ => _ end); done. }
  apply io_bind_Ok in E2 as (e & d2 & E2 & E3). unfold or_fail_startup in E2.
  destruct (poll_encoded (with_world w1 d)) as [[e'|err] d3] eqn:Ep.
  2: { unfold fail_startup in E2. done. }
  injection E2 as -> ->. apply poll_encoded_time in Ep. cbn in Ep. destruct e as [e|].
  - apply io_bind_Ok in E3 as (f & d4 & _ & E3). apply io_bind_Ok in E3 as (? & d5 & _ & E3).
    apply io_bind_Ok in E3 as (? & d6 & _ & E3). apply io_bind_Ok in E3 as (? & d7 & _ & E3).
    apply io_bind_Ok in E3 as (? & d8 & _ & E3). apply io_bind_Ok in E3 as (? & d9 & _ & E3). done.
  - apply io_bind_Ok in E3 as (? & d4 & E3 & E4). injection E4 as <-.
    injection E3 as _ <-. cbn.
    assert (0 ≤ POLL_IDLE) as Hidle by done.
    pose proof (sleep_lasts (time := time) POLL_IDLE (world d2) Hidle) as Hs.
    unfold POLL_IDLE, MILLISECOND in *. lia.
Qed.

(** A round that ends the wait has a frame. *)
Lemma startup_round_ready deadline d d' :
  startup_round deadline d = (Ok (Some ()), d') →
  is_Some (pending_frame d') ∧ is_Some (last_delivery d').
Proof.
  intros (t & d1 & _ & E2)%io_bind_Ok. case_match.
  { unfold fail_startup in E2. done. }
  apply io_bind_Ok in E2 as (e & d2 & _ & E3). destruct e as [e|].
  - apply io_bind_Ok in E3 as (f & d4 & _ & E3). apply io_bind_Ok in E3 as (? & d5 & E5 & E3).
    injection E5 as _ <-.
    apply io_bind_Ok in E3 as (? & d6 & E6 & E3). rewrite observation_state_run in E6. injection E6 as _ <-.
    apply io_bind_Ok in E3 as (? & d7 & E7 & E3). injection E7 as _ <-.
    apply io_bind_Ok in E3 as (t' & d8 & E8 & E3). unfold on_world in E8.
    destruct (now _) as [t2 w2]. injection E8 as _ <-.
    apply io_bind_Ok in E3 as (? & d9 & E9 & E3). injection E9 as _ <-. injection E3 as <-. done.
  - apply io_bind_Ok in E3 as (? & d4 & E3 & E4). done.
Qed.

Lemma consume_reservation_spec context d r d' :
  consume_reservation context d = (r, d') →
  match r with
  | Ok _ => ∃ s p, context = Some s ∧ reservations (pending d) !! session_source_id s = Some p
      ∧ config d' = Some (pending_config p) ∧ failures d' = Some (startup_failures_total (pending_observations p))
  | Err _ => d' = d
  end.
Proof.
  unfold consume_reservation, mbind, io_bind, io_result, gets, io_modify.
  destruct context as [s|]; cbn; [|by intros [= <- <-]].
  destruct (reservations_poisoned (pending d)); cbn; [by intros [= <- <-]|].
  destruct (reservations (pending d) !! session_source_id s) as [p|] eqn:Ep; cbn; intros [= <- <-]; [|done].
  exists s, p. split; [done|]. split; [done|]. split; [done|]. unfold failures. cbn.
  by destruct (pending_observations p).
Qed.

(** The wait for the first frame comes to an end of its own. *)
Lemma startup_wait deadline timeout n d r d' :
  0 ≤ timeout → deadline ≤ time (world d) + timeout → failures d = Some n →
  io_loop (startup_bound timeout) exhausted (startup_round deadline) d = (r, d') →
  match r with
  | Ok _ => is_Some (pending_frame d') ∧ is_Some (last_delivery d')
  | Err _ => startup_closed n d'
  end.
Proof.
  intros Ht Hd Hn E.
  destruct (io_loop_total (startup_bound timeout) exhausted (startup_round deadline)
    (λ d, failures d = Some n) (rounds_left (λ d, time (world d)) deadline POLL_IDLE) d)
    as (d0 & r' & d1 & Hd0 & E' & Hr); [done| | |].
  - intros d1 d2 H1 H2. pose proof (startup_round_closes deadline n d1 H1) as Hc. rewrite H2 in Hc.
    split; [done|]. apply startup_round_time in H2 as [H3 H4]. by apply rounds_left_decreases.
  - assert (0 ≤ timeout / POLL_IDLE) by (apply Z.div_pos; done).
    unfold startup_bound, rounds_left. rewrite Z2Pos.id by lia. case_match; [lia|].
    assert ((deadline - time (world d)) / POLL_IDLE ≤ timeout / POLL_IDLE); [|lia].
    apply Z.div_le_mono; [done|lia].
  - rewrite E' in E. injection E as -> ->. destruct r as [[]|e].
    + by apply (startup_round_ready deadline d0).
    + pose proof (startup_round_closes deadline n d0 Hd0) as Hc. by rewrite Hr in Hc.
Qed.

(** The timeouts of a factory's reservations are durations. *)
Definition reserved_durations (r : Reservations) : Prop :=
  ∀ id p, reservations r !! id = Some p → 0 ≤ source_startup_timeout (pending_config p).

(** What a call of [prepare] leaves behind. *)
Definition prepared_or_closed (context : option SourceSessionContext) (d : Drv)
  (r : Result BoxedError unit) (d' : Drv) : Prop :=
  match r with
  | Ok _ => is_Some (pending_frame d') ∧ is_Some (last_delivery d')
  | Err _ => d' = d ∨ ∃ s p, context = Some s
      ∧ reservations (pending d) !! session_source_id s = Some p
      ∧ startup_closed (startup_failures_total (pending_observations p)) d'
  end.

Lemma subscriber_handshake_driver reads rounds c d r d' :
  subscriber_handshake reads rounds c d = Some (r, d') →
  observations d' = observations d ∧ pending_frame d' = pending_frame d.
Proof.
  unfold subscriber_handshake. destruct (run_subscriber_handshake _ _ _ _ _ _ _ _ _) as [[x w]|]; [|done].
  by intros [= _ <-].
Qed.

(** What follows the handshake always ends, ready or closed. *)
Lemma prepare_connected_closes c result n d r d' :
  0 ≤ source_startup_timeout c → failures d = Some n → prepare_connected c result d = (r, d') →
  match r with
  | Ok _ => is_Some (pending_frame d') ∧ is_Some (last_delivery d')
  | Err _ => startup_closed n d'
  end.
Proof.
  intros Hc Hn. unfold prepare_connected, mbind, io_bind at 1.
  pose proof (connect_closes c result _ _ Hn) as Hconn.
  destruct (connect _ _ d) as [[[]|e] d2]; [|by intros [= <- <-]].
  unfold io_bind, on_world. pose proof (now_reads (time := time) (world d2)) as Ht.
  destruct (now (world d2)) as [t w3]. cbn in Ht.
  destruct (checked_add _ _ _) as [deadline|] eqn:Ea; intros Hp.
  - apply checked_add_Some in Ea as ->.
    apply (startup_wait _ _ n) in Hp; [by destruct r|done|cbn; lia|done].
  - pose proof (fail_startup_closes (A := unit) (Message "startup deadline overflow") n (with_world w3 d2) Hconn) as Hf.
    rewrite Hp in Hf. injection Hp as <- _. exact Hf.
Qed.

(** C18: Preparing a source is all or nothing.  When it succeeds a decoded first frame is
    waiting to be emitted.  When it fails either there was no reservation and the driver is
    unchanged, or one startup failure more is counted, the observations are closed and the
    connection, if one was made, is closed: whatever failed, be it the handshake, the
    subscriber, the decoder, a poll, a frame, or the startup deadline.  Only the handshake
    can keep it waiting: the wait for the first frame always ends. *)
Theorem prepare_all_or_nothing reads rounds context (d : Drv)
  (Hdur : reserved_durations (pending d)) :
  match prepare reads rounds context d with
  | Some (r, d') => prepared_or_closed context d r d'
  | None => ∃ c d1, prepare_config context d = (Ok c, d1) ∧ subscriber_handshake reads rounds c d1 = None
  end.
Proof.
  unfold prepare. destruct (prepare_config context d) as [rc d1] eqn:Epc.
  assert (Ec := Epc). unfold prepare_config, mbind, io_bind at 1 in Ec.
  destruct (consume_reservation context d) as [[[]|e] d0] eqn:E1;
    apply consume_reservation_spec in E1.
  2: { injection Ec as <- <-. by left. }
  destruct E1 as (s & p & Hs & Hlookup & Hc & Hn).
  unfold io_bind, gets, io_result in Ec. rewrite Hc in Ec. injection Ec as <- <-.
  destruct (subscriber_handshake _ _ _ d0) as [[result d2]|] eqn:Eh; [|by eexists _, _].
  apply subscriber_handshake_driver in Eh as [Eo _].
  assert (failures d2 = failures d0) as Hf by (unfold failures; by rewrite Eo).
  destruct (prepare_connected _ result d2) as [r d'] eqn:Ep.
  apply (prepare_connected_closes _ _ (startup_failures_total (pending_observations p))) in Ep;
    [|by eapply Hdur|congruence].
  destruct r as [[]|e]; [done|]. right. by exists s, p.
Qed.
End Preparation.

(** ** A scripted source *)

Module Script.

(** The clock advances by a millisecond per reading; the subscriber's engine emits the
    events of a queue, where [None] is a timeout, and records them. *)
Record World : Type := mkWorld { clock : Z; queue : list (option Event); output : list Event }.

Definition tick (w : World) : World := mkWorld (clock w + MILLISECOND) (queue w) (output w).

#[export] Instance rtc : Rtc World :=
  {| rtc_clock := {| now w := (clock w, tick w); sleep d w := mkWorld (clock w + Z.max 0 d) (queue w) (output w);
                     instant_max := 2 ^ 63 * SECOND |};
     handle_timeout _ w := (true, w); receive_new _ := true; handle_receive _ _ w := (true, w);
     has_writer _ _ := false; payload_type_of _ _ := None; rtc_write _ _ _ _ w := (false, w);
     parse_candidate := Some; add_remote_candidate _ w := w;
     poll_output w :=
       match queue w with
       | Some e :: rest => (Ok (OutputEvent e), mkWorld (clock w) rest (output w ++ [e]))
       | None :: rest => (Ok (OutputTimeout (clock w + SECOND)), mkWorld (clock w) rest (output w))
       | [] => (Ok (OutputTimeout (clock w + SECOND)), w)
       end;
     output_bound w := Pos.of_succ_nat (length (queue w));
     udp_recv w := (UdpWouldBlock, w); udp_send _ w := (None, w);
     ws_send _ _ w := (Ok (), w); ws_close _ w := (Ok (), w) |}.

#[export] Instance sockets : WebSockets World :=
  {| ws_read _ w := (Err (WsIo WouldBlock), w);
     ws_write _ _ w := (Ok (), w); ws_flush _ w := (Ok (), w); ws_clone_socket _ w := (true, w);
     ws_set_read_timeout _ _ w := (true, w); ws_set_write_timeout _ _ w := (true, w);
     ws_set_nonblocking _ w := (true, w); ws_shutdown _ w := w |}.

#[export] Instance subscriber : SubscriberEnv World :=
  {| subscriber_rtc := rtc; subscriber_sockets := sockets;
     subscriber_json := {| to_json _ := Some []; parse_server_msg _ := None |};
     udp_set_nonblocking w := (true, w) |}.

(** The relay's answer. *)
Definition answering : WebSockets World :=
  {| ws_read _ w := (Ok (MText (lit "v=0")), w);
     ws_write _ _ w := (Ok (), w); ws_flush _ w := (Ok (), w); ws_clone_socket _ w := (true, w);
     ws_set_read_timeout _ _ w := (true, w); ws_set_write_timeout _ _ w := (true, w);
     ws_set_nonblocking _ w := (true, w); ws_shutdown _ w := w |}.

(** The decoder refuses an empty packet and turns any other into silence. *)
#[export] Instance handshake : HandshakeEnv World :=
  {| hs_proxy :=
       {| proxy_clock := rtc_clock;
          connect_timeout a _ w := (Some a, w); set_nodelay _ w := (true, w); try_clone _ w := (true, w);
          set_timeouts _ _ w := (true, w); Proxy.shutdown _ w := w; spawn_watchdog _ _ w := (true, w);
          join_watchdog w := (true, w); tls_connector w := (true, w); tls_connect _ s w := (Ok s, w);
          write_all _ _ w := (true, w); read_byte _ w := (None, w); valid_header _ := true;
          base64_encode b := b; client_tls r s w := (Ok (s, requested_protocol r), w);
          valid_request _ := true |};
     hs_resolver := {| to_socket_addrs _ _ w := (Some (Resolved [3]), w) |};
     hs_rtc := rtc; hs_sockets := answering;
     hs_json := {| to_json _ := Some [];
                   parse_server_msg t := Some (mkServerMsg (lit "SDP_ANSWER") t [] [] []) |};
     hs_clock := eq_refl; hs_environment _ := None;
     socket_addr a := mkSocketAddr (IpV4 a) 80;
     udp_bind w := (true, w); udp_set_read_timeout _ w := (true, w); udp_local_port w := (Some 5000, w);
     probe_socket_ip _ w := (Some (IpV4 9), w); udp_send_to _ _ w := (true, w);
     stun_recv_from w := (None, w); rtc_build w := w; host_candidate _ := Some (lit "host");
     server_reflexive _ _ := None; add_local_candidate _ w := w;
     sdp_add_media _ _ w := (7, w); sdp_apply w := (Some (lit "v=0"), w);
     parse_answer _ := true; accept_answer _ w := (true, mkWorld (clock w) (None :: Some ConnectedEvent :: queue w) (output w)) |}.

#[export] Instance source : SourceEnv World :=
  {| source_subscriber := subscriber; source_handshake := handshake; one_engine := eq_refl;
     source_url := Extern.Sample.Url; source_url_lib := Extern.Sample.url_lib;
     monotonic_timestamp_ns w := (clock w, tick w);
     new_decoder w := (true, w);
     decode_into l w := (if bool_decide (l = []) then None else Some (replicate MAX_PACKET_SAMPLES f32_zero), w);
     available_slots w := (64, w);
     acquire w := (true, w);
     emission_valid _ _ _ _ w := (true, w);
     is_cancelled w := (false, w) |}.

#[export] Instance source_time : SourceTime World clock.
Proof.
  split; split; try (intros; cbn; unfold MILLISECOND; lia).
  - split; [intros w|intros w1 w2 w3]; lia.
  - intros w. cbn. destruct (queue w) as [|[] ?]; cbn; lia.
Qed.

Definition audio (t : Z) : option Event := Some (MediaDataEvent (mkMedia 7 [1] t 48000 true)).
Definition declared : RelayAudioBusSourceConfig :=
  mkSourceConfig (lit "https://relay") (lit "session-7") (lit "phone") (lit "token") 4
    (10 * SECOND) (6 * SECOND) [].
Definition factory : Reservations :=
  mkReservations {[ 9 := mkPending declared (new_observations 0 4) ]} false.
Definition context : SourceSessionContext := mkSession 9 (Some 1).
(** The driver Core creates in a world. *)
Definition created (w : World) : Driver World :=
  mkDriver factory None None None None false None None None None 0 0 None false w.
(** Nothing is ever received. *)
Definition silent : Driver World := created (mkWorld 0 [] []).
(** A frame is on its way. *)
Definition live : Driver World := created (mkWorld 0 [audio 960] []).
(** A prepared driver. *)
Definition running : Driver World :=
  from_option snd live (prepare 1 9 (Some context) live).
(** A frame, an undecodable one, a restart of the RTP clock, a gap. *)
Definition received : list ReceivedOpusFrame :=
  [mkReceived [1] 1920 48000 true; mkReceived [] 2880 48000 true;
   mkReceived [1] 0 48000 true; mkReceived [1] 4800 48000 false].

Lemma durations : reserved_durations factory.
Proof. intros id p Hp. unfold factory in Hp. cbn [reservations] in Hp.
  apply lookup_singleton_Some in Hp as [_ <-]. done. Qed.

End Script.

Import Script.

Lemma emissions_ordered_witness :
  map (λ e, (sequence_number (emitted_frame e), frame_epoch (emitted_frame e)))
    (deliver_all received running).1 = [(1, 0); (2, 1); (3, 2)] ∧
  StronglySorted follows (deliver_all received running).1.
Proof.
  split; [vm_compute; reflexivity|]. apply (emissions_ordered 48000 received running); [done| |].
  - repeat constructor.
  - split; vm_compute; reflexivity.
Defined.

Lemma declared_source_prepared_once_witness :
  ∃ d d', create [] factory (mkWorld 0 [] []) = Ok d ∧ consume_reservation (Some context) d = (Ok (), d')
    ∧ config d' = Some declared.
Proof.
  destruct (declared_source_prepared_once 0 1 1 (mkDeclaration (Some 9) true) declared
    (mkReservations ∅ false) 9 (new_observations 0 4) factory (Some 1) (mkWorld 0 [] []))
    as (_ & d & d' & H1 & H2 & H3 & _); [vm_compute; reflexivity|]. by exists d, d'.
Defined.

(** The startup deadline passes, and everything is closed. *)
Lemma prepare_all_or_nothing_witness :
  match prepare 1 9 (Some context) silent with
  | Some (r, d) => is_err r = true ∧ prepared_or_closed (Some context) silent r d
  | None => False
  end.
Proof.
  pose proof (prepare_all_or_nothing clock 1 9 (Some context) silent durations) as Hp.
  destruct (prepare 1 9 (Some context) silent) as [[r d]|] eqn:E; [|vm_compute in E; discriminate E].
  split; [|exact Hp]. apply (f_equal (from_option (λ x, is_err x.1) false)) in E. cbn in E. rewrite <- E.
  vm_compute. reflexivity.
Defined.
