(* ===== verification/SourceTimeline.v ===== *)
(** * What a running source tells its session

    [Source] orders the emissions of given frames and [Subscriber] follows one poll; this
    file follows a source through any number of calls of [next]: which frames it hears from
    its connection, what becomes of each, and what the session sees of it. *)

From stdpp Require Import sorting.
From S2P Require Import Prelude Env Text Extern Errors Encoder Proxy Config Transport WebRtc Subscriber Handshake Source.

#[local] Arguments lit : simpl never.

(** Core, the codec and cancellation leave the engine's log alone. *)
Class SourceLog (W : Type) `{SourceEnv W} (emitted : W → list Event) : Prop := {
  source_log_events :: EmitLog W emitted;
  source_log_now w : emitted (now w).2 = emitted w;
  source_log_sleep t w : emitted (sleep t w) = emitted w;
  source_log_monotonic w : emitted (monotonic_timestamp_ns w).2 = emitted w;
  source_log_decode l w : emitted (decode_into l w).2 = emitted w;
  source_log_slots w : emitted (available_slots w).2 = emitted w;
  source_log_acquire w : emitted (acquire w).2 = emitted w;
  source_log_valid s o f g w : emitted (emission_valid s o f g w).2 = emitted w;
  source_log_cancelled w : emitted (is_cancelled w).2 = emitted w;
}.

Section Timeline.
Context {W : Type} `{SourceEnv W} (emitted : W → list Event) `{!SourceLog W emitted}.
Local Abbreviation Drv := (Driver W).
Local Abbreviation dio := (io Drv BoxedError).
Implicit Types d : Drv.

(** ** What the source hears *)

Definition identity d := (session d, config d).

(** What only [prepare] sets. *)
Definition kept d := (identity d, pending_frame d).

(** Between the two states the connection handed the source the frames. *)
Definition hears d d' (frames : list ReceivedOpusFrame) : Prop :=
  identity d' = identity d ∧
  match connection d, connection d' with
  | Some c, Some c' => Subscriber.flow emitted (attach c (world d)) (attach c' (world d')) frames
  | None, None => frames = []
  | _, _ => False
  end.

Definition quiet d d' : Prop :=
  connection d' = connection d ∧ kept d' = kept d ∧ emitted (world d') = emitted (world d).

#[local] Instance quiet_preorder : PreOrder quiet.
Proof. split; [done|]. intros d1 d2 d3 (H1 & H2 & H3) (H4 & H5 & H6). split_and!; congruence. Qed.

Lemma hears_trans d1 d2 d3 l1 l2 : hears d1 d2 l1 → hears d2 d3 l2 → hears d1 d3 (l1 ++ l2).
Proof.
  unfold hears. intros [I1 H1] [I2 H2]. split; [congruence|]. revert H1 H2.
  destruct (connection d1), (connection d2), (connection d3); try done; [apply flow_trans|by intros -> ->].
Qed.
Lemma hears_same d d' :
  connection d' = connection d → identity d' = identity d → emitted (world d') = emitted (world d) →
  hears d d' [].
Proof.
  intros H1 H2 H3. split; [done|]. rewrite H1. destruct (connection d) as [c|]; [|done]. by apply flow_same.
Qed.
Lemma hears_quiet d d' : quiet d d' → hears d d' [].
Proof. intros (H1 & H2 & H3). apply hears_same; [done| |done]. exact (f_equal fst H2). Qed.

(** The rules of the driver's operations. *)
Lemma quiet_world {A} (m : W → A * W) : (∀ w, emitted (m w).2 = emitted w) → keeps quiet (on_world m).
Proof. intros Hm d. unfold on_world. specialize (Hm (world d)). by destruct (m (world d)). Qed.
Lemma quiet_gets {A} (f : Drv → A) : keeps quiet (gets f).
Proof. intros d. done. Qed.
Lemma quiet_modify f :
  (∀ d, connection (f d) = connection d ∧ kept (f d) = kept d ∧ world (f d) = world d) →
  keeps (E := BoxedError) quiet (io_modify f).
Proof. intros Hf d. destruct (Hf d) as (H1 & H2 & H3). unfold quiet; cbn. by rewrite H1, H2, H3. Qed.
Lemma quiet_failed {A} m : keeps quiet (failed (A := A) m).
Proof. intros d. done. Qed.
Lemma quiet_observation_state : keeps quiet observation_state.
Proof. intros d. by rewrite observation_state_run. Qed.
Lemma quiet_or_failure {A} (m : dio A) : keeps quiet m → keeps quiet (or_runtime_failure m).
Proof. intros Hm d. unfold or_runtime_failure. specialize (Hm d). by destruct (m d) as [[a|e] d']. Qed.

Lemma quiet_arrive e d :
  connection (arrive e d) = connection d ∧ kept (arrive e d) = kept d ∧ world (arrive e d) = world d.
Proof. unfold arrive. by repeat case_match. Qed.

Ltac quiet_step :=
  match goal with
  | |- keeps quiet (mbind _ _) => apply keeps_bind; [apply _| |intros ?]
  | |- keeps quiet (mret _) => apply keeps_ret; apply _
  | |- keeps quiet (io_fail _) => apply keeps_fail; apply _
  | |- keeps quiet (failed _) => apply quiet_failed
  | |- keeps quiet (io_result _) => apply keeps_result; apply _
  | |- keeps quiet (gets _) => apply quiet_gets
  | |- keeps quiet observation_state => apply quiet_observation_state
  | |- keeps quiet (or_runtime_failure _) => apply quiet_or_failure
  | |- keeps quiet (on_world _) => apply quiet_world; intros;
      first [apply source_log_now | apply source_log_monotonic | apply source_log_decode
            | apply source_log_slots | apply source_log_acquire | apply source_log_valid
            | apply source_log_cancelled]
  | |- keeps quiet (io_modify _) => apply quiet_modify; intros; first [apply quiet_arrive | done]
  | |- context [if ?b then _ else _] => destruct b
  | |- context [match ?x with _ => _ end] => destruct x
  end.

Lemma quiet_deliver e : keeps quiet (deliver e).
Proof.
  unfold deliver, decode, stamp, emission_or_drop, emission. repeat quiet_step.
Qed.

Lemma hears_poll d : hears d (poll_encoded d).2 (frames (poll_encoded d).1).
Proof.
  unfold poll_encoded, mbind, io_bind, gets. destruct (connection d) as [c|] eqn:Ec.
  2: { unfold failed, io_fail, hears. cbn. by rewrite Ec. }
  unfold on_connection. pose proof (delivers_poll_frame emitted (attach c (world d))) as Hp.
  destruct (poll_frame _) as [r c'] eqn:E. unfold hears. cbn in *. rewrite Ec. by destruct c'.
Qed.

(** ** What becomes of a frame *)

Inductive Ending : Type :=
| Emitted (e : SourceEmission)
| Undecodable   (** counted as a decode failure *)
| NoBuffer      (** counted as dropped by the pool *)
| Refused.      (** by the driver's own state or Core's checks: [next] fails *)

Definition emissions : list Ending → list SourceEmission :=
  omap (λ x, match x with Emitted e => Some e | _ => None end).

Definition is_emitted (x : Ending) : bool := match x with Emitted _ => true | _ => false end.
Definition is_undecodable (x : Ending) : bool := match x with Undecodable => true | _ => false end.
Definition is_unbuffered (x : Ending) : bool := match x with NoBuffer => true | _ => false end.

Definition number (p : Ending → bool) (ends : list Ending) : Z := Z.of_nat (length (filter p ends)).

(** An emission carries the decoded samples of its frame, under the declared identity. *)
Definition ended (id : option SourceSessionContext * option RelayAudioBusSourceConfig)
  (frame : ReceivedOpusFrame) (x : Ending) : Prop :=
  match x with
  | Emitted e =>
      (∃ w w', decode_into (Subscriber.payload frame) w = (Some (samples (emitted_frame e)), w'))
      ∧ length (samples (emitted_frame e)) = MAX_PACKET_SAMPLES
      ∧ (∃ s, id.1 = Some s ∧ session_output s = Some (emitted_stream e))
      ∧ ∃ c, id.2 = Some c ∧ emitted_generation e = source_generation c
  | _ => True
  end.

(** The observations between the two states: a column per ending, and [early] emissions of
    frames received before. *)
Definition counted d d' (early : nat) (ends : list Ending) : Prop :=
  ∀ o, observations d = Some o → ∃ o', observations d' = Some o' ∧
    received_frames_total o' mod 2 ^ 64 = (received_frames_total o + Z.of_nat (length ends)) mod 2 ^ 64 ∧
    emitted_frames_total o' mod 2 ^ 64 = (emitted_frames_total o + (Z.of_nat early + number is_emitted ends)) mod 2 ^ 64 ∧
    decode_failures_total o' mod 2 ^ 64 = (decode_failures_total o + number is_undecodable ends) mod 2 ^ 64 ∧
    pool_dropped_frames_total o' mod 2 ^ 64 = (pool_dropped_frames_total o + number is_unbuffered ends) mod 2 ^ 64.

Lemma number_app p l1 l2 : number p (l1 ++ l2) = number p l1 + number p l2.
Proof. unfold number. rewrite filter_app, length_app. lia. Qed.

Lemma counted_trans d1 d2 d3 k1 k2 l1 l2 :
  counted d1 d2 k1 l1 → counted d2 d3 k2 l2 → counted d1 d3 (k1 + k2) (l1 ++ l2).
Proof.
  intros H1 H2 o Ho. destruct (H1 o Ho) as (o1 & Ho1 & A1 & A2 & A3 & A4).
  destruct (H2 o1 Ho1) as (o2 & Ho2 & B1 & B2 & B3 & B4). exists o2. split; [done|].
  rewrite length_app, Nat2Z.inj_add, !number_app. rewrite Nat2Z.inj_add.
  replace (Z.of_nat k1 + Z.of_nat k2 + _) with
    ((Z.of_nat k1 + number is_emitted l1) + (Z.of_nat k2 + number is_emitted l2)) by lia.
  split_and!; by eapply mod_add_trans.
Qed.

(** Observations that differ only elsewhere. *)
Definition columns (o : ObservationState) : Z * Z * Z * Z :=
  (received_frames_total o, emitted_frames_total o, decode_failures_total o, pool_dropped_frames_total o).

Lemma counted_same d d' : columns <$> observations d' = columns <$> observations d → counted d d' 0 [].
Proof.
  intros E o Ho. rewrite Ho in E. destruct (observations d') as [o'|]; [|done]. exists o'. split; [done|].
  injection E as E1 E2 E3 E4. unfold number. cbn. by rewrite E1, E2, E3, E4, !Z.add_0_r.
Qed.

Lemma arrive_columns e d o :
  observations d = Some o → ∃ o', observations (arrive e d) = Some o'
    ∧ columns o' = (wrap_add (received_frames_total o) 1, emitted_frames_total o, decode_failures_total o,
                    pool_dropped_frames_total o).
Proof.
  intros Ho. unfold arrive. repeat case_match; cbn; rewrite Ho; cbn; eexists; (split; [reflexivity|]);
    by destruct o.
Qed.

(** A frame is counted when it arrives, and again when it cannot be decoded. *)
Lemma decode_columns e d o r d' :
  observations d = Some o → decode e d = (r, d') → ∃ o' failures, observations d' = Some o'
    ∧ columns o' = (wrap_add (received_frames_total o) 1, emitted_frames_total o, failures, pool_dropped_frames_total o)
    ∧ (failures = decode_failures_total o ∨ failures = wrap_add (decode_failures_total o) 1 ∧ is_err r = true)
    ∧ ∀ g, r = Ok g → length (samples g) = MAX_PACKET_SAMPLES
        ∧ ∃ w w', decode_into (Subscriber.payload e) w = (Some (samples g), w').
Proof.
  intros Ho. unfold decode, mbind, io_bind at 1. rewrite observation_state_run, Ho.
  unfold io_bind at 1, io_modify at 1. destruct (arrive_columns e d o Ho) as (o1 & Ho1 & E1).
  unfold mbind, io_bind at 1, gets. set (d1 := arrive e d) in *. clearbody d1. destruct (decoder d1); cbn [negb].
  2: { intros [= <- <-]. exists o1, (decode_failures_total o). split_and!; try done. by left. }
  unfold io_bind at 1, on_world at 1. destruct (decode_into _ (world d1)) as [x w] eqn:Ed.
  assert (∀ m, (Err m : Result BoxedError DecodedFrame, observe count_decode_failure (with_world w d1)) = (r, d') →
    ∃ o' failures, observations d' = Some o'
    ∧ columns o' = (wrap_add (received_frames_total o) 1, emitted_frames_total o, failures, pool_dropped_frames_total o)
    ∧ (failures = decode_failures_total o ∨ failures = wrap_add (decode_failures_total o) 1 ∧ is_err r = true)
    ∧ ∀ g, r = Ok g → length (samples g) = MAX_PACKET_SAMPLES
        ∧ ∃ w w', decode_into (Subscriber.payload e) w = (Some (samples g), w')) as Hfail.
  { intros m [= <- <-]. exists (count_decode_failure o1), (wrap_add (decode_failures_total o) 1).
    split; [cbn; by rewrite Ho1|]. split; [|split; [by right|done]].
    destruct o1. cbn in *. by injection E1 as -> -> -> ->. }
  destruct x as [x|]; [|by apply Hfail]. case_bool_decide as Hlen; cbn [negb]; [|by apply Hfail].
  clear Hfail. unfold stamp, mbind, io_bind, on_world, gets, io_modify. cbn.
  destruct (monotonic_timestamp_ns w) as [now_ns w1]. cbn. destruct (now w1) as [t w2].
  intros [= <- <-]. cbn. rewrite Ho1. cbn. exists (store_latest now_ns o1), (decode_failures_total o).
  split; [done|]. split; [by destruct o1|]. split; [by left|].
  intros g [= <-]. cbn. split; [done|]. by exists (world d1), w.
Qed.

Lemma emission_columns g d o r d' :
  observations d = Some o → emission g d = (r, d') →
  match r with
  | Ok e => emitted_frame e = g ∧ observations d' = Some (count_emitted o)
      ∧ (∃ s, session d = Some s ∧ session_output s = Some (emitted_stream e))
      ∧ ∃ c, config d = Some c ∧ emitted_generation e = source_generation c
  | Err _ => observations d' = Some o
  end.
Proof.
  intros Ho. unfold emission, mbind, io_bind, gets, io_result, on_world, failed, io_fail, io_modify. cbn.
  destruct (session d) as [s|]; cbn; [|by intros [= <- <-]].
  destruct (session_output s) as [out|] eqn:Eo; cbn; [|by intros [= <- <-]].
  destruct (acquire (world d)) as [[] w]; cbn; [|by intros [= <- <-]].
  destruct (config d) as [c|]; cbn; [|by intros [= <- <-]].
  destruct (emission_valid _ _ _ _ w) as [[] w']; cbn; [|by intros [= <- <-]].
  rewrite observation_state_run. cbn. rewrite Ho. intros [= <- <-]. cbn. rewrite Ho.
  split_and!; [done..| |]; eauto.
Qed.

(** The emission of a call. *)
Definition told (r : Result BoxedError (option SourceEmission)) : list SourceEmission :=
  match r with Ok (Some e) => [e] | _ => [] end.

Definition one (b : bool) (n : Z) : Z := if b then wrap_add n 1 else n.

Lemma counted_one d d' o o' x :
  observations d = Some o → observations d' = Some o' →
  columns o' = (wrap_add (received_frames_total o) 1, one (is_emitted x) (emitted_frames_total o),
                one (is_undecodable x) (decode_failures_total o), one (is_unbuffered x) (pool_dropped_frames_total o)) →
  counted d d' 0 [x].
Proof.
  intros Ho Ho' E o0 Ho0. rewrite Ho in Ho0. injection Ho0 as <-. exists o'. split; [done|].
  injection E as -> -> -> ->. unfold number, one.
  destruct x; cbn; rewrite ?wrap_mod, ?Z.add_0_r; done.
Qed.

Lemma columns_inv o a b c e :
  columns o = (a, b, c, e) → received_frames_total o = a ∧ emitted_frames_total o = b
    ∧ decode_failures_total o = c ∧ pool_dropped_frames_total o = e.
Proof. by intros [= -> -> -> ->]. Qed.

Lemma quiet_decode e : keeps quiet (decode e).
Proof. unfold decode, stamp. repeat quiet_step. Qed.

(** A decoded frame is emitted, dropped for want of a buffer, or refused. *)
Lemma emission_or_drop_ends g d o r d' :
  observations d = Some o → emission_or_drop g d = (r, d') → ∃ o' x, observations d' = Some o'
    ∧ told r = emissions [x] ∧ is_undecodable x = false
    ∧ columns o' = (received_frames_total o, one (is_emitted x) (emitted_frames_total o), decode_failures_total o,
                    one (is_unbuffered x) (pool_dropped_frames_total o))
    ∧ ∀ e, x = Emitted e → emitted_frame e = g
        ∧ (∃ s, session d = Some s ∧ session_output s = Some (emitted_stream e))
        ∧ ∃ c, config d = Some c ∧ emitted_generation e = source_generation c.
Proof.
  intros Ho. unfold emission_or_drop, mbind, io_bind at 1, on_world.
  destruct (available_slots (world d)) as [n w]. case_match.
  - unfold io_bind at 1, io_modify at 1. unfold io_bind. rewrite observation_state_run. cbn. rewrite Ho.
    intros [= <- <-]. cbn. rewrite Ho. exists (count_pool_drop o), NoBuffer. split_and!; try done. by destruct o.
  - unfold io_bind. destruct (emission g _) as [[e|err] d1] eqn:E;
      apply (emission_columns g (with_world w d) o _ _ Ho) in E; intros [= <- <-].
    + destruct E as (E1 & E2 & E3 & E4). exists (count_emitted o), (Emitted e). split_and!; try done.
      * by destruct o.
      * by intros e' [= <-].
    + exists o, Refused. by split_and!.
Qed.

Lemma deliver_ends e d r d' :
  deliver e d = (r, d') → ∃ x, ended (identity d) e x ∧ told r = emissions [x] ∧ counted d d' 0 [x].
Proof.
  unfold deliver, or_runtime_failure, mbind, io_bind. pose proof (quiet_decode e d) as (_ & Hid & _). apply (f_equal fst) in Hid.
  destruct (observations d) as [o|] eqn:Ho.
  2: { unfold decode, mbind, io_bind at 1. rewrite observation_state_run, Ho. intros [= <- <-].
       exists Refused. split; [done|]. split; [done|]. intros o. by rewrite Ho. }
  destruct (decode e d) as [[g|err] d1] eqn:Ed; cbn in Hid;
    apply (decode_columns e d o _ _ Ho) in Ed as (o1 & failures & Ho1 & E1 & Hf & Hg).
  - destruct (Hg g eq_refl) as [Hlen Hdec]. destruct Hf as [->|[_ [=]]].
    apply columns_inv in E1 as (E2 & E3 & E4 & E5).
    intros E. apply (emission_or_drop_ends g d1 o1 _ _ Ho1) in E as (o' & x & Ho' & Ht & Hx & Ec & Hem).
    exists x. split; [|split; [done|]].
    + destruct x as [em| | |]; try done. destruct (Hem em eq_refl) as (<- & Hs & Hc).
      injection Hid as Hi1 Hi2. cbn. by rewrite <- Hi1, <- Hi2.
    + apply (counted_one d d' o o' x Ho Ho'). rewrite Ec, E2, E3, E4, E5. by rewrite Hx.
  - intros [= <- <-]. exists (if decide (failures = decode_failures_total o) then Refused else Undecodable).
    split; [by case_decide|]. split; [by case_decide|].
    eapply (counted_one d _ o (count_runtime_failure o1)); [done|cbn; by rewrite Ho1|].
    assert (columns (count_runtime_failure o1) = columns o1) as -> by by destruct o1.
    rewrite E1. case_decide as Hd; cbn; [by rewrite Hd|]. by destruct Hf as [|[-> _]].
Qed.

(** ** The timeline *)

Section Clock.
Context (hz : Z) (Hhz : 0 < hz).

(** The emissions between two states come after every frame the source was past, in order,
    if the frames heard are of one clock and the counters have room for them. *)
Definition ordered d d' (heard : list ReceivedOpusFrame) (es : list SourceEmission) : Prop :=
  ∀ n, 0 ≤ n → Forall (λ f, rtp_clock_hz f = hz) heard → room (Z.of_nat (length heard) + n) d →
    room n d' ∧ (∀ f, past hz f d → past hz f d') ∧ StronglySorted follows es
    ∧ Forall (λ e, past hz (emitted_frame e) d' ∧ ∀ f, past hz f d → precedes f (emitted_frame e)) es.

Lemma ordered_same d d' : timing d' = timing d → ordered d d' [] [].
Proof.
  intros Ht n Hn _ Hr. split; [|split; [|by repeat constructor]].
  - cbn in Hr. unfold room in *. injection Ht as _ _ _ -> ->. done.
  - intros f. by apply past_timing.
Qed.

Lemma ordered_deliver e d r d' : deliver e d = (r, d') → ordered d d' [e] (told r).
Proof.
  intros E n Hn [Hall _]%Forall_cons Hr.
  destruct (deliver_spec hz Hhz e d r d' n Hall Hn) as (Hr' & Hp & Hem);
    [by replace (n + 1) with (Z.of_nat (length [e]) + n) by (cbn; lia)|done|].
  split; [done|]. split; [done|]. destruct r as [[em|]|err]; cbn; try by repeat constructor.
  destruct (Hem em eq_refl). split; [by repeat constructor|]. constructor; [by split|constructor].
Qed.

Lemma ordered_trans d1 d2 d3 l1 l2 es1 es2 :
  ordered d1 d2 l1 es1 → ordered d2 d3 l2 es2 → ordered d1 d3 (l1 ++ l2) (es1 ++ es2).
Proof.
  intros H1 H2 n Hn Hall Hr. apply Forall_app in Hall as [Ha1 Ha2].
  rewrite length_app, Nat2Z.inj_add, <- Z.add_assoc in Hr.
  destruct (H1 (Z.of_nat (length l2) + n) ltac:(lia) Ha1 Hr) as (R2 & P2 & S2 & F2).
  destruct (H2 n Hn Ha2 R2) as (R3 & P3 & S3 & F3).
  split; [done|]. split; [by auto|]. rewrite Forall_forall in F2, F3. split.
  - apply StronglySorted_app_2; [|done..]. intros e1 e2 He1 He2. by apply (F3 e2 He2), (F2 e1 He1).
  - apply Forall_app. split; apply Forall_forall; intros e He.
    + destruct (F2 e He) as [Hp Hb]. split; [by apply P3|done].
    + destruct (F3 e He) as [Hp Hb]. split; [done|]. intros f Hf. by apply Hb, P2.
Qed.

(** ** The history of a source *)

Record history d d' (heard : list ReceivedOpusFrame) (ends : list Ending) : Prop := mkHistory {
  history_heard : hears d d' heard;
  history_ends : Forall2 (ended (identity d)) heard ends;
  history_counted : counted d d' 0 ends;
  history_ordered : ordered d d' heard (emissions ends);
  history_pending : pending_frame d' = pending_frame d;
}.

Lemma hears_identity d d' l : hears d d' l → identity d' = identity d.
Proof. by intros [? _]. Qed.

Lemma history_trans d1 d2 d3 l1 l2 e1 e2 :
  history d1 d2 l1 e1 → history d2 d3 l2 e2 → history d1 d3 (l1 ++ l2) (e1 ++ e2).
Proof.
  intros [H1 F1 C1 O1 P1] [H2 F2 C2 O2 P2]. pose proof (hears_identity _ _ _ H1) as Hk. constructor.
  - by eapply hears_trans.
  - apply Forall2_app; [done|]. by rewrite Hk in F2.
  - by apply (counted_trans d1 d2 d3 0 0).
  - unfold emissions. rewrite omap_app. by eapply ordered_trans.
  - congruence.
Qed.

(** Steps that neither hear nor tell. *)
Definition still d d' : Prop :=
  quiet d d' ∧ timing d' = timing d ∧ columns <$> observations d' = columns <$> observations d.

#[local] Instance still_preorder : PreOrder still.
Proof.
  split; [by split|]. intros d1 d2 d3 (Q1 & T1 & C1) (Q2 & T2 & C2).
  split; [by etrans|]. split; congruence.
Qed.

Lemma history_still d d' : still d d' → history d d' [] [].
Proof.
  intros (Hq & Ht & Hc). constructor; [by apply hears_quiet|constructor|by apply counted_same|by apply ordered_same|].
  destruct Hq as (_ & Hk & _). exact (f_equal snd Hk).
Qed.

Lemma history_deliver e d0 d r d' :
  hears d0 d [e] → timing d = timing d0 → columns <$> observations d = columns <$> observations d0 →
  pending_frame d = pending_frame d0 → deliver e d = (r, d') → ∃ x, history d0 d' [e] [x] ∧ told r = emissions [x].
Proof.
  intros Hh Ht Hc Hpend E. destruct (deliver_ends e d r d' E) as (x & He & Hx & Hn). exists x. split; [|done].
  pose proof (hears_identity _ _ _ Hh) as Hk. pose proof (quiet_deliver e d) as Hq. rewrite E in Hq. cbn in Hq.
  constructor.
  - change [e] with ([e] ++ [] : list ReceivedOpusFrame). eapply hears_trans; [exact Hh|by apply hears_quiet].
  - constructor; [|constructor]. by rewrite Hk in He.
  - apply (counted_trans d0 d d' 0 0 [] [x]); [by apply counted_same|done].
  - rewrite <- Hx. apply (ordered_trans d0 d d' [] [e] [] (told r)); [by apply ordered_same|by apply ordered_deliver].
  - destruct Hq as (_ & Hq & _). rewrite <- Hpend. exact (f_equal snd Hq).
Qed.

(** ** [next] *)

Lemma still_world {A} (m : W → A * W) : (∀ w, emitted (m w).2 = emitted w) → keeps still (on_world m).
Proof.
  intros Hm d. pose proof (quiet_world m Hm d). unfold on_world in *. by destruct (m (world d)).
Qed.
#[local] Hint Extern 1 (keeps still (gets _)) => by intros d : keeps.
#[local] Hint Extern 1 (keeps still (on_world now)) => apply still_world, source_log_now : keeps.

(** The end of a pass that heard nothing. *)
Lemma still_idle :
  keeps still (c ← gets config;
    c ← io_result (ok_or (Message "source is not prepared") c);
    last ← gets last_delivery;
    idle ← match last with
           | Some last => t ← on_world now; mret (no_frame_timeout c <=? t - last)
           | None => mret false
           end;
    if idle : bool then
      _ ← observation_state;
      _ ← io_modify (observe count_runtime_failure);
      failed "Relay AudioBus delivered no media frame"
    else
      _ ← io_modify (λ d, with_world (sleep POLL_IDLE (world d)) d);
      mret (None : option (option SourceEmission))).
Proof.
  keep.
  - intros d. by rewrite observation_state_run.
  - split_and!; try done. cbn. destruct (observations _) as [o|]; [|done]. by destruct o.
  - by intros d.
  - split; [|done]. split_and!; try done. apply source_log_sleep.
Qed.

Lemma poll_still d r d' :
  or_runtime_failure poll_encoded d = (r, d') →
  hears d d' (frames r) ∧ timing d' = timing d ∧ columns <$> observations d' = columns <$> observations d
  ∧ pending_frame d' = pending_frame d.
Proof.
  unfold or_runtime_failure. pose proof (hears_poll d) as Hh.
  assert (timing (poll_encoded d).2 = timing d ∧ observations (poll_encoded d).2 = observations d
          ∧ pending_frame (poll_encoded d).2 = pending_frame d) as (Ht & Ho & Hp).
  { unfold poll_encoded, mbind, io_bind, gets, on_connection. destruct (connection d) as [c|]; [|done].
    by destruct (poll_frame _). }
  destruct (poll_encoded d) as [[x|e] d1]; cbn in *; intros [= <- <-]; (split; [done|]; split; [done|]); cbn;
    rewrite Ho; [done|]. split; [|done]. destruct (observations d) as [o|]; [|done]. cbn. by destruct o.
Qed.

(** What a pass answers is what it tells, and one that is not over tells nothing. *)
Definition told_round (r : Result BoxedError (option (option SourceEmission))) : list SourceEmission :=
  match r with Ok (Some e) => told (Ok e) | _ => [] end.

Lemma next_round_history d r d' :
  next_round d = (r, d') → ∃ heard ends, history d d' heard ends ∧ told_round r = emissions ends.
Proof.
  unfold next_round, mbind, io_bind at 1. pose proof (still_world is_cancelled source_log_cancelled d) as Hc.
  destruct (on_world is_cancelled d) as [[c|e] d1] eqn:E1; cbn in Hc.
  2: { intros [= <- <-]. exists [], []. split; [by apply history_still|done]. }
  destruct c.
  { intros [= <- <-]. exists [], []. split; [by apply history_still|done]. }
  unfold io_bind at 1. destruct (or_runtime_failure poll_encoded d1) as [[x|e] d2] eqn:E2;
    apply poll_still in E2 as (Hh & Ht & Ho & Hpend).
  2: { intros [= <- <-]. exists [], []. split; [|done]. apply (history_trans d d1 d2 [] [] [] []); [by apply history_still|].
       constructor; [done|constructor|by apply counted_same|by apply ordered_same|done]. }
  destruct x as [encoded|].
  - unfold io_bind. destruct (deliver encoded d2) as [y d3] eqn:E3.
    destruct (history_deliver encoded d1 d2 y d3 Hh Ht Ho Hpend E3) as (end1 & Hy & Htold).
    intros E. exists [encoded], [end1].
    assert (d3 = d' ∧ told_round r = told y) as [-> ->] by (by destruct y as [[e|]|e]; injection E as <- <-).
    split; [|done]. apply (history_trans d d1 d' [] [encoded] [] [end1]); [by apply history_still|done].
  - intros E. pose proof (still_idle d2) as Hi. unfold mbind in Hi. rewrite E in Hi. cbn in Hi.
    exists [], []. split.
    + apply (history_trans d d1 d' [] [] [] []); [by apply history_still|].
      apply (history_trans d1 d2 d' [] [] [] []); [|by apply history_still].
      constructor; [done|constructor|by apply counted_same|by apply ordered_same|done].
    + revert E. clear. unfold mbind, io_bind, gets, io_result, failed, io_fail, io_modify. cbn.
      destruct (config d2) as [c|]; cbn; [|by intros [= <- <-]].
      destruct (last_delivery d2) as [t|]; cbn; [|by intros [= <- <-]].
      unfold on_world. destruct (now (world d2)) as [t' w]. cbn.
      destruct (no_frame_timeout c <=? t' - t); [|by intros [= <- <-]].
      rewrite observation_state_run. cbn. destruct (observations d2); by intros [= <- <-].
Qed.

Lemma next_history rounds d :
  pending_frame d = None →
  ∃ heard ends, match next rounds d with
  | inl d' => history d d' heard ends ∧ emissions ends = []
  | inr (r, d') => history d d' heard ends ∧ told r = emissions ends
  end.
Proof.
  intros Hp. unfold next. rewrite Hp.
  pose proof (run_until_invariant (io_round next_round)
    (λ d', ∃ heard ends, history d d' heard ends ∧ emissions ends = [])
    (λ r, ∃ heard ends, history d r.2 heard ends ∧ told r.1 = emissions ends) rounds d) as Hr.
  destruct (run_until rounds _ d) as [d'|[r d']]; apply Hr;
    try (exists [], []; split; [by apply history_still|done]);
    intros d1 x (heard & ends & Hh & He) Hx; unfold io_round in Hx;
    destruct (next_round d1) as [[[r1|]|e1] d2] eqn:E1;
    apply next_round_history in E1 as (heard1 & ends1 & Hh1 & He1); simplify_eq;
    exists (heard ++ heard1), (ends ++ ends1); (split; [by eapply history_trans|]);
    unfold emissions in *; rewrite omap_app, He; cbn in *; congruence.
Qed.

(** The session calls [next] time and again, each time for at most so many passes: what it
    is told. *)
Fixpoint calls (rounds : list positive) d : list SourceEmission * Drv :=
  match rounds with
  | [] => ([], d)
  | p :: rounds =>
      match next p d with
      | inl d => calls rounds d
      | inr (r, d) => let '(es, d) := calls rounds d in (told r ++ es, d)
      end
  end.

Lemma calls_history rounds : ∀ d es d',
  pending_frame d = None → calls rounds d = (es, d') →
  ∃ heard ends, history d d' heard ends ∧ es = emissions ends.
Proof.
  induction rounds as [|p rounds IH]; intros d es d' Hp; cbn [calls].
  { intros [= <- <-]. exists [], []. split; [by apply history_still|done]. }
  destruct (next_history p d Hp) as (heard & ends & Hh). destruct (next p d) as [d1|[r d1]].
  - destruct Hh as [Hh He]. intros E.
    destruct (IH d1 es d') as (heard1 & ends1 & Hh1 & ->); [by rewrite (history_pending _ _ _ _ Hh)|done|].
    exists (heard ++ heard1), (ends ++ ends1). split; [by eapply history_trans|].
    unfold emissions in *. by rewrite omap_app, He.
  - destruct Hh as [Hh He]. destruct (calls rounds d1) as [es1 d2] eqn:E. intros [= <- <-].
    destruct (IH d1 es1 d2) as (heard1 & ends1 & Hh1 & ->); [by rewrite (history_pending _ _ _ _ Hh)|done|].
    exists (heard ++ heard1), (ends ++ ends1). split; [by eapply history_trans|].
    unfold emissions in *. by rewrite omap_app, He.
Qed.

(** The frame [prepare] waited for is told first. *)
Lemma first_call d g p :
  pending_frame d = Some g → ∃ r d1, next p d = inr (r, d1) ∧ pending_frame d1 = None
    ∧ hears d d1 [] ∧ timing d1 = timing d ∧ counted d d1 (length (told r)) []
    ∧ (told r = [] ∨ ∃ e, told r = [e] ∧ emitted_frame e = g).
Proof.
  intros Hg. unfold next. rewrite Hg. set (d0 := with_pending_frame None d).
  unfold mbind, io_bind. destruct (emission g d0) as [r d1] eqn:E.
  assert (keeps quiet (emission g)) as Hq by (unfold emission; repeat quiet_step).
  specialize (Hq d0). rewrite E in Hq. destruct Hq as (Q1 & Q2 & Q3).
  pose proof (emission_timing g d0 r d1 E) as [Ht Hem].
  set (answer := match r with Ok e => (Ok (Some e), d1) | Err e => (Err e, d1) end : Result BoxedError _ * _).
  assert (answer.2 = d1) as Ed by by destruct r. exists answer.1, d1.
  split; [unfold answer; by destruct r|]. split; [exact (f_equal snd Q2)|].
  split; [by apply (hears_same d d1); [|exact (f_equal fst Q2)|]|].
  split; [done|]. split.
  - intros o Ho. apply (emission_columns g d0 o r d1 Ho) in E. destruct r as [e|e].
    + destruct E as (_ & E & _). exists (count_emitted o). split; [done|].
      unfold number. cbn. destruct o; cbn. by rewrite wrap_mod, !Z.add_0_r.
    + exists o. unfold number. cbn. by rewrite !Z.add_0_r.
  - destruct r as [e|e]; [right|by left]. exists e. split; [done|]. by apply Hem.
Qed.

(** The session is told the pending frame first, and then what becomes of those heard. *)
Lemma calls_tell rounds d es d' (Hcalls : calls rounds d = (es, d')) :
  ∃ first heard ends, es = first ++ emissions ends
    ∧ (first = [] ∨ ∃ e, first = [e] ∧ pending_frame d = Some (emitted_frame e))
    ∧ hears d d' heard ∧ Forall2 (ended (identity d)) heard ends
    ∧ counted d d' (length first) ends
    ∧ (Forall (λ f, rtp_clock_hz f = hz) heard → room (Z.of_nat (length heard)) d →
       from_option (λ g, past hz g d) True (pending_frame d) → StronglySorted follows es).
Proof.
  assert (∀ d1 es1, pending_frame d1 = None → calls rounds d1 = (es1, d') →
    ∃ heard ends, history d1 d' heard ends ∧ es1 = emissions ends) as Hrest by (intros; by eapply calls_history).
  destruct (pending_frame d) as [g|] eqn:Hg.
  2: { destruct (Hrest d es Hg Hcalls) as (heard & ends & [Hh He Hc Ho Hp] & ->).
    exists [], heard, ends. split_and!; try done; [by left|]. intros Ha Hr _.
    destruct (Ho 0) as (_ & _ & Hs & _); [done|done|by rewrite Z.add_0_r|done]. }
  destruct rounds as [|p rounds]; cbn [calls] in Hcalls.
  { injection Hcalls as <- <-. exists [], [], []. split_and!; try done; [by left|by apply hears_same|by apply counted_same|].
    intros. constructor. }
  destruct (first_call d g p Hg) as (r & d1 & En & Hp1 & Hh1 & Ht1 & Hc1 & Hf).
  rewrite En in Hcalls. destruct (calls rounds d1) as [es1 d2] eqn:E. injection Hcalls as <- <-.
  destruct (calls_history rounds d1 es1 d2 Hp1 E) as (heard & ends & [Hh He Hc Ho Hp] & ->).
  pose proof (hears_identity _ _ _ Hh1) as Hid. rewrite Hid in He.
  exists (told r), heard, ends. split; [done|]. split.
  { destruct Hf as [->|(e & -> & <-)]; [by left|right; by exists e]. }
  split; [by apply (hears_trans d d1 d2 [] heard)|]. split; [done|]. split.
  { rewrite <- (Nat.add_0_r (length (told r))). by apply (counted_trans d d1 d2 _ 0 [] ends). }
  intros Ha Hr Hpast. cbn in Hpast.
  assert (room (Z.of_nat (length heard) + 0) d1) as Hr1.
  { rewrite Z.add_0_r. unfold room in *. injection Ht1 as _ _ _ -> ->. done. }
  destruct (Ho 0 ltac:(done) Ha Hr1) as (_ & _ & Hs & Hall).
  destruct Hf as [->|(e & -> & Heg)]; [done|]. cbn. constructor; [done|].
  eapply Forall_impl; [exact Hall|]. intros e' [_ He']. unfold follows. rewrite Heg. apply He'.
  by apply (past_timing hz g d).
Qed.

(** The frames heard are among the engine's events, and of their clock. *)
Lemma heard_clock d d' heard events :
  hears d d' heard → emitted (world d') = emitted (world d) ++ events →
  from_option pending_events [] (connection d) = [] →
  Forall (λ e, match e with MediaDataEvent m => media_denom m = hz | _ => True end) events →
  Forall (λ f, rtp_clock_hz f = hz) heard ∧ (length heard ≤ length events)%nat.
Proof.
  unfold hears. intros [_ Hh] He Hp Hall. destruct (connection d) as [c|], (connection d') as [c'|]; try done.
  2: { subst heard. split; [constructor|cbn; lia]. }
  destruct Hh as (new & consumed & E1 & E2 & <- & _). cbn in E1, E2, Hp.
  rewrite He in E1. apply (inj (app _)) in E1 as <-. rewrite Hp in E2. cbn in E2. rewrite E2 in Hall |- *.
  apply Forall_app in Hall as [Hall _]. rewrite length_app. clear E2.
  assert (Forall (λ f, rtp_clock_hz f = hz) (omap (frame_of (Subscriber.mid (attach c (world d)))) consumed)
          ∧ (length (omap (frame_of (Subscriber.mid (attach c (world d)))) consumed) ≤ length consumed)%nat)
    as [Hc Hl]; [|split; [done|lia]].
  induction Hall as [|e l Hx _ [IH1 IH2]]; [split; [constructor|done]|].
  cbn. destruct (frame_of _ e) as [f|] eqn:Ef; cbn; (split; [|cbn in *; lia]); [|done]. constructor; [|done].
  unfold frame_of in Ef. destruct e; try done. case_match; [|done]. by injection Ef as <-.
Qed.
End Clock.

(** ** [prepare] leaves the source past the frame it waited for *)

Definition same_timing d d' : Prop := timing d' = timing d.

#[local] Instance same_timing_preorder : PreOrder same_timing.
Proof. split; [done|]. intros d1 d2 d3 H1 H2. unfold same_timing in *. congruence. Qed.

Lemma timing_on_connection {A} c (m : io (SubscriberConnection W) BoxedError A) :
  keeps same_timing (on_connection c m).
Proof. intros d. unfold on_connection. by destruct (m _). Qed.
Lemma timing_fail_startup {A} e : keeps same_timing (fail_startup (A := A) e).
Proof.
  intros d. unfold fail_startup. cbn. destruct (connection d); [|done].
  pose proof (timing_on_connection s Subscriber.close (observe count_startup_failure d)) as Hc.
  exact Hc.
Qed.
Lemma timing_or_fail {A} (m : dio A) : keeps same_timing m → keeps same_timing (or_fail_startup m).
Proof.
  intros Hm d. unfold or_fail_startup. specialize (Hm d). destruct (m d) as [[a|e] d']; [done|].
  etrans; [exact Hm|]. apply timing_fail_startup.
Qed.
Lemma timing_poll : keeps same_timing poll_encoded.
Proof.
  apply keeps_bind; [apply _|by intros d|]. intros [c|]; [apply timing_on_connection|by intros d].
Qed.

#[local] Hint Resolve timing_fail_startup : keeps.
#[local] Hint Extern 1 (keeps same_timing (gets _)) => by intros d : keeps.
#[local] Hint Extern 2 (keeps same_timing (or_fail_startup _)) => apply timing_or_fail; keep : keeps.

Lemma timing_connect c h : keeps same_timing (connect c h).
Proof.
  unfold connect. keep; try done; try (intros d; by rewrite ?observation_state_run).
  - apply timing_or_fail. intros d. cbn. by destruct (Subscriber.new _ _ _ _).
  - intros d. unfold on_world. by destruct (new_decoder _).
Qed.

(** The pending frame was decoded from [e], which the connection delivered. *)
Definition waited_for d (e : ReceivedOpusFrame) (g : DecodedFrame) : Prop :=
  pending_frame d = Some g
  ∧ (∃ d1 d2, poll_encoded d1 = (Ok (Some e), d2))
  ∧ ∃ w w', decode_into (Subscriber.payload e) w = (Some (samples g), w').

Definition settled d : Prop :=
  ∃ e g, waited_for d e g ∧ (0 < rtp_clock_hz e → past (rtp_clock_hz e) g d).

Lemma startup_round_settles deadline d r d' :
  startup_round deadline d = (r, d') → room 1 d →
  match r with Ok (Some _) => settled d' | Ok None => same_timing d d' | Err _ => True end.
Proof.
  intros E Hr. unfold startup_round, mbind, io_bind at 1, on_world in E.
  destruct (now (world d)) as [t w]. case_match.
  { unfold fail_startup in E. by injection E as <- <-. }
  unfold io_bind at 1 in E. set (d1 := with_world w d) in *.
  pose proof (timing_poll d1) as Hp. unfold or_fail_startup at 1 in E.
  destruct (poll_encoded d1) as [[[e|]|err] d2] eqn:Ep; cbn in Hp.
  3: { unfold fail_startup in E. by injection E as <- <-. }
  2: { by injection E as <- <-. }
  assert (room 1 d2) as Hr2 by (unfold same_timing in Hp; injection Hp as _ _ _ E1 E2; unfold room; by rewrite E1, E2).
  unfold or_fail_startup, io_bind in E. destruct (decode e d2) as [[g|err] d3] eqn:Ed.
  2: { unfold fail_startup in E. by injection E as <- <-. }
  cbn in E. rewrite observation_state_run in E. cbn in E. destruct (observations d3); [|by injection E as <- <-].
  destruct (now _) as [t2 w2]. injection E as <- <-. exists e, g. split.
  { split; [done|]. split; [by exists d1, d2|]. destruct (observations d2) as [o2|] eqn:Ho2.
    - by destruct (decode_columns e d2 o2 _ _ Ho2 Ed) as (_ & _ & _ & _ & _ & Hg); apply Hg.
    - revert Ed. unfold decode, mbind, io_bind at 1. by rewrite observation_state_run, Ho2. }
  intros Hhz.
  apply (past_timing _ _ d3); [done|].
  destruct (decode_spec (rtp_clock_hz e) Hhz e d2 (Ok g) d3 eq_refl Hr2 Ed) as (_ & _ & _ & Hg).
  by apply (Hg g).
Qed.

Lemma prepare_settles reads rounds context d d' :
  room 1 d → prepare reads rounds context d = Some (Ok (), d') → settled d'.
Proof.
  intros Hr. unfold prepare.
  assert (keeps same_timing (prepare_config context)) as Hc.
  { apply keeps_bind; [apply _| |intros _; apply keeps_bind; [apply _|by intros d0|intros c; apply keeps_result, _]].
    apply keeps_bind; [apply _|apply keeps_result, _|]. intros s.
    apply keeps_bind; [apply _|by intros d0|]. intros rs. case_match; [by intros d0|].
    apply keeps_bind; [apply _|apply keeps_result, _|]. intros p0.
    apply keeps_bind; [apply _|by intros d0|]. intros _. by intros d0. }
  specialize (Hc d). destruct (prepare_config context d) as [[c|e] d1]; [|by intros [= <-]]. cbn in Hc.
  unfold subscriber_handshake. destruct (run_subscriber_handshake _ _ _ _ _ _ _ _ _) as [[h w]|]; [|done].
  set (d2 := with_world w d1). intros [= E]. unfold prepare_connected, mbind, io_bind at 1 in E.
  pose proof (timing_connect c ((λ h, (handshake_ws h, mids h)) <$> h) d2) as Hd.
  destruct (connect _ _ d2) as [[u|e] d3]; [|done]. cbn in Hd.
  unfold io_bind, on_world in E. destruct (now (world d3)) as [t w3].
  assert (same_timing d (with_world w3 d3)) as Ht.
  { etrans; [exact Hc|]. exact Hd. }
  destruct (checked_add _ _ _) as [deadline|]; [|done].
  pose proof (io_loop_invariant (startup_bound (source_startup_timeout c)) exhausted
    (startup_round deadline) (same_timing d)
    (λ r d, is_ok r = true → settled d) (with_world w3 d3) Ht) as Hl.
  assert (∀ d4 r d5, same_timing d d4 → startup_round deadline d4 = (r, d5) →
    match r with Ok (Some _) => settled d5 | Ok None => same_timing d d5 | Err _ => True end) as Hround.
  { intros d4 r d5 Hs E4. assert (room 1 d4) as Hr4
      by (unfold same_timing in Hs; injection Hs as _ _ _ E1 E2; unfold room; by rewrite E1, E2).
    pose proof (startup_round_settles _ _ _ _ E4 Hr4) as H4. destruct r as [[x|]|]; [done| |done]. by etrans. }
  rewrite E in Hl. apply Hl; try done.
  - intros d4 d5 Hs E4. exact (Hround _ _ _ Hs E4).
  - intros d4 x d5 Hs E4 _. exact (Hround _ _ _ Hs E4).
Qed.

(** ** Property *)

(** C4: What a session is told of a source, over any number of calls of [next], whatever the
    connection, the codec and the pool do: the frame [prepare] waited for, if it could be
    emitted, and then, in the order and at most once, emissions of the frames the connection
    delivered meanwhile, each with the samples the codec made of its frame and the
    declared generation.  Each frame delivered is emitted, undecodable, without a buffer or
    refused, and the observations count it so.  As long as the counters have room and the
    frames are of one clock, the sequence numbers of the emissions strictly increase, their
    epochs never decrease, and neither do their timestamps within an epoch. *)
Theorem source_tells_what_it_hears reads passes context d0 d rounds es d' (Hroom : room 1 d0)
  (Hprepared : prepare reads passes context d0 = Some (Ok (), d))
  (Hcalls : calls rounds d = (es, d')) :
  ∃ e g first heard ends, waited_for d e g
    ∧ es = first ++ emissions ends ∧ (first = [] ∨ ∃ em, first = [em] ∧ emitted_frame em = g)
    ∧ hears d d' heard ∧ Forall2 (ended (identity d)) heard ends
    ∧ counted d d' (length first) ends
    ∧ ∀ hz, 0 < hz → Forall (λ f, rtp_clock_hz f = hz) (e :: heard) → room (Z.of_nat (length heard)) d →
        StronglySorted follows es.
Proof.
  destruct (prepare_settles _ _ _ _ _ Hroom Hprepared) as (e & g & Hwait & Hpast).
  pose proof Hwait as [Hg _].
  assert (∃ hz, 0 < hz ∧ (0 < rtp_clock_hz e → hz = rtp_clock_hz e)) as (hz & Hhz & Hclock).
  { destruct (decide (0 < rtp_clock_hz e)); [by exists (rtp_clock_hz e)|by exists 1]. }
  destruct (calls_tell hz Hhz rounds d es d' Hcalls) as (first & heard & ends & H1 & H2 & H3 & H4 & H5 & H6).
  rewrite Hg in H2, H6. exists e, g, first, heard, ends. split_and!; try done.
  - destruct H2 as [->|(em & -> & [= ->])]; [by left|right; by exists em].
  - intros hz' Hhz' [He Ha]%Forall_cons Hr. rewrite <- He in Ha, Hhz'.
    apply H6; [by rewrite Hclock|done|]. cbn. rewrite Hclock by done. by apply Hpast.
Qed.
End Timeline.

(** ** A prepared source *)

Module Listening.
Import (hints) Script.

#[export] Instance log : SourceLog Script.World Script.output.
Proof.
  split; try done. split; try done.
  - intros w e w'. cbn. destruct (Script.queue w) as [|[e'|] l]; [done| |done]. by intros [= -> <-].
  - intros w r w'. cbn. destruct (Script.queue w) as [|[e'|] l]; intros [= <- <-] Hr; [done| |done].
    by destruct (Hr e').
Qed.

(** Frames to come: one in time, an undecodable one, and one after the RTP clock was set back. *)
Definition start : Driver Script.World :=
  Script.created
    (Script.mkWorld 0 [Script.audio 960; None; Script.audio 1920; None;
       Some (MediaDataEvent (mkMedia 7 [] 2880 48000 true)); None; Script.audio 0; None] []).
Definition prepared : Driver Script.World := from_option snd start (prepare 1 9 (Some Script.context) start).
End Listening.

Import (hints) Script Listening.


Abbreviation session := (calls [9; 400; 400; 400]%positive Listening.prepared).

Lemma listening_few :
  (length (drop (length (Script.output (world Listening.prepared))) (Script.output (world session.2))) ≤ 3)%nat.
Proof. apply Nat.leb_le. vm_compute. reflexivity. Qed.

Lemma listening_counters :
  next_sequence Listening.prepared = 1 ∧ discontinuity_epoch Listening.prepared = 0.
Proof. vm_compute. split; reflexivity. Qed.

Lemma past_of {W} `{SourceEnv W} (d : Driver W) (rtp local previous n epoch m t : Z) :
  timing d = (Some rtp, Some local, Some previous, n, epoch) →
  (λ g, (sequence_number g, frame_epoch g, timestamp_ns g)) <$> pending_frame d = Some (m, epoch, t) →
  m < n → t ≤ sat_add local (ticks_to_ns (sat_sub previous rtp) 48000) →
  from_option (λ g, past 48000 g d) True (pending_frame d).
Proof.
  unfold timing. intros [= E1 E2 E3 E4 E5] Hg Hm Ht. destruct (pending_frame d) as [g|]; [|done].
  injection Hg as <- F2 <-. cbn. unfold past. rewrite E1, E2, E3, E4, E5, F2.
  split; [done|]. split; [done|]. intros _. by exists rtp, local, previous.
Qed.

Lemma listening_past :
  from_option (λ g, past 48000 g Listening.prepared) True (pending_frame Listening.prepared).
Proof.
  apply (past_of Listening.prepared 960 15000000 960 1 0 0 15000000); [vm_compute; reflexivity..|lia|].
  vm_compute. discriminate.
Qed.

Example listening_sorted :
  StronglySorted follows session.1.
Proof.
  assert (Script.output (world session.2) = Script.output (world Listening.prepared)
          ++ drop (length (Script.output (world Listening.prepared))) (Script.output (world session.2))) as Hlog
    by (vm_compute; reflexivity).
  assert (Forall (λ e, match e with MediaDataEvent m => media_denom m = 48000 | _ => True end)
            (drop (length (Script.output (world Listening.prepared))) (Script.output (world session.2)))) as Hclock
    by (vm_compute; repeat constructor).
  destruct (calls_tell Script.output 48000 eq_refl _ _ _ _ (surjective_pairing session))
    as (first & heard & ends & H1 & _ & H2 & H3 & _ & H4).
  destruct (heard_clock Script.output 48000 _ _ heard _ H2 Hlog) as [H5 H6]; [vm_compute; reflexivity|exact Hclock|].
  apply H4; [exact H5| |].
  - pose proof (Nat.le_trans _ _ _ H6 listening_few) as Hfew. clear - Hfew. unfold room.
    rewrite (proj1 listening_counters), (proj2 listening_counters). unfold U64_MAX. lia.
  - exact listening_past.
Qed.

Lemma source_tells_what_it_hears_witness :
  (λ e, (sequence_number (emitted_frame e), frame_epoch (emitted_frame e))) <$> session.1
    = [(0, 0); (1, 0); (2, 1)] ∧
  ∃ e g first heard ends, waited_for Listening.prepared e g ∧ session.1 = first ++ emissions ends
    ∧ Forall2 (ended (identity Listening.prepared)) heard ends.
Proof.
  split; [vm_compute; reflexivity|].
  destruct (prepare 1 9 (Some Script.context) Listening.start) as [[r d]|] eqn:E; [|vm_compute in E; discriminate E].
  assert (d = Listening.prepared) as -> by (unfold Listening.prepared; rewrite E; reflexivity).
  assert (r = Ok ()) as ->.
  { apply (f_equal (option_map fst)) in E. assert (option_map fst (prepare 1 9 (Some Script.context) Listening.start) = Some (Ok ())) as E'
      by (vm_compute; reflexivity). rewrite E' in E. cbn in E. injection E as E. symmetry. exact E. }
  destruct (source_tells_what_it_hears Script.output 1 9 (Some Script.context) Listening.start Listening.prepared
    [9; 400; 400; 400]%positive session.1 session.2)
    as (e & g & first & heard & ends & H1 & H2 & _ & _ & H3 & _).
  - split; reflexivity.
  - exact E.
  - apply surjective_pairing.
  - exists e, g, first, heard, ends. split; [exact H1|]. split; [exact H2|exact H3].
Defined.
