(* ===== verification/SourceFactory.v ===== *)
(** * Installing Relay sources on a session: [relay/src/source.rs]

    [RelayAudioBusSources] is installed once on a Core session: it describes its sources in
    a manifest, registers a factory, and hands out a handle per declared bus whose
    observations are read as a snapshot.  Core's descriptors, [SourceTypeId], [PortSpec]
    and [SourceManifest], are the parameters of [CoreSources]. *)

From S2P Require Import Prelude Env Text Extern Errors Encoder Proxy Config Transport WebRtc Subscriber Handshake Source.

Definition RELAY_AUDIOBUS_SOURCE_TYPE_ID : string := "io.pocketstation.source.relay-audio-bus.v1".
Definition OUTPUT_PORT : string := "audio".

(** ** Snapshots *)

Record RelayAudioBusSourceSnapshot : Type := mkSnapshot {
  prepared : Z;
  startup_failures : Z;
  connected : Z;
  first_frame : Z;
  received_frames : Z;
  emitted_frames : Z;
  noncontiguous_frames : Z;
  pool_dropped_frames : Z;
  decode_failures : Z;
  runtime_failures : Z;
  closed_count : Z;
  latest_frame : Z;
  snapshot_generation : Z;
  snapshot_closed : bool;
}.

Definition snapshot (o : ObservationState) : RelayAudioBusSourceSnapshot :=
  {| prepared := prepared_total o; startup_failures := startup_failures_total o;
     connected := connected_total o; first_frame := first_frame_total o;
     received_frames := received_frames_total o; emitted_frames := emitted_frames_total o;
     noncontiguous_frames := noncontiguous_frames_total o;
     pool_dropped_frames := pool_dropped_frames_total o;
     decode_failures := decode_failures_total o; runtime_failures := runtime_failures_total o;
     closed_count := closed_total o; latest_frame := latest_frame_at_ns o;
     snapshot_generation := observed_generation o; snapshot_closed := observed_closed o |}.

(** ** The manifest and the factory *)

(** The checked constructors of Core's descriptors, and its session: its identity, the
    factories registered on it, and what it declares. *)
Class CoreSources (TypeId Port Manifest W : Type) : Type := {
  source_type_id : string → Result text TypeId;
  (** a mandatory output of mono interleaved f32 frames of a rate and a size, for any number
      of readers *)
  output_port : string → Z → nat → Result text Port;
  (** schema version, driver version; a blocking worker *)
  source_manifest : TypeId → Z → Z → list Port → Result text Manifest;
  register_source : Manifest → W → bool * W;
  session_identity : W → Z;
  (** [session.source(type, SourceConfiguration::default())]: the identity it allocated *)
  session_source : TypeId → W → option Z * W;
  (** [source.output(port)] of the source of an identity *)
  source_output : Z → string → W → option Z * W;
}.

Section Factory.
Context {TypeId Port Manifest W : Type} `{CoreSources TypeId Port Manifest W}.

(** Errors keep their constructor; their texts are Core's. *)
Local Abbreviation manifest_error := (map_err (λ _ : text, Source.Manifest)).

Record RelayAudioBusSourceFactory : Type := mkFactory {
  factory_manifest : Manifest;
  factory_pending : Reservations;
}.

Definition new_factory : Result RelayAudioBusSourceError RelayAudioBusSourceFactory :=
  type_id ← manifest_error (source_type_id RELAY_AUDIOBUS_SOURCE_TYPE_ID);
  port ← manifest_error (output_port OUTPUT_PORT SAMPLE_RATE_HZ MAX_PACKET_SAMPLES);
  manifest ← manifest_error (source_manifest type_id 1 1 [port]);
  Ok (mkFactory manifest (mkReservations ∅ false)).

Record RelayAudioBusSources : Type := mkSources {
  factory : RelayAudioBusSourceFactory;
  core_session_id : Z;
}.

Definition install (w : W) : Result RelayAudioBusSourceError RelayAudioBusSources * W :=
  match new_factory with
  | Err e => (Err e, w)
  | Ok f =>
      let '(registered, w) := register_source (factory_manifest f) w in
      if registered : bool then (Ok (mkSources f (session_identity w)), w)
      else (Err SessionError, w)
  end.

(** The [ObservationState]s allocated, by their addresses. *)
Abbreviation Memory := (gmap nat ObservationState).

(** An address nothing has. *)
Definition next_address (m : Memory) : nat := S (max_list (map_to_list m).*1).

(** [handle_observations] is the address of the shared state. *)
Record RelayAudioBusSourceHandle : Type := mkHandle {
  handle_source : Z;
  handle_output : Z;
  handle_observations : nat;
}.

(** [handle.observations().snapshot()] *)
Definition handle_snapshot (h : RelayAudioBusSourceHandle) (m : Memory)
  : option RelayAudioBusSourceSnapshot := snapshot <$> m !! handle_observations h.

Definition into_parts (h : RelayAudioBusSourceHandle) : Z * Z * nat :=
  (handle_source h, handle_output h, handle_observations h).

Definition with_reservations (r : Reservations) (s : RelayAudioBusSources) : RelayAudioBusSources :=
  mkSources (mkFactory (factory_manifest (factory s)) r) (core_session_id s).

(** [declare] with its calls into the session and its allocation; a handle or an error, the
    sources, the memory and the session. *)
Definition declare_handle (config : RelayAudioBusSourceConfig) (s : RelayAudioBusSources) (m : Memory) (w : W)
  : Result RelayAudioBusSourceError RelayAudioBusSourceHandle * RelayAudioBusSources * Memory * W :=
  if negb (session_identity w =? core_session_id s) then (Err WrongSession, s, m, w) else
  match validate config with
  | Err e => (Err e, s, m, w)
  | Ok _ =>
      match source_type_id RELAY_AUDIOBUS_SOURCE_TYPE_ID with
      | Err _ => (Err Source.Manifest, s, m, w)
      | Ok type_id =>
          match session_source type_id w with
          | (None, w) => (Err SessionError, s, m, w)
          | (Some source_id, w) =>
              let address := next_address m in
              let observations := new_observations address (source_generation config) in
              let m := <[address := observations]> m in
              match bind source_id (mkPending config observations) (factory_pending (factory s)) with
              | (Err e, r) => (Err e, with_reservations r s, m, w)
              | (Ok _, r) =>
                  match source_output source_id OUTPUT_PORT w with
                  | (Some output, w) =>
                      (Ok (mkHandle source_id output address), with_reservations r s, m, w)
                  | (None, w) => (Err SessionError, with_reservations (cancel source_id r) s, m, w)
                  end
              end
          end
      end
  end.

(** *** The drivers *)

Context {V : Type} `{SourceEnv V}.
Local Abbreviation Drv := (Driver V).

(** The sources, their shared observations, the drivers Core created, and the session. *)
Record Process : Type := mkProcess {
  sources : RelayAudioBusSources;
  memory : Memory;
  drivers : gmap nat Drv;
  core_session : W;
}.

Definition pending_sources (P : Process) : Reservations := factory_pending (factory (sources P)).

Definition declare_in (config : RelayAudioBusSourceConfig) (P : Process)
  : Result RelayAudioBusSourceError RelayAudioBusSourceHandle * Process :=
  let '(r, s, m, w) := declare_handle config (sources P) (memory P) (core_session P) in
  (r, mkProcess s m (drivers P) w).

(** Core creates the driver [k]. *)
Definition create_in (k : nat) (entries : list (text * text)) (v : V) (P : Process)
  : Result ConfigError unit * Process :=
  match create entries (pending_sources P) v with
  | Ok d => (Ok (), mkProcess (sources P) (memory P) (<[k := d]> (drivers P)) (core_session P))
  | Err e => (Err e, P)
  end.

(** What an [Arc] points to now. *)
Definition refresh (m : Memory) (o : ObservationState) : ObservationState := default o (m !! arc o).

(** The driver with what it shares: the factory's reservations and its observations. *)
Definition load (P : Process) (d : Drv) : Drv := observe (refresh (memory P)) (with_pending (pending_sources P) d).

Definition store (k : nat) (d : Drv) (P : Process) : Process :=
  mkProcess (with_reservations (pending d) (sources P))
    (match observations d with Some o => <[arc o := o]> (memory P) | None => memory P end)
    (<[k := d]> (drivers P)) (core_session P).

(** An operation of the driver [k]. *)
Definition drive {A} (k : nat) (f : Drv → A * Drv) (P : Process) : option A * Process :=
  match drivers P !! k with
  | Some d => let '(a, d) := f (load P d) in (Some a, store k d P)
  | None => (None, P)
  end.

(** What a driver does after its reservation: the rest of its preparation, [next] and
    [close], in any order and however often. *)
Inductive Call : Type :=
  | Handshake (reads rounds : positive)
  | Connected (c : RelayAudioBusSourceConfig) (h : Result BoxedError (Ws * list Mid))
  | Next (rounds : positive)
  | Close.

Definition perform (c : Call) (d : Drv) : unit * Drv :=
  ((), match c with
       | Handshake reads rounds =>
           match Source.config d with
           | Some c => from_option snd d (subscriber_handshake reads rounds c d)
           | None => d
           end
       | Connected c h => (prepare_connected c h d).2
       | Next rounds => match next rounds d with inl d | inr (_, d) => d end
       | Close => (close d).2
       end).

Definition calls (k : nat) (cs : list Call) (P : Process) : Process :=
  foldl (λ P c, (drive k (perform c) P).2) P cs.

(** ** Installation and declaration *)

(** An installed factory is the one registered, with nothing reserved, under a type Core
    takes; a failed installation registers nothing. *)
Lemma install_spec w :
  match install w with
  | (Ok s, w') =>
      register_source (factory_manifest (factory s)) w = (true, w')
      ∧ core_session_id s = session_identity w' ∧ factory_pending (factory s) = mkReservations ∅ false
      ∧ is_ok (source_type_id RELAY_AUDIOBUS_SOURCE_TYPE_ID) = true
  | (Err e, w') =>
      (e = Source.Manifest ∧ w' = w)
      ∨ (e = SessionError ∧ ∃ f, new_factory = Ok f ∧ register_source (factory_manifest f) w = (false, w'))
  end.
Proof.
  unfold install, new_factory.
  destruct (source_type_id _) as [type_id|]; cbn; [|by left].
  destruct (output_port _ _ _) as [port|]; cbn; [|by left].
  destruct (source_manifest _ _ _ _) as [m|]; cbn; [|by left].
  destruct (register_source m w) as [[] w'] eqn:Er; cbn; [done|]. right. split; [done|].
  by exists (mkFactory m (mkReservations ∅ false)).
Qed.

(** On installed sources [declare_handle] refines [Source.declare]: it reserves and answers
    what that does, for the answers Core gave; the handle has the address of what it
    allocated. *)
Lemma declare_handle_refines config s m w res s' m' w' :
  declare_handle config s m w = (res, s', m', w') →
  is_ok (source_type_id RELAY_AUDIOBUS_SOURCE_TYPE_ID) = true →
  ∃ core r0, declare (next_address m) (core_session_id s) (session_identity w) core config
      (factory_pending (factory s)) = (r0, factory_pending (factory s'))
    ∧ match res, r0 with
      | Ok h, Ok (id, o) =>
          handle_source h = id ∧ handle_observations h = arc o ∧ m' = <[arc o := o]> m
      | Err e, Err e' => e = e'
      | _, _ => False
      end.
Proof.
  intros Hd Hid. revert Hd. unfold declare_handle, declare.
  case_match; [intros [= <- <- <- <-]; by exists (mkDeclaration None true), (Err WrongSession)|].
  destruct (validate config) as [|e];
    [|intros [= <- <- <- <-]; by exists (mkDeclaration None true), (Err e)].
  destruct (source_type_id _) as [type_id|]; [|done].
  destruct (session_source type_id w) as [[source_id|] w1];
    [|intros [= <- <- <- <-]; by exists (mkDeclaration None true), (Err SessionError)].
  destruct (source_output source_id OUTPUT_PORT w1) as [output w2].
  exists (mkDeclaration (Some source_id) (bool_decide (is_Some output))). revert Hd. cbn.
  destruct (bind _ _ _) as [[u|e] r]; [|intros [= <- <- <- <-]; by eexists].
  destruct output; intros [= <- <- <- <-]; by eexists.
Qed.

Lemma next_address_fresh m : m !! next_address m = None.
Proof.
  apply eq_None_not_Some. intros [o Ho]. unfold next_address in Ho.
  assert (S (max_list (map_to_list m).*1) ∈ (map_to_list m).*1) as Hin.
  { apply list_elem_of_fmap. eexists (_, o). split; [reflexivity|]. by apply elem_of_map_to_list. }
  apply max_list_elem_of_le in Hin. lia.
Qed.

(** *** What a driver's operations leave alone *)

(** Whose observations they are, of which generation, and the preparations counted. *)
Definition account (d : Drv) : option (nat * Z * Z) :=
  (λ o, (arc o, observed_generation o, prepared_total o)) <$> observations d.
Definition same_account : relation Drv := λ d d', account d' = account d ∧ pending d' = pending d.

#[local] Instance same_account_preorder : PreOrder same_account.
Proof. split; [done|]. intros d1 d2 d3 [? ?] [? ?]. split; congruence. Qed.

Local Abbreviation K := (keeps (E := BoxedError) same_account).

Lemma account_observe (f : ObservationState → ObservationState) d :
  (∀ o, (arc (f o), observed_generation (f o), prepared_total (f o))
        = (arc o, observed_generation o, prepared_total o)) →
  same_account d (observe f d).
Proof. intros Hf. split; [|done]. unfold account. cbn. destruct (observations d); cbn; congruence. Qed.

Lemma account_update (f : Drv → Drv) :
  (∀ d, observations (f d) = observations d ∧ pending (f d) = pending d) → K (io_modify f).
Proof. intros Hf d. destruct (Hf d) as [E1 E2]. split; [|done]. unfold account. cbn. by rewrite E1. Qed.
Lemma account_count (f : ObservationState → ObservationState) :
  (∀ o, (arc (f o), observed_generation (f o), prepared_total (f o))
        = (arc o, observed_generation o, prepared_total o)) → K (io_modify (observe f)).
Proof. intros Hf d. by apply account_observe. Qed.
Lemma account_world {A} (m : V → A * V) : K (Source.on_world m).
Proof. intros d. unfold Source.on_world. by destruct (m (Source.world d)). Qed.
Lemma account_gets {A} (f : Drv → A) : K (Source.gets f).
Proof. by intros d. Qed.
Lemma account_failed {A} m : K (failed (A := A) m).
Proof. by intros d. Qed.
Lemma account_state : K observation_state.
Proof. intros d. by rewrite observation_state_run. Qed.
Lemma account_connection {A} c (m : io (SubscriberConnection V) BoxedError A) : K (on_connection c m).
Proof. intros d. unfold on_connection. by destruct (m _). Qed.
Lemma account_runtime {A} (m : io Drv BoxedError A) : K m → K (or_runtime_failure m).
Proof.
  intros Hm d. unfold or_runtime_failure. specialize (Hm d). destruct (m d) as [[a|e] d1]; [done|].
  etrans; [exact Hm|]. by apply account_observe; intros [].
Qed.
Lemma account_fail_startup {A} e : K (fail_startup (A := A) e).
Proof.
  intros d. unfold fail_startup. cbn. set (d1 := observe count_startup_failure d).
  assert (same_account d d1) as H1 by by apply account_observe; intros [].
  destruct (connection d) as [c|].
  - pose proof (account_connection c Subscriber.close d1) as H2.
    etrans; [exact H1|]. etrans; [exact H2|]. by apply account_observe; intros [].
  - etrans; [exact H1|]. by apply account_observe; intros [].
Qed.
Lemma account_or_fail {A} (m : io Drv BoxedError A) : K m → K (or_fail_startup m).
Proof.
  intros Hm d. unfold or_fail_startup. specialize (Hm d). destruct (m d) as [[a|e] d1]; [done|].
  etrans; [exact Hm|]. apply account_fail_startup.
Qed.
Lemma account_arrive e d : same_account d (arrive e d).
Proof.
  split; [|unfold arrive; by repeat case_match]. unfold account, arrive.
  destruct (observations d) as [[]|] eqn:E; repeat case_match; cbn; rewrite ?E; done.
Qed.

#[local] Hint Resolve account_world account_gets account_failed account_state account_connection
  account_runtime account_fail_startup account_or_fail : keeps.
#[local] Hint Extern 2 (keeps same_account (io_modify _)) =>
  first [ intros ?; apply account_arrive | apply account_count; by intros [] | by apply account_update ] : keeps.

Ltac account_step :=
  first [ lazymatch goal with |- keeps _ (io_modify _) => idtac end; solve [eauto with keeps] | keep_step ].

Lemma account_poll : K poll_encoded.
Proof. unfold poll_encoded. repeat account_step. Qed.
#[local] Hint Resolve account_poll : keeps.
Lemma account_decode e : K (decode e).
Proof. unfold decode, stamp. repeat account_step. Qed.
#[local] Hint Resolve account_decode : keeps.
Lemma account_emission f : K (emission f).
Proof. unfold emission. repeat account_step. Qed.
#[local] Hint Resolve account_emission : keeps.
Lemma account_deliver e : K (deliver e).
Proof. unfold deliver, emission_or_drop. repeat account_step. Qed.
#[local] Hint Resolve account_deliver : keeps.
Lemma account_round : K next_round.
Proof. unfold next_round. repeat account_step. Qed.
Lemma account_connected c h : K (prepare_connected c h).
Proof. unfold prepare_connected, connect, startup_round. repeat account_step; apply account_or_fail; [keep_step|].
  intros d. by destruct (Subscriber.new _ _ _ (Source.world d)).
Qed.

Lemma account_next rounds d :
  same_account d (match Source.next rounds d with inl d | inr (_, d) => d end).
Proof.
  unfold Source.next. destruct (pending_frame d) as [f|].
  - pose proof (account_emission f (with_pending_frame None d)) as Hk. unfold mbind, io_bind.
    by destruct (emission f (with_pending_frame None d)) as [[e|e] d1].
  - pose proof (run_until_invariant (io_round next_round) (same_account d) (λ r, same_account d r.2) rounds d) as Hr.
    destruct (run_until _ _ d) as [d1|[r d1]]; apply Hr; try done;
      intros d2 x Hd; unfold io_round; pose proof (account_round d2) as H2;
      destruct (next_round d2) as [[[a|]|e] d3]; intros [= <-]; by etrans.
Qed.

Lemma account_close d : same_account d (Source.close d).2.
Proof.
  unfold Source.close. destruct (connection d) as [c|]; [|by apply account_observe; intros []].
  pose proof (account_connection c Subscriber.close d) as H1.
  destruct (on_connection c Subscriber.close d) as [r d1]. etrans; [exact H1|]. by apply account_observe; intros [].
Qed.

Lemma perform_account c d : same_account d (perform c d).2.
Proof.
  destruct c as [reads rounds|c h|rounds|]; cbn.
  - destruct (Source.config d) as [c|]; [|done]. unfold subscriber_handshake.
    by destruct (run_subscriber_handshake _ _ _ _ _ _ _ _ _) as [[r w]|].
  - apply account_connected.
  - apply account_next.
  - apply account_close.
Qed.

(** *** What a handle sees *)

(** Every state is where its address says, and what reservations and drivers count in is in
    the memory: so it is at the start, and every operation keeps it ([declare_sound],
    [create_sound], [consume_sound], [calls_sound]). *)
Record sound (P : Process) : Prop := mkSound {
  sound_memory a o : memory P !! a = Some o → arc o = a;
  sound_reserved id p :
    reservations (pending_sources P) !! id = Some p → is_Some (memory P !! arc (pending_observations p));
  sound_driver k d o :
    drivers P !! k = Some d → observations d = Some o → is_Some (memory P !! arc o);
}.

Lemma refresh_arc P o : sound P → arc (refresh (memory P) o) = arc o.
Proof.
  intros Hs. unfold refresh. destruct (memory P !! arc o) as [o'|] eqn:E; [|done]. by apply (sound_memory _ Hs).
Qed.

(** What is stored by an operation that takes no new reservation. *)
Lemma store_kept {A} k (f : Drv → A * Drv) P d :
  sound P → (∀ d, same_account d (f d).2) → drivers P !! k = Some d →
  pending_sources (drive k f P).2 = pending_sources P
  ∧ (arc <$> observations (f (load P d)).2) = (arc <$> observations d).
Proof.
  intros Hs Hf Hd. unfold drive. rewrite Hd. destruct (Hf (load P d)) as [E1 E2].
  destruct (f (load P d)) as [x d']. cbn [fst snd] in E1, E2 |- *.
  split; [by unfold pending_sources; cbn; rewrite E2|]. unfold account in E1. cbn in E1.
  destruct (observations d) as [o|]; cbn in E1; destruct (observations d') as [o'|]; try done.
  injection E1 as E1 _ _. cbn. by rewrite E1, refresh_arc.
Qed.

(** A driver stores what is in the memory already. *)
Lemma store_sound k d P :
  sound P →
  (∀ id p, reservations (pending d) !! id = Some p → reservations (pending_sources P) !! id = Some p) →
  (∀ o, observations d = Some o → is_Some (memory P !! arc o)) →
  sound (store k d P).
Proof.
  intros Hs Hr Ho.
  assert (∀ a, is_Some (memory P !! a) → is_Some (memory (store k d P) !! a)) as Hin.
  { intros a Ha. cbn. destruct (observations d) as [o|]; [|done].
    destruct (decide (arc o = a)) as [->|]; [by rewrite lookup_insert_eq|by rewrite lookup_insert_ne]. }
  split.
  - intros a o. cbn. destruct (observations d) as [o'|]; [|apply Hs].
    intros [[<- <-]|[_ Ha]]%lookup_insert_Some; [done|by apply Hs].
  - intros id p Hp. by eapply Hin, sound_reserved, Hr.
  - intros j d1 o1 Hj Ho1. change (<[k := d]> (drivers P) !! j = Some d1) in Hj.
    apply lookup_insert_Some in Hj as [[_ <-]|[_ Hd1]]; [|by eapply Hin, sound_driver].
    by apply Hin, Ho.
Qed.

Lemma drive_sound {A} k (f : Drv → A * Drv) P :
  (∀ d, same_account d (f d).2) → sound P → sound (drive k f P).2.
Proof.
  intros Hf Hs. destruct (drivers P !! k) as [d|] eqn:Hd; [|unfold drive; by rewrite Hd].
  destruct (store_kept k f P d Hs Hf Hd) as [_ E2]. unfold drive. rewrite Hd.
  pose proof (Hf (load P d)) as [_ E1]. destruct (f (load P d)) as [x d']. cbn [snd] in *.
  apply store_sound; [done|by rewrite E1|]. intros o' Ho'. rewrite Ho' in E2.
  destruct (observations d) as [o|] eqn:Ho; [|done]. injection E2 as ->. by eapply sound_driver.
Qed.

Lemma consume_sound k context P : sound P → sound (drive k (consume_reservation context) P).2.
Proof.
  intros Hs. unfold drive. destruct (drivers P !! k) as [d|] eqn:Hd; [|done].
  assert (∀ o, observations (load P d) = Some o → is_Some (memory P !! arc o)) as Hload.
  { cbn. destruct (observations d) as [o|] eqn:Ho; [|done]. intros o' [= <-].
    rewrite refresh_arc by done. by eapply sound_driver. }
  unfold consume_reservation, mbind, io_bind, io_result, gets, io_modify.
  destruct context as [c|]; [|by apply store_sound]. cbn [ok_or].
  destruct (reservations_poisoned _); [by apply store_sound|].
  destruct (reservations (pending (load P d)) !! session_source_id c) as [p|] eqn:Ep; [|by apply store_sound].
  cbn [ok_or snd]. apply store_sound; [done| |].
  - intros id q. cbn. by intros [_ Hq]%lookup_delete_Some.
  - intros o. cbn. intros [= <-]. apply sound_reserved in Ep; [|done]. by destruct (pending_observations p).
Qed.

Lemma calls_sound k cs P : sound P → sound (calls k cs P).
Proof.
  unfold calls. revert P. induction cs as [|c cs IH]; intros P Hs; [done|]. cbn [foldl].
  apply IH, drive_sound; [apply perform_account|done].
Qed.

Lemma create_sound k entries v P : sound P → sound (create_in k entries v P).2.
Proof.
  intros Hs. unfold create_in. destruct entries as [|]; cbn; [|done]. split; try apply Hs.
  intros j d o Hj. cbn in Hj. apply lookup_insert_Some in Hj as [[_ <-]|[_ Hd]]; [done|].
  by apply (sound_driver _ Hs j d).
Qed.

(** No call of another driver writes the state at an address that is not its own. *)
Lemma calls_others k cs a P :
  sound P → (∀ d o, drivers P !! k = Some d → observations d = Some o → arc o ≠ a) →
  memory (calls k cs P) !! a = memory P !! a.
Proof.
  unfold calls. revert P. induction cs as [|c cs IH]; intros P Hs Ha; [done|]. cbn [foldl].
  pose proof (drive_sound k (perform c) P (perform_account c) Hs) as Hs'.
  destruct (drivers P !! k) as [d|] eqn:Hd; [|unfold drive in *; rewrite Hd in *; by apply IH; [|rewrite Hd]].
  destruct (store_kept k (perform c) P d Hs (perform_account c) Hd) as [_ E].
  unfold drive in *. rewrite Hd in *. destruct (perform c (load P d)) as [x d']. cbn [snd] in *.
  assert (∀ o', observations d' = Some o' → arc o' ≠ a) as Hne.
  { intros o' Ho'. rewrite Ho' in E. destruct (observations d) as [o|] eqn:Ho; [|done].
    injection E as ->. by apply (Ha d o). }
  rewrite IH; [|done|].
  - cbn. destruct (observations d') as [o'|]; [|done]. by apply lookup_insert_ne, Hne.
  - intros d1 o1. cbn. rewrite lookup_insert_eq. intros [= <-]. apply Hne.
Qed.

(** The observations at [a] are those of the driver [k], of a generation and with a number
    of preparations counted. *)
Definition tracks (k a : nat) (generation prepared : Z) (P : Process) : Prop :=
  ∃ d o, drivers P !! k = Some d ∧ observations d = Some o ∧ memory P !! a = Some o
    ∧ account d = Some (a, generation, prepared).

(** Operations of the driver keep it so, and leave all other observations and the
    reservations alone. *)
Lemma drive_tracks {A} k a g n (f : Drv → A * Drv) P :
  (∀ d, same_account d (f d).2) → tracks k a g n P →
  tracks k a g n (drive k f P).2
  ∧ pending_sources (drive k f P).2 = pending_sources P
  ∧ ∀ b, b ≠ a → memory (drive k f P).2 !! b = memory P !! b.
Proof.
  intros Hf (d & o & Hd & Ho & Hm & Ha). unfold drive. rewrite Hd.
  destruct (Hf (load P d)) as [E1 E2]. destruct (f (load P d)) as [x d']. cbn [fst snd] in E1, E2 |- *.
  assert (account (load P d) = Some (a, g, n)) as El.
  { unfold account in *. cbn. rewrite Ho in *. cbn in *. injection Ha as <- <- <-.
    unfold refresh. by rewrite Hm. }
  rewrite El in E1. pose proof E1 as E3. unfold account in E3.
  destruct (observations d') as [o'|] eqn:Eo; [|done]. cbn in E3. injection E3 as Ea Eg En.
  split_and!; [|by unfold pending_sources; cbn; rewrite E2|].
  - exists d', o'. cbn. rewrite ?Eo, <- Ea, !lookup_insert_eq. split_and!; try done.
    unfold account. rewrite ?Eo. cbn. congruence.
  - intros b Hb. cbn. rewrite ?Eo. apply lookup_insert_ne. congruence.
Qed.

Lemma calls_tracks k a g n cs P :
  tracks k a g n P →
  tracks k a g n (calls k cs P)
  ∧ pending_sources (calls k cs P) = pending_sources P
  ∧ ∀ b, b ≠ a → memory (calls k cs P) !! b = memory P !! b.
Proof.
  revert P. induction cs as [|c cs IH]; intros P Hp; [done|].
  destruct (drive_tracks k a g n (perform c) P (perform_account c) Hp) as (T1 & T2 & T3).
  destruct (IH _ T1) as (U1 & U2 & U3). unfold calls in *. cbn [foldl]. split_and!; [done|by rewrite U2|].
  intros b Hb. by rewrite U3, T3.
Qed.

(** A successful declaration: one reservation more, and fresh observations. *)
Lemma declare_in_Ok config P h P' :
  declare_in config P = (Ok h, P') →
  session_identity (core_session P) = core_session_id (sources P) ∧ validate config = Ok ()
  ∧ reservations_poisoned (pending_sources P) = false
  ∧ reservations (pending_sources P) !! handle_source h = None
  ∧ memory P !! handle_observations h = None ∧ drivers P' = drivers P
  ∧ let o := new_observations (handle_observations h) (source_generation config) in
    memory P' = <[handle_observations h := o]> (memory P)
    ∧ pending_sources P'
      = mkReservations (<[handle_source h := mkPending config o]> (reservations (pending_sources P))) false.
Proof.
  unfold declare_in. destruct (declare_handle _ _ _ _) as [[[r s'] m'] w'] eqn:E. intros [= -> <-].
  assert (is_ok (source_type_id RELAY_AUDIOBUS_SOURCE_TYPE_ID) = true
    ∧ session_identity (core_session P) = core_session_id (sources P)) as [Hid Hs].
  { revert E. unfold declare_handle. destruct (Z.eqb_spec (session_identity (core_session P)) (core_session_id (sources P)));
      [|done]. cbn [negb]. destruct (validate config); [|done]. by destruct (source_type_id _). }
  apply declare_handle_refines in E as (core & r0 & Hd & Hr); [|done].
  apply declare_spec in Hd. destruct r0 as [[id o]|]; [|done]. destruct Hr as (E1 & E2 & E3).
  destruct Hd as (Hv & -> & Hp & Hn & Hr). cbn in E2. split_and!; try done; rewrite ?E1, ?E2; try done.
  apply next_address_fresh.
Qed.

(** The driver of a fresh reservation takes it. *)
Lemma consume_declared k id a config g output (v : V) P P' :
  let o := new_observations a g in
  let consume := consume_reservation (Some (mkSession id output)) in
  reservations_poisoned (pending_sources P) = false → reservations (pending_sources P) !! id = None →
  pending_sources P' = mkReservations (<[id := mkPending config o]> (reservations (pending_sources P))) false →
  let P1 := (create_in k [] v P').2 in let P2 := (drive k consume P1).2 in
  drive k consume P1 = (Some (Ok ()), P2) ∧ drivers P2 !! k ≫= Source.config = Some config
  ∧ memory P2 = <[a := count_prepared o]> (memory P') ∧ pending_sources P2 = pending_sources P
  ∧ tracks k a g 1 P2.
Proof.
  intros o consume Hpoison Hid Hr P1 P2.
  set (d := mkDriver (pending_sources P) (Some (mkSession id output)) (Some config) (Some (count_prepared o))
    None false None None None None 0 0 None false v).
  set (reserved := mkReservations (<[id := mkPending config o]> (reservations (pending_sources P))) false) in *.
  assert (consume (mkDriver reserved None None None None false None None None None 0 0 None false v) = (Ok (), d)) as Ec.
  { unfold consume, consume_reservation, mbind, io_bind, io_result, gets, io_modify. cbn.
    rewrite lookup_insert_eq. cbn. unfold with_identity. cbn. rewrite delete_insert_id by done.
    unfold d. do 2 f_equal. destruct (pending_sources P); cbn in *; congruence. }
  assert (drive k consume P1 = (Some (Ok ()), store k d P1)) as E.
  { unfold P1, create_in, drive. cbn [create fst snd mbind Result_bind validate_config drivers].
    rewrite lookup_insert_eq. unfold load. cbn [memory]. rewrite <- Hr in Ec.
    change (observe _ _) with (mkDriver (pending_sources P') None None None None false None None None None 0 0 None false v).
    by rewrite Ec. }
  unfold P2. rewrite E. cbn. rewrite lookup_insert_eq. split_and!; try done.
  exists d, (count_prepared o). cbn. by rewrite !lookup_insert_eq.
Qed.

Lemma bind_reserved id p r r0 r' :
  bind id p r = (r0, r') →
  ∀ i q, reservations r' !! i = Some q → q = p ∨ reservations r !! i = Some q.
Proof.
  unfold bind. destruct (reservations_poisoned r); intros [= _ <-] i q; [by right|]. cbn.
  intros [[_ <-]|[_ Hq]]%lookup_insert_Some; [by left|by right].
Qed.
Lemma cancel_reserved id r i q :
  reservations (cancel id r) !! i = Some q → reservations r !! i = Some q.
Proof. unfold cancel. destruct (reservations_poisoned r); [done|]. cbn. by intros [_ ?]%lookup_delete_Some. Qed.

(** Whatever a declaration answers. *)
Lemma declare_sound config P : sound P → sound (declare_in config P).2.
Proof.
  intros Hs. unfold declare_in, declare_handle. destruct P as [s m ds w].
  assert (∀ w', sound (mkProcess s m ds w')) as Hsame by (intros w'; split; apply Hs).
  cbn [sources memory core_session drivers]. destruct (negb _); [apply Hsame|].
  destruct (validate config); [|apply Hsame]. destruct (source_type_id _); [|apply Hsame].
  destruct (session_source _ w) as [[id|] w1]; [|apply Hsame].
  set (o := new_observations (next_address m) _).
  assert (∀ r w', (∀ i q, reservations r !! i = Some q →
      q = mkPending config o ∨ reservations (factory_pending (factory s)) !! i = Some q) →
    sound (mkProcess (with_reservations r s) (<[next_address m := o]> m) ds w')) as Hmore.
  { intros r w' Hr.
    assert (∀ b, is_Some (m !! b) → is_Some (<[next_address m := o]> m !! b)) as Hin.
    { intros b Hb. destruct (decide (next_address m = b)) as [<-|];
        [by rewrite lookup_insert_eq|by rewrite lookup_insert_ne]. }
    split; unfold pending_sources; cbn.
    - intros b o'. intros [[<- <-]|[_ Ho]]%lookup_insert_Some; [done|]. by apply (sound_memory _ Hs).
    - intros i p [->|Hp]%Hr; [cbn; by rewrite lookup_insert_eq|]. by eapply Hin, (sound_reserved _ Hs).
    - intros k d o' Hd Ho. by eapply Hin, (sound_driver _ Hs). }
  destruct (bind id _ _) as [[u|e] r] eqn:Eb; pose proof (bind_reserved _ _ _ _ _ Eb) as Hr;
    [|by apply Hmore]. destruct (source_output id OUTPUT_PORT w1) as [[output|] w2]; apply Hmore; [done|].
  intros i q Hq. by eapply Hr, cancel_reserved.
Qed.

(** A driver's calls leave the other drivers alone. *)
Lemma calls_drivers k cs j P : j ≠ k → drivers (calls k cs P) !! j = drivers P !! j.
Proof.
  intros Hj. unfold calls. revert P. induction cs as [|c cs IH]; intros P; [done|]. cbn [foldl].
  rewrite IH. unfold drive. destruct (drivers P !! k) as [d|]; [|done].
  destruct (perform c (load P d)) as [x d']. cbn. by apply lookup_insert_ne.
Qed.

(** C34: A handle and the driver of its source share one account, opened once.  After a
    successful declaration the handle reads zeros; Core can create a driver for the source,
    with the empty configuration and no other; prepared under the handle's source identity
    that takes the declared configuration, the handle then reads one preparation and
    nothing else, and the factory's reservations are those before the declaration; a
    preparation under the same identity by any driver is refused.  From then on, whatever
    the driver does, the handle reads what the driver has counted, one preparation and the
    declared generation among it, and no other handle reads anything of it. *)
Theorem handle_prepared_once config P h P' k (v : V) output (Hsound : sound P)
  (Hd : declare_in config P = (Ok h, P')) :
  session_identity (core_session P) = core_session_id (sources P) ∧ validate config = Ok () ∧
  handle_snapshot h (memory P')
    = Some (mkSnapshot 0 0 0 0 0 0 0 0 0 0 0 0 (source_generation config) false) ∧
  (∀ entries, is_ok (create_in k entries v P').1 = bool_decide (entries = [])) ∧
  let consume := consume_reservation (Some (mkSession (handle_source h) output)) in
  let refused := Err (Message "Relay AudioBus Source reservation is absent or consumed") in
  let P1 := (create_in k [] v P').2 in
  let P2 := (drive k consume P1).2 in
  (drive k consume P1).1 = Some (Ok ())
  ∧ drivers P2 !! k ≫= Source.config = Some config
  ∧ handle_snapshot h (memory P2)
    = Some (mkSnapshot 1 0 0 0 0 0 0 0 0 0 0 0 (source_generation config) false)
  ∧ pending_sources P2 = pending_sources P
  ∧ (∀ j, is_Some (drivers P2 !! j) → (drive j consume P2).1 = Some refused)
  ∧ ∀ cs, let P3 := calls k cs P2 in
      ∃ d o, drivers P3 !! k = Some d ∧ observations d = Some o
        ∧ handle_snapshot h (memory P3) = Some (snapshot o)
        ∧ prepared (snapshot o) = 1 ∧ snapshot_generation (snapshot o) = source_generation config
        ∧ (∀ h', handle_observations h' ≠ handle_observations h →
             handle_snapshot h' (memory P3) = handle_snapshot h' (memory P))
        ∧ ∀ j cs', j ≠ k → handle_snapshot h (memory (calls j cs' P3)) = handle_snapshot h (memory P3).
Proof.
  pose proof (declare_sound config P Hsound) as Hsound'. rewrite Hd in Hsound'. cbn [snd] in Hsound'.
  apply declare_in_Ok in Hd as (Hs & Hv & Hpoison & Hid & Hfresh & Hdrivers & Hm & Hr).
  split; [done|]. split; [done|]. split; [unfold handle_snapshot; by rewrite Hm, lookup_insert_eq|].
  split; [by intros []|]. intros consume refused P1 P2.
  set (o := new_observations _ _) in *.
  assert (drive k consume P1 = (Some (Ok ()), P2) ∧ drivers P2 !! k ≫= Source.config = Some config
    ∧ memory P2 = <[handle_observations h := count_prepared o]> (memory P')
    ∧ pending_sources P2 = pending_sources P
    ∧ tracks k (handle_observations h) (source_generation config) 1 P2) as (E1 & E2 & E3 & E4 & E5).
  { by apply (consume_declared k (handle_source h) (handle_observations h) config (source_generation config) output v P P'). }
  split; [by rewrite E1|]. split; [done|]. split; [unfold handle_snapshot; by rewrite E3, lookup_insert_eq|].
  split; [done|]. split.
  - intros j [d Hj]. unfold drive. rewrite Hj. unfold consume, consume_reservation, mbind, io_bind, io_result, gets.
    cbn. rewrite E4, Hpoison. cbn. by rewrite Hid.
  - intros cs. cbv zeta. destruct (calls_tracks k _ _ _ cs P2 E5) as ((d & o' & T1 & T2 & T3 & T4) & _ & T5).
    exists d, o'. split; [done|]. split; [done|]. split; [unfold handle_snapshot; by rewrite T3|].
    unfold account in T4. rewrite T2 in T4. injection T4 as _ T4 T6. split; [done|]. split; [done|].
    split; [intros h' Hh; unfold handle_snapshot; by rewrite T5, E3, lookup_insert_ne, Hm, lookup_insert_ne by done|].
    intros j cs' Hj. unfold handle_snapshot. f_equal. apply calls_others.
    + by apply calls_sound, consume_sound, create_sound.
    + intros d1 o1. rewrite calls_drivers by done. unfold P2, P1, create_in, drive. cbn [create validate_config].
      cbn. rewrite lookup_insert_eq. destruct (consume _) as [x d2]. cbn. rewrite !lookup_insert_ne, Hdrivers by done.
      intros Hd1 Ho1 Ha. destruct (sound_driver _ Hsound j d1 o1 Hd1 Ho1) as [o2 Ho2]. congruence.
Qed.
End Factory.

(** ** A recorded session *)

Module Bench.
Import (hints) Script.

(** The manifests registered, and the next source identity. *)
Record World : Type := mkWorld { registered : list (list (string * Z)); next_source : Z }.

#[export] Instance core : CoreSources string (string * Z) (list (string * Z)) World :=
  {| source_type_id t := Ok t;
     output_port name rate _ := Ok (name, rate);
     source_manifest _ _ _ ports := Ok ports;
     register_source m w := (true, mkWorld (registered w ++ [m]) (next_source w));
     session_identity _ := 3;
     session_source _ w := (Some (next_source w), mkWorld (registered w) (next_source w + 1));
     source_output source port w := (if bool_decide (port = OUTPUT_PORT) then Some (100 + source) else None, w) |}.

Definition session : World := mkWorld [] 9.
Definition installed : RelayAudioBusSources :=
  mkSources (mkFactory [(OUTPUT_PORT, SAMPLE_RATE_HZ)] (mkReservations ∅ false)) 3.
Definition process : Process (V := Script.World) := mkProcess installed ∅ ∅ session.
Definition declaration := declare_in Script.declared process.
Definition handle : RelayAudioBusSourceHandle := mkHandle 9 109 1.
Definition prepared_process : Process (V := Script.World) :=
  (drive 0 (consume_reservation (Some Script.context))
     (create_in 0 [] (Script.mkWorld 0 [] []) declaration.2).2).2.
End Bench.

Import (hints) Script Bench.

(** After its preparation the driver is closed; the handle reads both. *)
Lemma handle_prepared_once_witness :
  (install Bench.session).1 = Ok Bench.installed ∧ Bench.declaration.1 = Ok Bench.handle ∧
  handle_snapshot Bench.handle (memory Bench.prepared_process)
    = Some (mkSnapshot 1 0 0 0 0 0 0 0 0 0 0 0 4 false) ∧
  handle_snapshot Bench.handle (memory (calls 0 [Close] Bench.prepared_process))
    = Some (mkSnapshot 1 0 0 0 0 0 0 0 0 0 1 0 4 true) ∧
  ∃ d o, drivers (calls 0 [Close] Bench.prepared_process) !! 0%nat = Some d ∧ observations d = Some o
    ∧ handle_snapshot Bench.handle (memory (calls 0 [Close] Bench.prepared_process)) = Some (snapshot o).
Proof.
  split; [reflexivity|]. split; [vm_compute; reflexivity|]. split; [vm_compute; reflexivity|].
  split; [vm_compute; reflexivity|].
  destruct (handle_prepared_once Script.declared Bench.process Bench.handle Bench.declaration.2 0
    (Script.mkWorld 0 [] []) (Some 1))
    as (_ & _ & _ & _ & _ & _ & _ & _ & _ & H); [split; intros; done|vm_compute; reflexivity|].
  destruct (H [Close]) as (d & o & H1 & H2 & H3 & _). exists d, o. split; [exact H1|]. split; [exact H2|exact H3].
Defined.
