(* ===== verification/Receipts.v ===== *)
(** * Publication receipts and the connector's worker: [relay/src/runtime.rs]

    The factory prepares grouped routes through a transport and reserves one receipt per
    route; the worker runs the prepared transport, reports its outcomes to the context and
    leaves each route's result in its receipt, for the application to take once.

    The receipts are shared by the factory, its workers and the application: a receipt is
    an index into [results], the cells the routes write, so a worker whose receipt was
    removed writes a cell nobody reads.  [RelayPublishTransport] is the trait the factory
    is parameterised with; [Runtime] has the native one. *)

From S2P Require Import Prelude Env Text Extern Errors Encoder Proxy Config Control Transport Gateway.

#[local] Arguments lit : simpl never.

Definition MAX_GROUPED_BUSES : nat := 16.

(** ** Errors *)

Inductive ConnectorErrorStage : Type :=
| Configuration | Prepare | Startup | Delivery | Join | Shutdown.

Record ConnectorError : Type := mkError {
  error_code : string;
  error_stage : ConnectorErrorStage;
  error_retryability : ConnectorRetryability;
  error_message : text;
}.

(** [pocketstation::connector::MAX_CONNECTOR_ERROR_MESSAGE_BYTES], and the text of the
    errors of Core's configuration. *)
Class ConnectorLimits : Type := {
  MAX_CONNECTOR_ERROR_MESSAGE_BYTES : nat;
  rejection_text : ConnectorConfigurationError → text;
}.

(** [str::is_char_boundary] and [String::truncate]. *)
Fixpoint is_char_boundary (t : text) (n : nat) : bool :=
  match n, t with
  | O, _ => true
  | _, [] => false
  | _, c :: t => if (utf8_len c <=? n)%nat then is_char_boundary t (n - utf8_len c) else false
  end.

Fixpoint truncate (t : text) (n : nat) : text :=
  match n, t with
  | O, _ | _, [] => []
  | _, c :: t => c :: truncate t (n - utf8_len c)
  end.

(** [while boundary > 0 && !message.is_char_boundary(boundary) { boundary -= 1 }] *)
Fixpoint boundary_at_most (t : text) (boundary : nat) : nat :=
  match boundary with
  | O => O
  | S n => if is_char_boundary t boundary then boundary else boundary_at_most t n
  end.

Definition relay_error `{ConnectorLimits} (code : string) (stage : ConnectorErrorStage)
  (retryability : ConnectorRetryability) (message : text) : ConnectorError :=
  mkError code stage retryability
    (if (MAX_CONNECTOR_ERROR_MESSAGE_BYTES <? len message)%nat
     then truncate message (boundary_at_most message MAX_CONNECTOR_ERROR_MESSAGE_BYTES)
     else message).

(** *** [Display] of the errors that become messages *)

Definition control_error_text (e : RelayPublisherControlError) : text :=
  lit (match e with
       | UnsupportedTransport => "renewable publication requires WebSocket ingress"
       | InvalidExpiry => "publisher capability expiry must be in the next 24 hours"
       | StaleReplacement => "publisher replacement revision and expiry must strictly advance"
       | Revoked => "publisher capability was terminally revoked"
       | Unavailable => "publisher credential state is unavailable"
       | AlreadyPublishing => "publisher control already has an active grouped publication"
       end).

Definition ingress_failure_text (e : IngressFailure) : text :=
  lit (match e with
       | Errors.Transport => "Relay ingress connection failed; reconnect requires a fresh attachment; direct fallback is disabled"
       | Authority => "Relay ingress denied or revoked the source capability"
       | Protocol => "Relay ingress sent invalid or unexpected protocol data"
       | Identity => "Relay ingress admission identity does not match the selected AudioBus"
       | Generation => "Relay ingress READY source generation did not advance"
       | Credential => "Relay publisher capability expired, changed or was revoked"
       | RecoveryBudget => "Relay publisher exhausted its bounded reconnect attempts or deadline"
       end).

Definition proxy_error_text (e : ProxyConnectError) : text :=
  match e with
  | Authorization => lit "Relay denied the source capability"
  | Rejected => lit "Relay WebSocket upgrade or proxy negotiation was rejected"
  | ConnectRejected status =>
      lit "Relay proxy rejected CONNECT with HTTP " ++ decimal status ++ lit "; direct fallback is disabled"
  | ProxyTlsHandshake => lit "Relay proxy TLS handshake failed"
  | RelayTlsHandshake => lit "Relay TLS handshake failed"
  | ProxyTransport => lit "Relay WebSocket upgrade connection failed"
  end.

Definition boxed_error_text (e : BoxedError) : text :=
  match e with
  | BoxProxy e => proxy_error_text e
  | BoxControl e => control_error_text e
  | BoxIngress e => ingress_failure_text e
  | Message m => lit m
  end.

Definition configuration_error_text `{ConnectorLimits} (e : RelayConfigurationError) : text :=
  match e with
  | InvalidTransport => lit "relay transport must be 'webrtc' or 'websocket'"
  | InsecureIngress => lit "WebSocket Opus ingress requires HTTPS outside loopback"
  | InvalidProxy => lit "relay proxy must be a valid HTTP or HTTPS CONNECT proxy origin"
  | InvalidRelayUrl => lit "relay URL must be an absolute HTTP or HTTPS origin"
  | InvalidIdentity => lit "relay Session and publisher group identifiers must be non-empty and bounded"
  | InvalidBusId => lit "AudioBus identifier is invalid"
  | InvalidLatencyProfile => lit "relay latency profile must be 'standard' or 'low'"
  | InvalidStartupTimeout => lit "relay startup timeout must be finite and between 1 ms and 120 s"
  | InvalidIceServerCount => lit "ICE server count is outside the finite package limit"
  | InvalidIceServerUrl => lit "this connector version supports only a valid stun: UDP server authority"
  | InvalidIceCredential => lit "STUN server configuration must not contain TURN credentials"
  | InvalidIceServerEncoding => lit "ICE server configuration could not be encoded or decoded"
  | MissingField k => lit "relay connector configuration is missing required field '" ++ lit k ++ lit "'"
  | SecretNotSensitive k => lit "relay connector secret field '" ++ lit k ++ lit "' was not marked sensitive"
  | ConfigurationRejected e => rejection_text e
  end.

Definition control_error `{ConnectorLimits} (e : RelayPublisherControlError) : ConnectorError :=
  relay_error "relay.publisher_control_unavailable" Configuration Never (control_error_text e).

(** ** Keys, statistics and results *)

Record RelayPublishReceiptKey : Type := mkKey { endpoint_id : Z; route_id : Z }.

#[export] Instance Key_eq_dec : EqDecision RelayPublishReceiptKey.
Proof. solve_decision. Defined.
#[export] Instance Key_countable : Countable RelayPublishReceiptKey.
Proof.
  refine (inj_countable' (λ k, (endpoint_id k, route_id k)) (λ p, mkKey p.1 p.2) _).
  by intros [].
Defined.

Record RelayPublishStatistics : Type := mkStatistics {
  ingress_frames_sent_total : Z;
  ingress_payload_bytes_sent_total : Z;
  ingress_source_generation : Z;
  ingress_attachments_total : Z;
  ingress_renewals_total : Z;
  ingress_reconnects_total : Z;
  ingress_reconnect_attempts_total : Z;
  ingress_recovery_input_frames_dropped_total : Z;
  ingress_recovery_opus_packets_dropped_total : Z;
  ingress_discontinuities_total : Z;
  ingress_credential_revision : Z;
  rtp_packets_sent_total : Z;
  rtp_payload_bytes_sent_total : Z;
  rtc_poll_drains_total : Z;
  rtc_writer_writes_total : Z;
  elapsed_ms : Z;
  opus_packets_encoded_total : Z;
  opus_encode_errors_total : Z;
  encoder_channel_drops_total : Z;
  publisher_stale_drops_total : Z;
  ingress_queue_drops_total : Z;
  cancelled_output_frames_total : Z;
  cancelled_output_samples_total : Z;
  normalization_partial_samples_discarded_total : Z;
}.

Definition statistics_default : RelayPublishStatistics :=
  mkStatistics 0 0 0 0 0 0 0 0 0 0 0 0 0 0 0 0 0 0 0 0 0 0 0 0.

(** [pocketstation::EdgeObservations], as far as it is read. *)
Record EdgeObservations : Type := mkEdge {
  frames_dropped_total : Z;
  discontinuities_total : Z;
}.

Record RelayTransportOutcome : Type := mkOutcome {
  outcome_statistics : RelayPublishStatistics;
  outcome_edge : EdgeObservations;
  outcome_error : option ConnectorError;
}.

Record RelayPublishResult : Type := mkResult {
  result_key : RelayPublishReceiptKey;
  result_outcome : RelayTransportOutcome;
}.

(** [statistics]; an absent publication or stream counts zero. *)
Definition statistics (counters : EncoderCounters) (queue_drops : Z)
  (publish : option PublishStats) (stream : option PublishStreamStats) : RelayPublishStatistics :=
  let s := default stats_default stream in
  {| ingress_frames_sent_total := Transport.ingress_frames_sent s;
     ingress_payload_bytes_sent_total := Transport.ingress_payload_bytes_sent s;
     ingress_source_generation := Transport.ingress_source_generation s;
     ingress_attachments_total := Transport.ingress_attachments s;
     ingress_renewals_total := Transport.ingress_renewals s;
     ingress_reconnects_total := Transport.ingress_reconnects s;
     ingress_reconnect_attempts_total := Transport.ingress_reconnect_attempts s;
     ingress_recovery_input_frames_dropped_total := Transport.ingress_recovery_input_drops s;
     ingress_recovery_opus_packets_dropped_total := Transport.ingress_recovery_opus_drops s;
     ingress_discontinuities_total := Transport.ingress_discontinuities s;
     ingress_credential_revision := Transport.ingress_credential_revision s;
     rtp_packets_sent_total := rtp_sent s;
     rtp_payload_bytes_sent_total := bytes_sent s;
     rtc_poll_drains_total := from_option drains 0 publish;
     rtc_writer_writes_total := from_option writes 0 publish;
     elapsed_ms := from_option (λ p, u64_or_max (as_millis (elapsed p))) 0 publish;
     opus_packets_encoded_total := opus_packets_out counters;
     opus_encode_errors_total := opus_encode_errors counters;
     encoder_channel_drops_total := encoded_channel_drops counters;
     publisher_stale_drops_total := publisher_stale_drops counters;
     ingress_queue_drops_total := queue_drops;
     cancelled_output_frames_total := cancelled_output_frames counters;
     cancelled_output_samples_total := cancelled_output_samples counters;
     normalization_partial_samples_discarded_total :=
       normalization_partial_samples_discarded counters |}.

(** ** Inputs, the transport and the state *)

Record SampleSpec : Type := mkSpec {
  spec_rate_hz : Z;
  spec_channels : Z;
  spec_f32_interleaved : bool;
}.

(** [EndpointReceiver]: the handle of an audio receiver, or another medium's. *)
Inductive EndpointReceiver : Type :=
| Audio (receiver : Z) (sample_spec : SampleSpec)
| OtherReceiver.

Record EndpointPortInput : Type := mkInput {
  input_endpoint_id : Z;
  input_route_id : Z;
  node_configuration : NodeConfig;
  input_receiver : EndpointReceiver;
}.

Record RelayTransportPreparation (Secret : Type) : Type := mkPreparation {
  preparation_configuration : RelayRouteConfiguration Secret;
  preparation_spec : SampleSpec;
  (** a clone of the factory's control *)
  preparation_control : bool;
}.
Arguments mkPreparation {Secret}.
Arguments preparation_configuration {Secret} r.
Arguments preparation_spec {Secret} r.
Arguments preparation_control {Secret} r.

(** [receipt_cell] is the index of the route's [RelayPublishReceiptState]. *)
Record PreparedRelayRoute : Type := mkPreparedRoute {
  route_key : RelayPublishReceiptKey;
  route_receiver : Z;
  receipt_cell : nat;
}.

(** The calls the worker makes on its [ConnectorContext]. *)
Inductive ContextCall : Type :=
| ReadinessSuccess
| FrameDelivered (n : Z)
| FrameDropped (n : Z)
| Discontinuity (n : Z).

Class RelayPublishTransport (Secret W Prepared : Type) : Type := {
  transport_prepare :
    list (RelayTransportPreparation Secret) → W → Result ConnectorError Prepared * W;
  transport_run : Prepared → list PreparedRelayRoute → W → list RelayTransportOutcome * W;
  transport_cancel : Prepared → W → Result ConnectorError unit * W;
  context_stop_requested : W → bool * W;
}.

Record State (Secret W : Type) : Type := mkState {
  receipts : gmap RelayPublishReceiptKey nat;
  receipts_poisoned : bool;
  receipt_capacity : nat;
  factory_control : option (SharedControl Secret);
  (** the cells, [OnceLock]s *)
  results : list (option RelayPublishResult);
  context_calls : list ContextCall;
  world : W;
}.
Arguments mkState {Secret W}.
Arguments receipts {Secret W} s.
Arguments receipts_poisoned {Secret W} s.
Arguments receipt_capacity {Secret W} s.
Arguments factory_control {Secret W} s.
Arguments results {Secret W} s.
Arguments context_calls {Secret W} s.
Arguments world {Secret W} s.

Record RelayPublishWorker (Prepared : Type) : Type := mkWorker {
  worker_routes : option (list PreparedRelayRoute);
  worker_prepared : option Prepared;
}.
Arguments mkWorker {Prepared}.
Arguments worker_routes {Prepared} r.
Arguments worker_prepared {Prepared} r.

(** [ConnectorRunOutcome] *)
Inductive ConnectorRunOutcome : Type := RunSuccess | RunFailure (e : ConnectorError).

(** ** The factory *)

Section Factory.
Context {Secret Url W Prepared : Type}.
Context `{SecretLib Secret, UrlLib Url, WireJson, ConnectorLimits}.
Context `{!RelayPublishTransport Secret W Prepared}.
Local Abbreviation St := (State Secret W).
Local Abbreviation fio := (io St ConnectorError).
Local Abbreviation Route := (RelayTransportPreparation Secret).

Definition with_receipts (m : gmap RelayPublishReceiptKey nat) (s : St) : St :=
  mkState m (receipts_poisoned s) (receipt_capacity s) (factory_control s) (results s)
    (context_calls s) (world s).
Definition with_results (l : list (option RelayPublishResult)) (s : St) : St :=
  mkState (receipts s) (receipts_poisoned s) (receipt_capacity s) (factory_control s) l
    (context_calls s) (world s).
Definition with_world (w : W) (s : St) : St :=
  mkState (receipts s) (receipts_poisoned s) (receipt_capacity s) (factory_control s) (results s)
    (context_calls s) w.
Definition call (c : ContextCall) (s : St) : St :=
  mkState (receipts s) (receipts_poisoned s) (receipt_capacity s) (factory_control s) (results s)
    (context_calls s ++ [c]) (world s).

Definition gets {A} (f : St → A) : fio A := λ s, (Ok (f s), s).
Definition on_world {A} (m : W → A * W) : fio A :=
  λ s, let '(a, w) := m (world s) in (Ok a, with_world w s).

Definition with_transport (capacity : nat) (w : W) : Result ConnectorError St :=
  if (capacity =? 0)%nat
  then Err (relay_error "relay.invalid_receipt_capacity" Configuration RetryAfterReconfiguration
              (lit "relay receipt capacity must be finite and non-zero"))
  else Ok (mkState ∅ false capacity None [] [] w).

Definition with_publisher_control (now : Z) (capacity : nat) (control : SharedControl Secret) (w : W)
  : Result ConnectorError St :=
  _ ← map_err control_error (Control.snapshot now control);
  s ← with_transport capacity w;
  Ok (mkState (receipts s) (receipts_poisoned s) (receipt_capacity s) (Some control) (results s)
        (context_calls s) (world s)).

(** [receipts.get(key)?.result()?]; the receipt is removed with its result. *)
Definition take_result (key : RelayPublishReceiptKey) (s : St) : option RelayPublishResult * St :=
  if receipts_poisoned s then (None, s) else
  match receipts s !! key ≫= λ cell, mjoin (results s !! cell) with
  | Some result => (Some result, with_receipts (delete key (receipts s)) s)
  | None => (None, s)
  end.

Definition receipt (key : RelayPublishReceiptKey) (s : St) : option nat :=
  if receipts_poisoned s then None else receipts s !! key.

Definition invalid_configuration (e : RelayConfigurationError) : ConnectorError :=
  relay_error "relay.invalid_configuration" Configuration RetryAfterReconfiguration
    (configuration_error_text e).

Definition preparation_group (configuration : NodeConfig) : Result ConnectorError text :=
  c ← map_err invalid_configuration (from_node_config (Url := Url) configuration);
  Ok (publisher_group_id c).

(** [RelayPublishReceiptState::new()] *)
Definition new_receipt_state : fio nat :=
  λ s, (Ok (length (results s)), with_results (results s ++ [None]) s).

Fixpoint collect_routes (inputs : list EndpointPortInput)
  : fio (list Route * list PreparedRelayRoute) :=
  match inputs with
  | [] => mret ([], [])
  | input :: inputs =>
      c ← io_result (map_err invalid_configuration
                       (from_node_config (Url := Url) (node_configuration input)));
      match input_receiver input with
      | OtherReceiver =>
          io_fail (relay_error "relay.audio_input_required" Prepare RetryAfterReconfiguration
                     (lit "relay publisher requires audio inputs"))
      | Audio receiver spec =>
          cell ← new_receipt_state;
          rest ← collect_routes inputs;
          mret (mkPreparation c spec false :: rest.1,
                mkPreparedRoute (mkKey (input_endpoint_id input) (input_route_id input))
                  receiver cell :: rest.2)
      end
  end.

Fixpoint validate_routes (first : RelayRouteConfiguration Secret) (buses : list text)
  (routes : list Route) : Result ConnectorError unit :=
  match routes with
  | [] => Ok ()
  | route :: routes =>
      if negb (same_publisher first (preparation_configuration route))
      then Err (relay_error "relay.publisher_group_mismatch" Prepare RetryAfterReconfiguration
                  (lit "grouped relay routes must share one Relay origin, Session, credential, publisher group, ICE configuration and startup deadline"))
      else if bool_decide (bus_id (preparation_configuration route) ∈ buses)
      then Err (relay_error "relay.duplicate_bus" Prepare RetryAfterReconfiguration
                  (lit "grouped relay routes contain a duplicate AudioBus identifier"))
      else validate_routes first (bus_id (preparation_configuration route) :: buses) routes
  end.

(** [routes[0]] panics on an empty group; [prepare] never passes one. *)
Definition validate_grouped_routes (routes : list Route) : Result ConnectorError unit :=
  match routes with
  | [] => Ok ()
  | first :: _ => validate_routes (preparation_configuration first) [] routes
  end.

Definition bind_control (routes : list Route) (s : St) : Result ConnectorError (list Route) :=
  match factory_control s with
  | None => Ok routes
  | Some control =>
      if existsb (λ r, negb (Control.matches (preparation_configuration r) control)) routes
      then Err (relay_error "relay.publisher_control_scope_mismatch" Configuration Never
                  (lit "publisher control must match every route's Relay origin, Session, group and WebSocket transport"))
      else Ok ((λ r, mkPreparation (preparation_configuration r) (preparation_spec r) true) <$> routes)
  end.

Definition insert_receipts (routes : list PreparedRelayRoute) (m : gmap RelayPublishReceiptKey nat)
  : gmap RelayPublishReceiptKey nat :=
  foldl (λ m r, <[route_key r := receipt_cell r]> m) m routes.

Definition reserve_receipts (routes : list PreparedRelayRoute) : fio (list RelayPublishReceiptKey) :=
  λ s, let keys := route_key <$> routes in
       if receipts_poisoned s
       then (Err (relay_error "relay.receipt_registry_unavailable" Prepare Never
                    (lit "relay receipt registry is unavailable")), s)
       else if (receipt_capacity s <? size (receipts s) + length routes)%nat
       then (Err (relay_error "relay.receipt_capacity_exhausted" Prepare Retryable
                    (lit "relay receipt capacity is exhausted")), s)
       else if existsb (λ k, bool_decide (is_Some (receipts s !! k))) keys
       then (Err (relay_error "relay.duplicate_receipt" Prepare Never
                    (lit "relay receipt already exists for a grouped endpoint route")), s)
       else (Ok keys, with_receipts (insert_receipts routes (receipts s)) s).

Definition remove_receipts (keys : list RelayPublishReceiptKey) (s : St) : St :=
  if receipts_poisoned s then s
  else with_receipts (foldl (λ m k, delete k m) (receipts s) keys) s.

Definition prepare (inputs : list EndpointPortInput) : fio (RelayPublishWorker Prepared) :=
  if bool_decide (inputs = []) || (MAX_GROUPED_BUSES <? length inputs)%nat
  then io_fail (relay_error "relay.invalid_bus_count" Prepare RetryAfterReconfiguration
                  (lit "relay publisher requires between 1 and 16 grouped AudioBus inputs"))
  else
    collected ← collect_routes inputs;
    _ ← io_result (validate_grouped_routes collected.1);
    bound ← io_fun (λ s, (bind_control collected.1 s, s));
    keys ← reserve_receipts collected.2;
    prepared ← on_world (transport_prepare bound);
    match prepared with
    | Ok prepared => mret (mkWorker (Some collected.2) (Some prepared))
    | Err error => _ ← io_modify (remove_receipts keys); io_fail error
    end.

(** ** The worker *)

Definition record_outcome (outcome : RelayTransportOutcome) (s : St) : St :=
  let s := call (FrameDelivered (rtp_packets_sent_total (outcome_statistics outcome))) s in
  let s := call (FrameDropped
             (sat_add (sat_add (sat_add (frames_dropped_total (outcome_edge outcome))
                 (ingress_queue_drops_total (outcome_statistics outcome)))
                 (encoder_channel_drops_total (outcome_statistics outcome)))
                 (publisher_stale_drops_total (outcome_statistics outcome)))) s in
  call (Discontinuity
          (sat_add (discontinuities_total (outcome_edge outcome))
             (ingress_discontinuities_total (outcome_statistics outcome)))) s.

(** [OnceLock::set]: only the first value stays. *)
Definition set_result (cell : nat) (result : RelayPublishResult) (s : St) : St :=
  match results s !! cell with
  | Some None => with_results (<[cell := Some result]> (results s)) s
  | _ => s
  end.

Fixpoint record_outcomes (routes : list PreparedRelayRoute) (outcomes : list RelayTransportOutcome)
  (first_error : option ConnectorError) (s : St) : option ConnectorError * St :=
  match routes, outcomes with
  | route :: routes, outcome :: outcomes =>
      let s := record_outcome outcome s in
      let first_error := match first_error with Some e => Some e | None => outcome_error outcome end in
      record_outcomes routes outcomes first_error
        (set_result (receipt_cell route) (mkResult (route_key route) outcome) s)
  | _, _ => (first_error, s)
  end.

Definition run (worker : RelayPublishWorker Prepared) (s : St) : ConnectorRunOutcome * St :=
  match worker_routes worker, worker_prepared worker with
  | None, _ => (RunFailure (relay_error "relay.routes_unavailable" Startup Never
                  (lit "relay grouped routes were already consumed")), s)
  | Some _, None => (RunFailure (relay_error "relay.preparation_unavailable" Startup Never
                  (lit "relay transport preparation was already consumed")), s)
  | Some routes, Some prepared =>
      let s := call ReadinessSuccess s in
      let '(outcomes, w) := transport_run prepared routes (world s) in
      let s := with_world w s in
      if negb (length outcomes =? length routes)%nat
      then (RunFailure (relay_error "relay.invalid_outcome_count" Join Never
              (lit "relay transport returned an invalid grouped outcome count")), s)
      else
        match record_outcomes routes outcomes None s with
        | (Some error, s) => (RunFailure error, s)
        | (None, s) =>
            let '(stop, w) := context_stop_requested (world s) in
            (if stop : bool then RunSuccess
             else RunFailure (relay_error "relay.publisher_exited" Delivery Retryable
                    (lit "relay publisher exited before stop was requested")),
             with_world w s)
        end
  end.

Definition cancel_preparation (worker : RelayPublishWorker Prepared) (s : St)
  : Result ConnectorError unit * St :=
  let keys := route_key <$> default [] (worker_routes worker) in
  let '(result, w) := match worker_prepared worker with
                      | Some prepared => transport_cancel prepared (world s)
                      | None => (Ok (), world s)
                      end in
  (result, remove_receipts keys (with_world w s)).
End Factory.

(** ** Error messages are the longest admissible prefix *)

Lemma utf8_len_pos c : (0 < utf8_len c ≤ 4)%nat.
Proof. unfold utf8_len. repeat case_match; lia. Qed.

Lemma len_cons c t : len (c :: t) = (utf8_len c + len t)%nat.
Proof. done. Qed.
Lemma len_app s t : len (s ++ t) = (len s + len t)%nat.
Proof. induction s as [|c s IH]; [done|]. cbn [app]. rewrite !len_cons, IH. lia. Qed.

Lemma truncate_boundary t n :
  is_char_boundary t n = true → truncate t n `prefix_of` t ∧ len (truncate t n) = n.
Proof.
  revert n. induction t as [|c t IH]; intros [|n]; cbn [truncate is_char_boundary]; try done;
    [split; [apply prefix_nil|done]|].
  case_match; [|done]. intros [Hp Hl]%IH. bool_props. split; [by apply prefix_cons|].
  rewrite len_cons, Hl. lia.
Qed.

Lemma prefix_boundary p t : p `prefix_of` t → is_char_boundary t (len p) = true.
Proof.
  intros [k ->]. induction p as [|c p IH]; [by destruct k|].
  pose proof (utf8_len_pos c). rewrite len_cons. cbn [app is_char_boundary]. destruct (utf8_len c + len p)%nat eqn:E; [lia|].
  rewrite <- E. replace (utf8_len c + len p - utf8_len c)%nat with (len p) by lia.
  destruct (Nat.leb_spec (utf8_len c) (utf8_len c + len p)); [done|lia].
Qed.

Lemma boundary_at_most_spec t n :
  is_char_boundary t (boundary_at_most t n) = true ∧ (boundary_at_most t n ≤ n)%nat
  ∧ ∀ m, (m ≤ n)%nat → is_char_boundary t m = true → (m ≤ boundary_at_most t n)%nat.
Proof.
  induction n as [|n (IH1 & IH2 & IH3)]; cbn [boundary_at_most].
  { split; [by destruct t|]. split; [done|]. intros m Hm _. done. }
  destruct (is_char_boundary t (S n)) eqn:E; [done|].
  split; [done|]. split; [lia|]. intros m Hm Hb. apply IH3; [|done].
  destruct (decide (m = S n)) as [->|]; [congruence|lia].
Qed.

Lemma prefixes_ordered (p q t : text) :
  p `prefix_of` t → q `prefix_of` t → (len p ≤ len q)%nat → p `prefix_of` q.
Proof.
  intros Hp Hq Hle. destruct (prefix_weak_total p q t Hp Hq) as [?|[k ->]]; [done|].
  destruct k as [|c k]; [by rewrite app_nil_r|]. pose proof (utf8_len_pos c).
  rewrite len_app, len_cons in Hle. lia.
Qed.

(** C39: The message of a connector error is bounded, and loses no more of the text than the
    bound requires: it is the longest prefix of the text, in whole characters, that the
    bound admits, so a text within the bound is kept as it is. *)
Theorem relay_error_message `{ConnectorLimits} code stage retryability m :
  (len (error_message (relay_error code stage retryability m)) ≤ MAX_CONNECTOR_ERROR_MESSAGE_BYTES)%nat
  ∧ error_message (relay_error code stage retryability m) `prefix_of` m
  ∧ ∀ p, p `prefix_of` m → (len p ≤ MAX_CONNECTOR_ERROR_MESSAGE_BYTES)%nat →
      p `prefix_of` error_message (relay_error code stage retryability m).
Proof.
  unfold relay_error. cbn [error_message]. case_match; bool_props; [|done].
  destruct (boundary_at_most_spec m MAX_CONNECTOR_ERROR_MESSAGE_BYTES) as (H1 & H2 & H3).
  apply truncate_boundary in H1 as [Hp Hl]. split; [lia|]. split; [done|].
  intros p Hpm Hb. apply (prefixes_ordered p _ m); [done..|]. rewrite Hl. by apply H3, prefix_boundary.
Qed.

(** ** Preparation reserves all receipts or none *)

Section Reservation.
Context {Secret Url W Prepared : Type}.
Context `{SecretLib Secret, UrlLib Url, WireJson, ConnectorLimits}.
Context `{!RelayPublishTransport Secret W Prepared}.
Local Abbreviation St := (State Secret W).
Local Abbreviation Route := (RelayTransportPreparation Secret).
Implicit Types s : St.

Definition input_key (i : EndpointPortInput) : RelayPublishReceiptKey :=
  mkKey (input_endpoint_id i) (input_route_id i).

(** Each route's receipt is in the registry and its cell is empty. *)
Definition reserved (routes : list PreparedRelayRoute) s : Prop :=
  NoDup (route_key <$> routes) ∧ NoDup (receipt_cell <$> routes) ∧ receipts_poisoned s = false
  ∧ Forall (λ r, receipts s !! route_key r = Some (receipt_cell r)
                 ∧ results s !! receipt_cell r = Some None) routes.

(** A group the transport may be given: distinct buses of one publisher. *)
Definition grouped (configurations : list (RelayRouteConfiguration Secret)) : Prop :=
  NoDup (bus_id <$> configurations)
  ∧ ∀ first, head configurations = Some first →
      Forall (λ c, same_publisher first c = true) configurations.

Lemma collect_routes_spec inputs s r s' :
  collect_routes (Url := Url) inputs s = (r, s') →
  ∃ n, s' = with_results (results s ++ replicate n None) s ∧
    ∀ preps routes, r = Ok (preps, routes) →
      route_key <$> routes = input_key <$> inputs ∧ n = length routes
      ∧ receipt_cell <$> routes = seq (length (results s)) n.
Proof.
  revert s r s'. induction inputs as [|i inputs IH]; intros s r s'; cbn [collect_routes].
  { intros [= <- <-]. exists 0%nat. rewrite app_nil_r. split; [by destruct s|]. by intros ?? [= <- <-]. }
  unfold mbind, io_bind at 1, io_result.
  destruct (map_err _ _) as [c|e]; [|intros [= <- <-]; exists 0%nat; rewrite app_nil_r; by destruct s].
  destruct (input_receiver i) as [receiver spec|].
  2: { intros [= <- <-]. exists 0%nat. rewrite app_nil_r. by destruct s. }
  unfold io_bind at 1, new_receipt_state. unfold io_bind.
  destruct (collect_routes inputs _) as [rest s1] eqn:E. apply IH in E as (n & -> & Hn).
  destruct rest as [[preps routes]|e]; intros [= <- <-]; exists (S n); cbn;
    rewrite <- app_assoc; (split; [by destruct s|]); [|done].
  intros ? ? [= <- <-]. destruct (Hn _ _ eq_refl) as (G1 & -> & G2). cbn.
  rewrite G1. split; [done|]. split; [done|]. rewrite G2. cbn. rewrite length_app. cbn.
  by rewrite Nat.add_1_r.
Qed.

Lemma validate_routes_spec first buses routes :
  validate_routes first buses routes = Ok () →
  NoDup (bus_id <$> (preparation_configuration <$> routes))
  ∧ Forall (λ c, same_publisher first c = true ∧ bus_id c ∉ buses) (preparation_configuration <$> routes).
Proof.
  revert buses. induction routes as [|r routes IH]; intros buses; cbn [validate_routes].
  { intros _. split; constructor. }
  repeat case_match; try done. intros [G1 G2]%IH. bool_props. split.
  - cbn. constructor; [|done]. intros (c & E & Hc)%list_elem_of_fmap.
    rewrite Forall_forall in G2. destruct (G2 _ Hc) as [_ G3]. apply G3. rewrite <- E. left.
  - constructor; [done|]. eapply Forall_impl; [exact G2|]. cbn. intros c [G3 G4]. split; [done|].
    intros G5. apply G4. by right.
Qed.

Lemma validate_grouped_spec routes :
  validate_grouped_routes routes = Ok () → grouped (preparation_configuration <$> routes).
Proof.
  destruct routes as [|r routes]; [split; [constructor|done]|].
  intros [G1 G2]%validate_routes_spec. split; [done|]. intros first [= <-].
  eapply Forall_impl; [exact G2|]. by intros c [].
Qed.

Lemma bind_control_spec routes s routes' :
  bind_control routes s = Ok routes' →
  preparation_configuration <$> routes' = preparation_configuration <$> routes.
Proof.
  unfold bind_control. destruct (factory_control s) as [c|]; [|by intros [= <-]].
  case_match; [done|]. intros [= <-]. rewrite <- list_fmap_compose. by apply list_fmap_ext.
Qed.

Lemma insert_receipts_other routes m k :
  k ∉ route_key <$> routes → insert_receipts routes m !! k = m !! k.
Proof.
  revert m. induction routes as [|r routes IH]; intros m Hk; [done|]. cbn in Hk.
  apply not_elem_of_cons in Hk as [Hr Hk]. unfold insert_receipts. cbn [foldl].
  etrans; [by apply IH|]. by apply lookup_insert_ne.
Qed.

Lemma insert_receipts_own routes m :
  NoDup (route_key <$> routes) →
  Forall (λ r, insert_receipts routes m !! route_key r = Some (receipt_cell r)) routes.
Proof.
  revert m. induction routes as [|r routes IH]; intros m Hn; [constructor|].
  apply NoDup_cons in Hn as [Hr Hn]. constructor; [|by apply (IH (<[_:=_]> m))].
  etrans; [by apply (insert_receipts_other routes (<[route_key r:=receipt_cell r]> m))|].
  by rewrite lookup_insert_eq.
Qed.

Lemma insert_receipts_size routes m :
  (size (insert_receipts routes m) ≤ size m + length routes)%nat.
Proof.
  revert m. induction routes as [|r routes IH]; intros m; cbn; [lia|].
  etrans; [apply IH|]. rewrite map_size_insert. case_match; cbn; lia.
Qed.

Lemma delete_keys_lookup (keys : list RelayPublishReceiptKey) (m : gmap RelayPublishReceiptKey nat) k :
  foldl (λ m k, delete k m) m keys !! k = if bool_decide (k ∈ keys) then None else m !! k.
Proof.
  revert m. induction keys as [|k' keys IH]; intros m; cbn [foldl]; [done|]. rewrite IH.
  destruct (decide (k = k')) as [->|Hk].
  - rewrite (bool_decide_true (k' ∈ k' :: keys)) by left. case_match; [done|]. by rewrite lookup_delete_eq.
  - rewrite lookup_delete_ne by done.
    assert (bool_decide (k ∈ k' :: keys) = bool_decide (k ∈ keys)) as ->; [|done].
    apply bool_decide_ext. rewrite elem_of_cons. split; [intros [|]; done|by right].
Qed.

Lemma insert_then_delete routes (m : gmap RelayPublishReceiptKey nat) :
  Forall (λ k, m !! k = None) (route_key <$> routes) →
  foldl (λ m k, delete k m) (insert_receipts routes m) (route_key <$> routes) = m.
Proof.
  intros Hnone. apply map_eq. intros k. rewrite delete_keys_lookup. case_bool_decide as Hk.
  - rewrite Forall_forall in Hnone. by rewrite (Hnone k Hk).
  - by apply insert_receipts_other.
Qed.

Lemma reserve_receipts_spec routes s r s' :
  reserve_receipts routes s = (r, s') →
  match r with
  | Ok keys => keys = route_key <$> routes ∧ receipts_poisoned s = false
      ∧ (size (receipts s) + length routes ≤ receipt_capacity s)%nat
      ∧ Forall (λ k, receipts s !! k = None) keys
      ∧ s' = with_receipts (insert_receipts routes (receipts s)) s
  | Err _ => s' = s
  end.
Proof.
  unfold reserve_receipts. destruct (receipts_poisoned s) eqn:Ep; [by intros [= <- <-]|].
  destruct (Nat.ltb_spec (receipt_capacity s) (size (receipts s) + length routes)); [by intros [= <- <-]|].
  destruct (existsb _ _) eqn:Ee; intros [= <- <-]; [done|]. repeat split; [done|].
  apply Forall_forall. intros k Hk. destruct (receipts s !! k) eqn:El; [|done].
  assert (existsb (λ k, bool_decide (is_Some (receipts s !! k))) (route_key <$> routes) = true) as E1;
    [|congruence].
  apply existsb_exists. exists k. split; [by apply list_elem_of_In|]. apply bool_decide_eq_true. by exists n.
Qed.

(** What a call of [prepare] does to the registry. *)
Definition reserves_all_or_nothing (inputs : list EndpointPortInput) s
  (r : Result ConnectorError (RelayPublishWorker Prepared)) s' : Prop :=
  match r with
  | Ok worker => ∃ routes preps prepared,
      worker = mkWorker (Some routes) (Some prepared)
      ∧ route_key <$> routes = input_key <$> inputs
      ∧ reserved routes s' ∧ grouped (preparation_configuration <$> preps)
      ∧ transport_prepare preps (world s) = (Ok prepared, world s')
      ∧ (∀ k, k ∉ input_key <$> inputs → receipts s' !! k = receipts s !! k)
      ∧ (∀ k, k ∈ input_key <$> inputs → receipts s !! k = None)
      ∧ (size (receipts s') ≤ receipt_capacity s')%nat
  | Err _ => receipts s' = receipts s
  end.

Lemma reserved_after_insert_eq routes s s' :
  NoDup (route_key <$> routes) → receipts_poisoned s = false →
  receipts_poisoned s' = receipts_poisoned s →
  receipt_cell <$> routes = seq (length (results s)) (length routes) →
  results s' = results s ++ replicate (length routes) None →
  receipts s' = insert_receipts routes (receipts s) →
  reserved routes s'.
Proof.
  intros Hk Hp Hp' Hc Hr Hi. split; [done|]. split; [rewrite Hc; apply NoDup_seq|]. split; [congruence|].
  pose proof (insert_receipts_own routes (receipts s) Hk) as Hown. rewrite Forall_forall in Hown.
  apply Forall_forall. intros r Hin. rewrite Hi. split; [by apply Hown|].
  assert (receipt_cell r ∈ seq (length (results s)) (length routes)) as Hs.
  { rewrite <- Hc. apply list_elem_of_fmap. by exists r. }
  apply elem_of_seq in Hs. rewrite Hr, lookup_app_r by lia.
  apply lookup_replicate. split; [done|lia].
Qed.

(** The cells a preparation adds are new and empty, and only they are; its receipts are
    there when it succeeds. *)
Lemma prepare_spec (inputs : list EndpointPortInput) s s'
  (r : Result ConnectorError (RelayPublishWorker Prepared)) :
  prepare (Url := Url) inputs s = (r, s') →
  ∃ n, results s' = results s ++ replicate n None
    ∧ receipts_poisoned s' = receipts_poisoned s ∧ receipt_capacity s' = receipt_capacity s
    ∧ match r with
      | Ok worker => ∃ routes preps prepared,
          worker = mkWorker (Some routes) (Some prepared)
          ∧ route_key <$> routes = input_key <$> inputs
          ∧ n = length routes ∧ receipt_cell <$> routes = seq (length (results s)) n
          ∧ receipts_poisoned s = false ∧ Forall (λ k, receipts s !! k = None) (route_key <$> routes)
          ∧ (size (receipts s) + length routes ≤ receipt_capacity s)%nat
          ∧ receipts s' = insert_receipts routes (receipts s)
          ∧ grouped (preparation_configuration <$> preps)
          ∧ transport_prepare preps (world s) = (Ok prepared, world s')
      | Err _ => receipts s' = receipts s
      end.
Proof.
  intros Hp. unfold prepare in Hp.
  case_match; [injection Hp as <- <-; exists 0%nat; by rewrite app_nil_r|].
  unfold mbind, io_bind at 1 in Hp.
  destruct (collect_routes inputs s) as [[[preps routes]|e] s1] eqn:E;
    apply collect_routes_spec in E as (n & -> & Hn); exists n; [|by injection Hp as <- <-].
  destruct (Hn _ _ eq_refl) as (Hk & -> & Hc).
  unfold io_bind at 1, io_result in Hp. cbn [fst snd] in Hp.
  destruct (validate_grouped_routes preps) as [[]|e] eqn:Ev; [|by injection Hp as <- <-].
  unfold io_bind at 1, io_fun in Hp.
  destruct (bind_control preps _) as [bound|e] eqn:Eb; [|by injection Hp as <- <-].
  apply bind_control_spec in Eb. unfold io_bind at 1 in Hp.
  destruct (reserve_receipts routes _) as [[keys|e] s2] eqn:Er; apply reserve_receipts_spec in Er;
    [|injection Hp as <- <-; by rewrite Er].
  destruct Er as (-> & Hpo & Hsz & Hnone & ->).
  unfold io_bind, on_world in Hp. cbn [with_receipts with_results world] in Hp.
  destruct (transport_prepare bound (world s)) as [[prepared|e] w] eqn:Et; injection Hp as <- <-.
  - split; [done|]. split; [done|]. split; [done|]. exists routes, bound, prepared.
    repeat (split; [done|]). split; [|done]. rewrite Eb. by apply validate_grouped_spec.
  - unfold remove_receipts. cbn in Hpo |- *. rewrite Hpo. cbn. repeat (split; [done|]).
    by apply insert_then_delete.
Qed.

(** C10: Preparing a group of routes reserves all its receipts or none.  When it succeeds
    every route of the group has a receipt of its own with an empty cell, the registry is
    within its capacity and otherwise unchanged, none of the receipts existed before, and
    the transport was given a group of distinct buses of one publisher.  When it fails, for
    whatever reason (the inputs, their configuration, the group, the control, the registry,
    or the transport), the registry is as it was. *)
Theorem prepare_reserves_all_or_nothing (inputs : list EndpointPortInput) s s'
  (r : Result ConnectorError (RelayPublishWorker Prepared))
  (Hkeys : NoDup (input_key <$> inputs)) (Hp : prepare (Url := Url) inputs s = (r, s')) :
  reserves_all_or_nothing inputs s r s'.
Proof.
  apply prepare_spec in Hp as (n & Hr & Hpo & Hca & Hm). destruct r as [worker|e]; [|exact Hm].
  destruct Hm as (routes & preps & prepared & -> & Hk & -> & Hc & Hp & Hnone & Hsz & Hi & Hg & Ht).
  exists routes, preps, prepared. split; [done|]. split; [done|]. split; [|split; [done|]].
  - apply reserved_after_insert_eq with (s := s); try done. by rewrite Hk.
  - split; [done|]. split; [|split].
    + intros k Hk'. rewrite Hi. apply insert_receipts_other. by rewrite Hk.
    + intros k Hk'. rewrite Forall_forall in Hnone. apply Hnone. by rewrite Hk.
    + rewrite Hi, Hca. etrans; [apply insert_receipts_size|]. done.
Qed.
End Reservation.

(** ** The worker's results reach the receipts *)

Section Results.
Context {Secret Url W Prepared : Type}.
Context `{SecretLib Secret, UrlLib Url, WireJson, ConnectorLimits}.
Context `{!RelayPublishTransport Secret W Prepared}.
Local Abbreviation St := (State Secret W).
Implicit Types s : St.

(** The first error among the outcomes. *)
Definition first_error (outcomes : list RelayTransportOutcome) : option ConnectorError :=
  head (omap outcome_error outcomes).

(** The cells of [routes] hold the outcomes. *)
Definition filled (routes : list PreparedRelayRoute) (outcomes : list RelayTransportOutcome) s : Prop :=
  Forall2 (λ r o, results s !! receipt_cell r = Some (Some (mkResult (route_key r) o))) routes outcomes.

Lemma set_result_other cell result s c :
  c ≠ cell → results (set_result cell result s) !! c = results s !! c.
Proof.
  intros Hc. unfold set_result. repeat case_match; try done. cbn. by apply list_lookup_insert_ne.
Qed.

Lemma record_outcomes_spec routes outcomes fe s fe' s' :
  length outcomes = length routes → NoDup (receipt_cell <$> routes) →
  Forall (λ r, results s !! receipt_cell r = Some None) routes →
  record_outcomes routes outcomes fe s = (fe', s') →
  fe' = match fe with Some e => Some e | None => first_error outcomes end
  ∧ receipts s' = receipts s ∧ receipts_poisoned s' = receipts_poisoned s ∧ world s' = world s
  ∧ filled routes outcomes s'
  ∧ ∀ c, c ∉ receipt_cell <$> routes → results s' !! c = results s !! c.
Proof.
  revert outcomes fe s. induction routes as [|r routes IH]; intros [|o outcomes] fe s Hl Hn He;
    try done; cbn [record_outcomes].
  { intros [= <- <-]. repeat split; [by destruct fe|constructor]. }
  apply NoDup_cons in Hn as [Hr Hn]. apply Forall_cons in He as [Hc He].
  set (s1 := set_result _ _ _).
  assert (results s1 = <[receipt_cell r := Some (mkResult (route_key r) o)]> (results s)) as E1.
  { unfold s1, set_result. cbn. by rewrite Hc. }
  assert (receipts s1 = receipts s ∧ receipts_poisoned s1 = receipts_poisoned s ∧ world s1 = world s)
    as (E2 & E3 & E4).
  { unfold s1, set_result. cbn. by rewrite Hc. }
  intros E. apply IH in E as (-> & G1 & G2 & G3 & G4 & G5); [|by injection Hl|done|].
  2: { rewrite Forall_forall in He |- *. intros r' Hr'. rewrite E1, list_lookup_insert_ne; [by apply He|].
       intros Heq. apply Hr. rewrite Heq. by apply list_elem_of_fmap_2. }
  split; [by destruct fe, (outcome_error o) eqn:Eo; unfold first_error; cbn; rewrite ?Eo|].
  split; [congruence|]. split; [congruence|]. split; [congruence|]. split.
  - constructor; [|done]. rewrite G5, E1 by done. apply list_lookup_insert_eq. by eapply lookup_lt_Some.
  - intros c Hc'. apply not_elem_of_cons in Hc' as [Hc1 Hc2]. rewrite G5, E1 by done.
    by apply list_lookup_insert_ne.
Qed.

Lemma take_result_filled key cell result s :
  receipts_poisoned s = false → receipts s !! key = Some cell →
  results s !! cell = Some (Some result) →
  take_result key s = (Some result, with_receipts (delete key (receipts s)) s)
  ∧ (take_result key (with_receipts (delete key (receipts s)) s)).1 = None.
Proof.
  intros Hp Hk Hc. unfold take_result. cbn. rewrite Hp, Hk. cbn. rewrite Hc. cbn. split; [done|].
  by rewrite lookup_delete_eq.
Qed.

(** The verdict of a run: the first error, else whether a stop was requested. *)
Definition verdict (outcomes : list RelayTransportOutcome) (stop : bool) : ConnectorRunOutcome :=
  match first_error outcomes with
  | Some e => RunFailure e
  | None =>
      if stop then RunSuccess
      else RunFailure (relay_error "relay.publisher_exited" Delivery Retryable
             (lit "relay publisher exited before stop was requested"))
  end.

(** The application takes each route's own outcome from the receipts, once. *)
Definition taken_once (routes : list PreparedRelayRoute) (outcomes : list RelayTransportOutcome) s : Prop :=
  Forall2 (λ r o, (take_result (route_key r) s).1 = Some (mkResult (route_key r) o)
                  ∧ (take_result (route_key r) (take_result (route_key r) s).2).1 = None)
    routes outcomes.

(** C28: Results reach their receipts, and the application takes each once.  After a worker
    with reserved routes has run a transport that answers one outcome per route, taking the
    result of any of its routes gives exactly that route's key and outcome, taking it again
    gives nothing, and no receipt was lost or added meanwhile; the run fails with the first
    error among the outcomes, and otherwise succeeds exactly when a stop was requested. *)
Theorem results_reach_receipts routes (prepared : Prepared) s outcomes w v s'
  (Hres : reserved routes s)
  (Ht : transport_run prepared routes (world s) = (outcomes, w))
  (Hlen : length outcomes = length routes)
  (Hr : run (mkWorker (Some routes) (Some prepared)) s = (v, s')) :
  receipts s' = receipts s
  ∧ v = verdict outcomes (context_stop_requested w).1
  ∧ taken_once routes outcomes s'.
Proof.
  destruct Hres as (Hk & Hn & Hp & Hcells). unfold run in Hr. cbn in Hr. rewrite Ht, Hlen in Hr.
  rewrite Nat.eqb_refl in Hr. cbn [negb] in Hr.
  destruct (record_outcomes _ _ _ _) as [fe s1] eqn:E.
  apply record_outcomes_spec in E as (E1 & E2 & E3 & E4 & E5 & _); [|done|done|].
  2: { eapply Forall_impl; [exact Hcells|]. by intros r []. }
  cbn in E1, E2, E3, E4.
  assert (receipts s' = receipts s1 ∧ receipts_poisoned s' = receipts_poisoned s1
          ∧ results s' = results s1 ∧ v = verdict outcomes (context_stop_requested w).1) as (F1 & F2 & F3 & F4).
  { unfold verdict. rewrite <- E1. rewrite E4 in Hr.
    destruct fe as [e|]; [by injection Hr as <- <-|].
    destruct (context_stop_requested w) as [stop w']. by injection Hr as <- <-. }
  split; [congruence|]. split; [done|]. unfold taken_once.
  clear - Hcells E5 E2 E3 F1 F2 F3 Hp. induction E5 as [|r o routes outcomes Hc E5 IH]; [constructor|].
  apply Forall_cons in Hcells as [[Hkey _] Hcells]. constructor; [|by apply IH].
  destruct (take_result_filled (route_key r) (receipt_cell r) (mkResult (route_key r) o) s')
    as [-> T2]; [congruence|congruence|congruence|]. done.
Qed.
End Results.

(** A publication over the WebSocket ingress sends no RTP packets, and so reports no
    delivered frame to its context, whatever it has sent. *)
Lemma ingress_publication_reports_no_delivery {Secret W} (outcome : RelayTransportOutcome)
  (s : State Secret W) :
  rtp_packets_sent_total (outcome_statistics outcome) = 0 →
  ∃ dropped disc, context_calls (record_outcome outcome s)
    = context_calls s ++ [FrameDelivered 0; FrameDropped dropped; Discontinuity disc].
Proof.
  intros E. unfold record_outcome, call. cbn. rewrite E. eexists _, _. by rewrite <- !app_assoc.
Qed.

(** ** A sample transport *)

Module Bench.
Import Sample Example_route.

#[export] Instance limits : ConnectorLimits :=
  {| MAX_CONNECTOR_ERROR_MESSAGE_BYTES := 5; rejection_text _ := lit "rejected" |}.

Definition outcome (sent : Z) : RelayTransportOutcome :=
  mkOutcome (statistics counters_default 0 None
               (Some (mkStats sent 0 0 0 0 0 0 0 0 0 0 0 0))) (mkEdge 0 0) None.

(** Prepares any group of at most one route, and sends ten frames; a stop was requested. *)
#[export] Instance transport : RelayPublishTransport Secret unit nat :=
  {| transport_prepare routes w :=
       (if (length routes <=? 1)%nat then Ok (length routes)
        else Err (relay_error "relay.ingress_start_failed" Startup Never (lit "busy")), w);
     transport_run n routes w := (replicate n (outcome 10), w);
     transport_cancel _ w := (Ok (), w);
     context_stop_requested w := (true, w) |}.

Definition node : NodeConfig := project configuration.
Definition input (route : Z) : EndpointPortInput := mkInput 1 route node (Audio 3 (mkSpec 48000 1 true)).
Definition factory : State Secret unit := mkState ∅ false 4 None [] [] ().
Definition route : PreparedRelayRoute := mkPreparedRoute (mkKey 1 7) 3 0.
Definition reserved_state : State Secret unit := mkState {[ mkKey 1 7 := 0%nat ]} false 4 None [None] [] ().
Definition ran : ConnectorRunOutcome * State Secret unit :=
  run (mkWorker (Some [route]) (Some 1%nat)) reserved_state.
Definition message_text : text := [97; 8364; 8364; 98].

End Bench.

Import Sample Example_route Bench.

(** The state after a preparation, as far as it is data. *)
Definition registry_of {W} (s : State Secret W) : list (RelayPublishReceiptKey * nat) :=
  map_to_list (receipts s).

Lemma prepare_reserves_all_or_nothing_witness :
  registry_of (prepare (Url := Url) [input 7] factory).2 = [(mkKey 1 7, 0%nat)] ∧
  is_err (prepare (Url := Url) [input 7; input 8] factory).1 = true ∧
  reserves_all_or_nothing [input 7] factory (prepare (Url := Url) [input 7] factory).1
    (prepare (Url := Url) [input 7] factory).2.
Proof.
  split; [vm_compute; reflexivity|]. split; [vm_compute; reflexivity|].
  apply (prepare_reserves_all_or_nothing (Url := Url)); [|by destruct (prepare _ _)].
  apply NoDup_singleton.
Defined.

Lemma results_reach_receipts_witness :
  receipts ran.2 = receipts reserved_state ∧ ran.1 = verdict [outcome 10] true ∧
  taken_once [route] [outcome 10] ran.2.
Proof.
  refine (results_reach_receipts [route] 1%nat reserved_state [outcome 10] () ran.1 ran.2 _ _ _ _);
    [|reflexivity|reflexivity|exact (surjective_pairing ran)].
  split; [apply NoDup_singleton|]. split; [apply NoDup_singleton|]. split; [reflexivity|].
  constructor; [|constructor]. split; reflexivity.
Defined.

(** Two characters of three bytes do not fit in five bytes with the first. *)
Lemma relay_error_message_witness :
  error_message (relay_error "relay.publisher_failed" Delivery Retryable message_text) = [97; 8364] ∧
  [97] `prefix_of` error_message (relay_error "relay.publisher_failed" Delivery Retryable message_text).
Proof.
  split; [vm_compute; reflexivity|].
  apply (relay_error_message "relay.publisher_failed" Delivery Retryable message_text).
  - exists [8364; 8364; 98]. reflexivity.
  - apply Nat.leb_le. reflexivity.
Defined.
