(* ===== verification/Registry.v ===== *)
(** * The receipt registry refines a map of promises

    To its users the registry of [Receipts] is a finite map from receipt keys to promises:
    a preparation adds unfulfilled ones, the run of a worker fulfils those of its group, a
    cancelled preparation withdraws them, and the application takes a fulfilled one out.
    The implementation shares cells between the map and the workers; [Spec] does not know
    them.  The theorem is a forward simulation: every history of operations on the
    implementation is one of the specification. *)

From S2P Require Import Prelude Env Text Extern Errors Encoder Proxy Config Control Transport Gateway Receipts.

(** ** The specification *)

Record Spec : Type := mkSpec {
  promises : gmap RelayPublishReceiptKey (option RelayPublishResult);
  groups : list (list RelayPublishReceiptKey);
}.

(** An operation and what its caller sees of it. *)
Inductive Operation : Type :=
| Prepared (keys : list RelayPublishReceiptKey)
| Refused
| Ran (keys : list RelayPublishReceiptKey) (outcomes : list RelayTransportOutcome)
| Cancelled (keys : list RelayPublishReceiptKey)
| Taken (key : RelayPublishReceiptKey) (result : option RelayPublishResult).

Definition promise (keys : list RelayPublishReceiptKey)
  (m : gmap RelayPublishReceiptKey (option RelayPublishResult))
  : gmap RelayPublishReceiptKey (option RelayPublishResult) :=
  foldr (λ k m, <[k := None]> m) m keys.

Definition fulfil (keys : list RelayPublishReceiptKey) (outcomes : list RelayTransportOutcome)
  (m : gmap RelayPublishReceiptKey (option RelayPublishResult))
  : gmap RelayPublishReceiptKey (option RelayPublishResult) :=
  foldr (λ '(k, o) m, <[k := Some (mkResult k o)]> m) m (zip keys outcomes).

Definition withdraw (keys : list RelayPublishReceiptKey)
  (m : gmap RelayPublishReceiptKey (option RelayPublishResult))
  : gmap RelayPublishReceiptKey (option RelayPublishResult) :=
  foldr delete m keys.

(** A result of a transport that does not answer one outcome per route fulfils nothing. *)
Definition answered (keys : list RelayPublishReceiptKey) (outcomes : list RelayTransportOutcome)
  (m : gmap RelayPublishReceiptKey (option RelayPublishResult))
  : gmap RelayPublishReceiptKey (option RelayPublishResult) :=
  if bool_decide (length outcomes = length keys) then fulfil keys outcomes m else m.

Inductive spec_step (capacity : nat) : Spec → Operation → Spec → Prop :=
| spec_prepare m gs keys :
    NoDup keys → Forall (λ k, m !! k = None) keys → (size m + length keys ≤ capacity)%nat →
    spec_step capacity (mkSpec m gs) (Prepared keys) (mkSpec (promise keys m) (keys :: gs))
| spec_refuse a : spec_step capacity a Refused a
| spec_run m gs1 keys gs2 outcomes :
    spec_step capacity (mkSpec m (gs1 ++ keys :: gs2)) (Ran keys outcomes)
      (mkSpec (answered keys outcomes m) (gs1 ++ gs2))
| spec_cancel m gs1 keys gs2 :
    spec_step capacity (mkSpec m (gs1 ++ keys :: gs2)) (Cancelled keys)
      (mkSpec (withdraw keys m) (gs1 ++ gs2))
| spec_take m gs key result :
    m !! key = Some (Some result) →
    spec_step capacity (mkSpec m gs) (Taken key (Some result)) (mkSpec (delete key m) gs)
| spec_take_none m gs key :
    mjoin (m !! key) = None →
    spec_step capacity (mkSpec m gs) (Taken key None) (mkSpec m gs).

Lemma promise_lookup keys m k :
  promise keys m !! k = if bool_decide (k ∈ keys) then Some None else m !! k.
Proof.
  unfold promise. induction keys as [|k' keys IH]; cbn; [done|]. destruct (decide (k = k')) as [->|Hk].
  - by rewrite lookup_insert_eq, bool_decide_true by left.
  - rewrite lookup_insert_ne, IH by done.
    rewrite (bool_decide_ext (k ∈ k' :: keys) (k ∈ keys)); [done|]. rewrite elem_of_cons.
    split; [by intros [|]|by right].
Qed.

Lemma withdraw_lookup keys m k :
  withdraw keys m !! k = if bool_decide (k ∈ keys) then None else m !! k.
Proof.
  unfold withdraw. induction keys as [|k' keys IH]; cbn; [done|]. destruct (decide (k = k')) as [->|Hk].
  - by rewrite lookup_delete_eq, bool_decide_true by left.
  - rewrite lookup_delete_ne, IH by done.
    rewrite (bool_decide_ext (k ∈ k' :: keys) (k ∈ keys)); [done|]. rewrite elem_of_cons.
    split; [by intros [|]|by right].
Qed.

Lemma fulfil_other keys outcomes m k : k ∉ keys → fulfil keys outcomes m !! k = m !! k.
Proof.
  revert outcomes. induction keys as [|k' keys IH]; intros [|o outcomes] Hk; try done.
  apply not_elem_of_cons in Hk as [Hk Hn]. cbn. rewrite lookup_insert_ne by done. by apply IH.
Qed.

Lemma fulfil_own keys outcomes m :
  NoDup keys → length outcomes = length keys →
  Forall2 (λ k o, fulfil keys outcomes m !! k = Some (Some (mkResult k o))) keys outcomes.
Proof.
  revert outcomes. induction keys as [|k keys IH]; intros [|o outcomes] Hn Hl;
    [constructor|done|done|].
  apply NoDup_cons in Hn as [Hk Hn]. constructor; [cbn; by rewrite lookup_insert_eq|].
  specialize (IH outcomes Hn (eq_add_S _ _ Hl)).
  enough (Forall (λ k', k' ≠ k) keys) as Hne.
  { change (fulfil (k :: keys) (o :: outcomes) m) with (<[k := Some (mkResult k o)]> (fulfil keys outcomes m)).
    generalize dependent (fulfil keys outcomes m). intros m' IH. clear -IH Hne.
    induction IH as [|k' o' keys outcomes Hk' _ IH]; [constructor|].
    apply Forall_cons in Hne as [Hk Hne]. constructor; [|by apply IH]. by rewrite lookup_insert_ne. }
  apply Forall_forall. intros k' Hk' ->. done.
Qed.

(** ** The implementation as a system

    The factory's state and the workers that have been prepared and neither run nor
    cancelled. *)

Section System.
Context {Secret Url W Handle : Type}.
Context `{SecretLib Secret, UrlLib Url, WireJson, ConnectorLimits}.
Context `{!RelayPublishTransport Secret W Handle}.
Local Abbreviation St := (State Secret W).
Local Abbreviation Worker := (RelayPublishWorker Handle).
Implicit Types s : St.

Record System : Type := mkSystem { factory : St; workers : list Worker }.

Definition keys_of (w : Worker) : list RelayPublishReceiptKey :=
  route_key <$> default [] (worker_routes w).

(** What the transport answers to the run of a worker. *)
Definition outcomes_of (w : Worker) s : list RelayTransportOutcome :=
  match worker_routes w, worker_prepared w with
  | Some routes, Some prepared => (transport_run prepared routes (world s)).1
  | _, _ => []
  end.

(** Core hands [prepare] the inputs of distinct routes. *)
Inductive system_step : System → Operation → System → Prop :=
| step_prepared s ws inputs w s' :
    NoDup (input_key <$> inputs) → prepare (Url := Url) inputs s = (Ok w, s') →
    system_step (mkSystem s ws) (Prepared (keys_of w)) (mkSystem s' (w :: ws))
| step_refused s ws inputs e s' :
    prepare (Url := Url) (Prepared := Handle) inputs s = (Err e, s') →
    system_step (mkSystem s ws) Refused (mkSystem s' ws)
| step_run s ws1 w ws2 v s' :
    run w s = (v, s') →
    system_step (mkSystem s (ws1 ++ w :: ws2)) (Ran (keys_of w) (outcomes_of w s))
      (mkSystem s' (ws1 ++ ws2))
| step_cancel s ws1 w ws2 r s' :
    cancel_preparation w s = (r, s') →
    system_step (mkSystem s (ws1 ++ w :: ws2)) (Cancelled (keys_of w)) (mkSystem s' (ws1 ++ ws2))
| step_take s ws key result s' :
    take_result key s = (result, s') →
    system_step (mkSystem s ws) (Taken key result) (mkSystem s' ws).

(** *** The abstraction *)

(** The promises of a registry: the contents of its cells. *)
Definition view s : gmap RelayPublishReceiptKey (option RelayPublishResult) :=
  (λ cell, mjoin (results s !! cell)) <$> receipts s.

(** A worker that has not run: its receipts are in the registry, with empty cells. *)
Definition waiting s (w : Worker) : Prop :=
  ∃ routes prepared, w = mkWorker (Some routes) (Some prepared) ∧ reserved routes s.

(** Every receipt has a cell, and no two share one. *)
Record cells_ok s : Prop := mkCells {
  cells_open : receipts_poisoned s = false;
  cells_exist k cell : receipts s !! k = Some cell → (cell < length (results s))%nat;
  cells_own k k' cell : receipts s !! k = Some cell → receipts s !! k' = Some cell → k = k';
}.

Record represents (capacity : nat) (sys : System) (a : Spec) : Prop := mkRepresents {
  rep_cells : cells_ok (factory sys);
  rep_capacity : receipt_capacity (factory sys) = capacity;
  rep_waiting : Forall (waiting (factory sys)) (workers sys);
  rep_disjoint : NoDup (workers sys ≫= keys_of);
  rep_promises : promises a = view (factory sys);
  rep_groups : groups a = keys_of <$> workers sys;
}.

Lemma view_lookup s k : view s !! k = (λ cell, mjoin (results s !! cell)) <$> receipts s !! k.
Proof. apply lookup_fmap. Qed.

(** Equal registries and cells have equal promises; the world does not matter. *)
Lemma view_same s s' : receipts s' = receipts s → results s' = results s → view s' = view s.
Proof. unfold view. by intros -> ->. Qed.
Lemma cells_same s s' :
  receipts s' = receipts s → results s' = results s → receipts_poisoned s' = receipts_poisoned s →
  cells_ok s → cells_ok s'.
Proof. intros E1 E2 E3 [C1 C2 C3]. split; rewrite ?E1, ?E2, ?E3; done. Qed.

(** A worker keeps waiting while its own receipts and cells are left alone. *)
Lemma waiting_frame s s' w :
  waiting s w → receipts_poisoned s' = receipts_poisoned s →
  (∀ k cell, k ∈ keys_of w → receipts s !! k = Some cell →
     receipts s' !! k = Some cell ∧ results s' !! cell = results s !! cell) →
  waiting s' w.
Proof.
  intros (routes & prepared & -> & Hk & Hn & Hp & Hc) Ep Hf. exists routes, prepared.
  split; [done|]. split; [done|]. split; [done|]. split; [congruence|].
  rewrite Forall_forall in Hc |- *. intros r Hr. destruct (Hc r Hr) as [E1 E2].
  destruct (Hf (route_key r) (receipt_cell r)) as [F1 F2]; [|done|].
  { cbn. by apply list_elem_of_fmap_2. }
  split; [done|]. by rewrite F2.
Qed.

Lemma waiting_receipt s w k : waiting s w → k ∈ keys_of w → ∃ cell, receipts s !! k = Some cell.
Proof.
  intros (routes & prepared & -> & _ & _ & _ & Hc) Hk. cbn in Hk.
  apply list_elem_of_fmap in Hk as (r & -> & Hr). rewrite Forall_forall in Hc.
  exists (receipt_cell r). by apply Hc.
Qed.

(** The workers other than one of a disjoint family. *)
Lemma others_disjoint (ws1 ws2 : list Worker) w w' k :
  NoDup ((ws1 ++ w :: ws2) ≫= keys_of) → w' ∈ ws1 ++ ws2 → k ∈ keys_of w' → k ∉ keys_of w.
Proof.
  rewrite bind_app, bind_cons. intros (N1 & N2 & (N3 & N4 & N5)%NoDup_app)%NoDup_app Hw Hk Hk'.
  apply elem_of_app in Hw as [Hw|Hw].
  - apply (N2 k); [apply list_elem_of_bind; by exists w'|]. apply elem_of_app. by left.
  - apply (N4 k); [done|]. apply list_elem_of_bind. by exists w'.
Qed.

Lemma others_nodup (ws1 ws2 : list Worker) w :
  NoDup ((ws1 ++ w :: ws2) ≫= keys_of) → NoDup ((ws1 ++ ws2) ≫= keys_of).
Proof.
  rewrite !bind_app, bind_cons. intros (N1 & N2 & (N3 & N4 & N5)%NoDup_app)%NoDup_app.
  apply NoDup_app. split; [done|]. split; [|done]. intros k Hk Hk'. apply (N2 k Hk).
  apply elem_of_app. by right.
Qed.

(** *** The operations simulate *)

Lemma represents_promises capacity s ws a :
  represents capacity (mkSystem s ws) a → a = mkSpec (view s) (keys_of <$> ws).
Proof. intros [_ _ _ _ E1 E2]. destruct a. cbn in *. congruence. Qed.

(** A preparation gives its routes fresh cells and leaves the others alone. *)
Section Prepared.
Context (s s' : St) (routes : list PreparedRelayRoute).
Context (Hcells : cells_ok s) (Hres : reserved routes s')
  (Hr : results s' = results s ++ replicate (length routes) None)
  (Hc : receipt_cell <$> routes = seq (length (results s)) (length routes))
  (Hnone : Forall (λ k, receipts s !! k = None) (route_key <$> routes))
  (Hi : receipts s' = insert_receipts routes (receipts s)).

Lemma prepared_other k : k ∉ route_key <$> routes → receipts s' !! k = receipts s !! k.
Proof. intros Hn. rewrite Hi. by apply insert_receipts_other. Qed.

Lemma prepared_apart k cell : receipts s !! k = Some cell → k ∉ route_key <$> routes.
Proof. intros E Hn. rewrite Forall_forall in Hnone. by rewrite (Hnone k Hn) in E. Qed.

Lemma prepared_frame k cell :
  receipts s !! k = Some cell → receipts s' !! k = Some cell ∧ results s' !! cell = results s !! cell.
Proof.
  intros E. split; [rewrite prepared_other; [done|by eapply prepared_apart]|].
  rewrite Hr. apply lookup_app_l. by eapply cells_exist.
Qed.

Lemma prepared_route r :
  r ∈ routes → receipts s' !! route_key r = Some (receipt_cell r) ∧ results s' !! receipt_cell r = Some None.
Proof. destruct Hres as (_ & _ & _ & Hrs). rewrite Forall_forall in Hrs. apply Hrs. Qed.

Lemma prepared_case k cell :
  receipts s' !! k = Some cell →
  (∃ r, r ∈ routes ∧ k = route_key r ∧ cell = receipt_cell r) ∨ receipts s !! k = Some cell.
Proof.
  intros E. destruct (decide (k ∈ route_key <$> routes)) as [Hin|Hin]; [|right; by rewrite <- prepared_other].
  apply list_elem_of_fmap in Hin as (r & -> & Hin). left. exists r. split; [done|]. split; [done|].
  destruct (prepared_route r Hin) as [E' _]. congruence.
Qed.

Lemma prepared_fresh r :
  r ∈ routes → (length (results s) ≤ receipt_cell r < length (results s'))%nat.
Proof.
  intros Hin. assert (receipt_cell r ∈ seq (length (results s)) (length routes)) as Hseq
    by (rewrite <- Hc; by apply list_elem_of_fmap_2).
  apply elem_of_seq in Hseq. rewrite Hr, length_app, length_replicate. lia.
Qed.

Lemma prepared_cells : cells_ok s'.
Proof.
  destruct Hcells as [C1 C2 C3], Hres as (_ & Hd & Hp & _). split; [done|..].
  - intros k cell [(r & Hin & _ & ->)|E]%prepared_case; [by apply prepared_fresh|].
    rewrite Hr, length_app. specialize (C2 k cell E). lia.
  - intros k k' cell [(r & Hin & -> & ->)|E]%prepared_case [(r' & Hin' & -> & E')|E']%prepared_case.
    + f_equal. apply list_elem_of_lookup in Hin as [i Hi'], Hin' as [j Hj].
      assert (i = j) as ->; [|congruence]. eapply NoDup_lookup; [exact Hd|..];
        rewrite list_lookup_fmap; [by rewrite Hi'|rewrite Hj; cbn; congruence].
    + apply C2 in E'. pose proof (prepared_fresh r Hin). lia.
    + apply C2 in E. pose proof (prepared_fresh r' Hin'). lia.
    + by eapply C3.
Qed.

Lemma prepared_view : view s' = promise (route_key <$> routes) (view s).
Proof.
  apply map_eq. intros k. rewrite promise_lookup, !view_lookup. case_bool_decide as Hin.
  - apply list_elem_of_fmap in Hin as (r & -> & Hin).
    destruct (prepared_route r Hin) as [-> E]. cbn. by rewrite E.
  - rewrite prepared_other by done. destruct (receipts s !! k) as [cell|] eqn:E; [|done]. cbn.
    by rewrite (proj2 (prepared_frame k cell E)).
Qed.
End Prepared.

Lemma simulate_prepare capacity s ws inputs (w : Worker) s' a :
  NoDup (input_key <$> inputs) → prepare (Url := Url) inputs s = (Ok w, s') →
  represents capacity (mkSystem s ws) a →
  ∃ a', spec_step capacity a (Prepared (keys_of w)) a' ∧ represents capacity (mkSystem s' (w :: ws)) a'.
Proof.
  intros Hnd Hp Hrep. pose proof (represents_promises _ _ _ _ Hrep) as ->.
  destruct Hrep as [Hcells Hcap Hw Hd _ _]. cbn in *.
  apply prepare_spec in Hp as (n & Hr & Hpo & Hca & routes & preps & prepared & -> & Hk & -> & Hc & _ & Hnone & Hsz & Hi & _).
  assert (NoDup (route_key <$> routes)) as Hnd' by (by rewrite Hk).
  assert (reserved routes s') as Hres.
  { pose proof Hcells as [C1 C2 C3]. by eapply reserved_after_insert_eq. }
  eexists. split.
  { apply spec_prepare; [done| |].
    - cbn. eapply Forall_impl; [exact Hnone|]. intros k E. by rewrite view_lookup, E.
    - cbn. unfold view. rewrite map_size_fmap, length_fmap. lia. }
  split; cbn.
  - by eapply prepared_cells.
  - congruence.
  - constructor; [by exists routes, prepared|].
    eapply Forall_impl; [exact Hw|]. intros w Hww. eapply waiting_frame; [exact Hww|done|].
    intros k cell _ E. by eapply prepared_frame.
  - apply NoDup_app. split; [done|]. split; [|done]. intros k Hin Hin'.
    apply list_elem_of_bind in Hin' as (w & Hkw & Hww). rewrite Forall_forall in Hw.
    destruct (waiting_receipt _ _ _ (Hw w Hww) Hkw) as [cell E]. by eapply prepared_apart.
  - symmetry. by eapply prepared_view.
  - done.
Qed.

Lemma simulate_refused capacity s ws inputs e s' a :
  prepare (Url := Url) (Prepared := Handle) inputs s = (Err e, s') →
  represents capacity (mkSystem s ws) a →
  represents capacity (mkSystem s' ws) a.
Proof.
  intros Hp Hrep. pose proof (represents_promises _ _ _ _ Hrep) as ->.
  destruct Hrep as [[C1 C2 C3] Hcap Hw Hd _ _]. cbn in *.
  apply prepare_spec in Hp as (n & Hr & Hpo & Hca & Hi).
  assert (∀ k cell, receipts s !! k = Some cell → results s' !! cell = results s !! cell) as Hframe.
  { intros k cell E. rewrite Hr. apply lookup_app_l. by eapply C2. }
  split; cbn; [|congruence| |done| |done].
  - split; [congruence| |rewrite Hi; done]. intros k cell E. rewrite Hi in E.
    rewrite Hr, length_app. specialize (C2 k cell E). lia.
  - eapply Forall_impl; [exact Hw|]. intros w Hww. eapply waiting_frame; [exact Hww|done|].
    intros k cell _ E. split; [congruence|]. by eapply Hframe.
  - apply map_eq. intros k. rewrite !view_lookup, Hi.
    destruct (receipts s !! k) as [cell|] eqn:E; [|done]. cbn. by rewrite (Hframe k cell E).
Qed.

Lemma record_outcomes_frame routes outcomes fe s :
  receipt_capacity (record_outcomes routes outcomes fe s).2 = receipt_capacity s
  ∧ length (results (record_outcomes routes outcomes fe s).2) = length (results s).
Proof.
  revert outcomes fe s. induction routes as [|r routes IH]; intros [|o outcomes] fe s; try done.
  cbn [record_outcomes]. destruct (IH outcomes (match fe with Some e => Some e | None => outcome_error o end)
    (set_result (receipt_cell r) (mkResult (route_key r) o) (record_outcome o s))) as [-> ->].
  unfold set_result. repeat case_match; try done. cbn. by rewrite length_insert.
Qed.

(** What a run does to the registry and the cells. *)
Lemma run_effect routes (prepared : Handle) s v s' :
  reserved routes s → run (mkWorker (Some routes) (Some prepared)) s = (v, s') →
  receipts s' = receipts s ∧ receipts_poisoned s' = receipts_poisoned s
  ∧ receipt_capacity s' = receipt_capacity s ∧ length (results s') = length (results s)
  ∧ if bool_decide (length (transport_run prepared routes (world s)).1 = length routes)
    then filled routes (transport_run prepared routes (world s)).1 s'
         ∧ ∀ c, c ∉ receipt_cell <$> routes → results s' !! c = results s !! c
    else results s' = results s.
Proof.
  intros (Hk & Hn & Hp & Hcells). unfold run. cbn.
  destruct (transport_run prepared routes (world s)) as [outcomes w]. cbn.
  destruct (Nat.eqb_spec (length outcomes) (length routes)) as [Hl|Hl]; cbn [negb].
  2: { intros [= _ <-]. by rewrite bool_decide_eq_false_2. }
  rewrite bool_decide_eq_true_2 by done.
  destruct (record_outcomes_frame routes outcomes None (with_world w (call ReadinessSuccess s))) as [Hcap Hlen].
  destruct (record_outcomes _ _ _ _) as [fe s1] eqn:E. cbn in Hcap, Hlen.
  apply record_outcomes_spec in E as (_ & E2 & E3 & _ & E5 & E6); [|done|done|].
  2: { eapply Forall_impl; [exact Hcells|]. by intros r []. }
  cbn in E2, E3, E6. destruct fe as [e|]; [by intros [= _ <-]|].
  destruct (context_stop_requested (world s1)) as [stop w']. by intros [= _ <-].
Qed.

Lemma answered_view s s' routes outcomes :
  cells_ok s → reserved routes s → receipts s' = receipts s →
  length outcomes = length routes → filled routes outcomes s' →
  (∀ c, c ∉ receipt_cell <$> routes → results s' !! c = results s !! c) →
  fulfil (route_key <$> routes) outcomes (view s) = view s'.
Proof.
  intros [_ _ C3] (Hk & _ & _ & Hcells) Er Hl Hf Ho. rewrite Forall_forall in Hcells.
  apply map_eq. intros k. rewrite view_lookup, Er.
  destruct (decide (k ∈ route_key <$> routes)) as [Hin|Hin].
  - apply list_elem_of_fmap in Hin as (r & -> & Hin). rewrite (proj1 (Hcells r Hin)). cbn.
    apply list_elem_of_lookup in Hin as [i Hi].
    destruct (Forall2_lookup_l _ _ _ _ _ Hf Hi) as (o & Hoi & ->). cbn.
    assert (length outcomes = length (route_key <$> routes)) as Hl' by (by rewrite length_fmap).
    apply (Forall2_lookup_lr _ _ _ i _ _ (fulfil_own _ _ (view s) Hk Hl')); [|done].
    by rewrite list_lookup_fmap, Hi.
  - rewrite fulfil_other, view_lookup by done. destruct (receipts s !! k) as [cell|] eqn:E; [|done].
    cbn. rewrite Ho; [done|]. intros (r & -> & Hr)%list_elem_of_fmap. apply Hin.
    rewrite (C3 k (route_key r) _ E (proj1 (Hcells r Hr))). by apply list_elem_of_fmap_2.
Qed.

Lemma simulate_run capacity s ws1 (w : Worker) ws2 v s' a :
  run w s = (v, s') → represents capacity (mkSystem s (ws1 ++ w :: ws2)) a →
  ∃ a', spec_step capacity a (Ran (keys_of w) (outcomes_of w s)) a'
        ∧ represents capacity (mkSystem s' (ws1 ++ ws2)) a'.
Proof.
  intros Hrun Hrep. pose proof (represents_promises _ _ _ _ Hrep) as ->.
  destruct Hrep as [Hc Hcap Hw Hd _ _]. cbn in *.
  pose proof Hw as Hw'. apply Forall_app in Hw' as [Hw1 [Hww Hw2]%Forall_cons].
  destruct Hww as (routes & prepared & -> & Hres).
  apply run_effect in Hrun as (R1 & R2 & R3 & R4 & R5); [|done].
  rewrite fmap_app, fmap_cons. eexists. split; [apply spec_run|].
  assert (∀ k cell, receipts s !! k = Some cell → k ∉ route_key <$> routes →
    results s' !! cell = results s !! cell) as Hother.
  { intros k cell E Hn. case_bool_decide; [|by rewrite R5]. apply R5.
    intros (r & -> & Hr)%list_elem_of_fmap. apply Hn. destruct Hres as (_ & _ & _ & Hcells).
    rewrite Forall_forall in Hcells. rewrite (cells_own _ Hc k (route_key r) _ E (proj1 (Hcells r Hr))).
    by apply list_elem_of_fmap_2. }
  split; cbn.
  - destruct Hc as [C1 C2 C3]. split; [congruence| |rewrite R1; done].
    intros k cell E. rewrite R1 in E. rewrite R4. by eapply C2.
  - congruence.
  - assert (Forall (λ w', w' ∈ ws1 ++ ws2) (ws1 ++ ws2)) as Hall by (by apply Forall_forall).
    assert (Forall (waiting s) (ws1 ++ ws2)) as Hws by (by apply Forall_app).
    rewrite Forall_forall in Hws |- *. intros w Hin. eapply waiting_frame; [by apply Hws|done|].
    intros k cell Hkw E. split; [congruence|]. eapply Hother; [exact E|].
    by eapply (others_disjoint ws1 ws2 (mkWorker (Some routes) (Some prepared))).
  - by eapply others_nodup.
  - change (answered (route_key <$> routes) (transport_run prepared routes (world s)).1 (view s) = view s').
    unfold answered. rewrite length_fmap. case_bool_decide as Hl.
    + destruct R5 as [Hf Ho]. by apply answered_view.
    + symmetry. by apply view_same.
  - by rewrite fmap_app.
Qed.

Lemma simulate_cancel capacity s ws1 (w : Worker) ws2 r s' a :
  cancel_preparation w s = (r, s') → represents capacity (mkSystem s (ws1 ++ w :: ws2)) a →
  ∃ a', spec_step capacity a (Cancelled (keys_of w)) a'
        ∧ represents capacity (mkSystem s' (ws1 ++ ws2)) a'.
Proof.
  intros Hcancel Hrep. pose proof (represents_promises _ _ _ _ Hrep) as ->.
  destruct Hrep as [[C1 C2 C3] Hcap Hw Hd _ _]. cbn in *.
  assert (results s' = results s ∧ receipts_poisoned s' = false ∧ receipt_capacity s' = capacity
    ∧ receipts s' = foldl (λ m k, delete k m) (receipts s) (keys_of w)) as (E1 & E2 & E3 & E4).
  { unfold cancel_preparation in Hcancel. fold (keys_of w) in Hcancel.
    destruct (match worker_prepared w with Some p => _ | None => _ end) as [x w'].
    injection Hcancel as _ <-. unfold remove_receipts. cbn. by rewrite C1. }
  assert (∀ k, receipts s' !! k = if bool_decide (k ∈ keys_of w) then None else receipts s !! k) as El.
  { intros k. rewrite E4. apply delete_keys_lookup. }
  assert (∀ k cell, receipts s' !! k = Some cell → receipts s !! k = Some cell) as Hold.
  { intros k cell. rewrite El. by case_bool_decide. }
  rewrite fmap_app, fmap_cons. eexists. split; [apply spec_cancel|]. split; cbn.
  - split; [done| |].
    + intros k cell E%Hold. rewrite E1. by eapply C2.
    + intros k k' cell E%Hold E'%Hold. by eapply C3.
  - done.
  - apply Forall_app in Hw as [Hw1 [_ Hw2]%Forall_cons].
    assert (Forall (waiting s) (ws1 ++ ws2)) as Hws by (by apply Forall_app).
    rewrite Forall_forall in Hws |- *. intros w' Hin. eapply waiting_frame; [by apply Hws|congruence|].
    intros k cell Hkw E. split; [|congruence]. rewrite El, bool_decide_eq_false_2; [done|].
    by eapply (others_disjoint ws1 ws2 w).
  - by eapply others_nodup.
  - apply map_eq. intros k. rewrite withdraw_lookup, !view_lookup, El. case_bool_decide; [done|].
    by rewrite E1.
  - by rewrite fmap_app.
Qed.

Lemma simulate_take capacity s ws key result s' a :
  take_result key s = (result, s') → represents capacity (mkSystem s ws) a →
  ∃ a', spec_step capacity a (Taken key result) a' ∧ represents capacity (mkSystem s' ws) a'.
Proof.
  intros Htake Hrep. pose proof (represents_promises _ _ _ _ Hrep) as ->.
  pose proof Hrep as [[C1 C2 C3] Hcap Hw Hd _ _]. cbn in *.
  unfold take_result in Htake. rewrite C1 in Htake.
  destruct (receipts s !! key ≫= λ cell, mjoin (results s !! cell)) as [x|] eqn:Ex.
  2: { injection Htake as <- <-. eexists. split; [apply spec_take_none|exact Hrep].
    rewrite view_lookup. by destruct (receipts s !! key). }
  injection Htake as <- <-.
  destruct (receipts s !! key) as [cell|] eqn:Ek; [|done]. cbn in Ex.
  eexists. split; [apply spec_take; rewrite view_lookup, Ek; cbn; by rewrite Ex|].
  assert (∀ w k, waiting s w → k ∈ keys_of w → k ≠ key) as Hne.
  { intros w k (routes & prepared & -> & _ & _ & _ & Hc) Hkw ->. cbn in Hkw.
    apply list_elem_of_fmap in Hkw as (r & -> & Hr). rewrite Forall_forall in Hc.
    destruct (Hc r Hr) as [E1 E2]. rewrite Ek in E1. injection E1 as ->. by rewrite E2 in Ex. }
  split; cbn; [|done| |done| |done].
  - split; cbn; [done| |].
    + intros k c [_ E]%lookup_delete_Some. by eapply C2.
    + intros k k' c [_ E]%lookup_delete_Some [_ E']%lookup_delete_Some. by eapply C3.
  - rewrite Forall_forall in Hw |- *. intros w Hin. specialize (Hw w Hin).
    eapply waiting_frame; [exact Hw|done|]. intros k c Hkw E. cbn. split; [|done].
    rewrite lookup_delete_ne; [done|]. intros ->. by apply (Hne w k Hw Hkw).
  - unfold view. cbn. by rewrite fmap_delete.
Qed.

(** *** Histories *)

Inductive history {A} (step : A → Operation → A → Prop) : A → list Operation → A → Prop :=
| history_nil a : history step a [] a
| history_cons a o b l c : step a o b → history step b l c → history step a (o :: l) c.

Lemma step_simulates capacity sys o sys' a :
  system_step sys o sys' → represents capacity sys a →
  ∃ a', spec_step capacity a o a' ∧ represents capacity sys' a'.
Proof.
  intros Hstep Hrep. destruct Hstep.
  - by eapply simulate_prepare.
  - exists a. split; [apply spec_refuse|]. by eapply simulate_refused.
  - by eapply simulate_run.
  - by eapply simulate_cancel.
  - by eapply simulate_take.
Qed.

(** C7: The receipt registry refines a map of promises.  From an empty registry, every
    history of preparations, runs, cancellations and takings, in whatever order the workers
    and the application interleave them and whatever the transport answers, is a history of
    the specification: with the same refusals visible, the same outcomes fulfilled and the
    same results taken.  The cells the implementation shares are not observable. *)
Theorem registry_refines_promises capacity w (s : St) operations sys
  (Hstart : with_transport capacity w = Ok s)
  (Hrun : history system_step (mkSystem s []) operations sys) :
  ∃ a, history (spec_step capacity) (mkSpec ∅ []) operations a ∧ represents capacity sys a.
Proof.
  assert (represents capacity (mkSystem s []) (mkSpec ∅ [])) as Hrep.
  { unfold with_transport in Hstart. case_match; [done|]. injection Hstart as <-.
    split; cbn; [by split|done|constructor|constructor| |done]. unfold view. cbn. by rewrite fmap_empty. }
  clear Hstart. revert Hrep. generalize (mkSpec ∅ []). generalize dependent (mkSystem s []).
  intros sys0 Hrun. induction Hrun as [sys|sys o sys' l sys'' Hstep _ IH]; intros a Hrep.
  { exists a. split; [constructor|done]. }
  destruct (step_simulates _ _ _ _ _ Hstep Hrep) as (a' & Ha & Hrep').
  destruct (IH a' Hrep') as (b & Hb & Hr). exists b. split; [by econstructor|done].
Qed.
End System.

Import Extern.Sample Config.Example_route Receipts.Bench.

(** A group of one route is prepared, runs, and its result is taken. *)
Definition sample_operations : list Operation :=
  [Prepared [mkKey 1 7]; Ran [mkKey 1 7] [outcome 10]; Taken (mkKey 1 7) (Some (mkResult (mkKey 1 7) (outcome 10)))].

Definition sample_prepared : Result ConnectorError (RelayPublishWorker nat) * State Secret unit :=
  prepare (Url := Url) [input 7] Receipts.Bench.factory.
Definition sample_worker : RelayPublishWorker nat := mkWorker (Some [Receipts.Bench.route]) (Some 1%nat).
Definition sample_ran : ConnectorRunOutcome * State Secret unit := run sample_worker sample_prepared.2.
Definition sample_taken : option RelayPublishResult * State Secret unit :=
  take_result (mkKey 1 7) sample_ran.2.

Lemma sample_history :
  history (system_step (Url := Url)) (mkSystem Receipts.Bench.factory []) sample_operations
    (mkSystem sample_taken.2 []).
Proof.
  eapply history_cons.
  { refine (step_prepared _ _ [input 7] sample_worker sample_prepared.2 _ _); [apply NoDup_singleton|].
    vm_compute. reflexivity. }
  eapply history_cons.
  { exact (step_run sample_prepared.2 [] sample_worker [] sample_ran.1 sample_ran.2 (surjective_pairing _)). }
  eapply history_cons; [|apply history_nil].
  apply step_take. vm_compute. reflexivity.
Qed.

Lemma registry_refines_promises_witness :
  ∃ a, history (spec_step 4) (mkSpec ∅ []) sample_operations a ∧ groups a = [].
Proof.
  destruct (registry_refines_promises (Url := Url) 4 () Receipts.Bench.factory sample_operations
    (mkSystem sample_taken.2 []) eq_refl sample_history) as (a & Ha & Hr).
  exists a. split; [exact Ha|]. exact (rep_groups _ _ _ Hr).
Defined.
