(* ===== verification/FramePublisher.v ===== *)
(** * Running a prepared publication: [relay/src/frame_publisher.rs]

    [run_prepared_frame_publisher] starts one encoder per stream and hands their packets
    to the transport that was prepared: the RTP loop of the WebRTC engine or the group of
    WebSocket connections.  The encoder threads ([Encoder]) run beside it; what arrives on
    their channels is the world's.  A transport may publish for as long as the application
    does not stop it: [None] is a publication that goes on after the given rounds. *)

From S2P Require Import Prelude Env Text Extern Errors Encoder Proxy Config Control Transport Gateway WebRtc Publisher Handshake.

#[local] Arguments lit : simpl never.

(** [pocketstation::codec::StreamProfile]: the variants the connector names, and what it
    asks of one. *)
Inductive StreamProfile : Type := VoiceMono20ms | MusicStereo20ms.

Class StreamProfiles : Type := {
  is_stereo : StreamProfile → bool;
  bitrate_kbps : StreamProfile → Z;
}.

Record PreparedFrameStream : Type := mkPreparedStream {
  profile : StreamProfile;
  latency : LatencyProfile;
  stream_counters : EncoderCounters;
}.

Inductive PreparedMediaTransport : Type :=
| WebRtcMedia (handshake : HandshakeResult)
| WebSocketMedia (connections : list IngressConnection).

Record PreparedFramePublisher (Secret : Type) : Type := mkPreparedPublisher {
  media_transport : PreparedMediaTransport;
  publisher_session_id : text;
  publisher_streams : list PreparedFrameStream;
  ingress_recovery : option (PreparedIngressRecovery Secret);
}.
Arguments mkPreparedPublisher {Secret}.
Arguments media_transport {Secret} p.
Arguments publisher_session_id {Secret} p.
Arguments publisher_streams {Secret} p.
Arguments ingress_recovery {Secret} p.

(** [encoder_threads] are the indices of the streams whose encoders were started. *)
Record FramePublisherExecution : Type := mkExecution {
  execution_result : Result BoxedError PublishStats;
  execution_ingress_error : option BoxedError;
  encoder_threads : list nat;
}.

(** The world of the publisher thread: one clock, one set of sockets and one engine, seen
    by the handshake, by the RTP loop and by the WebSocket group. *)
Class RelayEnv (Secret W : Type) : Type := {
  relay_handshake :: HandshakeEnv W;
  relay_publisher :: PublisherEnv W;
  relay_ingress :: IngressEnv Secret W;
  one_engine : @publisher_rtc W relay_publisher = @hs_rtc W relay_handshake;
  one_network : @ingress_proxy Secret W relay_ingress = @hs_proxy W relay_handshake;
  one_resolver : @ingress_resolver Secret W relay_ingress = @hs_resolver W relay_handshake;
  one_socket_table :
    @ingress_sockets Secret W relay_ingress = @hs_sockets W relay_handshake
    ∧ @publisher_sockets W relay_publisher = @hs_sockets W relay_handshake;
  (** [spawn_opus_encoder]: starts a thread between a receiver and the channel of the
      stream's index; [false] when it cannot be started *)
  spawn_encoder :
    nat → StreamProfile → EncodedDeliveryPolicy → nat → W → bool * W;
}.

Section FramePublisher.
Context {Secret Url W : Type} `{SecretLib Secret, UrlLib Url, !RelayEnv Secret W}.
Local Abbreviation bio := (io W BoxedError).
Local Abbreviation Prepared := (PreparedFramePublisher Secret).

(** [PreparedMediaTransport::cancel] *)
Definition cancel_media (transport : PreparedMediaTransport) (session_id : text) : bio unit :=
  match transport with
  | WebRtcMedia handshake => cancel_handshake handshake session_id
  | WebSocketMedia connections => Gateway.cancel (Secret := Secret) connections
  end.

(** A publisher that is dropped gives up the lease its recovery holds. *)
Definition drop_recovery (prepared : Prepared) (w : W) : W :=
  match ingress_recovery prepared with Some _ => release_lease w | None => w end.

(** The encoder of each stream, in order. *)
Fixpoint spawn_encoders (index : nat) (streams : list PreparedFrameStream) : bio (list nat) :=
  match streams with
  | [] => mret []
  | s :: streams =>
      _ ← syscall (spawn_encoder index (profile s) (for_latency_profile (latency s))
                     (encoded_channel_depth (latency s))) "encoder thread spawn";
      rest ← spawn_encoders (S index) streams;
      mret (index :: rest)
  end.

Definition backlog_policy_of (l : LatencyProfile) : PublisherBacklogPolicy :=
  match l with Encoder.Low => DropStale | Encoder.Standard => Preserve end.

Definition publish_streams (mids : list Mid) (streams : list PreparedFrameStream)
  : list PublishStream :=
  zip_with (λ mid '(index, s),
    Publisher.mkStream mid index (backlog_policy_of (latency s)) (stream_counters s))
    mids (imap pair streams).

Definition ingress_streams (connections : list IngressConnection) (streams : list PreparedFrameStream)
  : list IngressStream :=
  zip_with (λ c '(index, s), Gateway.mkStream c index (stream_counters s))
    connections (imap pair streams).

(** The transport, once the encoders run. *)
Definition run_media (rounds : positive) (prepared : Prepared) (encoders : list nat) (w : W)
  : option (Result BoxedError FramePublisherExecution * W) :=
  let streams := publisher_streams prepared in
  match media_transport prepared with
  | WebRtcMedia handshake =>
      if negb (length (mids handshake) =? length streams)%nat
      then Some (fail "relay media and encoded stream counts do not match", drop_recovery prepared w) else
      match run_publish_loop rounds (handshake_ws handshake)
              (publish_streams (mids handshake) streams) (publisher_session_id prepared) w with
      | None => None
      | Some (result, w) => Some (Ok (mkExecution result None encoders), drop_recovery prepared w)
      end
  | WebSocketMedia connections =>
      if negb (length connections =? length streams)%nat
      then Some (fail "relay ingress and encoded stream counts do not match", drop_recovery prepared w) else
      match (match ingress_recovery prepared with
             | Some r => run_with_recovery (Url := Url) rounds (ingress_streams connections streams)
                           (Some r) true w
             | None => Gateway.run (Secret := Secret) (Url := Url) rounds
                         (ingress_streams connections streams) w
             end) with
      | None => None
      | Some (stats, error, w) => Some (Ok (mkExecution (Ok stats) error encoders), w)
      end
  end.

Definition run_prepared_frame_publisher (rounds : positive) (prepared : Prepared)
  (frame_receivers : nat) (w : W) : option (Result BoxedError FramePublisherExecution * W) :=
  if negb (length (publisher_streams prepared) =? frame_receivers)%nat
  then Some (fail "relay publisher media, stream and receiver counts do not match",
             drop_recovery prepared w) else
  match spawn_encoders 0 (publisher_streams prepared) w with
  | (Err e, w) => Some (Err e, drop_recovery prepared w)
  | (Ok encoders, w) => run_media rounds prepared encoders w
  end.
End FramePublisher.
