(* ===== verification/Runtime.v ===== *)
(** * The native transport of the connector: [relay/src/runtime.rs]

    [NativeRelayPublishTransport] is the implementation of [RelayPublishTransport] that
    talks to the network: it claims the publication, opens the connections of a group or
    performs the WebRTC handshake, and runs the prepared publisher between one feeder
    thread per route and the outcomes the worker records.  [Feeder] is such a thread; in
    [run] the feeders are the world's, as the encoders are. *)

From S2P Require Import Prelude Env Text Extern Errors Encoder Proxy Config Control Transport Gateway WebRtc Publisher Handshake FramePublisher Receipts.

#[local] Arguments lit : simpl never.

(** ** The feeder: one route's frames into the encoder's channel *)

Module Feeder.

Definition FEEDER_POLL_INTERVAL : Z := MILLISECOND.

(** What the feeder owns: it alone writes the route's [capture_end_ns], [input_drops] and
    [ingress_queue_drops_total].  [taken] and [forwarded] are the frames it took from the
    receiver and handed to the encoder. *)
Record State (W : Type) : Type := mkState {
  capture_end_ns : Z;
  input_drops : Z;
  ingress_queue_drops_total : Z;
  frames_received : Z;
  taken : list EndpointAudioFrame;
  forwarded : list EndpointAudioFrame;
  world : W;
}.
Arguments mkState {W}.
Arguments capture_end_ns {W} s.
Arguments input_drops {W} s.
Arguments ingress_queue_drops_total {W} s.
Arguments frames_received {W} s.
Arguments taken {W} s.
Arguments forwarded {W} s.
Arguments world {W} s.

Class FeederEnv (W : Type) : Type := {
  feeder_stop : W → bool * W;
  is_abort_requested : W → bool * W;
  receiver_try_recv : W → option EndpointAudioFrame * W;
  (** [delivery.paused] *)
  delivery_paused : W → bool * W;
  (** [frame_tx.try_send] *)
  try_send : EndpointAudioFrame → W → option TrySendError * W;
  (** [shutdown_mode().is_some()] *)
  shutdown_requested : W → bool * W;
  wait_for_stop : Z → W → W;
}.

(** How the loop is left; a division by a channel count of zero unwinds the thread. *)
Inductive Left : Type := Stopped | Detached | Panicked.

Section Feeder.
Context {W : Type} `{FeederEnv W}.
Local Abbreviation St := (State W).

Definition with_world (w : W) (s : St) : St :=
  mkState (capture_end_ns s) (input_drops s) (ingress_queue_drops_total s) (frames_received s)
    (taken s) (forwarded s) w.
Definition take_frame (f : EndpointAudioFrame) (s : St) : St :=
  mkState (capture_end_ns s) (input_drops s) (ingress_queue_drops_total s) (frames_received s + 1)
    (taken s ++ [f]) (forwarded s) (world s).
Definition capture_until (t : Z) (s : St) : St :=
  mkState (Z.max (capture_end_ns s) t) (input_drops s) (ingress_queue_drops_total s)
    (frames_received s) (taken s) (forwarded s) (world s).
Definition drop_input (s : St) : St :=
  mkState (capture_end_ns s) (wrap_add (input_drops s) 1) (ingress_queue_drops_total s)
    (frames_received s) (taken s) (forwarded s) (world s).
Definition drop_queued (s : St) : St :=
  mkState (capture_end_ns s) (input_drops s) (wrap_add (ingress_queue_drops_total s) 1)
    (frames_received s) (taken s) (forwarded s) (world s).
Definition forward (f : EndpointAudioFrame) (s : St) : St :=
  mkState (capture_end_ns s) (input_drops s) (ingress_queue_drops_total s)
    (frames_received s) (taken s) (forwarded s ++ [f]) (world s).

(** [frame.timestamp_ns() + duration], saturating. *)
Definition frame_end (f : EndpointAudioFrame) : Z :=
  let sample_frames := Z.of_nat (length (frame_samples f)) / frame_channels f in
  sat_add (capture_timestamp f) (sat_mul sample_frames 1000000000 / 48000).

(** The [match frame_tx.try_send(frame)]. *)
Definition hand_over (f : EndpointAudioFrame) (s : St) : St + (Left * St) :=
  match try_send f (world s) with
  | (None, w) => inl (forward f (with_world w s))
  | (Some Full, w) => inl (drop_queued (with_world w s))
  | (Some Disconnected, w) => inr (Detached, with_world w s)
  end.

(** A frame was received; [delivery]: the publication can be reattached. *)
Definition feed_frame (delivery : bool) (f : EndpointAudioFrame) (s : St) : St + (Left * St) :=
  let s := take_frame f s in
  if negb delivery then hand_over f s else
  if frame_channels f =? 0 then inr (Panicked, s) else
  let s := capture_until (frame_end f) s in
  let '(paused, w) := delivery_paused (world s) in
  let s := with_world w s in
  if paused : bool then inl (drop_input s) else hand_over f s.

(** One iteration of the loop. *)
Definition feed_round (delivery : bool) (s : St) : St + (Left * St) :=
  let '(stop, w) := feeder_stop (world s) in
  if stop : bool then inr (Stopped, with_world w s) else
  let '(aborted, w) := is_abort_requested w in
  if aborted : bool then inr (Stopped, with_world w s) else
  match receiver_try_recv w with
  | (Some f, w) => feed_frame delivery f (with_world w s)
  | (None, w) =>
      let '(shutdown, w) := shutdown_requested w in
      if shutdown : bool then inr (Stopped, with_world w s)
      else inl (with_world (wait_for_stop FEEDER_POLL_INTERVAL w) s)
  end.

Definition start (w : W) : St := mkState 0 0 0 0 [] [] w.

(** At most [rounds] iterations; [inl] while the feeder still runs. *)
Definition feed (rounds : positive) (delivery : bool) (w : W) : St + (Left * St) :=
  run_until rounds (feed_round delivery) (start w).
End Feeder.

(** *** What the feeder does with its frames *)

Section Theory.
Context {W : Type} `{FeederEnv W}.
Local Abbreviation St := (State W).

(** The state a run of the feeder ended in, or is in. *)
Definition reached (r : St + (Left * St)) : St := match r with inl s | inr (_, s) => s end.

(** Frames taken and accounted for nowhere: only the one a vanished encoder refused, or
    the one the thread panicked on. *)
Definition unaccounted (r : St + (Left * St)) : Z :=
  match r with inr ((Detached | Panicked), _) => 1 | _ => 0 end.

(** Where the frames went; [lost] of them nowhere. *)
Record accounted (lost : Z) (s : St) : Prop := mkAccounted {
  acc_received : frames_received s = Z.of_nat (length (taken s));
  acc_sum : Z.of_nat (length (taken s))
    = Z.of_nat (length (forwarded s)) + input_drops s + ingress_queue_drops_total s + lost;
  acc_input : 0 ≤ input_drops s;
  acc_queue : 0 ≤ ingress_queue_drops_total s;
  acc_order : forwarded s `sublist_of` taken s;
}.

Lemma accounted_world lost w s : accounted lost s → accounted lost (with_world w s).
Proof. by intros []. Qed.
Lemma accounted_take f s : accounted 0 s → accounted 1 (take_frame f s).
Proof.
  intros [H1 H2 H3 H4 H5]. constructor; cbn; rewrite ?length_app; cbn; try lia; try done.
  by apply sublist_inserts_r.
Qed.
Lemma accounted_capture lost t s : accounted lost s → accounted lost (capture_until t s).
Proof. by intros []. Qed.

Lemma hand_over_accounted f s s0 :
  accounted 0 s0 → taken s = taken s0 ++ [f] → forwarded s = forwarded s0 →
  input_drops s = input_drops s0 → ingress_queue_drops_total s = ingress_queue_drops_total s0 →
  frames_received s = frames_received s0 + 1 →
  Z.of_nat (length (taken s)) ≤ U64_MAX →
  accounted (unaccounted (hand_over f s)) (reached (hand_over f s)).
Proof.
  intros [H1 H2 H3 H4 H5] Ht Hf Hi Hq Hr Hb. unfold hand_over.
  assert (Z.of_nat (length (taken s)) = Z.of_nat (length (taken s0)) + 1) as Hl
    by (rewrite Ht, length_app; cbn; lia).
  assert (forwarded s0 `sublist_of` taken s0 ++ [f]) by (by apply sublist_inserts_r).
  assert (forwarded s0 ++ [f] `sublist_of` taken s0 ++ [f]) by (by apply sublist_app).
  destruct (try_send f (world s)) as [[[]|] w]; constructor; cbn;
    rewrite ?length_app, ?wrap_add_exact by (u64_unfold; lia); cbn; rewrite ?Hf; try lia; by rewrite Ht.
Qed.

(** Every frame taken ends before the published end of the capture. *)
Definition covered (s : St) : Prop := Forall (λ f, frame_end f ≤ capture_end_ns s) (taken s).

Lemma covered_take f s :
  covered s → covered (capture_until (frame_end f) (take_frame f s)).
Proof.
  unfold covered. cbn. intros Hc. apply Forall_app. split; [|repeat constructor; lia].
  eapply Forall_impl; [exact Hc|]. cbn. lia.
Qed.

(** What a round leaves alone and how far it gets. *)
Definition sound (delivery : bool) (s : St) : Prop :=
  (Z.of_nat (length (taken s)) ≤ U64_MAX → accounted 0 s) ∧ (delivery = true → covered s).

Definition sound_left (delivery : bool) (r : Left * St) : Prop :=
  (Z.of_nat (length (taken r.2)) ≤ U64_MAX → accounted (unaccounted (inr r)) r.2)
  ∧ (delivery = true → r.1 ≠ Panicked → covered r.2).

Lemma hand_over_sound delivery f s s0 :
  sound delivery s0 → taken s = taken s0 ++ [f] → forwarded s = forwarded s0 →
  input_drops s = input_drops s0 → ingress_queue_drops_total s = ingress_queue_drops_total s0 →
  frames_received s = frames_received s0 + 1 → (delivery = true → covered s) →
  match hand_over f s with inl s' => sound delivery s' | inr r => sound_left delivery r end.
Proof.
  intros [Ha Hc] Ht Hf Hi Hq Hr Hc'.
  assert (Z.of_nat (length (taken s)) ≤ U64_MAX →
    accounted (unaccounted (hand_over f s)) (reached (hand_over f s))) as Hacc.
  { intros Hb. apply (hand_over_accounted f s s0); try done. apply Ha. rewrite Ht, length_app in Hb. lia. }
  unfold hand_over in *. destruct (try_send f (world s)) as [[[]|] w]; cbn in *; split; auto.
Qed.

Lemma feed_frame_sound delivery f s :
  sound delivery s →
  match feed_frame delivery f s with inl s' => sound delivery s' | inr r => sound_left delivery r end.
Proof.
  intros Hs. unfold feed_frame. destruct delivery; cbn [negb].
  2: { by apply (hand_over_sound false f (take_frame f s) s). }
  pose proof Hs as [Ha Hc].
  assert (Z.of_nat (length (taken s ++ [f])) ≤ U64_MAX → accounted 0 s) as Hprev
    by (rewrite length_app; intros; apply Ha; lia).
  destruct (frame_channels f =? 0).
  { split; [|intros _ Hn; by destruct Hn]. intros Hb. apply accounted_take, Hprev, Hb. }
  pose proof (covered_take f s (Hc eq_refl)) as Hcov.
  destruct (delivery_paused _) as [[] w].
  - split; [|done]. cbn. intros Hb. destruct (Hprev Hb) as [H1 H2 H3 H4 H5].
    rewrite length_app in Hb. cbn in Hb.
    constructor; cbn; rewrite ?length_app, ?wrap_add_exact by (u64_unfold; lia); cbn; try lia.
    by apply sublist_inserts_r.
  - by apply (hand_over_sound true f _ s).
Qed.

Lemma sound_world delivery w s : sound delivery s → sound delivery (with_world w s).
Proof. intros [Ha Hc]. split; [|done]. intros Hb. apply accounted_world, Ha, Hb. Qed.
Lemma sound_stopped delivery s : sound delivery s → sound_left delivery (Stopped, s).
Proof. intros [Ha Hc]. split; auto. Qed.

Lemma feed_round_sound delivery s :
  sound delivery s →
  match feed_round delivery s with inl s' => sound delivery s' | inr r => sound_left delivery r end.
Proof.
  intros Hs. unfold feed_round.
  destruct (feeder_stop (world s)) as [[] w]; [by apply sound_stopped, sound_world|].
  destruct (is_abort_requested w) as [[] w1]; [by apply sound_stopped, sound_world|].
  destruct (receiver_try_recv w1) as [[f|] w2]; [by apply feed_frame_sound, sound_world|].
  destruct (shutdown_requested w2) as [[] w3]; [by apply sound_stopped, sound_world|].
  by apply sound_world.
Qed.

Lemma feed_sound rounds delivery w :
  match feed rounds delivery w with inl s => sound delivery s | inr r => sound_left delivery r end.
Proof.
  apply (run_until_invariant (feed_round delivery) (sound delivery) (sound_left delivery)).
  - split; [|constructor]. constructor; done.
  - intros s s' Hs E. pose proof (feed_round_sound delivery s Hs) as E1. by rewrite E in E1.
  - intros s r Hs E. pose proof (feed_round_sound delivery s Hs) as E1. by rewrite E in E1.
Qed.

(** C21: The feeder of a route accounts for every frame it takes from its receiver: each was
    handed to the encoder, in order and once, or is counted as dropped while the
    publication was paused, or as dropped at a full queue; when its encoder has vanished,
    or a frame has no channels, one more frame is lost, the last.  No count overflows
    before 2^64 frames. *)
Theorem feeder_accounts_for_every_frame rounds delivery w
  (Hfew : Z.of_nat (length (taken (reached (feed rounds delivery w)))) ≤ U64_MAX) :
  accounted (unaccounted (feed rounds delivery w)) (reached (feed rounds delivery w)).
Proof.
  pose proof (feed_sound rounds delivery w) as Hs. destruct (feed rounds delivery w) as [s|r];
    destruct Hs as [Ha _]; [by apply Ha|]. destruct r as [l s]. by apply Ha.
Qed.

(** The cutoff a reattached stream starts from covers every frame its feeder took: the
    published end of the capture is never before the end of a frame taken, even of one
    dropped while paused, so nothing captured before a reattachment is published after
    it. *)
Theorem feeder_publishes_capture_end rounds w
  (Hleft : ∀ s, feed rounds true w ≠ inr (Panicked, s)) :
  Forall (λ f, frame_end f ≤ capture_end_ns (reached (feed rounds true w)))
    (taken (reached (feed rounds true w))).
Proof.
  pose proof (feed_sound rounds true w) as Hs. destruct (feed rounds true w) as [s|[l s]];
    destruct Hs as [_ Hc]; [by apply Hc|]. apply Hc; [done|]. intros E. cbn in E. subst l.
  by apply (Hleft s).
Qed.
End Theory.
End Feeder.

(** ** The world of the native transport *)

(** [join_feeder] is false when the thread panicked; [counters_of] and
    [queue_drops_of] read the atomics a route shares with its threads. *)
Class RuntimeEnv (Secret W : Type) : Type := {
  runtime_relay :: RelayEnv Secret W;
  runtime_profiles :: StreamProfiles;
  (** [RelayPublisherControl::claim]; the lease is given up by [release_lease] *)
  control_claim : W → Result RelayPublisherControlError unit * W;
  spawn_feeder : nat → PreparedRelayRoute → nat → W → bool * W;
  stop_transport : W → W;
  join_feeder : nat → W → bool * W;
  join_encoder : nat → W → bool * W;
  counters_of : nat → W → EncoderCounters * W;
  queue_drops_of : PreparedRelayRoute → W → Z * W;
  mark_worker_failure : Z → W → W;
  observations : Z → W → EdgeObservations * W;
}.

Section Native.
Context {Secret Url W : Type}.
Context `{SecretLib Secret, UrlLib Url, ConnectorLimits, !RuntimeEnv Secret W}.
Local Abbreviation Prepared := (PreparedFramePublisher Secret).
Local Abbreviation Route := (RelayTransportPreparation Secret).
Local Abbreviation cio := (io W ConnectorError).

Definition read_now : cio Z := io_lift (@now W (@rtc_clock W hs_rtc)).

(** *** Preparation *)

Definition relay_stream_profile (s : SampleSpec) : Result ConnectorError StreamProfile :=
  if negb (spec_rate_hz s =? 48000)
  then Err (relay_error "relay.unsupported_sample_rate" Prepare RetryAfterReconfiguration
              (lit "relay input sample rate is " ++ decimal (spec_rate_hz s)
               ++ lit " Hz; expected 48000 Hz"))
  else if negb (spec_f32_interleaved s)
  then Err (relay_error "relay.unsupported_sample_format" Prepare RetryAfterReconfiguration
              (lit "relay input must use interleaved f32 PCM"))
  else if spec_channels s =? 1 then Ok VoiceMono20ms
  else if spec_channels s =? 2 then Ok MusicStereo20ms
  else Err (relay_error "relay.unsupported_channel_count" Prepare RetryAfterReconfiguration
              (lit "relay input has unsupported channel count " ++ decimal (spec_channels s))).

(** A failure drops the lease that was claimed. *)
Definition guard_lease {A} (held : bool) (m : cio A) : cio A :=
  λ w, match m w with
       | (Err e, w) => (Err e, if held then release_lease w else w)
       | (Ok a, w) => (Ok a, w)
       end.

Definition credential_revision_or_zero (c : option (PublisherCredential Secret)) : Z :=
  from_option credential_revision 0 c.

(** [control.is_revoked() || control.revision() != .. || now >= startup_deadline] *)
Definition control_changed (credential : option (PublisherCredential Secret)) (deadline : Z) : cio bool :=
  revoked ← io_lift control_revoked;
  if revoked : bool then mret true else
  revision ← io_lift control_revision;
  if negb (revision =? credential_revision_or_zero credential) then mret true else
  t ← read_now;
  mret (deadline <=? t).

(** The connections opened so far are cancelled, then the error is returned. *)
Definition abandon {A} (connections : list IngressConnection) (e : ConnectorError) : cio A :=
  _ ← io_fun (λ w, let '(_, w) := Gateway.cancel (Secret := Secret) connections w in (Ok (), w));
  io_fail e.

(** The connection of one route, when the group publishes over WebSockets. *)
Definition admit_route (control : bool) (credential : option (PublisherCredential Secret))
  (deadline : Z) (spec : SampleSpec) (c : RelayRouteConfiguration Secret)
  (connections : list IngressConnection) : cio (list IngressConnection) :=
  prepared ← io_fun (λ w, let '(r, w) := Gateway.prepare (Url := Url) c (spec_channels spec) deadline w in
                          (Ok r, w));
  match prepared with
  | Err error => abandon connections (relay_error "relay.ingress_start_failed" Startup (retryability error)
                                        (boxed_error_text error))
  | Ok connection =>
      let connections := connections ++ [connection] in
      if negb control then mret connections else
      changed ← control_changed credential deadline;
      if changed : bool
      then abandon connections (relay_error "relay.publisher_control_changed" Startup Never
             (lit "publisher capability changed, expired or was revoked during admission"))
      else mret connections
  end.

(** What the loop over the routes collects. *)
Record Collected : Type := mkCollected {
  ingress_connections : list IngressConnection;
  media : list PublishMedia;
  prepared_streams : list PreparedFrameStream;
  ingress_configurations : list (RelayRouteConfiguration Secret);
}.

Definition with_credential (credential : option (PublisherCredential Secret))
  (c : RelayRouteConfiguration Secret) : RelayRouteConfiguration Secret :=
  match credential with Some k => with_token (token k) c | None => c end.

Definition latency_of (p : RelayLatencyProfile) : LatencyProfile :=
  match p with Config.Standard => Encoder.Standard | Config.Low => Encoder.Low end.

Definition collect_route (profile : StreamProfile) (c : RelayRouteConfiguration Secret)
  (connections : list IngressConnection) (acc : Collected) : Collected :=
  {| ingress_connections := connections;
     media := media acc ++ [mkPublishMedia (is_stereo profile) (bitrate_kbps profile) (bus_id c)];
     prepared_streams := prepared_streams acc
       ++ [mkPreparedStream profile (latency_of (latency_profile c)) counters_default];
     ingress_configurations := ingress_configurations acc ++ [c] |}.

Fixpoint collect_routes (websocket control : bool) (credential : option (PublisherCredential Secret))
  (deadline : Z) (routes : list (Route * StreamProfile)) (acc : Collected) : cio Collected :=
  match routes with
  | [] => mret acc
  | (route, profile) :: routes =>
      let c := with_credential credential (preparation_configuration route) in
      connections ← (if websocket
                     then admit_route control credential deadline (preparation_spec route) c
                            (ingress_connections acc)
                     else mret (ingress_connections acc));
      collect_routes websocket control credential deadline routes
        (collect_route profile c connections acc)
  end.

(** [snapshot] and the deadline every step of the startup shares. *)
Definition admission (control : bool) (timeout : Z)
  : cio (option (PublisherCredential Secret) * Z) :=
  credential ← (if control
                then c ← io_lift control_snapshot; io_result (Some <$> map_err control_error c)
                else mret None);
  t ← read_now;
  let deadline := t + timeout in
  match credential with
  | None => mret (None, deadline)
  | Some k =>
      t ← read_now;
      mret (Some k, Z.min (Z.min deadline (valid_until k)) (t + ATTACHMENT_TIMEOUT))
  end.

(** Everything before the transport of the group: all profiles are checked before the
    first connection is opened. *)
Definition collect_group (first : Route) (routes : list Route)
  : cio (option (PublisherCredential Secret) * Collected) :=
  let control := preparation_control first in
  let c := preparation_configuration first in
  admitted ← admission control (startup_timeout c);
  profiles ← io_result (collect (λ r, relay_stream_profile (preparation_spec r)) routes);
  collected ← collect_routes (bool_decide (transport c = Config.WebSocket)) control admitted.1 admitted.2
                (zip routes profiles) (mkCollected [] [] [] []);
  mret (admitted.1, collected).

Definition claim_lease (control : bool) : cio unit :=
  if control then c ← io_lift control_claim; io_result (map_err control_error c) else mret ().

(** [control.zip(credential).zip(lease)]: the recovery owns the lease. *)
Definition recovery_of (credential : option (PublisherCredential Secret)) (g : Collected)
  : option (PreparedIngressRecovery Secret) :=
  (λ k, mkRecovery k (ingress_configurations g)) <$> credential.

Definition prepared_publisher (m : PreparedMediaTransport) (c : RelayRouteConfiguration Secret)
  (credential : option (PublisherCredential Secret)) (g : Collected) : Prepared :=
  mkPreparedPublisher m (relay_session_id c) (prepared_streams g) (recovery_of credential g).

(** [None] while the WebRTC handshake still waits. *)
Definition prepare (reads rounds : positive) (routes : list Route) (w : W)
  : option (Result ConnectorError Prepared * W) :=
  match routes with
  | [] => Some (Err (relay_error "relay.empty_group" Prepare Never (lit "relay route group is empty")), w)
  | first :: _ =>
      let c := preparation_configuration first in
      let control := preparation_control first in
      match claim_lease control w with
      | (Err e, w) => Some (Err e, w)
      | (Ok _, w) =>
          match guard_lease control (collect_group first routes) w with
          | (Err e, w) => Some (Err e, w)
          | (Ok (credential, g), w) =>
              if bool_decide (transport c = Config.WebSocket)
              then Some (Ok (prepared_publisher (WebSocketMedia (ingress_connections g)) c credential g), w)
              else
                match run_handshake (Url := Url) reads rounds (relay_url c) (relay_session_id c)
                        (expose_secret (source_token c)) (media g) (ice_servers c)
                        (expose_secret <$> http_proxy c) (startup_timeout c) w with
                | None => None
                | Some (Ok h, w) => Some (Ok (prepared_publisher (WebRtcMedia h) c credential g), w)
                | Some (Err e, w) =>
                    Some (Err (relay_error "relay.handshake_failed" Startup Retryable
                                 (lit "relay handshake failed: " ++ boxed_error_text e)),
                          if control then release_lease w else w)
                end
          end
      end
  end.

Definition cancel (p : Prepared) : cio unit :=
  io_fun (λ w, let '(r, w) := cancel_media (media_transport p) (publisher_session_id p) w in
    (map_err (λ e, relay_error "relay.preparation_cancel_failed" Shutdown Retryable
                     (boxed_error_text e)) r, drop_recovery p w)).

(** *** Running *)

Definition failed_outcomes (routes : list PreparedRelayRoute) (error : ConnectorError)
  : W → list RelayTransportOutcome * W :=
  imap_world (λ _ route w,
    let '(edge, w) := observations (route_receiver route) w in
    (mkOutcome statistics_default edge (Some error), w)) routes.

(** One feeder per route; the number started, and whether all were. *)
Fixpoint spawn_feeders (index : nat) (routes : list (PreparedRelayRoute * PreparedFrameStream))
  (w : W) : bool * nat * W :=
  match routes with
  | [] => (true, index, w)
  | (route, stream) :: routes =>
      let '(started, w) := spawn_feeder index route (capture_channel_depth (latency stream)) w in
      if started : bool then spawn_feeders (S index) routes w else (false, index, w)
  end.

Definition join_feeders (n : nat) : W → list bool * W :=
  imap_world (λ _ index w, join_feeder index w) (seq 0 n).

(** [into_iter().any(|encoder| encoder.join().is_err())] stops at the first. *)
Fixpoint any_encoder_failed (threads : list nat) (w : W) : bool * W :=
  match threads with
  | [] => (false, w)
  | thread :: threads =>
      let '(joined, w) := join_encoder thread w in
      if joined : bool then any_encoder_failed threads w else (true, w)
  end.

(** The statistics and the error all routes share. *)
Definition settle (delivery : bool) (execution : Result BoxedError FramePublisherExecution) (w : W)
  : option PublishStats * option ConnectorError * W :=
  match execution with
  | Err e => (None, Some (relay_error "relay.publisher_start_failed" Startup Retryable
                            (boxed_error_text e)), w)
  | Ok x =>
      let '(result, w) :=
        match delivery, execution_result x with
        | true, Ok stats =>
            let '(l, w) := imap_world (λ index s w,
                             let '(drops, w) := Gateway.input_drops index w in
                             (set_input_drops drops s, w)) (Transport.streams stats) w in
            (Ok (mkPublishStats l (elapsed stats) (drains stats) (writes stats)), w)
        | _, result => (result, w)
        end in
      let ingress_error := (λ e, relay_error "relay.publisher_failed" Delivery (retryability e)
                                   (boxed_error_text e)) <$> execution_ingress_error x in
      let '(encoder_failed, w) := any_encoder_failed (encoder_threads x) w in
      match result, encoder_failed with
      | Ok stats, false => (Some stats, ingress_error, w)
      | Ok stats, true =>
          (Some stats,
           Some (default (relay_error "relay.encoder_panicked" Delivery Retryable
                            (lit "relay encoder thread panicked")) ingress_error), w)
      | Err e, _ => (None, Some (relay_error "relay.publisher_failed" Delivery Retryable
                                   (boxed_error_text e)), w)
      end
  end.

Definition audio_error (encode_errors partial_samples_discarded : Z) : ConnectorError :=
  relay_error "relay.audio_processing_failed" Delivery Retryable
    (lit "relay audio processing failed: " ++ decimal encode_errors ++ lit " Opus encode errors, "
     ++ decimal partial_samples_discarded ++ lit " partial PCM samples discarded").

(** A route's own error, when the group has none. *)
Definition route_error (shared_error : option ConnectorError) (recovered : bool) (c : EncoderCounters)
  : option ConnectorError :=
  match shared_error with
  | Some e => Some e
  | None =>
      if (0 <? opus_encode_errors c)
         || ((0 <? normalization_partial_samples_discarded c) && negb recovered)
      then Some (audio_error (opus_encode_errors c) (normalization_partial_samples_discarded c))
      else None
  end.

(** [receivers[index].take().map(..).unwrap_or_default()] *)
Definition edge_of (joined failed : bool) (receiver : Z) (w : W) : EdgeObservations * W :=
  if negb joined then (mkEdge 0 0, w)
  else observations receiver (if failed then mark_worker_failure receiver w else w).

Definition route_outcome (publish_stats : option PublishStats) (shared_error : option ConnectorError)
  (joined : list bool) (index : nat) (route : PreparedRelayRoute) (w : W)
  : RelayTransportOutcome * W :=
  let stream := publish_stats ≫= λ stats, Transport.streams stats !! index in
  let '(c, w) := counters_of index w in
  let error := route_error shared_error
                 (from_option (λ s, 0 <? ingress_discontinuities s) false stream) c in
  let '(edge, w) := edge_of (default false (joined !! index)) (bool_decide (is_Some error))
                      (route_receiver route) w in
  let '(c, w) := counters_of index w in
  let '(drops, w) := queue_drops_of route w in
  (mkOutcome (statistics c drops publish_stats stream) edge error, w).

(** The outcome of a route when a feeder could not be started. *)
Definition unstarted_outcome (index : nat) (route : PreparedRelayRoute) (w : W)
  : RelayTransportOutcome * W :=
  let '(c, w) := counters_of index w in
  let '(drops, w) := queue_drops_of route w in
  (mkOutcome (statistics c drops None None) (mkEdge 0 0)
     (Some (relay_error "relay.feeder_spawn_failed" Startup Retryable
              (lit "relay feeder spawn failed"))), w).

(** After the publisher returned: the feeders are stopped and joined, and every route gets
    its outcome. *)
Definition finish (delivery : bool) (feeders : nat) (routes : list PreparedRelayRoute)
  (execution : Result BoxedError FramePublisherExecution) (w : W)
  : list RelayTransportOutcome * W :=
  let '(joined, w) := join_feeders feeders (stop_transport w) in
  let '(publish_stats, shared_error, w) := settle delivery execution w in
  let shared_error :=
    match shared_error with
    | None => if existsb negb joined
              then Some (relay_error "relay.feeder_panicked" Delivery Retryable
                           (lit "relay feeder thread panicked"))
              else None
    | e => e
    end in
  imap_world (route_outcome publish_stats shared_error joined) routes w.

(** [None] while still publishing after the given rounds. *)
Definition run (rounds : positive) (p : Prepared) (routes : list PreparedRelayRoute) (w : W)
  : option (list RelayTransportOutcome * W) :=
  if negb (length (publisher_streams p) =? length routes)%nat then
    let '(outcomes, w) := failed_outcomes routes
      (relay_error "relay.prepared_stream_mismatch" Delivery Never
         (lit "relay prepared stream count does not match grouped routes")) w in
    Some (outcomes, drop_recovery p w)
  else
    let '(all, started, w) := spawn_feeders 0 (zip routes (publisher_streams p)) w in
    if negb all then
      let '(_, w) := join_feeders started (stop_transport w) in
      let '(outcomes, w) := imap_world unstarted_outcome routes w in
      Some (outcomes, drop_recovery p w)
    else
      match run_prepared_frame_publisher (Url := Url) rounds p started w with
      | None => None
      | Some (execution, w) =>
          Some (finish (bool_decide (is_Some (ingress_recovery p))) started routes execution w)
      end.
End Native.

(** ** Every route gets its outcome *)

Section Outcomes.
Context {Secret Url W : Type}.
Context `{SecretLib Secret, UrlLib Url, ConnectorLimits, !RuntimeEnv Secret W}.

(** The error of a route whose own audio could not be processed. *)
Definition own_error (o : RelayTransportOutcome) : Prop :=
  outcome_error o = None ∨ ∃ errors samples, outcome_error o = Some (audio_error errors samples).

Definition shared (e : ConnectorError) (o : RelayTransportOutcome) : Prop := outcome_error o = Some e.

(** The publisher ran, and neither the publication nor the ingress ended with an error. *)
Definition published_well (execution : Result BoxedError FramePublisherExecution) : Prop :=
  ∃ x stats, execution = Ok x ∧ execution_result x = Ok stats ∧ execution_ingress_error x = None.

Lemma route_outcome_shared stats e joined index route w :
  shared e (route_outcome stats (Some e) joined index route w).1.
Proof.
  unfold route_outcome, route_error. destruct (counters_of index w) as [c w1].
  destruct (edge_of _ _ _ w1) as [edge w2]. destruct (counters_of index w2) as [c' w3].
  by destruct (queue_drops_of route w3).
Qed.

Lemma route_outcome_own stats joined index route w :
  own_error (route_outcome stats None joined index route w).1.
Proof.
  unfold route_outcome. destruct (counters_of index w) as [c w1].
  destruct (edge_of _ _ _ w1) as [edge w2]. destruct (counters_of index w2) as [c' w3].
  destruct (queue_drops_of route w3) as [d w4]. unfold own_error, route_error. cbn.
  case_match; [right; by eexists _, _|by left].
Qed.

(** The group has no error only when the publication ended well. *)
Lemma settle_success delivery execution w stats w' :
  settle delivery execution w = (stats, None, w') → published_well execution.
Proof.
  unfold settle. destruct execution as [x|e]; [|done]. destruct (execution_result x) as [s|er] eqn:Er.
  - destruct delivery; [destruct (imap_world _ _ w) as [l w1]|];
      destruct (any_encoder_failed _ _) as [[] w2]; intros [=]; exists x, s;
      by destruct (execution_ingress_error x).
  - destruct delivery; by destruct (any_encoder_failed _ _) as [[] w2].
Qed.

Lemma finish_reports delivery feeders routes execution w outcomes w' :
  finish delivery feeders routes execution w = (outcomes, w') →
  length outcomes = length routes ∧
  ((∃ e, Forall (shared e) outcomes) ∨ published_well execution ∧ Forall own_error outcomes).
Proof.
  unfold finish. destruct (join_feeders _ _) as [joined w1].
  destruct (settle delivery execution w1) as [[stats shared_error] w2] eqn:Es.
  set (e := match shared_error with None => _ | e => e end). intros Ho.
  split.
  { apply (f_equal (length ∘ fst)) in Ho. cbn in Ho. rewrite <- Ho.
    apply (imap_world_from_length 0). }
  apply (f_equal fst) in Ho. cbn in Ho. subst outcomes. destruct e as [er|] eqn:Ee.
  - left. exists er. apply imap_world_from_Forall. intros. apply route_outcome_shared.
  - right. split; [|apply imap_world_from_Forall; intros; apply route_outcome_own].
    destruct shared_error; [done|]. by eapply settle_success.
Qed.

(** C11: The native transport answers with exactly one outcome per route, on every path, and
    no failure goes unreported: either all outcomes carry one error, or the publisher ran,
    its publication and the ingress ended without an error, and a route's only possible
    error is that its own audio could not be processed. *)
Theorem run_reports_every_route rounds (p : PreparedFramePublisher Secret) routes w outcomes w'
  (Hrun : run (Url := Url) rounds p routes w = Some (outcomes, w')) :
  length outcomes = length routes ∧
  ((∃ e, Forall (shared e) outcomes) ∨
   ∃ w1 execution w2,
     run_prepared_frame_publisher (Url := Url) rounds p (length routes) w1 = Some (execution, w2)
     ∧ published_well execution ∧ Forall own_error outcomes).
Proof.
  unfold run in Hrun. case_match eqn:El.
  { destruct (failed_outcomes _ _ w) as [os w1] eqn:Eo. injection Hrun as <- <-.
    apply (f_equal fst) in Eo. cbn in Eo. subst os.
    split; [apply (imap_world_from_length 0)|]. left. eexists. apply imap_world_from_Forall.
    intros i route w2. by destruct (observations _ _). }
  destruct (spawn_feeders 0 _ w) as [[all started] w1] eqn:Ef. case_match eqn:Ea.
  { destruct (join_feeders _ _) as [js w2]. destruct (imap_world _ _ w2) as [os w3] eqn:Eo.
    injection Hrun as <- <-. apply (f_equal fst) in Eo. cbn in Eo. subst os.
    split; [apply (imap_world_from_length 0)|]. left. eexists. apply imap_world_from_Forall.
    intros i route w4. unfold unstarted_outcome. destruct (counters_of i w4) as [c w5].
    by destruct (queue_drops_of route w5). }
  assert (started = length routes) as ->.
  { apply negb_false_iff in Ea. subst all. apply negb_false_iff, Nat.eqb_eq in El.
    assert (∀ l index w, spawn_feeders index l w = (true, started, w1) → started = (index + length l)%nat)
      as Hs.
    { clear. induction l as [|[route s] l IH]; intros index w; cbn; [intros [= <-]; lia|].
      destruct (spawn_feeder _ _ _ w) as [[] w2]; [|done]. intros ->%IH. lia. }
    apply Hs in Ef. rewrite length_zip in Ef. lia. }
  destruct (run_prepared_frame_publisher _ _ _ _) as [[execution w2]|] eqn:Er; [|done].
  injection Hrun as Hf. apply finish_reports in Hf as [Hl [He|Hr]]; (split; [done|]); [by left|].
  right. by exists w1, execution, w2.
Qed.
End Outcomes.

(** ** A prepared group fits its routes *)

Section Prepared.
Context {Secret Url W : Type}.
Context `{SecretLib Secret, UrlLib Url, ConnectorLimits, !RuntimeEnv Secret W}.
Local Abbreviation Route := (RelayTransportPreparation Secret).

Lemma gateway_prepare_channels (c : RelayRouteConfiguration Secret) ch deadline w k w' :
  Gateway.prepare (Url := Url) c ch deadline w = (Ok k, w') → channels k = ch.
Proof.
  unfold Gateway.prepare. intros Hp. repeat (apply io_bind_Ok in Hp as (? & ? & _ & Hp)).
  by injection Hp as <-.
Qed.

Lemma publish_offer_mids url room tok ms servers proxy timeout (w : W) h deadline w' :
  publish_offer (Url := Url) url room tok ms servers proxy timeout w = (Ok (h, deadline), w') →
  length (mids h) = length ms.
Proof.
  unfold publish_offer. case_match; [done|].
  intros (t & w1 & _ & (b & w2 & _ & (offer & w3 & Ho & (ws & w4 & _ & Hp)%io_bind_Ok)%io_bind_Ok)%io_bind_Ok)%io_bind_Ok.
  injection Hp as <- _ _. destruct offer as [mids t']. apply sdp_offer_length in Ho.
  by rewrite length_fmap in Ho.
Qed.

Lemma run_handshake_mids reads rounds url room tok ms servers proxy timeout (w : W) h w' :
  run_handshake (Url := Url) reads rounds url room tok ms servers proxy timeout w = Some (Ok h, w') →
  length (mids h) = length ms.
Proof.
  unfold run_handshake. destruct (publish_offer _ _ _ _ _ _ _ w) as [[[h' d]|] w1] eqn:Ep; [|done].
  apply publish_offer_mids in Ep.
  destruct (negotiate _ _ _ _ _ _ w1) as [[[r|r] w2]|]; [|done|done]. by intros [= <- _].
Qed.

Lemma admit_route_channels control credential deadline spec (c : RelayRouteConfiguration Secret) cs w cs' w' :
  admit_route (Url := Url) control credential deadline spec c cs w = (Ok cs', w') →
  channels <$> cs' = (channels <$> cs) ++ [spec_channels spec].
Proof.
  unfold admit_route. intros (r & w1 & E1 & E2)%io_bind_Ok. unfold io_fun in E1.
  destruct (Gateway.prepare _ _ _ w) as [r1 w2] eqn:Ep. injection E1 as -> ->.
  destruct r as [k|e]; [apply gateway_prepare_channels in Ep|];
    [|apply io_bind_Ok in E2 as (? & ? & _ & ?); done].
  assert (channels <$> cs ++ [k] = (channels <$> cs) ++ [spec_channels spec]) as <-
    by (by rewrite fmap_app, <- Ep).
  destruct control; cbn [negb] in E2; [|by injection E2 as <- _].
  apply io_bind_Ok in E2 as (b & w3 & _ & E2). destruct b; [|by injection E2 as <- _].
  apply io_bind_Ok in E2 as (? & ? & _ & ?). done.
Qed.

(** What the loop over the routes has added. *)
Lemma collected_routes_fit websocket control credential deadline l acc w g w' :
  collect_routes (Url := Url) websocket control credential deadline l acc w = (Ok g, w') →
  profile <$> prepared_streams g = (profile <$> prepared_streams acc) ++ l.*2
  ∧ length (media g) = (length (media acc) + length l)%nat
  ∧ bus_id <$> ingress_configurations g
    = (bus_id <$> ingress_configurations acc) ++ ((λ r : Route, bus_id (preparation_configuration r)) <$> l.*1)
  ∧ channels <$> ingress_connections g
    = (channels <$> ingress_connections acc)
      ++ if websocket then (λ r : Route, spec_channels (preparation_spec r)) <$> l.*1 else [].
Proof.
  revert acc w. induction l as [|[r p] l IH]; intros acc w; cbn.
  { intros [= <- _]. rewrite !app_nil_r. destruct websocket; rewrite ?app_nil_r; repeat split; lia. }
  intros (cs & w1 & E1 & (F1 & F2 & F3 & F4)%IH)%io_bind_Ok. cbn in F1, F2, F3, F4.
  rewrite F1, F2, F3, F4, !fmap_app, length_app, <- !app_assoc. cbn. split; [done|]. split; [lia|]. split.
  { by destruct credential. }
  destruct websocket; [|by injection E1 as <- _]. apply admit_route_channels in E1.
  by rewrite E1, <- app_assoc.
Qed.

(** Streams, media and recovery belong to the routes, in their order. *)
Record fits (p : PreparedFramePublisher Secret) (routes : list Route) : Prop := mkFits {
  fits_profiles :
    collect (λ r, relay_stream_profile (preparation_spec r)) routes
    = Ok (profile <$> publisher_streams p);
  fits_media :
    match media_transport p with
    | WebSocketMedia cs => channels <$> cs = (λ r, spec_channels (preparation_spec r)) <$> routes
    | WebRtcMedia h => length (mids h) = length routes
    end;
  fits_recovery r :
    ingress_recovery p = Some r →
    bus_id <$> configurations r = (λ r, bus_id (preparation_configuration r)) <$> routes;
}.

Lemma fits_length p routes : fits p routes → length (publisher_streams p) = length routes.
Proof.
  intros [Hp _ _]. apply collect_Ok, Forall2_length in Hp. by rewrite length_fmap in Hp.
Qed.

Lemma collect_group_spec first routes w credential g w' :
  collect_group (Url := Url) first routes w = (Ok (credential, g), w') →
  collect (λ r : Route, relay_stream_profile (preparation_spec r)) routes = Ok (profile <$> prepared_streams g)
  ∧ length (media g) = length routes
  ∧ bus_id <$> ingress_configurations g = (λ r, bus_id (preparation_configuration r)) <$> routes
  ∧ (transport (preparation_configuration first) = Config.WebSocket →
     channels <$> ingress_connections g = (λ r, spec_channels (preparation_spec r)) <$> routes).
Proof.
  intros (adm & w1 & _ & (profiles & w2 & Hp & (g' & w3 & Hc & Hr)%io_bind_Ok)%io_bind_Ok)%io_bind_Ok.
  injection Hr as _ <- _. unfold io_result in Hp. injection Hp as Hp _.
  assert (length routes = length profiles) as Hl by (by apply collect_Ok, Forall2_length in Hp).
  apply collected_routes_fit in Hc as (F1 & F2 & F3 & F4). cbn in *.
  rewrite length_zip, <- Hl, Nat.min_id in F2. rewrite snd_zip in F1 by lia.
  rewrite fst_zip in F3, F4 by lia. rewrite F1. split; [done|]. split; [done|]. split; [done|].
  intros Ht. by rewrite bool_decide_eq_true_2 in F4.
Qed.

(** C20: A prepared group fits its routes, in number and in order: one stream per route with
    the profile of its channel layout, over WebSockets one connection per route that
    declares the route's channels in its packets, over WebRTC one negotiated medium per
    route, and the configurations for a reattachment are the routes' buses.  So the checks
    of the publisher that compare these counts never fail: the only error it can start
    with is a thread that cannot be spawned. *)
Theorem prepared_group_fits reads rounds routes w p w'
  (Hprep : prepare (Url := Url) reads rounds routes w = Some (Ok p, w')) :
  fits p routes ∧
  ∀ rounds' w1 e w2,
    run_prepared_frame_publisher (Url := Url) rounds' p (length routes) w1 = Some (Err e, w2) →
    e = Message "encoder thread spawn".
Proof.
  assert (fits p routes) as Hfits.
  { unfold prepare in Hprep. destruct routes as [|first rest]; [done|]. set (routes := first :: rest) in *.
    destruct (claim_lease _ w) as [[u|] w1]; [|done].
    destruct (guard_lease _ _ w1) as [[[credential g]|] w2] eqn:Eg; [|done].
    unfold guard_lease in Eg. destruct (collect_group _ _ w1) as [[[k g']|] w3] eqn:Ec; [|done].
    injection Eg as -> -> ->. apply collect_group_spec in Ec as (F1 & F2 & F3 & F4).
    assert (∀ m (Hm : match m with
      | WebSocketMedia cs => channels <$> cs = (λ r, spec_channels (preparation_spec r)) <$> routes
      | WebRtcMedia h => length (mids h) = length routes
      end), fits (prepared_publisher m (preparation_configuration first) credential g) routes) as Hf.
    { intros m Hm. constructor; [done|done|]. cbn. destruct credential; [|done]. by intros r [= <-]. }
    case_match eqn:Et.
    - injection Hprep as <- _. apply bool_decide_eq_true in Et. apply Hf, F4, Et.
    - destruct (run_handshake _ _ _ _ _ _ _ _ _ w2) as [[[h|e] w4]|] eqn:Eh; [|done|done].
      injection Hprep as <- _. apply Hf. apply run_handshake_mids in Eh. congruence. }
  split; [done|]. intros rounds' w1 e w2. unfold run_prepared_frame_publisher.
  rewrite (fits_length _ _ Hfits), Nat.eqb_refl. cbn [negb].
  destruct (spawn_encoders 0 _ w1) as [[encoders|e1] w3] eqn:Es.
  - unfold run_media. pose proof (fits_media _ _ Hfits) as Hm. rewrite (fits_length _ _ Hfits).
    destruct (media_transport p) as [h|cs].
    + rewrite Hm, Nat.eqb_refl. cbn [negb]. by destruct (run_publish_loop _ _ _ _ w3) as [[r w4]|].
    + apply (f_equal length) in Hm. rewrite !length_fmap in Hm. rewrite Hm, Nat.eqb_refl. cbn [negb].
      case_match; [|done]. by destruct p0 as [[? ?] ?].
  - intros [= <- _]. clear -Es. revert w1 Es. generalize 0%nat.
    induction (publisher_streams p) as [|s l IH]; intros n w1; cbn; [done|].
    intros [E1|(u & w4 & _ & [E2|(r & w5 & _ & ?)]%io_bind_Err)]%io_bind_Err; [|by eapply IH|done].
    unfold syscall, fail in E1. destruct (spawn_encoder _ _ _ _ w1) as [[] w4]; [done|by injection E1 as <- _].
Qed.
End Prepared.

(** ** A sample world

    The simulated relay of [Gateway.Simulation], with an engine, encoders and feeders that
    do nothing, and a script for one feeder. *)

Module Bench.
Import Sample Simulation Receipts.Bench.

#[export] Instance rtc : Rtc World :=
  {| rtc_clock := world_clock; handle_timeout _ w := (true, w); receive_new _ := true;
     handle_receive _ _ w := (true, w); has_writer _ _ := false; payload_type_of _ _ := None;
     rtc_write _ _ _ _ w := (true, w); parse_candidate := Some; add_remote_candidate _ w := w;
     poll_output w := (Ok (OutputTimeout (clock w + SECOND)), w); output_bound _ := 1%positive;
     udp_recv w := (UdpWouldBlock, w); udp_send _ w := (None, w);
     ws_send _ _ w := (Ok (), w); ws_close _ w := (Ok (), w) |}.

#[export] Instance json : SignalingJson := {| to_json _ := Some []; parse_server_msg _ := None |}.

#[export] Instance handshake : HandshakeEnv World :=
  {| hs_proxy := proxy_env; hs_resolver := resolver; hs_rtc := rtc; hs_sockets := sockets;
     hs_json := json; hs_clock := eq_refl; hs_environment _ := None;
     socket_addr a := mkSocketAddr (IpV4 a) 80;
     udp_bind w := (true, w); udp_set_read_timeout _ w := (true, w); udp_local_port w := (Some 5000, w);
     probe_socket_ip _ w := (Some (IpV4 9), w); udp_send_to _ _ w := (true, w);
     stun_recv_from w := (None, w); rtc_build w := w; host_candidate _ := None;
     server_reflexive _ _ := None; add_local_candidate _ w := w;
     sdp_add_media _ _ w := (0, w); sdp_apply w := (Some (lit "v=0"), w);
     parse_answer _ := true; accept_answer _ w := (true, w) |}.

#[export] Instance publisher : PublisherEnv World :=
  {| publisher_rtc := rtc; publisher_sockets := sockets; publisher_generations := generations;
     publisher_json := json; Publisher.try_recv _ w := (RecvDisconnected, w);
     backlog_bound _ _ := 1%positive; udp_set_nonblocking w := (true, w) |}.

#[export] Instance relay : RelayEnv Secret World :=
  {| relay_handshake := handshake; relay_publisher := publisher; relay_ingress := ingress;
     one_engine := eq_refl; one_network := eq_refl; one_resolver := eq_refl;
     one_socket_table := conj eq_refl eq_refl; spawn_encoder _ _ _ _ w := (true, w) |}.

#[export] Instance runtime : RuntimeEnv Secret World :=
  {| runtime_relay := relay;
     runtime_profiles := {| is_stereo p := match p with MusicStereo20ms => true | _ => false end;
                            bitrate_kbps _ := 128 |};
     control_claim w :=
       let '(r, c) := claim (control w) in
       (r, mkWorld (clock w) (log w) (paused w) (incoming w) (frames w) c (heard w));
     spawn_feeder _ _ _ w := (true, w); stop_transport w := w; join_feeder _ w := (true, w);
     join_encoder _ w := (true, w); counters_of _ w := (counters_default, w);
     queue_drops_of _ w := (0, w); mark_worker_failure _ w := w;
     observations _ w := (mkEdge 0 0, w) |}.

(** The relay accepts the attachment, sends a ping and nothing else; the encoder's channel
    is then closed. *)
Definition free_control : SharedControl Secret :=
  mkControl Simulation.route first false 1 false false.
Definition start : World :=
  mkWorld 0 [] false [Ok (MText [5]); Ok MPing] [RecvDisconnected] free_control [].
Definition group : list (RelayTransportPreparation Secret) :=
  [mkPreparation Simulation.route (mkSpec 48000 2 true) true].
Definition routes : list PreparedRelayRoute := [Receipts.Bench.route].
Definition prepared : PreparedFramePublisher Secret :=
  mkPreparedPublisher (WebSocketMedia [mkConnection 7 2 5]) (lit "session-1")
    [mkPreparedStream MusicStereo20ms Encoder.Low counters_default]
    (Some (mkRecovery first [Simulation.route])).

Definition preparation : option (Result ConnectorError (PreparedFramePublisher Secret) * World) :=
  prepare (Url := Url) 1 1 group start.
Definition publication : option (list RelayTransportOutcome * World) :=
  match preparation with
  | Some (Ok p, w) => run (Url := Url) 9 p routes w
  | _ => None
  end.
Definition errors (p : option (list RelayTransportOutcome * World)) : option (list (option ConnectorError)) :=
  match p with Some (outcomes, _) => Some (outcome_error <$> outcomes) | None => None end.

(** A feeder: frames to receive, whether the publication is paused, and what [try_send]
    answers to each frame. *)
Record Feed : Type := mkFeed {
  inbox : list EndpointAudioFrame;
  pauses : list bool;
  sends : list (option TrySendError);
}.

#[export] Instance feeder : Feeder.FeederEnv Feed :=
  {| Feeder.feeder_stop w := (false, w); Feeder.is_abort_requested w := (false, w);
     Feeder.receiver_try_recv w :=
       match inbox w with
       | f :: rest => (Some f, mkFeed rest (pauses w) (sends w))
       | [] => (None, w)
       end;
     Feeder.delivery_paused w :=
       match pauses w with
       | b :: rest => (b, mkFeed (inbox w) rest (sends w))
       | [] => (false, w)
       end;
     Feeder.try_send _ w :=
       match sends w with
       | e :: rest => (e, mkFeed (inbox w) (pauses w) rest)
       | [] => (None, w)
       end;
     Feeder.shutdown_requested w := (true, w); Feeder.wait_for_stop _ w := w |}.

Definition audio (n : Z) : EndpointAudioFrame :=
  mkFrame [f32_zero; f32_zero] n 48000 2 (1000 * n) None.
(** Sent, dropped while paused, dropped at a full queue, and refused by a vanished encoder. *)
Definition feed_script : Feed :=
  mkFeed [audio 1; audio 2; audio 3; audio 4; audio 5] [false; true; false; false]
    [None; Some Full; Some Disconnected].

End Bench.

Import Sample Receipts.Bench Bench.

Lemma run_reports_every_route_witness :
  errors publication = Some [None] ∧
  ∃ outcomes w, run (Url := Url) 9 prepared routes Bench.start = Some (outcomes, w)
    ∧ length outcomes = 1%nat.
Proof.
  split; [vm_compute; reflexivity|].
  destruct (run (Url := Url) 9 prepared routes Bench.start) as [[outcomes w]|] eqn:E;
    [|vm_compute in E; discriminate E].
  exists outcomes, w. split; [reflexivity|].
  exact (proj1 (run_reports_every_route 9 prepared routes Bench.start outcomes w E)).
Defined.

Lemma prepared_group_fits_witness :
  ∃ w, preparation = Some (Ok prepared, w) ∧ fits prepared group.
Proof.
  destruct preparation as [[r w]|] eqn:E; [|vm_compute in E; discriminate E].
  assert (r = Ok prepared) as -> by (vm_compute in E; injection E as <- _; reflexivity).
  exists w. split; [reflexivity|].
  exact (proj1 (prepared_group_fits (Url := Url) 1 1 group Bench.start prepared w E)).
Defined.

Lemma feeder_accounts_for_every_frame_witness :
  Feeder.forwarded (Feeder.reached (Feeder.feed 9 true feed_script)) = [audio 1] ∧
  Feeder.accounted (Feeder.unaccounted (Feeder.feed 9 true feed_script))
    (Feeder.reached (Feeder.feed 9 true feed_script)) ∧
  Feeder.unaccounted (Feeder.feed 9 true feed_script) = 1.
Proof.
  split; [vm_compute; reflexivity|]. split; [|vm_compute; reflexivity].
  apply (Feeder.feeder_accounts_for_every_frame 9 true feed_script). vm_compute. discriminate.
Defined.

Lemma feeder_publishes_capture_end_witness :
  Feeder.capture_end_ns (Feeder.reached (Feeder.feed 9 true feed_script)) = 24833 ∧
  Forall (λ f, Feeder.frame_end f ≤ Feeder.capture_end_ns (Feeder.reached (Feeder.feed 9 true feed_script)))
    (Feeder.taken (Feeder.reached (Feeder.feed 9 true feed_script))).
Proof.
  split; [vm_compute; reflexivity|].
  apply (Feeder.feeder_publishes_capture_end 9 feed_script). intros s E. vm_compute in E. discriminate E.
Defined.
