(* ===== verification/Lease.v ===== *)
(** * The publication lease

    A publisher capability is claimed by one publication at a time
    ([RelayPublisherControl::claim]); the lease is a value that gives it up when it is
    dropped.  It travels from [prepare] into the prepared publisher and from there into
    the running group.  This file follows it: however a preparation or a publication ends,
    the capability can be claimed again. *)

From S2P Require Import Prelude Env Text Extern Errors Encoder Proxy Config Control Transport Gateway WebRtc Publisher Handshake FramePublisher Receipts Runtime.

(** [leased w]: the capability is claimed.  What happens after the publication does not
    touch it. *)
Class LeaseLaws (Secret W : Type) `{RuntimeEnv Secret W} (leased : W → bool) : Prop := {
  release_gives_up w : leased (release_lease w) = false;
  claim_refused w e w' : control_claim w = (Err e, w') → leased w' = leased w;
  stop_keeps w : leased (stop_transport w) = leased w;
  join_feeder_keeps n w : leased (join_feeder n w).2 = leased w;
  join_encoder_keeps n w : leased (join_encoder n w).2 = leased w;
  counters_keep n w : leased (counters_of n w).2 = leased w;
  queue_drops_keep r w : leased (queue_drops_of r w).2 = leased w;
  mark_keeps r w : leased (mark_worker_failure r w) = leased w;
  observations_keep r w : leased (observations r w).2 = leased w;
  input_drops_keep n w : leased (Gateway.input_drops n w).2 = leased w;
}.

(** ** The group keeps its recovery *)

Section Holder.
Context {Secret Url W : Type} `{SecretLib Secret, UrlLib Url} `{!IngressEnv Secret W}.
Local Abbreviation Recovery := (PreparedIngressRecovery Secret).
Local Abbreviation Grp := (Group Secret W).
Implicit Types g : Grp.

Definition same_holder : relation Grp := λ g g', is_Some (recovery g) ↔ is_Some (recovery g').

#[export] Instance same_holder_preorder : PreOrder same_holder.
Proof. unfold same_holder. split; [intros g|intros a b c]; tauto. Qed.

Local Abbreviation K := (keeps (E := BoxedError) same_holder).

Lemma holder_equal {A} (m : io Grp BoxedError A) :
  (∀ g, recovery (m g).2 = recovery g) → K m.
Proof. intros Hm g. unfold same_holder. by rewrite Hm. Qed.

Lemma holder_world {A} (m : io W BoxedError A) : K (Gateway.on_world m).
Proof. apply holder_equal. intros g. unfold Gateway.on_world. by destruct (m (Gateway.world g)). Qed.
#[local] Hint Resolve holder_world : keeps.
#[local] Hint Extern 1 (keeps _ get_active) => by apply holder_equal : keeps.
#[local] Hint Extern 1 (keeps _ (set_active _)) => by apply holder_equal : keeps.
#[local] Hint Extern 1 (keeps _ get_recovery) => by apply holder_equal : keeps.
Lemma holder_stream {A} n (m : io (ActiveIngress * W) BoxedError A) : K (at_stream n m).
Proof.
  apply holder_equal. intros g. unfold at_stream. destruct (active g !! n) as [a|]; [|done].
  by destruct (m (a, Gateway.world g)) as [r [a' w]].
Qed.
Lemma holder_credential c : K (set_credential c).
Proof. intros g. unfold same_holder, set_credential. cbn. by rewrite fmap_is_Some. Qed.
Lemma holder_close : K close_active.
Proof.
  apply holder_equal. intros g. destruct (close_active g) as [r g'] eqn:E.
  cbn. by apply close_active_spec in E as (_ & -> & _).
Qed.
Lemma holder_attach renewed revision cs index : K (attach_all renewed revision index cs).
Proof.
  apply holder_equal. intros g. destruct (attach_all renewed revision index cs g) as [r g'] eqn:E.
  cbn. by apply attach_all_spec in E as (_ & -> & _).
Qed.

#[local] Hint Resolve holder_stream holder_credential holder_close holder_attach : keeps.

Lemma holder_attempt context reason rd attempt (r : Recovery) :
  K (reattach_attempt (Url := Url) context reason rd attempt r).
Proof.
  unfold reattach_attempt. keep. intros g. unfold io_fun at 1.
  destruct (admit_group 0 _ context _ _ [] g) as [[adm cs] g1] eqn:E.
  apply admit_group_spec in E as [Hr _].
  assert (same_holder g g1) as Hg by (unfold same_holder; by rewrite Hr).
  etrans; [exact Hg|]. clear Hg Hr. destruct adm as [u|e].
  all: match goal with |- same_holder _ (?m _).2 => assert (K m) as Hm; [|apply Hm] end; keep.
  apply holder_equal. intros g2. unfold io_fun. by destruct (cancel_until _ _ (Gateway.world g2)).
Qed.
#[local] Hint Resolve holder_attempt : keeps.

Lemma holder_attempts context reason rd attempts (r : Recovery) :
  K (reattach_attempts (Url := Url) context reason rd attempts r).
Proof. induction attempts; cbn [reattach_attempts]; keep. Qed.
#[local] Hint Resolve holder_attempts : keeps.

Lemma holder_reattach context reason (r : Recovery) : K (reattach (Url := Url) context reason r).
Proof. unfold reattach. keep. Qed.
#[local] Hint Resolve holder_reattach : keeps.

Lemma holder_poll_all context indices progress : K (poll_all (Url := Url) context indices progress).
Proof.
  revert progress. induction indices as [|n l IH]; intros progress; [apply keeps_ret, _|].
  intros g. cbn [poll_all]. pose proof (holder_stream n (poll_stream (recovery g)) g) as Hs.
  destruct (at_stream n _ g) as [[b|e] g1]; cbn in Hs; (etrans; [exact Hs|]); [apply IH|].
  generalize g1. change (K (poll_failure (Url := Url) context e)). unfold poll_failure. keep.
Qed.

Lemma holder_check context : K (check_capability (Url := Url) context).
Proof. unfold check_capability. keep. Qed.
#[local] Hint Resolve holder_poll_all holder_check : keeps.

Lemma holder_round context : K (Gateway.publish_round (Url := Url) context).
Proof. unfold Gateway.publish_round. keep. Qed.

Lemma publish_group_holder rounds context g r g' :
  publish_group (Url := Url) rounds context g = inr (r, g') → same_holder g g'.
Proof.
  intros Hp. pose proof (run_until_invariant (io_round (Gateway.publish_round (Url := Url) context))
    (same_holder g) (λ r, same_holder g r.2) rounds g) as Hi.
  unfold publish_group in Hp. rewrite Hp in Hi. apply Hi; [done|..]; intros g1 x H1;
    unfold io_round; pose proof (holder_round context g1) as E1;
    destruct (Gateway.publish_round context g1) as [[[u|]|e] g2]; intros; simplify_eq; by etrans.
Qed.
End Holder.

(** ** Every path gives the lease up *)

Section Lease.
Context {Secret Url W : Type}.
Context `{SecretLib Secret, UrlLib Url, ConnectorLimits, !RuntimeEnv Secret W}.
Context (leased : W → bool) `{!LeaseLaws Secret W leased}.
Local Abbreviation Prepared := (PreparedFramePublisher Secret).

Definition holds_lease (p : Prepared) : Prop := is_Some (ingress_recovery p).

Lemma drop_recovery_free (p : Prepared) w : holds_lease p → leased (drop_recovery p w) = false.
Proof. intros [r Hr]. unfold drop_recovery. rewrite Hr. apply release_gives_up. Qed.

Lemma imap_world_leased {A B} index (f : nat → A → W → B * W) l w :
  (∀ i a w, leased (f i a w).2 = leased w) → leased (imap_world_from index f l w).2 = leased w.
Proof.
  intros Hf. revert index w. induction l as [|a l IH]; intros index w; [done|]. cbn.
  specialize (Hf index a w). destruct (f index a w) as [b w1]. cbn in Hf.
  specialize (IH (S index) w1). destruct (imap_world_from _ f l w1). cbn in *. congruence.
Qed.

Lemma run_with_recovery_free rounds ss r context w stats e w' :
  run_with_recovery (Url := Url) rounds ss (Some r) context w = Some (stats, e, w') →
  leased w' = false.
Proof.
  unfold run_with_recovery. destruct (now w) as [started w1].
  destruct (publish_group _ _ _) as [|[result g]] eqn:Eg; [done|]. intros [= Hf].
  apply publish_group_holder in Eg. destruct Eg as [Hg _]. specialize (Hg (ex_intro _ r eq_refl)).
  unfold finish_group in Hf. destruct Hg as [r' Hr]. rewrite Hr in Hf.
  destruct (collect_input_drops _ _ _) as [l w2].
  destruct (close_active _) as [x g2] eqn:Ec. apply close_active_spec in Ec as (_ & Hr2 & _).
  cbn in Hr2. rewrite Hr2 in Hf. destruct (now (Gateway.world g2)) as [t w3].
  injection Hf as _ _ <-. apply release_gives_up.
Qed.

Lemma run_prepared_free rounds (p : Prepared) n w r w' :
  holds_lease p → run_prepared_frame_publisher (Url := Url) rounds p n w = Some (r, w') →
  leased w' = false.
Proof.
  intros Hp. pose proof (λ w, drop_recovery_free p w Hp) as Hd.
  unfold run_prepared_frame_publisher, run_media. case_match; [by intros [= _ <-]|].
  destruct (spawn_encoders _ _ w) as [[encoders|e] w1]; [|by intros [= _ <-]].
  destruct (media_transport p) as [h|cs]; (case_match; [by intros [= _ <-]|]).
  - destruct (run_publish_loop _ _ _ _ w1) as [[x w2]|]; [|done]. by intros [= _ <-].
  - destruct Hp as [k Hk]. rewrite Hk.
    destruct (run_with_recovery _ _ _ _ w1) as [[[x e] w2]|] eqn:Er; [|done].
    intros [= _ <-]. by eapply run_with_recovery_free.
Qed.

Lemma any_encoder_leased l w : leased (any_encoder_failed l w).2 = leased w.
Proof.
  revert w. induction l as [|n l IH]; intros w; [done|]. cbn.
  pose proof (join_encoder_keeps (LeaseLaws := LeaseLaws0) n w) as Hj.
  destruct (join_encoder n w) as [[] w1]; cbn in *; [|done]. by rewrite IH.
Qed.

Lemma settle_leased delivery x w : leased (settle delivery x w).2 = leased w.
Proof.
  unfold settle. destruct x as [x|]; [|done].
  pose proof (any_encoder_leased (encoder_threads x)) as Ha.
  destruct (execution_result x) as [s|e]; destruct delivery;
    [|specialize (Ha w); destruct (any_encoder_failed _ w) as [[] w1]; cbn in *; done..].
  pose proof (imap_world_leased 0 (λ index s w, let '(drops, w) := Gateway.input_drops index w in
    (set_input_drops drops s, w)) (Transport.streams s) w) as Hi. unfold imap_world.
  destruct (imap_world_from 0 _ (Transport.streams s) w) as [l w1]. specialize (Ha w1).
  destruct (any_encoder_failed _ w1) as [[] w2]; cbn in *; rewrite Ha; apply Hi;
    intros i a w3; pose proof (input_drops_keep (LeaseLaws := LeaseLaws0) i w3) as Hk;
    by destruct (Gateway.input_drops i w3).
Qed.

Lemma route_outcome_leased stats e joined i route w :
  leased (route_outcome stats e joined i route w).2 = leased w.
Proof.
  unfold route_outcome. pose proof (counters_keep (LeaseLaws := LeaseLaws0) i w) as F1.
  destruct (counters_of i w) as [c w1]. unfold edge_of.
  destruct (default false (joined !! i)); cbn [negb].
  - set (failed := bool_decide _).
    pose proof (observations_keep (LeaseLaws := LeaseLaws0) (route_receiver route)
      (if failed then mark_worker_failure (route_receiver route) w1 else w1)) as F2.
    assert (leased (if failed then mark_worker_failure (route_receiver route) w1 else w1) = leased w1) as F3.
    { destruct failed; [apply mark_keeps|done]. }
    destruct (observations _ _) as [edge w2].
    pose proof (counters_keep (LeaseLaws := LeaseLaws0) i w2) as F4. destruct (counters_of i w2) as [c' w3].
    pose proof (queue_drops_keep (LeaseLaws := LeaseLaws0) route w3) as F5.
    destruct (queue_drops_of route w3). cbn in *. congruence.
  - pose proof (counters_keep (LeaseLaws := LeaseLaws0) i w1) as F4. destruct (counters_of i w1) as [c' w3].
    pose proof (queue_drops_keep (LeaseLaws := LeaseLaws0) route w3) as F5.
    destruct (queue_drops_of route w3). cbn in *. congruence.
Qed.

Lemma finish_leased delivery n routes x w : leased (finish delivery n routes x w).2 = leased w.
Proof.
  unfold finish. pose proof (imap_world_leased 0 (λ _ index w, join_feeder index w) (seq 0 n)
    (stop_transport w) (λ _ i w, join_feeder_keeps i w)) as Hj. unfold join_feeders, imap_world.
  rewrite stop_keeps in Hj. destruct (imap_world_from 0 _ (seq 0 n) _) as [joined w1]. cbn in Hj.
  pose proof (settle_leased delivery x w1) as Hs.
  destruct (settle delivery x w1) as [[stats e] w2]. cbn in Hs.
  rewrite imap_world_leased; [congruence|]. intros. apply route_outcome_leased.
Qed.

Lemma run_free rounds (p : Prepared) routes w outcomes w' :
  holds_lease p → Runtime.run (Url := Url) rounds p routes w = Some (outcomes, w') →
  leased w' = false.
Proof.
  intros Hp. pose proof (λ w, drop_recovery_free p w Hp) as Hd. unfold Runtime.run. case_match.
  { destruct (failed_outcomes _ _ w). by intros [= _ <-]. }
  destruct (spawn_feeders _ _ w) as [[all n] w1]. case_match.
  { destruct (join_feeders _ _) as [js w2]. destruct (imap_world _ _ w2). by intros [= _ <-]. }
  destruct (run_prepared_frame_publisher _ _ _ w1) as [[x w2]|] eqn:Er; [|done].
  apply run_prepared_free in Er; [|done]. intros [= Hf].
  pose proof (finish_leased (bool_decide (holds_lease p)) n routes x w2) as Hl.
  unfold holds_lease in Hl. rewrite Hf in Hl. cbn in Hl. congruence.
Qed.

(** However the publication that was prepared ends, the capability is free. *)
Definition every_end_releases (p : Prepared) : Prop :=
  (∀ w, leased (Runtime.cancel p w).2 = false)
  ∧ ∀ rounds routes w outcomes w',
      Runtime.run (Url := Url) rounds p routes w = Some (outcomes, w') → leased w' = false.

Lemma holder_releases (p : Prepared) : holds_lease p → holds_lease p ∧ every_end_releases p.
Proof.
  intros Hp. split; [done|]. split; [|intros; by eapply run_free].
  intros w. unfold Runtime.cancel, io_fun. destruct (cancel_media _ _ w) as [x w2].
  by apply drop_recovery_free.
Qed.

(** With a control, what is collected includes the credential. *)
Lemma collect_group_credential first routes w k g w' :
  preparation_control first = true →
  collect_group (Url := Url) first routes w = (Ok (k, g), w') → is_Some k.
Proof.
  intros Hcontrol Eg. unfold collect_group in Eg. rewrite Hcontrol in Eg.
  apply io_bind_Ok in Eg as (adm & w3 & Ea & (ps & w4 & _ & (cs & w5 & _ & Ek)%io_bind_Ok)%io_bind_Ok).
  injection Ek as <- _ _. unfold admission in Ea.
  apply io_bind_Ok in Ea as (c & w6 & E1 & (t & w7 & _ & E2)%io_bind_Ok).
  apply io_bind_Ok in E1 as (c' & w8 & _ & E1). unfold io_result in E1.
  destruct c' as [c'|]; [|done]. injection E1 as <- _.
  apply io_bind_Ok in E2 as (t' & w9 & _ & E2). by injection E2 as <- _.
Qed.

(** C9: The lease of a renewable publication is given up however it ends.  When the
    preparation of a controlled group fails, the capability is claimed afterwards only if
    it was before, by someone else.  When it succeeds the prepared publisher owns the lease,
    and after it was cancelled, or after it ran, on every path, the capability can be
    claimed again. *)
Theorem lease_is_given_up reads rounds first rest w r w'
  (Hcontrol : preparation_control first = true)
  (Hprep : Runtime.prepare (Url := Url) reads rounds (first :: rest) w = Some (r, w')) :
  match r with
  | Err _ => leased w' = true → leased w = true
  | Ok p => holds_lease p ∧ every_end_releases p
  end.
Proof.
  unfold Runtime.prepare in Hprep. rewrite Hcontrol in Hprep.
  destruct (claim_lease true w) as [[u|e] w1] eqn:Ec.
  2: { injection Hprep as <- <-. unfold claim_lease, mbind, io_bind, io_lift, io_result in Ec.
    destruct (control_claim w) as [[?|k] w2] eqn:Ek; [done|]. injection Ec as _ <-.
    apply (claim_refused (leased := leased)) in Ek. congruence. }
  unfold guard_lease in Hprep. destruct (collect_group _ _ w1) as [[[k g]|e] w2] eqn:Eg.
  2: { injection Hprep as <- <-. by rewrite release_gives_up. }
  destruct (collect_group_credential first _ w1 k g w2 Hcontrol Eg) as [k' ->].
  case_match.
  - injection Hprep as <- _. apply holder_releases. by eexists.
  - destruct (run_handshake _ _ _ _ _ _ _ _ _ w2) as [[[h|e] w3]|]; [| |done].
    + injection Hprep as <- _. apply holder_releases. by eexists.
    + injection Hprep as <- <-. by rewrite release_gives_up.
Qed.
End Lease.

Import Sample Receipts.Bench Runtime.Bench.

Definition is_leased (w : Simulation.World) : bool := claimed (Simulation.control w).

#[export] Instance lease_laws : LeaseLaws Secret Simulation.World is_leased.
Proof.
  constructor; try done.
  intros w e w'. cbn. unfold claim. destruct (claimed (Simulation.control w)) eqn:E; [|done].
  intros [= _ <-]. unfold is_leased. cbn. done.
Qed.

Lemma lease_is_given_up_witness :
  ∃ w, preparation = Some (Ok prepared, w) ∧ is_leased start = false ∧ is_leased w = true
    ∧ is_leased (Runtime.cancel prepared w).2 = false
    ∧ ∀ outcomes w2, Runtime.run (Url := Url) 9 prepared routes w = Some (outcomes, w2) →
        is_leased w2 = false.
Proof.
  destruct preparation as [[r w]|] eqn:E; [|vm_compute in E; discriminate E].
  assert (r = Ok prepared ∧ is_leased w = true) as [-> Hw]
    by (vm_compute in E; injection E as <- <-; split; reflexivity).
  exists w. split; [reflexivity|]. split; [reflexivity|]. split; [exact Hw|].
  destruct (lease_is_given_up (Url := Url) is_leased 1 1 (mkPreparation Simulation.route (mkSpec 48000 2 true) true)
    [] start (Ok prepared) w eq_refl E) as (_ & Hc & Hr).
  split; [apply Hc|]. intros outcomes w2. apply Hr.
Defined.

(** A refused preparation leaves the capability free, too. *)
Example refusal_releases :
  match Runtime.prepare (Url := Url) 1 1
          [mkPreparation Simulation.route (mkSpec 44100 2 true) true] start with
  | Some (Err e, w) => error_code e = "relay.unsupported_sample_rate"%string ∧ is_leased w = false
  | _ => False
  end.
Proof. vm_compute. split; reflexivity. Qed.
