(* ===== verification/Connector.v ===== *)
(** * The connector's public contract: [relay/src/connector.rs]

    The manifest tells Core which configuration the connector takes: the fields, what kind
    of value each has, which are required, their defaults and their constraints.  The
    constructors of Core's descriptors are an interface, for they may refuse; the values
    they are given are the connector's. *)

From S2P Require Import Prelude Env Text Extern Errors Encoder Proxy Config Control Transport Gateway Receipts.

#[local] Arguments lit : simpl never.

Definition RELAY_CONNECTOR_OPERATOR_ID : string := "io.pocketstation.relay.publish.v1".
Definition RELAY_CONNECTOR_NODE_TYPE_ID : string := "io.pocketstation.relay.publish.node.v1".
Definition DEFAULT_RECEIPT_CAPACITY : nat := 64.

(** ** The configuration schema *)

Inductive ConnectorConfigurationValueKind : Type := KindText | KindSecret | KindDuration.

Inductive ConnectorConfigurationConstraint : Type :=
| NonEmpty
| OneOf (values : list text)
| UnsignedRange (minimum maximum : Z).

(** A default is text or a duration; the connector has no secret ones. *)
Inductive ConnectorConfigurationRequirement : Type :=
| Required
| Optional
| DefaultText (t : text)
| DefaultDuration (ms : Z).

Record ConnectorConfigurationField : Type := mkField {
  field_name : string;
  field_kind : ConnectorConfigurationValueKind;
  field_requirement : ConnectorConfigurationRequirement;
  field_documentation : string;
  field_constraint : ConnectorConfigurationConstraint;
}.

Definition required_text (name documentation : string) : ConnectorConfigurationField :=
  mkField name KindText Required documentation NonEmpty.

Definition configuration_fields : list ConnectorConfigurationField :=
  [required_text RELAY_URL_KEY "Absolute PocketStation Relay HTTP or HTTPS origin.";
   required_text RELAY_SESSION_ID_KEY
     "Authoritative RelaySession identifier returned by the control plane.";
   mkField SOURCE_TOKEN_KEY KindSecret Required
     "RelaySession source credential. This field is always redacted." NonEmpty;
   required_text BUS_ID_KEY "Named AudioBus published by this route.";
   required_text PUBLISHER_GROUP_ID_KEY "Session-scoped group whose AudioBuses share one lifecycle.";
   mkField LATENCY_PROFILE_KEY KindText (DefaultText (lit "standard"))
     "Bounded queue policy: standard preserves queued music; low favors freshness."
     (OneOf [lit "standard"; lit "low"]);
   mkField ICE_SERVERS_KEY KindSecret Optional
     "Bounded JSON projection of STUN servers. TURN credentials are rejected by connector version 0.1."
     NonEmpty;
   mkField STARTUP_TIMEOUT_MS_KEY KindDuration (DefaultDuration DEFAULT_STARTUP_TIMEOUT_MS)
     "One finite deadline covering signaling, ICE and DTLS startup."
     (UnsignedRange 1 MAX_STARTUP_TIMEOUT_MS);
   mkField TRANSPORT_KEY KindText (DefaultText (lit "webrtc"))
     "Explicit media protocol: WebRTC/UDP or authenticated WebSocket Opus ingress."
     (OneOf [lit "webrtc"; lit "websocket"]);
   mkField HTTP_PROXY_KEY KindSecret Optional
     "HTTP CONNECT proxy origin; credentials are redacted. No direct fallback." NonEmpty].

(** ** The manifest *)

Inductive RelayConnectorBuildError : Type :=
| GraphContract (m : text)
| BuildConnector (e : ConnectorError)
| BuildConfiguration (e : ConnectorConfigurationError)
| BuildReadiness (m : text)
| BuildManifest (m : text)
| BuildRegistration (m : text).

(** [pocketstation::graph] and [pocketstation::connector]: the checked constructors of the
    descriptors. *)
Class CoreManifests (Port Node Schema Readiness Manifest : Type) : Type := {
  (** an input for any number of interleaved f32 streams of the given rate *)
  port_new : string → Z → Result text Port;
  node_new : string → string → list Port → Result text Node;
  schema_new : Z → list ConnectorConfigurationField → Result ConnectorConfigurationError Schema;
  (** timeout, poll interval, minimum and maximum of consecutive answers *)
  readiness_new : Z → Z → Z → Z → Result text Readiness;
  manifest_new : Z → string → text → Node → Schema → Readiness → Result text Manifest;
  with_capability : string → string → Manifest → Result text Manifest;
  with_requirement : string → bool → string → Manifest → Result text Manifest;
  manifest_validate : Manifest → Result text unit;
  (** [env!("CARGO_PKG_VERSION")] *)
  package_version : text;
}.

Section Manifest.
Context {Port Node Schema Readiness Manifest : Type}
  `{CoreManifests Port Node Schema Readiness Manifest}.
Local Abbreviation result := (Result RelayConnectorBuildError).

Definition relay_connector_manifest : result Manifest :=
  input ← map_err GraphContract (port_new "audio" 48000);
  node ← map_err GraphContract
           (node_new RELAY_CONNECTOR_NODE_TYPE_ID "PocketStation Relay publisher" [input]);
  configuration ← map_err BuildConfiguration (schema_new 1 configuration_fields);
  readiness ← map_err BuildReadiness
    (readiness_new (DEFAULT_STARTUP_TIMEOUT_MS * MILLISECOND) (100 * MILLISECOND) 1 3);
  manifest ← map_err BuildManifest
    (m ← manifest_new 1 RELAY_CONNECTOR_OPERATOR_ID package_version node configuration readiness;
     m ← with_capability "audio.pcm-f32-to-opus-rtp"
           "Consumes bounded 48 kHz interleaved f32 PCM and publishes Opus over RTP." m;
     m ← with_capability "relay.grouped-audio-buses"
           "Publishes multiple named AudioBuses under one transactional connector lifecycle." m;
     m ← with_requirement "network.udp" false
           "WebRTC media requires UDP. WebSocket ingress uses TCP/TLS through the configured proxy." m;
     with_requirement "network.turn-not-supported" false
       "Connector version 0.1 does not allocate TURN relays; networks requiring TURN are unsupported." m);
  _ ← map_err BuildManifest (manifest_validate manifest);
  Ok manifest.
End Manifest.

(** ** The connector value *)

Section Connector.
Context {Secret W : Type} `{SecretLib Secret, ConnectorLimits}.

(** [RelayConnector::with_receipt_capacity], [new] and [with_publisher_control]: a factory
    over the native transport. *)
Definition with_receipt_capacity (capacity : nat) (w : W) : Result RelayConnectorBuildError (State Secret W) :=
  map_err BuildConnector (Receipts.with_transport capacity w).

Definition new (w : W) : Result RelayConnectorBuildError (State Secret W) :=
  with_receipt_capacity DEFAULT_RECEIPT_CAPACITY w.

Definition with_publisher_control (now : Z) (control : SharedControl Secret) (w : W)
  : Result RelayConnectorBuildError (State Secret W) :=
  map_err BuildConnector (Receipts.with_publisher_control now DEFAULT_RECEIPT_CAPACITY control w).
End Connector.

(** ** Configurations conform to the schema *)

Section Conformance.
Context {Secret Url : Type} `{SecretLib Secret, UrlLib Url, WireJson}.
Context `{!SecretLaws Secret, !UrlLaws Url}.

Definition kind_of (v : ConnectorConfigurationValue Secret) : ConnectorConfigurationValueKind :=
  match v with
  | Text _ => KindText
  | SecretValue _ => KindSecret
  | DurationMilliseconds _ => KindDuration
  end.

(** A value meets a constraint: it is not blank, it is one of the listed texts, it lies in
    the range. *)
Definition meets (c : ConnectorConfigurationConstraint) (v : ConnectorConfigurationValue Secret) : Prop :=
  match c, v with
  | NonEmpty, Text t => t ≠ []
  | NonEmpty, SecretValue s => expose_secret s ≠ []
  | OneOf l, Text t => t ∈ l
  | UnsignedRange low high, DurationMilliseconds n => low ≤ n ≤ high
  | _, _ => False
  end.

Definition conforms (conf : ConnectorConfiguration Secret) (f : ConnectorConfigurationField) : Prop :=
  match conf !! field_name f with
  | Some v => kind_of v = field_kind f ∧ meets (field_constraint f) v
  | None => field_requirement f ≠ Required
  end.

(** JSON of a document is not empty. *)
Context (Hjson : ∀ wire t, to_json wire = Some t → t ≠ []).

Lemma nonblank_nonempty (t : text) : trim t ≠ [] → t ≠ [].
Proof. by intros Ht ->. Qed.

Definition known (conf : ConnectorConfiguration Secret) : Prop :=
  map_Forall (λ k _, k ∈ field_name <$> configuration_fields) conf.

Lemma known_insert k v conf :
  k ∈ field_name <$> configuration_fields → known conf → known (<[k := v]> conf).
Proof. intros Hk Hc. by apply map_Forall_insert_2. Qed.

Lemma configuration_known (c : RelayRouteConfiguration Secret) conf :
  connector_configuration (Url := Url) c = Ok conf → known conf.
Proof.
  unfold connector_configuration. intros (u & _ & (ms & _ & Hc)%bind_Ok)%bind_Ok. cbv zeta in Hc.
  assert (∀ k, bool_decide (k ∈ field_name <$> configuration_fields) = true →
    ∀ v conf, known conf → known (<[k := v]> conf)) as Hi.
  { intros k Hk v m. apply known_insert. by apply bool_decide_eq_true in Hk. }
  case_match; [injection Hc as <-|apply bind_Ok in Hc as (t & _ & (s & _ & [= <-])%bind_Ok);
    apply Hi; [vm_compute; reflexivity|]];
    (destruct (http_proxy c); repeat (apply Hi; [vm_compute; reflexivity|]); apply map_Forall_empty).
Qed.

Lemma encode_nonempty servers t : encode_ice_servers servers = Ok t → t ≠ [].
Proof. unfold encode_ice_servers. intros Ht%ok_or_Ok. by eapply Hjson. Qed.

(** C19: Every configuration the connector hands to Core conforms to the schema of its own
    manifest: each field has a value of its kind that meets its constraint, only optional
    fields and fields with a default may be absent, and there is no key the schema does not
    list.  The source token alone is not the connector's doing: its field conforms exactly
    if the application's token is not empty, which no validation of the route requires. *)
Theorem configuration_conforms (c : RelayRouteConfiguration Secret) conf
  (Hc : connector_configuration (Url := Url) c = Ok conf) (Htime : 0 ≤ startup_timeout c) :
  Forall (λ f, conforms conf f ↔ (field_name f = SOURCE_TOKEN_KEY → expose_secret (source_token c) ≠ []))
    configuration_fields
  ∧ ∀ k, is_Some (conf !! k) → k ∈ field_name <$> configuration_fields.
Proof.
  split; [|intros k [v Hk]; by apply (configuration_known c conf Hc k v Hk)].
  destruct (connector_configuration_carries c conf Hc) as (Hv & _ & K).
  apply validate_Ok in Hv as ((relay & Hrelay & _) & Hproxy & Hsession & Hgroup & _ & Hbus & _ & _ & _ & _ & Hms0 & Hms).
  assert (0 ≤ as_millis (startup_timeout c)) by (apply Z.div_pos; unfold MILLISECOND; lia).
  unfold configuration_fields, required_text.
  repeat (apply Forall_cons; split); try apply Forall_nil_2; unfold conforms; cbn [field_name field_kind field_constraint field_requirement].
  3: { rewrite (c_token _ _ K). cbn. naive_solver. }
  all: match goal with |- ?P ↔ _ => cut P; [intros HP; by split|] end.
  - rewrite (c_url _ _ K). split; [done|]. intros E. by rewrite E, url_parse_blank in Hrelay.
  - rewrite (c_session _ _ K). split; [done|]. by apply nonblank_nonempty.
  - by rewrite (c_bus _ _ K).
  - rewrite (c_group _ _ K). split; [done|]. by apply nonblank_nonempty.
  - rewrite (c_latency _ _ K). split; [done|]. destruct (latency_profile c); cbn; set_solver.
  - destruct (c_ice _ _ K) as [[_ ->]|(t & s & Ht & Hs & ->)]; [done|]. split; [done|]. cbn.
    rewrite (secret_new_expose _ _ Hs). by eapply encode_nonempty.
  - rewrite (c_timeout _ _ K). split; [done|]. cbn. lia.
  - rewrite (c_transport _ _ K). split; [done|]. destruct (transport c); cbn; set_solver.
  - rewrite (c_proxy _ _ K). destruct (http_proxy c) as [p|]; cbn; [|done]. split; [done|].
    destruct (Hproxy p eq_refl) as [u Hu]. intros E. eapply proxy_nonblank in Hu. by rewrite E in Hu.
Qed.

(** The manifest's default of a field, as Core projects it. *)
Definition default_of (f : ConnectorConfigurationField) : option text :=
  match field_requirement f with
  | DefaultText t => Some t
  | DefaultDuration ms => Some (decimal ms)
  | Required | Optional => None
  end.

(** A node configuration with the defaults of the manifest filled in. *)
Definition with_defaults (n : NodeConfig) : NodeConfig :=
  {| node_get k :=
       match node_get n k with
       | Some v => Some v
       | None => find (λ f, bool_decide (field_name f = k)) configuration_fields ≫= default_of
       end;
     is_sensitive := is_sensitive n |}.

(** The defaults the manifest advertises are the ones the connector assumes: a
    configuration in which Core fills them in is parsed to the same route, or refused with
    the same error, as one in which the fields are absent. *)
Theorem manifest_defaults_agree (n : NodeConfig) :
  from_node_config (Url := Url) (Secret := Secret) (with_defaults n)
  = from_node_config (Url := Url) n.
Proof.
  assert (∀ k d, default_of <$> find (λ f, bool_decide (field_name f = k)) configuration_fields = Some d →
    node_get (with_defaults n) k = match node_get n k with Some v => Some v | None => d end) as Hget.
  { intros k d E. unfold with_defaults. cbn [node_get].
    destruct (find _ configuration_fields); [|done]. injection E as <-. by destruct (node_get n k). }
  assert (∀ k, default_of <$> find (λ f, bool_decide (field_name f = k)) configuration_fields = Some None →
    node_get (with_defaults n) k = node_get n k) as Hsame.
  { intros k E. rewrite (Hget k None E). by destruct (node_get n k). }
  assert (∀ k, default_of <$> find (λ f, bool_decide (field_name f = k)) configuration_fields = Some None →
    required (with_defaults n) k = required n k) as Hreq.
  { intros k E. unfold required. by rewrite Hsame. }
  unfold from_node_config, required_sensitive, proxy_of.
  rewrite !Hreq by (vm_compute; reflexivity).
  rewrite (Hsame ICE_SERVERS_KEY), (Hsame HTTP_PROXY_KEY) by (vm_compute; reflexivity).
  rewrite (Hget STARTUP_TIMEOUT_MS_KEY (Some (lit "30000"))), (Hget LATENCY_PROFILE_KEY (Some (lit "standard"))),
    (Hget TRANSPORT_KEY (Some (lit "webrtc"))) by (vm_compute; reflexivity).
  unfold required_sensitive. rewrite !Hreq by (vm_compute; reflexivity).
  by destruct (node_get n STARTUP_TIMEOUT_MS_KEY), (node_get n LATENCY_PROFILE_KEY), (node_get n TRANSPORT_KEY).
Qed.
End Conformance.

(** ** A sample configuration *)

Module Example.
Import Extern.Sample.

(** A document is the URL of its one server behind a bracket. *)
#[export] Instance json : WireJson :=
  {| to_json wire := match wire with [mkWire [u] None None] => Some (91 :: u) | _ => None end;
     from_json t := match t with _ :: u => Some [mkWire [u] None None] | [] => None end |}.

Definition configured : Result RelayConfigurationError (ConnectorConfiguration Secret) :=
  connector_configuration (Url := Url) Config.Example_route.base.
End Example.

Import Extern.Sample Example.

Lemma configuration_conforms_witness :
  ∃ conf, Example.configured = Ok conf
    ∧ Forall (λ f, conforms conf f ↔ (field_name f = SOURCE_TOKEN_KEY → expose_secret (source_token
        Config.Example_route.base) ≠ [])) configuration_fields.
Proof.
  destruct Example.configured as [conf|] eqn:E; [|vm_compute in E; discriminate E].
  exists conf. split; [reflexivity|].
  refine (proj1 (configuration_conforms (Url := Url) _ Config.Example_route.base conf E _)).
  - intros wire t. cbn. repeat case_match; intros; simplify_eq; discriminate.
  - vm_compute. discriminate.
Defined.
