(* ===== verification/Pipeline.v ===== *)
(** * The audio pipeline: from the capture to the wire

    Three threads carry the audio of a route: its feeder ([Runtime.Feeder]), its encoder
    ([Encoder]) and the publisher ([Publisher]), joined by the two bounded channels that
    [runtime.rs] and [frame_publisher.rs] create.  [Channel] is [std::sync::mpsc]'s
    [sync_channel] as the code uses it, and the theorem composes what the three threads
    guarantee along it. *)

From S2P Require Import Prelude Env Text Extern Errors Packetizer Encoder EncoderThread Transport WebRtc Publisher RtpOrder FramePublisher Runtime.

(** ** [std::sync::mpsc::sync_channel] *)

Module Channel.

Section Channel.
Context {A : Type}.
Implicit Types (q : list A).

(** What happens to a channel: a send that succeeds, and a receive that does. *)
Inductive Event : Type := Push (x : A) | Pop.

(** A channel of [depth] slots that holds [q] goes through the events: what was received,
    and what it holds then.  A send succeeds only when a slot is free, a receive only when
    the channel holds something. *)
Fixpoint runs (depth : nat) q (events : list Event) : option (list A * list A) :=
  match events with
  | [] => Some ([], q)
  | Push x :: events => if (length q <? depth)%nat then runs depth (q ++ [x]) events else None
  | Pop :: events =>
      match q with
      | [] => None
      | x :: q => '(out, q) ← runs depth q events; Some (x :: out, q)
      end
  end.

Fixpoint pushed (events : list Event) : list A :=
  match events with
  | [] => []
  | Push x :: events => x :: pushed events
  | Pop :: events => pushed events
  end.

(** First in, first out; nothing is lost or duplicated, and no more is in flight than the
    channel has slots. *)
Lemma runs_fifo depth events : ∀ q out q',
  runs depth q events = Some (out, q') → (length q ≤ depth)%nat →
  q ++ pushed events = out ++ q' ∧ (length q' ≤ depth)%nat.
Proof.
  induction events as [|[x|] events IH]; intros q out q'; cbn [runs pushed].
  - intros [= <- <-] Hq. by rewrite app_nil_r.
  - destruct (Nat.ltb_spec (length q) depth); [|done]. intros E Hq.
    apply IH in E as [E Hl]; [|rewrite length_app; cbn; lia]. by rewrite <- app_assoc in E.
  - destruct q as [|x q]; [done|]. destruct (runs depth q events) as [[out1 q1]|] eqn:E; [|done].
    intros [= <- <-] Hq. cbn in Hq. apply IH in E as [E Hl]; [|lia]. cbn. by rewrite E.
Qed.

(** A channel through which [sent] were sent and [received] were received holds [waiting]. *)
Definition through (depth : nat) (sent received waiting : list A) : Prop :=
  ∃ events, pushed events = sent ∧ runs depth [] events = Some (received, waiting).

Lemma through_fifo depth sent received waiting :
  through depth sent received waiting → sent = received ++ waiting ∧ (length waiting ≤ depth)%nat.
Proof.
  intros (events & <- & E). apply runs_fifo in E as [E Hl]; [done|cbn; lia].
Qed.
End Channel.
Arguments Event : clear implicits.

End Channel.

(** ** Packets and the frames that carry them *)

Section Packets.
Context {W : Type} `{EncoderEnv W}.

(** [frames] are encodings of some of the packets, in order. *)
Definition encodings (packets : list (list f32 * Z)) (frames : list EncodedAudioFrame) : Prop :=
  ∃ chosen, chosen `sublist_of` packets ∧ Forall2 encodes chosen frames.

Lemma sent_encodings packets fates : Forall2 fate_of packets fates → encodings packets (sent fates).
Proof.
  induction 1 as [|packet x packets fates Hx _ (chosen & Hc & Hf)]; [by exists []|].
  destruct x; cbn [sent]; try (exists chosen; split; [by apply sublist_cons|done]).
  exists (packet :: chosen). split; [by apply sublist_skip|by constructor].
Qed.

Lemma encodings_take k packets frames : encodings (take k packets) frames → encodings packets frames.
Proof.
  intros (chosen & Hc & Hf). exists chosen. split; [|done]. etrans; [exact Hc|]. apply sublist_take.
Qed.

Lemma encodings_sublist packets frames frames' :
  frames' `sublist_of` frames → encodings packets frames → encodings packets frames'.
Proof.
  intros Hs (chosen & Hc & Hf). destruct (Forall2_sublist _ _ _ _ Hf Hs) as (chosen' & H1 & H2).
  exists chosen'. split; [by etrans|done].
Qed.
End Packets.

(** ** The route *)

Section Route.
Context {F E P : Type} `{Feeder.FeederEnv F} `{EncoderEnv E} `{PublisherEnv P}
  (heard : E → list EndpointAudioFrame) `{!InputLog E heard}
  (taken : nat → P → list EncodedAudioFrame) (written : Mid → P → list rtp_packet)
  `{!PublisherLog P taken written}.

(** The loop's state, whether the publication goes on or has ended. *)
Definition at_loop (outcome : Loop P + (Result BoxedError unit * Loop P)) : Loop P :=
  match outcome with inl s | inr (_, s) => s end.

(** Where the captured frames went: [accepted] by the encoder, or counted. *)
Record frames_kept (fed : Feeder.State F + (Feeder.Left * Feeder.State F))
  (accepted capturing : list EndpointAudioFrame) (refused cancelled : nat) : Prop := mkFramesKept {
  frames_order : accepted `sublist_of` Feeder.taken (Feeder.reached fed);
  frames_sum : Z.of_nat (length (Feeder.taken (Feeder.reached fed)))
    = Z.of_nat (length accepted + refused + cancelled + length capturing)
      + Feeder.input_drops (Feeder.reached fed) + Feeder.ingress_queue_drops_total (Feeder.reached fed)
      + Feeder.unaccounted fed;
}.

(** The publication ended with an error. *)
Definition publication_failed (outcome : Loop P + (Result BoxedError unit * Loop P)) : bool :=
  match outcome with inr (Err _, _) => true | _ => false end.

(** What an encoder thread leaves without a fate: nothing, unless a packet of the last frame
    found the publisher gone; then what the frame leaves after that packet. *)
Definition left_behind (packets : list (list f32 * Z)) (fates : list Fate) (abandoned : nat) : Prop :=
  abandoned = (length packets - length fates)%nat ∧ (tally is_lost fates = 0 → abandoned = 0%nat).

(** Where the packets of the accepted frames went: [frames] carried them to the wire, or
    the encoder's [fates] or the publisher's counters say why not.  In no counter are the
    packet that found the publisher gone ([tally is_lost fates], at most one), the
    [abandoned] ones after it, and the one frame the publisher [lost] when the publication
    failed. *)
Definition packets_kept (failed : bool) (packets : list (list f32 * Z)) (fates : list Fate)
  (encoding : list EncodedAudioFrame) (a a' : ActivePublishStream) (wire : list rtp_packet) : Prop :=
  ∃ frames stale dropped lost abandoned,
    wire = rtp_of a <$> frames ∧ encodings packets frames
    ∧ (lost ≤ if failed then 1 else 0)%nat ∧ tally is_lost fates ≤ 1 ∧ left_behind packets fates abandoned
    ∧ Z.of_nat (length packets) = Z.of_nat (length frames + stale + dropped + lost + length encoding)
        + tally is_unencodable fates + tally is_cancelled fates + tally is_crowded fates + tally is_lost fates
        + Z.of_nat abandoned
    ∧ publisher_stale_drops (counters a') mod 2 ^ 64
        = (publisher_stale_drops (counters a) + Z.of_nat stale) mod 2 ^ 64
    ∧ cancelled_output_frames (counters a') mod 2 ^ 64
        = (cancelled_output_frames (counters a) + Z.of_nat dropped) mod 2 ^ 64.

(** A frame that left the feeder's channel was captured. *)
Lemma feeder_frames rounds delivery wf ch accepted refused cancelled capturing we encoded depth
  (Hfew : Z.of_nat (length (Feeder.taken (Feeder.reached (Feeder.feed rounds delivery wf)))) ≤ U64_MAX) :
  heard we = [] →
  sorted_out heard ch (heard we) accepted refused cancelled (Encoder.world encoded) →
  Channel.through depth (Feeder.forwarded (Feeder.reached (Feeder.feed rounds delivery wf)))
    (heard (Encoder.world encoded)) capturing →
  frames_kept (Feeder.feed rounds delivery wf) accepted capturing refused cancelled.
Proof.
  intros Hnone [(input & Hin & Hacc & Hlen) _] [Hfifo _]%Channel.through_fifo.
  rewrite Hnone in Hin. cbn in Hin.
  pose proof (Feeder.feed_sound rounds delivery wf) as Hs.
  assert (Feeder.accounted (Feeder.unaccounted (Feeder.feed rounds delivery wf))
    (Feeder.reached (Feeder.feed rounds delivery wf))) as [_ Hsum _ _ Hord].
  { destruct (Feeder.feed rounds delivery wf) as [s|[l s]]; destruct Hs as [Ha _]; by apply Ha. }
  rewrite Hfifo in Hsum, Hord. constructor.
  - etrans; [exact Hacc|]. rewrite <- Hin. etrans; [|exact Hord]. by apply sublist_inserts_r.
  - rewrite length_app in Hsum. rewrite <- Hin in Hlen. lia.
Qed.

(** A packet on the wire carries a frame of the encoder's. *)
Lemma publisher_packets (broken : bool) s0 s1 i a n ch m accepted refused cancelled fates encoded encoding depth :
  Publisher.streams s0 !! i = Some a → taken (encoded_rx a) (Publisher.world s0) = [] →
  written (mid a) (Publisher.world s0) = [] → flows taken written (if broken then 1 else 0) s0 s1 →
  EncoderThread.account heard n ch m accepted refused cancelled fates encoded →
  Channel.through depth (delivered (W := E) encoded) (taken (encoded_rx a) (Publisher.world s1)) encoding →
  ∃ a', Publisher.streams s1 !! i = Some a'
        ∧ packets_kept broken (EncoderThread.offered n ch accepted) fates encoding a a'
            (written (mid a) (Publisher.world s1)).
Proof.
  intros Ha Ht Hw Hflow Hacc [Hfifo _]%Channel.through_fifo.
  pose proof (account_fates _ _ _ _ _ _ _ _ _ Hacc) as Hfates.
  pose proof (account_sent _ _ _ _ _ _ _ _ _ Hacc) as Hd.
  destruct (account_left _ _ _ _ _ _ _ _ _ Hacc) as (Hone & Hnone & Hlen).
  destruct (Hflow i a Ha) as (a' & l & Hl & Ha' & frames & out & stale & dropped & [_ M2 M3 M4 M5 M6 M7 _ _]).
  rewrite Ht in M2. rewrite Hw in M3. cbn in M2, M3.
  exists a'. split; [done|].
  exists out, stale, dropped, l, (length (EncoderThread.offered n ch accepted) - length fates)%nat.
  split_and!; try done; [|split; [done|lia]|].
  - apply encodings_take with (k := length fates).
    eapply encodings_sublist; [|by apply sent_encodings]. rewrite <- Hd, Hfifo, M2.
    by apply sublist_inserts_r.
  - pose proof (tally_total fates) as Htotal. rewrite <- Hd, Hfifo, M2, length_app in Htotal. lia.
Qed.

(** *** The loop a publication starts with *)

Lemma start_loop_streams ws ss w (s0 : Loop P) t w0 :
  start_loop ws ss w = (Ok (s0, t), w0) → Forall2 (λ s a, activate w s = Ok a) ss (Publisher.streams s0).
Proof.
  unfold start_loop. case_bool_decide; [done|]. unfold io_fun at 1.
  intros (l & w1 & [= Eq ->] & Hl)%io_bind_Ok. apply collect_Ok in Eq.
  do 6 (apply io_bind_Ok in Hl as (? & ? & _ & Hl)). by injection Hl as <- _ _.
Qed.

Lemma activate_names w s a :
  activate w s = Ok a → mid a = stream_mid s ∧ encoded_rx a = stream_rx s.
Proof. unfold activate. intros (pt & _ & [= <-])%bind_Ok. done. Qed.

(** Every stream has the medium of its place, and the channel of its index. *)
Lemma publish_stream_lookup mids prepared i s :
  publish_streams mids prepared !! i = Some s → mids !! i = Some (stream_mid s) ∧ stream_rx s = i.
Proof.
  unfold publish_streams. rewrite lookup_zip_with, list_lookup_imap.
  destruct (mids !! i), (prepared !! i); try done. by intros [= <-].
Qed.

Lemma loop_apart ws mids prepared w (s0 : Loop P) t w0 :
  NoDup mids → start_loop ws (publish_streams mids prepared) w = (Ok (s0, t), w0) → apart s0.
Proof.
  intros Hm Hs%start_loop_streams.
  assert (∀ i a, Publisher.streams s0 !! i = Some a → mids !! i = Some (mid a) ∧ encoded_rx a = i) as Hl.
  { intros i a Ha. destruct (Forall2_lookup_r _ _ _ _ _ Hs Ha) as (s & Eq & [-> ->]%activate_names).
    by eapply publish_stream_lookup. }
  split; apply NoDup_alt; intros i j k; rewrite !list_lookup_fmap;
    destruct (Publisher.streams s0 !! i) as [a|] eqn:Ea; try done;
    destruct (Publisher.streams s0 !! j) as [b|] eqn:Eb; try done; intros [= <-] [= Eq];
    apply Hl in Ea as [Ha Hi], Eb as [Hb Hj].
  - congruence.
  - rewrite Eq in Hb. by eapply NoDup_lookup.
Qed.

(** C1: The audio of a route from its capture to the wire.  The publication starts with
    the prepared streams and the media of the handshake, all different; the feeder, the
    encoder thread and the publisher run as they will, joined by channels of the profile's
    depths, and the encoder has ended.  Then the RTP packets of the stream are encodings of
    20 ms packets of frames the host captured, each at most once and in the order of
    capture, stamped with the capture time of their first sample; every captured frame was
    accepted by the encoder or is in a counter, or waits in a channel, but for the one with
    which the feeder found the encoder gone; every packet cut from an accepted frame is on
    the wire, in a counter or waits in a channel, but for three kinds: one frame that the
    publisher loses when the publication fails, and if the encoder found the publisher
    gone, the packet it found that with and what the same captured frame leaves after it;
    and no more than the profile's two depths is ever under way. *)
Theorem captured_audio_reaches_the_wire ch rounds delivery wf fuel we encoded capturing encoding
  publication ws mids prepared w s0 t0 w0 i m x (Hch : ch = 1 ∨ ch = 2)
  (Hfew : Z.of_nat (length (Feeder.taken (Feeder.reached (Feeder.feed rounds delivery wf)))) ≤ U64_MAX)
  (Htime : ∀ w f w', recv w = (Some f, w') → frame_ok f) (Hnone : heard we = [])
  (Hmids : NoDup mids) (Hm : mids !! i = Some m) (Hx : prepared !! i = Some x)
  (Hencoder : spawn_opus_encoder fuel true ch 960 (for_latency_profile (latency x)) counters_default we
              = Some encoded)
  (Hcaptured : Channel.through (capture_channel_depth (latency x))
     (Feeder.forwarded (Feeder.reached (Feeder.feed rounds delivery wf))) (heard (Encoder.world encoded)) capturing)
  (Hstart : start_loop ws (publish_streams mids prepared) w = (Ok (s0, t0), w0))
  (Hfresh : taken i (Publisher.world s0) = [] ∧ written m (Publisher.world s0) = [])
  (Hencoded : Channel.through (encoded_channel_depth (latency x)) (delivered encoded)
     (taken i (Publisher.world (at_loop (publish_loop publication ws s0)))) encoding) :
  let n := (OPUS_FRAME_SAMPLES * Z.to_nat ch)%nat in
  let s1 := at_loop (publish_loop publication ws s0) in
  ∃ accepted refused cancelled fates a a',
    EncoderThread.account heard n ch [] accepted refused cancelled fates encoded
    ∧ frames_kept (Feeder.feed rounds delivery wf) accepted capturing refused cancelled
    ∧ activate w (Publisher.mkStream m i (backlog_policy_of (latency x)) (FramePublisher.stream_counters x)) = Ok a
    ∧ Publisher.streams s1 !! i = Some a'
    ∧ packets_kept (publication_failed (publish_loop publication ws s0)) (EncoderThread.offered n ch accepted) fates encoding
        a a' (written m (Publisher.world s1))
    ∧ (length capturing ≤ capture_channel_depth (latency x))%nat
    ∧ (length encoding ≤ encoded_channel_depth (latency x))%nat.
Proof.
  intros n s1.
  assert (publish_streams mids prepared !! i
    = Some (Publisher.mkStream m i (backlog_policy_of (latency x)) (FramePublisher.stream_counters x))) as Hs.
  { unfold publish_streams. by rewrite lookup_zip_with, list_lookup_imap, Hm, Hx. }
  destruct (Forall2_lookup_l _ _ _ _ _ (start_loop_streams _ _ _ _ _ _ Hstart) Hs) as (a & Ha & Hact).
  pose proof (activate_names _ _ _ Hact) as [Emid Erx]. cbn in Emid, Erx. rewrite <- Emid, <- Erx in Hfresh.
  rewrite <- Erx in Hencoded.
  destruct (thread_account heard fuel ch _ we encoded Htime Hch Hencoder)
    as (accepted & refused & cancelled & fates & Hacc).
  pose proof (carried_loop taken written publication ws s0 (loop_apart _ _ _ _ _ _ _ Hmids Hstart)) as Hcarried.
  assert (flows taken written (if publication_failed (publish_loop publication ws s0) then 1 else 0) s0 s1) as Hflow.
  { unfold s1, at_loop, carried_by in *. destruct (publish_loop publication ws s0) as [s|[[] s]]; try done.
    by destruct Hcarried. }
  destruct (publisher_packets _ s0 s1 i a n ch _ accepted refused cancelled fates encoded encoding _ Ha
    (proj1 Hfresh) (proj2 Hfresh) Hflow Hacc Hencoded) as (a' & Ha' & Hpackets).
  exists accepted, refused, cancelled, fates, a, a'. split_and!; try done.
  - by rewrite <- Hnone.
  - by eapply feeder_frames; [| |exact (account_input _ _ _ _ _ _ _ _ _ Hacc)|].
  - by rewrite <- Emid.
  - by eapply Channel.through_fifo.
  - by eapply Channel.through_fifo.
Qed.
End Route.

(** ** A short publication *)

Module Take.
Import (hints) Runtime.Bench Tape Engine Wire.

(** Four captured frames: the second comes while the publication is paused, the third finds
    the queue full. *)
Definition capture : Runtime.Bench.Feed :=
  Runtime.Bench.mkFeed
    [Tape.frame 1 1000 48000 1000 f32_zero None; Tape.frame 2 960 48000 20834333 f32_zero None;
     Tape.frame 3 960 48000 40834333 f32_zero None; Tape.frame 4 960 48000 60834333 f32_zero None]
    [false; true; false; false] [None; Some Full; None].
Abbreviation fed := (Feeder.feed 9 true capture).
Abbreviation inbox := (Feeder.forwarded (Feeder.reached fed)).

Definition studio : Tape.World := Tape.mkWorld inbox [] 5 5.
Abbreviation encoder_run :=
  (spawn_opus_encoder 9 true 1 960 (for_latency_profile Encoder.Standard) counters_default studio).
Definition encoded : list EncodedAudioFrame := from_option (delivered (W := Tape.World)) [] encoder_run.

Definition prepared : list PreparedFrameStream :=
  [mkPreparedStream VoiceMono20ms Encoder.Standard counters_default].
Definition world0 : Wire.World :=
  (Engine.mkWorld 0 false 0 [] (λ i, match i with O => encoded | _ => [] end) (λ _, []), []).
Abbreviation begun := (start_loop 3 (publish_streams [0] prepared) world0).
Definition loop0 : Loop Wire.World :=
  match begun with (Ok (s, _), _) => s | _ => mkLoop [] 0 0 0 0 0 world0 end.

(** After two iterations, one for the timeout of the engine, the second packet still waits. *)
Abbreviation loop1 := (at_loop (publish_loop 2 3 loop0)).
End Take.

Import (hints) Runtime.Bench Tape Engine Wire.

Lemma take_thread thread :
  Take.encoder_run = Some thread →
  delivered thread = Take.encoded ∧ Tape.heard (Encoder.world thread) = Take.inbox.
Proof.
  intros E. split; [unfold Take.encoded; by rewrite E|].
  assert ((λ s, Tape.heard (Encoder.world s)) <$> Take.encoder_run = Some Take.inbox) as E' by (vm_compute; reflexivity).
  rewrite E in E'. exact (Some_inj _ _ E').
Qed.

Lemma take_captured : Channel.through 16 Take.inbox Take.inbox [].
Proof.
  exists ((Channel.Push <$> Take.inbox) ++ ((λ _, Channel.Pop) <$> Take.inbox)).
  split; vm_compute; reflexivity.
Qed.

Lemma take_encoded :
  Channel.through 8 Take.encoded (Wire.taken 0 (Publisher.world Take.loop1)) (drop 1 Take.encoded).
Proof.
  exists ((Channel.Push <$> Take.encoded) ++ [Channel.Pop]). split; vm_compute; reflexivity.
Qed.

Lemma take_begun : Take.begun = (Ok (Take.loop0, 0), Take.begun.2).
Proof. vm_compute. reflexivity. Qed.

Lemma take_few : Z.of_nat (length (Feeder.taken (Feeder.reached Take.fed))) ≤ U64_MAX.
Proof. apply Z.leb_le. vm_compute. reflexivity. Qed.

Lemma captured_audio_reaches_the_wire_witness :
  (capture_timestamp_ns <$> Take.encoded) = [1000; 60834333] ∧
  (λ p : rtp_packet, capture_timestamp_ns p.2) <$> Wire.written 0 (Publisher.world Take.loop1) = [1000] ∧
  ∃ thread accepted refused cancelled fates a',
    Take.encoder_run = Some thread
    ∧ frames_kept Take.fed accepted [] refused cancelled
    ∧ packets_kept false (EncoderThread.offered 960 1 accepted) fates (drop 1 Take.encoded)
        (Engine.stream 0 Preserve) a' (Wire.written 0 (Publisher.world Take.loop1)).
Proof.
  split; [vm_compute; reflexivity|]. split; [vm_compute; reflexivity|].
  destruct Take.encoder_run as [thread|] eqn:E; [|vm_compute in E; discriminate E].
  destruct (take_thread thread E) as [Hd Hh].
  assert (Channel.through 16 Take.inbox (Tape.heard (Encoder.world thread)) []) as H1
    by (rewrite Hh; exact take_captured).
  assert (Channel.through 8 (delivered thread) (Wire.taken 0 (Publisher.world Take.loop1)) (drop 1 Take.encoded)) as H2
    by (rewrite Hd; exact take_encoded).
  destruct (captured_audio_reaches_the_wire Tape.heard Wire.taken Wire.written 1 9 true
    Take.capture 9 Take.studio thread [] (drop 1 Take.encoded) 2 3 [0] Take.prepared Take.world0 Take.loop0 0 _ 0 0 _
    (or_introl eq_refl) take_few Tape.recv_timed eq_refl (NoDup_singleton 0) eq_refl eq_refl E H1 take_begun
    (conj eq_refl eq_refl) H2)
    as (accepted & refused & cancelled & fates & a & a' & _ & H3 & Ha & _ & H4 & _).
  injection Ha as <-.
  exists thread, accepted, refused, cancelled, fates, a'. split; [reflexivity|]. split; [exact H3|exact H4].
Defined.
