(* ===== verification/PipelineWs.v ===== *)
(** * The audio pipeline over WebSocket ingress

    [Pipeline] follows the audio of a route to the RTP packets of a WebRTC publication; this
    file follows it over the other transport.  The feeder and the encoder thread are the
    same; the publisher is [Gateway]'s ingress group, whose frames [IngressOrder] follows.
    What the sockets carry is read back with [decode_packet], the receiver's side of
    [encode_packet], so the theorem speaks of the audio and not of bytes. *)

From Stdlib Require Import Sorted.
From S2P Require Import Prelude Env Text Extern Errors Packetizer Encoder EncoderThread Proxy Config Control Transport FramePublisher Runtime Gateway IngressOrder Pipeline.

(** A part of a sorted list is sorted. *)
Lemma sorted_sublist {A} (R : A → A → Prop) (l k : list A) :
  l `sublist_of` k → StronglySorted R k → StronglySorted R l.
Proof.
  induction 1 as [|x l k Hs IH|x l k _ IH]; [done|..]; inversion 1; subst; [|by apply IH].
  constructor; [by apply IH|]. by eapply Forall_sublist.
Qed.

(** ** Frames on an ingress connection *)

(** The frames of these events that were handed to a socket. *)
Definition on_wire (x : EncodedAudioFrame * IngressOrder.Fate) : bool :=
  match x.2 with Delivered _ | Broken _ => true | _ => false end.

Definition sequence_of (p : list Z) : option Z := packet_sequence <$> decode_packet p.

Section Connection.
Context (ch : Z).
Implicit Types (l : list (EncodedAudioFrame * IngressOrder.Fate)).

(** What [encode_packet] asks of a frame besides the length of its payload. *)
Definition on_grid (f : EncodedAudioFrame) : Prop :=
  (ch = 1 ∨ ch = 2) ∧ duration_samples f = DURATION_SAMPLES ∧ (DURATION_SAMPLES | rtp_time f).

(** Of frames on the grid only one whose payload has not 1 to 1275 bytes is rejected. *)
Definition unsendable (f : EncodedAudioFrame) : Prop :=
  ¬ (1 ≤ length (payload f) ≤ MAX_OPUS_PAYLOAD_BYTES)%nat.

Lemma lawful_rejected x : on_grid x.1 → lawful ch x → x.2 = Rejected → unsendable x.1.
Proof.
  intros (Hc & Hd & Hm) Hl Hr Hb. unfold lawful in Hl. rewrite Hr in Hl.
  destruct (encode_packet_complete x.1 ch (conj Hc (conj Hd (conj Hb Hm)))) as [p E]. by rewrite E in Hl.
Qed.

(** A frame on the wire is one packet of it. *)
Lemma packets_on_wire x :
  lawful ch x →
  if on_wire x then ∃ s p, packets x = [(s, p)] ∧ encode_packet x.1 ch = Ok p else packets x = [].
Proof.
  unfold lawful, on_wire, packets. destruct x as [f []]; cbn [fst snd]; try done.
  all: intros [-> Hok]; destruct (encode_packet f ch) as [p|]; [by exists (ws c), p|done].
Qed.

(** The packets handed over are those of the frames on the wire, in order. *)
Lemma packets_of_frames l :
  Forall (lawful ch) l →
  Forall2 (λ x h, encode_packet x.1 ch = Ok h.2) (filter on_wire l) (l ≫= packets).
Proof.
  induction 1 as [|x l Hx _ IH]; [constructor|]. apply packets_on_wire in Hx. rewrite bind_cons.
  destruct (on_wire x) eqn:E.
  - destruct Hx as (s & p & -> & Hp). rewrite filter_cons_True by by rewrite E. by constructor.
  - rewrite Hx, filter_cons_False by (rewrite E; by intros []). exact IH.
Qed.

(** Numbers of frames on the grid increase with their times. *)
Lemma sequences_increase (frames : list EncodedAudioFrame) (handed : list (list Z)) :
  StronglySorted (λ f g, rtp_time f < rtp_time g) frames →
  Forall (λ f, u64 (rtp_time f)) frames →
  Forall2 (λ f p, encode_packet f ch = Ok p) frames handed →
  StronglySorted Z.lt (omap sequence_of handed).
Proof.
  intros Hs Ht Hf. assert (∀ f p, u64 (rtp_time f) → encode_packet f ch = Ok p →
    sequence_of p = Some (rtp_time f / DURATION_SAMPLES) ∧ (DURATION_SAMPLES | rtp_time f)) as Hseq.
  { intros f p Hu Hp. pose proof Hp as [(_ & _ & _ & Hd) _]%encode_packet_Ok. split; [|done].
    apply decode_encoded in Hp as [_ Hp]. unfold sequence_of. rewrite Hp. cbn. f_equal.
    apply Z.mod_small. unfold u64, U64_MAX, DURATION_SAMPLES in *.
    split; [apply Z.div_pos; lia|]. apply Z.div_lt_upper_bound; lia. }
  induction Hf as [|f p frames handed Hfp Hf IH]; [constructor|].
  inversion Hs as [|? ? Hs' Hlt]; subst. apply Forall_cons in Ht as [Hu Ht].
  destruct (Hseq f p Hu Hfp) as [E Hd]. cbn. rewrite E. constructor; [by apply IH|].
  clear IH Hs Hs' E Hfp. induction Hf as [|g q frames handed Hgq Hf IH]; [constructor|].
  apply Forall_cons in Hlt as [Hg Hlt], Ht as [Hug Ht]. destruct (Hseq g q Hug Hgq) as [E Hdg].
  cbn. rewrite E. constructor; [|by apply IH]. destruct Hd as [m Hm], Hdg as [k Hk].
  unfold DURATION_SAMPLES in *. rewrite Hm, Hk, !Z.div_mul by done. lia.
Qed.
End Connection.

(** ** Frames the encoder delivered *)

Section Delivered.
Context {E : Type} `{EncoderEnv E}.
Implicit Types (packets : list (list f32 * Z)) (frames : list EncodedAudioFrame).

(** [p] carries the audio of a packet the encoder was offered, and says when it was
    captured. *)
Definition carries (ch : Z) (packet : list f32 * Z) (p : list Z) : Prop :=
  ∃ d bytes w w',
    decode_packet p = Some d ∧ encode_into packet.1 w = (Some bytes, w')
    ∧ packet_payload d = byte_value <$> bytes ∧ packet_capture_ns d = packet.2
    ∧ packet_channels d = ch ∧ packet_duration d = DURATION_SAMPLES.

Lemma encodes_carries ch packet f p :
  u64 packet.2 → encodes packet f → encode_packet f ch = Ok p → carries ch packet p.
Proof.
  intros Hu ((w & w' & He) & Hts & _) [_ Hp]%decode_encoded.
  exists (mkPacket ch ((rtp_time f / DURATION_SAMPLES) mod 2 ^ 64) (rtp_time f mod 2 ^ 32) DURATION_SAMPLES
    (capture_timestamp_ns f mod 2 ^ 64) (from_option generation_id 0 (encoded_generation f) mod 2 ^ 64)
    (byte_value <$> payload f)), (payload f), w, w'.
  split_and!; try done. cbn. rewrite Hts. apply Z.mod_small. unfold u64, U64_MAX in Hu. lia.
Qed.

Lemma encodings_carried ch packets frames (handed : list (list Z)) :
  Forall (λ p, u64 p.2) packets → encodings packets frames →
  Forall2 (λ f p, encode_packet f ch = Ok p) frames handed →
  ∃ chosen, chosen `sublist_of` packets ∧ Forall2 (carries ch) chosen handed.
Proof.
  intros Hu (chosen & Hc & Hf) Hh. exists chosen. split; [done|].
  assert (Forall (λ p, u64 p.2) chosen) as Hu'.
  { by eapply Forall_sublist. }
  clear Hc Hu. revert handed Hh. induction Hf as [|packet f chosen frames Hpf Hf IH]; intros handed Hh.
  - inversion Hh. constructor.
  - apply Forall_cons in Hu' as [Hu Hu']. inversion Hh as [|? p ? handed' Hp Hh']; subst.
    constructor; [by eapply encodes_carries|by apply IH].
Qed.

(** Everything a thread delivers is on the grid. *)
Lemma delivered_on_grid fuel ch pol (w : E) s :
  (ch = 1 ∨ ch = 2) → spawn_opus_encoder fuel true ch 960 pol counters_default w = Some s →
  rtp_sample_count s < U64_MAX →
  StronglySorted (λ f g, rtp_time f < rtp_time g) (delivered s)
  ∧ Forall (λ f, on_grid ch f ∧ u64 (rtp_time f)) (delivered s).
Proof.
  intros Hch Hs Hmax. destruct (thread_schedule _ _ _ _ _ _ _ Hs Hmax) as [Hsort Hall].
  split; [done|]. eapply Forall_impl; [exact Hall|]. intros f (Hd & Hm & Ht).
  split; [|unfold u64; lia]. split_and!; [done|done|]. by apply Z.mod_divide.
Qed.
End Delivered.

(** ** The route *)

Section Ingress.
Context {F E Secret Url W : Type} `{Feeder.FeederEnv F} `{EncoderEnv E}
  (heard : E → list EndpointAudioFrame) `{!InputLog E heard}
  `{SecretLib Secret, UrlLib Url} `{!IngressEnv Secret W}
  (taken : nat → W → list EncodedAudioFrame) (media : W → list (Ws * list Z))
  `{!IngressFrames Secret W taken media}.

(** Where the packets of the accepted frames went: a receiver reads the audio of [handed],
    in packets whose numbers increase; [events] are the fates of all frames the group took
    from the stream, and the counters of the stream are their books.  In no counter are a
    frame that is rejected for the length of its payload, the packet that found the
    publisher gone ([tally is_lost fates], at most one) and the [abandoned] ones after it. *)
Record relayed (ch : Z) (packets : list (list f32 * Z)) (fates : list EncoderThread.Fate)
  (encoding : list EncodedAudioFrame) (a a' : ActiveIngress)
  (events : list (EncodedAudioFrame * IngressOrder.Fate)) (handed : list (list Z))
  (abandoned : nat) : Prop := mkRelayed {
  relayed_audio : ∃ chosen, chosen `sublist_of` packets ∧ Forall2 (carries ch) chosen handed;
  relayed_order : StronglySorted Z.lt (omap sequence_of handed);
  relayed_rejected : Forall (λ x, x.2 = Rejected → unsendable x.1) events;
  relayed_left : tally is_lost fates ≤ 1 ∧ left_behind packets fates abandoned;
  relayed_sum : Z.of_nat (length packets) = Z.of_nat (length events + length encoding)
    + tally is_unencodable fates + tally is_cancelled fates + tally is_crowded fates + tally is_lost fates
    + Z.of_nat abandoned;
  relayed_books : books_of a' = foldl enter (books_of a) events;
  relayed_total : room (length events) (books_of a) →
    total (books_of a') + Z.of_nat (rejections events) = total (books_of a) + Z.of_nat (length events);
}.

(** What the story of a group says of one of its streams. *)
Lemma told_stream events (g g' : Group Secret W) i a :
  told taken media events g g' → Gateway.active g !! i = Some a →
  ∃ a', Gateway.active g' !! i = Some a'
    ∧ taken (encoded_rx a) (Gateway.world g')
      = taken (encoded_rx a) (Gateway.world g) ++ (of_stream i events).*1
    ∧ books_of a' = foldl enter (books_of a) (of_stream i events)
    ∧ Forall (lawful (active_channels a)) (of_stream i events).
Proof.
  intros [_ _ T B L _] Ha.
  specialize (T i (encoded_rx a) ltac:(by rewrite list_lookup_fmap, Ha)).
  specialize (B i (books_of a) ltac:(by rewrite list_lookup_fmap, Ha)).
  rewrite list_lookup_fmap in B. destruct (Gateway.active g' !! i) as [a'|]; [|done]. injection B as B.
  exists a'. split_and!; try done. unfold of_stream. apply Forall_fmap.
  apply Forall_forall. intros [j x] [Hj Hx]%list_elem_of_filter. cbn in Hj. subst j.
  rewrite Forall_forall in L. destruct (L _ Hx) as (n & Hn & Hl). cbn in Hn.
  rewrite list_lookup_fmap, Ha in Hn. by injection Hn as ->.
Qed.

(** The packets of one stream are among those the group handed over. *)
Lemma stream_packets i (events : list IngressOrder.Event) :
  (of_stream i events ≫= packets) `sublist_of` (events ≫= λ e, packets e.2).
Proof.
  induction events as [|[j x] events IH]; [done|]. rewrite bind_cons. unfold of_stream in *.
  destruct (decide (j = i)) as [->|Hne].
  - rewrite filter_cons_True by done. rewrite fmap_cons, bind_cons. by apply sublist_app.
  - rewrite filter_cons_False by done. by apply sublist_inserts_l.
Qed.

(** The stream's frames, from the encoder's books to the sockets'. *)
Lemma stream_relayed ch n pol fuel we encoded accepted refused cancelled fates depth encoding events
  (g g' : Group Secret W) i a
  (Hch : ch = 1 ∨ ch = 2)
  (Hencoder : spawn_opus_encoder fuel true ch 960 pol counters_default we = Some encoded)
  (Hclock : rtp_sample_count encoded < U64_MAX)
  (Hacc : EncoderThread.account heard n ch (heard we) accepted refused cancelled fates encoded)
  (Ha : Gateway.active g !! i = Some a) (Hstream : active_channels a = ch)
  (Hfresh : taken (encoded_rx a) (Gateway.world g) = []) :
  told taken media events g g' →
  Channel.through depth (delivered encoded) (taken (encoded_rx a) (Gateway.world g')) encoding →
  ∃ a', Gateway.active g' !! i = Some a'
    ∧ ∃ abandoned, relayed ch (EncoderThread.offered n ch accepted) fates encoding a a' (of_stream i events)
        (of_stream i events ≫= packets).*2 abandoned.
Proof.
  intros (a' & Ha' & T & B & L)%(fun H => told_stream _ _ _ _ _ H Ha) [Hfifo _]%Channel.through_fifo.
  exists a'. split; [done|]. destruct (account_left _ _ _ _ _ _ _ _ _ Hacc) as (Hone & Hnone & Hlen).
  exists (length (EncoderThread.offered n ch accepted) - length fates)%nat. rewrite Hfresh in T. rewrite Hstream in L. cbn in T. rewrite T in Hfifo.
  destruct (delivered_on_grid _ _ _ _ _ Hch Hencoder Hclock) as [Hsort Hok].
  rewrite Hfifo in Hsort, Hok. apply Forall_app in Hok as [Hok _].
  assert (Forall (λ x, x.2 = Rejected → unsendable x.1) (of_stream i events)) as Hun.
  { rewrite Forall_fmap in Hok. rewrite Forall_forall in Hok, L |- *. intros x Hx.
    apply (lawful_rejected ch); [by apply (Hok x)|by apply L]. }
  pose proof (packets_of_frames ch _ L) as Hp.
  assert (Forall2 (λ f p, encode_packet f ch = Ok p) (filter on_wire (of_stream i events)).*1
    (of_stream i events ≫= packets).*2) as Hp' by by apply Forall2_fmap.
  assert ((filter on_wire (of_stream i events)).*1 `sublist_of` (of_stream i events).*1) as Hsub
    by (apply fmap_sublist, sublist_filter).
  constructor; try done.
  - eapply encodings_carried; [| |exact Hp'].
    + apply offered_timely; [destruct Hch; lia|]. apply Hacc.
    + eapply encodings_take, encodings_sublist; [|apply sent_encodings, Hacc].
      erewrite <- account_sent, Hfifo by done. by apply sublist_inserts_r.
  - eapply sequences_increase; [| |exact Hp'].
    + eapply sorted_sublist; [|exact Hsort]. by apply sublist_inserts_r.
    + eapply Forall_sublist; [exact Hsub|]. eapply Forall_impl; [exact Hok|]. by intros f [_ ?].
  - split; [done|]. split; [done|lia].
  - pose proof (tally_total fates) as Htotal. erewrite <- account_sent, Hfifo in Htotal by done.
    rewrite length_app, length_fmap in Htotal. lia.
  - intros Hroom. rewrite B. by apply books_balance.
Qed.

(** *** The group a publication starts with *)

(** The group [run_with_recovery] publishes, of the connections and the streams that were
    prepared: the encoder of each stream delivers on the channel of its index. *)
Definition started (connections : list IngressConnection) (prepared : list PreparedFrameStream)
  (r : option (PreparedIngressRecovery Secret)) (w : W) : Group Secret W :=
  mkGroup (initial_stream r <$> ingress_streams connections prepared) r w.

Lemma ingress_stream_index connections prepared i x :
  ingress_streams connections prepared !! i = Some x → stream_rx x = i.
Proof.
  unfold ingress_streams. rewrite lookup_zip_with, list_lookup_imap.
  destruct (connections !! i), (prepared !! i); try done. by intros [= <-].
Qed.

Lemma group_apart connections prepared r w :
  NoDup (encoded_rx <$> Gateway.active (started connections prepared r w)).
Proof.
  apply NoDup_alt. intros i j rx. unfold started. cbn. rewrite !list_lookup_fmap.
  destruct (ingress_streams _ _ !! i) as [x|] eqn:Ei; [|done].
  destruct (ingress_streams _ _ !! j) as [y|] eqn:Ej; [|done].
  apply ingress_stream_index in Ei, Ej. cbn. congruence.
Qed.

Lemma started_stream connections prepared r w i c x :
  connections !! i = Some c → prepared !! i = Some x →
  Gateway.active (started connections prepared r w) !! i
  = Some (initial_stream r (Gateway.mkStream c i (FramePublisher.stream_counters x))).
Proof.
  intros Hc Hx. unfold started, ingress_streams. cbn.
  by rewrite list_lookup_fmap, lookup_zip_with, list_lookup_imap, Hc, Hx.
Qed.

(** C2: The audio of a route from its capture to the Relay's WebSockets.  A publication
    starts with the prepared streams and connections; the feeder, the encoder thread and
    the ingress group run as they will, through every reattachment, joined by channels of
    the profile's depths; the encoder has ended, and its 64-bit sample clock has not
    saturated.  Then what a receiver decodes from the stream's binary packets are encodings
    of 20 ms packets of frames the host captured, each at most once and in the order of
    capture, stamped with the capture time of their first sample and numbered in increasing
    order; every captured frame was accepted by the encoder or is in a counter, or waits in
    a channel, but for the one with which the feeder found the encoder gone; every packet
    cut from an accepted frame was taken by the group, is in one of the encoder's counters
    or waits in a channel, but if the encoder found the publisher gone, for the packet it
    found that with and what the same captured frame leaves after it; every frame the group
    took is sent or in exactly one of the stream's counters, but for at most one frame that
    the packet encoder refuses because its payload is empty or longer than 1275 bytes, and
    that ends the publication with a protocol error; and no more than the profile's two
    depths is ever under way. *)
Theorem captured_audio_reaches_the_relay rounds delivery wf fuel we encoded capturing encoding
  connections prepared r publication context w i c x
  (Hc : connections !! i = Some c) (Hx : prepared !! i = Some x) (Hch : channels c = 1 ∨ channels c = 2)
  (Hfew : Z.of_nat (length (Feeder.taken (Feeder.reached (Feeder.feed rounds delivery wf)))) ≤ U64_MAX)
  (Htime : ∀ w f w', recv w = (Some f, w') → frame_ok f) (Hnone : heard we = [])
  (Hencoder : spawn_opus_encoder fuel true (channels c) 960 (for_latency_profile (latency x)) counters_default we
              = Some encoded)
  (Hclock : rtp_sample_count encoded < U64_MAX)
  (Hcaptured : Channel.through (capture_channel_depth (latency x))
     (Feeder.forwarded (Feeder.reached (Feeder.feed rounds delivery wf))) (heard (Encoder.world encoded)) capturing)
  (Hfresh : taken i w = [])
  (Hencoded : Channel.through (encoded_channel_depth (latency x)) (delivered encoded)
     (taken i (Gateway.world (reached (publish_group (Url := Url) publication context
        (started connections prepared r w))))) encoding) :
  let n := (OPUS_FRAME_SAMPLES * Z.to_nat (channels c))%nat in
  let g' := reached (publish_group (Url := Url) publication context (started connections prepared r w)) in
  ∃ accepted refused cancelled fates a' events sent handed abandoned,
    EncoderThread.account heard n (channels c) [] accepted refused cancelled fates encoded
    ∧ frames_kept (Feeder.feed rounds delivery wf) accepted capturing refused cancelled
    ∧ media (Gateway.world g') = media w ++ sent ∧ handed `sublist_of` sent
    ∧ Gateway.active g' !! i = Some a'
    ∧ relayed (channels c) (EncoderThread.offered n (channels c) accepted) fates encoding
        (initial_stream r (Gateway.mkStream c i (FramePublisher.stream_counters x))) a' events handed.*2 abandoned
    ∧ (rejections events ≤ 1)%nat
    ∧ ((0 < rejections events)%nat → ∃ g1, publish_group (Url := Url) publication context
         (started connections prepared r w) = inr (Gateway.failed Protocol, g1))
    ∧ (length capturing ≤ capture_channel_depth (latency x))%nat
    ∧ (length encoding ≤ encoded_channel_depth (latency x))%nat.
Proof.
  intros n g'. set (g := started connections prepared r w) in *.
  destruct (thread_account heard fuel (channels c) _ we encoded Htime Hch Hencoder)
    as (accepted & refused & cancelled & fates & Hacc).
  destruct (story_exists taken media (Url := Url) publication context g) as (events & Hstory);
    [apply group_apart|apply initial_tuned|].
  apply told_rejections in Hstory as (Htold & Hfew' & Hrejected). fold g' in Htold.
  pose proof (rejections_of_stream i events) as Hpart.
  destruct (stream_relayed (channels c) n _ fuel we encoded accepted refused cancelled fates _ encoding events
    g g' i _ Hch Hencoder Hclock Hacc (started_stream _ _ r w _ _ _ Hc Hx) eq_refl Hfresh Htold Hencoded)
    as (a' & Ha' & abandoned & Hrelayed).
  exists accepted, refused, cancelled, fates, a', (of_stream i events), (events ≫= λ e, packets e.2),
    (of_stream i events ≫= packets), abandoned.
  split_and!; try done.
  - by rewrite <- Hnone.
  - by eapply feeder_frames; [| |exact (account_input _ _ _ _ _ _ _ _ _ Hacc)|].
  - apply Htold.
  - apply stream_packets.
  - lia.
  - intros Hpos. apply Hrejected. lia.
  - by eapply Channel.through_fifo.
  - by eapply Channel.through_fifo.
Qed.
End Ingress.

(** ** A short publication *)

Module Relay.
Import Sample Gateway.Simulation.
Import (hints) Gateway.Simulation Tape.

(** A mono stream, whose encoder delivers the take of [Pipeline]. *)
Definition connections : list IngressConnection := [mkConnection 3 1 4].
Definition prepared : list PreparedFrameStream :=
  [mkPreparedStream VoiceMono20ms Encoder.Standard counters_default].
Definition world0 : World :=
  mkWorld 0 [] false [Ok MPing; Ok (MText [5])] (Received <$> Take.encoded) renewed_control [].
Definition group : Group Secret World := started connections prepared (Some recovery0) world0.
Abbreviation published := (reached (publish_group (Url := Url) 1 true group)).
Abbreviation collected := (Recorder.taken 0 (Gateway.world published)).
End Relay.

Import (hints) Runtime.Bench Tape Sample Gateway.Simulation IngressOrder.Recorder.

Lemma relay_encoded : Channel.through 8 Take.encoded Relay.collected (drop 1 Take.encoded).
Proof.
  exists ((Channel.Push <$> Take.encoded) ++ [Channel.Pop]). split; vm_compute; reflexivity.
Qed.

Lemma take_clock thread : Take.encoder_run = Some thread → rtp_sample_count thread < U64_MAX.
Proof.
  intros E. assert (rtp_sample_count <$> Take.encoder_run = Some 1920) as E' by (vm_compute; reflexivity).
  rewrite E in E'. by rewrite (Some_inj _ _ E').
Qed.

Lemma captured_audio_reaches_the_relay_witness :
  (λ m : Ws * list Z, packet_capture_ns <$> decode_packet m.2) <$> Recorder.media (Gateway.world Relay.published)
    = [Some 1000] ∧
  ∃ thread accepted refused cancelled fates a' events handed abandoned,
    Take.encoder_run = Some thread
    ∧ frames_kept Take.fed accepted [] refused cancelled
    ∧ relayed 1 (EncoderThread.offered 960 1 accepted) fates (drop 1 Take.encoded)
        (initial_stream (Some Gateway.Simulation.recovery0) (Gateway.mkStream (mkConnection 3 1 4) 0 counters_default))
        a' events handed abandoned.
Proof.
  split; [vm_compute; reflexivity|].
  destruct Take.encoder_run as [thread|] eqn:E; [|vm_compute in E; discriminate E].
  destruct (take_thread thread E) as [Hd Hh].
  assert (Channel.through 16 Take.inbox (Tape.heard (Encoder.world thread)) []) as H1
    by (rewrite Hh; exact take_captured).
  assert (Channel.through 8 (delivered thread) Relay.collected (drop 1 Take.encoded)) as H2
    by (rewrite Hd; exact relay_encoded).
  destruct (captured_audio_reaches_the_relay Tape.heard Recorder.taken Recorder.media 9 true
    Take.capture 9 Take.studio thread [] (drop 1 Take.encoded) Relay.connections Relay.prepared
    (Some Gateway.Simulation.recovery0) 1 true Relay.world0 0 _ _ eq_refl eq_refl (or_introl eq_refl)
    take_few Tape.recv_timed eq_refl E (take_clock thread E) H1 eq_refl H2)
    as (accepted & refused & cancelled & fates & a' & events & sent & handed & abandoned & _ & H3 & _ & _ & _ & H4 & _).
  exists thread, accepted, refused, cancelled, fates, a', events, handed.*2, abandoned.
  split; [reflexivity|]. split; [exact H3|exact H4].
Defined.
